(* ===== verification/_CoqProject ===== *)
-Q . S2P
Prelude.v
KvRpc.v
KvSrv.v
KvClerk.v
KvHistory.v
LabRpc.v
LabRpcCalls.v
KvNet.v
Transport.v
Demux.v
DemuxCalls.v
Lock.v
RaftNode.v
RaftSlices.v
RaftFacts.v
RaftCluster.v
Election.v
RaftElection.v
RaftLog.v
RaftSafety.v
RaftParts.v
Replication.v
RaftReplication.v
RaftAgreement.v
RaftServer.v
RaftTest.v
RaftSnaps.v
RaftCommands.v
Rsm.v
RsmCluster.v
KvRaft.v
KvRaftCluster.v
KvRaftClerk.v
GoText.v
Labgob.v
TestGroup.v
Annotation.v
Json.v
KvTest.v
KvTestRuns.v
KvTestLib.v
ShardCfg.v
ShardJson.v
ShardGrp.v
ShardCluster.v
ShardCtrler.v
ShardProto.v
ShardSystem.v
ShardSafety.v
ShardClerk.v
MrFiles.v
MapReduce.v
MrApps.v
