(* ===== verification/Prelude.v ===== *)
(** * Verification of the 6.5840 distributed key/value stack: root and prelude

    The repository (src/src) is a stack of replicated services in Go.  This
    library models its protocols and services operation by operation and proves
    what makes them correct.  This file is the root: after this description come
    the definitions and lemmas that all files share.

    ** The program and where it is modelled

    - KvRpc: kvsrv1/rpc/rpc.go.  Error codes, versions (64-bit, wrapping),
      arguments and replies, and what decoding into a reused reply leaves.  The
      class [KVStore] is the interface of a versioned store, against which the
      clerks are verified.
    - KvSrv: kvsrv1/server.go and models1/kv.go.  The single server and the
      sequential model that the repository's linearizability checker uses.
    - KvClerk: kvsrv1/client.go.  The retrying clerk and its [ErrMaybe].
    - KvHistory: kvtest1/porcupine.go.  Any number of goroutines calling clerks
      over a network that delays, loses and repeats attempts, with the log that
      the tests give to porcupine.  KvTest, KvTestRuns and KvTestLib are
      kvtest1/kvtest.go: the test of concurrent puts, its runs, and the clients
      that run alone.
    - LabRpc: labrpc/labrpc.go.  The simulated network: ends, servers, services
      and reflection on their methods, and every goroutine (callers, the sending
      loop, processReq, handlers) as steps of one state.  The encoder is the
      class [Gob].  LabRpcCalls has its invariants and theorems, KvNet runs the
      kvsrv1 service and its clerk over it.
    - Labgob: labgob/labgob.go.  The checks around the encoder: the walk over
      types for lower-case fields, by one goroutine or by many, and the walk over
      the value that is decoded into.
    - Transport, Demux: tester1/demux.  Framing of messages on a stream of bytes,
      and both ends of a connection that carries calls, every goroutine as steps
      of one state.  DemuxCalls has its invariants and theorems.
    - TestGroup: tester1/srv.go, group.go, clnts.go and config.go.  Groups of
      servers and clerks of a test over the simulated network: starting,
      stopping, connecting and partitioning.  Annotation: annotation.go, what
      the framework shows of a test's failures.
    - Lock: kvsrv1/lock/lock.go.  [Acquire] and [Release] message by message,
      any number of clients over one server.
    - RaftNode: raft1/raft.go.  A peer as a record and one function per RPC
      handler, reply handler, service call and background loop iteration.
      RaftFacts holds the frame lemmas of these functions and RaftLog what they
      do to one peer's log; RaftSlices is the log as the slice it is, and what the
      requests that share its array carry.
    - RaftCluster: peers, calls in flight, crashes and restarts, as a function
      of a schedule.  Election is the abstract election the peers implement,
      RaftElection the simulation and its consequences.  Replication is the
      abstract log replication they implement when a term has one leader,
      RaftReplication the simulation (on RaftParts, the frame lemmas of the
      replicated log), RaftAgreement its consequences.  RaftSafety has the
      other invariants of running clusters; RaftSnaps and RaftCommands say where
      its snapshots and commands come from.
    - RaftServer: raft1/server.go, raft1/proxy.go and the checks of
      raft1/test.go.  The test service above a peer, and the tester it reports
      to, directly or over RPCs (the class [Itester]).  RaftTest composes them
      with a cluster.
    - Rsm: kvraft1/rsm/rsm.go.  [Submit] and the reader goroutine over Go
      channels, and the counter service of kvraft1/rsm/server.go.  The class
      [StateMachine] is what the package asks of the service above it.
      RsmCluster runs a state machine on every peer of a cluster.
    - KvRaft, KvRaftClerk: kvraft1/server.go and kvraft1/client.go.  The
      replicated server is an instance of [StateMachine] and [KVStore];
      KvRaftCluster is the service with everything below it.
    - GoText, Json: what the programs use of Go's unicode/utf8, strings, strconv
      and encoding/json: decoding runes, fields, decimal numbers, printing and
      parsing JSON.
    - ShardCfg: shardkv1/shardcfg/shardcfg.go.  Configurations, hashing,
      joining, leaving, rebalancing, checking.  ShardJson is their JSON form,
      an instance of the class [ConfigCodec] the controller is verified against.
    - ShardGrp: shardkv1/shardgrp/server.go and shardrpc.  A group's state
      machine, an instance of [StateMachine].  ShardCluster is a group with
      everything below it.
    - ShardCtrler: shardkv1/shardctrler/shardctrler.go.  The controller's
      methods as threads of steps, one per RPC.
    - ShardProto, ShardSystem, ShardSafety: the protocol that moves one shard,
      the system of controllers, groups, clients and messages, and the proof
      that it behaves as one versioned store.
    - ShardClerk: shardkv1/shardgrp/client.go and shardkv1/client.go.
    - MrFiles, MapReduce: mr/coordinator.go, mr/worker.go, mr/rpc.go and
      main/mrsequential.go, for any map and reduce function.  MrFiles is the
      text of the files, as it is written and as it is read.  MrApps has the
      applications mrapps/wc.go, mrapps/indexer.go and mrapps/crash.go.

    A clerk's [Get] or [Put] in shardkv1 asks the controller's kvsrv1 service
    for a configuration (ShardCtrler, KvSrv), the group clerk then finds the
    leader of the group, whose handler hands the operation to [Submit] (Rsm),
    which starts it at the Raft peer (RaftNode); the reader executes what Raft
    commits (ShardGrp) and answers.  kvraft1 is the same stack without shards.
    MapReduce stands by itself.

    ** How programs become definitions

    Code that runs under a mutex is one function of the state of its object;
    what it sends or starts is part of the result.  Code that waits (an RPC, a
    channel, a sleep) is cut there into steps; all steps of all goroutines,
    processes and machines interleave freely, either as a step relation
    (ShardSystem, MapReduce), as a function of a schedule (LabRpc, RaftCluster,
    Lock, Rsm) or as a function of a script (the clerks).  A network may lose the
    request or the reply, delay, reorder and, through retries, repeat calls.  A
    crash forgets what is not on stable storage.  [log.Fatalf] and Go's
    runtime panics are values of [outcome], below.

    Go's [int] is taken as [Z]; versions, which the code increments without
    bound, are 64-bit and wrap.  Statements that need a version not to wrap say
    so (fewer than [2^64] puts).  Go maps are [gmap]s; iteration over a map in
    an order the code does not fix is an arbitrary list of its elements.
    Random choices and clocks are arguments.

    ** What the theorems show

    - Raft elections: two leaders of one term are possible only if one of them
      voted for the other ([leaders_of_a_term]); with an even number of peers
      there is one ([even_cluster_one_leader]); with three peers there may be
      two, and then two services can apply different commands at an index
      ([state_machine_safety_fails]): the code forgets a leader's own vote.
      What must survive a crash is on stable storage
      ([crash_keeps_stable_state]) and terms never go back
      ([terms_and_votes_stable]).
    - Raft agreement, under two provisos: no term has two leaders (true for an
      even number of peers), and the run is orderly.  Then logs match, committed
      entries are in the log (or the snapshot) of every later leader, and no two
      services ever receive different commands at an index ([log_matching],
      [leader_completeness], [state_machine_safety]), with crashes, compaction and
      snapshots sent to peers that lag behind.  Orderly means that services
      compact only what they were given, and that no snapshot arrives at a peer
      whose log is longer and has an entry of another term at its index: the code
      keeps the entries behind it ([stale_tail_survives]).
    - Raft logs: what AppendEntries, RequestVote, Snapshot, InstallSnapshot and
      one round of apply do on each branch ([AppendEntries_log]; the commit index
      follows the local log, not the request, [commit_of_local_log], which makes no
      difference for what leaders send), that late and repeated requests are
      harmless, that handlers never index out of range, what a commit proves,
      that services receive commands in order while no snapshot is installed.
    - Replication, at one server: a server that is delivered a log holds the
      state of one copy that executes it, and an answer of [Submit] is the result
      of its own operation ([replicas_agree], [Submit_linearized],
      [kvraft_put_linearized]).
    - Replication, over the whole stack of servers and peers, with one leader per
      term (or an even number of peers) and snapshots in sequence: there is one log, all replicas hold the
      state after a prefix of it, and an answer is that of one table on which it
      is executed ([stack_replicas_agree], [stack_Submit_linearized],
      [kvraft_cluster_linearized], [kvraft_cluster_tables]).  Only submitted
      commands are delivered ([delivered_was_started]).  Snapshots are in
      sequence when none arrives at a peer that has applied more, or has
      collected commands to send; the code does not see to that, and then a
      replica loses commands ([rolled_back_replica]).  A submission that has lost
      its channel to an expired one is never answered OK ([Submit_lost_wakeup]).
    - The tests of Raft: without snapshots and with one leader per term they
      report no error ([tests_pass]); what the tester checks is exact
      ([CheckLogs_exact], [check_round_exact]), snapshots are read back
      ([snapshot_round_trip]), and with snapshots a correct service can be
      reported ([overtaken_command_reported]).
    - The network: a call runs its handler at most once and returns what that run
      answered ([call_runs_once]), a request that is at a server when it is deleted
      is not answered ([deleted_server_silent]), unless its reply had passed the
      last check ([late_reply_of_deleted_server]), a call returns unless its handler does not
      ([call_returns]), what a call does while nothing is reconfigured
      ([steady_call]), which names dispatch ([dispatch_finds_handler]), when the
      counter wraps ([total_count_wraps]).  While nobody reconfigures it the
      clerk's guarantee holds over the code of the network ([Put_over_network]).
    - The encoder's checks end and report each lower-case field once
      ([lower_case_reported_once]); the check of the value decoded into looks at
      three levels of it ([checkDefault_exact]).
    - Connections: of a stream that is cut anywhere the reader gets the messages
      that came in full ([cut_stream]), a call gets the reply to its own request
      ([call_own_reply]), replies are for registered calls
      ([reader_never_fatal]), a lost connection ends every call
      ([lost_connection_ends_calls]).
    - The tests' network of servers: when a server is only started while it is
      disconnected and shut down, as the code's comment asks, the end between two
      servers is enabled exactly when both are connected, and leads to the other's
      server when that one's process runs ([links_follow_connected]; otherwise
      [restart_while_connected]); the ends are enabled within the parts of a
      partition and not between them ([partition_exact]); a restarted server has what it
      saved ([restart_keeps_state]); the parts of an odd group
      ([MakePartition_exact]) and the ends of a clerk ([clerk_ends_allowed]).
      The display of failures shows the servers as they are
      ([faults_displayed]).
    - Clerks: a put takes effect at most once, and OK, ErrNoKey and ErrMaybe tell
      the truth about it; so does ErrVersion at a single server, and at the
      replicated and sharded services unless a server that logged the request was
      deposed and answered ErrWrongLeader ([deposed_put_denied]); and the loops
      return.  A clerk with a stale configuration finds the right group
      ([stale_clerk_recovers]).
    - Histories: what clerks log is linearizable in real time while every put is
      of a version its key has had ([history_linearizable]), and need not be
      otherwise ([future_put_not_linearizable]); so the test of concurrent puts
      passes, reliable or not, once a client has finished a put
      ([concurrent_puts_pass]); with none it fails ([idle_clients_fail]).  Clients that run alone leave their values
      in place ([put_at_least_once_lands], [spread_puts_pass]).
    - The lock excludes, and a free lock can be taken.
    - The sharded service answers every operation as one table would, while
      racing and crashing controllers move shards ([sharded_store_linearizable],
      [shards_served_once]), and a controller left alone completes an
      interrupted move ([recovery_completes]).  What one group answers is what one
      server would, and the data that it hands out of a frozen shard stays the
      shard's data ([shard_group_linearized]).  Rebalancing terminates, gives
      every shard to a group and evens the load.  A configuration is read back
      from its JSON text ([config_round_trip]).
    - MapReduce gives the sequential program's output whatever the workers do
      ([mapreduce_is_sequential]), for UTF-8 pairs, a reduce function that ignores
      the order of values, and output lines in which a JSON decoder finds no pair;
      and it cannot get stuck ([job_can_complete]).  Intermediate files are read back
      ([intermediate_round_trip]); whole jobs of the applications compute what
      they say ([word_count_correct], [index_correct], [crash_test_result]).

    Where the code does not do what it means to, the statement proved is what
    it does, and a theorem with a concrete run shows the difference
    ([state_machine_safety_fails], [rolled_back_replica],
    [overtaken_command_reported], [command_after_snapshot],
    [Submit_lost_wakeup], [deposed_put_denied], [stale_hint_loops],
    [request_overwritten], [restart_forgets_shards], [check_new_ok], [stale_tail_survives],
    [null_word_gains_a_line], [decode_lower_case_panics], [nested_value_missed],
    [MakePartition_even], [ConnectTo_keeps_links], [end_without_failure],
    [stale_checker_begin]).

    ** Assumptions, bounds and fuel

    - The clerks, Raft and the shard system are verified over calls that run the
      handler zero or one time and return true only with the reply of that run.
      [call_runs_once] shows that labrpc's calls are such.
    - A peer's requests carry the entries its log had when they were made
      ([heartBeat_send]).  In the code they share the log's array until they are
      encoded; they carry those entries when the peer does not truncate its log
      before ([request_keeps_entries]), as no leader does.  A leader that steps
      down and truncates while a request waits is outside the model
      ([request_overwritten] shows what it sends).
    - gob is the class [Gob], a partial encoder and decoder; the theorems of
      KvNet ask for the round trip of the RPC records ([KvWire]).  Encoded
      snapshots and Raft state are the records that are encoded.
    - Labgob: reflection is a finite graph of types and a tree of values; that
      graph is closed (every type it mentions is in it).  The walk has fuel, and
      enough of it is proved to exist for every graph.
    - A connection has fewer than 2^32 - 1 calls: tags are 32-bit and wrap.
    - JSON round trips are for well-formed UTF-8.  The parser and the loop that
      reads pairs have fuel proportional to the text, which is enough
      ([parse_fuel_enough], [decode_loop_enough]).
    - unicode.IsLetter is Go's table up to U+00FF and a parameter above it
      ([UnicodeTable]), of which U+FFFD is not a letter.
    - A shard group in ShardSystem is one atomic state machine whose operations
      may run late and repeatedly; ShardCluster justifies this for groups that do
      not compact their logs, where a term has one leader.
    - MapReduce: [os.Rename] succeeds and replaces a file atomically; map and
      reduce functions are functions of their arguments.
    - Rebalancing runs with fuel [balance_fuel] = 144: each turn lowers a load
      measure that starts below it for 12 shards (proved).  The clerks' loops
      take one script entry per turn, so they need no other fuel; that enough
      entries suffice is proved where the loop returns.

    ** Not modelled

    The drivers of the tests (the test.go files, except the checks of
    raft1/test.go, and what kvtest1 only starts or waits for), the processes
    and sockets the tests run servers in, logging, drawing histories, and
    command line programs: see the manifest for each.  *)

From stdpp Require Export base gmap list strings relations sorting.
From stdpp Require functions.
From Stdlib Require Export ZArith Lia Ascii.

(* ------------------------------------------------------------------ *)
(** ** Outcomes of Go code

    A Go statement either finishes ([Ret]), ends the process through
    [log.Fatalf] ([Fatal]), or ends it through a runtime panic such as an
    index out of range ([Panic]). *)

Inductive outcome (A : Type) : Type :=
| Ret (a : A)
| Fatal
| Panic.
Arguments Ret {A} a.
Arguments Fatal {A}.
Arguments Panic {A}.

#[export] Instance outcome_ret : MRet outcome := @Ret.
#[export] Instance outcome_bind : MBind outcome := fun A B f m =>
  match m with
  | Ret a => f a
  | Fatal => Fatal
  | Panic => Panic
  end.

(** The Go statement ended normally. *)
Definition is_ret {A} (m : outcome A) : bool :=
  match m with Ret _ => true | _ => false end.

Definition of_ret {A} (m : outcome A) : option A :=
  match m with Ret a => Some a | _ => None end.

Lemma of_ret_Some {A} (m : outcome A) a : of_ret m = Some a ↔ m = Ret a.
Proof. destruct m; simpl; naive_solver. Qed.

Lemma outcome_bind_ret {A B} (f : A → outcome B) (m : outcome A) b :
  m ≫= f = Ret b ↔ ∃ a, m = Ret a ∧ f a = Ret b.
Proof. destruct m; simpl; [|split; [done|by intros (?&?&?)]..]. naive_solver. Qed.

(* ------------------------------------------------------------------ *)
(** ** Machine integers

    Go's [uint64] (the key/value versions) wraps around; [uint32] is used by
    the FNV hash. *)

Definition u64_mod : Z := 2 ^ 64.
Definition u64 (z : Z) : Z := z `mod` u64_mod.
Definition u32 (z : Z) : Z := z `mod` (2 ^ 32).
(** [int32] and [int64] are two's complement *)
Definition i32 (z : Z) : Z := (z + 2 ^ 31) `mod` 2 ^ 32 - 2 ^ 31.
Definition i64 (z : Z) : Z := (z + 2 ^ 63) `mod` 2 ^ 64 - 2 ^ 63.

Lemma u64_small z : (0 ≤ z < u64_mod)%Z → u64 z = z.
Proof. intros ?. by apply Z.mod_small. Qed.

Lemma u64_range z : (0 ≤ u64 z < u64_mod)%Z.
Proof. apply Z.mod_pos_bound. reflexivity. Qed.

Lemma u32_range z : (0 ≤ u32 z < 2 ^ 32)%Z.
Proof. apply Z.mod_pos_bound. reflexivity. Qed.

Lemma i32_range z : (- 2 ^ 31 ≤ i32 z < 2 ^ 31)%Z.
Proof. unfold i32. pose proof (Z.mod_pos_bound (z + 2 ^ 31) (2 ^ 32) eq_refl). lia. Qed.

Lemma i32_small z : (- 2 ^ 31 ≤ z < 2 ^ 31)%Z → i32 z = z.
Proof. intros. unfold i32. rewrite Z.mod_small by lia. lia. Qed.

Lemma i32_add z n : i32 (i32 z + n) = i32 (z + n).
Proof.
  unfold i32. f_equal.
  replace ((z + 2 ^ 31) `mod` 2 ^ 32 - 2 ^ 31 + n + 2 ^ 31)%Z
    with ((z + 2 ^ 31) `mod` 2 ^ 32 + n)%Z by lia.
  rewrite Zplus_mod_idemp_l. f_equal. lia.
Qed.

(** [hash/fnv]'s 32-bit FNV-1a *)
Definition fnv_step (h : Z) (c : ascii) : Z :=
  u32 (Z.lxor h (Z.of_N (Ascii.N_of_ascii c)) * 16777619)%Z.

Fixpoint fnv32a (h : Z) (s : string) : Z :=
  match s with
  | EmptyString => h
  | String c s' => fnv32a (fnv_step h c) s'
  end.

(* ------------------------------------------------------------------ *)
(** ** Slices indexed by Go's [int]

    [zlookup] is [l[i]] with [None] for an index out of range. *)

Definition zlookup {A} (l : list A) (i : Z) : option A :=
  if decide (i < 0)%Z then None else l !! Z.to_nat i.

Definition zlen {A} (l : list A) : Z := Z.of_nat (length l).

(** [l[i]], panicking when [i] is out of range *)
Definition go_index {A} (l : list A) (i : Z) : outcome A :=
  match zlookup l i with Some x => Ret x | None => Panic end.

(** [l[i:]] and [l[:i]]: Go panics unless [0 <= i <= len(l)].  ([l[:i]] may
    reach up to the capacity; the code only slices within the length.) *)
Definition go_drop {A} (l : list A) (i : Z) : outcome (list A) :=
  if decide (0 ≤ i ≤ zlen l)%Z then Ret (drop (Z.to_nat i) l) else Panic.

Definition go_take {A} (l : list A) (i : Z) : outcome (list A) :=
  if decide (0 ≤ i ≤ zlen l)%Z then Ret (take (Z.to_nat i) l) else Panic.

(** [l[i] = x] *)
Definition go_update {A} (l : list A) (i : Z) (x : A) : outcome (list A) :=
  if decide (0 ≤ i < zlen l)%Z then Ret (<[Z.to_nat i := x]> l) else Panic.

Lemma zlookup_Some {A} (l : list A) i x :
  zlookup l i = Some x → (0 ≤ i < zlen l)%Z ∧ l !! Z.to_nat i = Some x.
Proof.
  unfold zlookup, zlen. case_decide; [done|]. intros Hl.
  pose proof (lookup_lt_Some _ _ _ Hl). split; [lia|done].
Qed.

Lemma zlookup_is_Some {A} (l : list A) i :
  (0 ≤ i < zlen l)%Z → ∃ x, zlookup l i = Some x.
Proof.
  unfold zlookup, zlen. intros. case_decide; [lia|].
  apply lookup_lt_is_Some_2. lia.
Qed.

Lemma zlookup_nat {A} (l : list A) (i : nat) : zlookup l (Z.of_nat i) = l !! i.
Proof. unfold zlookup. case_decide; [lia|]. by rewrite Nat2Z.id. Qed.

Lemma go_index_Ret {A} (l : list A) i x :
  go_index l i = Ret x ↔ zlookup l i = Some x.
Proof. unfold go_index. destruct (zlookup l i); naive_solver. Qed.

(* ------------------------------------------------------------------ *)
(** ** Filtering and counting lists *)

Lemma filter_ext_in {A} (P Q : A → Prop) `{!∀ x, Decision (P x), !∀ x, Decision (Q x)} (l : list A) :
  (∀ x, x ∈ l → P x ↔ Q x) → filter P l = filter Q l.
Proof.
  induction l as [|x l IH]; intros Hin; [done|]. rewrite !filter_cons.
  pose proof (Hin x ltac:(by left)) as Hx.
  assert (filter P l = filter Q l) as -> by (apply IH; intros; apply Hin; by right).
  repeat case_decide; naive_solver.
Qed.

Lemma filter_none {A} (P : A → Prop) `{!∀ x, Decision (P x)} (l : list A) :
  (∀ x, x ∈ l → ¬ P x) → filter P l = [].
Proof.
  induction l as [|x l IH]; intros Hin; [done|].
  rewrite filter_cons_False by (apply Hin; by left). apply IH. intros; apply Hin. by right.
Qed.

(** a duplicate-free list inside another is no longer *)
Lemma NoDup_incl_le {A} (l k : list A) : NoDup l → (∀ x, x ∈ l → x ∈ k) → (length l ≤ length k)%nat.
Proof. intros ??. by apply submseteq_length, NoDup_submseteq. Qed.

(** positions holding a value below [m], counted in the list *)
Lemma positions_below (l : list Z) m j :
  length (filter (λ i, default m (l !! (i - j)%nat) < m)%Z (seq j (length l)))
  = length (filter (λ v, v < m)%Z l).
Proof.
  revert j. induction l as [|v l IH]; intros j; [done|]. simpl length at 2. simpl seq.
  rewrite !filter_cons, Nat.sub_diag. simpl (_ !! _).
  assert (length (filter (λ i, default m ((v :: l) !! (i - j)%nat) < m)%Z (seq (S j) (length l)))
          = length (filter (λ v, v < m)%Z l)) as IH'.
  { rewrite <-(IH (S j)). f_equal. apply filter_ext_in. intros i Hi%elem_of_seq.
    by replace (i - j)%nat with (S (i - S j)) by lia. }
  simpl. repeat case_decide; simpl; congruence || done.
Qed.

Lemma length_filter_fmap {A B} (f : A → B) (P : B → Prop) `{!∀ x, Decision (P x)} (l : list A) :
  length (filter P (f <$> l)) = length (filter (λ x, P (f x)) l).
Proof. induction l as [|x l IH]; [done|]. rewrite fmap_cons, !filter_cons. case_decide; simpl; by rewrite IH. Qed.

Lemma filter_fmap_filter {A B} (f : A → B) (P : A → Prop) (Q : B → Prop) (R : A → Prop)
    `{!∀ x, Decision (P x), !∀ x, Decision (Q x), !∀ x, Decision (R x)} (l : list A) :
  (∀ x, x ∈ l → P x → Q (f x) ↔ R x) → filter Q (f <$> filter P l) = f <$> filter (λ x, P x ∧ R x) l.
Proof.
  induction l as [|x l IH]; intros Hl; [done|]. rewrite !filter_cons.
  specialize (IH ltac:(intros; apply Hl; [by right|done])). pose proof (Hl x ltac:(by left)) as Hx.
  destruct (decide (P x)) as [HP|HP]; [|rewrite decide_False by naive_solver; done].
  rewrite fmap_cons, filter_cons, IH. destruct (Hx HP) as [HQR HRQ].
  destruct (decide (Q (f x))) as [HQ|HQ]; [rewrite decide_True by auto|rewrite decide_False by naive_solver]; done.
Qed.

(* ------------------------------------------------------------------ *)
(** ** Lists changed at one index *)

Lemma lookup_alter_inv {A} (f : A → A) (l : list A) i j y :
  alter f i l !! j = Some y →
  (j = i ∧ ∃ x, l !! i = Some x ∧ y = f x) ∨ (j ≠ i ∧ l !! j = Some y).
Proof.
  destruct (decide (j = i)) as [->|Hne]; intros Hl; [left|right].
  - split; [done|]. rewrite list_lookup_alter_eq in Hl. destruct (l !! i); naive_solver.
  - by rewrite list_lookup_alter_ne in Hl.
Qed.

Lemma lookup_snoc_inv {A} (l : list A) x j y :
  (l ++ [x]) !! j = Some y → (j = length l ∧ y = x) ∨ ((j < length l)%nat ∧ l !! j = Some y).
Proof.
  intros [Hl|[Hlen Hl]]%lookup_app_Some.
  - right. split; [|done]. by eapply lookup_lt_Some.
  - left. destruct (j - length l)%nat eqn:E; [|by destruct n]. simpl in Hl. split; [lia|naive_solver].
Qed.

Lemma alter_insert {A} (f : A → A) (l : list A) i x : l !! i = Some x → alter f i l = <[i := f x]> l.
Proof.
  intros Hx. apply list_eq. intros j. destruct (decide (i = j)) as [<-|].
  - rewrite list_lookup_alter_eq, Hx, list_lookup_insert_eq; [done|by eapply lookup_lt_Some].
  - by rewrite list_lookup_alter_ne, list_lookup_insert_ne.
Qed.

(** filtering and counting in a changed list *)
Lemma omap_insert_same {A B} (f : A → option B) (l : list A) i x y :
  l !! i = Some x → f y = f x → omap f (<[i := y]> l) = omap f l.
Proof.
  intros Hx Hf. rewrite insert_take_drop by (by eapply lookup_lt_Some).
  rewrite <-(take_drop_middle l i x Hx) at 3. rewrite !omap_app. simpl. by rewrite Hf.
Qed.

Lemma omap_insert_new {A B} (f : A → option B) (l : list A) i x y z :
  l !! i = Some x → f x = None → f y = Some z → omap f (<[i := y]> l) ≡ₚ omap f l ++ [z].
Proof.
  intros Hx Hf Hy. rewrite insert_take_drop by (by eapply lookup_lt_Some).
  rewrite <-(take_drop_middle l i x Hx) at 3. rewrite !omap_app. simpl. rewrite Hf, Hy.
  rewrite <-app_assoc. apply Permutation_app_head. by rewrite Permutation_cons_append.
Qed.

Lemma length_filter_insert {A} (P : A → Prop) `{!∀ x, Decision (P x)} (l : list A) i x y : l !! i = Some x →
  (Z.of_nat (length (filter P (<[i := y]> l))) + (if decide (P x) then 1 else 0)
  = Z.of_nat (length (filter P l)) + (if decide (P y) then 1 else 0))%Z.
Proof.
  intros Hx. rewrite insert_take_drop by (by eapply lookup_lt_Some).
  rewrite <-(take_drop_middle l i x Hx) at 3. rewrite !filter_app, !length_app, !filter_cons.
  repeat case_decide; simpl; lia.
Qed.

(** what was there before, for lookups in a changed list *)
Ltac lookup_inv :=
  repeat match goal with
  | H : alter _ _ _ !! _ = Some _ |- _ =>
      apply lookup_alter_inv in H as [(? & ? & ? & ->)|[? H]]
  | H : (_ ++ [_]) !! _ = Some _ |- _ => apply lookup_snoc_inv in H as [[? ->]|[? H]]
  end; simplify_eq/=.

(* ------------------------------------------------------------------ *)
(** ** Transition systems *)

(** states reachable from [init] by [step] *)
Definition reachable {S} (init : S → Prop) (step : S → S → Prop) (s : S) : Prop :=
  ∃ s0, init s0 ∧ rtc step s0 s.

Lemma invariant_reachable {S} (init : S → Prop) (step : S → S → Prop) (I : S → Prop) :
  (∀ s, init s → I s) →
  (∀ s s', I s → step s s' → I s') →
  ∀ s, reachable init step s → I s.
Proof.
  intros Hi Hs s (s0 & H0 & Hr). specialize (Hi _ H0). clear H0.
  induction Hr; eauto.
Qed.

Lemma reachable_step {S} (init : S → Prop) (step : S → S → Prop) s s' :
  reachable init step s → step s s' → reachable init step s'.
Proof. intros (s0 & H0 & Hr) Hst. exists s0. split; [done|]. by eapply rtc_r. Qed.

(* ------------------------------------------------------------------ *)
(** ** Tactics and hints *)

Create HintDb go discriminated.
Create Rewrite HintDb go.
#[export] Hint Resolve u64_range u32_range : go.
#[export] Hint Rewrite @zlookup_nat @go_index_Ret @outcome_bind_ret : go.

(** split every [match]/[if] of the goal or of a hypothesis *)
Ltac split_matches :=
  repeat (case_match; simplify_eq/=; try done).

(** case analysis on the hypotheses that say how an operation ended: binds,
    tests, and tuples *)
Ltac go_step :=
  match goal with
  | H : Ret _ = Ret _ |- _ => injection H as H; try subst
  | H : Fatal = Ret _ |- _ => discriminate H
  | H : Panic = Ret _ |- _ => discriminate H
  | H : _ ≫= _ = Ret _ |- _ =>
      apply outcome_bind_ret in H; destruct H as (? & ? & H)
  | H : context [decide ?P] |- _ => destruct (decide P)
  | H : match ?x with (_, _) => _ end = _ |- _ => destruct x eqn:?
  | H : (if ?b then _ else _) = Ret _ |- _ => destruct b eqn:?
  | H : (_, _) = (_, _) |- _ => injection H as H; try subst
  end.
Ltac go_inv := repeat (go_step; simpl in *).

(* ------------------------------------------------------------------ *)
(** ** Families of peers as functions *)

(** look up index [j] after an update at [i] *)
Ltac at_node i j :=
  destruct (decide (i = j)) as [<-|];
  [rewrite ?functions.fn_lookup_insert in * | rewrite ?(functions.fn_lookup_insert_ne _ i j) in * by done]; simpl in *.
