(* ===== verification/KvRpc.v ===== *)
(** * The RPC data of the key/value services (kvsrv1/rpc/rpc.go)

    Error codes, versions, arguments and replies shared by kvsrv1, kvraft1 and
    shardkv1.  A [Tversion] is a [Z] in [0, 2^64); its increment wraps. *)

From S2P Require Import Prelude.
Local Open Scope Z_scope.

(** The string constants of type [Err]; [ErrNone] is the zero value [""] of a
    reply that no handler has filled in. *)
Inductive Err :=
| ErrNone
| OK
| ErrNoKey
| ErrVersion
| ErrMaybe
| ErrWrongLeader
| ErrWrongGroup.

#[export] Instance Err_eq_dec : EqDecision Err.
Proof. solve_decision. Defined.

Abbreviation Tversion := Z.

(** [version + 1] on [uint64] *)
Definition next_version (v : Tversion) : Tversion := u64 (v + 1).

Record VersionedValue := { Value : string; Version : Tversion }.

Record PutArgs := { put_Key : string; put_Value : string; put_Version : Tversion }.
Record PutReply := { put_Err : Err; put_LeaderHint : Z }.
Record GetArgs := { get_Key : string }.
Record GetReply := {
  get_Value : string;
  get_Version : Tversion;
  get_Err : Err;
  get_LeaderHint : Z
}.

(** zero values of the reply structs *)
Definition PutReply0 : PutReply := {| put_Err := ErrNone; put_LeaderHint := 0 |}.
Definition GetReply0 : GetReply :=
  {| get_Value := ""; get_Version := 0; get_Err := ErrNone; get_LeaderHint := 0 |}.

#[export] Instance VersionedValue_eq_dec : EqDecision VersionedValue.
Proof. solve_decision. Defined.
#[export] Instance PutArgs_eq_dec : EqDecision PutArgs.
Proof. solve_decision. Defined.
#[export] Instance PutReply_eq_dec : EqDecision PutReply.
Proof. solve_decision. Defined.
#[export] Instance GetReply_eq_dec : EqDecision GetReply.
Proof. solve_decision. Defined.

Lemma next_version_small v : 0 ≤ v < u64_mod - 1 → next_version v = v + 1.
Proof. intros ?. apply u64_small. lia. Qed.

(** A reply decoded by gob into a struct that already holds values: gob does
    not transmit zero-valued fields, so those keep their old contents (the
    caveat in labgob.go).  Clerks that reuse one reply variable across
    attempts see this; a fresh variable receives the wire value unchanged. *)
Definition PutReply_decode (old wire : PutReply) : PutReply :=
  {| put_Err := if decide (put_Err wire = ErrNone) then put_Err old else put_Err wire;
     put_LeaderHint :=
       if decide (put_LeaderHint wire = 0) then put_LeaderHint old else put_LeaderHint wire |}.

Lemma PutReply_decode_fresh wire : PutReply_decode PutReply0 wire = wire.
Proof.
  destruct wire; unfold PutReply_decode; simpl.
  repeat case_decide; congruence.
Qed.

(* ------------------------------------------------------------------ *)
(** ** The contract of a versioned key/value service

    The comment above kvsrv1's [Put] and models1's [Step] treat an absent key
    as one at version 0.  [spec_put] states the contract that way: the write
    happens exactly when the version matches. *)

Abbreviation table := (gmap string VersionedValue).

Definition version_at (t : table) (k : string) : Tversion :=
  match t !! k with Some vv => Version vv | None => 0 end.

Definition value_at (t : table) (k : string) : string :=
  match t !! k with Some vv => Value vv | None => "" end.

Definition spec_put (t : table) (a : PutArgs) : table * Err :=
  if decide (version_at t (put_Key a) = put_Version a) then
    (<[put_Key a := {| Value := put_Value a; Version := next_version (put_Version a) |}]> t, OK)
  else (t, if decide (t !! put_Key a = None) then ErrNoKey else ErrVersion).

Definition spec_get (t : table) (a : GetArgs) : string * Tversion * Err :=
  (value_at t (get_Key a), version_at t (get_Key a),
   if decide (t !! get_Key a = None) then ErrNoKey else OK).

(** What a server promises its clerks: a table, changed by [kv_Put] only, with
    answers as in the contract. *)
Class KVStore (S : Type) := {
  kv_table : S → table;
  kv_Get : S → GetArgs → GetReply;
  kv_Put : S → PutArgs → S * PutReply;
  kv_Get_spec : ∀ s a,
    (get_Value (kv_Get s a), get_Version (kv_Get s a), get_Err (kv_Get s a))
    = spec_get (kv_table s) a;
  kv_Put_spec : ∀ s a,
    (kv_table (fst (kv_Put s a)), put_Err (snd (kv_Put s a))) = spec_put (kv_table s) a
}.

Section spec_facts.
Implicit Types (t : table) (a : PutArgs) (k : string).

Lemma spec_put_ok t a :
  snd (spec_put t a) = OK ↔ version_at t (put_Key a) = put_Version a.
Proof. unfold spec_put. repeat case_decide; simpl; naive_solver. Qed.

Lemma spec_put_fail t a : snd (spec_put t a) ≠ OK → fst (spec_put t a) = t.
Proof. unfold spec_put. repeat case_decide; simpl; naive_solver. Qed.

Lemma spec_put_other t a k :
  k ≠ put_Key a → fst (spec_put t a) !! k = t !! k.
Proof.
  intros ?. unfold spec_put. case_decide; simpl; [|done].
  by rewrite lookup_insert_ne.
Qed.

Lemma spec_put_lookup_ok t a :
  snd (spec_put t a) = OK →
  fst (spec_put t a) !! put_Key a
  = Some {| Value := put_Value a; Version := next_version (put_Version a) |}.
Proof.
  intros Hok. apply spec_put_ok in Hok. unfold spec_put.
  rewrite decide_True by done. simpl. apply lookup_insert_eq.
Qed.

(** a put never removes a key *)
Lemma spec_put_keeps t a k : is_Some (t !! k) → is_Some (fst (spec_put t a) !! k).
Proof.
  intros ?. unfold spec_put. case_decide; simpl; [|done].
  destruct (decide (k = put_Key a)) as [->|];
    [rewrite lookup_insert_eq|rewrite lookup_insert_ne by done]; eauto.
Qed.

(** while versions are below the wrap-around, a put moves each version up by
    at most one, and only by succeeding *)
Lemma spec_put_version t a k :
  0 ≤ version_at t k < u64_mod - 1 →
  version_at (fst (spec_put t a)) k
  = if decide (k = put_Key a ∧ snd (spec_put t a) = OK)
    then version_at t k + 1 else version_at t k.
Proof.
  intros Hb. case_decide as Hc.
  - destruct Hc as [-> Hok]. unfold version_at at 1.
    rewrite spec_put_lookup_ok by done. simpl.
    apply spec_put_ok in Hok. rewrite <-Hok. by apply next_version_small.
  - destruct (decide (k = put_Key a)) as [->|Hne].
    + rewrite spec_put_fail; naive_solver.
    + unfold version_at. by rewrite spec_put_other.
Qed.
End spec_facts.
