(* ===== verification/KvSrv.v ===== *)
(** * The single-server key/value service (kvsrv1/server.go) and the
      linearizability model it is checked against (models1/kv.go) *)

From S2P Require Import Prelude KvRpc.
Local Open Scope Z_scope.

(* ------------------------------------------------------------------ *)
(** ** kvsrv1/server.go *)
Module KvSrv.

Record KVServer := { tbl : gmap string VersionedValue }.

Definition MakeKVServer : KVServer := {| tbl := ∅ |}.

(** the handlers fill in the reply the RPC layer hands them *)
Definition Get (kv : KVServer) (args : GetArgs) (reply : GetReply) : GetReply :=
  match tbl kv !! get_Key args with
  | Some versionedValue =>
      {| get_Err := OK; get_Value := Value versionedValue;
         get_Version := Version versionedValue; get_LeaderHint := get_LeaderHint reply |}
  | None =>
      {| get_Err := ErrNoKey; get_Value := get_Value reply;
         get_Version := get_Version reply; get_LeaderHint := get_LeaderHint reply |}
  end.

Definition Put (kv : KVServer) (args : PutArgs) (reply : PutReply) : KVServer * PutReply :=
  let key := put_Key args in
  let answer e := {| put_Err := e; put_LeaderHint := put_LeaderHint reply |} in
  match tbl kv !! key with
  | Some versionedValue =>
      if decide (Version versionedValue = put_Version args) then
        ({| tbl := <[key := {| Value := put_Value args;
                               Version := next_version (put_Version args) |}]> (tbl kv) |},
         answer OK)
      else (kv, answer ErrVersion)
  | None =>
      if decide (put_Version args = 0) then
        ({| tbl := <[key := {| Value := put_Value args; Version := 1 |}]> (tbl kv) |}, answer OK)
      else (kv, answer ErrNoKey)
  end.

Lemma Put_spec kv a r :
  (tbl (fst (Put kv a r)), put_Err (snd (Put kv a r))) = spec_put (tbl kv) a.
Proof.
  destruct a as [k v n]. unfold Put, spec_put, version_at; simpl.
  destruct (tbl kv !! k) as [[v0 n0]|] eqn:E; simpl.
  - repeat case_decide; simpl; done.
  - repeat case_decide; subst; simpl; done.
Qed.

Lemma Get_spec kv a :
  (get_Value (Get kv a GetReply0), get_Version (Get kv a GetReply0), get_Err (Get kv a GetReply0))
  = spec_get (tbl kv) a.
Proof.
  unfold Get, spec_get, version_at, value_at.
  destruct (tbl kv !! get_Key a); simpl; done.
Qed.

#[global] Instance KVServer_store : KVStore KVServer := {|
  kv_table := tbl;
  kv_Get := fun kv a => Get kv a GetReply0;
  kv_Put := fun kv a => Put kv a PutReply0;
  kv_Get_spec := Get_spec;
  kv_Put_spec := fun kv a => Put_spec kv a PutReply0
|}.
End KvSrv.

(* ------------------------------------------------------------------ *)
(** ** models1/kv.go: the sequential model of one key *)
Module KvModel.

Record KvInput := { in_Op : Z; in_Key : string; in_Value : string; in_Version : Z }.
Record KvOutput := { out_Value : string; out_Version : Z; out_Err : Err }.
Record KvState := { st_Value : string; st_Version : Z }.

Definition Init : KvState := {| st_Value := ""; st_Version := 0 |}.

(** the default case returns [false] and a state of another type; it is
    [None] here *)
Definition Step (st : KvState) (inp : KvInput) (out : KvOutput) : bool * option KvState :=
  if decide (in_Op inp = 0) then
    (bool_decide (out_Value out = st_Value st), Some st)
  else if decide (in_Op inp = 1) then
    if decide (st_Version st = in_Version inp) then
      (bool_decide (out_Err out = OK) || bool_decide (out_Err out = ErrMaybe),
       Some {| st_Value := in_Value inp; st_Version := u64 (st_Version st + 1) |})
    else
      (bool_decide (out_Err out = ErrVersion) || bool_decide (out_Err out = ErrMaybe), Some st)
  else (false, None).

(** An operation is its input with its output, and in the history of a test
    also its client and its times. *)
Definition Operation : Type := KvInput * KvOutput.

Definition str_le (a b : string) : Prop := String.leb a b = true.
#[export] Instance str_le_dec a b : Decision (str_le a b).
Proof. unfold str_le. apply _. Defined.

(** [Partition]: the sub-history of each key, keys in sorted order *)
Section partition.
Context {A : Type} (Input : A → KvInput).

Definition partition_key (history : list A) (k : string) : list A :=
  filter (λ o, in_Key (Input o) = k) history.

Lemma partition_key_cons o h k :
  partition_key (o :: h) k
  = if decide (in_Key (Input o) = k) then o :: partition_key h k else partition_key h k.
Proof. unfold partition_key. by rewrite filter_cons. Qed.

Definition Partition (history : list A) : list (list A) :=
  partition_key history <$>
    merge_sort str_le (remove_dups ((λ o, in_Key (Input o)) <$> history)).
End partition.

(** checking one sequential history: every step is accepted *)
Fixpoint accepts (st : KvState) (h : list Operation) : bool :=
  match h with
  | [] => true
  | (inp, out) :: h' =>
      match Step st inp out with
      | (b, Some st') => b && accepts st' h'
      | (b, None) => false
      end
  end.
End KvModel.

(* ------------------------------------------------------------------ *)
(** ** A server's own history is accepted by the model *)

Section histories.
Context {S : Type} `{KVStore S}.
Implicit Types (s : S) (k : string).

Inductive kv_op := OpGet (a : GetArgs) | OpPut (a : PutArgs).

(** one operation and the record kvtest1/porcupine.go logs for it *)
Definition exec (s : S) (op : kv_op) : S * KvModel.Operation :=
  match op with
  | OpGet a =>
      let r := kv_Get s a in
      (s, ({| KvModel.in_Op := 0; KvModel.in_Key := get_Key a;
              KvModel.in_Value := ""; KvModel.in_Version := 0 |},
           {| KvModel.out_Value := get_Value r; KvModel.out_Version := get_Version r;
              KvModel.out_Err := get_Err r |}))
  | OpPut a =>
      let '(s', r) := kv_Put s a in
      (s', ({| KvModel.in_Op := 1; KvModel.in_Key := put_Key a;
               KvModel.in_Value := put_Value a; KvModel.in_Version := put_Version a |},
            {| KvModel.out_Value := ""; KvModel.out_Version := 0;
               KvModel.out_Err := put_Err r |}))
  end.

Fixpoint exec_all (s : S) (ops : list kv_op) : S * list KvModel.Operation :=
  match ops with
  | [] => (s, [])
  | op :: ops' =>
      let '(s1, o) := exec s op in
      let '(s2, h) := exec_all s1 ops' in
      (s2, o :: h)
  end.

(** the model's state of key [k] in a server state *)
Definition abs (s : S) (k : string) : KvModel.KvState :=
  {| KvModel.st_Value := value_at (kv_table s) k;
     KvModel.st_Version := version_at (kv_table s) k |}.

(** a put answered [ErrNoKey] *)
Definition put_nokey (o : KvModel.Operation) : bool :=
  bool_decide (KvModel.in_Op (fst o) = 1) && bool_decide (KvModel.out_Err (snd o) = ErrNoKey).

(** one operation on the server is one step of the model, except that the
    model rejects a put answered [ErrNoKey] *)
Lemma exec_Step s op s' inp out :
  exec s op = (s', (inp, out)) →
  (∀ k, k ≠ KvModel.in_Key inp → abs s' k = abs s k) ∧
  KvModel.Step (abs s (KvModel.in_Key inp)) inp out
  = (negb (put_nokey (inp, out)), Some (abs s' (KvModel.in_Key inp))).
Proof.
  destruct op as [a|a]; simpl.
  - intros [= <- <- <-]; simpl. split; [done|].
    pose proof (kv_Get_spec s a) as E. unfold spec_get in E. simplify_eq.
    unfold KvModel.Step; simpl. f_equal. by rewrite bool_decide_true.
  - pose proof (kv_Put_spec s a) as E.
    destruct (kv_Put s a) as [s1 r]; simpl in E. intros [= <- <- <-]; simpl.
    assert (kv_table s1 = fst (spec_put (kv_table s) a)) as Et by by rewrite <-E.
    assert (put_Err r = snd (spec_put (kv_table s) a)) as Er by by rewrite <-E.
    split.
    { intros k Hk. unfold abs, value_at, version_at. by rewrite Et, spec_put_other. }
    unfold KvModel.Step, put_nokey, abs; simpl. rewrite Er.
    case_decide as Hv.
    + pose proof (proj2 (spec_put_ok _ _) Hv) as Hok. rewrite Hok; simpl.
      unfold value_at at 1, version_at at 2. rewrite Et, spec_put_lookup_ok by done; simpl.
      rewrite Hv. done.
    + assert (snd (spec_put (kv_table s) a) ≠ OK) as Hno by by rewrite spec_put_ok.
      rewrite Et, spec_put_fail by done.
      unfold spec_put in *. case_decide; [done|]; simpl in *.
      case_decide; simpl; done.
Qed.

Lemma exec_all_accepts ops s k :
  KvModel.accepts (abs s k) (KvModel.partition_key fst (snd (exec_all s ops)) k)
  = negb (existsb put_nokey (KvModel.partition_key fst (snd (exec_all s ops)) k)).
Proof.
  revert s. induction ops as [|op ops IH]; intros s; [done|]. simpl.
  destruct (exec s op) as [s1 [inp out]] eqn:E.
  apply exec_Step in E as [Hother Hstep]. specialize (IH s1).
  destruct (exec_all s1 ops) as [s2 h]; simpl in *.
  rewrite KvModel.partition_key_cons; simpl. case_decide as Hk.
  - subst k. simpl. rewrite Hstep, IH. by rewrite negb_orb.
  - rewrite <-Hother by done. apply IH.
Qed.
End histories.
Arguments kv_op : clear implicits.

(** Every history of a fresh server, whatever the interleaving of keys, is
    accepted by the linearizability model key by key, exactly when no put in
    that key's sub-history was answered [ErrNoKey] (an answer the model does
    not know). *)
Theorem history_accepted (ops : list kv_op) (k : string) :
  KvModel.accepts KvModel.Init
    (KvModel.partition_key fst (snd (exec_all KvSrv.MakeKVServer ops)) k) = true
  ↔ Forall (λ o, put_nokey o = false)
      (KvModel.partition_key fst (snd (exec_all KvSrv.MakeKVServer ops)) k).
Proof.
  change KvModel.Init with (abs KvSrv.MakeKVServer k).
  rewrite exec_all_accepts, negb_true_iff, <-not_true_iff_false, existsb_exists, Forall_forall.
  setoid_rewrite list_elem_of_In. setoid_rewrite <-not_true_iff_false. naive_solver.
Qed.
