(* ===== verification/KvClerk.v ===== *)
(** * The clerk of the single-server service (kvsrv1/client.go)

    A clerk talks to a server through a network that may lose a request (the
    handler does not run) or a reply (the handler ran); labrpc's [Call] returns
    false for both.  Between two attempts other clerks' operations run.  A
    [script] fixes those choices, one entry per attempt; a run that exhausts
    its script is still looping ([None]). *)

From S2P Require Import Prelude KvRpc KvSrv.
Local Open Scope Z_scope.

Inductive fate := ReqLost | RepLost | Delivered.

#[export] Instance fate_eq_dec : EqDecision fate.
Proof. solve_decision. Defined.

Section clerk.
Context {S : Type} `{KVStore S}.
Implicit Types (s : S).

(** what happens during one attempt: others' operations, then our message *)
Abbreviation event := (list kv_op * fate)%type.

(** [ck.clnt.Call(ck.server, "KVServer.Put", &args, &reply)] with a fresh
    reply; also returns the answer of the handler when it ran *)
Definition Call_Put (s : S) (ev : event) (args : PutArgs)
    : S * list Err * option PutReply :=
  let s1 := fst (exec_all s (fst ev)) in
  match snd ev with
  | ReqLost => (s1, [], None)
  | RepLost => let '(s2, r) := kv_Put s1 args in (s2, [put_Err r], None)
  | Delivered =>
      let '(s2, r) := kv_Put s1 args in
      (s2, [put_Err r], Some (PutReply_decode PutReply0 r))
  end.

Definition Call_Get (s : S) (ev : event) (args : GetArgs) : S * option GetReply :=
  let s1 := fst (exec_all s (fst ev)) in
  match snd ev with
  | Delivered => (s1, Some (kv_Get s1 args))
  | _ => (s1, None)
  end.

(** The loop of [Get]: retry until OK or ErrNoKey. *)
Fixpoint Get (s : S) (script : list event) (key : string)
    : S * option (string * Tversion * Err) :=
  match script with
  | [] => (s, None)
  | ev :: script' =>
      let '(s1, rep) := Call_Get s ev {| get_Key := key |} in
      match rep with
      | Some reply =>
          match get_Err reply with
          | OK => (s1, Some (get_Value reply, get_Version reply, OK))
          | ErrNoKey => (s1, Some ("", 0, ErrNoKey))
          | _ => Get s1 script' key
          end
      | None => Get s1 script' key
      end
  end.

(** the [switch reply.Err] of [Put]'s first attempt and of its resend loop,
    where [ErrVersion] has become [ErrMaybe] *)
Definition Put_first_reply (reply : PutReply) : outcome Err :=
  match put_Err reply with
  | OK => Ret OK
  | ErrVersion => Ret ErrVersion
  | ErrNoKey => Ret ErrNoKey
  | _ => Fatal
  end.

Definition Put_resend_reply (reply : PutReply) : outcome Err :=
  match put_Err reply with
  | OK => Ret OK
  | ErrVersion => Ret ErrMaybe
  | ErrNoKey => Ret ErrNoKey
  | _ => Fatal
  end.

(** The retransmission loop of [Put]: [ErrVersion] is now reported as
    [ErrMaybe].  The list collects
    the handler's answers to this request. *)
Fixpoint Put_resend (s : S) (script : list event) (args : PutArgs)
    : S * list Err * option (outcome Err) :=
  match script with
  | [] => (s, [], None)
  | ev :: script' =>
      let '(s1, h1, rep) := Call_Put s ev args in
      match rep with
      | Some reply => (s1, h1, Some (Put_resend_reply reply))
      | None =>
          let '(s2, h2, res) := Put_resend s1 script' args in
          (s2, h1 ++ h2, res)
      end
  end.

(** [Put]: the first attempt, then the loop. *)
Definition Put (s : S) (script : list event) (key value : string) (version : Tversion)
    : S * list Err * option (outcome Err) :=
  let args := {| put_Key := key; put_Value := value; put_Version := version |} in
  match script with
  | [] => (s, [], None)
  | ev :: script' =>
      let '(s1, h1, rep) := Call_Put s ev args in
      match rep with
      | Some reply => (s1, h1, Some (Put_first_reply reply))
      | None =>
          let '(s2, h2, res) := Put_resend s1 script' args in
          (s2, h1 ++ h2, res)
      end
  end.

(** how often the request took effect at the server *)
Definition performed (h : list Err) : nat := length (filter (λ e, e = OK) h).

(** number of operations a script runs at most *)
Fixpoint script_size (script : list event) : Z :=
  match script with
  | [] => 0
  | ev :: script' => zlen (fst ev) + 1 + script_size script'
  end.

Lemma script_size_nonneg script : 0 ≤ script_size script.
Proof. induction script as [|[ops f] sc IH]; simpl; unfold zlen in *; lia. Qed.

(** ** Versions only move forward *)

Lemma exec_version s op k :
  0 ≤ version_at (kv_table s) k < u64_mod - 1 →
  version_at (kv_table s) k ≤ version_at (kv_table (fst (exec s op))) k
    ≤ version_at (kv_table s) k + 1
  ∧ (is_Some (kv_table s !! k) → is_Some (kv_table (fst (exec s op)) !! k)).
Proof.
  intros Hb. destruct op as [a|a]; simpl; [split; [lia|done]|].
  pose proof (kv_Put_spec s a) as E. destruct (kv_Put s a) as [s1 r]; simpl in *.
  assert (kv_table s1 = fst (spec_put (kv_table s) a)) as -> by by rewrite <-E.
  split; [|apply spec_put_keeps]. rewrite spec_put_version by done. case_decide; lia.
Qed.

Lemma exec_all_version ops s k :
  0 ≤ version_at (kv_table s) k → version_at (kv_table s) k + zlen ops < u64_mod →
  version_at (kv_table s) k ≤ version_at (kv_table (fst (exec_all s ops))) k
    ≤ version_at (kv_table s) k + zlen ops
  ∧ (is_Some (kv_table s !! k) → is_Some (kv_table (fst (exec_all s ops)) !! k)).
Proof.
  unfold zlen. revert s. induction ops as [|op ops IH]; intros s H0 Hb; simpl in *; [split; [lia|done]|].
  destruct (exec_version s op k) as [Hv Hs]; [lia|].
  destruct (exec s op) as [s1 o]; simpl in *.
  destruct (IH s1) as [Hv' Hs']; [lia..|].
  destruct (exec_all s1 ops) as [s2 h]; simpl in *. split; [lia|auto].
Qed.

(** the put has taken effect or lost its version for good *)
Definition overtaken (s : S) (args : PutArgs) : Prop :=
  is_Some (kv_table s !! put_Key args) ∧
  put_Version args < version_at (kv_table s) (put_Key args).

(** One execution of the request by the handler. *)
Lemma kv_Put_once s args :
  let v := version_at (kv_table s) (put_Key args) in
  let '(s1, r) := kv_Put s args in
  0 ≤ v → v + 1 < u64_mod →
  v ≤ version_at (kv_table s1) (put_Key args) ≤ v + 1
  ∧ (is_Some (kv_table s !! put_Key args) → is_Some (kv_table s1 !! put_Key args))
  ∧ (put_Err r = OK ∧ overtaken s1 args ∨ put_Err r = ErrVersion ∨ put_Err r = ErrNoKey)
  ∧ (overtaken s args → overtaken s1 args ∧ put_Err r = ErrVersion).
Proof.
  intros v. destruct (kv_Put s args) as [s1 r] eqn:EP. intros H0 Hb.
  pose proof (kv_Put_spec s args) as Es. rewrite EP in Es; simpl in Es.
  assert (kv_table s1 = fst (spec_put (kv_table s) args)) as Et by by rewrite <-Es.
  assert (put_Err r = snd (spec_put (kv_table s) args)) as Er by by rewrite <-Es.
  clear Es. split; [|split; [|split]].
  - rewrite Et, spec_put_version by lia. case_decide; lia.
  - rewrite Et. apply spec_put_keeps.
  - rewrite Er. destruct (decide (snd (spec_put (kv_table s) args) = OK)) as [Hok|Hno].
    + left. rewrite Hok. split; [done|]. apply spec_put_ok in Hok as Hver.
      unfold overtaken. rewrite Et. split.
      * rewrite spec_put_lookup_ok by done. eauto.
      * rewrite spec_put_version by lia. rewrite decide_True by done. lia.
    + right. unfold spec_put in *. case_decide; [done|]; simpl in *. case_decide; auto.
  - intros [Hsome Hlt]. assert (spec_put (kv_table s) args = (kv_table s, ErrVersion)) as Esp.
    { unfold spec_put. rewrite decide_False by lia. f_equal.
      rewrite decide_False; [done|]. by destruct Hsome as [? ->]. }
    rewrite Er, Esp. split; [|done]. split; rewrite Et, Esp; done.
Qed.

(** others' operations do not bring a lost version back *)
Lemma overtaken_exec_all s ops args :
  0 ≤ version_at (kv_table s) (put_Key args) →
  version_at (kv_table s) (put_Key args) + zlen ops < u64_mod →
  overtaken s args → overtaken (fst (exec_all s ops)) args.
Proof.
  intros H0 Hb [Hs Hlt]. destruct (exec_all_version ops s (put_Key args) H0 Hb) as [Hv Hk].
  split; [auto|lia].
Qed.

(** One attempt: what the handler answered, and where the version stands. *)
Lemma Call_Put_spec s ev args s1 h rep :
  let v := version_at (kv_table s) (put_Key args) in
  0 ≤ v → v + zlen (fst ev) + 1 < u64_mod →
  Call_Put s ev args = (s1, h, rep) →
  v ≤ version_at (kv_table s1) (put_Key args) ≤ v + zlen (fst ev) + 1
  ∧ (∀ r, rep = Some r → h = [put_Err r])
  ∧ (h = [] ∨ h = [OK] ∧ overtaken s1 args ∨ h = [ErrVersion] ∨ h = [ErrNoKey])
  ∧ (overtaken s args → overtaken s1 args ∧ (h = [] ∨ h = [ErrVersion])).
Proof.
  intros v H0 Hb E. unfold Call_Put in E.
  destruct (exec_all_version (fst ev) s (put_Key args)) as [Hv Hs]; [lia..|].
  pose proof (overtaken_exec_all s (fst ev) args ltac:(lia) ltac:(lia)) as Ho.
  fold v in Hv. set (s' := fst (exec_all s (fst ev))) in *.
  pose proof (kv_Put_once s' args) as Honce.
  destruct (kv_Put s' args) as [s2 r].
  destruct Honce as (Hv2 & _ & Hcase & Hover); [lia..|].
  assert ([put_Err r] = [OK] ∧ overtaken s2 args ∨ [put_Err r] = [ErrVersion] ∨ [put_Err r] = [ErrNoKey])
    as Hcase' by (destruct Hcase as [[-> ?]|[-> | ->]]; auto).
  destruct (snd ev); injection E as <- <- <-; rewrite ?PutReply_decode_fresh.
  - split_and!; [lia..|done|by left|auto].
  - split_and!; [lia..|done|by right|]. intros Hov. destruct (Hover (Ho Hov)) as [? ->]. auto.
  - split_and!; [lia..|by intros ? [= <-]|by right|].
    intros Hov. destruct (Hover (Ho Hov)) as [? ->]. auto.
Qed.

Lemma performed_app h1 h2 : performed (h1 ++ h2) = (performed h1 + performed h2)%nat.
Proof. unfold performed. by rewrite filter_app, length_app. Qed.

(** what a result of [Put] says about the answers [h] the handler gave *)
Definition result_ok (h : list Err) (res : option (outcome Err)) : Prop :=
  (performed h ≤ 1)%nat ∧
  match res with
  | None => True
  | Some (Ret OK) => performed h = 1%nat
  | Some (Ret ErrVersion) | Some (Ret ErrNoKey) => performed h = 0%nat
  | Some (Ret ErrMaybe) => True
  | Some _ => False
  end.

Lemma Put_resend_spec script s args s' h res :
  let v := version_at (kv_table s) (put_Key args) in
  0 ≤ v → v + script_size script < u64_mod →
  Put_resend s script args = (s', h, res) →
  result_ok h res
  ∧ (overtaken s args →
     performed h = 0%nat ∧ ∀ o, res = Some o → o = Ret ErrMaybe).
Proof.
  revert s h. induction script as [|ev script IH]; intros s h v H0 Hb E; simpl in *.
  { simplify_eq. unfold result_ok, performed; simpl. naive_solver lia. }
  pose proof (script_size_nonneg script).
  destruct (Call_Put s ev args) as [[s1 h1] rep] eqn:EC.
  apply Call_Put_spec in EC as (Hv & Hrep & Hh & Hover); [|lia..]. fold v in Hv.
  destruct rep as [r|].
  - specialize (Hrep _ eq_refl) as ->.
    destruct Hh as [?|[[Hh _]|[Hh|Hh]]]; [done|injection Hh as Hr;
      unfold Put_resend_reply, Put_first_reply in *; rewrite Hr in *; simplify_eq;
      unfold result_ok, performed; simpl; split; [split; [lia|done]|]..];
    intros Hov; destruct (Hover Hov) as [_ [?|?]]; simplify_eq; naive_solver.
  - destruct (Put_resend s1 script args) as [[s2 h2] res2] eqn:ER. simplify_eq.
    apply IH in ER as [[Hp Hr] Hov]; [|lia..].
    unfold result_ok. rewrite performed_app.
    destruct Hh as [->|[[-> Hov1]|[->| ->]]].
    + split; [split; done|]. intros Hovs. destruct (Hover Hovs) as [? _]. auto.
    + destruct (Hov Hov1) as [Hp0 Hr0]. rewrite Hp0. split.
      * split; [done|]. destruct res as [o|]; [|done]. by rewrite (Hr0 o).
      * intros Hovs. destruct (Hover Hovs) as [_ [?|?]]; done.
    + split; [split; done|]. intros Hovs. destruct (Hover Hovs) as [? _]. auto.
    + split; [split; done|]. intros Hovs. destruct (Hover Hovs) as [_ [?|?]]; done.
Qed.

Lemma Put_result_ok s script key value version s' h res :
  0 ≤ version_at (kv_table s) key →
  version_at (kv_table s) key + script_size script < u64_mod →
  Put s script key value version = (s', h, res) →
  result_ok h res.
Proof.
  intros H0 Hb E. unfold Put in E. set (args := {| put_Key := key |}) in E.
  destruct script as [|ev script]; simpl in *; [simplify_eq; unfold result_ok; cbn; auto|].
  pose proof (script_size_nonneg script).
  destruct (Call_Put s ev args) as [[s1 h1] rep] eqn:EC.
  apply Call_Put_spec in EC as (Hv & Hrep & Hh & _); [|simpl; lia..].
  destruct rep as [r|].
  - specialize (Hrep _ eq_refl) as ->.
    destruct Hh as [?|[[Hh _]|[Hh|Hh]]]; [done|injection Hh as Hr;
      unfold Put_resend_reply, Put_first_reply in *; rewrite Hr in *; simplify_eq;
      unfold result_ok, performed; simpl; split; [lia|done]..].
  - destruct (Put_resend s1 script args) as [[s2 h2] res2] eqn:ER. simplify_eq.
    apply Put_resend_spec in ER as [[Hp Hr] Hov]; [|simpl in *; lia..].
    unfold result_ok. rewrite performed_app.
    destruct Hh as [->|[[-> Hov1]|[->| ->]]]; [done| |done..].
    destruct (Hov Hov1) as [Hp0 Hr0]. rewrite Hp0. split; [done|].
    destruct res as [o|]; [|done]. by rewrite (Hr0 o).
Qed.

(** ** Return under a network that eventually delivers *)

(** an attempt whose message and reply get through is answered, and every
    answer is one the clerk knows *)
Lemma Call_Put_answer s ev args s1 h rep :
  Call_Put s ev args = (s1, h, rep) →
  (snd ev = Delivered → rep ≠ None)
  ∧ ∀ r, rep = Some r → put_Err r ∈ [OK; ErrVersion; ErrNoKey].
Proof.
  unfold Call_Put. destruct (kv_Put _ args) as [s2 r] eqn:EP.
  destruct (snd ev); intros [= <- <- <-]; (split; [done|]); try done.
  intros ? [= <-]. rewrite PutReply_decode_fresh.
  pose proof (kv_Put_spec (fst (exec_all s (fst ev))) args) as E. rewrite EP in E; simpl in E.
  assert (put_Err r = snd (spec_put (kv_table (fst (exec_all s (fst ev)))) args)) as -> by by rewrite <-E.
  unfold spec_put. repeat case_decide; simpl; set_solver.
Qed.

Lemma Put_resend_returns script s args :
  Exists (λ ev, snd ev = Delivered) script →
  ∃ s' h e, Put_resend s script args = (s', h, Some (Ret e)).
Proof.
  revert s. induction script as [|ev script IH]; intros s Hex; [by inv Hex|]. simpl.
  destruct (Call_Put s ev args) as [[s1 h1] rep] eqn:EC.
  apply Call_Put_answer in EC as [Hd Hr]. destruct rep as [r|].
  - specialize (Hr _ eq_refl). unfold Put_resend_reply, Put_first_reply.
    destruct (put_Err r); try set_solver; eauto.
  - inv Hex as [? ? Hdel|? ? Hex']; [naive_solver|].
    destruct (IH s1 Hex') as (? & ? & ? & ->). eauto.
Qed.

Lemma Put_returns s script key value version :
  Exists (λ ev, snd ev = Delivered) script →
  ∃ s' h e, Put s script key value version = (s', h, Some (Ret e)).
Proof.
  intros Hex. destruct script as [|ev script]; [by inv Hex|]. unfold Put.
  set (args := {| put_Key := key |}).
  destruct (Call_Put s ev args) as [[s1 h1] rep] eqn:EC.
  apply Call_Put_answer in EC as [Hd Hr]. destruct rep as [r|].
  - specialize (Hr _ eq_refl). unfold Put_resend_reply, Put_first_reply.
    destruct (put_Err r); try set_solver; eauto.
  - inv Hex as [? ? Hdel|? ? Hex']; [naive_solver|].
    destruct (Put_resend_returns script s1 args Hex') as (? & ? & ? & ->). eauto.
Qed.
End clerk.

(** C10. Whatever the network loses and whatever other clerks do in between
    (versions staying below the wrap-around), the request of one [Put] takes
    effect at most once, and the result tells the truth: [OK] means it took
    effect, [ErrVersion] and [ErrNoKey] mean it did not, [ErrMaybe] leaves it
    open, and [log.Fatalf] is not reached. *)
Theorem Put_answer_sound {S : Type} `{KVStore S} (s : S) script key value version s' h res :
  0 ≤ version_at (kv_table s) key →
  version_at (kv_table s) key + script_size script < u64_mod →
  Put s script key value version = (s', h, res) →
  (performed h ≤ 1)%nat
  ∧ (res = Some (Ret OK) → performed h = 1%nat)
  ∧ (res = Some (Ret ErrVersion) ∨ res = Some (Ret ErrNoKey) → performed h = 0%nat)
  ∧ (∀ o, res = Some o → o ∈ [Ret OK; Ret ErrVersion; Ret ErrNoKey; Ret ErrMaybe]).
Proof.
  intros H0 Hb E. destruct (Put_result_ok _ _ _ _ _ _ _ _ H0 Hb E) as [Hp Hr].
  split_and!; [done|by intros ->|by intros [-> | ->]|].
  intros o ->. destruct o as [[]| |]; set_solver.
Qed.

(** A [Put] whose script contains one attempt that gets through in both
    directions returns (with an error code, never through [log.Fatalf]). *)
Theorem Put_returns_when_delivered {S : Type} `{KVStore S} (s : S) script key value version :
  Exists (λ ev, snd ev = Delivered) script →
  ∃ s' h e, Put s script key value version = (s', h, Some (Ret e)).
Proof. apply Put_returns. Qed.

(* ------------------------------------------------------------------ *)
(** ** Witnesses *)

(** first reply lost, resent: the put was performed, the answer is ErrMaybe *)
Definition script_reply_lost : list (list kv_op * fate) := [([], RepLost); ([], Delivered)].

Lemma Put_answer_sound_witness :
  ∃ s' h, Put KvSrv.MakeKVServer script_reply_lost "k" "v" 0 = (s', h, Some (Ret ErrMaybe))
  ∧ (performed h ≤ 1)%nat.
Proof.
  do 2 eexists. split; [vm_compute; reflexivity|].
  refine (proj1 (Put_answer_sound KvSrv.MakeKVServer script_reply_lost "k" "v" 0 _ _
    (Some (Ret ErrMaybe)) _ _ _)).
  - vm_compute. discriminate.
  - vm_compute. reflexivity.
  - vm_compute. reflexivity.
Defined.

Lemma Put_returns_when_delivered_witness :
  ∃ s' h e, Put KvSrv.MakeKVServer script_reply_lost "k" "v" 0 = (s', h, Some (Ret e)).
Proof.
  apply (Put_returns_when_delivered KvSrv.MakeKVServer script_reply_lost "k" "v" 0).
  apply Exists_cons_tl, Exists_cons_hd. reflexivity.
Defined.
