(* ===== verification/KvHistory.v ===== *)
(** * Histories of clerks' calls (kvtest1/porcupine.go)

    The tests of the key/value services log every call of a clerk with the
    times at which it began and returned, and give the log to porcupine, a
    linearizability checker.  Here any number of goroutines call [Get] and [Put]
    of porcupine.go, each on a clerk of kvsrv1/client.go, against a server that
    is any [KVStore].  Every attempt of a clerk is a message of its own: it is
    handled at most once, at any time after it was sent, even after its call has
    returned, or never; its reply arrives, or the clerk gives up waiting.  All
    goroutines interleave, and the clock moves between any two steps. *)

From S2P Require Import Prelude KvRpc KvSrv KvClerk.
Local Open Scope Z_scope.

(* ------------------------------------------------------------------ *)
(** ** The log *)

(** [porcupine.Operation] *)
Record Operation := {
  ClientId : Z;
  Input : KvModel.KvInput;
  Call : Z;
  Output : KvModel.KvOutput;
  Return : Z
}.

Record OpLog := { operations : list Operation }.

Definition Len (log : OpLog) : Z := zlen (operations log).
Definition Append (log : OpLog) (op : Operation) : OpLog := {| operations := operations log ++ [op] |}.
Definition Read (log : OpLog) : list Operation := operations log.

(** what a clerk's method returns *)
Inductive answer :=
| GotValue (val : string) (ver : Tversion) (err : Err)
| GotErr (err : Err).

(** the two records that [Get] and [Put] append *)
Definition op_input (op : kv_op) : KvModel.KvInput :=
  match op with
  | OpGet a => {| KvModel.in_Op := 0; KvModel.in_Key := get_Key a; KvModel.in_Value := ""; KvModel.in_Version := 0 |}
  | OpPut a => {| KvModel.in_Op := 1; KvModel.in_Key := put_Key a; KvModel.in_Value := put_Value a;
                  KvModel.in_Version := put_Version a |}
  end.

Definition answer_output (a : answer) : KvModel.KvOutput :=
  match a with
  | GotValue val ver err => {| KvModel.out_Value := val; KvModel.out_Version := ver; KvModel.out_Err := err |}
  | GotErr err => {| KvModel.out_Value := ""; KvModel.out_Version := 0; KvModel.out_Err := err |}
  end.

Definition record_of (cli : Z) (op : kv_op) (start : Z) (a : answer) (end_ : Z) : Operation :=
  {| ClientId := cli; Input := op_input op; Call := start; Output := answer_output a; Return := end_ |}.

(* ------------------------------------------------------------------ *)
(** ** What porcupine decides *)

Inductive CheckResult := Ok | Unknown | Illegal.

(** [a] returned before [b] was called *)
Definition precedes (a b : Operation) : Prop := Return a < Call b.

#[export] Instance precedes_dec a b : Decision (precedes a b).
Proof. unfold precedes. apply _. Defined.

(** an order of operations that does not contradict their times *)
Fixpoint in_real_time (l : list Operation) : Prop :=
  match l with
  | [] => True
  | a :: l' => Forall (λ b, ¬ precedes b a) l' ∧ in_real_time l'
  end.

#[export] Instance in_real_time_dec l : Decision (in_real_time l).
Proof. induction l; simpl; apply _. Defined.

Definition io (o : Operation) : KvModel.Operation := (Input o, Output o).

(** the operations of one key can be put in an order that the model accepts *)
Definition linearizable (h : list Operation) : Prop :=
  ∃ l, l ≡ₚ h ∧ in_real_time l ∧ KvModel.accepts KvModel.Init (io <$> l) = true.

(** [checkPorcupine], without the visualization; [CheckOperationsVerbose] is
    the library's.  [t.Fatal] ends the test: [Fatal]. *)
Definition checkPorcupine (CheckOperationsVerbose : list Operation → Z → CheckResult) (opLog : OpLog) (nsec : Z)
    : outcome () :=
  match CheckOperationsVerbose (Read opLog) nsec with
  | Illegal => Fatal
  | _ => Ret tt
  end.

(** what the library promises: a history it calls illegal has a part that is
    not linearizable *)
Definition porcupine_sound (CheckOperationsVerbose : list Operation → Z → CheckResult) : Prop :=
  ∀ h nsec, CheckOperationsVerbose h nsec = Illegal → ¬ Forall linearizable (KvModel.Partition Input h).

(* ------------------------------------------------------------------ *)
(** ** Clerks at work *)

Section history.
Context {S : Type} `{KVStore S}.
Implicit Types (s : S).

Definition reply : Type := GetReply + PutReply.

(** a handler at the server *)
Definition serve (s : S) (op : kv_op) : S * reply :=
  match op with
  | OpGet a => (s, inl (kv_Get s a))
  | OpPut a => let '(s', r) := kv_Put s a in (s', inr r)
  end.

(** what the clerk does with a reply: return, go on with the loop ([None]), or
    end the process.  The reply variable is a fresh one in every attempt. *)
Definition clerk_reply (first : bool) (r : reply) : option (outcome answer) :=
  match r with
  | inl rep =>
      match get_Err rep with
      | OK => Some (Ret (GotValue (get_Value rep) (get_Version rep) OK))
      | ErrNoKey => Some (Ret (GotValue "" 0 ErrNoKey))
      | _ => None
      end
  | inr rep => Some (e ← (if first then Put_first_reply rep else Put_resend_reply rep); Ret (GotErr e))
  end.

(** Where a call is: about to send an attempt, waiting in [Call], back in
    porcupine.go with the clerk's answer, or done. *)
Inductive phase := Sending | Waiting | Answered (a : answer) | Done (a : answer) (end_ : Z).

Record kcall := { k_cli : Z; k_op : kv_op; k_start : Z; k_sent : nat; k_phase : phase }.

Definition at_phase (p : phase) (c : kcall) : kcall :=
  {| k_cli := k_cli c; k_op := k_op c; k_start := k_start c; k_sent := k_sent c; k_phase := p |}.
Definition send (c : kcall) : kcall :=
  {| k_cli := k_cli c; k_op := k_op c; k_start := k_start c; k_sent := Datatypes.S (k_sent c); k_phase := Waiting |}.

(** an attempt that was handled *)
Record event := { ev_call : nat; ev_att : nat; ev_time : Z; ev_op : kv_op; ev_rep : reply }.

Record world := { server : S; clock : Z; calls : list kcall; handled : list event; oplog : OpLog }.

Definition set_calls (cs : list kcall) (w : world) : world :=
  {| server := server w; clock := clock w; calls := cs; handled := handled w; oplog := oplog w |}.

Definition init (s : S) : world :=
  {| server := s; clock := 0; calls := []; handled := []; oplog := {| operations := [] |} |}.

Inductive action :=
| Tick (d : Z)                    (* time passes *)
| Begin (cli : Z) (op : kv_op)    (* [Get] or [Put] of porcupine.go is called *)
| Send (c : nat)                  (* the clerk sends an attempt *)
| Handle (c n : nat)              (* the server handles attempt [n] *)
| Reply (c : nat)                 (* [Call] returns true *)
| GiveUp (c : nat)                (* [Call] returns false *)
| Log (c : nat).                  (* the end time, and [log.Append] *)

Definition event_of (c n : nat) (w : world) : option event :=
  snd <$> list_find (λ e, ev_call e = c ∧ ev_att e = n) (handled w).

Definition act (a : action) (w : world) : option (outcome world) :=
  match a with
  | Tick d =>
      if decide (0 ≤ d) then
        Some (Ret {| server := server w; clock := clock w + d; calls := calls w; handled := handled w; oplog := oplog w |})
      else None
  | Begin cli op =>
      Some (Ret (set_calls (calls w ++ [{| k_cli := cli; k_op := op; k_start := clock w; k_sent := 0;
                                           k_phase := Sending |}]) w))
  | Send c =>
      call ← calls w !! c;
      match k_phase call with
      | Sending => Some (Ret (set_calls (<[c := send call]> (calls w)) w))
      | _ => None
      end
  | Handle c n =>
      call ← calls w !! c;
      if decide (n < k_sent call)%nat then
        match event_of c n w with
        | Some _ => None
        | None =>
            let '(s', r) := serve (server w) (k_op call) in
            Some (Ret {| server := s'; clock := clock w; calls := calls w;
                         handled := handled w ++ [{| ev_call := c; ev_att := n; ev_time := clock w;
                                                     ev_op := k_op call; ev_rep := r |}];
                         oplog := oplog w |})
        end
      else None
  | Reply c =>
      call ← calls w !! c;
      match k_phase call with
      | Waiting =>
          e ← event_of c (k_sent call - 1) w;
          match clerk_reply (bool_decide (k_sent call = 1%nat)) (ev_rep e) with
          | Some (Ret a) => Some (Ret (set_calls (<[c := at_phase (Answered a) call]> (calls w)) w))
          | None => Some (Ret (set_calls (<[c := at_phase Sending call]> (calls w)) w))
          | Some Fatal => Some Fatal
          | Some Panic => Some Panic
          end
      | _ => None
      end
  | GiveUp c =>
      call ← calls w !! c;
      match k_phase call with
      | Waiting => Some (Ret (set_calls (<[c := at_phase Sending call]> (calls w)) w))
      | _ => None
      end
  | Log c =>
      call ← calls w !! c;
      match k_phase call with
      | Answered a =>
          Some (Ret {| server := server w; clock := clock w;
                       calls := <[c := at_phase (Done a (clock w)) call]> (calls w); handled := handled w;
                       oplog := Append (oplog w) (record_of (k_cli call) (k_op call) (k_start call) a (clock w)) |})
      | _ => None
      end
  end.

Fixpoint run (acts : list action) (w : world) : option (outcome world) :=
  match acts with
  | [] => Some (Ret w)
  | a :: acts' =>
      match act a w with
      | Some (Ret w') => run acts' w'
      | o => o
      end
  end.

(** A put is informed when its version is not ahead of its key's, for instance
    one that a clerk has read before. *)
Definition informed (w : world) (op : kv_op) : Prop :=
  match op with
  | OpGet _ => True
  | OpPut a => 0 ≤ put_Version a ≤ version_at (kv_table (server w)) (put_Key a)
  end.

Fixpoint informed_run (acts : list action) (w : world) : Prop :=
  match acts with
  | [] => True
  | a :: acts' =>
      match a with Begin _ op => informed w op | _ => True end
      ∧ match act a w with Some (Ret w') => informed_run acts' w' | _ => True end
  end.

Definition is_done (c : kcall) : bool := match k_phase c with Done _ _ => true | _ => false end.

(** what a call has logged *)
Definition logged (c : kcall) : option Operation :=
  match k_phase c with
  | Done a t => Some (record_of (k_cli c) (k_op c) (k_start c) a t)
  | _ => None
  end.
End history.
Arguments world : clear implicits.

(* ------------------------------------------------------------------ *)
(** ** One operation at the server *)

Section facts.
Context {S : Type} `{KVStore S}.
Implicit Types (s : S) (w : world S).

Abbreviation vers s k := (version_at (kv_table s) k).

Definition op_key (op : kv_op) : string := KvModel.in_Key (op_input op).

(** the put of this event was performed *)
Definition wrote (e : event) : bool :=
  match ev_rep e with inr r => bool_decide (put_Err r = OK) | inl _ => false end.

(** the replies an informed clerk can get *)
Definition proper_reply (op : kv_op) (r : reply) : Prop :=
  match op, r with
  | OpGet _, inl rep => get_Err rep = OK ∨ (get_Err rep = ErrNoKey ∧ get_Value rep = "")
  | OpPut _, inr rep => put_Err rep = OK ∨ put_Err rep = ErrVersion
  | _, _ => False
  end.

(** an output that the model accepts for an operation with this reply *)
Definition shows (r : reply) (out : KvModel.KvOutput) : Prop :=
  match r with
  | inl rep => KvModel.out_Value out = get_Value rep
  | inr rep =>
      KvModel.out_Err out = ErrMaybe ∨ KvModel.out_Err out = put_Err rep
  end.

Lemma serve_get s a : serve s (OpGet a) = (s, inl (kv_Get s a)).
Proof. done. Qed.

Lemma serve_put s a s' r : serve s (OpPut a) = (s', r) →
  ∃ rep, r = inr rep ∧ kv_table s' = fst (spec_put (kv_table s) a) ∧ put_Err rep = snd (spec_put (kv_table s) a).
Proof.
  unfold serve. pose proof (kv_Put_spec s a) as E. destruct (kv_Put s a) as [s1 rep]. simpl in E.
  intros [= <- <-]. exists rep. by rewrite <-E.
Qed.

Lemma serve_proper s op s' r : serve s op = (s', r) →
  (∀ a, op = OpPut a → 0 ≤ put_Version a ≤ vers s (put_Key a)) → proper_reply op r.
Proof.
  destruct op as [a|a]; intros E Hi.
  - rewrite serve_get in E. injection E as <- <-. pose proof (kv_Get_spec s a) as E. unfold spec_get in E.
    injection E as Ev _ Ee. simpl. rewrite Ev, Ee. unfold value_at. case_decide as Hn; [right|by left]. by rewrite Hn.
  - apply serve_put in E as (rep & -> & _ & E). simpl. rewrite E. unfold spec_put.
    specialize (Hi a eq_refl). case_decide as Hv; [by left|]. simpl. case_decide as Hn; [|by right].
    unfold version_at in *. rewrite Hn in *. lia.
Qed.

Lemma serve_versions s op s' r k : serve s op = (s', r) → 0 ≤ vers s k < u64_mod - 1 →
  vers s k ≤ vers s' k ≤ vers s k + 1.
Proof.
  intros E Hb. destruct op as [a|a].
  - rewrite serve_get in E. injection E as <- <-. lia.
  - apply serve_put in E as (rep & -> & -> & _). rewrite spec_put_version by done. case_decide; lia.
Qed.

(** a handled put leaves its version behind *)
Lemma serve_overtakes s a s' r : serve s (OpPut a) = (s', r) →
  0 ≤ put_Version a ≤ vers s (put_Key a) → vers s (put_Key a) < u64_mod - 1 →
  put_Version a < vers s' (put_Key a).
Proof.
  intros E Hi Hb. apply serve_put in E as (rep & _ & -> & _). rewrite spec_put_version by lia.
  destruct (decide (snd (spec_put (kv_table s) a) = OK)) as [Hok|Hno].
  - rewrite decide_True by done. lia.
  - rewrite decide_False by naive_solver. rewrite spec_put_ok in Hno. lia.
Qed.

(** a put whose version has been left behind is not performed *)
Lemma serve_overtaken s a s' rep : serve s (OpPut a) = (s', inr rep) →
  put_Version a < vers s (put_Key a) → put_Err rep ≠ OK.
Proof.
  intros E Ho. apply serve_put in E as (rep' & [= <-] & _ & ->). rewrite spec_put_ok. lia.
Qed.

(** one step of the model per operation, whichever of its outputs is recorded *)
Lemma serve_Step s op s' r out : serve s op = (s', r) → proper_reply op r → shows r out →
  (∀ k, k ≠ op_key op → abs s' k = abs s k) ∧
  KvModel.Step (abs s (op_key op)) (op_input op) out = (true, Some (abs s' (op_key op))).
Proof.
  intros E Hr Hs. destruct op as [a|a].
  - rewrite serve_get in E. injection E as <- <-. split; [done|].
    pose proof (kv_Get_spec s a) as E. unfold spec_get in E. injection E as Ev _ _.
    unfold KvModel.Step. simpl in *. rewrite Hs, Ev. by rewrite bool_decide_true.
  - apply serve_put in E as (rep & -> & Et & Ee). simpl in Hr, Hs. split.
    { intros k Hk. unfold abs, value_at, version_at. by rewrite Et, spec_put_other. }
    unfold KvModel.Step, abs, op_key. simpl.
    destruct (decide (snd (spec_put (kv_table s) a) = OK)) as [Hok|Hno].
    + rewrite decide_True by (by apply spec_put_ok).
      unfold value_at, version_at at 2. rewrite Et, spec_put_lookup_ok by done. simpl.
      apply spec_put_ok in Hok as Hv. rewrite Hv. f_equal.
      rewrite Ee, Hok in Hs. destruct Hs as [-> | ->]; done.
    + rewrite decide_False by (by rewrite <-spec_put_ok).
      rewrite Et, spec_put_fail by done. f_equal. rewrite Ee in Hs, Hr.
      destruct Hr as [?|Hr]; [done|]. rewrite Hr in Hs. destruct Hs as [-> | ->]; done.
Qed.

(** an operation that performs no put changes nothing *)
Lemma serve_idle s op s' r k : serve s op = (s', r) → proper_reply op r →
  (∀ rep, r = inr rep → put_Err rep ≠ OK) → abs s' k = abs s k.
Proof.
  intros E Hr Hn. destruct op as [a|a].
  - rewrite serve_get in E. by injection E as <- <-.
  - apply serve_put in E as (rep & -> & Et & Ee). specialize (Hn rep eq_refl). rewrite Ee in Hn.
    unfold abs. by rewrite Et, spec_put_fail.
Qed.

(** ** What was handled, replayed *)

Fixpoint replays (s : S) (l : list event) (s' : S) : Prop :=
  match l with
  | [] => s' = s
  | e :: l' => ev_rep e = snd (serve s (ev_op e)) ∧ replays (fst (serve s (ev_op e))) l' s'
  end.

Lemma replays_snoc s l e s' : replays s (l ++ [e]) s' ↔
  ∃ s1, replays s l s1 ∧ ev_rep e = snd (serve s1 (ev_op e)) ∧ s' = fst (serve s1 (ev_op e)).
Proof.
  revert s. induction l as [|f l IH]; intros s; simpl.
  - split; [intros [He Hs]; by exists s|intros (s1 & -> & He & Hs); done].
  - rewrite IH. naive_solver.
Qed.

(** The recorded operations of one key, in the order in which the server handled
    them, are accepted: [sel] picks the events that stand for a recorded call
    and [out] is what was recorded. *)
Lemma replays_accepts k sel out l s s' : replays s l s' →
  (∀ e, e ∈ l → proper_reply (ev_op e) (ev_rep e)) →
  (∀ e, e ∈ l → sel e = true → shows (ev_rep e) (out e)) →
  (∀ e, e ∈ l → sel e = false → wrote e = false) →
  KvModel.accepts (abs s k)
    ((λ e, (op_input (ev_op e), out e)) <$> filter (λ e, sel e = true ∧ op_key (ev_op e) = k) l) = true.
Proof.
  revert s. induction l as [|e l IH]; intros s Hr Hp Hs Hw; [done|]. destruct Hr as [He Hr].
  destruct (serve s (ev_op e)) as [s1 r] eqn:E. simpl in He, Hr.
  assert (∀ P : event → Prop, (∀ f, f ∈ e :: l → P f) → P e ∧ ∀ f, f ∈ l → P f) as Hsplit
    by (intros P HP; split; [apply HP; left|intros; apply HP; by right]).
  apply Hsplit in Hp as [Hpe Hp], Hs as [Hse Hs], Hw as [Hwe Hw]. clear Hsplit.
  specialize (IH s1 Hr Hp Hs Hw). rewrite He in Hpe, Hse.
  rewrite filter_cons. case_decide as Hc.
  - destruct Hc as [Hc <-]. rewrite fmap_cons. simpl.
    destruct (serve_Step s (ev_op e) s1 r (out e) E Hpe (Hse Hc)) as [_ Hst]. rewrite Hst. simpl. exact IH.
  - assert (abs s1 k = abs s k) as <-; [|exact IH]. destruct (sel e) eqn:Hsel.
    + destruct (serve_Step s (ev_op e) s1 r (out e) E Hpe (Hse eq_refl)) as [Ho _]. apply Ho. naive_solver.
    + eapply serve_idle; [done..|]. intros rep ->. specialize (Hwe eq_refl). unfold wrote in Hwe.
      rewrite He in Hwe. by apply bool_decide_eq_false in Hwe.
Qed.
End facts.

(* ------------------------------------------------------------------ *)
(** ** The invariant of a run *)

Section invariant.
Context {S : Type} `{KVStore S} (s0 : S).
Hypothesis Hempty : kv_table s0 = ∅.
Implicit Types (s : S) (w : world S).

Abbreviation vers s k := (version_at (kv_table s) k).

Definition answered w (c : nat) (call : kcall) (a : answer) (t : Z) : Prop :=
  (1 ≤ k_sent call)%nat ∧ ∃ i e, handled w !! i = Some e ∧ ev_call e = c ∧ ev_att e = (k_sent call - 1)%nat
    ∧ clerk_reply (bool_decide (k_sent call = 1%nat)) (ev_rep e) = Some (Ret a) ∧ ev_time e ≤ t.

Definition call_ok w (c : nat) (call : kcall) : Prop :=
  match k_phase call with
  | Sending => True
  | Waiting => (1 ≤ k_sent call)%nat
  | Answered a => answered w c call a (clock w)
  | Done a t => answered w c call a t
  end.

Record good w : Prop := {
  g_replay : replays s0 (handled w) (server w);
  g_version k : 0 ≤ vers (server w) k ≤ zlen (handled w);
  (* events: their times, calls and replies *)
  g_sorted i j e f : handled w !! i = Some e → handled w !! j = Some f → (i ≤ j)%nat → ev_time e ≤ ev_time f;
  g_clock e : e ∈ handled w → ev_time e ≤ clock w;
  g_event e : e ∈ handled w → ∃ call, calls w !! ev_call e = Some call ∧ ev_op e = k_op call
    ∧ (ev_att e < k_sent call)%nat ∧ k_start call ≤ ev_time e;
  g_proper e : e ∈ handled w → proper_reply (ev_op e) (ev_rep e);
  g_once i j e f : handled w !! i = Some e → handled w !! j = Some f →
    ev_call e = ev_call f → ev_att e = ev_att f → i = j;
  (* versions: behind their keys' from the call on, and left behind once handled *)
  g_informed call a : call ∈ calls w → k_op call = OpPut a → 0 ≤ put_Version a ≤ vers (server w) (put_Key a);
  g_behind e a : e ∈ handled w → ev_op e = OpPut a → put_Version a < vers (server w) (put_Key a);
  g_first i j e f : handled w !! i = Some e → handled w !! j = Some f → (i < j)%nat →
    ev_call e = ev_call f → wrote f = false;
  g_calls c call : calls w !! c = Some call → call_ok w c call;
  g_start call : call ∈ calls w → k_start call ≤ clock w;
  g_log : operations (oplog w) ≡ₚ omap logged (calls w)
}.

Lemma good_init : good (init s0).
Proof.
  split; simpl; try done; try (by intros; set_solver).
  intros k. unfold version_at. by rewrite Hempty.
Qed.

Lemma answered_mono w w' c call a t t' : handled w `prefix_of` handled w' → t ≤ t' →
  answered w c call a t → answered w' c call a t'.
Proof.
  intros Hp Ht (Hs & i & e & Hi & ? & ? & ? & ?). split; [done|]. exists i, e. split_and!; try done; [|lia].
  by eapply prefix_lookup_Some.
Qed.

Lemma call_ok_mono w w' c call : handled w `prefix_of` handled w' → clock w ≤ clock w' →
  call_ok w c call → call_ok w' c call.
Proof.
  unfold call_ok. intros Hp Hc. destruct (k_phase call); try done.
  - by apply answered_mono.
  - apply answered_mono; [done|lia].
Qed.

Lemma event_of_Some w c n e : event_of c n w = Some e →
  ∃ i, handled w !! i = Some e ∧ ev_call e = c ∧ ev_att e = n.
Proof.
  unfold event_of. intros ([i e'] & (? & [? ?] & _)%list_find_Some & [= <-])%fmap_Some. by exists i.
Qed.

Lemma event_of_None w c n e : event_of c n w = None → e ∈ handled w → ev_call e = c → ev_att e ≠ n.
Proof.
  unfold event_of. rewrite fmap_None. intros Hn%list_find_None He Hc Ha.
  rewrite Forall_forall in Hn. by apply (Hn e He).
Qed.

(** a step of one call's clerk *)
Lemma good_set w c call call' lg t : good w → calls w !! c = Some call →
  k_op call' = k_op call → k_start call' = k_start call → (k_sent call ≤ k_sent call')%nat →
  clock w ≤ t →
  let w' := {| server := server w; clock := t; calls := <[c := call']> (calls w); handled := handled w; oplog := lg |} in
  call_ok w' c call' → operations lg ≡ₚ omap logged (calls w') → good w'.
Proof.
  intros HG Hc Ho Hs Hn Ht w' Hk Hl. split; try apply HG; try done.
  - intros e He. pose proof (g_clock _ HG e He). simpl in *. lia.
  - intros e He. destruct (g_event _ HG e He) as (call1 & H1 & H2 & H3 & H4). simpl.
    destruct (decide (ev_call e = c)) as [Hec|Hne].
    + subst c. rewrite H1 in Hc. injection Hc as <-. exists call'.
      rewrite list_lookup_insert_eq by (by eapply lookup_lt_Some). split_and!; [done|congruence|lia|congruence].
    + exists call1. by rewrite list_lookup_insert_ne.
  - intros call1 a [i Hi]%list_elem_of_lookup Ha. apply list_lookup_insert_Some in Hi as [(<- & <- & _)|[_ Hi]].
    + apply (g_informed _ HG call); [by eapply list_elem_of_lookup_2|congruence].
    + apply (g_informed _ HG call1); [by eapply list_elem_of_lookup_2|done].
  - intros c1 call1 Hi. apply list_lookup_insert_Some in Hi as [(<- & <- & _)|[_ Hi]]; [done|].
    apply (call_ok_mono w); [done|done|]. by eapply g_calls.
  - intros call1 [i Hi]%list_elem_of_lookup. simpl.
    assert (k_start call1 ≤ clock w); [|lia]. apply list_lookup_insert_Some in Hi as [(<- & <- & _)|[_ Hi]].
    + rewrite Hs. apply (g_start _ HG). by eapply list_elem_of_lookup_2.
    + apply (g_start _ HG). by eapply list_elem_of_lookup_2.
Qed.

Lemma good_tick w d : good w → 0 ≤ d →
  good {| server := server w; clock := clock w + d; calls := calls w; handled := handled w; oplog := oplog w |}.
Proof.
  intros HG Hd. split; try apply HG; simpl.
  - intros e He. pose proof (g_clock _ HG e He). lia.
  - intros c call Hc. apply (call_ok_mono w); simpl; [done|lia|]. by eapply g_calls.
  - intros call Hc. pose proof (g_start _ HG call Hc). lia.
Qed.

(** an informed clerk's reply ends its call *)
Lemma clerk_reply_ends first op r : proper_reply op r → ∃ a, clerk_reply first r = Some (Ret a).
Proof.
  destruct op, r as [rep|rep]; simpl; try done; intros Hr.
  - destruct Hr as [-> |[-> _]]; eauto.
  - unfold Put_first_reply, Put_resend_reply. destruct Hr as [-> | ->], first; simpl; eauto.
Qed.

Lemma good_begin w cli op : good w → informed w op →
  good (set_calls (calls w ++ [{| k_cli := cli; k_op := op; k_start := clock w; k_sent := 0; k_phase := Sending |}]) w).
Proof.
  intros HG Hi. split; try apply HG.
  - intros e He. destruct (g_event _ HG e He) as (call1 & H1 & ?). exists call1.
    split; [|done]. simpl. by apply lookup_app_l_Some.
  - intros call a [Hc| ->%list_elem_of_singleton]%elem_of_app Ha; [by apply (g_informed _ HG call)|].
    simpl in Ha. subst op. exact Hi.
  - simpl. intros c call [[-> ->]|[_ Hc]]%lookup_snoc_inv; [done|]. by eapply g_calls in Hc.
  - intros call [Hc| ->%list_elem_of_singleton]%elem_of_app; [by apply HG|done].
  - simpl. rewrite omap_app. simpl. rewrite app_nil_r. apply HG.
Qed.

Lemma good_handle w c n call s' r : good w → calls w !! c = Some call → (n < k_sent call)%nat →
  event_of c n w = None → serve (server w) (k_op call) = (s', r) → zlen (handled w) < u64_mod - 1 →
  good {| server := s'; clock := clock w; calls := calls w;
          handled := handled w ++ [{| ev_call := c; ev_att := n; ev_time := clock w; ev_op := k_op call; ev_rep := r |}];
          oplog := oplog w |}.
Proof.
  intros HG Hc Hn Hev E Hz. set (e := {| ev_call := c |}).
  assert (call ∈ calls w) as Hin by (by eapply list_elem_of_lookup_2).
  assert (∀ k, vers (server w) k ≤ vers s' k ≤ vers (server w) k + 1) as Hv.
  { intros k. eapply serve_versions; [exact E|]. pose proof (g_version _ HG k). lia. }
  assert (proper_reply (k_op call) r) as Hp.
  { eapply serve_proper; [exact E|]. intros a Ha. by eapply g_informed. }
  split; simpl; try apply HG.
  - apply replays_snoc. exists (server w). simpl. rewrite E. split; [apply HG|done].
  - intros k. pose proof (g_version _ HG k). specialize (Hv k). unfold zlen. rewrite length_app. simpl. unfold zlen in *. lia.
  - intros i j x y Hx Hy Hij. apply lookup_snoc_inv in Hx as [[-> ->]|[Hi Hx]], Hy as [[-> ->]|[Hj Hy]]; simpl; try lia.
    + apply (g_clock _ HG). by eapply list_elem_of_lookup_2.
    + by eapply (g_sorted _ HG i j).
  - intros x [Hx| ->%list_elem_of_singleton]%elem_of_app; [by apply HG|done].
  - intros x [Hx| ->%list_elem_of_singleton]%elem_of_app; [by apply (g_event _ HG)|].
    exists call. simpl. split_and!; try done. by apply (g_start _ HG).
  - intros x [Hx| ->%list_elem_of_singleton]%elem_of_app; [by apply (g_proper _ HG)|done].
  - intros i j x y Hx Hy Hcc Haa. apply lookup_snoc_inv in Hx as [[-> ->]|[Hi Hx]], Hy as [[-> ->]|[Hj Hy]]; try done.
    + edestruct (event_of_None w c n y); [done|by eapply list_elem_of_lookup_2|done..].
    + edestruct (event_of_None w c n x); [done|by eapply list_elem_of_lookup_2|done..].
    + by eapply (g_once _ HG i j).
  - intros call1 a H1 H2. destruct (g_informed _ HG call1 a H1 H2). specialize (Hv (put_Key a)). lia.
  - intros x a [Hx| ->%list_elem_of_singleton]%elem_of_app Ha.
    + pose proof (g_behind _ HG x a Hx Ha). specialize (Hv (put_Key a)). lia.
    + simpl in Ha. rewrite Ha in E. eapply serve_overtakes; [exact E|by eapply g_informed|].
      pose proof (g_version _ HG (put_Key a)). lia.
  - intros i j x y Hx Hy Hij Hcc. apply lookup_snoc_inv in Hx as [[-> ->]|[Hi Hx]], Hy as [[-> ->]|[Hj Hy]]; try lia.
    + unfold wrote. simpl. destruct r as [rep|rep]; [done|]. apply bool_decide_eq_false.
      assert (x ∈ handled w) as Hxin by (by eapply list_elem_of_lookup_2).
      destruct (g_event _ HG x Hxin) as (call1 & H1 & H2 & _). simpl in Hcc. rewrite Hcc, Hc in H1. injection H1 as <-.
      destruct (k_op call) as [a|a] eqn:Ho; [done|]. eapply serve_overtaken; [exact E|]. by eapply g_behind.
    + by eapply (g_first _ HG i j).
  - intros c1 call1 H1. apply (call_ok_mono w); [by eexists|done|]. by eapply g_calls.
Qed.

Lemma good_act a w o : good w → match a with Begin _ op => informed w op | _ => True end →
  zlen (handled w) < u64_mod - 1 → act a w = Some o → ∃ w', o = Ret w' ∧ good w'.
Proof.
  intros HG Hi Hz E. destruct a as [d|cli op|c|c n|c|c|c]; simpl in E.
  - case_decide; [|done]. injection E as <-. eexists. split; [done|]. by apply good_tick.
  - injection E as <-. eexists. split; [done|]. by apply good_begin.
  - apply bind_Some in E as (call & Hc & E). destruct (k_phase call) eqn:Hp; try done. injection E as <-.
    eexists. split; [done|]. eapply (good_set w c call); try done; simpl; [lia|unfold call_ok; simpl; lia|].
    rewrite (omap_insert_same _ _ _ call) by (done || unfold logged; by rewrite Hp). apply HG.
  - apply bind_Some in E as (call & Hc & E). case_decide as Hn; [|done]. destruct (event_of c n w) eqn:Hev; [done|].
    destruct (serve (server w) (k_op call)) as [s' r] eqn:Es. injection E as <-. eexists. split; [done|].
    by eapply good_handle.
  - apply bind_Some in E as (call & Hc & E). destruct (k_phase call) eqn:Hp; try done.
    apply bind_Some in E as (e & (i & He & Hec & Hea)%event_of_Some & E).
    assert (call_ok w c call) as Hk by (by eapply g_calls). unfold call_ok in Hk. rewrite Hp in Hk.
    assert (e ∈ handled w) as Hin by (by eapply list_elem_of_lookup_2).
    destruct (clerk_reply_ends (bool_decide (k_sent call = 1%nat)) (ev_op e) (ev_rep e)) as (a & Ea); [by apply HG|].
    rewrite Ea in E. injection E as <-. eexists. split; [done|].
    eapply (good_set w c call); try done.
    + unfold call_ok. simpl. split; [done|]. exists i, e. split_and!; try done. by apply HG.
    + simpl. rewrite (omap_insert_same _ _ _ call) by (done || unfold logged; by rewrite Hp). apply HG.
  - apply bind_Some in E as (call & Hc & E). destruct (k_phase call) eqn:Hp; try done. injection E as <-.
    eexists. split; [done|]. eapply (good_set w c call); try done; simpl.
    rewrite (omap_insert_same _ _ _ call) by (done || unfold logged; by rewrite Hp). apply HG.
  - apply bind_Some in E as (call & Hc & E). destruct (k_phase call) as [| |a|] eqn:Hp; try done. injection E as <-.
    assert (call_ok w c call) as Hk by (by eapply g_calls). unfold call_ok in Hk. rewrite Hp in Hk.
    eexists. split; [done|]. eapply (good_set w c call); try done. simpl.
    rewrite (omap_insert_new logged _ _ call); [|done|unfold logged; by rewrite Hp|done].
    by rewrite (g_log _ HG).
Qed.

Lemma act_handled a w w' : act a w = Some (Ret w') → zlen (handled w') ≤ zlen (handled w) + 1.
Proof.
  destruct a as [d|cli op|c|c n|c|c|c]; simpl; intros E.
  - case_decide; simplify_eq/=. lia.
  - simplify_eq/=. lia.
  - apply bind_Some in E as (call & _ & E). destruct (k_phase call); simplify_eq/=. lia.
  - apply bind_Some in E as (call & _ & E). case_decide; [|done]. destruct (event_of c n w); [done|].
    destruct (serve (server w) (k_op call)). simplify_eq/=. unfold zlen. rewrite length_app. simpl. lia.
  - apply bind_Some in E as (call & _ & E). destruct (k_phase call); try done. apply bind_Some in E as (e & _ & E).
    destruct (clerk_reply _ _) as [[| |]|]; simplify_eq/=; lia.
  - apply bind_Some in E as (call & _ & E). destruct (k_phase call); simplify_eq/=. lia.
  - apply bind_Some in E as (call & _ & E). destruct (k_phase call); simplify_eq/=. lia.
Qed.

(** the clerks never end the process, and every run keeps the invariant *)
Lemma good_run acts w o : good w → informed_run acts w → zlen (handled w) + zlen acts < u64_mod - 1 →
  run acts w = Some o → ∃ w', o = Ret w' ∧ good w' ∧ zlen (handled w') ≤ zlen (handled w) + zlen acts.
Proof.
  revert w. induction acts as [|a acts IH]; intros w HG Hi Hz E.
  - injection E as <-. exists w. split_and!; try done. unfold zlen. simpl. lia.
  - destruct Hi as [Hi Hi']. cbn [run] in E. unfold zlen in Hz. rewrite length_cons in Hz.
    destruct (act a w) as [o1|] eqn:Ea; [|done].
    destruct (good_act a w o1 HG Hi) as (w1 & -> & HG1); [unfold zlen; lia|done|].
    pose proof (act_handled a w w1 Ea) as Hz1. unfold zlen in Hz1.
    destruct (IH w1 HG1 Hi') as (w' & -> & HG' & Hz'); [unfold zlen; lia|done|].
    exists w'. split_and!; try done. unfold zlen in *. rewrite length_cons. lia.
Qed.

(* ------------------------------------------------------------------ *)
(** ** A linearization

    Of every call one event stands for it: the performed put if there is one,
    and the attempt that was answered otherwise. *)

Definition nothing : Operation := record_of 0 (OpGet {| get_Key := "" |}) 0 (GotErr OK) 0.

Definition logged_at w (c : nat) : Operation := default nothing (calls w !! c ≫= logged).
Definition rec w (e : event) : Operation := logged_at w (ev_call e).

Definition written w (c : nat) : bool := existsb (λ f, bool_decide (ev_call f = c) && wrote f) (handled w).

Definition last_attempt w (c : nat) : option nat := (λ call, (k_sent call - 1)%nat) <$> calls w !! c.

Definition sel w (e : event) : bool :=
  wrote e || (negb (written w (ev_call e)) && bool_decide (last_attempt w (ev_call e) = Some (ev_att e))).

Lemma written_true w c : written w c = true ↔ ∃ f, f ∈ handled w ∧ ev_call f = c ∧ wrote f = true.
Proof.
  unfold written. rewrite existsb_exists. setoid_rewrite <-list_elem_of_In.
  setoid_rewrite andb_true_iff. by setoid_rewrite bool_decide_eq_true.
Qed.

Lemma shows_own first op r a : proper_reply op r → clerk_reply first r = Some (Ret a) → shows r (answer_output a).
Proof.
  destruct op, r as [rep|rep]; simpl; try done.
  - intros [-> |[-> Hv]]; intros [= <-]; simpl; [done|by rewrite Hv].
  - unfold Put_first_reply, Put_resend_reply. intros [-> | ->]; destruct first; intros [= <-]; simpl; auto.
Qed.

Lemma shows_written r d a op : wrote {| ev_call := 0; ev_att := 0; ev_time := 0; ev_op := op; ev_rep := r |} = true →
  proper_reply op d → wrote {| ev_call := 0; ev_att := 0; ev_time := 0; ev_op := op; ev_rep := d |} = false →
  (∃ p, op = OpPut p) → clerk_reply false d = Some (Ret a) → shows r (answer_output a).
Proof.
  unfold wrote. simpl. destruct r as [|rep]; [done|]. intros _ Hd Hn [p ->].
  destruct d as [|d]; [done|]. simpl in *. apply bool_decide_eq_false in Hn. destruct Hd as [?|Hd]; [done|].
  unfold Put_resend_reply. rewrite Hd. intros [= <-]. simpl. auto.
Qed.

Section done.
Context w (HG : good w) (Hdone : Forall (λ c, is_done c = true) (calls w)).

Lemma done_call c call : calls w !! c = Some call → ∃ a t i d,
  logged_at w c = record_of (k_cli call) (k_op call) (k_start call) a t
  ∧ handled w !! i = Some d ∧ ev_call d = c ∧ ev_att d = (k_sent call - 1)%nat
  ∧ clerk_reply (bool_decide (k_sent call = 1%nat)) (ev_rep d) = Some (Ret a) ∧ ev_time d ≤ t.
Proof.
  intros Hc. pose proof (g_calls _ HG c call Hc) as Hk. rewrite Forall_lookup in Hdone.
  specialize (Hdone c call Hc). unfold is_done, call_ok in *. destruct (k_phase call) as [| | |a t] eqn:Hp; try done.
  destruct Hk as (_ & i & d & ? & ? & ? & ? & ?). exists a, t, i, d. split; [|done].
  unfold logged_at. rewrite Hc. simpl. unfold logged. by rewrite Hp.
Qed.

(** events of one call: the performed one is the first *)
Lemma wrote_first i j e f : handled w !! i = Some e → handled w !! j = Some f → ev_call e = ev_call f →
  wrote e = true → (i ≤ j)%nat.
Proof.
  intros Hi Hj Hc Hw. destruct (decide (i ≤ j)%nat) as [|Hij]; [done|].
  by rewrite (g_first _ HG j i f e Hj Hi) in Hw by (done || lia).
Qed.

Lemma sel_inj e f : e ∈ handled w → f ∈ handled w → sel w e = true → sel w f = true → ev_call e = ev_call f → e = f.
Proof.
  intros [i Hi]%list_elem_of_lookup [j Hj]%list_elem_of_lookup He Hf Hc.
  assert (∀ x, x ∈ handled w → wrote x = true → written w (ev_call x) = true) as Hw
    by (intros x ??; apply written_true; eauto).
  assert (e ∈ handled w ∧ f ∈ handled w) as [Hie Hif] by (split; by eapply list_elem_of_lookup_2).
  unfold sel in He, Hf. destruct (wrote e) eqn:We, (wrote f) eqn:Wf; simpl in He, Hf.
  - assert (i = j) by (apply Nat.le_antisymm; by eapply wrote_first). congruence.
  - rewrite <-Hc, (Hw e) in Hf by done. done.
  - rewrite Hc, (Hw f) in He by done. done.
  - apply andb_true_iff in He as [_ He%bool_decide_eq_true], Hf as [_ Hf%bool_decide_eq_true].
    assert (i = j) by (apply (g_once _ HG i j e f Hi Hj Hc); congruence). congruence.
Qed.

Lemma sel_exists c call : calls w !! c = Some call → ∃ e, e ∈ handled w ∧ sel w e = true ∧ ev_call e = c.
Proof.
  intros Hc. destruct (written w c) eqn:Hw.
  - apply written_true in Hw as (f & Hf & Hfc & Hfw). exists f. split_and!; [done| |done]. unfold sel. by rewrite Hfw.
  - destruct (done_call c call Hc) as (a & t & i & d & _ & Hi & Hdc & Hda & _). exists d.
    split_and!; [by eapply list_elem_of_lookup_2| |done]. unfold sel, last_attempt.
    rewrite Hdc, Hw, Hc. simpl. rewrite bool_decide_true by congruence. apply orb_true_r.
Qed.

(** what is recorded for a selected event: its operation, an output that fits
    its reply, and times around the one at which it was handled *)
Lemma sel_record e : e ∈ handled w → sel w e = true →
  Input (rec w e) = op_input (ev_op e) ∧ shows (ev_rep e) (Output (rec w e))
  ∧ Call (rec w e) ≤ ev_time e ≤ Return (rec w e).
Proof.
  intros Hin Hsel. destruct (g_event _ HG e Hin) as (call & Hc & Ho & Hn & Hs).
  destruct (done_call _ _ Hc) as (a & t & j & d & Hlog & Hj & Hdc & Hda & Hda' & Hdt).
  unfold rec. rewrite Hlog. simpl. pose proof Hin as [i Hi]%list_elem_of_lookup.
  assert (d ∈ handled w) as Hdin by (by eapply list_elem_of_lookup_2).
  assert (proper_reply (ev_op e) (ev_rep e)) as Hpe by (by apply HG).
  split; [by rewrite Ho|]. destruct (decide (ev_att e = ev_att d)) as [Hatt|Hatt].
  - assert (i = j) as -> by (by apply (g_once _ HG i j e d)). rewrite Hj in Hi. injection Hi as <-.
    split; [by eapply shows_own|lia].
  - assert (wrote e = true) as Hw.
    { unfold sel in Hsel. destruct (wrote e); [done|]. simpl in Hsel.
      apply andb_true_iff in Hsel as [_ Hsel%bool_decide_eq_true]. unfold last_attempt in Hsel.
      rewrite Hc in Hsel. simpl in Hsel. congruence. }
    assert (i ≤ j)%nat as Hij by (by apply (wrote_first i j e d)).
    assert (i ≠ j) as Hne by (intros ->; congruence).
    pose proof (g_sorted _ HG i j e d Hi Hj Hij). split; [|lia].
    destruct (g_event _ HG d Hdin) as (call' & Hc' & Ho' & _). rewrite Hdc, Hc in Hc'. injection Hc' as <-.
    rewrite bool_decide_false in Hda' by lia. rewrite Ho in Hpe.
    apply (shows_written _ (ev_rep d) a (k_op call)); try done.
    + rewrite <-Ho'. by apply HG.
    + change (wrote d = false). apply (g_first _ HG i j e d); [done..|lia|done].
    + destruct (k_op call) as [g|p]; [|by exists p]. unfold wrote in Hw. by destruct (ev_rep e).
Qed.

Lemma sel_calls : (ev_call <$> filter (λ e, sel w e = true) (handled w)) ≡ₚ seq 0 (length (calls w)).
Proof.
  apply NoDup_Permutation; [|apply NoDup_seq|].
  - apply NoDup_fmap_2_strong.
    + intros x y [Hx1 Hx2]%list_elem_of_filter [Hy1 Hy2]%list_elem_of_filter. by apply sel_inj.
    + apply NoDup_filter. apply NoDup_alt. intros i j e Hi Hj. by apply (g_once _ HG i j e e).
  - intros c. rewrite list_elem_of_fmap, elem_of_seq. setoid_rewrite list_elem_of_filter. split.
    + intros (e & -> & _ & He). destruct (g_event _ HG e He) as (call & Hc & _). apply lookup_lt_Some in Hc. lia.
    + intros [_ Hlt]. apply lookup_lt_is_Some in Hlt as [call Hc]. destruct (sel_exists c call Hc) as (e & ? & ? & ?).
      by exists e.
Qed.
End done.

Lemma logged_all (cs : list kcall) : Forall (λ c, is_done c = true) cs →
  omap logged cs = (λ c, default nothing (cs !! c ≫= logged)) <$> seq 0 (length cs).
Proof.
  induction 1 as [|c cs Hc _ IH]; [done|]. assert (∃ o, logged c = Some o) as [o Ho].
  { unfold is_done, logged in *. destruct (k_phase c); eauto; done. }
  rewrite length_cons, <-cons_seq, <-fmap_S_seq, fmap_cons, <-list_fmap_compose.
  change (omap logged (c :: cs)) with (match logged c with Some o' => o' :: omap logged cs | None => omap logged cs end).
  rewrite Ho, IH. f_equal. simpl. by rewrite Ho.
Qed.

Lemma real_time_filter (P : event → Prop) `{!∀ e, Decision (P e)} (f : event → Operation) (l : list event) :
  (∀ i j d e, l !! i = Some d → l !! j = Some e → (i ≤ j)%nat → ev_time d ≤ ev_time e) →
  (∀ e, e ∈ l → P e → Call (f e) ≤ ev_time e ≤ Return (f e)) →
  in_real_time (f <$> filter P l).
Proof.
  induction l as [|e l IH]; intros Hs Hw; [done|].
  assert (in_real_time (f <$> filter P l)) as Hl.
  { apply IH; [|intros; apply Hw; [by right|done]]. intros i j x y Hx Hy Hij.
    apply (Hs (Datatypes.S i) (Datatypes.S j)); [done..|lia]. }
  rewrite filter_cons. case_decide as HP; [|done]. simpl. split; [|done].
  apply Forall_fmap, Forall_forall. intros x [HPx Hx]%list_elem_of_filter. unfold precedes. simpl.
  pose proof (Hw e ltac:(by left) HP). pose proof (Hw x ltac:(by right) HPx).
  pose proof Hx as [j Hj]%list_elem_of_lookup. pose proof (Hs 0%nat (Datatypes.S j) e x eq_refl Hj ltac:(lia)). lia.
Qed.

Lemma good_linearizable w k : good w → Forall (λ c, is_done c = true) (calls w) →
  linearizable (KvModel.partition_key Input (operations (oplog w)) k).
Proof.
  intros HG Hdone. set (P := λ e, sel w e = true ∧ op_key (ev_op e) = k).
  pose proof (sel_record w HG Hdone) as Hrec.
  exists (rec w <$> filter P (handled w)). split_and!.
  - unfold KvModel.partition_key. rewrite (g_log _ HG), logged_all by done.
    change (λ c, default nothing (calls w !! c ≫= logged)) with (logged_at w).
    rewrite <-(sel_calls w HG Hdone), <-list_fmap_compose.
    change (logged_at w ∘ ev_call) with (rec w).
    rewrite (filter_fmap_filter (rec w) _ _ (λ e, op_key (ev_op e) = k)); [done|].
    intros e He Hs. destruct (Hrec e He Hs) as [-> _]. done.
  - apply real_time_filter; [apply HG|]. intros e He [Hs _]. by apply Hrec.
  - assert (KvModel.Init = abs s0 k) as -> by (unfold abs, value_at, version_at; by rewrite Hempty).
    rewrite <-list_fmap_compose.
    assert ((io ∘ rec w) <$> filter P (handled w)
            = (λ e, (op_input (ev_op e), Output (rec w e))) <$> filter P (handled w)) as ->.
    { apply list_fmap_ext. intros i e Hi%list_elem_of_lookup_2. apply list_elem_of_filter in Hi as [[Hs _] He].
      unfold io. simpl. by destruct (Hrec e He Hs) as [-> _]. }
    apply (replays_accepts k (sel w) (λ e, Output (rec w e)) _ _ (server w)); [apply HG..| |].
    + intros e He Hs. by apply Hrec.
    + intros e He Hs. unfold sel in Hs. by destruct (wrote e).
Qed.

Lemma good_parts w : good w → Forall (λ c, is_done c = true) (calls w) →
  Forall linearizable (KvModel.Partition Input (Read (oplog w))).
Proof. intros. apply Forall_fmap, Forall_forall. intros k _. by apply good_linearizable. Qed.
End invariant.

Lemma checkPorcupine_Ret check log nsec : porcupine_sound check →
  Forall linearizable (KvModel.Partition Input (Read log)) → checkPorcupine check log nsec = Ret tt.
Proof. intros Hs Hl. unfold checkPorcupine. destruct (check _ _) eqn:E; [done..|]. by apply Hs in E. Qed.

(** C4. Histories are linearizable: whatever clerks call at a server that starts
    empty, however their attempts are delayed, lost and repeated, and whatever
    the times of the steps, once all calls have returned the logged operations of
    every key can be put in an order that does not contradict their times and
    that the sequential model accepts, ErrMaybe included, provided that every put
    was called with a version that is not ahead of its key's.  A checker that
    calls only histories illegal that are not linearizable then lets the test
    pass. *)
Theorem history_linearizable {S : Type} `{KVStore S} (s0 : S) acts w :
  kv_table s0 = ∅ → informed_run acts (init s0) → zlen acts < u64_mod - 1 →
  run acts (init s0) = Some (Ret w) → Forall (λ c, is_done c = true) (calls w) →
  Forall linearizable (KvModel.Partition Input (Read (oplog w)))
  ∧ ∀ check nsec, porcupine_sound check → checkPorcupine check (oplog w) nsec = Ret tt.
Proof.
  intros Hempty Hi Hz E Hdone.
  destruct (good_run s0 acts (init s0) (Ret w)) as (w' & [= <-] & HG & _); [by apply good_init|done|done|done|].
  pose proof (good_parts s0 Hempty w HG Hdone). split; [done|]. intros. by apply checkPorcupine_Ret.
Qed.

(* ------------------------------------------------------------------ *)
(** ** A checker

    Trying every order decides linearizability: the promise asked of porcupine
    can be kept. *)

Definition orders (p : list Operation) : bool :=
  existsb (λ l, bool_decide (in_real_time l) && KvModel.accepts KvModel.Init (io <$> l)) (permutations p).

Definition try_orders (h : list Operation) (nsec : Z) : CheckResult :=
  if forallb orders (KvModel.Partition Input h) then Ok else Illegal.

Lemma orders_linearizable p : orders p = true ↔ linearizable p.
Proof.
  unfold orders, linearizable. rewrite existsb_exists. setoid_rewrite <-list_elem_of_In.
  setoid_rewrite permutations_Permutation. setoid_rewrite andb_true_iff. setoid_rewrite bool_decide_eq_true.
  naive_solver.
Qed.

Lemma try_orders_exact h nsec : try_orders h nsec = Ok ↔ Forall linearizable (KvModel.Partition Input h).
Proof.
  unfold try_orders. rewrite Forall_forall. setoid_rewrite <-orders_linearizable.
  destruct (forallb orders _) eqn:E; rewrite ?forallb_forall in E.
  - split; [|done]. intros _ p Hp. apply E. by apply list_elem_of_In.
  - split; [done|]. intros Hall. apply not_true_iff_false in E. destruct E. apply forallb_forall.
    intros p Hp. apply Hall. by apply list_elem_of_In.
Qed.

Lemma try_orders_sound : porcupine_sound try_orders.
Proof. intros h nsec E. rewrite <-(try_orders_exact h nsec), E. done. Qed.

(* ------------------------------------------------------------------ *)
(** ** Concrete histories *)

Definition put_op (k v : string) (n : Z) : kv_op := OpPut {| put_Key := k; put_Value := v; put_Version := n |}.
Definition get_op (k : string) : kv_op := OpGet {| get_Key := k |}.

Definition final (acts : list action) : option (world KvSrv.KVServer) :=
  match run acts (init KvSrv.MakeKVServer) with Some (Ret w) => Some w | _ => None end.

(** Two clients race for a key: the first reply of one of them is lost and its
    resend is answered [ErrVersion]; a third reads. *)
Definition race : list action :=
  [Begin 0 (put_op "k" "a" 0); Begin 1 (put_op "k" "b" 0); Tick 1; Send 0; Send 1; Handle 0 0; Handle 1 0; Tick 1;
   GiveUp 0; Send 0; Reply 1; Begin 2 (get_op "k"); Send 2; Handle 0 1; Handle 2 0; Reply 0; Reply 2; Tick 2; Log 0;
   Log 1; Log 2].

Lemma history_linearizable_witness : ∃ w, run race (init KvSrv.MakeKVServer) = Some (Ret w)
  ∧ (KvModel.out_Err ∘ Output) <$> Read (oplog w) = [ErrMaybe; ErrVersion; OK]
  ∧ Forall linearizable (KvModel.Partition Input (Read (oplog w)))
  ∧ checkPorcupine try_orders (oplog w) 1 = Ret tt.
Proof.
  eexists. split; [vm_compute; reflexivity|]. split; [vm_compute; reflexivity|].
  refine (match history_linearizable KvSrv.MakeKVServer race _ _ _ _ _ _ with conj A B => conj A (B try_orders 1 _) end).
  - reflexivity.
  - vm_compute. repeat split; discriminate.
  - reflexivity.
  - vm_compute. reflexivity.
  - vm_compute. repeat constructor.
  - exact try_orders_sound.
Defined.

(** Without that proviso: a put with a version of the future is answered
    ErrMaybe, and an attempt that was delayed performs it afterwards, when
    another client has brought the key to that version. *)
Definition late_put : list action :=
  [Begin 0 (put_op "k" "a" 0); Send 0; Handle 0 0; Reply 0; Tick 1; Log 0; Tick 1;
   Begin 1 (put_op "k" "z" 2); Send 1; GiveUp 1; Send 1; Handle 1 1; Reply 1; Tick 1; Log 1; Tick 1;
   Begin 0 (put_op "k" "b" 1); Send 2; Handle 2 0; Reply 2; Tick 1; Log 2; Tick 1;
   Handle 1 0; Begin 0 (get_op "k"); Send 3; Handle 3 0; Reply 3; Tick 1; Log 3].

Theorem future_put_not_linearizable : ∃ w, final late_put = Some w
  ∧ Forall (λ c, is_done c = true) (calls w)
  ∧ (KvModel.out_Err ∘ Output) <$> Read (oplog w) = [OK; ErrMaybe; OK; OK]
  ∧ ¬ Forall linearizable (KvModel.Partition Input (Read (oplog w))).
Proof.
  eexists. split; [vm_compute; reflexivity|]. split; [vm_compute; repeat constructor|].
  split; [vm_compute; reflexivity|]. rewrite <-(try_orders_exact _ 1). vm_compute. discriminate.
Qed.
