(* ===== verification/LabRpc.v ===== *)
(** * The simulated network (labrpc/labrpc.go)

    Client ends, named servers, and the path of one RPC: a goroutine in [Call]
    (or [Forward]) hands a request to the network's loop, which starts a
    goroutine [processReq], which starts a goroutine that runs the handler and
    passes its reply back over a channel.  The three kinds of goroutines are
    pools of threads; a reply channel is named by the number of the call, the
    channel [ech] by the number of the [processReq] that made it.  [act] is one
    step of one of them, of the code that configures the network, or of the
    code behind the services; a schedule is any list of actions.

    Names of ends and servers are strings, as in the tester.  Time is not
    modelled: a delay may have any length, so random delays leave no trace;
    random drops are arguments of the actions.  Behind the services stands a
    world [W]; a handler that runs is a [T], and [hstep] makes one step of it
    ([None]: it has to wait).  Code that replaces the network by sockets
    ([SetCall], [SetDispatch]) answers what it wants. *)

From S2P Require Import Prelude.
From Stdlib Require Import Strings.Byte.
Local Open Scope Z_scope.

Abbreviation bytes := (list Byte.byte).

(** ** Names of methods *)

(** [strings.LastIndex(s, c)] for one character *)
Fixpoint LastIndex (s : string) (c : ascii) : Z :=
  match s with
  | EmptyString => -1
  | String a s' =>
      let i := LastIndex s' c in
      if decide (0 ≤ i) then i + 1 else if decide (a = c) then 0 else -1
  end.

(** [svcMeth[:dot]] and [svcMeth[dot+1:]]; slicing up to -1 panics *)
Definition split_method (svcMeth : string) : outcome (string * string) :=
  let dot := LastIndex svcMeth "." in
  if decide (dot < 0) then Panic
  else Ret (String.substring 0 (Z.to_nat dot) svcMeth,
            String.substring (Z.to_nat (dot + 1)) (String.length svcMeth - Z.to_nat (dot + 1)) svcMeth).

(** ** Messages *)

Record reqMsg := { req_endname : string; svcMeth : string; req_args : bytes }.
Record replyMsg := { ok : bool; reply : bytes }.
Definition no_reply : replyMsg := {| ok := false; reply := [] |}.

#[export] Instance byte_eq_decision : EqDecision Byte.byte := Byte.byte_eq_dec.
#[export] Instance replyMsg_eq_dec : EqDecision replyMsg.
Proof. solve_decision. Defined.

(** labgob encodes or fails; decoding starts from what the variable holds *)
Class Gob (A : Type) := {
  gob_encode : A → option bytes;
  gob_decode : A → bytes → option A
}.

Definition Marshall {A} `{Gob A} (args : A) : outcome bytes :=
  match gob_encode args with Some b => Ret b | None => Fatal end.
Definition Unmarshall {A} `{Gob A} (b : bytes) (repl : A) : outcome A :=
  match gob_decode repl b with Some a => Ret a | None => Fatal end.

(** [reflect.Kind], as far as the code looks *)
Inductive Kind := Ptr | OtherKind.
#[export] Instance Kind_eq_dec : EqDecision Kind.
Proof. solve_decision. Defined.

(** [rep := <-req.replyCh] and the rest of [Call]: the result and what the
    caller's variable then holds *)
Definition Call_reply {A} `{Gob A} (rep : replyMsg) (var : A) : outcome (bool * A) :=
  if ok rep then a ← Unmarshall (reply rep) var; Ret (true, a) else Ret (false, var).
(** [Forward] hands on the bytes *)
Definition Forward_reply (rep : replyMsg) : bytes * bool := (reply rep, ok rep).

Section labrpc.
Context {W T : Type} (hstep : W → T → option (W * (T + bytes))).

(** ** Services and servers *)

(** what [reflect] tells about a method: where its name comes from (empty when
    exported), the kinds of its arguments, receiver included, the number of
    its results, and the code: decoding the argument may fail *)
Record method := {
  m_Name : string;
  m_PkgPath : string;
  m_In : list Kind;
  m_NumOut : Z;
  m_Func : bytes → option T
}.

Record Service := { svc_name : string; methods : gmap string method }.

Definition suitable (m : method) : bool :=
  bool_decide (m_PkgPath m = "") && bool_decide (zlen (m_In m) = 3)
  && bool_decide (m_In m !! 2%nat = Some Ptr) && bool_decide (m_NumOut m = 0).

Definition MakeService (name : string) (typ : list method) : Service :=
  {| svc_name := name;
     methods := fold_left (λ ms m, if suitable m then <[m_Name m := m]> ms else ms) typ ∅ |}.

(** [Service.dispatch] up to the call of the handler *)
Definition Service_dispatch (svc : Service) (methname : string) (req : reqMsg) : outcome T :=
  match methods svc !! methname with
  | Some m => match m_Func m (req_args req) with Some t => Ret t | None => Fatal end
  | None => Fatal
  end.

Record Server := {
  services : gmap string Service;
  srv_count : Z;
  dispatchf : bool               (** [SetDispatch] was called *)
}.

Definition MakeServer : Server := {| services := ∅; srv_count := 0; dispatchf := false |}.
Definition SetDispatch (rs : Server) : Server :=
  {| services := services rs; srv_count := srv_count rs; dispatchf := true |}.
Definition AddService (svc : Service) (rs : Server) : Server :=
  {| services := <[svc_name svc := svc]> (services rs); srv_count := srv_count rs;
     dispatchf := dispatchf rs |}.

(** [Server.dispatch] up to the call of the handler, which is [None] when
    [dispatchf] is called instead *)
Definition Server_dispatch (rs : Server) (req : reqMsg) : outcome (Server * option T) :=
  '(serviceName, methodName) ← split_method (svcMeth req);
  let rs' := {| services := services rs; srv_count := srv_count rs + 1;
                dispatchf := dispatchf rs |} in
  if dispatchf rs then Ret (rs', None)
  else match services rs !! serviceName with
       | Some service => t ← Service_dispatch service methodName req; Ret (rs', Some t)
       | None => Fatal
       end.

(** ** The network and its goroutines *)

Record ClientEnd := { e_endname : string; callf : bool (** [SetCall] was called *) }.

(** a goroutine in [Call] or [Forward] *)
Inductive caller_pc :=
| InCallf                          (** inside [e.callf] *)
| Sending                          (** at the [select] that sends the request *)
| Waiting                          (** at [<-req.replyCh] *)
| Returned (r : replyMsg).

Record caller := { c_req : reqMsg; c_callf : bool (** [e.callf != nil] *); c_pc : caller_pc }.

(** what [readEndnameInfo] returned, when the end is enabled and connected to
    a server that exists *)
Record endInfo := {
  i_servername : string;
  i_server : nat;
  i_reliable : bool;
  i_longreordering : bool
}.

(** a goroutine in [processReq] *)
Inductive proc_pc :=
| PStart
| PAccept (i : endInfo)                       (** in the short delay *)
| PWait (i : endInfo)                         (** in the loop, at the [select] *)
| PCheck (i : endInfo) (r : option replyMsg)  (** after the loop: [reply], or [serverDead] *)
| PSend (r : replyMsg) (counted : bool)       (** at [req.replyCh <-], or before it in a timer *)
| PDone (r : replyMsg).

Record proc := { p_caller : nat; p_pc : proc_pc; p_drain : bool (** drains [ech] *) }.

(** the goroutine that runs the handler *)
Inductive handler_pc :=
| HDispatch                        (** before [Server.dispatch] *)
| HDispatchf                       (** inside [dispatchf] *)
| HRun (t : T)                     (** inside the handler *)
| HReply (r : replyMsg)            (** at [ech <- r] *)
| HDone (r : replyMsg).

Record handler := { h_proc : nat; h_caller : nat; h_server : nat; h_pc : handler_pc }.

Record Network := {
  reliable : bool;
  longDelays : bool;
  longReordering : bool;
  ends : gmap string nat;                  (** names to [clients] *)
  enabled : gmap string bool;
  servers : gmap string (option nat);      (** names to [srvs], [None] for nil *)
  connections : gmap string (option string);
  looping : bool;                          (** the goroutine of [MakeNetwork] runs *)
  closed : bool;                           (** [done] is closed *)
  count : Z;
  nbytes : Z;
  clients : list ClientEnd;                (** objects, by identity *)
  srvs : list Server;
  callers : list caller;
  procs : list proc;
  handlers : list handler;
  world : W                                (** what the handlers work on *)
}.

Definition MakeNetwork (w : W) : Network :=
  {| reliable := true; longDelays := false; longReordering := false;
     ends := ∅; enabled := ∅; servers := ∅; connections := ∅;
     looping := true; closed := false; count := 0; nbytes := 0;
     clients := []; srvs := []; callers := []; procs := []; handlers := []; world := w |}.

(** [Some] of the server a name stands for, when it is not nil *)
Definition server_of (n : Network) (servername : string) : option nat :=
  default None (servers n !! servername).

Definition is_enabled (n : Network) (endname : string) : bool :=
  default false (enabled n !! endname).

(** [None] unless [enabled && servername != nil && server != nil] *)
Definition readEndnameInfo (n : Network) (endname : string) : option endInfo :=
  if is_enabled n endname then
    servername ← default None (connections n !! endname);
    server ← server_of n servername;
    Some {| i_servername := servername; i_server := server;
            i_reliable := reliable n; i_longreordering := longReordering n |}
  else None.

Definition isServerDead (n : Network) (endname servername : string) (server : nat) : bool :=
  negb (is_enabled n endname) || negb (bool_decide (server_of n servername = Some server)).

(** updates of one field *)
Definition with_flags (n : Network) (rel delays reord : bool) : Network :=
  {| reliable := rel; longDelays := delays; longReordering := reord;
     ends := ends n; enabled := enabled n; servers := servers n; connections := connections n;
     looping := looping n; closed := closed n; count := count n; nbytes := nbytes n;
     clients := clients n; srvs := srvs n;
     callers := callers n; procs := procs n; handlers := handlers n; world := world n |}.
Definition with_maps (n : Network) (es : gmap string nat) (en : gmap string bool)
    (ss : gmap string (option nat)) (cs : gmap string (option string)) : Network :=
  {| reliable := reliable n; longDelays := longDelays n; longReordering := longReordering n;
     ends := es; enabled := en; servers := ss; connections := cs;
     looping := looping n; closed := closed n; count := count n; nbytes := nbytes n;
     clients := clients n; srvs := srvs n;
     callers := callers n; procs := procs n; handlers := handlers n; world := world n |}.
Definition with_loop (n : Network) (l c : bool) : Network :=
  {| reliable := reliable n; longDelays := longDelays n; longReordering := longReordering n;
     ends := ends n; enabled := enabled n; servers := servers n; connections := connections n;
     looping := l; closed := c; count := count n; nbytes := nbytes n;
     clients := clients n; srvs := srvs n;
     callers := callers n; procs := procs n; handlers := handlers n; world := world n |}.
Definition with_counts (n : Network) (c b : Z) : Network :=
  {| reliable := reliable n; longDelays := longDelays n; longReordering := longReordering n;
     ends := ends n; enabled := enabled n; servers := servers n; connections := connections n;
     looping := looping n; closed := closed n; count := c; nbytes := b;
     clients := clients n; srvs := srvs n;
     callers := callers n; procs := procs n; handlers := handlers n; world := world n |}.
Definition with_objects (n : Network) (cs : list ClientEnd) (ss : list Server) : Network :=
  {| reliable := reliable n; longDelays := longDelays n; longReordering := longReordering n;
     ends := ends n; enabled := enabled n; servers := servers n; connections := connections n;
     looping := looping n; closed := closed n; count := count n; nbytes := nbytes n;
     clients := cs; srvs := ss;
     callers := callers n; procs := procs n; handlers := handlers n; world := world n |}.
Definition with_threads (n : Network) (cs : list caller) (ps : list proc) (hs : list handler)
    (w : W) : Network :=
  {| reliable := reliable n; longDelays := longDelays n; longReordering := longReordering n;
     ends := ends n; enabled := enabled n; servers := servers n; connections := connections n;
     looping := looping n; closed := closed n; count := count n; nbytes := nbytes n;
     clients := clients n; srvs := srvs n; callers := cs; procs := ps; handlers := hs; world := w |}.

Definition set_callers (n : Network) (cs : list caller) : Network :=
  with_threads n cs (procs n) (handlers n) (world n).
Definition set_procs (n : Network) (ps : list proc) : Network :=
  with_threads n (callers n) ps (handlers n) (world n).
Definition set_handlers (n : Network) (hs : list handler) : Network :=
  with_threads n (callers n) (procs n) hs (world n).

(** ** Configuration *)

Definition Reliable (yes : bool) (n : Network) : Network :=
  with_flags n yes (longDelays n) (longReordering n).
Definition IsReliable (n : Network) : bool := reliable n.
Definition LongReordering (yes : bool) (n : Network) : Network :=
  with_flags n (reliable n) (longDelays n) yes.
Definition LongDelays (yes : bool) (n : Network) : Network :=
  with_flags n (reliable n) yes (longReordering n).
Definition IsLongDelays (n : Network) : bool := longDelays n.

(** closing a closed channel panics *)
Definition Cleanup (n : Network) : outcome Network :=
  if closed n then Panic else Ret (with_loop n (looping n) true).

Definition MakeEnd (endname : string) (n : Network) : outcome (Network * nat) :=
  match ends n !! endname with
  | Some _ => Fatal
  | None =>
      let e := length (clients n) in
      let n' := with_objects n (clients n ++ [{| e_endname := endname; callf := false |}]) (srvs n) in
      Ret (with_maps n' (<[endname := e]> (ends n)) (<[endname := false]> (enabled n))
             (servers n) (<[endname := None]> (connections n)), e)
  end.

Definition LookupEnd (endname : string) (n : Network) : outcome nat :=
  match ends n !! endname with Some e => Ret e | None => Fatal end.

Definition DeleteEnd (endname : string) (n : Network) : outcome Network :=
  match ends n !! endname with
  | None => Fatal
  | Some _ => Ret (with_maps n (delete endname (ends n)) (delete endname (enabled n))
                     (servers n) (delete endname (connections n)))
  end.

Definition AddServer (servername : string) (rs : nat) (n : Network) : Network :=
  with_maps n (ends n) (enabled n) (<[servername := Some rs]> (servers n)) (connections n).
Definition DeleteServer (servername : string) (n : Network) : Network :=
  with_maps n (ends n) (enabled n) (<[servername := None]> (servers n)) (connections n).
Definition Connect (endname servername : string) (n : Network) : Network :=
  with_maps n (ends n) (enabled n) (servers n) (<[endname := Some servername]> (connections n)).
Definition Enable (endname : string) (e : bool) (n : Network) : Network :=
  with_maps n (ends n) (<[endname := e]> (enabled n)) (servers n) (connections n).

(** a server without the name, or deleted, is a nil pointer *)
Definition GetCount (servername : string) (n : Network) : outcome Z :=
  match server_of n servername ≫= λ s, srvs n !! s with
  | Some rs => Ret (srv_count rs)
  | None => Panic
  end.
Definition GetTotalCount (n : Network) : Z := count n.
Definition GetTotalBytes (n : Network) : Z := nbytes n.

(** what tests do to the network *)
Inductive config :=
| CReliable (yes : bool)
| CLongReordering (yes : bool)
| CLongDelays (yes : bool)
| CCleanup
| CMakeEnd (endname : string)
| CDeleteEnd (endname : string)
| CSetCall (e : nat)
| CNewServer
| CAddServer (servername : string) (rs : nat)
| CDeleteServer (servername : string)
| CConnect (endname servername : string)
| CEnable (endname : string) (yes : bool)
| CAddService (rs : nat) (svc : Service)
| CSetDispatch (rs : nat).

Definition configure (a : config) (n : Network) : outcome Network :=
  match a with
  | CReliable yes => Ret (Reliable yes n)
  | CLongReordering yes => Ret (LongReordering yes n)
  | CLongDelays yes => Ret (LongDelays yes n)
  | CCleanup => Cleanup n
  | CMakeEnd e => '(n', _) ← MakeEnd e n; Ret n'
  | CDeleteEnd e => DeleteEnd e n
  | CSetCall e =>
      Ret (with_objects n (alter (λ c, {| e_endname := e_endname c; callf := true |}) e (clients n))
             (srvs n))
  | CNewServer => Ret (with_objects n (clients n) (srvs n ++ [MakeServer]))
  | CAddServer s rs => Ret (AddServer s rs n)
  | CDeleteServer s => Ret (DeleteServer s n)
  | CConnect e s => Ret (Connect e s n)
  | CEnable e yes => Ret (Enable e yes n)
  | CAddService rs svc => Ret (with_objects n (clients n) (alter (AddService svc) rs (srvs n)))
  | CSetDispatch rs => Ret (with_objects n (clients n) (alter SetDispatch rs (srvs n)))
  end.

(** ** Steps *)

(** [Call] or [Forward], up to the first wait *)
Definition Call (e : nat) (meth : string) (args : bytes) (n : Network) : option Network :=
  end_ ← clients n !! e;
  let req := {| req_endname := e_endname end_; svcMeth := meth; req_args := args |} in
  Some (set_callers n (callers n ++
    [{| c_req := req; c_callf := callf end_; c_pc := if callf end_ then InCallf else Sending |}])).

Definition set_caller (k : nat) (pc : caller_pc) (n : Network) : Network :=
  set_callers n (alter (λ c, {| c_req := c_req c; c_callf := c_callf c; c_pc := pc |}) k (callers n)).
Definition set_proc (i : nat) (pc : proc_pc) (n : Network) : Network :=
  set_procs n (alter (λ p, {| p_caller := p_caller p; p_pc := pc; p_drain := p_drain p |}) i (procs n)).
Definition set_drain (i : nat) (d : bool) (n : Network) : Network :=
  set_procs n (alter (λ p, {| p_caller := p_caller p; p_pc := p_pc p; p_drain := d |}) i (procs n)).
Definition set_handler (h : nat) (pc : handler_pc) (n : Network) : Network :=
  set_handlers n (alter (λ x, {| h_proc := h_proc x; h_caller := h_caller x;
                                 h_server := h_server x; h_pc := pc |}) h (handlers n)).

(** [callf] answers *)
Definition callf_step (k : nat) (r : replyMsg) (n : Network) : option Network :=
  c ← callers n !! k;
  match c_pc c with
  | InCallf => Some (set_caller k (Returned r) n)
  | _ => None
  end.

(** the loop of [MakeNetwork] receives the request and starts [processReq] *)
Definition send_step (k : nat) (n : Network) : option Network :=
  c ← callers n !! k;
  match c_pc c with
  | Sending =>
      if looping n then
        let n1 := with_counts n (i32 (count n + 1)) (i64 (nbytes n + zlen (req_args (c_req c)))) in
        let n2 := set_procs n1 (procs n1 ++ [{| p_caller := k; p_pc := PStart; p_drain := false |}]) in
        Some (set_caller k Waiting n2)
      else None
  | _ => None
  end.

(** [<-e.done] in [Call], and in the loop *)
Definition done_step (k : nat) (n : Network) : option Network :=
  c ← callers n !! k;
  match c_pc c with
  | Sending => if closed n then Some (set_caller k (Returned no_reply) n) else None
  | _ => None
  end.
Definition stop_step (n : Network) : option Network :=
  if closed n && looping n then Some (with_loop n false true) else None.

(** [(rand.Int()%1000) < 100] *)
Definition unlucky (rand : Z) : bool := bool_decide (rand `mod` 1000 < 100).

Definition read_step (i : nat) (n : Network) : option Network :=
  p ← procs n !! i;
  c ← callers n !! p_caller p;
  match p_pc p with
  | PStart =>
      Some (set_proc i
        (match readEndnameInfo n (req_endname (c_req c)) with
         | Some info => PAccept info
         | None => PSend no_reply false
         end) n)
  | _ => None
  end.

(** drop the request, or start the goroutine that runs the handler *)
Definition accept_step (i : nat) (rand : Z) (n : Network) : option Network :=
  p ← procs n !! i;
  match p_pc p with
  | PAccept info =>
      if negb (i_reliable info) && unlucky rand then Some (set_proc i (PSend no_reply false) n)
      else
        let h := {| h_proc := i; h_caller := p_caller p; h_server := i_server info;
                    h_pc := HDispatch |} in
        Some (set_proc i (PWait info) (set_handlers n (handlers n ++ [h])))
  | _ => None
  end.

(** [case reply = <-ech] *)
Definition take_step (h : nat) (n : Network) : option Network :=
  x ← handlers n !! h;
  p ← procs n !! h_proc x;
  match h_pc x, p_pc p with
  | HReply r, PWait info =>
      Some (set_proc (h_proc x) (PCheck info (Some r)) (set_handler h (HDone r) n))
  | _, _ => None
  end.

(** [case <-time.After(100ms)] *)
Definition timer_step (i : nat) (n : Network) : option Network :=
  p ← procs n !! i;
  c ← callers n !! p_caller p;
  match p_pc p with
  | PWait info =>
      Some (if isServerDead n (req_endname (c_req c)) (i_servername info) (i_server info)
            then set_drain i true (set_proc i (PCheck info None) n) else n)
  | _ => None
  end.

Definition drain_step (h : nat) (n : Network) : option Network :=
  x ← handlers n !! h;
  p ← procs n !! h_proc x;
  match h_pc x with
  | HReply r => if p_drain p then Some (set_drain (h_proc x) false (set_handler h (HDone r) n)) else None
  | _ => None
  end.

(** the last [isServerDead] and what follows it; the two cases that deliver
    the reply differ in when they do it *)
Definition check_step (i : nat) (rand : Z) (n : Network) : option Network :=
  p ← procs n !! i;
  c ← callers n !! p_caller p;
  match p_pc p with
  | PCheck info res =>
      let serverDead := isServerDead n (req_endname (c_req c)) (i_servername info) (i_server info) in
      Some (set_proc i
        (match res with
         | Some r =>
             if serverDead then PSend no_reply false
             else if negb (i_reliable info) && unlucky rand then PSend no_reply false
             else PSend r true
         | None => PSend no_reply false
         end) n)
  | _ => None
  end.

(** [req.replyCh <- r] *)
Definition reply_step (i : nat) (n : Network) : option Network :=
  p ← procs n !! i;
  c ← callers n !! p_caller p;
  match p_pc p, c_pc c with
  | PSend r counted, Waiting =>
      let n1 := if counted then with_counts n (count n) (i64 (nbytes n + zlen (reply r))) else n in
      Some (set_proc i (PDone r) (set_caller (p_caller p) (Returned r) n1))
  | _, _ => None
  end.

(** the handler's goroutine: dispatch, steps of the handler, its return *)
Definition dispatch_step (h : nat) (n : Network) : option (outcome Network) :=
  x ← handlers n !! h;
  c ← callers n !! h_caller x;
  rs ← srvs n !! h_server x;
  match h_pc x with
  | HDispatch =>
      Some ('(rs', t) ← Server_dispatch rs (c_req c);
            let pc := match t with Some t => HRun t | None => HDispatchf end in
            Ret (set_handler h pc (with_objects n (clients n) (<[h_server x := rs']> (srvs n)))))
  | _ => None
  end.

Definition dispatchf_step (h : nat) (r : replyMsg) (n : Network) : option Network :=
  x ← handlers n !! h;
  match h_pc x with
  | HDispatchf => Some (set_handler h (HReply r) n)
  | _ => None
  end.

Definition run_step (h : nat) (n : Network) : option Network :=
  x ← handlers n !! h;
  match h_pc x with
  | HRun t =>
      '(w, res) ← hstep (world n) t;
      let pc := match res with inl t' => HRun t' | inr rep => HReply {| ok := true; reply := rep |} end in
      let n' := set_handler h pc n in
      Some (with_threads n' (callers n') (procs n') (handlers n') w)
  | _ => None
  end.

(** the code behind the services does something else *)
Definition world_step (f : W → W) (n : Network) : Network :=
  with_threads n (callers n) (procs n) (handlers n) (f (world n)).

Inductive action :=
| AConfig (a : config)
| AWorld (f : W → W)
| ACall (e : nat) (meth : string) (args : bytes)
| ACallf (k : nat) (r : replyMsg)
| ASend (k : nat)
| ADone (k : nat)
| AStop
| ARead (i : nat)
| AAccept (i : nat) (rand : Z)
| ATake (h : nat)
| ATimer (i : nat)
| ADrain (h : nat)
| ACheck (i : nat) (rand : Z)
| AReply (i : nat)
| ADispatch (h : nat)
| ADispatchf (h : nat) (r : replyMsg)
| ARun (h : nat).

(** objects that do not exist are not added *)
Definition config_ok (a : config) (n : Network) : bool :=
  match a with
  | CAddServer _ rs => bool_decide (rs < length (srvs n))%nat
  | _ => true
  end.

Definition act (a : action) (n : Network) : option (outcome Network) :=
  match a with
  | AConfig a => if config_ok a n then Some (configure a n) else None
  | AWorld f => Some (Ret (world_step f n))
  | ACall e meth args => Ret <$> Call e meth args n
  | ACallf k r => Ret <$> callf_step k r n
  | ASend k => Ret <$> send_step k n
  | ADone k => Ret <$> done_step k n
  | AStop => Ret <$> stop_step n
  | ARead i => Ret <$> read_step i n
  | AAccept i rand => Ret <$> accept_step i rand n
  | ATake h => Ret <$> take_step h n
  | ATimer i => Ret <$> timer_step i n
  | ADrain h => Ret <$> drain_step h n
  | ACheck i rand => Ret <$> check_step i rand n
  | AReply i => Ret <$> reply_step i n
  | ADispatch h => dispatch_step h n
  | ADispatchf h r => Ret <$> dispatchf_step h r n
  | ARun h => Ret <$> run_step h n
  end.

(** a schedule, while the process lives *)
Fixpoint acts (l : list action) (n : Network) : option Network :=
  match l with
  | [] => Some n
  | a :: l' => m ← act a n; n' ← of_ret m; acts l' n'
  end.

Definition is_reachable (n : Network) : Prop :=
  ∃ w l, acts l (MakeNetwork w) = Some n.

(** ** Schedules *)

Lemma acts_app l1 l2 n : acts (l1 ++ l2) n = acts l1 n ≫= acts l2.
Proof.
  revert n. induction l1 as [|a l1 IH]; intros n; [done|]. simpl.
  destruct (act a n) as [m|]; [|done]. simpl. destruct (of_ret m); simpl; [apply IH|done].
Qed.

(** what every step keeps holds along every schedule *)
Lemma acts_inv (I : Network → Prop) (allowed : action → Prop) l n n' :
  (∀ a n n', allowed a → I n → act a n = Some (Ret n') → I n') →
  Forall allowed l → I n → acts l n = Some n' → I n'.
Proof.
  intros Hstep Hl. revert n. induction Hl as [|a l Ha _ IH]; intros n Hn Hr; simpl in Hr.
  - by simplify_eq.
  - destruct (act a n) as [[n1| |]|] eqn:E; simpl in Hr; try done. eauto.
Qed.

Lemma reachable_acts l n n' : is_reachable n → acts l n = Some n' → is_reachable n'.
Proof. intros (w & l0 & E) Hl. exists w, (l0 ++ l). by rewrite acts_app, E. Qed.

(** code that configures the network leaves its goroutines alone *)
Lemma configure_threads a n n' :
  configure a n = Ret n' →
  callers n' = callers n ∧ procs n' = procs n ∧ handlers n' = handlers n ∧ world n' = world n
  ∧ count n' = count n.
Proof. destruct a; simpl; unfold Cleanup, MakeEnd, DeleteEnd; intros E; repeat case_match; go_inv; simplify_eq/=; done. Qed.

(** ** Names of methods *)

Lemma LastIndex_app_dot s m :
  LastIndex m "." = -1 → LastIndex (s ++ String "." m) "." = Z.of_nat (String.length s).
Proof.
  intros Hm. induction s as [|a s IH]; simpl.
  - rewrite Hm. by repeat case_decide.
  - rewrite IH. case_decide; lia.
Qed.

Lemma substring_all m : String.substring 0 (String.length m) m = m.
Proof. induction m as [|a m IH]; simpl; congruence. Qed.
Lemma substring_app s t : String.substring 0 (String.length s) (s ++ t) = s.
Proof. induction s as [|a s IH]; simpl; [by destruct t|congruence]. Qed.
Lemma substring_app_r s t k :
  String.substring (String.length s) k (s ++ t) = String.substring 0 k t.
Proof. induction s as [|a s IH]; simpl; [done|apply IH]. Qed.

Lemma string_app_cons s c m : (s ++ String c m = (s ++ String c "") ++ m)%string.
Proof. induction s as [|a s IH]; [done|]. exact (f_equal (String a) IH). Qed.
Lemma string_length_snoc s c : String.length (s ++ String c "") = S (String.length s).
Proof. induction s as [|a s IH]; [done|]. exact (f_equal Datatypes.S IH). Qed.

Lemma string_length_app s t : String.length (s ++ t) = (String.length s + String.length t)%nat.
Proof. induction s as [|a s IH]; [done|]. exact (f_equal Datatypes.S IH). Qed.

Lemma split_method_dot s m : LastIndex m "." = -1 → split_method (s ++ String "." m) = Ret (s, m).
Proof.
  intros Hm. unfold split_method. rewrite LastIndex_app_dot by done.
  case_decide; [lia|]. rewrite Nat2Z.id, substring_app. f_equal. f_equal.
  rewrite string_app_cons.
  replace (Z.to_nat (Z.of_nat (String.length s) + 1)) with (String.length (s ++ "."))
    by (rewrite string_length_snoc; lia).
  rewrite substring_app_r.
  rewrite string_length_app, Nat.add_comm, Nat.add_sub.
  apply substring_all.
Qed.

End labrpc.
