(* ===== verification/LabRpcCalls.v ===== *)
(** * What a call over the simulated network means

    Invariants of the goroutines of LabRpc.v and what they give the users of
    labrpc: a call runs the handler at most once, returns true only with what
    that run answered, never from a server that was deleted before, and returns
    unless the handler does not. *)

From S2P Require Import Prelude LabRpc.
Local Open Scope Z_scope.

Section calls.
Context {W T : Type} (hstep : W → T → option (W * (T + bytes))).
Implicit Types (n : Network (W:=W) (T:=T)).

(** ** Steps of the goroutines, without the rest of the network *)

Definition put_caller (k : nat) (pc : caller_pc) (cs : list caller) : list caller :=
  alter (λ c, {| c_req := c_req c; c_callf := c_callf c; c_pc := pc |}) k cs.
Definition put_proc (i : nat) (pc : proc_pc) (ps : list proc) : list proc :=
  alter (λ p, {| p_caller := p_caller p; p_pc := pc; p_drain := p_drain p |}) i ps.
Definition put_drain (i : nat) (d : bool) (ps : list proc) : list proc :=
  alter (λ p, {| p_caller := p_caller p; p_pc := p_pc p; p_drain := d |}) i ps.
Definition put_handler (h : nat) (pc : handler_pc) (hs : list (handler (T:=T))) : list handler :=
  alter (λ x, {| h_proc := h_proc x; h_caller := h_caller x; h_server := h_server x; h_pc := pc |}) h hs.

(** [processReq] decides without the handler *)
Inductive decides n (c : caller) : proc_pc → proc_pc → Prop :=
| decides_read : decides n c PStart
    (match readEndnameInfo n (req_endname (c_req c)) with
     | Some info => PAccept info | None => PSend no_reply false end)
| decides_dead info r :
    (isServerDead n (req_endname (c_req c)) (i_servername info) (i_server info) = true
     ∨ i_reliable info = false ∨ r = None) →
    decides n c (PCheck info r) (PSend no_reply false)
| decides_reply info r :
    isServerDead n (req_endname (c_req c)) (i_servername info) (i_server info) = false →
    decides n c (PCheck info (Some r)) (PSend r true).

(** the handler's goroutine goes on *)
Inductive runs_on n (x : handler (T:=T)) : handler_pc (T:=T) → W → Prop :=
| runs_dispatch c rs rs' t :
    h_pc x = HDispatch → callers n !! h_caller x = Some c → srvs n !! h_server x = Some rs →
    Server_dispatch rs (c_req c) = Ret (rs', t) →
    runs_on n x (match t with Some t => HRun t | None => HDispatchf end) (world n)
| runs_run t w res :
    h_pc x = HRun t → hstep (world n) t = Some (w, res) →
    runs_on n x (match res with inl t' => HRun t'
                 | inr b => HReply {| ok := true; reply := b |} end) w
| runs_done_f r : h_pc x = HDispatchf → runs_on n x (HReply r) (world n).

Lemma runs_on_pc n x pc w :
  runs_on n x pc w → (∀ r, h_pc x ≠ HDone r) ∧ (∀ r, pc ≠ HDone r).
Proof. intros [c rs rs' t E|t w' res E|r E]; rewrite E; split; try done; by repeat case_match. Qed.

Inductive tstep n : list caller → list proc → list (handler (T:=T)) → W → Prop :=
| t_same : tstep n (callers n) (procs n) (handlers n) (world n)
| t_call c :
    c_pc c = (if c_callf c then InCallf else Sending) →
    tstep n (callers n ++ [c]) (procs n) (handlers n) (world n)
| t_callf k c r :
    callers n !! k = Some c → c_pc c = InCallf →
    tstep n (put_caller k (Returned r) (callers n)) (procs n) (handlers n) (world n)
| t_closed k c :
    callers n !! k = Some c → c_pc c = Sending → closed n = true →
    tstep n (put_caller k (Returned no_reply) (callers n)) (procs n) (handlers n) (world n)
| t_send k c :
    callers n !! k = Some c → c_pc c = Sending →
    tstep n (put_caller k Waiting (callers n))
      (procs n ++ [{| p_caller := k; p_pc := PStart; p_drain := false |}]) (handlers n) (world n)
| t_decide i p c pc :
    procs n !! i = Some p → callers n !! p_caller p = Some c → decides n c (p_pc p) pc →
    tstep n (callers n) (put_proc i pc (procs n)) (handlers n) (world n)
| t_drop i p info :
    procs n !! i = Some p → p_pc p = PAccept info → i_reliable info = false →
    tstep n (callers n) (put_proc i (PSend no_reply false) (procs n)) (handlers n) (world n)
| t_accept i p info :
    procs n !! i = Some p → p_pc p = PAccept info →
    tstep n (callers n) (put_proc i (PWait info) (procs n))
      (handlers n ++ [{| h_proc := i; h_caller := p_caller p; h_server := i_server info;
                         h_pc := HDispatch |}]) (world n)
| t_take h x p info r :
    handlers n !! h = Some x → procs n !! h_proc x = Some p →
    h_pc x = HReply r → p_pc p = PWait info →
    tstep n (callers n) (put_proc (h_proc x) (PCheck info (Some r)) (procs n))
      (put_handler h (HDone r) (handlers n)) (world n)
| t_timer i p c info :
    procs n !! i = Some p → callers n !! p_caller p = Some c → p_pc p = PWait info →
    isServerDead n (req_endname (c_req c)) (i_servername info) (i_server info) = true →
    tstep n (callers n) (put_drain i true (put_proc i (PCheck info None) (procs n))) (handlers n) (world n)
| t_drain h x p r :
    handlers n !! h = Some x → procs n !! h_proc x = Some p →
    h_pc x = HReply r → p_drain p = true →
    tstep n (callers n) (put_drain (h_proc x) false (procs n)) (put_handler h (HDone r) (handlers n)) (world n)
| t_reply i p c r b :
    procs n !! i = Some p → callers n !! p_caller p = Some c → p_pc p = PSend r b →
    c_pc c = Waiting →
    tstep n (put_caller (p_caller p) (Returned r) (callers n)) (put_proc i (PDone r) (procs n))
      (handlers n) (world n)
| t_handler h x pc w :
    handlers n !! h = Some x → runs_on n x pc w →
    tstep n (callers n) (procs n) (put_handler h pc (handlers n)) w.

Lemma processReq_tstep n i n' rand :
  read_step i n = Some n' ∨ accept_step i rand n = Some n' ∨ timer_step i n = Some n'
  ∨ check_step i rand n = Some n' ∨ reply_step i n = Some n' →
  tstep n (callers n') (procs n') (handlers n') (world n').
Proof.
  unfold read_step, accept_step, timer_step, check_step, reply_step.
  intros [E|[E|[E|[E|E]]]]; simplify_option_eq; destruct (p_pc _) eqn:Hpc; simplify_eq; simpl.
  - eapply t_decide; eauto. rewrite Hpc. constructor.
  - destruct (negb _ && _) eqn:Hd; simplify_eq; simpl.
    + eapply t_drop; eauto. by destruct (i_reliable _).
    + by eapply t_accept.
  - destruct (isServerDead _ _ _ _) eqn:Hd; simpl; [by eapply t_timer|constructor].
  - eapply t_decide; eauto. rewrite Hpc.
    destruct r as [r|]; [|constructor; auto].
    destruct (isServerDead _ _ _ _) eqn:Hd; [constructor; auto|].
    destruct (negb _ && _) eqn:Hr; [|by constructor].
    constructor. destruct (i_reliable _); auto.
  - destruct (c_pc _) eqn:Hc; simplify_eq. destruct counted; simpl; by eapply t_reply.
Qed.

Lemma handler_tstep n h r n' :
  take_step h n = Some n' ∨ drain_step h n = Some n' ∨ dispatch_step h n = Some (Ret n')
  ∨ dispatchf_step h r n = Some n' ∨ run_step hstep h n = Some n' →
  tstep n (callers n') (procs n') (handlers n') (world n').
Proof.
  unfold take_step, drain_step, dispatch_step, dispatchf_step, run_step.
  intros [E|[E|[E|[E|E]]]]; simplify_option_eq; destruct (h_pc _) eqn:Hpc; simplify_eq.
  - destruct (p_pc _) eqn:Hp; simplify_eq. simpl; by eapply t_take.
  - destruct (p_drain _) eqn:Hd; simplify_eq. simpl; by eapply t_drain.
  - apply outcome_bind_ret in E as ([rs' t] & Hd & E). simplify_eq; simpl.
    eapply t_handler; [done|]. by eapply runs_dispatch.
  - simpl. eapply t_handler; [done|]. by apply runs_done_f.
  - destruct (hstep _ _) as [[w res]|] eqn:Hr; simplify_eq/=.
    eapply t_handler; [done|]. by eapply runs_run.
Qed.

Lemma caller_tstep n e meth args k r n' :
  Call e meth args n = Some n' ∨ callf_step k r n = Some n' ∨ send_step k n = Some n'
  ∨ done_step k n = Some n' →
  tstep n (callers n') (procs n') (handlers n') (world n').
Proof.
  unfold Call, callf_step, send_step, done_step.
  intros [E|[E|[E|E]]]; simplify_option_eq; [by constructor|..];
    destruct (c_pc _) eqn:Hpc; simplify_eq.
  - simpl; by eapply t_callf.
  - destruct (looping n); simplify_eq. simpl; by eapply t_send.
  - destruct (closed n) eqn:?; simplify_eq. simpl; by eapply t_closed.
Qed.

Lemma act_tstep a n n' :
  act hstep a n = Some (Ret n') →
  ∃ w, tstep n (callers n') (procs n') (handlers n') w ∧ (w = world n' ∨ ∃ f, a = AWorld f).
Proof.
  intros Ha. destruct a; simpl in Ha;
    try (apply fmap_Some in Ha as (n1 & Ha & [= ->]));
    try (eexists; split; [by eapply processReq_tstep; eauto 6|by left]);
    try (eexists; split; [by eapply handler_tstep; eauto 6|by left]);
    try (eexists; split; [by eapply caller_tstep; eauto 6|by left]).
  - destruct (config_ok _ _); simplify_eq.
    destruct (configure_threads _ _ _ Ha) as (-> & -> & -> & -> & _). eexists. split; [constructor|by left].
  - simplify_eq; simpl. eexists. split; [constructor|by right; eexists].
  - unfold stop_step in Ha. destruct (_ && _); simplify_eq; simpl. eexists. split; [constructor|by left].
Unshelve. all: try exact 0; try exact 0%nat; try exact ""%string; try exact []; exact no_reply.
Qed.

(** ** The invariant *)

(** the handler started by [processReq] number [i] ran and answered [r] *)
Definition ran (hs : list (handler (T:=T))) (i : nat) (r : replyMsg) : Prop :=
  ∃ h x, hs !! h = Some x ∧ h_proc x = i ∧ h_pc x = HDone r.

Definition started (pc : proc_pc) : bool :=
  match pc with PStart | PAccept _ => false | _ => true end.

(** [processReq] number [i], its caller and its handler *)
Definition proc_ok (cs : list caller) (hs : list (handler (T:=T))) (i : nat) (p : proc) : Prop :=
  (∃ c, cs !! p_caller p = Some c ∧ c_callf c = false
        ∧ c_pc c = match p_pc p with PDone r => Returned r | _ => Waiting end)
  ∧ (started (p_pc p) = false → ∀ h x, hs !! h = Some x → h_proc x ≠ i)
  ∧ (p_drain p = true → match p_pc p with PCheck _ None | PSend _ _ | PDone _ => True | _ => False end)
  ∧ match p_pc p with
    | PWait info => ∃ h x, hs !! h = Some x ∧ h_proc x = i ∧ h_server x = i_server info
                           ∧ ∀ r, h_pc x ≠ HDone r
    | PCheck _ (Some r) | PSend r true => ran hs i r
    | PSend r false => r = no_reply
    | PDone r => r = no_reply ∨ ran hs i r
    | _ => True
    end.

Definition handler_ok (ps : list proc) (x : handler (T:=T)) : Prop :=
  ∃ p, ps !! h_proc x = Some p ∧ p_caller p = h_caller x ∧ started (p_pc p) = true.

Definition caller_ok (ps : list proc) (k : nat) (c : caller) : Prop :=
  match c_pc c with
  | InCallf => c_callf c = true
  | Sending => c_callf c = false
  | Waiting => ∃ i p, ps !! i = Some p ∧ p_caller p = k
  | Returned r => c_callf c = true ∨ r = no_reply
                  ∨ ∃ i p, ps !! i = Some p ∧ p_caller p = k ∧ p_pc p = PDone r
  end.

Record calls_ok (cs : list caller) (ps : list proc) (hs : list (handler (T:=T))) : Prop := {
  ok_proc i p : ps !! i = Some p → proc_ok cs hs i p;
  ok_handler h x : hs !! h = Some x → handler_ok ps x;
  ok_caller k c : cs !! k = Some c → caller_ok ps k c;
  ok_proc_one i j p q : ps !! i = Some p → ps !! j = Some q → p_caller p = p_caller q → i = j;
  ok_handler_one h h' x x' :
    hs !! h = Some x → hs !! h' = Some x' → h_proc x = h_proc x' → h = h'
}.

Lemma proc_ok_callers cs cs' hs i p :
  cs' !! p_caller p = cs !! p_caller p → proc_ok cs hs i p → proc_ok cs' hs i p.
Proof. unfold proc_ok. by intros ->. Qed.

Lemma proc_ok_handlers cs hs hs' i p :
  (∀ h x, h_proc x = i → hs' !! h = Some x ↔ hs !! h = Some x) →
  proc_ok cs hs i p → proc_ok cs hs' i p.
Proof.
  intros Hh (Hc & Hs & Hd & Hpc). split_and!; [done| |done|].
  - intros Hns h x Hx Hi. apply (Hs Hns h x); [|done]. by apply Hh.
  - destruct (p_pc p) as [| | |? [|]|? []|]; unfold ran in *; naive_solver.
Qed.

(** only a goroutine that waits for a reply, or got one, has a [processReq] *)
Lemma proc_caller cs ps hs i p k c :
  calls_ok cs ps hs → ps !! i = Some p → p_caller p = k → cs !! k = Some c →
  c_callf c = false ∧ c_pc c = match p_pc p with PDone r => Returned r | _ => Waiting end.
Proof.
  intros Hok Hp <- Hc. destruct (ok_proc _ _ _ Hok i p Hp) as ((c' & Hc' & Hf & Hpc) & _).
  naive_solver.
Qed.

(** a change to a caller that has no [processReq] *)
Lemma put_caller_ok cs ps hs k c pc :
  calls_ok cs ps hs → cs !! k = Some c → (c_pc c = InCallf ∨ c_pc c = Sending) →
  caller_ok ps k {| c_req := c_req c; c_callf := c_callf c; c_pc := pc |} →
  calls_ok (put_caller k pc cs) ps hs.
Proof.
  intros Hok Hk Hpc Hnew. pose proof Hok as []. split; try done.
  - intros i p Hp. apply (proc_ok_callers cs); [|auto]. apply list_lookup_alter_ne. intros ->.
    destruct (proc_caller _ _ _ _ _ _ _ Hok Hp eq_refl Hk) as [_ E]. rewrite E in Hpc.
    destruct (p_pc p); naive_solver.
  - intros j c' Hj. unfold put_caller in Hj. lookup_inv; [done|auto].
Qed.

(** [processReq] number [i] moves from [p] to [p'] *)
Definition moves (p p' : proc) : Prop :=
  p_caller p' = p_caller p ∧ (∀ r, p_pc p = PDone r → p_pc p' = PDone r)
  ∧ (started (p_pc p) = true → started (p_pc p') = true).

Lemma moves_insert (ps : list proc) i p p' j q :
  ps !! i = Some p → moves p p' → ps !! j = Some q →
  ∃ q', <[i := p']> ps !! j = Some q' ∧ moves q q'.
Proof.
  intros Hp Hm Hq. destruct (decide (i = j)) as [<-|].
  - simplify_eq. exists p'. split; [|done]. apply list_lookup_insert_eq. by eapply lookup_lt_Some.
  - exists q. rewrite list_lookup_insert_ne by done. by split.
Qed.

Lemma caller_ok_insert ps i p p' k c :
  ps !! i = Some p → moves p p' → caller_ok ps k c → caller_ok (<[i := p']> ps) k c.
Proof.
  intros Hp Hm. unfold caller_ok.
  destruct (c_pc c); [done..|intros (j & q & Hq & <-)|intros [?|[?|(j & q & Hq & <- & Hr)]]]; [|auto..|];
    destruct (moves_insert _ _ _ _ _ _ Hp Hm Hq) as (q' & Hq' & ? & ? & ?); eauto 8.
Qed.

(** handlers of other [processReq]s stay as they are *)
Definition same_but (i : nat) (hs hs' : list (handler (T:=T))) : Prop :=
  Forall2 (λ x y, h_proc y = h_proc x ∧ h_caller y = h_caller x ∧ h_server y = h_server x
                  ∧ (h_proc x ≠ i → y = x)) hs hs'.

Lemma same_but_refl i hs : same_but i hs hs.
Proof. by apply Forall_Forall2_diag, Forall_true. Qed.

Lemma same_but_put hs h x pc :
  hs !! h = Some x → same_but (h_proc x) hs (put_handler h pc hs).
Proof.
  intros Hx. apply Forall2_same_length_lookup. split; [by unfold put_handler; rewrite length_alter|].
  intros j y z Hy Hz. unfold put_handler in Hz. lookup_inv; done.
Qed.

(** one [processReq] moves, with its caller and its handler *)
Lemma calls_ok_move cs ps hs cs' hs' i p p' :
  calls_ok cs ps hs → ps !! i = Some p → moves p p' → same_but i hs hs' →
  (∀ k, k ≠ p_caller p → cs' !! k = cs !! k) →
  (∀ c, cs' !! p_caller p = Some c → caller_ok (<[i := p']> ps) (p_caller p) c) →
  proc_ok cs' hs' i p' →
  calls_ok cs' (<[i := p']> ps) hs'.
Proof.
  intros Hok Hp Hm Hhs Hcs Hc Hnew. pose proof Hok as [Hop Hoh Hoc Hp1 Hh1].
  assert (∀ j q, <[i := p']> ps !! j = Some q → ∃ q0, ps !! j = Some q0 ∧ p_caller q = p_caller q0
            ∧ (j ≠ i → q = q0)) as Hback.
  { intros j q Hq. destruct (decide (i = j)) as [<-|].
    - rewrite list_lookup_insert_eq in Hq by (by eapply lookup_lt_Some). destruct Hm. naive_solver.
    - rewrite list_lookup_insert_ne in Hq by done. eauto. }
  split.
  - intros j q Hq. destruct (decide (j = i)) as [->|Hne].
    + rewrite list_lookup_insert_eq in Hq by (by eapply lookup_lt_Some). naive_solver.
    + rewrite list_lookup_insert_ne in Hq by done. apply (proc_ok_callers cs).
      { apply Hcs. intros E. by apply Hne, (Hp1 _ _ _ _ Hq Hp). }
      apply (proc_ok_handlers _ hs); [|auto]. intros h x Hx.
      pose proof (proj1 (Forall2_lookup _ _ _) Hhs h) as Hl. inversion Hl; naive_solver.
  - intros h y Hy. destruct (Forall2_lookup_r _ _ _ _ _ Hhs Hy) as (x & Hx & Ep & Ec & _).
    destruct (Hoh _ _ Hx) as (q & Hq & Hqc & Hst). unfold handler_ok. rewrite Ep, Ec.
    destruct (moves_insert _ _ _ _ _ _ Hp Hm Hq) as (q' & ? & E & _ & ?). rewrite <-Hqc, <-E. eauto.
  - intros k c Hk. destruct (decide (k = p_caller p)) as [->|]; [auto|].
    rewrite Hcs in Hk by done. eauto using caller_ok_insert.
  - intros j j' q q' Hq Hq' E. apply Hback in Hq as (q0 & ? & ? & _).
    apply Hback in Hq' as (q0' & ? & ? & _). eapply Hp1; eauto; congruence.
  - intros h h' y y' Hy Hy' E.
    destruct (Forall2_lookup_r _ _ _ _ _ Hhs Hy) as (x & Hx & Ep & _).
    destruct (Forall2_lookup_r _ _ _ _ _ Hhs Hy') as (x' & Hx' & Ep' & _).
    eapply Hh1; eauto; congruence.
Qed.
Lemma call_ok_new cs ps hs c :
  calls_ok cs ps hs → c_pc c = (if c_callf c then InCallf else Sending) →
  calls_ok (cs ++ [c]) ps hs.
Proof.
  intros [] Hc. split; try done.
  - intros i p Hp. apply (proc_ok_callers cs); [|auto]. apply lookup_app_l.
    destruct (ok_proc0 _ _ Hp) as ((c' & Hc' & _) & _). by eapply lookup_lt_Some.
  - intros k c' Hk. lookup_inv; [|auto]. unfold caller_ok. rewrite Hc. by destruct (c_callf c).
Qed.

Lemma send_ok cs ps hs k c :
  calls_ok cs ps hs → cs !! k = Some c → c_pc c = Sending →
  calls_ok (put_caller k Waiting cs)
    (ps ++ [{| p_caller := k; p_pc := PStart; p_drain := false |}]) hs.
Proof.
  intros Hok Hk Hc. pose proof Hok as [Hop Hoh Hoc Hp1 Hh1].
  assert (∀ i p, ps !! i = Some p → p_caller p ≠ k) as Hnone.
  { intros i p Hp <-. destruct (proc_caller _ _ _ _ _ _ _ Hok Hp eq_refl Hk) as [_ E].
    rewrite E in Hc. by destruct (p_pc p). }
  assert (∀ i p, ps !! i = Some p → (i < length ps)%nat) by (intros; by eapply lookup_lt_Some).
  split.
  - intros i p Hi. lookup_inv.
    + split_and!; try done; simpl.
      * eexists. unfold put_caller. rewrite list_lookup_alter_eq, Hk. split; [done|].
        split; [|done]. pose proof (Hoc _ _ Hk) as E. unfold caller_ok in E. by rewrite Hc in E.
      * intros _ h x Hx E. destruct (Hoh _ _ Hx) as (p & Hp & _). rewrite E in Hp.
        apply lookup_lt_Some in Hp. lia.
    + apply (proc_ok_callers cs); [|auto]. apply list_lookup_alter_ne. intros E. by eapply Hnone.
  - intros h x Hx. destruct (Hoh _ _ Hx) as (p & Hp & ?). exists p. by rewrite lookup_app_l by eauto.
  - intros j c' Hj. unfold put_caller in Hj. lookup_inv.
    + exists (length ps). rewrite lookup_app_r, Nat.sub_diag by done. by eexists.
    + pose proof (Hoc _ _ Hj) as E. unfold caller_ok in *.
      destruct (c_pc c'); [done..| |]; [destruct E as (i & p & ? & ?)|destruct E as [?|[?|(i & p & ? & ?)]]; auto; right; right];
        exists i, p; by rewrite lookup_app_l by eauto.
  - intros i j p q Hi Hj E. lookup_inv; [done|by edestruct Hnone..|eauto].
  - eauto.
Qed.

Lemma accept_ok cs ps hs i p info :
  calls_ok cs ps hs → ps !! i = Some p → p_pc p = PAccept info →
  calls_ok cs (put_proc i (PWait info) ps)
    (hs ++ [{| h_proc := i; h_caller := p_caller p; h_server := i_server info; h_pc := HDispatch |}]).
Proof.
  intros Hok Hp Hpc. pose proof Hok as [Hop Hoh Hoc Hp1 Hh1].
  destruct (Hop _ _ Hp) as (Hc & Hns & Hd & _). rewrite Hpc in *.
  specialize (Hns eq_refl).
  set (x := {| h_proc := i; h_caller := p_caller p; h_server := i_server info; h_pc := HDispatch |}).
  unfold put_proc. rewrite (alter_insert _ _ _ _ Hp).
  set (p' := {| p_caller := p_caller p; p_pc := PWait info; p_drain := p_drain p |}).
  assert (moves p p') as Hm by (split_and!; simpl; try rewrite Hpc; done).
  assert ((hs ++ [x]) !! length hs = Some x) as Hx by (by rewrite lookup_app_r, Nat.sub_diag).
  split.
  - intros j q Hq. destruct (decide (j = i)) as [->|Hne].
    + rewrite list_lookup_insert_eq in Hq by (by eapply lookup_lt_Some). simplify_eq.
      split_and!; simpl; try done. exists (length hs), x. split_and!; done.
    + rewrite list_lookup_insert_ne in Hq by done. apply (proc_ok_handlers _ hs); [|auto].
      intros h y Hy. split; intros Hl; [lookup_inv; done|].
      rewrite lookup_app_l; [done|by eapply lookup_lt_Some].
  - intros h y Hy. lookup_inv.
    + exists p'. rewrite list_lookup_insert_eq; [done|by eapply lookup_lt_Some].
    + destruct (Hoh _ _ Hy) as (q & Hq & E & ?).
      destruct (moves_insert _ _ _ _ _ _ Hp Hm Hq) as (q' & ? & ? & _ & ?).
      exists q'. split_and!; [done|congruence|auto].
  - eauto using caller_ok_insert.
  - intros j j' q q' Hq Hq' E.
    assert (∀ j q, <[i := p']> ps !! j = Some q → ∃ q0, ps !! j = Some q0 ∧ p_caller q = p_caller q0) as Hb.
    { clear -Hp. intros j q Hq. destruct (decide (i = j)) as [<-|].
      - rewrite list_lookup_insert_eq in Hq by (by eapply lookup_lt_Some). naive_solver.
      - rewrite list_lookup_insert_ne in Hq by done. eauto. }
    destruct (Hb _ _ Hq) as (? & ? & ?), (Hb _ _ Hq') as (? & ? & ?). eapply Hp1; eauto; congruence.
  - intros h h' y y' Hy Hy' E. lookup_inv; [done|exfalso; by eapply Hns..|eauto].
Qed.

(** [calls_ok_move] when the caller stays *)
Lemma calls_ok_proc cs ps hs hs' i p p' :
  calls_ok cs ps hs → ps !! i = Some p → moves p p' → same_but i hs hs' →
  proc_ok cs hs' i p' → calls_ok cs (<[i := p']> ps) hs'.
Proof.
  intros Hok Hp Hm Hs Hnew. eapply calls_ok_move; eauto.
  intros c Hc. eapply caller_ok_insert; eauto. by eapply ok_caller.
Qed.

Lemma decide_ok n i p c pc :
  calls_ok (callers n) (procs n) (handlers n) →
  procs n !! i = Some p → callers n !! p_caller p = Some c → decides n c (p_pc p) pc →
  calls_ok (callers n) (put_proc i pc (procs n)) (handlers n).
Proof.
  intros Hok Hp Hc Hd. destruct (ok_proc _ _ _ Hok _ _ Hp) as ((c' & Hc' & Hf & Hw) & Hns & Hdr & Hpc).
  unfold put_proc. rewrite (alter_insert _ _ _ _ Hp). simplify_eq.
  assert (c_pc c = Waiting) as Hwait by (rewrite Hw; by inversion Hd).
  eapply calls_ok_proc; eauto using same_but_refl.
  - split_and!; simpl; [done|..]; inversion Hd; simpl; try done.
  - inversion Hd as [E1 E2|info r _ E1 E2|info r _ E1 E2]; rewrite <-E1 in *; simpl in *.
    + destruct (readEndnameInfo _ _) as [info|]; (split_and!; simpl; [by eauto| |done|done]);
        [intros _|done]; by apply Hns.
    + split_and!; simpl; [by eauto|done|done|done].
    + split_and!; simpl; [by eauto|done|done|done].
Qed.

Lemma drop_ok n i p info :
  calls_ok (callers n) (procs n) (handlers n) →
  procs n !! i = Some p → p_pc p = PAccept info →
  calls_ok (callers n) (put_proc i (PSend no_reply false) (procs n)) (handlers n).
Proof.
  intros Hok Hp Hpc. destruct (ok_proc _ _ _ Hok _ _ Hp) as (Hc & Hns & Hdr & _).
  unfold put_proc. rewrite (alter_insert _ _ _ _ Hp). rewrite Hpc in *.
  eapply calls_ok_proc; eauto using same_but_refl.
  - split_and!; simpl; [done|..]; by rewrite Hpc.
  - split_and!; done.
Qed.

Lemma put_handler_lookup h x pc (hs : list (handler (T:=T))) :
  hs !! h = Some x →
  put_handler h pc hs !! h
  = Some {| h_proc := h_proc x; h_caller := h_caller x; h_server := h_server x; h_pc := pc |}.
Proof. intros Hx. unfold put_handler. by rewrite list_lookup_alter_eq, Hx. Qed.

Lemma take_ok n h x p info r :
  calls_ok (callers n) (procs n) (handlers n) →
  handlers n !! h = Some x → procs n !! h_proc x = Some p →
  p_pc p = PWait info →
  calls_ok (callers n) (put_proc (h_proc x) (PCheck info (Some r)) (procs n))
    (put_handler h (HDone r) (handlers n)).
Proof.
  intros Hok Hx Hp Hw. destruct (ok_proc _ _ _ Hok _ _ Hp) as (Hc & Hns & Hdr & _).
  unfold put_proc. rewrite (alter_insert _ _ _ _ Hp). rewrite Hw in *.
  eapply calls_ok_proc; eauto using same_but_put.
  - split_and!; simpl; [done|..]; by rewrite Hw.
  - split_and!; simpl; [done|done|done|]. eexists h, _. split; [by apply put_handler_lookup|done].
Qed.

Lemma expiry_ok n i p info :
  calls_ok (callers n) (procs n) (handlers n) →
  procs n !! i = Some p → p_pc p = PWait info →
  calls_ok (callers n) (put_drain i true (put_proc i (PCheck info None) (procs n))) (handlers n).
Proof.
  intros Hok Hp Hw. destruct (ok_proc _ _ _ Hok _ _ Hp) as (Hc & Hns & Hdr & _).
  unfold put_drain, put_proc. rewrite (alter_insert _ _ _ _ Hp).
  erewrite alter_insert by (apply list_lookup_insert_eq; by eapply lookup_lt_Some).
  rewrite list_insert_insert_eq. rewrite Hw in *.
  eapply calls_ok_proc; eauto using same_but_refl.
  - split_and!; simpl; [done|..]; by rewrite Hw.
  - split_and!; done.
Qed.

(** the handler's goroutine moves while [processReq] keeps its place *)
Lemma handler_move_ok n h x p d pc :
  calls_ok (callers n) (procs n) (handlers n) →
  handlers n !! h = Some x → procs n !! h_proc x = Some p →
  (∀ r, h_pc x ≠ HDone r) → (d = true → p_drain p = true) →
  ((∀ r, pc ≠ HDone r) ∨ p_drain p = true) →
  calls_ok (callers n)
    (<[h_proc x := {| p_caller := p_caller p; p_pc := p_pc p; p_drain := d |}]> (procs n))
    (put_handler h pc (handlers n)).
Proof.
  intros Hok Hx Hp Hxd Hd Hpc.
  destruct (ok_proc _ _ _ Hok _ _ Hp) as (Hc & Hns & Hdr & Hw).
  assert (∀ r, ¬ ran (handlers n) (h_proc x) r) as Hnot.
  { intros r (h' & x' & Hx' & E & Hr). rewrite (ok_handler_one _ _ _ Hok _ _ _ _ Hx' Hx E) in Hx'.
    simplify_eq. by apply (Hxd r). }
  eapply calls_ok_proc; eauto using same_but_put; [by split_and!|].
  destruct (ok_handler _ _ _ Hok _ _ Hx) as (p0 & Hp0 & _ & Hst). simplify_eq.
  split_and!; simpl; [done|by rewrite Hst|by intros ?; apply Hdr, Hd|].
  destruct (p_pc p) as [|i|i|i [r|]|r []|r]; simpl; try done; try (by destruct (Hnot r)).
  - destruct Hw as (h' & x' & Hx' & E & Hsrv & _).
    rewrite (ok_handler_one _ _ _ Hok _ _ _ _ Hx' Hx E) in Hx'. simplify_eq.
    eexists h, _. split; [by apply put_handler_lookup|]. split_and!; try done. simpl.
    destruct Hpc as [?|Hpc]; [done|]. by apply Hdr in Hpc.
  - destruct Hw as [?|Hr]; [by left|by destruct (Hnot r)].
Qed.

Lemma reply_ok n i p c r b :
  calls_ok (callers n) (procs n) (handlers n) →
  procs n !! i = Some p → callers n !! p_caller p = Some c → p_pc p = PSend r b →
  calls_ok (put_caller (p_caller p) (Returned r) (callers n)) (put_proc i (PDone r) (procs n))
    (handlers n).
Proof.
  intros Hok Hp Hc Hw. destruct (ok_proc _ _ _ Hok _ _ Hp) as ((c' & Hc' & Hf & _) & Hns & Hdr & Hpc).
  unfold put_proc. rewrite (alter_insert _ _ _ _ Hp). rewrite Hw in *. simplify_eq.
  eapply calls_ok_move; eauto using same_but_refl.
  - split_and!; simpl; [done|..]; by rewrite Hw.
  - intros k Hk. by apply list_lookup_alter_ne.
  - intros c0 Hc0. unfold put_caller in Hc0. rewrite list_lookup_alter_eq, Hc in Hc0. simplify_eq/=.
    right. right. exists i. eexists. split; [apply list_lookup_insert_eq; by eapply lookup_lt_Some|done].
  - split_and!; simpl; [|done|done|].
    + eexists. unfold put_caller. rewrite list_lookup_alter_eq, Hc. done.
    + destruct b; auto.
Qed.

Lemma tstep_calls_ok n cs ps hs w :
  calls_ok (callers n) (procs n) (handlers n) → tstep n cs ps hs w → calls_ok cs ps hs.
Proof.
  intros Hok Hst. pose proof Hok as [Hop Hoh Hoc Hp1 Hh1].
  destruct Hst; eauto using call_ok_new, send_ok, accept_ok, decide_ok, drop_ok, take_ok, expiry_ok, reply_ok.
  - eapply put_caller_ok; eauto. left. specialize (Hoc _ _ H). unfold caller_ok in Hoc. by rewrite H0 in Hoc.
  - eapply put_caller_ok; eauto. right. by left.
  - unfold put_drain. erewrite alter_insert by done. eapply handler_move_ok; eauto. by rewrite H1.
  - destruct (Hoh _ _ H) as (p & Hp & _).
    assert (procs n = <[h_proc x := {| p_caller := p_caller p; p_pc := p_pc p;
                                       p_drain := p_drain p |}]> (procs n)) as ->.
    { symmetry. apply list_insert_id. rewrite Hp. by destruct p. }
    destruct (runs_on_pc _ _ _ _ H0). eapply handler_move_ok; eauto.
Qed.

Lemma reachable_calls_ok n : is_reachable hstep n → calls_ok (callers n) (procs n) (handlers n).
Proof.
  intros (w & l & E).
  apply (acts_inv hstep (λ n, calls_ok (callers n) (procs n) (handlers n)) (λ _, True)) in E;
    [done| |by apply Forall_true|].
  - intros a m m' _ Hm Ha. destruct (act_tstep _ _ _ Ha) as (w' & Hst & _). by eapply tstep_calls_ok.
  - split; intros *; simpl; rewrite lookup_nil; done.
Qed.
(** ** What a step does to the handlers *)

(** the goroutine that received [ech] let the handler's goroutine end *)
Definition taken (x y : handler (T:=T)) : Prop :=
  ∃ r, h_pc x = HReply r ∧ h_pc y = HDone r ∧ h_caller y = h_caller x ∧ h_proc y = h_proc x.

Lemma tstep_handlers n cs ps hs w :
  tstep n cs ps hs w →
  (w = world n
   ∧ (∀ h y, hs !! h = Some y →
        handlers n !! h = Some y ∨ h_pc y = HDispatch ∨ ∃ x, handlers n !! h = Some x ∧ taken x y)
   ∧ ∀ h x, handlers n !! h = Some x → ∃ y, hs !! h = Some y ∧ (y = x ∨ taken x y))
  ∨ ∃ h x pc, handlers n !! h = Some x ∧ runs_on n x pc w ∧ hs = put_handler h pc (handlers n).
Proof.
  assert (∀ h x r, handlers n !! h = Some x → h_pc x = HReply r →
    (∀ h' y, put_handler h (HDone r) (handlers n) !! h' = Some y →
        handlers n !! h' = Some y ∨ h_pc y = HDispatch ∨ ∃ x, handlers n !! h' = Some x ∧ taken x y)
    ∧ ∀ h' x, handlers n !! h' = Some x →
        ∃ y, put_handler h (HDone r) (handlers n) !! h' = Some y ∧ (y = x ∨ taken x y)) as Hput.
  { intros h x r Hx Hr. unfold put_handler. split.
    - intros h' y Hy. lookup_inv; [right; right|by left]. exists x. split; [done|]. by exists r.
    - intros h' x' Hx'. destruct (decide (h = h')) as [<-|].
      + rewrite list_lookup_alter_eq, Hx'. simplify_eq. eexists. split; [done|]. right. by exists r.
      + rewrite list_lookup_alter_ne by done. eauto. }
  intros Hst. destruct Hst; try (left; split_and!; [done|by eauto|by eauto]).
  - left. split_and!; [done| |].
    + intros h y Hy. lookup_inv; auto.
    + intros h x Hx. exists x. rewrite lookup_app_l by (by eapply lookup_lt_Some). auto.
  - left. split; [done|]. by eapply Hput.
  - left. split; [done|]. by eapply Hput.
  - right. eauto 8.
Qed.

(** ** A call runs its handler at most once *)

(** the runs of the handler for call [k] *)
Definition runs_of n (k : nat) : list (handler (T:=T)) :=
  filter (λ x, h_caller x = k) (handlers n).

Lemma runs_of_one n k x h :
  calls_ok (callers n) (procs n) (handlers n) →
  handlers n !! h = Some x → h_caller x = k → runs_of n k = [x].
Proof.
  intros Hok Hx Hk. unfold runs_of.
  rewrite <-(take_drop_middle _ _ _ Hx), filter_app, filter_cons_True by done.
  assert (∀ h' x', h' ≠ h → handlers n !! h' = Some x' → h_caller x' ≠ k) as Hne.
  { intros h' x' Hne Hx' E. apply Hne, (ok_handler_one _ _ _ Hok _ _ _ _ Hx' Hx).
    destruct (ok_handler _ _ _ Hok _ _ Hx) as (p & Hp & Hc & _).
    destruct (ok_handler _ _ _ Hok _ _ Hx') as (p' & Hp' & Hc' & _).
    apply (ok_proc_one _ _ _ Hok _ _ _ _ Hp' Hp). congruence. }
  rewrite !filter_none; [done|..].
  - intros x' (j & Hj)%list_elem_of_lookup. rewrite lookup_drop in Hj. apply (Hne (S h + j)%nat); [lia|done].
  - intros x' (j & Hj)%list_elem_of_lookup. apply lookup_take_Some in Hj as [Hj ?].
    apply (Hne j); [lia|done].
Qed.

Lemma runs_of_le n k :
  calls_ok (callers n) (procs n) (handlers n) → (length (runs_of n k) ≤ 1)%nat.
Proof.
  intros Hok. destruct (runs_of n k) as [|x l] eqn:E; simpl; [lia|].
  assert (x ∈ runs_of n k) as Hx by (rewrite E; left).
  apply list_elem_of_filter in Hx as [Hk (h & Hx)%list_elem_of_lookup].
  rewrite (runs_of_one _ _ _ _ Hok Hx Hk) in E. simplify_eq. simpl. lia.
Qed.

Lemma ran_runs_of n i p r :
  calls_ok (callers n) (procs n) (handlers n) → procs n !! i = Some p → ran (handlers n) i r →
  ∃ x, runs_of n (p_caller p) = [x] ∧ h_pc x = HDone r.
Proof.
  intros Hok Hp (h & x & Hx & <- & Hr). exists x. split; [|done].
  destruct (ok_handler _ _ _ Hok _ _ Hx) as (p' & Hp' & Hc & _). simplify_eq.
  by eapply runs_of_one.
Qed.

Lemma returned_reply n k c r :
  calls_ok (callers n) (procs n) (handlers n) →
  callers n !! k = Some c → c_callf c = false → c_pc c = Returned r →
  r = no_reply ∨ ∃ x, runs_of n k = [x] ∧ h_pc x = HDone r.
Proof.
  intros Hok Hc Hf Hret. pose proof (ok_caller _ _ _ Hok _ _ Hc) as Hk. unfold caller_ok in Hk.
  rewrite Hret in Hk. destruct Hk as [?|[?|(i & p & Hp & <- & Hd)]]; [congruence|by left|].
  destruct (ok_proc _ _ _ Hok _ _ Hp) as (_ & _ & _ & Hpc). rewrite Hd in Hpc.
  destruct Hpc as [?|Hran]; [by left|right]. by eapply ran_runs_of.
Qed.

(** C14. A [Call] runs the handler at most once, at any time; it returns true
    only when the handler ran, and then what it returns is what that one run
    answered.  (Without a run's answer it returns false and nothing.) *)
Theorem call_runs_once n k c :
  is_reachable hstep n → callers n !! k = Some c → c_callf c = false →
  (length (runs_of n k) ≤ 1)%nat
  ∧ ∀ r, c_pc c = Returned r →
      r = no_reply ∨ ∃ x, runs_of n k = [x] ∧ h_pc x = HDone r.
Proof.
  intros Hr Hc Hf. apply reachable_calls_ok in Hr as Hok. split; [by apply runs_of_le|].
  intros r Hret. by eapply returned_reply.
Qed.

(** ** A deleted server does not answer *)

(** [processReq] talks to this server *)
Definition at_server (pc : proc_pc) (info : endInfo) : Prop :=
  pc = PAccept info ∨ pc = PWait info ∨ ∃ r, pc = PCheck info r.
Definition failed (pc : proc_pc) : Prop := pc = PSend no_reply false ∨ pc = PDone no_reply.

Lemma put_proc_at i j pc ps p (P : proc → Prop) :
  ps !! i = Some p → (j ≠ i → P p) →
  (j = i → P {| p_caller := p_caller p; p_pc := pc; p_drain := p_drain p |}) →
  ∃ p', put_proc j pc ps !! i = Some p' ∧ P p'.
Proof.
  intros Hp Hne Heq. unfold put_proc. destruct (decide (j = i)) as [->|].
  - rewrite list_lookup_alter_eq, Hp. eauto.
  - rewrite list_lookup_alter_ne by done. eauto.
Qed.

Lemma put_drain_at i j d ps p' (P : proc → Prop) :
  ps !! i = Some p' → (∀ d, P {| p_caller := p_caller p'; p_pc := p_pc p'; p_drain := d |}) →
  ∃ p', put_drain j d ps !! i = Some p' ∧ P p'.
Proof.
  intros Hp HP. unfold put_drain. destruct (decide (j = i)) as [->|].
  - rewrite list_lookup_alter_eq, Hp. eauto.
  - rewrite list_lookup_alter_ne by done. exists p'. split; [done|]. specialize (HP (p_drain p')).
    by destruct p'.
Qed.

Lemma dead_server n e info :
  server_of n (i_servername info) ≠ Some (i_server info) →
  isServerDead n e (i_servername info) (i_server info) = true.
Proof.
  intros Hdead. unfold isServerDead. rewrite (bool_decide_eq_false_2 _ Hdead). by rewrite orb_true_r.
Qed.

Lemma tstep_at_server n cs ps hs w i p info :
  tstep n cs ps hs w → procs n !! i = Some p → at_server (p_pc p) info ∨ failed (p_pc p) →
  server_of n (i_servername info) ≠ Some (i_server info) →
  ∃ p', ps !! i = Some p' ∧ p_caller p' = p_caller p ∧ (at_server (p_pc p') info ∨ failed (p_pc p')).
Proof.
  intros Hst Hp Hat Hdead. unfold at_server, failed in *.
  destruct Hst as [|c Hc|k c r Hk Hc|k c Hk Hc Hcl|k c Hk Hc|j q c pc Hq Hc Hd|j q info' Hq Hpc|j q info' Hq Hpc
    |h x q info' r Hx Hq Hr Hpc|j q c info' Hq Hc Hpc|h x q r Hx Hq Hr Hd|j q c r b Hq Hc Hpc|h x pc w' Hx Hr];
    eauto.
  - exists p. by rewrite lookup_app_l by (by eapply lookup_lt_Some).
  - apply (put_proc_at _ _ _ _ _ _ Hp); [done|]. intros ->. split; [done|]. simplify_eq; simpl.
    inversion Hd as [E|info' r Hdd E|info' r Hal E]; rewrite <-E in Hat; [naive_solver|auto|].
    destruct Hat as [[?|[?|[? ?]]]|[?|?]]; simplify_eq. by rewrite dead_server in Hal.
  - apply (put_proc_at _ _ _ _ _ _ Hp); [done|]. intros ->. simplify_eq; simpl. auto.
  - apply (put_proc_at _ _ _ _ _ _ Hp); [done|]. intros ->. simplify_eq; simpl. rewrite Hpc in Hat. naive_solver.
  - apply (put_proc_at _ _ _ _ _ _ Hp); [done|]. intros <-. simplify_eq; simpl. rewrite Hpc in Hat. naive_solver.
  - destruct (put_proc_at i j (PCheck info' None) _ _ (λ p', p_caller p' = p_caller p
      ∧ (at_server (p_pc p') info ∨ failed (p_pc p'))) Hp) as (p' & Hp' & HP).
    + done.
    + intros ->. simplify_eq; simpl. rewrite Hpc in Hat. unfold at_server, failed. naive_solver.
    + apply (put_drain_at _ _ _ _ _ _ Hp'). intros d; simpl. done.
  - apply (put_drain_at _ _ _ _ _ _ Hp). intros d; simpl. done.
  - apply (put_proc_at _ _ _ _ _ _ Hp); [done|]. intros ->. simplify_eq; simpl. rewrite Hpc in Hat. naive_solver.
Qed.

(** only adding the server back makes it answer again *)
Definition readds (servername : string) (server : nat) (a : action (W:=W) (T:=T)) : bool :=
  match a with
  | AConfig (CAddServer s rs) => bool_decide (s = servername ∧ rs = server)
  | _ => false
  end.

(** what only the code that configures the network changes *)
Definition settings n :=
  (reliable n, longReordering n, enabled n, servers n, connections n, closed n, clients n).

(** what a step does to the servers *)
Definition servers_effect n n' : Prop :=
  srvs n' = srvs n
  ∨ ∃ i rs req t, srvs n !! i = Some rs ∧ Server_dispatch rs req = Ret t
      ∧ srvs n' = <[i := fst t]> (srvs n).

Lemma act_effect a n n' :
  act hstep a n = Some (Ret n') →
  (∃ c, a = AConfig c ∧ configure c n = Ret n') ∨ settings n' = settings n ∧ servers_effect n n'.
Proof.
  intros Ha. destruct a; simpl in Ha; try (apply fmap_Some in Ha as (n1 & Ha & [= ->]));
    unfold read_step, accept_step, timer_step, check_step, reply_step, take_step, drain_step,
      dispatch_step, dispatchf_step, run_step, Call, callf_step, send_step, done_step, stop_step in Ha;
    [left; destruct (config_ok _ _); simplify_eq; eauto|right..].
  all: try match type of Ha with (if ?c && ?lp then _ else _) = _ =>
    destruct c eqn:Hcl, lp; simplify_eq/=; split; [unfold settings; simpl; by rewrite Hcl|by left] end.
  all: simplify_option_eq; try (split; [done|by left]).
  all: try (repeat (case_match; simplify_eq/=); (split; [done|by left])).
  - destruct (h_pc _); simplify_eq. apply outcome_bind_ret in Ha as ([rs' t'] & Hd & Ha). simplify_eq/=.
    split; [done|]. right. by repeat eexists.
  - destruct (h_pc _) eqn:Hpc; simplify_eq. destruct (hstep _ _) as [[w res]|] eqn:Eh; simplify_eq/=.
    split; [done|by left].
Qed.

Lemma act_settings a n n' :
  act hstep a n = Some (Ret n') →
  (∃ c, a = AConfig c ∧ configure c n = Ret n') ∨ settings n' = settings n.
Proof. intros [?|[? _]]%act_effect; auto. Qed.

Lemma configure_server_of c s rs n n' :
  configure c n = Ret n' → readds s rs (AConfig c) = false →
  server_of n s ≠ Some rs → server_of n' s ≠ Some rs.
Proof.
  intros E Hno Hn. destruct c; simpl in *; unfold Cleanup, MakeEnd, DeleteEnd in E;
    repeat case_match; go_inv; simplify_eq/=; try done; unfold server_of in *; simpl in *.
  - apply bool_decide_eq_false in Hno. rewrite lookup_insert. case_decide; [|done].
    simpl. intros [= ->]. subst. by apply Hno.
  - rewrite lookup_insert. by case_decide.
Qed.

Lemma act_server_of s rs a n n' :
  act hstep a n = Some (Ret n') → readds s rs a = false →
  server_of n s ≠ Some rs → server_of n' s ≠ Some rs.
Proof.
  intros Ha Hno Hn. destruct (act_settings _ _ _ Ha) as [(c & -> & Hc)|E].
  - by eapply configure_server_of.
  - unfold settings in E. simplify_eq. unfold server_of in *. congruence.
Qed.

(** C17. A server is deleted while a request is at it: [processReq] has found the
    server, and its last check before the reply (labrpc.go:344) is still to come.
    Then the call does not return true, whatever happens later, unless the same
    server object is added again: what a killed server answers does not reach a
    client.  A reply that has passed that check when the server is deleted may
    still arrive, as late as the delay of [longReordering] makes it
    ([late_reply_of_deleted_server]). *)
Theorem deleted_server_silent n i p info l n' c :
  is_reachable hstep n → procs n !! i = Some p → at_server (p_pc p) info →
  server_of n (i_servername info) ≠ Some (i_server info) →
  Forall (λ a, readds (i_servername info) (i_server info) a = false) l →
  acts hstep l n = Some n' → callers n' !! p_caller p = Some c →
  ∀ r, c_pc c = Returned r → r = no_reply.
Proof.
  intros Hr Hp Hat Hdead Hl Hrun Hc r Hret.
  assert (is_reachable hstep n') as Hr' by by eapply reachable_acts.
  apply (acts_inv hstep (λ m, server_of m (i_servername info) ≠ Some (i_server info)
    ∧ ∃ q, procs m !! i = Some q ∧ p_caller q = p_caller p
           ∧ (at_server (p_pc q) info ∨ failed (p_pc q)))
    (λ a, readds (i_servername info) (i_server info) a = false)) in Hrun as (_ & q & Hq & Eq & Hat'); eauto 6.
  - rewrite <-Eq in Hc. apply reachable_calls_ok in Hr' as Hok.
    destruct (proc_caller _ _ _ _ _ _ _ Hok Hq eq_refl Hc) as [_ E]. rewrite Hret in E.
    destruct Hat' as [[E'|[E'|[? E']]]|[E'|E']]; rewrite E' in E; naive_solver.
  - intros a m m' Ha (Hd & q & Hq & Eq & Hq') Hm. split; [by eapply act_server_of|].
    destruct (act_tstep _ _ _ Hm) as (w & Hst & _).
    destruct (tstep_at_server _ _ _ _ _ _ _ _ Hst Hq Hq' Hd) as (q' & ? & ? & ?).
    exists q'. split_and!; [done|congruence|done].
Qed.
(** ** A call returns, unless its handler does not *)

Definition in_handler (pc : handler_pc (T:=T)) : Prop :=
  match pc with HDispatch | HDispatchf | HRun _ => True | _ => False end.

(** the goroutine that serves call [k] waits for a handler that is still
    under way, at a server that is up *)
Definition awaits_handler n (k : nat) : Prop :=
  ∃ i p c info h x,
    procs n !! i = Some p ∧ p_caller p = k ∧ callers n !! k = Some c ∧ p_pc p = PWait info
    ∧ isServerDead n (req_endname (c_req c)) (i_servername info) (i_server info) = false
    ∧ handlers n !! h = Some x ∧ h_proc x = i ∧ in_handler (h_pc x).

Definition has_returned n (k : nat) : Prop :=
  ∃ c r, callers n !! k = Some c ∧ c_pc c = Returned r.

(** what [processReq] number [i] does by itself, its random numbers given *)
Definition own_step n (i : nat) (rand1 rand2 : Z) (a : action (W:=W) (T:=T)) : Prop :=
  a = ARead i ∨ a = AAccept i rand1 ∨ a = ATimer i ∨ a = ACheck i rand2 ∨ a = AReply i
  ∨ ∃ h x, a = ATake h ∧ handlers n !! h = Some x ∧ h_proc x = i.

(** steps left *)
Definition remaining (pc : proc_pc) : nat :=
  match pc with PStart => 5 | PAccept _ => 4 | PWait _ => 3 | PCheck _ _ => 2 | PSend _ _ => 1 | PDone _ => 0 end.

Lemma processReq_progress n i p rand1 rand2 :
  calls_ok (callers n) (procs n) (handlers n) → procs n !! i = Some p →
  (∀ r, p_pc p ≠ PDone r) →
  awaits_handler n (p_caller p) ∨
  ∃ a n' p', own_step n i rand1 rand2 a ∧ act hstep a n = Some (Ret n')
    ∧ procs n' !! i = Some p' ∧ p_caller p' = p_caller p
    ∧ (remaining (p_pc p') < remaining (p_pc p))%nat.
Proof.
  intros Hok Hp Hnd.
  destruct (ok_proc _ _ _ Hok _ _ Hp) as ((c & Hc & Hf & Hcpc) & _ & _ & Hpc).
  assert (∀ pc (m : Network (W:=W) (T:=T)), procs m = procs n → procs (set_proc i pc m) !! i
    = Some {| p_caller := p_caller p; p_pc := pc; p_drain := p_drain p |}) as Hset
    by (intros pc m E; simpl; by rewrite E, list_lookup_alter_eq, Hp).
  destruct (p_pc p) as [|info|info|info r|r b|r] eqn:E.
  - right. exists (ARead i). simpl. unfold read_step. rewrite Hp. simpl. rewrite Hc. simpl. rewrite E.
    eexists _, _. split; [by left|]. split; [done|]. split; [by apply Hset|]. split; [done|].
    simpl. destruct (readEndnameInfo _ _); simpl; lia.
  - right. exists (AAccept i rand1). simpl. unfold accept_step. rewrite Hp. simpl. rewrite E.
    destruct (_ && _); eexists _, _; (split; [right; by left|]); (split; [done|]);
      (split; [by apply Hset|]); simpl; (split; [done|lia]).
  - destruct Hpc as (h & x & Hx & Hi & Hs & Hnr).
    destruct (isServerDead n (req_endname (c_req c)) (i_servername info) (i_server info)) eqn:Hd.
    + right. exists (ATimer i). simpl. unfold timer_step. rewrite Hp. simpl. rewrite Hc. simpl. rewrite E, Hd.
      eexists _, _. split; [unfold own_step; tauto|]. split; [done|]. simpl.
      rewrite !list_lookup_alter_eq, Hp. simpl. split; [done|]. simpl. split; [done|lia].
    + destruct (h_pc x) eqn:Hh.
      4: { right. exists (ATake h). simpl. unfold take_step. rewrite Hx. simpl. rewrite Hi, Hp. simpl. rewrite Hh, E.
           eexists _, _. split; [do 5 right; eauto|]. split; [done|]. split; [by apply Hset|].
           simpl. split; [done|lia]. }
      4: by edestruct Hnr.
      all: left; exists i, p, c, info, h, x; rewrite Hh; done.
  - right. exists (ACheck i rand2). simpl. unfold check_step. rewrite Hp. simpl. rewrite Hc. simpl. rewrite E.
    eexists _, _. split; [unfold own_step; tauto|]. split; [done|]. split; [by apply Hset|]. split; [done|].
    simpl. repeat case_match; simpl; lia.
  - right. exists (AReply i). simpl. unfold reply_step. rewrite Hp. simpl. rewrite Hc. simpl. rewrite E, Hcpc.
    eexists _, _. split; [unfold own_step; tauto|]. split; [done|].
    split; [apply Hset; by destruct b|]. split; [done|]. simpl. lia.
  - by edestruct Hnd.
Qed.
(** one of these steps *)
Definition own (i : nat) (rand1 rand2 : Z) n n' : Prop :=
  ∃ a, own_step n i rand1 rand2 a ∧ act hstep a n = Some (Ret n').

Lemma own_reaches n i p k rand1 rand2 :
  is_reachable hstep n → procs n !! i = Some p → p_caller p = k →
  ∃ m n', (m ≤ remaining (p_pc p))%nat ∧ nsteps (own i rand1 rand2) m n n'
    ∧ (has_returned n' k ∨ awaits_handler n' k).
Proof.
  remember (remaining (p_pc p)) as m eqn:Em. revert n p Em.
  induction m as [m IH] using lt_wf_ind. intros n p -> Hr Hp <-.
  apply reachable_calls_ok in Hr as Hok.
  destruct (ok_proc _ _ _ Hok _ _ Hp) as ((c & Hc & Hf & Hcpc) & _).
  destruct (p_pc p) as [| | | | |r] eqn:E.
  6: { exists 0%nat, n. split; [simpl; lia|]. split; [constructor|]. left. by exists c, r. }
  all: destruct (processReq_progress n i p rand1 rand2 Hok Hp)
    as [Hw|(a & n1 & p1 & Ha & Hact & Hp1 & Hc1 & Hlt)]; [congruence| |].
  all: try (exists 0%nat, n; split; [simpl; lia|]; split; [constructor|by right]).
  all: rewrite E in Hlt; destruct (IH _ Hlt n1 p1) as (m & n' & Hm & Hst & Hend);
    [done|eapply (reachable_acts _ [a]); [done|]; simpl; by rewrite Hact|done|by rewrite Hc1|].
  all: exists (S m), n'; split; [simpl in *; lia|]; split; [|done].
  all: by eapply nsteps_l; [exists a|].
Qed.

(** [Call] returns except when the handler does not: a waiting call whose
    handler is not under way at a server that is up returns within five steps
    of the goroutine that serves it, whatever the random numbers; or these
    steps come to such a handler. *)
Theorem call_returns n k c rand1 rand2 :
  is_reachable hstep n → callers n !! k = Some c → c_pc c = Waiting →
  ∃ i m n', (m ≤ 5)%nat ∧ nsteps (own i rand1 rand2) m n n'
    ∧ (has_returned n' k ∨ awaits_handler n' k).
Proof.
  intros Hr Hc Hw. apply reachable_calls_ok in Hr as Hok.
  pose proof (ok_caller _ _ _ Hok _ _ Hc) as Hk. unfold caller_ok in Hk. rewrite Hw in Hk.
  destruct Hk as (i & p & Hp & Ek).
  destruct (own_reaches n i p k rand1 rand2 Hr Hp Ek) as (m & n' & Hm & Hst & Hend).
  exists i, m, n'. split; [|done]. destruct (p_pc p); simpl in Hm; lia.
Qed.

(** ** The count of calls *)

(** C36. [GetTotalCount] is the number of requests the network took, as an
    [int32]: it wraps to a negative number after 2^31 - 1 of them. *)
Theorem total_count_wraps n :
  is_reachable hstep n →
  GetTotalCount n = i32 (zlen (procs n)) ∧ - 2 ^ 31 ≤ GetTotalCount n < 2 ^ 31.
Proof.
  intros Hr. assert (count n = i32 (zlen (procs n))) as E.
  { destruct Hr as (w & l & E).
    apply (acts_inv hstep (λ n, count n = i32 (zlen (procs n))) (λ _, True)) in E;
      [done| |by apply Forall_true|done].
    clear. intros a n n' _ Hn Ha. unfold zlen in *. destruct a; simpl in Ha;
      try (apply fmap_Some in Ha as (n1 & Ha & [= ->]));
      unfold read_step, accept_step, timer_step, check_step, reply_step, take_step, drain_step,
        dispatch_step, dispatchf_step, run_step, Call, callf_step, send_step, done_step, stop_step in Ha;
      simplify_option_eq; try done.
    all: repeat (case_match; simplify_eq/=); rewrite ?length_alter; try done.
    - by destruct (configure_threads _ _ _ Ha) as (_ & -> & _ & _ & ->).
    - rewrite length_app, Nat2Z.inj_add, Hn. simpl. apply i32_add.
    - apply outcome_bind_ret in Ha as ([rs' t'] & _ & Ha). by simplify_eq.
    - destruct (hstep _ _) as [[w res]|]; by simplify_eq/=. }
  unfold GetTotalCount. rewrite E. split; [done|apply i32_range].
Qed.

(** ** Calls while nothing is reconfigured *)

Definition no_config (a : action (W:=W) (T:=T)) : bool :=
  match a with AConfig _ => false | _ => true end.

Definition no_run (hs : list (handler (T:=T))) (i : nat) : Prop := ∀ h x, hs !! h = Some x → h_proc x ≠ i.

(** [processReq] number [i] will answer [r], or has *)
Definition concluded (read : option endInfo) (hs : list (handler (T:=T))) (i : nat) (r : replyMsg) : Prop :=
  match read with
  | None => r = no_reply ∧ no_run hs i
  | Some info => (no_run hs i ∨ ∃ r', ran hs i r') ∧ (i_reliable info = true → ran hs i r)
  end.

Definition steady_proc (read : option endInfo) (hs : list (handler (T:=T))) (i : nat) (p : proc) : Prop :=
  p_drain p = false
  ∧ match p_pc p with
    | PStart => True
    | PAccept info | PWait info | PCheck info (Some _) => read = Some info
    | PCheck info None => False
    | PSend r _ | PDone r => concluded read hs i r
    end.

Lemma steady_proc_handlers read hs hs' i p :
  (∀ r, ran hs i r → ran hs' i r) → (no_run hs i → no_run hs' i) →
  steady_proc read hs i p → steady_proc read hs' i p.
Proof.
  intros Hran Hno (Hd & Hpc). split; [done|]. unfold concluded in *.
  destruct (p_pc p); try done; destruct read; naive_solver.
Qed.

Lemma read_alive n e info :
  readEndnameInfo n e = Some info →
  isServerDead n e (i_servername info) (i_server info) = false.
Proof.
  unfold readEndnameInfo, isServerDead. destruct (is_enabled n e); [|done]. intros ?.
  by simplify_option_eq.
Qed.

(** one step of [processReq], and one step of a handler *)
Lemma steady_decide n i p c pc :
  proc_ok (callers n) (handlers n) i p → decides n c (p_pc p) pc →
  let read := readEndnameInfo n (req_endname (c_req c)) in
  steady_proc read (handlers n) i p →
  steady_proc read (handlers n) i {| p_caller := p_caller p; p_pc := pc; p_drain := p_drain p |}.
Proof.
  intros (_ & Hns & _ & Hran) Hd read (Hdr & Hpc). split; [done|]. simpl.
  inversion Hd as [E|info r Hdd E|info r Hal E]; rewrite <-E in *; subst read.
  - destruct (readEndnameInfo _ _) eqn:Er; simpl; [done|]. split; [done|]. intros ??. by apply Hns.
  - destruct r as [r|]; [|done]. rewrite Hpc. simpl. split; [eauto|].
    destruct Hdd as [Hdd|[?|?]]; [|congruence..]. by rewrite (read_alive _ _ _ Hpc) in Hdd.
  - rewrite Hpc. simpl. eauto.
Qed.

Lemma steady_handler n h x pc i read p :
  handlers n !! h = Some x → (∀ r, h_pc x ≠ HDone r) →
  steady_proc read (handlers n) i p → steady_proc read (put_handler h pc (handlers n)) i p.
Proof.
  intros Hx Hnd. apply steady_proc_handlers.
  - intros r (h' & x' & Hx' & E & Hr). assert (h' ≠ h) by (intros ->; simplify_eq; naive_solver).
    exists h', x'. split_and!; [|done..]. unfold put_handler. by rewrite list_lookup_alter_ne.
  - intros Hno h' x' Hx'. unfold put_handler in Hx'. lookup_inv; eapply Hno; eauto.
Qed.

Lemma tstep_steady n cs ps hs w k0 :
  calls_ok (callers n) (procs n) (handlers n) → tstep n cs ps hs w →
  (∀ i p c, procs n !! i = Some p → p_caller p = k0 → callers n !! p_caller p = Some c →
     steady_proc (readEndnameInfo n (req_endname (c_req c))) (handlers n) i p) →
  ∀ i p c, ps !! i = Some p → p_caller p = k0 → cs !! p_caller p = Some c →
     steady_proc (readEndnameInfo n (req_endname (c_req c))) hs i p.
Proof.
  intros Hok Hst Hs. pose proof Hok as [Hop Hoh Hoc Hp1 Hh1].
  assert (∀ k pc i p c, procs n !! i = Some p → p_caller p = k0 → 
    put_caller k pc (callers n) !! p_caller p = Some c →
    steady_proc (readEndnameInfo n (req_endname (c_req c))) (handlers n) i p) as Hs'.
  { intros k pc i p c Hp Hk Hc. unfold put_caller in Hc. lookup_inv; eauto. }
  destruct Hst as [|c Hc|k c r Hk Hc|k c Hk Hc Hcl|k c Hk Hc|j q c pc Hq Hc Hd|j q info Hq Hpc Hrel|j q info Hq Hpc
    |h x q info r Hx Hq Hr Hpc|j q c info Hq Hc Hpc Hd|h x q r Hx Hq Hr Hd|j q c r b Hq Hc Hpc|h x pc w' Hx Hr];
    intros i p c0 Hi Hk0 Hc0; eauto.
  - lookup_inv; eauto. exfalso. destruct (Hop _ _ Hi) as ((c' & Hc' & _) & _).
    apply lookup_lt_Some in Hc'. lia.
  - lookup_inv; [by split|eauto].
  - unfold put_proc in Hi. lookup_inv; [|eauto]. eapply steady_decide; eauto.
  - unfold put_proc in Hi. lookup_inv; [|eauto].
    destruct (Hs _ _ _ Hq eq_refl Hc0) as [Hdr Hread]. rewrite Hpc in Hread. split; [done|]. simpl.
    rewrite Hread. simpl. split; [|congruence]. left. destruct (Hop _ _ Hq) as (_ & Hns & _).
    rewrite Hpc in Hns. intros ??. by apply Hns.
  - unfold put_proc in Hi. lookup_inv.
    + split; [by destruct (Hs _ _ _ Hq eq_refl Hc0)|]. simpl.
      destruct (Hs _ _ _ Hq eq_refl Hc0) as [_ Hread]. by rewrite Hpc in Hread.
    + eapply steady_proc_handlers; [| |by apply (Hs _ _ _ Hi eq_refl)].
      * intros r (h & x & Hx & E & Hr). exists h, x. split; [|done].
        rewrite lookup_app_l; [done|by eapply lookup_lt_Some].
      * intros Hno h x Hx E. lookup_inv. by eapply Hno.
  - unfold put_proc in Hi. lookup_inv.
    + destruct (Hs _ _ _ Hq eq_refl Hc0) as [Hdr Hread]. rewrite Hpc in Hread. by split.
    + apply (steady_handler _ _ x); [done|by rewrite Hr|eauto].
  - unfold put_drain, put_proc in Hi. lookup_inv; eauto.
    destruct (Hs _ _ _ Hq eq_refl Hc) as [_ Hread]. rewrite Hpc in Hread.
    by rewrite (read_alive _ _ _ Hread) in Hd.
  - unfold put_drain in Hi. lookup_inv.
    + destruct (Hs _ _ _ Hq eq_refl Hc0) as [Hdr _]. congruence.
    + apply (steady_handler _ _ x); [done|by rewrite Hr|eauto].
  - unfold put_proc in Hi. lookup_inv; [|eauto].
    destruct (Hs' _ _ _ _ _ Hq eq_refl Hc0) as [Hdr Hcon]. rewrite Hpc in Hcon. by split.
  - apply (steady_handler _ _ x); [done|by destruct (runs_on_pc _ _ _ _ Hr)|eauto].
Qed.

Lemma steady_settings a n n' e :
  no_config a = true → act hstep a n = Some (Ret n') →
  readEndnameInfo n' e = readEndnameInfo n e.
Proof.
  intros Hno Ha. destruct (act_settings _ _ _ Ha) as [(c & -> & _)|E]; [done|].
  injection E as E1 E2 E3 E4 E5 _ _.
  unfold readEndnameInfo, is_enabled, server_of. by rewrite E1, E2, E3, E4, E5.
Qed.
Lemma steady_closed a n n' :
  no_config a = true → act hstep a n = Some (Ret n') → closed n = false → closed n' = false.
Proof.
  intros Hno Ha Hc. destruct (act_settings _ _ _ Ha) as [(c & -> & _)|E]; [done|].
  unfold settings in E. congruence.
Qed.

Lemma tstep_procs n cs ps hs w i p :
  tstep n cs ps hs w → procs n !! i = Some p → ∃ p', ps !! i = Some p' ∧ p_caller p' = p_caller p.
Proof.
  intros Hst Hp. destruct Hst; eauto; try (by apply (put_proc_at _ _ _ _ _ _ Hp));
    try (by apply (put_drain_at _ _ _ _ _ _ Hp)).
  - exists p. by rewrite lookup_app_l by (by eapply lookup_lt_Some).
  - destruct (put_proc_at i i0 (PCheck info None) _ _ (λ p', p_caller p' = p_caller p) Hp)
      as (p' & Hp' & E); [done..|]. by apply (put_drain_at _ _ _ _ _ _ Hp').
Qed.

(** call number [k0] in a network that nobody reconfigures *)
Definition steady (k0 : nat) n : Prop :=
  calls_ok (callers n) (procs n) (handlers n) ∧ closed n = false
  ∧ (∀ i p c, procs n !! i = Some p → p_caller p = k0 → callers n !! p_caller p = Some c →
       steady_proc (readEndnameInfo n (req_endname (c_req c))) (handlers n) i p)
  ∧ ∀ k c r, callers n !! k = Some c → k = k0 → c_callf c = false → c_pc c = Returned r →
       ∃ i p, procs n !! i = Some p ∧ p_caller p = k.

Lemma tstep_returned n cs ps hs w k c r :
  calls_ok (callers n) (procs n) (handlers n) → tstep n cs ps hs w → closed n = false →
  cs !! k = Some c → c_callf c = false → c_pc c = Returned r →
  (∃ c0 r0, callers n !! k = Some c0 ∧ c_callf c0 = false ∧ c_pc c0 = Returned r0)
  ∨ ∃ i p, procs n !! i = Some p ∧ p_caller p = k.
Proof.
  intros Hok Hst Hcl Hc Hf Hr. destruct Hst; unfold put_caller in *; lookup_inv; eauto 7.
  - rewrite Hr, Hf in H. done.
  - pose proof (ok_caller _ _ _ Hok _ _ H) as E. unfold caller_ok in E. rewrite H0 in E. congruence.
  - congruence.
Qed.

Lemma steady_act k0 a n n' :
  no_config a = true → act hstep a n = Some (Ret n') → steady k0 n → steady k0 n'.
Proof.
  intros Hno Ha (Hok & Hcl & Hs & Hret). destruct (act_tstep _ _ _ Ha) as (w & Hst & _).
  split_and!; [by eapply tstep_calls_ok|by eapply steady_closed| |].
  - intros i p c Hp Hk Hc. rewrite (steady_settings _ _ _ _ Hno Ha). by eapply tstep_steady.
  - intros k c r Hc Hk Hf Hr.
    assert (∃ i p, procs n !! i = Some p ∧ p_caller p = k) as (i & p & Hp & <-).
    { destruct (tstep_returned _ _ _ _ _ _ _ _ Hok Hst Hcl Hc Hf Hr) as [(c0 & r0 & ? & ? & ?)|?]; eauto. }
    destruct (tstep_procs _ _ _ _ _ _ _ Hst Hp) as (p' & ? & ?). eauto.
Qed.

(** what a call in such a network returned *)
Lemma steady_returned (read : string → option endInfo) k n c c0 r :
  steady k n → (∀ e, readEndnameInfo n e = read e) →
  callers n !! k = Some c → c_req c = c_req c0 → c_callf c = false → c_pc c = Returned r →
  match read (req_endname (c_req c0)) with
  | None => r = no_reply ∧ runs_of n k = []
  | Some info =>
      (runs_of n k = [] ∨ ∃ x r', runs_of n k = [x] ∧ h_pc x = HDone r')
      ∧ (i_reliable info = true → ∃ x, runs_of n k = [x] ∧ h_pc x = HDone r)
  end.
Proof.
  intros (Hok & _ & Hs & Hp) Hread Hc Hq Hf Hret.
  destruct (Hp _ _ _ Hc eq_refl Hf Hret) as (i & p & Hi & Ek).
  pose proof Hc as Hc1. rewrite <-Ek in Hc1.
  destruct (Hs _ _ _ Hi Ek Hc1) as [_ Hcon]. rewrite Hread, Hq in Hcon.
  destruct (proc_caller _ _ _ _ _ _ _ Hok Hi eq_refl Hc1) as [_ E]. rewrite Hret in E.
  destruct (p_pc p); try done. simplify_eq.
  assert (no_run (handlers n) i → runs_of n (p_caller p) = []) as Hno.
  { intros Hno. apply filter_none. intros x (h & Hx)%list_elem_of_lookup Hcx.
    destruct (ok_handler _ _ _ Hok _ _ Hx) as (p' & Hp' & E & _). apply (Hno _ _ Hx).
    eapply (ok_proc_one _ _ _ Hok); eauto; congruence. }
  destruct (read _) as [info|]; [|destruct Hcon; auto].
  destruct Hcon as [[?|[r' Hr']] Hrel]; split; auto; try by (intros; eapply ran_runs_of; eauto).
  right. destruct (ran_runs_of _ _ _ _ Hok Hi Hr') as (x & ? & ?). eauto.
Qed.

Lemma tstep_request n cs ps hs w k c :
  tstep n cs ps hs w → callers n !! k = Some c →
  ∃ c', cs !! k = Some c' ∧ c_req c' = c_req c ∧ c_callf c' = c_callf c.
Proof.
  intros Hst Hc.
  assert (∀ j pc, ∃ c', put_caller j pc (callers n) !! k = Some c' ∧ c_req c' = c_req c
    ∧ c_callf c' = c_callf c) as Hput.
  { intros j pc. unfold put_caller. destruct (decide (j = k)) as [->|].
    - rewrite list_lookup_alter_eq, Hc. by eexists.
    - rewrite list_lookup_alter_ne by done. by eexists. }
  destruct Hst; eauto. exists c. by rewrite lookup_app_l by (by eapply lookup_lt_Some).
Qed.

Lemma acts_steady n l n' k c0 :
  is_reachable hstep n → closed n = false → Forall (λ a, no_config a = true) l →
  acts hstep l n = Some n' → callers n !! k = Some c0 → c_pc c0 = Sending →
  steady k n' ∧ (∀ e, readEndnameInfo n' e = readEndnameInfo n e)
  ∧ ∃ c, callers n' !! k = Some c ∧ c_req c = c_req c0 ∧ c_callf c = false.
Proof.
  intros Hreach Hcl Hl Hrun Hk Hsend. apply reachable_calls_ok in Hreach as Hok.
  assert (c_callf c0 = false) as Hf.
  { pose proof (ok_caller _ _ _ Hok _ _ Hk) as E. unfold caller_ok in E. by rewrite Hsend in E. }
  revert Hrun.
  apply (acts_inv hstep (λ m, steady k m ∧ (∀ e, readEndnameInfo m e = readEndnameInfo n e)
    ∧ ∃ c, callers m !! k = Some c ∧ c_req c = c_req c0 ∧ c_callf c = false)
    (λ a, no_config a = true)); [|done|].
  - clear -Hok. intros a m m' Hno (Hm & Hr & c & Hc & Hq & Hf) Ha.
    destruct (act_tstep _ _ _ Ha) as (w & Hst & _).
    destruct (tstep_request _ _ _ _ _ _ _ Hst Hc) as (c' & ? & E1 & E2).
    split_and!; [by eapply steady_act| |exists c'; split_and!; congruence].
    intros e. by rewrite (steady_settings _ _ _ _ Hno Ha).
  - split_and!; [|done|eauto]. split_and!; [done|done| |].
    + intros i p c Hi Hp Hc. destruct (proc_caller _ _ _ _ _ _ _ Hok Hi Hp Hk) as [_ E].
      rewrite Hsend in E. by destruct (p_pc p).
    + intros k' c r Hc -> _ Hr. congruence.
Qed.

(** While nobody reconfigures the network, a [Call] is decided by what the
    name of its end stands for.  If it is disabled or leads to no server, the
    call returns false and no handler runs.  Otherwise, when it has returned,
    its handler has not run and never will, or it has finished, at that server
    (none is still under way); and over a reliable network the handler has run
    and the call returns what it answered. *)
Theorem steady_call n l n' k c0 c r :
  is_reachable hstep n → closed n = false → Forall (λ a, no_config a = true) l →
  acts hstep l n = Some n' → callers n !! k = Some c0 → c_pc c0 = Sending →
  callers n' !! k = Some c → c_pc c = Returned r →
  match readEndnameInfo n (req_endname (c_req c0)) with
  | None => r = no_reply ∧ runs_of n' k = []
  | Some info =>
      (runs_of n' k = [] ∨ ∃ x r', runs_of n' k = [x] ∧ h_pc x = HDone r')
      ∧ (i_reliable info = true → ∃ x, runs_of n' k = [x] ∧ h_pc x = HDone r)
  end.
Proof.
  intros Hreach Hcl Hl Hrun Hk Hsend Hc Hret.
  destruct (acts_steady _ _ _ _ _ Hreach Hcl Hl Hrun Hk Hsend) as (Hs & Hread & c' & Hc' & Hq & Hf).
  simplify_eq. by eapply steady_returned.
Qed.

(** ** Dispatch *)

Implicit Types (typ : list (method (T:=T))).

Lemma MakeService_fold typ (ms : gmap string (method (T:=T))) m :
  NoDup (m_Name <$> typ) →
  fold_left (λ ms m, if suitable m then <[m_Name m := m]> ms else ms) typ ms !! m
  = match list_find (λ x, m_Name x = m ∧ suitable x = true) typ with
    | Some (_, x) => Some x
    | None => ms !! m
    end.
Proof.
  revert ms. induction typ as [|x typ IH]; intros ms Hnd; [done|]. simpl in *.
  apply NoDup_cons in Hnd as [Hx Hnd]. rewrite IH by done.
  destruct (decide (m_Name x = m)) as [<-|Hne].
  - assert (list_find (λ y, m_Name y = m_Name x ∧ suitable y = true) typ = None) as ->.
    { apply list_find_None, Forall_forall. intros y Hy [E _]. apply Hx. rewrite <-E.
      by apply list_elem_of_fmap_2. }
    destruct (suitable x) eqn:Es; [rewrite decide_True by done; apply lookup_insert_eq|].
    rewrite decide_False by (intros [_ ?]; congruence). done.
  - rewrite decide_False by (by intros [? _]).
    assert ((if suitable x then <[m_Name x:=x]> ms else ms) !! m = ms !! m) as ->.
    { destruct (suitable x); [by apply lookup_insert_ne|done]. }
    by destruct (list_find _ typ) as [[i y]|].
Qed.

Lemma MakeService_lookup name typ mt :
  NoDup (m_Name <$> typ) → mt ∈ typ →
  methods (MakeService name typ) !! m_Name mt = if suitable mt then Some mt else None.
Proof.
  intros Hnd Hin. simpl. rewrite MakeService_fold by done.
  assert (∀ y, y ∈ typ → m_Name y = m_Name mt → y = mt) as Huniq.
  { apply list_elem_of_lookup in Hin as [i Hi]. intros y [j Hj]%list_elem_of_lookup E.
    assert (i = j) as <-; [|congruence].
    apply (NoDup_lookup _ _ _ (m_Name mt) Hnd); rewrite list_lookup_fmap.
    - by rewrite Hi. - rewrite Hj. simpl. by f_equal. }
  destruct (list_find _ _) as [[i y]|] eqn:E.
  - apply list_find_Some in E as (Hy & [E Hs] & _).
    apply list_elem_of_lookup_2 in Hy. rewrite (Huniq _ Hy E) in *. by rewrite Hs.
  - apply list_find_None in E. rewrite Forall_forall in E.
    destruct (suitable mt) eqn:Hs; [by destruct (E mt Hin)|done].
Qed.

(** A request for service and method of an object that was registered
    reaches that method and is counted, when the method has the shape of a
    handler and its argument decodes; a method of another shape, an unknown
    one, and an argument that does not decode end the process; so does a name
    without a dot, as a panic. *)
Theorem dispatch_finds_handler name typ rs mt args e :
  NoDup (m_Name <$> typ) → mt ∈ typ → LastIndex (m_Name mt) "." = -1 → dispatchf rs = false →
  let rs' := AddService (MakeService name typ) rs in
  let call m := Server_dispatch rs' {| req_endname := e; svcMeth := m; req_args := args |} in
  call (name ++ String "." (m_Name mt))%string
  = (if suitable mt then
       match m_Func mt args with
       | Some t => Ret ({| services := services rs'; srv_count := srv_count rs + 1; dispatchf := false |}, Some t)
       | None => Fatal
       end
     else Fatal)
  ∧ (∀ m, LastIndex m "." = -1 → m ∉ m_Name <$> typ → call (name ++ String "." m)%string = Fatal)
  ∧ (∀ s m, LastIndex m "." = -1 → s ≠ name → services rs !! s = None →
       call (s ++ String "." m)%string = Fatal)
  ∧ (∀ m, LastIndex m "." = -1 → call m = Panic).
Proof.
  intros Hnd Hin Hdot Hf rs' call. unfold call, Server_dispatch, Service_dispatch; simpl.
  rewrite Hf. split_and!.
  - rewrite split_method_dot by done. simpl. rewrite lookup_insert_eq.
    rewrite (MakeService_lookup name) by done. destruct (suitable mt); [|done].
    by destruct (m_Func mt args).
  - intros m Hm Hno. rewrite split_method_dot by done. simpl. rewrite lookup_insert_eq. simpl.
    rewrite MakeService_fold by done. destruct (list_find _ _) as [[i y]|] eqn:E; [|done].
    apply list_find_Some in E as (Hy & [<- _] & _). destruct Hno.
    by apply list_elem_of_fmap_2, (list_elem_of_lookup_2 _ i).
  - intros s m Hm Hne Hs. rewrite split_method_dot by done. simpl. by rewrite lookup_insert_ne, Hs by done.
  - intros m Hm. unfold split_method. by rewrite Hm.
Qed.
End calls.

(* ------------------------------------------------------------------ *)
(** ** Witnesses: a server that counts *)

Module Demo.

Definition hstep (w : Z) (t : unit) : option (Z * (unit + bytes)) := Some (w + 1, inr []).

Definition hello : method (T:=unit) :=
  {| m_Name := "Hello"; m_PkgPath := ""; m_In := [Ptr; Ptr; Ptr]; m_NumOut := 0; m_Func := fun _ => Some tt |}.
(** not exported *)
Definition hidden : method (T:=unit) :=
  {| m_Name := "hidden"; m_PkgPath := "main"; m_In := [Ptr; Ptr; Ptr]; m_NumOut := 0; m_Func := fun _ => Some tt |}.

Abbreviation demo_action := (action (W:=Z) (T:=unit)).

Definition set_up : list demo_action :=
  AConfig <$> [CNewServer; CAddService 0 (MakeService "Greeter" [hello; hidden]); CAddServer "server" 0;
               CMakeEnd "client"; CConnect "client" "server"; CEnable "client" true].
Definition after (l : list demo_action) (n : Network) : Network :=
  match acts hstep l n with Some n' => n' | None => n end.

Definition net0 : Network := after (set_up ++ [ACall 0 "Greeter.Hello" []]) (MakeNetwork 0).
Definition to_handler : list demo_action := [ASend 0; ARead 0; AAccept 0 0; ADispatch 0].
Definition to_reply : list demo_action := [ARun 0; ATake 0].
Definition to_end : list demo_action := [ACheck 0 0; AReply 0].
(** the handler is running *)
Definition net1 : Network := after to_handler net0.
(** it has answered, but the network has not yet checked that the server lives *)
Definition net2 : Network := after to_reply net1.
Definition net3 : Network := after to_end net2.

Lemma reach0 : is_reachable hstep net0.
Proof. exists 0, (set_up ++ [ACall 0 "Greeter.Hello" []]). vm_compute. reflexivity. Qed.
Lemma reach1 : is_reachable hstep net1.
Proof. apply (reachable_acts hstep to_handler net0 net1 reach0). vm_compute. reflexivity. Qed.
Lemma reach2 : is_reachable hstep net2.
Proof. apply (reachable_acts hstep to_reply net1 net2 reach1). vm_compute. reflexivity. Qed.
Lemma reach3 : is_reachable hstep net3.
Proof. apply (reachable_acts hstep to_end net2 net3 reach2). vm_compute. reflexivity. Qed.

Definition request : reqMsg := {| req_endname := "client"; svcMeth := "Greeter.Hello"; req_args := [] |}.
Definition caller_at (pc : caller_pc) : caller := {| c_req := request; c_callf := false; c_pc := pc |}.
Definition yes : replyMsg := {| ok := true; reply := [] |}.

(** the server is deleted after its handler answered *)
Definition killed : Network := after [AConfig (CDeleteServer "server")] net2.
Lemma reach_killed : is_reachable hstep killed.
Proof.
  apply (reachable_acts hstep [AConfig (CDeleteServer "server")] net2 killed reach2).
  vm_compute. reflexivity.
Qed.
Definition info : endInfo :=
  {| i_servername := "server"; i_server := 0; i_reliable := true; i_longreordering := false |}.
Definition proc0 : proc := {| p_caller := 0; p_pc := PCheck info (Some yes); p_drain := false |}.

(** the reply has passed the check and is delayed; the server is deleted; the
    reply arrives *)
Definition late : list demo_action := [ACheck 0 0; AConfig (CDeleteServer "server"); AReply 0].
Definition net_late : Network := after late net2.
Lemma reach_late : is_reachable hstep net_late.
Proof. apply (reachable_acts hstep late net2 net_late reach2). vm_compute. reflexivity. Qed.
End Demo.

(** A reply that has passed the last check when the server is deleted arrives. *)
Lemma late_reply_of_deleted_server :
  is_reachable Demo.hstep Demo.net_late ∧ server_of Demo.net_late "server" = None
  ∧ callers Demo.net_late !! 0%nat = Some (Demo.caller_at (Returned Demo.yes)).
Proof. split; [exact Demo.reach_late|]. split; vm_compute; reflexivity. Qed.


Lemma call_runs_once_witness :
  callers Demo.net3 !! 0%nat = Some (Demo.caller_at (Returned Demo.yes))
  ∧ (length (runs_of Demo.net3 0) ≤ 1)%nat.
Proof.
  split; [vm_compute; reflexivity|].
  refine (proj1 (call_runs_once Demo.hstep Demo.net3 0 (Demo.caller_at (Returned Demo.yes)) Demo.reach3 _ _)).
  - vm_compute. reflexivity.
  - reflexivity.
Defined.

Lemma deleted_server_silent_witness :
  ∃ c r, callers (Demo.after Demo.to_end Demo.killed) !! 0%nat = Some c ∧ c_pc c = Returned r ∧ r = no_reply.
Proof.
  exists (Demo.caller_at (Returned no_reply)), no_reply.
  split; [vm_compute; reflexivity|]. split; [reflexivity|].
  refine (deleted_server_silent Demo.hstep Demo.killed 0 Demo.proc0 Demo.info Demo.to_end
    (Demo.after Demo.to_end Demo.killed) (Demo.caller_at (Returned no_reply)) Demo.reach_killed _ _ _ _ _ _ _ _).
  - vm_compute. reflexivity.
  - right. right. exists (Some Demo.yes). reflexivity.
  - vm_compute. discriminate.
  - repeat constructor.
  - vm_compute. reflexivity.
  - vm_compute. reflexivity.
  - reflexivity.
Defined.

Lemma call_returns_witness :
  ∃ i m n', (m ≤ 5)%nat ∧ nsteps (own Demo.hstep i 0 0) m Demo.net2 n'
    ∧ (has_returned n' 0 ∨ awaits_handler n' 0).
Proof.
  apply (call_returns Demo.hstep Demo.net2 0 (Demo.caller_at Waiting) 0 0 Demo.reach2).
  - vm_compute. reflexivity.
  - reflexivity.
Defined.

Lemma total_count_wraps_witness : GetTotalCount Demo.net3 = i32 (zlen (procs Demo.net3)).
Proof. exact (proj1 (total_count_wraps Demo.hstep Demo.net3 Demo.reach3)). Defined.

Lemma steady_call_witness :
  readEndnameInfo Demo.net0 "client" = Some Demo.info
  ∧ ∃ x, runs_of Demo.net3 0 = [x] ∧ h_pc x = HDone Demo.yes.
Proof.
  split; [vm_compute; reflexivity|].
  refine (proj2 (steady_call Demo.hstep Demo.net0 (Demo.to_handler ++ Demo.to_reply ++ Demo.to_end) Demo.net3
    0 (Demo.caller_at Sending) (Demo.caller_at (Returned Demo.yes)) Demo.yes Demo.reach0 _ _ _ _ _ _ _) _).
  - reflexivity.
  - repeat constructor.
  - vm_compute. reflexivity.
  - vm_compute. reflexivity.
  - reflexivity.
  - vm_compute. reflexivity.
  - reflexivity.
  - reflexivity.
Defined.

Lemma dispatch_finds_handler_witness :
  LastIndex (m_Name Demo.hidden) "." = -1
  ∧ Server_dispatch (AddService (MakeService "Greeter" [Demo.hello; Demo.hidden]) MakeServer)
      {| req_endname := "client"; svcMeth := "Greeter" ++ String "." "hidden"; req_args := [] |} = Fatal.
Proof.
  split; [reflexivity|].
  refine (proj1 (dispatch_finds_handler "Greeter" [Demo.hello; Demo.hidden] MakeServer Demo.hidden [] "client" _ _ _ _)).
  - apply (bool_decide_unpack _). vm_compute. exact I.
  - right. left.
  - reflexivity.
  - reflexivity.
Defined.
