(* ===== verification/KvNet.v ===== *)
(** * The key/value service over the simulated network

    A store with atomic handlers (kvsrv1/server.go) behind labrpc's goroutines,
    and the clerk's calls to it.  What KvClerk.v takes as a script (which
    requests and replies are lost, which operations of other clerks come in
    between) is what the network of LabRpc.v does, step by step. *)

From stdpp Require Import functions.
From S2P Require Import Prelude LabRpc LabRpcCalls KvRpc KvSrv KvClerk.
Local Open Scope Z_scope.

(** ** The service *)

Section service.
Context {S : Type} `{KVStore S, Gob GetArgs, Gob PutArgs, Gob GetReply, Gob PutReply}.

(** zero values of the arguments, which labrpc decodes into *)
Definition GetArgs0 : GetArgs := {| get_Key := "" |}.
Definition PutArgs0 : PutArgs := {| put_Key := ""; put_Value := ""; put_Version := 0 |}.

(** an error of [EncodeValue] is not looked at *)
Definition encoded {A} `{Gob A} (r : A) : bytes := default [] (gob_encode r).

(** a handler holds the server's mutex: it is one step *)
Definition kv_handle (s : S) (op : kv_op) : option (S * (kv_op + bytes)) :=
  Some (match op with
        | OpGet a => (s, inr (encoded (kv_Get s a)))
        | OpPut a => let '(s', r) := kv_Put s a in (s', inr (encoded r))
        end).

(** the methods of a [*KVServer]: a receiver and two pointers each *)
Definition kv_methods : list (method (T:=kv_op)) :=
  [{| m_Name := "Get"; m_PkgPath := ""; m_In := [Ptr; Ptr; Ptr]; m_NumOut := 0;
      m_Func := fun b => OpGet <$> gob_decode GetArgs0 b |};
   {| m_Name := "Put"; m_PkgPath := ""; m_In := [Ptr; Ptr; Ptr]; m_NumOut := 0;
      m_Func := fun b => OpPut <$> gob_decode PutArgs0 b |}].

Definition kv_service : Service (T:=kv_op) := MakeService "KVServer" kv_methods.

(** ** One attempt of the clerk *)

(** what the two ends of the wire agree on: gob gives back what it was given,
    and into a reply that already holds values it decodes as described in
    KvRpc.v *)
Class KvWire : Prop := {
  wire_put_args a : ∃ b, gob_encode a = Some b ∧ gob_decode PutArgs0 b = Some a;
  wire_put_reply (old r : PutReply) :
    ∃ b, gob_encode r = Some b ∧ gob_decode old b = Some (PutReply_decode old r)
}.

Abbreviation net := (Network (W:=S) (T:=kv_op)).
Implicit Types (n : net).

(** the network serves the store, and the clerk's end goes through it *)
Definition kv_net (e : nat) n : Prop :=
  is_reachable kv_handle n ∧ closed n = false
  ∧ (∃ c, clients n !! e = Some c ∧ callf c = false)
  ∧ ∀ i rs, srvs n !! i = Some rs → dispatchf rs = false ∧ services rs !! "KVServer" = Some kv_service.

(** nobody reconfigures the network or touches the store behind its back *)
Definition quiet (a : action (W:=S) (T:=kv_op)) : bool :=
  match a with AConfig _ | AWorld _ => false | _ => true end.

(** what the handler answered to call [k] so far *)
Definition put_answers n (k : nat) : list Err :=
  omap (λ x, match h_pc x with
             | HReply r | HDone r => put_Err <$> gob_decode PutReply0 (reply r)
             | _ => None
             end) (runs_of n k).

(** [ck.clnt.Call(ck.server, "KVServer.Put", &args, &reply)] with a fresh
    reply: from the moment before it to the moment it returns, in [steps]
    steps of anybody *)
Definition attempt (e : nat) (a : PutArgs) n (steps : nat) (n' : net)
    (h : list Err) (res : outcome (bool * PutReply)) : Prop :=
  ∃ b n1 l k c r,
    Marshall a = Ret b ∧ k = length (callers n)
    ∧ act kv_handle (ACall e "KVServer.Put" b) n = Some (Ret n1)
    ∧ Forall (λ a, quiet a = true) l ∧ length l = steps ∧ acts kv_handle l n1 = Some n'
    ∧ callers n' !! k = Some c ∧ c_pc c = Returned r
    ∧ h = put_answers n' k ∧ res = Call_reply r PutReply0.

(** ** The world changes by operations only *)

Lemma quiet_no_config a : quiet a = true → no_config a = true.
Proof. by destruct a. Qed.

Lemma exec_kv_handle s op s' res :
  kv_handle s op = Some (s', res) → s' = fst (exec s op) ∧ ∃ b, res = inr b.
Proof.
  unfold kv_handle. destruct op as [a|a]; simpl; [intros [= <- <-]; eauto|].
  destruct (kv_Put s a) as [s1 r]. intros [= <- <-]; eauto.
Qed.

Lemma exec_all_snoc s ops op :
  fst (exec_all s (ops ++ [op])) = fst (exec (fst (exec_all s ops)) op).
Proof.
  revert s. induction ops as [|o ops IH]; intros s; simpl.
  - by destruct (exec s op).
  - destruct (exec s o) as [s1 x]. specialize (IH s1).
    destruct (exec_all s1 (ops ++ [op])), (exec_all s1 ops). done.
Qed.

(** dispatching keeps what a server offers *)
Lemma Server_dispatch_same (rs : Server (T:=kv_op)) req t :
  Server_dispatch rs req = Ret t →
  dispatchf (fst t) = dispatchf rs ∧ services (fst t) = services rs.
Proof.
  unfold Server_dispatch. intros E. apply outcome_bind_ret in E as ([s m] & _ & E).
  destruct (dispatchf rs) eqn:Hf; [by simplify_eq|].
  destruct (services rs !! s); [|done]. by go_inv.
Qed.

Lemma kv_net_act e a n n' :
  quiet a = true → act kv_handle a n = Some (Ret n') → kv_net e n → kv_net e n'.
Proof.
  intros Hq Ha (Hr & Hc & He & Hs).
  destruct (act_effect _ _ _ _ Ha) as [(c & -> & _)|(Hset & Hsrv)]; [done|].
  unfold settings in Hset. injection Hset as _ _ _ _ _ Hcl Hcs. split_and!.
  - eapply (reachable_acts _ [a]); [done|]. simpl. by rewrite Ha.
  - congruence.
  - by rewrite Hcs.
  - intros i rs Hi. destruct Hsrv as [E|(j & rs0 & req & t & Hj & Hd & E)]; rewrite E in Hi; [eauto|].
    destruct (decide (i = j)) as [->|]; [|rewrite list_lookup_insert_ne in Hi by done; eauto].
    rewrite list_lookup_insert_eq in Hi by (by eapply lookup_lt_Some). simplify_eq.
    destruct (Server_dispatch_same _ _ _ Hd) as [-> ->]. eauto.
Qed.

(** dispatching the clerk's request *)
Lemma dispatch_Put (rs : Server (T:=kv_op)) en b :
  dispatchf rs = false → services rs !! "KVServer" = Some kv_service →
  ∀ rs' t, Server_dispatch rs {| req_endname := en; svcMeth := "KVServer.Put"; req_args := b |} = Ret (rs', t) →
  OpPut <$> gob_decode PutArgs0 b = t.
Proof.
  intros Hf Hs rs' t. unfold Server_dispatch.
  change (split_method _) with (Ret ("KVServer", "Put")%string).
  simpl. rewrite Hf, Hs. unfold Service_dispatch.
  assert (methods kv_service !! "Put"%string = Some {| m_Name := "Put"; m_PkgPath := ""; m_In := [Ptr; Ptr; Ptr];
    m_NumOut := 0; m_Func := fun b => OpPut <$> gob_decode PutArgs0 b |}) as -> by reflexivity.
  simpl. destruct (gob_decode PutArgs0 b); simpl; by intros ?; simplify_eq.
Qed.
(** ** The life of one put over the network

    From a store [s0] on: before its handler ran other operations ran; after it
    ran, its reply is what the store answered then. *)

Definition before_run (s0 : S) (a : PutArgs) (k : nat) n (j : nat) : Prop :=
  (∃ ops, (length ops ≤ j)%nat ∧ world n = fst (exec_all s0 ops))
  ∧ ∀ h x, handlers n !! h = Some x → h_caller x = k → h_pc x = HDispatch ∨ h_pc x = HRun (OpPut a).

Definition after_run (s0 : S) (a : PutArgs) (k : nat) n (j : nat) : Prop :=
  ∃ ops rest s r h x,
    (length ops + length rest ≤ j)%nat ∧ kv_Put (fst (exec_all s0 ops)) a = (s, r)
    ∧ world n = fst (exec_all s rest)
    ∧ handlers n !! h = Some x ∧ h_caller x = k
    ∧ (h_pc x = HReply {| ok := true; reply := encoded r |} ∨ h_pc x = HDone {| ok := true; reply := encoded r |}).

(** one more operation on the store *)
Lemma exec_handle s op s' b :
  kv_handle s op = Some (s', inr b) →
  s' = fst (exec s op) ∧ ∀ a, op = OpPut a → ∃ r, kv_Put s a = (s', r) ∧ b = encoded r.
Proof.
  intros E. destruct (exec_kv_handle _ _ _ _ E) as [-> _]. split; [done|]. intros a ->.
  unfold kv_handle in E. simpl in *. destruct (kv_Put s a) as [s1 r]. simplify_eq/=. eauto.
Qed.

Lemma before_run_step s0 a k c n n' j :
  tstep kv_handle n (callers n') (procs n') (handlers n') (world n') →
  callers n !! k = Some c → svcMeth (c_req c) = "KVServer.Put" →
  gob_decode PutArgs0 (req_args (c_req c)) = Some a →
  (∀ i rs, srvs n !! i = Some rs → dispatchf rs = false ∧ services rs !! "KVServer"%string = Some kv_service) →
  before_run s0 a k n j →
  before_run s0 a k n' (Datatypes.S j) ∨ after_run s0 a k n' (Datatypes.S j).
Proof.
  intros Hst Hc Hm Hdec Hsrv [(ops & Hl & Hw) Hh].
  destruct (tstep_handlers _ _ _ _ _ _ Hst) as [(Ew & Hback & _)|(h & x & pc & Hx & Hrun & Ehs)].
  { left. split; [exists ops; split; [lia|congruence]|]. intros h y Hy Hk.
    destruct (Hback _ _ Hy) as [?|[?|(x & Hx & r & Hr & _ & Ec & _)]]; eauto.
    destruct (Hh _ _ Hx) as [E|E]; congruence. }
  assert (∀ op b, pc = HReply {| ok := true; reply := b |} → h_caller x ≠ k →
    kv_handle (world n) op = Some (world n', inr b) → before_run s0 a k n' (Datatypes.S j)) as Hother.
  { intros op b -> Hne Ho. apply exec_handle in Ho as [Ho _]. split.
    - exists (ops ++ [op]). rewrite length_app, exec_all_snoc, <-Hw. simpl. split; [lia|done].
    - intros h' y Hy Hk. rewrite Ehs in Hy. unfold put_handler in Hy. lookup_inv; eauto. }
  remember (world n') as w' eqn:Ew. destruct Hrun as [c' rs rs' t Hpc Hc' Hrs Hd|t w res Hpc Hr|r Hpc].
  - left. split; [exists ops; split; [lia|congruence]|]. intros h' y Hy Hk. rewrite Ehs in Hy.
    unfold put_handler in Hy. lookup_inv; [|eauto].
    destruct (Hsrv _ _ Hrs) as [Hf Hs]. destruct (c_req c) as [en m b] eqn:Ereq; simpl in *; subst m.
    pose proof (dispatch_Put _ _ _ Hf Hs _ _ Hd) as Ht. rewrite Hdec in Ht. subst t. auto.
  - destruct (exec_kv_handle _ _ _ _ Hr) as [_ [b ->]]. subst w.
    destruct (decide (h_caller x = k)) as [Hk|Hne]; [right|left; by eapply Hother].
    destruct (Hh _ _ Hx Hk) as [E|E]; [congruence|]. rewrite E in Hpc. simplify_eq.
    destruct (exec_handle _ _ _ _ Hr) as [_ Hput]. destruct (Hput _ eq_refl) as (r & Hp & ->).
    rewrite Hw in Hp.
    exists ops, [], (world n'), r, h. eexists. rewrite Ehs.
    split; [simpl; lia|]. split; [done|]. split; [done|]. split; [by apply put_handler_lookup|].
    split; [done|by left].
  - left. split; [exists ops; split; [lia|congruence]|]. intros h' y Hy Hk. rewrite Ehs in Hy.
    unfold put_handler in Hy. lookup_inv; [|eauto]. destruct (Hh _ _ Hx eq_refl); congruence.
Qed.

Lemma after_run_step s0 a k n n' j :
  tstep kv_handle n (callers n') (procs n') (handlers n') (world n') →
  after_run s0 a k n j → after_run s0 a k n' (Datatypes.S j).
Proof.
  intros Hst (ops & rest & s & r & h & x & Hl & Hp & Hw & Hx & Hk & Hr).
  destruct (tstep_handlers _ _ _ _ _ _ Hst) as [(Ew & _ & Hfwd)|(h' & x' & pc & Hx' & Hrun & Ehs)].
  { destruct (Hfwd _ _ Hx) as (y & Hy & [->|(r' & E1 & E2 & Ec & _)]).
    - exists ops, rest, s, r, h, x. split_and!; [lia|done|congruence|done..].
    - exists ops, rest, s, r, h, y. split_and!; [lia|done|congruence|done|congruence|]. right.
      destruct Hr; congruence. }
  assert (h' ≠ h) as Hne.
  { intros ->. simplify_eq. destruct Hr as [E|E]; inversion Hrun; congruence. }
  assert (handlers n' !! h = Some x) as Hx1
    by (rewrite Ehs; unfold put_handler; by rewrite list_lookup_alter_ne).
  remember (world n') as w' eqn:Ew. destruct Hrun as [c' rs rs' t Hpc Hc' Hrs Hd|t w res Hpc Hr'|r' Hpc].
  - exists ops, rest, s, r, h, x. split_and!; [lia|done|congruence|done..].
  - destruct (exec_kv_handle _ _ _ _ Hr') as [-> _].
    exists ops, (rest ++ [t]), s, r, h, x. rewrite exec_all_snoc, <-Hw, length_app. simpl.
    split_and!; [lia|done|congruence|done..].
  - exists ops, rest, s, r, h, x. split_and!; [lia|done|congruence|done..].
Qed.
(** the call that [ACall] starts *)
Lemma call_started e n b n1 :
  kv_net e n → act kv_handle (ACall e "KVServer.Put" b) n = Some (Ret n1) →
  kv_net e n1 ∧ world n1 = world n ∧ handlers n1 = handlers n
  ∧ ∃ c, callers n1 !! length (callers n) = Some c ∧ c_pc c = Sending
         ∧ svcMeth (c_req c) = "KVServer.Put" ∧ req_args (c_req c) = b.
Proof.
  intros Hn Ha. split; [by eapply kv_net_act; [|exact Ha|]|]. destruct Hn as (_ & _ & (c & Hc & Hf) & _).
  simpl in Ha. unfold Call in Ha. rewrite Hc in Ha. simpl in Ha. rewrite Hf in Ha. injection Ha as <-. simpl.
  split; [done|]. split; [done|]. eexists. rewrite lookup_app_r, Nat.sub_diag by done. by split.
Qed.

Lemma put_phase e s0 a l n1 n' k c :
  kv_net e n1 → callers n1 !! k = Some c → svcMeth (c_req c) = "KVServer.Put" →
  gob_decode PutArgs0 (req_args (c_req c)) = Some a →
  Forall (λ a, quiet a = true) l → acts kv_handle l n1 = Some n' →
  ∀ j, before_run s0 a k n1 j ∨ after_run s0 a k n1 j →
  kv_net e n' ∧ (before_run s0 a k n' (length l + j) ∨ after_run s0 a k n' (length l + j)).
Proof.
  intros Hn Hc Hm Hdec Hl. revert n1 c Hn Hc Hm Hdec.
  induction Hl as [|x l Hx Hl IH]; intros n1 c Hn Hc Hm Hdec Hrun j Hj; simpl in Hrun.
  { by simplify_eq. }
  destruct (act kv_handle x n1) as [[n2| |]|] eqn:Ha; simpl in Hrun; try done.
  destruct (act_tstep _ _ _ _ Ha) as (w & Hst & [->|(f & ->)]); [|done].
  destruct (tstep_request _ _ _ _ _ _ _ _ Hst Hc) as (c' & Hc' & Eq & _).
  replace (length (x :: l) + j)%nat with (length l + Datatypes.S j)%nat by (simpl; lia).
  apply (IH n2 c'); [by eapply kv_net_act; [|exact Ha|]|done|congruence|congruence|done|].
  destruct Hj as [Hj|Hj]; [|right; by eapply after_run_step].
  destruct Hn as (_ & _ & _ & Hsrv). by eapply before_run_step.
Qed.

Lemma encoded_reply `{!KvWire} r : gob_decode PutReply0 (encoded r) = Some r.
Proof.
  destruct (wire_put_reply PutReply0 r) as (b & Hb & Hd). unfold encoded. rewrite Hb. simpl.
  by rewrite Hd, PutReply_decode_fresh.
Qed.

(** the handler of a call that has returned is not under way *)
Lemma attempt_runs n k c c0 r (read : string → option endInfo) :
  steady k n → (∀ e, readEndnameInfo n e = read e) →
  callers n !! k = Some c → c_req c = c_req c0 → c_callf c = false → c_pc c = Returned r →
  r = no_reply ∧ runs_of n k = []
  ∨ ∃ x r', runs_of n k = [x] ∧ h_pc x = HDone r' ∧ (r = no_reply ∨ r = r').
Proof.
  intros Hst Hread Hc Eq Hf Hret.
  pose proof (steady_returned _ _ _ _ _ _ Hst Hread Hc Eq Hf Hret) as Hfin.
  destruct Hst as (Hok & _).
  destruct (returned_reply _ _ _ _ Hok Hc Hf Hret) as [->|(x & Hx & Hd)]; [|right; exists x, r; auto].
  destruct (read _); [destruct Hfin as [[?|(x & r' & ? & ?)] _]|destruct Hfin]; eauto 8.
Qed.

Lemma after_run_runs s0 a k n j :
  after_run s0 a k n j → runs_of n k ≠ [].
Proof.
  intros (ops & rest & s & r & h & x & _ & _ & _ & Hx & Hk & _) E.
  assert (x ∈ runs_of n k) as Hin; [|by rewrite E in Hin; inv Hin].
  apply list_elem_of_filter. split; [done|]. by eapply list_elem_of_lookup_2.
Qed.

(** the attempt, when it has returned *)
Lemma attempt_Call_Put `{!KvWire} e a n steps n' h res :
  kv_net e n → attempt e a n steps n' h res →
  kv_net e n' ∧
  ∃ ops f rest s rep,
    Call_Put (world n) (ops, f) a = (s, h, rep) ∧ world n' = fst (exec_all s rest)
    ∧ (length ops + length rest ≤ steps)%nat
    ∧ res = Ret (match rep with Some r => (true, r) | None => (false, PutReply0) end).
Proof.
  intros Hn (b & n1 & l & k & c & r & Hb & -> & Ha & Hl & <- & Hrun & Hc & Hret & -> & ->).
  destruct (call_started _ _ _ _ Hn Ha) as (Hn1 & Ew & Eh & c0 & Hc0 & Hsend & Hm & Hargs).
  set (k := length (callers n)) in *.
  assert (gob_decode PutArgs0 (req_args (c_req c0)) = Some a) as Hdec.
  { destruct (wire_put_args a) as (b' & Hb' & Hd). unfold Marshall in Hb. rewrite Hb' in Hb. by simplify_eq. }
  pose proof Hn as (Hreach & _). apply reachable_calls_ok in Hreach as Hok.
  assert (before_run (world n) a k n1 0) as Hb0.
  { split; [by exists []|]. rewrite Eh. intros h x Hx Hk. exfalso.
    destruct (ok_handler _ _ _ Hok _ _ Hx) as (p & Hp & Ec & _).
    destruct (ok_proc _ _ _ Hok _ _ Hp) as ((c1 & Hc1 & _) & _). apply lookup_lt_Some in Hc1.
    unfold k in Hk. lia. }
  destruct (put_phase _ _ _ _ _ _ _ _ Hn1 Hc0 Hm Hdec Hl Hrun 0%nat (or_introl Hb0)) as [Hn' Hph].
  rewrite Nat.add_0_r in Hph. split; [done|].
  destruct Hn1 as (Hr1 & Hcl1 & _ & _).
  destruct (acts_steady _ _ _ _ _ _ Hr1 Hcl1 ltac:(eapply Forall_impl; [exact Hl|]; apply quiet_no_config) Hrun Hc0 Hsend)
    as (Hst & Hread & c' & Hc' & Eq & Hf). simplify_eq.
  destruct (attempt_runs n' k c c0 r _ Hst Hread Hc Eq Hf Hret) as [[-> Hno]|(x & r' & Hx & Hd & Hr)].
  - destruct Hph as [[(ops & Hlen & Hw) _]|Haf]; [|by apply after_run_runs in Haf].
    exists ops, ReqLost, [], (fst (exec_all (world n) ops)), None.
    unfold Call_Put, put_answers. rewrite Hno. simpl. split_and!; [done|done|lia|done].
  - destruct Hph as [[_ Hbf]|(ops & rest & s & rp & h & y & Hlen & Hp & Hw & Hy & Hyk & Hyd)].
    { exfalso. assert (x ∈ runs_of n' k) as Hin by (rewrite Hx; by left).
      apply list_elem_of_filter in Hin as [Hk (h & Hh)%list_elem_of_lookup].
      destruct (Hbf _ _ Hh Hk); congruence. }
    destruct Hst as (Hok' & _). rewrite (runs_of_one _ _ _ _ Hok' Hy Hyk) in Hx. injection Hx as ->.
    assert (r' = {| ok := true; reply := encoded rp |}) as -> by (destruct Hyd; congruence).
    assert (put_answers n' k = [put_Err rp]) as ->.
    { unfold put_answers. rewrite (runs_of_one _ _ _ _ Hok' Hy Hyk). simpl. rewrite Hd. simpl.
      by rewrite encoded_reply. }
    destruct Hr as [-> | ->].
    + exists ops, RepLost, rest, s, None. unfold Call_Put. simpl. rewrite Hp. split_and!; [done|done|lia|done].
    + exists ops, Delivered, rest, s, (Some rp). unfold Call_Put. simpl. rewrite Hp, PutReply_decode_fresh.
      split_and!; [done|done|lia|]. unfold Call_reply, Unmarshall. simpl. by rewrite encoded_reply.
Qed.
(** ** The clerk's loop over the network *)

(** [Put]'s loop of resends, as goroutines of the network interleave with it;
    between two attempts it sleeps.  The index counts all steps of the network,
    the list collects what the server answered to the clerk's calls. *)
Inductive resend_over (e : nat) (a : PutArgs) : net → nat → list Err → outcome Err → net → Prop :=
| resend_last n steps n' h r :
    attempt e a n steps n' h (Ret (true, r)) →
    resend_over e a n (Datatypes.S steps) h (Put_resend_reply r) n'
| resend_again n steps n1 h l n2 steps' h' res n' :
    attempt e a n steps n1 h (Ret (false, PutReply0)) →
    Forall (λ a, quiet a = true) l → acts kv_handle l n1 = Some n2 →
    resend_over e a n2 steps' h' res n' →
    resend_over e a n (Datatypes.S (steps + length l + steps')) (h ++ h') res n'.

Inductive put_over (e : nat) (a : PutArgs) : net → nat → list Err → outcome Err → net → Prop :=
| put_first n steps n' h r :
    attempt e a n steps n' h (Ret (true, r)) →
    put_over e a n (Datatypes.S steps) h (Put_first_reply r) n'
| put_lost n steps n1 h l n2 steps' h' res n' :
    attempt e a n steps n1 h (Ret (false, PutReply0)) →
    Forall (λ a, quiet a = true) l → acts kv_handle l n1 = Some n2 →
    resend_over e a n2 steps' h' res n' →
    put_over e a n (Datatypes.S (steps + length l + steps')) (h ++ h') res n'.

Lemma exec_all_app s ops1 ops2 :
  fst (exec_all s (ops1 ++ ops2)) = fst (exec_all (fst (exec_all s ops1)) ops2).
Proof.
  revert s. induction ops1 as [|o ops1 IH]; intros s; [done|]. simpl.
  destruct (exec s o) as [s1 x]. specialize (IH s1).
  destruct (exec_all s1 (ops1 ++ ops2)), (exec_all s1 ops1). done.
Qed.

Lemma Call_Put_app s pre ops f a :
  Call_Put s (pre ++ ops, f) a = Call_Put (fst (exec_all s pre)) (ops, f) a.
Proof. unfold Call_Put. simpl. by rewrite exec_all_app. Qed.

Lemma quiet_acts e l n n' :
  kv_net e n → Forall (λ a, quiet a = true) l → acts kv_handle l n = Some n' →
  kv_net e n' ∧ ∃ ops, (length ops ≤ length l)%nat ∧ world n' = fst (exec_all (world n) ops).
Proof.
  intros Hn Hl. revert n Hn. induction Hl as [|x l Hx Hl IH]; intros n Hn Hrun; simpl in Hrun.
  { simplify_eq. split; [done|]. by exists []. }
  destruct (act kv_handle x n) as [[n2| |]|] eqn:Ha; simpl in Hrun; try done.
  destruct (IH n2) as (Hn' & ops & Hlen & Hw); [by eapply kv_net_act; [|exact Ha|]|done|].
  split; [done|]. destruct (act_tstep _ _ _ _ Ha) as (w & Hst & [->|(f & ->)]); [|done].
  destruct (tstep_handlers _ _ _ _ _ _ Hst) as [(E & _)|(h & y & pc & _ & Hrun' & _)].
  { exists ops. split; [simpl; lia|congruence]. }
  remember (world n2) as w eqn:Ew. destruct Hrun' as [? ? ? ? _ _ _ _|op w res _ Hr|? _].
  - exists ops. split; [simpl; lia|congruence].
  - destruct (exec_kv_handle _ _ _ _ Hr) as [-> _]. exists (op :: ops). split; [simpl; lia|].
    change (op :: ops) with ([op] ++ ops). rewrite exec_all_app, Hw. f_equal.
    simpl. by destruct (exec (world n) op).
  - exists ops. split; [simpl; lia|congruence].
Qed.

Lemma resend_over_Put `{!KvWire} e a n steps h res n' :
  resend_over e a n steps h res n' → kv_net e n →
  ∀ s pre, world n = fst (exec_all s pre) →
  ∃ script s', Put_resend s script a = (s', h, Some res)
    ∧ script_size script ≤ zlen pre + Z.of_nat steps.
Proof.
  induction 1 as [n steps n' h r Hat|n steps n1 h l n2 steps' h' res n' Hat Hl Hrun _ IH]; intros Hn s pre Hw;
    destruct (attempt_Call_Put _ _ _ _ _ _ _ Hn Hat) as (Hn1 & ops & f & rest & s1 & rep & Hcall & Hw1 & Hlen & E);
    rewrite Hw, <-Call_Put_app in Hcall; destruct rep as [r'|]; try done.
  - injection E as ->. exists [(pre ++ ops, f)], s1. simpl. rewrite Hcall. split; [done|].
    simpl. unfold zlen. rewrite length_app. lia.
  - destruct (quiet_acts _ _ _ _ Hn1 Hl Hrun) as (Hn2 & ops' & Hlen' & Hw2).
    destruct (IH Hn2 s1 (rest ++ ops')) as (script & s' & Hres & Hsize).
    { by rewrite exec_all_app, <-Hw1. }
    exists ((pre ++ ops, f) :: script), s'. simpl. rewrite Hcall, Hres. split; [done|].
    unfold zlen in *. rewrite ?length_app in *. lia.
Qed.

Lemma put_over_Put `{!KvWire} e key value version n steps h res n' :
  put_over e {| put_Key := key; put_Value := value; put_Version := version |} n steps h res n' →
  kv_net e n →
  ∃ script s', Put (world n) script key value version = (s', h, Some res)
    ∧ script_size script ≤ Z.of_nat steps.
Proof.
  set (a := {| put_Key := key |}). intros Hp Hn.
  destruct Hp as [n steps n' h r Hat|n steps n1 h l n2 steps' h' res n' Hat Hl Hrun Hres];
    destruct (attempt_Call_Put _ _ _ _ _ _ _ Hn Hat) as (Hn1 & ops & f & rest & s1 & rep & Hcall & Hw1 & Hlen & E);
    destruct rep as [r'|]; try done.
  - injection E as ->. exists [(ops, f)], s1. unfold Put. fold a. rewrite Hcall. split; [done|].
    simpl. unfold zlen. lia.
  - destruct (quiet_acts _ _ _ _ Hn1 Hl Hrun) as (Hn2 & ops' & Hlen' & Hw2).
    destruct (resend_over_Put _ _ _ _ _ _ _ Hres Hn2 s1 (rest ++ ops')) as (script & s' & Hrs & Hsize).
    { by rewrite exec_all_app, <-Hw1. }
    exists ((ops, f) :: script), s'. unfold Put. fold a. rewrite Hcall, Hrs. split; [done|].
    simpl. unfold zlen in *. rewrite ?length_app in *. lia.
Qed.
End service.

(** C15. A clerk's [Put] to a store behind the simulated network, which nobody
    reconfigures while it runs ([quiet]: no end is enabled, disabled or connected
    elsewhere, no server added or deleted, the network not shut down, and the
    store changed by requests only); apart from that every goroutine of the
    network, of the server and of other clerks is interleaved in any way, and the
    store's versions stay below the wrap-around.  The put's calls take effect at
    most once, and the result tells the truth about it.  This is the answer of
    [KvClerk.v]'s clerk with its script of lost messages replaced by labrpc's
    code.  (With the end disabled in between, a call may return false while its
    handler still runs later.) *)
Theorem Put_over_network {S : Type} `{KVStore S, Gob GetArgs, Gob PutArgs, Gob GetReply, Gob PutReply, !KvWire}
    e key value version (n : Network) steps h res n' :
  kv_net e n →
  put_over e {| put_Key := key; put_Value := value; put_Version := version |} n steps h res n' →
  0 ≤ version_at (kv_table (world n)) key →
  version_at (kv_table (world n)) key + Z.of_nat steps < u64_mod →
  (performed h ≤ 1)%nat
  ∧ (res = Ret OK → performed h = 1%nat)
  ∧ (res = Ret ErrVersion ∨ res = Ret ErrNoKey → performed h = 0%nat)
  ∧ res ∈ [Ret OK; Ret ErrVersion; Ret ErrNoKey; Ret ErrMaybe].
Proof.
  intros Hn Hp Hv Hb. destruct (put_over_Put _ _ _ _ _ _ _ _ _ Hp Hn) as (script & s' & Hput & Hsize).
  assert (version_at (kv_table (world n)) key + script_size script < u64_mod) as Hb' by lia.
  destruct (Put_result_ok _ _ _ _ _ _ _ _ Hv Hb' Hput) as [Hperf Hr].
  destruct res as [[]| |]; split_and!; try done; try set_solver; naive_solver.
Qed.

(* ------------------------------------------------------------------ *)
(** ** Witness: the first request is dropped, the second gets through *)

Module Demo.

(** an encoding, for the witness only: a bit per byte *)
Fixpoint of_positive (p : positive) : bytes :=
  match p with
  | xH => []
  | xO q => Byte.x00 :: of_positive q
  | xI q => Byte.x01 :: of_positive q
  end.
Fixpoint to_positive (b : bytes) : positive :=
  match b with
  | [] => xH
  | c :: b' => if decide (c = Byte.x00) then xO (to_positive b') else xI (to_positive b')
  end.

Lemma to_of_positive p : to_positive (of_positive p) = p.
Proof. induction p as [p IH|p IH|]; simpl; by rewrite ?IH. Qed.

Definition Err_code (e : Err) : nat :=
  match e with ErrNone => 0 | OK => 1 | ErrNoKey => 2 | ErrVersion => 3 | ErrMaybe => 4
  | ErrWrongLeader => 5 | ErrWrongGroup => 6 end.
Definition Err_of (c : nat) : Err :=
  match c with 0 => ErrNone | 1 => OK | 2 => ErrNoKey | 3 => ErrVersion | 4 => ErrMaybe
  | 5 => ErrWrongLeader | _ => ErrWrongGroup end%nat.

Definition code {A} `{Countable A} (a : A) : option bytes := Some (of_positive (encode a)).
Definition uncode {A} `{Countable A} (b : bytes) : option A := decode (to_positive b).

Lemma uncode_code {A} `{Countable A} (a : A) : ∃ b, code a = Some b ∧ uncode b = Some a.
Proof. eexists. split; [done|]. unfold uncode. by rewrite to_of_positive, decode_encode. Qed.

#[export] Instance gob_get_args : Gob GetArgs := {|
  gob_encode := fun a => code (get_Key a);
  gob_decode := fun _ b => (λ k, {| get_Key := k |}) <$> uncode b
|}.
#[export] Instance gob_put_args : Gob PutArgs := {|
  gob_encode := fun a => code (put_Key a, put_Value a, put_Version a);
  gob_decode := fun _ b =>
    (λ '(k, v, n), {| put_Key := k; put_Value := v; put_Version := n |}) <$> uncode b
|}.
#[export] Instance gob_get_reply : Gob GetReply := {|
  gob_encode := fun r => code (get_Value r, get_Version r, Err_code (get_Err r), get_LeaderHint r);
  gob_decode := fun _ b =>
    (λ '(v, n, e, h), {| get_Value := v; get_Version := n; get_Err := Err_of e; get_LeaderHint := h |})
      <$> uncode b
|}.
#[export] Instance gob_put_reply : Gob PutReply := {|
  gob_encode := fun r => code (Err_code (put_Err r), put_LeaderHint r);
  gob_decode := fun old b =>
    (λ '(e, h), PutReply_decode old {| put_Err := Err_of e; put_LeaderHint := h |}) <$> uncode b
|}.

#[export] Instance demo_wire : KvWire.
Proof.
  split.
  - intros [k v n]. destruct (uncode_code (k, v, n)) as (b & Hb & Hd). exists b. split; [done|].
    unfold gob_decode, gob_put_args. by rewrite Hd.
  - intros old [e h]. destruct (uncode_code (Err_code e, h)) as (b & Hb & Hd). exists b. split; [done|].
    unfold gob_decode, gob_put_reply. rewrite Hd. by destruct e.
Qed.

Abbreviation demo_action := (action (W:=KvSrv.KVServer) (T:=kv_op)).

Definition set_up : list demo_action :=
  AConfig <$> [CNewServer; CAddService 0 kv_service; CAddServer "server" 0;
               CMakeEnd "clerk"; CConnect "clerk" "server"; CEnable "clerk" true; CReliable false].

Definition after (l : list demo_action) (n : Network) : Network :=
  match acts kv_handle l n with Some n' => n' | None => n end.

Definition net0 : Network := after set_up (MakeNetwork KvSrv.MakeKVServer).

Definition demo_args : PutArgs := {| put_Key := "k"; put_Value := "v"; put_Version := 0 |}.
Definition demo_bytes : bytes := encoded demo_args.
Definition demo_call : demo_action := ACall 0 "KVServer.Put" demo_bytes.

(** 5 mod 1000 is below 100: the network drops the request *)
Definition dropped : list demo_action := [ASend 0; ARead 0; AAccept 0 5; AReply 0].
(** the timer of the loop fires once while the handler runs *)
Definition served : list demo_action :=
  [ASend 1; ARead 1; AAccept 1 500; ADispatch 0; ATimer 1; ARun 0; ATake 0; ACheck 1 500; AReply 1].
Definition net1 : Network := after dropped (after [demo_call] net0).
Definition net2 : Network := after served (after [demo_call] net1).

Lemma demo_kv_net : kv_net 0 net0.
Proof.
  split_and!.
  - exists KvSrv.MakeKVServer, set_up. vm_compute. reflexivity.
  - reflexivity.
  - eexists. split; reflexivity.
  - intros [|i] rs Hi; vm_compute in Hi; [|done]. injection Hi as <-. split; vm_compute; reflexivity.
Qed.
Lemma demo_lost : attempt 0 demo_args net0 4 net1 [] (Ret (false, PutReply0)).
Proof.
  exists demo_bytes, (after [demo_call] net0), dropped, 0%nat. do 2 eexists.
  split_and!; try (vm_compute; reflexivity). repeat constructor.
Qed.

Lemma demo_served : attempt 0 demo_args net1 9 net2 [OK] (Ret (true, {| put_Err := OK; put_LeaderHint := 0 |})).
Proof.
  exists demo_bytes, (after [demo_call] net1), served, 1%nat. do 2 eexists.
  split_and!; try (vm_compute; reflexivity). repeat constructor.
Qed.

Lemma demo_put : put_over 0 demo_args net0 15 [OK] (Ret OK) net2.
Proof.
  apply (put_lost 0 demo_args net0 4 net1 [] [] net1 10 [OK] (Ret OK) net2 demo_lost).
  - constructor.
  - reflexivity.
  - exact (resend_last 0 demo_args net1 9 net2 [OK] _ demo_served).
Qed.
End Demo.
Import Demo.

Lemma Put_over_network_witness :
  put_over 0 demo_args net0 15 [OK] (Ret OK) net2 ∧ performed [OK] = 1%nat.
Proof.
  split; [exact demo_put|].
  refine (proj1 (proj2 (Put_over_network 0 "k" "v" 0 net0 15 [OK] (Ret OK) net2
    demo_kv_net demo_put _ _)) eq_refl).
  - vm_compute. discriminate.
  - vm_compute. reflexivity.
Defined.
