(* ===== verification/Transport.v ===== *)
(** * Framing messages on a connection (tester1/demux/transport.go)

    A message goes over the connection as four bytes of length, least
    significant first, and its gob encoding.  The reader of a connection sees
    the bytes that have arrived and whether more can come; the writer keeps the
    error of its buffer. *)

From S2P Require Import Prelude LabRpc.
From Stdlib Require Import Strings.Byte.
Local Open Scope Z_scope.

Record msg := { Tag : Z; Data : bytes; Ok : bool }.
Definition no_msg : msg := {| Tag := 0; Data := []; Ok := false |}.
#[export] Instance msg_eq_dec : EqDecision msg.
Proof. solve_decision. Defined.

(** ** encoding/binary *)

Definition byte_of (z : Z) : Byte.byte := default x00 (Byte.of_N (Z.to_N (z `mod` 256))).
Definition byte_val (b : Byte.byte) : Z := Z.of_N (Byte.to_N b).

(** [binary.Write(w, binary.LittleEndian, uint32(z))] *)
Definition put_uint32 (z : Z) : bytes := byte_of <$> [z; z `div` 256; z `div` 65536; z `div` 16777216].
Definition uint32 (l : bytes) : Z := foldr (λ b n, byte_val b + 256 * n) 0 l.

Lemma byte_val_of z : byte_val (byte_of z) = z `mod` 256.
Proof.
  unfold byte_val, byte_of. pose proof (Z.mod_pos_bound z 256 eq_refl).
  destruct (Byte.of_N (Z.to_N (z `mod` 256))) as [b|] eqn:E.
  - apply Byte.to_of_N in E. simpl. rewrite E. lia.
  - apply Byte.of_N_None_iff in E. lia.
Qed.

Lemma uint32_put z : uint32 (put_uint32 z) = u32 z.
Proof.
  unfold uint32, put_uint32, u32. simpl. rewrite !byte_val_of.
  change 65536 with (256 * 256). change 16777216 with (256 * 256 * 256).
  rewrite <-!Z.div_div by lia. pose proof (Z.div_mod z 256). pose proof (Z.div_mod (z `div` 256) 256).
  pose proof (Z.div_mod ((z `div` 256) `div` 256) 256).
  pose proof (Z.div_mod (((z `div` 256) `div` 256) `div` 256) 256).
  apply Z.mod_unique_pos with (q := (((z `div` 256) `div` 256) `div` 256) `div` 256).
  - pose proof (Z.mod_pos_bound z 256). pose proof (Z.mod_pos_bound (z `div` 256) 256).
    pose proof (Z.mod_pos_bound ((z `div` 256) `div` 256) 256).
    pose proof (Z.mod_pos_bound (((z `div` 256) `div` 256) `div` 256) 256). lia.
  - lia.
Qed.

(** ** Reading *)

(** a read waits, fails, or is done; [io.EOF] means that no byte came *)
Inductive io (A : Type) :=
| IoWait
| IoEOF
| IoUnexpectedEOF
| IoDone (a : A).
Arguments IoWait {A}. Arguments IoEOF {A}. Arguments IoUnexpectedEOF {A}. Arguments IoDone {A} a.

(** [io.ReadFull] with a buffer of [n] bytes; the rest of the stream *)
Definition ReadFull (n : Z) (s : bytes) (closed : bool) : io (bytes * bytes) :=
  if decide (n ≤ zlen s) then IoDone (take (Z.to_nat n) s, drop (Z.to_nat n) s)
  else if closed then match s with [] => IoEOF | _ => IoUnexpectedEOF end
  else IoWait.

Section transport.
Context `{Gob msg}.

(** (a buffer that is read in full is never a short read) *)
Definition ReadCall (s : bytes) (closed : bool) : outcome (io (msg * bytes)) :=
  match ReadFull 4 s closed with
  | IoDone (nbyte, s1) =>
      match ReadFull (uint32 nbyte) s1 closed with
      | IoDone (b, s2) => m ← Unmarshall b no_msg; Ret (IoDone (m, s2))
      | IoWait => Ret IoWait
      | IoEOF => Ret IoEOF
      | IoUnexpectedEOF => Ret IoUnexpectedEOF
      end
  | IoWait => Ret IoWait
  | IoEOF => Ret IoEOF
  | IoUnexpectedEOF => Ret IoUnexpectedEOF
  end.

(** ** Writing *)

Definition frame (b : bytes) : bytes := put_uint32 (u32 (zlen b)) ++ b.

(** the error of the buffer, if it has one, is the error of every later write;
    with [fault = Some k] the connection fails after [k] bytes of this message.
    Yields whether an error is returned, and the bytes that were sent. *)
Definition WriteCall (werr : bool) (fault : option nat) (m : msg) : outcome (bool * bytes) :=
  b ← Marshall m;
  if werr then Ret (true, [])
  else match fault with
  | None => Ret (false, frame b)
  | Some k => Ret (true, take k (frame b))
  end.

(** ** Streams of messages *)

(** [m] goes over the connection as [b] *)
Definition sends (m : msg) (b : bytes) : Prop :=
  ∃ e, gob_encode m = Some e ∧ gob_decode no_msg e = Some m ∧ zlen e < 2 ^ 32 ∧ b = frame e.

Lemma length_put z : length (put_uint32 z) = 4%nat.
Proof. done. Qed.

Lemma ReadFull_app n a s closed : zlen a = n → ReadFull n (a ++ s) closed = IoDone (a, s).
Proof.
  intros <-. unfold ReadFull, zlen. rewrite length_app. rewrite decide_True by lia. rewrite Nat2Z.id.
  by rewrite take_app_length, drop_app_length.
Qed.

Lemma uint32_frame (e : bytes) : zlen e < 2 ^ 32 → uint32 (put_uint32 (u32 (zlen e))) = zlen e.
Proof. intros. rewrite uint32_put. unfold u32, zlen in *. rewrite Z.mod_mod by lia. apply Z.mod_small. lia. Qed.

Lemma ReadCall_frame m b s closed : sends m b → ReadCall (b ++ s) closed = Ret (IoDone (m, s)).
Proof.
  intros (e & _ & Hd & Hlen & ->). unfold ReadCall, frame. rewrite <-app_assoc.
  rewrite ReadFull_app by done. rewrite uint32_frame, ReadFull_app by done.
  unfold Unmarshall. by rewrite Hd.
Qed.

Lemma WriteCall_sends m b : sends m b → WriteCall false None m = Ret (false, b).
Proof. intros (e & He & _ & _ & ->). unfold WriteCall, Marshall. by rewrite He. Qed.

Lemma take_take_frame {A} (a e : list A) k : (k < length (a ++ e))%nat →
  (k < length a ∧ take k (a ++ e) = take k a)%nat
  ∨ ∃ j, (j < length e)%nat ∧ k = (length a + j)%nat ∧ take k (a ++ e) = a ++ take j e.
Proof.
  rewrite length_app. intros Hk. destruct (decide (k < length a)%nat) as [Hlt|Hge].
  - left. split; [done|]. apply take_app_le. lia.
  - right. exists (k - length a)%nat. split; [lia|]. split; [lia|]. by rewrite take_app_ge by lia.
Qed.

(** a message that has not come in full: the reader waits, and fails when the
    connection is closed; a close after the length looks like one between two
    messages *)
Lemma ReadCall_prefix m b k : sends m b → (k < length b)%nat →
  ReadCall (take k b) false = Ret IoWait ∧
  ReadCall (take k b) true = Ret (if decide (k = 0 ∨ k = 4)%nat then IoEOF else IoUnexpectedEOF).
Proof.
  intros (e & _ & _ & Hlen & ->) Hk. unfold frame in *.
  destruct (take_take_frame _ _ _ Hk) as [[Hlt ->]|(j & Hj & -> & ->)].
  - assert (∀ closed, ReadFull 4 (take k (put_uint32 (u32 (zlen e)))) closed
      = if closed then (if decide (k = 0)%nat then IoEOF else IoUnexpectedEOF) else IoWait) as Hr.
    { intros closed. unfold ReadFull, zlen. rewrite length_take. rewrite length_put in *.
      rewrite decide_False by lia. destruct closed; [|done]. by destruct k. }
    unfold ReadCall. rewrite !Hr. split; [done|]. rewrite length_put in Hlt.
    repeat case_decide; done || lia.
  - unfold ReadCall. rewrite !ReadFull_app by done. rewrite uint32_frame by done. rewrite length_put.
    assert (∀ closed, ReadFull (zlen e) (take j e) closed
      = if closed then (if decide (j = 0)%nat then IoEOF else IoUnexpectedEOF) else IoWait) as Hr.
    { intros closed. unfold ReadFull, zlen. rewrite length_take. rewrite decide_False by lia.
      destruct closed; [|done]. destruct e; [simpl in Hj; lia|]. by destruct j. }
    rewrite !Hr. split; [done|]. repeat case_decide; done || lia.
Qed.

(** [n] calls of [ReadCall], which find all they need *)
Fixpoint ReadCalls (n : nat) (s : bytes) : option (list msg * bytes) :=
  match n with
  | O => Some ([], s)
  | S n' => match ReadCall s false with
            | Ret (IoDone (m, s')) => '(ms, p) ← ReadCalls n' s'; Some (m :: ms, p)
            | _ => None
            end
  end.

(** writing all messages of a list *)
Fixpoint WriteCalls (ms : list msg) : outcome bytes :=
  match ms with
  | [] => Ret []
  | m :: ms' => '(_, b) ← WriteCall false None m; s ← WriteCalls ms'; Ret (b ++ s)
  end.

Definition sendable (m : msg) : Prop := ∃ b, sends m b.

Lemma WriteCalls_sends ms : Forall sendable ms → ∃ s, WriteCalls ms = Ret s.
Proof.
  induction 1 as [|m ms [b Hb] _ [s IH]]; [by exists []|]. exists (b ++ s). simpl.
  rewrite (WriteCall_sends m b Hb). simpl. by rewrite IH.
Qed.

(** C31. Framing: of a connection that carries the messages of a list and is cut
    anywhere, the reader gets the messages that came in full, in order and
    nothing else; then it waits, or fails with an error when the connection is
    closed; when nothing was cut off, it gets all messages. *)
Theorem cut_stream ms s k : Forall sendable ms → WriteCalls ms = Ret s →
  ∃ n p, ReadCalls n (take k s) = Some (take n ms, p) ∧ (n ≤ length ms)%nat
    ∧ ReadCall p false = Ret IoWait ∧ (ReadCall p true = Ret IoEOF ∨ ReadCall p true = Ret IoUnexpectedEOF)
    ∧ ((length s ≤ k)%nat → n = length ms ∧ p = []).
Proof.
  intros Hms. revert s k. induction Hms as [|m ms [b Hb] _ IH]; intros s k; simpl.
  { intros [= <-]. exists 0%nat, []. rewrite take_nil. simpl. split_and!; try done. by left. }
  rewrite (WriteCall_sends m b Hb). simpl. intros E. apply outcome_bind_ret in E as (s' & E & [= <-]).
  destruct (decide (k < length b)%nat) as [Hk|Hk].
  - destruct (ReadCall_prefix m b k Hb Hk) as [H1 H2]. rewrite take_app_le by lia.
    exists 0%nat, (take k b). simpl. split_and!; try done; [lia| |rewrite length_app; lia].
    rewrite H2. case_decide; [by left|by right].
  - destruct (IH s' (k - length b)%nat E) as (n & p & Hr & Hn & Hw & Hf & Hall). rewrite take_app_ge by lia.
    exists (S n), p. simpl. rewrite (ReadCall_frame m b _ false Hb), Hr. simpl.
    split_and!; try done; [lia|]. rewrite length_app. intros. destruct Hall; [lia|]. by subst.
Qed.

(** A message of 4 GiB or more: the length wraps around, and the reader takes
    the wrong bytes for the message. *)
Lemma frame_too_long (e s : bytes) closed : 2 ^ 32 ≤ zlen e →
  ReadCall (frame e ++ s) closed = (m ← Unmarshall (take (Z.to_nat (u32 (zlen e))) e) no_msg;
    Ret (IoDone (m, drop (Z.to_nat (u32 (zlen e))) e ++ s))) ∧ u32 (zlen e) < zlen e.
Proof.
  intros Hlen. pose proof (u32_range (zlen e)) as Hr. split; [|lia].
  unfold ReadCall, frame. rewrite <-app_assoc, ReadFull_app by done. rewrite uint32_put.
  replace (u32 (u32 (zlen e))) with (u32 (zlen e)) by (unfold u32; by rewrite Z.mod_mod).
  unfold ReadFull. unfold zlen in *. rewrite decide_True by (rewrite length_app; lia).
  rewrite take_app_le by lia. by rewrite drop_app_le by lia.
Qed.
End transport.

(** ** A concrete encoding

    Not gob's: four bytes of tag, one for the flag, the data; data of 2 GiB
    or more are refused. *)

Definition msg_encode (m : msg) : option bytes :=
  if decide (u32 (Tag m) = Tag m ∧ zlen (Data m) < 2 ^ 31)
  then Some (put_uint32 (Tag m) ++ byte_of (if Ok m then 1 else 0) :: Data m) else None.

Definition msg_decode (_ : msg) (b : bytes) : option msg :=
  match b with
  | b0 :: b1 :: b2 :: b3 :: ok :: data =>
      Some {| Tag := uint32 [b0; b1; b2; b3]; Data := data; Ok := bool_decide (byte_val ok = 1) |}
  | _ => None
  end.

#[export] Instance msg_gob : Gob msg := {| gob_encode := msg_encode; gob_decode := msg_decode |}.

Lemma msg_wire (m : msg) e : gob_encode m = Some e → gob_decode no_msg e = Some m ∧ zlen e < 2 ^ 32.
Proof.
  simpl. unfold msg_encode. intros E. destruct (decide _) as [[Ht Hl]|]; [|done]. injection E as <-. split.
  - unfold msg_decode. cbn [put_uint32 fmap list_fmap app].
    change [byte_of (Tag m); byte_of (Tag m `div` 256); byte_of (Tag m `div` 65536); byte_of (Tag m `div` 16777216)]
      with (put_uint32 (Tag m)).
    rewrite uint32_put, Ht, byte_val_of. destruct m as [t d []]; reflexivity.
  - unfold zlen in *. simpl length. lia.
Qed.

(** two messages, cut in the second *)
Lemma cut_stream_witness :
  let ms := [{| Tag := 7; Data := [x61; x62]; Ok := true |}; {| Tag := 4294967295; Data := []; Ok := false |}] in
  ∃ s n p, WriteCalls ms = Ret s ∧ length s = 20%nat ∧ ReadCalls n (take 15 s) = Some (take n ms, p) ∧ n = 1%nat
    ∧ ReadCall p false = Ret IoWait ∧ (ReadCall p true = Ret IoEOF ∨ ReadCall p true = Ret IoUnexpectedEOF).
Proof.
  intros ms. destruct (WriteCalls ms) as [s| |] eqn:E; [|vm_compute in E; discriminate E..].
  destruct (cut_stream ms s 15) as (n & p & Hr & Hn & Hw & Hf & _).
  - repeat constructor; (eexists; eexists; split_and!; [vm_compute; reflexivity|vm_compute; reflexivity|done|reflexivity]).
  - exact E.
  - exists s, n, p. vm_compute in E. injection E as <-. split; [reflexivity|]. split; [reflexivity|].
    split; [exact Hr|]. split; [|by split]. destruct n as [|[|n]]; [|reflexivity|].
    + vm_compute in Hr. injection Hr as <-. vm_compute in Hw. discriminate Hw.
    + vm_compute in Hr. discriminate Hr.
Defined.
