(* ===== verification/Demux.v ===== *)
(** * Calls over one connection (tester1/demux)

    callmap.go, dmxclnt.go and dmxsrv.go: many goroutines of a client call
    through one connection; each call draws a tag, registers a channel under
    it, writes its request and waits, and the client's reader hands every
    reply to the channel of its tag.  The server starts a goroutine for every
    request.  A connection is two streams of bytes; either side may close it,
    writes may fail after part of a message, reads fail once it is closed.

    The goroutines in [SendReceive] are a pool, and so are those of the server
    and those in [Close]; a channel is named by the number of its call.  An
    unbuffered channel hands over when both sides are there. *)

From S2P Require Import Prelude LabRpc Transport.
Local Open Scope Z_scope.

Abbreviation Ttag := Z (only parsing).   (* uint32 *)

(** ** callmap.go *)

Record callMap := { cm_closed : bool; calls : gmap Ttag nat }.

Definition newCallMap : callMap := {| cm_closed := false; calls := ∅ |}.
Definition cm_close (cm : callMap) : callMap := {| cm_closed := true; calls := calls cm |}.
Definition isClosed (cm : callMap) : bool := cm_closed cm.
(** [None] is the error *)
Definition put (tag : Ttag) (ch : nat) (cm : callMap) : option callMap :=
  if cm_closed cm then None else Some {| cm_closed := cm_closed cm; calls := <[tag := ch]> (calls cm) |}.
Definition remove (tag : Ttag) (cm : callMap) : option (nat * callMap) :=
  match calls cm !! tag with
  | Some ch => Some (ch, {| cm_closed := cm_closed cm; calls := delete tag (calls cm) |})
  | None => None
  end.
(** [range] meets the keys in any order *)
Definition outstanding (cm : callMap) (ts : list Ttag) : bool :=
  bool_decide (NoDup ts) && bool_decide (list_to_set ts = dom (calls cm)).

(** ** dmxclnt.go *)

Record InitMsg := { Clnt : string }.

Record reply := { rep : bytes; rep_ok : bool; rep_err : bool }.
Definition reader_fail : reply := {| rep := []; rep_ok := false; rep_err := true |}.

(** a goroutine in [SendReceive]: before [tag], before [put], before
    [WriteCall], at [<-ch], and returned *)
Inductive call_pc := CTag | CPut | CWrite | CWait | CDone (r : reply).
Record call := { c_b : bytes; c_t : option Ttag; c_pc : call_pc }.

(** the reader: in [ReadCall]; at [ch <- reply], in the loop or in the drain;
    before [callmap.close] and before [outstanding]; in the drain; gone *)
Inductive reader_pc :=
| RRead
| RSend (i : nat) (r : reply) (drain : option (list Ttag))
| RClose
| ROutstanding
| RDrain (ts : list Ttag)
| RExit.

(** a goroutine in [Close]: before [isClosed], [trans.Close], [callmap.close] *)
Inductive close_pc := KCheck | KTrans | KMap | KDone.

Record DemuxClnt := {
  callmap : callMap;
  nextTag : Ttag;
  c_werr : bool;             (** the error of the connection's writer *)
  pool : list call;
  rd : reader_pc;
  closers : list close_pc
}.

Definition set_callmap (cm : callMap) (d : DemuxClnt) : DemuxClnt :=
  {| callmap := cm; nextTag := nextTag d; c_werr := c_werr d; pool := pool d; rd := rd d; closers := closers d |}.
Definition set_rd (pc : reader_pc) (d : DemuxClnt) : DemuxClnt :=
  {| callmap := callmap d; nextTag := nextTag d; c_werr := c_werr d; pool := pool d; rd := pc; closers := closers d |}.
Definition set_call (i : nat) (c : call) (d : DemuxClnt) : DemuxClnt :=
  {| callmap := callmap d; nextTag := nextTag d; c_werr := c_werr d; pool := <[i := c]> (pool d); rd := rd d;
     closers := closers d |}.
Definition set_closer (j : nat) (k : close_pc) (d : DemuxClnt) : DemuxClnt :=
  {| callmap := callmap d; nextTag := nextTag d; c_werr := c_werr d; pool := pool d; rd := rd d;
     closers := <[j := k]> (closers d) |}.
Definition set_c_werr (b : bool) (d : DemuxClnt) : DemuxClnt :=
  {| callmap := callmap d; nextTag := nextTag d; c_werr := b; pool := pool d; rd := rd d; closers := closers d |}.

Definition tag (d : DemuxClnt) : Ttag * DemuxClnt :=
  (nextTag d,
   {| callmap := callmap d; nextTag := u32 (nextTag d + 1); c_werr := c_werr d; pool := pool d; rd := rd d;
      closers := closers d |}).

Definition at_pc (c : call) (pc : call_pc) : call := {| c_b := c_b c; c_t := c_t c; c_pc := pc |}.

(** *** SendReceive *)

Definition start_call (b : bytes) (d : DemuxClnt) : DemuxClnt :=
  {| callmap := callmap d; nextTag := nextTag d; c_werr := c_werr d;
     pool := pool d ++ [{| c_b := b; c_t := None; c_pc := CTag |}]; rd := rd d; closers := closers d |}.

Definition call_tag (i : nat) (d : DemuxClnt) : option DemuxClnt :=
  c ← pool d !! i;
  match c_pc c with
  | CTag => let '(t, d) := tag d in Some (set_call i {| c_b := c_b c; c_t := Some t; c_pc := CPut |} d)
  | _ => None
  end.

Definition call_put (i : nat) (d : DemuxClnt) : option DemuxClnt :=
  c ← pool d !! i;
  match c_pc c, c_t c with
  | CPut, Some t =>
      Some match put t i (callmap d) with
           | None => set_call i (at_pc c (CDone reader_fail)) d
           | Some cm => set_call i (at_pc c CWrite) (set_callmap cm d)
           end
  | _, _ => None
  end.

(** *** The reader's reply *)

Definition reply_to (t : Ttag) (r : reply) (drain : option (list Ttag)) (d : DemuxClnt) : outcome DemuxClnt :=
  match remove t (callmap d) with
  | Some (i, cm) => Ret (set_rd (RSend i r drain) (set_callmap cm d))
  | None => Fatal
  end.

(** [ch <- reply] and [rep := <-ch] *)
Definition hand_over (d : DemuxClnt) : option DemuxClnt :=
  match rd d with
  | RSend i r drain =>
      c ← pool d !! i;
      match c_pc c with
      | CWait => Some (set_call i (at_pc c (CDone r))
                         (set_rd match drain with None => RRead | Some ts => RDrain ts end d))
      | _ => None
      end
  | _ => None
  end.

(** after a read error: [callmap.close], [outstanding], and a reply for each *)
Definition reader_close (d : DemuxClnt) : option DemuxClnt :=
  match rd d with RClose => Some (set_rd ROutstanding (set_callmap (cm_close (callmap d)) d)) | _ => None end.
Definition reader_outstanding (ts : list Ttag) (d : DemuxClnt) : option DemuxClnt :=
  match rd d with
  | ROutstanding => if outstanding (callmap d) ts then Some (set_rd (RDrain ts) d) else None
  | _ => None
  end.
Definition reader_drain (d : DemuxClnt) : option (outcome DemuxClnt) :=
  match rd d with
  | RDrain [] => Some (Ret (set_rd RExit d))
  | RDrain (t :: ts) => Some (reply_to t reader_fail (Some ts) d)
  | _ => None
  end.

(** ** dmxsrv.go *)

(** a goroutine of the server's reader: in [ServeRequest], before [WriteCall],
    done *)
Inductive handler_pc := HServe | HWrite (b : bytes) (ok : bool) | HDone (b : bytes) (ok : bool).
Record handler := { h_t : Ttag; h_req : bytes; h_pc : handler_pc }.

(** the server's accepting goroutine in [NewDemuxSrv]; the reader; the reader
    has left its loop *)
Inductive srv_pc := SInit | SRead | SExit.

Record DemuxSrv := {
  clntEnd : string;
  s_closed : bool;
  s_werr : bool;
  s_pc : srv_pc;
  handlers : list handler
}.

Definition set_s_pc (pc : srv_pc) (s : DemuxSrv) : DemuxSrv :=
  {| clntEnd := clntEnd s; s_closed := s_closed s; s_werr := s_werr s; s_pc := pc; handlers := handlers s |}.
Definition set_closed (s : DemuxSrv) : DemuxSrv :=
  {| clntEnd := clntEnd s; s_closed := true; s_werr := s_werr s; s_pc := s_pc s; handlers := handlers s |}.
Definition set_s_werr (b : bool) (s : DemuxSrv) : DemuxSrv :=
  {| clntEnd := clntEnd s; s_closed := s_closed s; s_werr := b; s_pc := s_pc s; handlers := handlers s |}.
Definition set_handlers (hs : list handler) (s : DemuxSrv) : DemuxSrv :=
  {| clntEnd := clntEnd s; s_closed := s_closed s; s_werr := s_werr s; s_pc := s_pc s; handlers := hs |}.
Definition set_clntEnd (e : string) (s : DemuxSrv) : DemuxSrv :=
  {| clntEnd := e; s_closed := s_closed s; s_werr := s_werr s; s_pc := s_pc s; handlers := handlers s |}.

Definition serve_done (h : nat) (b : bytes) (ok : bool) (s : DemuxSrv) : option DemuxSrv :=
  x ← handlers s !! h;
  match h_pc x with
  | HServe => Some (set_handlers (<[h := {| h_t := h_t x; h_req := h_req x; h_pc := HWrite b ok |}]> (handlers s)) s)
  | _ => None
  end.

(** ** Both ends and what is between them *)

Record link := {
  clnt : DemuxClnt;
  srv : DemuxSrv;
  c2s : bytes;      (** on its way to the server *)
  s2c : bytes;
  c_down : bool;    (** the client has closed the connection *)
  s_down : bool
}.

Definition with_clnt (d : DemuxClnt) (l : link) : link :=
  {| clnt := d; srv := srv l; c2s := c2s l; s2c := s2c l; c_down := c_down l; s_down := s_down l |}.
Definition with_srv (s : DemuxSrv) (l : link) : link :=
  {| clnt := clnt l; srv := s; c2s := c2s l; s2c := s2c l; c_down := c_down l; s_down := s_down l |}.
Definition with_c2s (b : bytes) (l : link) : link :=
  {| clnt := clnt l; srv := srv l; c2s := b; s2c := s2c l; c_down := c_down l; s_down := s_down l |}.
Definition with_s2c (b : bytes) (l : link) : link :=
  {| clnt := clnt l; srv := srv l; c2s := c2s l; s2c := b; c_down := c_down l; s_down := s_down l |}.
Definition close_c (l : link) : link :=
  {| clnt := clnt l; srv := srv l; c2s := c2s l; s2c := s2c l; c_down := true; s_down := s_down l |}.
Definition close_s (l : link) : link :=
  {| clnt := clnt l; srv := srv l; c2s := c2s l; s2c := s2c l; c_down := c_down l; s_down := true |}.

Definition down (l : link) : bool := c_down l || s_down l.

(** a write succeeds, or fails after some bytes; none go over a connection
    that is closed *)
Definition may_write (l : link) (fault : option nat) : bool :=
  match fault with None => negb (down l) | Some k => negb (down l) || (k =? 0)%nat end.

Section demux.
Context `{Gob msg} `{Gob InitMsg}.

(** [NewDemuxClnt]: [None] is the error; [reader] is started *)
Definition NewDemuxClnt (name : string) (fault : option nat) : outcome (option (DemuxClnt * bytes)) :=
  b ← Marshall {| Clnt := name |};
  let '(t, d) := tag {| callmap := newCallMap; nextTag := 0; c_werr := false; pool := []; rd := RRead; closers := [] |} in
  '(err, out) ← WriteCall false fault {| Tag := t; Data := b; Ok := true |};
  Ret (if err : bool then None else Some (d, out)).

(** the server before [NewDemuxSrv] has read the client's name *)
Definition new_srv : DemuxSrv :=
  {| clntEnd := ""; s_closed := false; s_werr := false; s_pc := SInit; handlers := [] |}.

Definition call_write (i : nat) (fault : option nat) (l : link) : option (outcome link) :=
  c ← pool (clnt l) !! i;
  match c_pc c, c_t c with
  | CWrite, Some t =>
      if may_write l fault then
        Some ('(err, out) ← WriteCall (c_werr (clnt l)) fault {| Tag := t; Data := c_b c; Ok := true |};
              Ret (with_c2s (c2s l ++ out) (with_clnt (set_c_werr err (set_call i (at_pc c CWait) (clnt l))) l)))
      else None
  | _, _ => None
  end.

(** one turn of the client's reader; it may learn of a closed connection before
    it has read all there is *)
Definition reader_read (fail : bool) (l : link) : option (outcome link) :=
  match rd (clnt l) with
  | RRead =>
      let failed := Some (Ret (with_clnt (set_rd RClose (clnt l)) l)) in
      if fail then if down l then failed else None
      else if c_down l then None
      else match ReadCall (s2c l) (s_down l) with
           | Ret (IoDone (m, rest)) =>
               Some (d ← reply_to (Tag m) {| rep := Data m; rep_ok := Ok m; rep_err := false |} None (clnt l);
                     Ret (with_s2c rest (with_clnt d l)))
           | Ret IoWait => None
           | Ret (IoEOF | IoUnexpectedEOF) => failed
           | Fatal => Some Fatal
           | Panic => Some Panic
           end
  | _ => None
  end.

(** [Close] of the client, up to its next step *)
Definition close_step (j : nat) (l : link) : option link :=
  k ← closers (clnt l) !! j;
  match k with
  | KCheck => Some (with_clnt (set_closer j (if isClosed (callmap (clnt l)) then KDone else KTrans) (clnt l)) l)
  | KTrans => Some (close_c (with_clnt (set_closer j KMap (clnt l)) l))
  | KMap => Some (with_clnt (set_closer j KDone (set_callmap (cm_close (callmap (clnt l))) (clnt l))) l)
  | KDone => None
  end.

(** the rest of [NewDemuxSrv]: without a first message the process ends *)
Definition NewDemuxSrv (fail : bool) (l : link) : option (outcome link) :=
  match s_pc (srv l) with
  | SInit =>
      if fail then if down l then Some Fatal else None
      else if s_down l then None
      else match ReadCall (c2s l) (c_down l) with
           | Ret (IoDone (m, rest)) =>
               Some (e ← Unmarshall (Data m) {| Clnt := "" |};
                     Ret (with_c2s rest (with_srv (set_s_pc SRead (set_clntEnd (Clnt e) (srv l))) l)))
           | Ret IoWait => None
           | Ret (IoEOF | IoUnexpectedEOF) | Fatal => Some Fatal
           | Panic => Some Panic
           end
  | _ => None
  end.

(** one turn of the server's reader *)
Definition srv_read (fail : bool) (l : link) : option (outcome link) :=
  match s_pc (srv l) with
  | SRead =>
      if fail then if down l then Some (Ret (with_srv (set_s_pc SExit (srv l)) l)) else None
      else if s_down l then None
      else match ReadCall (c2s l) (c_down l) with
           | Ret (IoDone (m, rest)) =>
               Some (Ret (with_c2s rest (with_srv (set_handlers
                 (handlers (srv l) ++ [{| h_t := Tag m; h_req := Data m; h_pc := HServe |}]) (srv l)) l)))
           | Ret IoWait => None
           | Ret IoEOF => Some (Ret (with_srv (set_s_pc SExit (set_closed (srv l))) l))
           | Ret IoUnexpectedEOF => Some (Ret (with_srv (set_s_pc SExit (srv l)) l))
           | Fatal => Some Fatal
           | Panic => Some Panic
           end
  | _ => None
  end.

Definition serve_write (h : nat) (fault : option nat) (l : link) : option (outcome link) :=
  x ← handlers (srv l) !! h;
  match h_pc x with
  | HWrite b ok =>
      if may_write l fault then
        Some ('(err, out) ← WriteCall (s_werr (srv l)) fault {| Tag := h_t x; Data := b; Ok := ok |};
              Ret (with_s2c (s2c l ++ out) (with_srv (set_s_werr err (set_handlers
                     (<[h := {| h_t := h_t x; h_req := h_req x; h_pc := HDone b ok |}]> (handlers (srv l))) (srv l))) l)))
      else None
  | _ => None
  end.

(** [Close] of the server; a server that has read the end of its connection
    does not close it *)
Definition srv_close (l : link) : link :=
  if s_closed (srv l) then l else close_s (with_srv (set_closed (srv l)) l).

(** ** Steps *)

Inductive action :=
| ACall (b : bytes)              (** a goroutine enters [SendReceive] *)
| ATag (i : nat)
| APut (i : nat)
| AWrite (i : nat) (fault : option nat)
| ARead (fail : bool)
| AHandOver
| AReaderClose
| AOutstanding (ts : list Ttag)
| ADrain
| AClose                         (** a goroutine enters [Close] *)
| AClosing (j : nat)
| ASrvInit (fail : bool)
| ASrvRead (fail : bool)
| AServe (h : nat) (b : bytes) (ok : bool)   (** [ServeRequest] returns *)
| ASrvWrite (h : nat) (fault : option nat)
| ASrvClose
| ASrvDies.                      (** the server's process ends *)

Definition act (a : action) (l : link) : option (outcome link) :=
  let on_clnt (o : option DemuxClnt) := (λ d, Ret (with_clnt d l)) <$> o in
  match a with
  | ACall b => on_clnt (Some (start_call b (clnt l)))
  | ATag i => on_clnt (call_tag i (clnt l))
  | APut i => on_clnt (call_put i (clnt l))
  | AWrite i fault => call_write i fault l
  | ARead fail => reader_read fail l
  | AHandOver => on_clnt (hand_over (clnt l))
  | AReaderClose => on_clnt (reader_close (clnt l))
  | AOutstanding ts => on_clnt (reader_outstanding ts (clnt l))
  | ADrain => (λ o, d ← o; Ret (with_clnt d l)) <$> reader_drain (clnt l)
  | AClose => Some (Ret (with_clnt (
      {| callmap := callmap (clnt l); nextTag := nextTag (clnt l); c_werr := c_werr (clnt l); pool := pool (clnt l);
         rd := rd (clnt l); closers := closers (clnt l) ++ [KCheck] |}) l))
  | AClosing j => Ret <$> close_step j l
  | ASrvInit fail => NewDemuxSrv fail l
  | ASrvRead fail => srv_read fail l
  | AServe h b ok => (λ s, Ret (with_srv s l)) <$> serve_done h b ok (srv l)
  | ASrvWrite h fault => serve_write h fault l
  | ASrvClose => Some (Ret (srv_close l))
  | ASrvDies => Some (Ret (close_s l))
  end.

Fixpoint run (acts : list action) (l : link) : option (outcome link) :=
  match acts with
  | [] => Some (Ret l)
  | a :: acts' => match act a l with
                  | Some (Ret l') => run acts' l'
                  | o => o
                  end
  end.

(** a client that connected, and a server that accepted it *)
Definition connect (name : string) : outcome (option link) :=
  match NewDemuxClnt name None with
  | Ret (Some (d, out)) =>
      Ret (Some {| clnt := d; srv := new_srv; c2s := out; s2c := []; c_down := false; s_down := false |})
  | Ret None => Ret None
  | Fatal => Fatal
  | Panic => Panic
  end.
End demux.
