(* ===== verification/DemuxCalls.v ===== *)
(** * Every call over a connection gets its own reply

    The theorems about Demux: tags match replies with requests whatever the
    goroutines of both sides do and however the connection breaks, the client's
    reader never meets a reply without a request, and a connection that is lost
    ends every call. *)

From S2P Require Import Prelude LabRpc Transport Demux.
From Stdlib Require Import Strings.Byte.
Local Open Scope Z_scope.

(** ** The client *)

Definition drawn (d : DemuxClnt) : Z := 1 + zlen (omap c_t (pool d)).

Definition waiting (c : call) : Prop := c_pc c = CWrite ∨ c_pc c = CWait.

(** where the reader is in its drain: the calls it will still answer *)
Definition drain_ok (d : DemuxClnt) : Prop :=
  let closed := cm_closed (callmap d) = true in
  match rd d with
  | RRead | RClose | RSend _ _ None => True
  | ROutstanding => closed
  | RSend _ _ (Some ts) | RDrain ts => closed ∧ NoDup ts ∧ ∀ t, t ∈ ts ↔ is_Some (calls (callmap d) !! t)
  | RExit => closed ∧ calls (callmap d) = ∅
  end.

(** tags: as many as calls that drew one, all different *)
Record tags_inv (d : DemuxClnt) : Prop := {
  i_next : nextTag d = u32 (drawn d);
  i_tag : ∀ i c t, pool d !! i = Some c → c_t c = Some t → 1 ≤ t < drawn d;
  i_inj : ∀ i j c c' t, pool d !! i = Some c → pool d !! j = Some c' → c_t c = Some t → c_t c' = Some t → i = j;
  i_pc : ∀ i c, pool d !! i = Some c → c_t c = None ↔ c_pc c = CTag
}.

(** channels: a waiting call is registered or in the reader's hands *)
Record chans_inv (d : DemuxClnt) : Prop := {
  i_map : ∀ t i, calls (callmap d) !! t = Some i → ∃ c, pool d !! i = Some c ∧ c_t c = Some t ∧ waiting c;
  i_hold : ∀ i r k, rd d = RSend i r k → ∃ c t, pool d !! i = Some c ∧ c_t c = Some t ∧ waiting c
             ∧ calls (callmap d) !! t = None ∧ (k = None → c_pc c = CWait);
  i_wait : ∀ i c t, pool d !! i = Some c → c_t c = Some t → waiting c →
             calls (callmap d) !! t = Some i ∨ ∃ r k, rd d = RSend i r k;
  i_drain : drain_ok d
}.

Definition client_inv (d : DemuxClnt) : Prop := tags_inv d ∧ chans_inv d.

(** tags do not wrap around *)
Definition few_calls (d : DemuxClnt) : Prop := zlen (pool d) < 2 ^ 32 - 1.

Lemma omap_length (l : list call) : (length (omap c_t l) ≤ length l)%nat.
Proof. induction l as [|x l IH]; csimpl; [lia|]. destruct (c_t x); csimpl; lia. Qed.

Lemma drawn_set d i c c' : pool d !! i = Some c → c_t c' = c_t c → drawn (set_call i c' d) = drawn d.
Proof. intros Hi Hc. unfold drawn. simpl. by rewrite (omap_insert_same c_t _ i c). Qed.

Lemma set_lookup d i c c' j x : pool d !! i = Some c → pool (set_call i c' d) !! j = Some x →
  (j = i ∧ x = c') ∨ (j ≠ i ∧ pool d !! j = Some x).
Proof.
  intros Hi. simpl. destruct (decide (j = i)) as [->|]; [rewrite list_lookup_insert_eq by (by eapply lookup_lt_Some)|
    rewrite list_lookup_insert_ne by done]; naive_solver.
Qed.

Lemma set_lookup_eq d i c c' : pool d !! i = Some c → pool (set_call i c' d) !! i = Some c'.
Proof. intros Hi. simpl. apply list_lookup_insert_eq. by eapply lookup_lt_Some. Qed.
Lemma set_lookup_ne d i c' j : j ≠ i → pool (set_call i c' d) !! j = pool d !! j.
Proof. intros. simpl. by apply list_lookup_insert_ne. Qed.

(** a call goes on, keeping its tag *)
Lemma tags_set d i c c' : tags_inv d → pool d !! i = Some c → c_t c' = c_t c → (c_t c' = None ↔ c_pc c' = CTag) →
  tags_inv (set_call i c' d).
Proof.
  intros [I1 I2 I3 I4] Hi Ht Hp.
  assert (∀ j x t, pool (set_call i c' d) !! j = Some x → c_t x = Some t →
    ∃ y, pool d !! j = Some y ∧ c_t y = Some t) as Hold.
  { intros j x t [[-> ->]|[_ Hx]]%(set_lookup d i c c' j x Hi) Hxt; [|eauto]. exists c. by rewrite <-Ht. }
  split; rewrite ?(drawn_set d i c c') by done.
  - done.
  - intros j x t Hj Hx. destruct (Hold _ _ _ Hj Hx) as (y & ? & ?). by eapply I2.
  - intros j k x y t Hj Hk Hx Hy. destruct (Hold _ _ _ Hj Hx) as (? & ? & ?), (Hold _ _ _ Hk Hy) as (? & ? & ?).
    by eapply I3.
  - intros j x [[-> ->]|[_ Hx]]%(set_lookup d i c c' j x Hi); [done|by eapply I4].
Qed.

Lemma tags_same d d' : tags_inv d → nextTag d' = nextTag d → pool d' = pool d → tags_inv d'.
Proof.
  intros [I1 I2 I3 I4] Hn Hp. assert (drawn d' = drawn d) as Hd by (unfold drawn; by rewrite Hp).
  split; rewrite ?Hn, ?Hd, ?Hp; done.
Qed.

Lemma start_tags b d : tags_inv d → tags_inv (start_call b d).
Proof.
  intros [I1 I2 I3 I4].
  assert (drawn (start_call b d) = drawn d) as Hd.
  { unfold drawn. simpl. rewrite omap_app. simpl. by rewrite app_nil_r. }
  assert (∀ i c t, pool (start_call b d) !! i = Some c → c_t c = Some t → pool d !! i = Some c) as Hold.
  { intros i c t [[_ ->]|[_ ?]]%lookup_snoc_inv; done. }
  split; rewrite ?Hd; eauto.
  intros i c [[_ ->]|[_ ?]]%lookup_snoc_inv; [done|by eapply I4].
Qed.

Lemma tag_tags i d d' : few_calls d → tags_inv d → call_tag i d = Some d' → tags_inv d'.
Proof.
  intros Hfew [I1 I2 I3 I4] E. unfold call_tag in E. apply bind_Some in E as (c & Hi & E).
  destruct (c_pc c) eqn:Hpc; try done. simpl in E. injection E as <-.
  assert (c_t c = None) as Hnone by (by eapply I4).
  set (c' := {| c_b := c_b c; c_t := Some (nextTag d); c_pc := CPut |}).
  set (d' := set_call i c' _). assert (drawn d' = drawn d + 1) as Hd.
  { unfold drawn, zlen, d'. simpl. rewrite (omap_insert_new c_t _ _ c c' (nextTag d)), length_app by done. simpl. lia. }
  assert (0 < drawn d < 2 ^ 32) as Hr.
  { unfold few_calls, drawn, zlen in *. pose proof (omap_length (pool d)). lia. }
  assert (nextTag d = drawn d) as Hn by (rewrite I1; unfold u32; apply Z.mod_small; lia).
  assert (∀ j x, pool d' !! j = Some x → (j = i ∧ x = c') ∨ (j ≠ i ∧ pool d !! j = Some x)) as Hl.
  { intros j x. apply (set_lookup (snd (tag d)) i c c' j x Hi). }
  split; rewrite ?Hd.
  - simpl. rewrite Hn. unfold u32. done.
  - intros j x t [[-> ->]|[_ Hx]]%Hl Ht; [injection Ht as <-; lia|]. pose proof (I2 _ _ _ Hx Ht). lia.
  - intros j k x y t [[-> ->]|[? Hx]]%Hl [[-> ->]|[? Hy]]%Hl Htx Hty; [done|..|by eapply I3].
    + injection Htx as <-. pose proof (I2 _ _ _ Hy Hty). lia.
    + injection Hty as <-. pose proof (I2 _ _ _ Hx Htx). lia.
  - intros j x [[-> ->]|[_ Hx]]%Hl; [by split|by eapply I4].
Qed.

(** *** Channels *)

Lemma start_chans b d : chans_inv d → chans_inv (start_call b d).
Proof.
  intros [I5 I6 I7 I8].
  assert (∀ i c, pool d !! i = Some c → pool (start_call b d) !! i = Some c) as Hnew.
  { intros i c Hi. simpl. by apply lookup_app_l_Some. }
  split; [| | |exact I8].
  - intros t i Hm. destruct (I5 t i Hm) as (c & ? & ?). eauto.
  - intros i r k Hr. destruct (I6 i r k Hr) as (c & t & ? & ?). exists c, t. eauto.
  - intros i c t [[_ ->]|[_ Hi]]%lookup_snoc_inv Ht Hw; [done|]. by apply (I7 i c t).
Qed.

(** a call that is not waiting goes on *)
Lemma chans_idle d i c c' : chans_inv d → pool d !! i = Some c → ¬ waiting c → ¬ waiting c' → chans_inv (set_call i c' d).
Proof.
  intros [I5 I6 I7 I8] Hi Hw Hw'. split; [| | |exact I8].
  - intros t j Hm. destruct (I5 t j Hm) as (x & Hx & ? & Hwx). exists x. split; [|done].
    rewrite set_lookup_ne; [done|]. intros ->. congruence.
  - intros j r k Hr. destruct (I6 j r k Hr) as (x & t & Hx & ? & Hwx & ?). exists x, t. split; [|done].
    rewrite set_lookup_ne; [done|]. intros ->. congruence.
  - intros j x t [[-> ->]|[_ Hx]]%(set_lookup d i c c' j x Hi) Ht Hwx; [done|]. by apply (I7 j x t).
Qed.

Lemma chans_ext d d' : chans_inv d → pool d' = pool d → callmap d' = callmap d → rd d' = rd d → chans_inv d'.
Proof.
  intros [I5 I6 I7 I8] Hp Hm Hr. split; rewrite ?Hp, ?Hm, ?Hr; try done. unfold drain_ok. by rewrite Hr, Hm.
Qed.

Lemma tag_chans i d d' : tags_inv d → chans_inv d → call_tag i d = Some d' → chans_inv d'.
Proof.
  intros HT HC E. unfold call_tag in E. apply bind_Some in E as (c & Hi & E).
  destruct (c_pc c) eqn:Hpc; try done. simpl in E. injection E as <-.
  eapply chans_idle; [by eapply chans_ext|exact Hi|..]; unfold waiting; simpl; rewrite ?Hpc; naive_solver.
Qed.

(** a call registers: its tag is new, and nothing is registered in a drain *)
Lemma put_inv i d d' : client_inv d → call_put i d = Some d' → client_inv d'.
Proof.
  intros [HT HC] E. unfold call_put in E. apply bind_Some in E as (c & Hi & E).
  destruct (c_pc c) eqn:Hpc; try done. destruct (c_t c) as [t|] eqn:Ht; [|done]. injection E as <-.
  assert (¬ waiting c) as Hw by (unfold waiting; rewrite Hpc; naive_solver).
  unfold put. destruct (cm_closed (callmap d)) eqn:Hcl.
  { split; [apply (tags_set d i c); simpl; try done; by rewrite Ht|].
    eapply chans_idle; [done..|]. unfold waiting. simpl. naive_solver. }
  split; [apply (tags_set _ i c); simpl; try done; [by eapply tags_same|by rewrite Ht]|].
  destruct HC as [I5 I6 I7 I8]. destruct HT as [I1 I2 I3 I4].
  assert (calls (callmap d) !! t = None) as Hnew.
  { destruct (calls (callmap d) !! t) as [j|] eqn:Hm; [|done]. destruct (I5 t j Hm) as (x & Hx & Htx & Hwx).
    assert (j = i) as -> by (by eapply I3). congruence. }
  set (cm := {| cm_closed := false; calls := <[t := i]> (calls (callmap d)) |}).
  change (set_callmap _ d) with (set_callmap cm d).
  pose proof (set_lookup (set_callmap cm d) i c (at_pc c CWrite)) as Hl.
  assert (∀ j x, j ≠ i → pool d !! j = Some x → pool (set_call i (at_pc c CWrite) (set_callmap cm d)) !! j = Some x) as Hne.
  { intros. by rewrite set_lookup_ne. }
  split; simpl callmap; simpl rd.
  - intros t' j Hm. simpl in Hm. apply lookup_insert_Some in Hm as [[-> ->]|[Htt Hm]].
    + exists (at_pc c CWrite). split; [by apply (set_lookup_eq _ _ c)|]. split; [done|by left].
    + destruct (I5 t' j Hm) as (x & Hx & ? & ?). exists x. split; [|done]. apply Hne; [|done]. intros ->. congruence.
  - intros j r k Hr. destruct (I6 j r k Hr) as (x & t' & Hx & Htx & ? & ? & ?). exists x, t'.
    assert (j ≠ i) as Hji by (intros ->; congruence). split; [by apply Hne|]. split; [done|]. split; [done|]. split; [|done].
    simpl. rewrite lookup_insert_ne; [done|]. intros ->. by apply Hji, (I3 j i x c t').
  - intros j x t' [[-> ->]|[? Hx]]%(Hl j x Hi) Htx Hwx.
    + simpl in Htx. rewrite Ht in Htx. injection Htx as <-. left. simpl. by rewrite lookup_insert_eq.
    + destruct (I7 j x t' Hx Htx Hwx) as [|]; [left|by right]. simpl. rewrite lookup_insert_ne; [done|].
      intros ->. congruence.
  - unfold drain_ok in *. simpl. destruct (rd d) as [|? ? [|]| | | |]; try done; destruct I8; congruence.
Qed.

(** a call has written its request *)
Lemma write_inv i c b d : client_inv d → pool d !! i = Some c → c_pc c = CWrite →
  client_inv (set_c_werr b (set_call i (at_pc c CWait) d)).
Proof.
  intros [HT [I5 I6 I7 I8]] Hi Hpc.
  assert (waiting c) as Hw by (by left).
  assert (c_t c ≠ None) as Hnt by (intros Hn; apply (i_pc d HT i c Hi) in Hn; congruence).
  split.
  { eapply tags_same; [apply (tags_set d i c (at_pc c CWait) HT Hi); simpl; [done|naive_solver]|done..]. }
  eapply chans_ext; [|done..].
  assert (∀ j x, pool d !! j = Some x → ∃ y, pool (set_call i (at_pc c CWait) d) !! j = Some y ∧ c_t y = c_t x
    ∧ (waiting x → waiting y) ∧ (c_pc x = CWait → c_pc y = CWait)) as Hex.
  { intros j x Hx. destruct (decide (j = i)) as [->|].
    - rewrite Hi in Hx. injection Hx as <-. exists (at_pc c CWait). rewrite (set_lookup_eq _ _ c) by done.
      split_and!; try done. by right.
    - exists x. by rewrite set_lookup_ne. }
  split; [| | |exact I8].
  - intros t j Hm. destruct (I5 t j Hm) as (x & Hx & Htx & Hwx). destruct (Hex j x Hx) as (y & ? & Hy & ? & _).
    rewrite Htx in Hy. eauto.
  - intros j r k Hr. destruct (I6 j r k Hr) as (x & t & Hx & Htx & Hwx & Hn & Hk).
    destruct (Hex j x Hx) as (y & ? & Hy & ? & ?). rewrite Htx in Hy. exists y, t. split_and!; auto.
  - intros j x t [[-> ->]|[_ Hx]]%(set_lookup d i c (at_pc c CWait) j x Hi) Ht Hwx; [by apply (I7 i c t)|by apply (I7 j x t)].
Qed.

(** *** The reader *)

Lemma client_set_rd pc d : client_inv d → (∀ i r k, rd d ≠ RSend i r k) → (∀ i r k, pc ≠ RSend i r k) →
  drain_ok (set_rd pc d) → client_inv (set_rd pc d).
Proof.
  intros [HT [I5 I6 I7 I8]] Hr Hpc Hd. split; [by eapply tags_same|]. split; try done.
  - intros i r k E. by destruct (Hpc i r k).
  - intros i c t Hi Ht Hw. destruct (I7 i c t Hi Ht Hw) as [|(r & k & E)]; [by left|by destruct (Hr i r k)].
Qed.

Lemma client_close d : client_inv d → client_inv (set_callmap (cm_close (callmap d)) d).
Proof.
  intros [HT [I5 I6 I7 I8]]. split; [by eapply tags_same|]. split; try done.
  unfold drain_ok in *. simpl. destruct (rd d) as [|? ? [|]| | | |]; naive_solver.
Qed.

(** the reply to a registered call *)
Lemma reply_inv t r k d d' : client_inv d → (∀ i r k, rd d ≠ RSend i r k) → reply_to t r k d = Ret d' →
  match k with
  | None => ∀ i c, calls (callmap d) !! t = Some i → pool d !! i = Some c → c_pc c = CWait
  | Some ts => drain_ok (set_rd (RDrain (t :: ts)) d)
  end → client_inv d'.
Proof.
  intros [HT [I5 I6 I7 I8]] Hr E Hk. unfold reply_to, remove in E.
  destruct (calls (callmap d) !! t) as [i|] eqn:Hm; [|done]. injection E as <-.
  split; [by eapply tags_same|]. destruct (I5 t i Hm) as (c & Hi & Ht & Hw). split.
  - intros t' j Hm'. simpl in Hm'. apply lookup_delete_Some in Hm' as [_ Hm']. by apply I5.
  - intros j r' k' [= <- <- <-]. exists c, t. split_and!; try done; [apply lookup_delete_eq|].
    intros ->. by apply (Hk i).
  - intros j x t' Hj Ht' Hwx. destruct (I7 j x t' Hj Ht' Hwx) as [Hm'|(r' & k' & E)]; [|by destruct (Hr j r' k')].
    destruct (decide (t' = t)) as [->|]; [right|left].
    + rewrite Hm in Hm'. injection Hm' as <-. by exists r, k.
    + simpl. by rewrite lookup_delete_ne.
  - unfold drain_ok in *. destruct k as [ts|]; [|done]. simpl in *.
    destruct Hk as (Hcl & Hnd & Hts). apply NoDup_cons in Hnd as [Hnt Hnd].
    split; [done|]. split; [done|]. intros t'. destruct (decide (t' = t)) as [->|].
    + rewrite lookup_delete_eq. split; [done|by intros [? ?]].
    + rewrite lookup_delete_ne, <-Hts, elem_of_cons by done. naive_solver.
Qed.

(** the reply reaches its call *)
Lemma hand_over_inv d d' : client_inv d → hand_over d = Some d' → client_inv d'.
Proof.
  intros [HT [I5 I6 I7 I8]] E. unfold hand_over in E. destruct (rd d) as [|i r k| | | |] eqn:Hr; try done.
  apply bind_Some in E as (c & Hi & E). destruct (c_pc c) eqn:Hpc; try done. injection E as <-.
  destruct (I6 i r k eq_refl) as (c0 & t & Hi0 & Ht & Hw & Hn & _). rewrite Hi in Hi0. injection Hi0 as <-.
  set (d1 := set_rd _ d). assert (tags_inv d1) as HT1 by (by eapply tags_same). split.
  { apply (tags_set d1 i c); simpl; try done. by rewrite Ht. }
  pose proof (set_lookup d1 i c (at_pc c (CDone r))) as Hl. split.
  - intros t' j Hm. change (calls (callmap d) !! t' = Some j) in Hm.
    destruct (I5 t' j Hm) as (x & Hx & Htx & Hwx). exists x. split; [|done].
    rewrite set_lookup_ne; [done|]. intros ->. congruence.
  - intros j r' k' E. simpl in E. by destruct k.
  - intros j x t' [[-> ->]|[Hne Hx]]%(Hl j x Hi) Htx Hwx; [destruct Hwx; done|].
    destruct (I7 j x t' Hx Htx Hwx) as [|(r' & k' & [= <- <- <-])]; [by left|done].
  - unfold drain_ok in *. simpl in *. rewrite Hr in I8. by destruct k.
Qed.

Lemma outstanding_inv ts d d' : client_inv d → reader_outstanding ts d = Some d' → client_inv d'.
Proof.
  intros HI E. unfold reader_outstanding in E. destruct (rd d) eqn:Hr; try done.
  destruct (outstanding _ _) eqn:Ho; [|done]. injection E as <-.
  apply andb_true_iff in Ho as [Hnd%bool_decide_eq_true Hdom%bool_decide_eq_true].
  apply client_set_rd; [done|by rewrite Hr|done|]. destruct HI as [_ [_ _ _ I8]].
  unfold drain_ok in *. rewrite Hr in I8. simpl. split; [done|]. split; [done|]. intros t.
  rewrite <-elem_of_dom, <-Hdom. by rewrite elem_of_list_to_set.
Qed.

Lemma drain_inv d o : client_inv d → reader_drain d = Some o → ∃ d', o = Ret d' ∧ client_inv d'.
Proof.
  intros HI E. unfold reader_drain in E. destruct (rd d) as [| | | |[|t ts]|] eqn:Hr; try done; injection E as <-.
  - exists (set_rd RExit d). split; [done|]. apply client_set_rd; [done|by rewrite Hr|done|].
    destruct HI as [_ [_ _ _ I8]]. unfold drain_ok in *. rewrite Hr in I8. destruct I8 as (? & _ & Hts).
    split; [done|]. apply map_eq. intros t. destruct (calls (callmap d) !! t) as [i|] eqn:Hm; [|done].
    assert (t ∈ []) as []%not_elem_of_nil. apply Hts. simpl. by rewrite Hm.
  - destruct HI as [HT HC]. pose proof (i_drain d HC) as I8. unfold drain_ok in I8. rewrite Hr in I8.
    destruct I8 as (? & ? & Hts). destruct (proj1 (Hts t)) as [i Hm]; [by left|].
    unfold reply_to, remove. rewrite Hm. eexists. split; [done|].
    eapply (reply_inv t reader_fail (Some ts) d); [done|by rewrite Hr| |done].
    unfold reply_to, remove. by rewrite Hm.
Qed.

Section wire.
Context `{Gob msg} `{Gob InitMsg}.

(** gob: what is encoded is decoded; messages stay below 4 GiB *)
Hypothesis wire : ∀ m e, gob_encode (A:=msg) m = Some e → gob_decode no_msg e = Some m ∧ zlen e < 2 ^ 32.

(** ** The messages in a stream *)

Definition blocked (p : bytes) : Prop :=
  ReadCall p false = Ret IoWait ∧ (ReadCall p true = Ret IoEOF ∨ ReadCall p true = Ret IoUnexpectedEOF).

(** whole messages, and after a failed write perhaps a piece of one *)
Definition stream (ms : list msg) (s : bytes) (werr : bool) : Prop :=
  ∃ bs p, s = mjoin bs ++ p ∧ Forall2 sends ms bs ∧ blocked p ∧ (p = [] ∨ werr = true).

Lemma blocked_nil : blocked [].
Proof. split; [done|by left]. Qed.

Lemma stream_nil : stream [] [] false.
Proof. exists [], []. split; [done|]. split; [done|]. split; [apply blocked_nil|by left]. Qed.

Lemma stream_cases ms s w closed : stream ms s w →
  (∃ m ms' rest, ms = m :: ms' ∧ ReadCall s closed = Ret (IoDone (m, rest)) ∧ stream ms' rest w)
  ∨ (ms = [] ∧ ReadCall s closed = Ret IoWait ∧ closed = false)
  ∨ (ms = [] ∧ (ReadCall s closed = Ret IoEOF ∨ ReadCall s closed = Ret IoUnexpectedEOF)).
Proof.
  intros (bs & p & -> & Hs & Hb & Hp). destruct Hs as [|m b ms bs Hmb Hs].
  - right. simpl. destruct Hb as [Hw He]. destruct closed; [by right|by left].
  - left. exists m, ms, (mjoin bs ++ p). split; [done|]. split; [|by exists bs, p].
    simpl. rewrite <-app_assoc. by apply ReadCall_frame.
Qed.

Lemma stream_read ms s w closed m rest : stream ms s w → ReadCall s closed = Ret (IoDone (m, rest)) →
  ∃ ms', ms = m :: ms' ∧ stream ms' rest w.
Proof.
  intros Hs E. destruct (stream_cases ms s w closed Hs) as [(m' & ms' & r & -> & E' & Hr)|[(_ & E' & _)|(_ & [E'|E'])]];
    rewrite E in E'; try done. injection E' as <- <-. by exists ms'.
Qed.

Lemma frame_sends m e : gob_encode m = Some e → sends m (frame e).
Proof. intros He. destruct (wire m e He). by exists e. Qed.

Lemma stream_write ms s w fault m err out : stream ms s w → WriteCall w fault m = Ret (err, out) →
  ∃ ms', (ms' = [] ∨ ms' = [m]) ∧ stream (ms ++ ms') (s ++ out) err.
Proof.
  intros (bs & p & -> & Hs & Hb & Hp) E. unfold WriteCall, Marshall in E.
  destruct (gob_encode m) as [e|] eqn:He; [|done]. simpl in E. pose proof (frame_sends m e He) as Hm.
  destruct w; [injection E as <- <-|destruct Hp as [->|]; [rewrite app_nil_r|done]].
  { exists []. split; [by left|]. rewrite !app_nil_r. exists bs, p. by split_and!; try right. }
  assert (stream (ms ++ [m]) (mjoin bs ++ frame e) err) as Hall.
  { exists (bs ++ [frame e]), []. split; [rewrite join_app; simpl; by rewrite !app_nil_r|].
    split; [by apply Forall2_app; [|constructor]|]. split; [apply blocked_nil|by left]. }
  destruct fault as [k|]; injection E as <- <-; [|exists [m]; split; [by right|done]].
  destruct (decide (k < length (frame e))%nat) as [Hk|Hk].
  - exists []. split; [by left|]. rewrite app_nil_r. exists bs, (take k (frame e)). split; [done|]. split; [done|].
    destruct (ReadCall_prefix m (frame e) k Hm Hk) as [H1 H2]. split; [|by right].
    split; [done|]. rewrite H2. case_decide; [by left|by right].
  - exists [m]. split; [by right|]. by rewrite take_ge by lia.
Qed.

(** ** Requests and replies *)

(** a call that has written, or tried to write, this request *)
Definition asked (d : DemuxClnt) (t : Ttag) (b : bytes) : Prop :=
  ∃ i c, pool d !! i = Some c ∧ c_t c = Some t ∧ c_b c = b ∧ c_pc c ≠ CPut ∧ c_pc c ≠ CWrite.

(** the reader has not met an error *)
Definition reading (pc : reader_pc) : bool :=
  match pc with RRead | RSend _ _ None => true | _ => false end.

Definition finished (x : handler) : bool := match h_pc x with HDone _ _ => true | _ => false end.

(** a request or a reply with this tag is on its way *)
Definition in_flight (rs : list msg) (hs : list handler) (qs : list msg) (t : Ttag) : Prop :=
  t ∈ Tag <$> rs ∨ (∃ x, x ∈ hs ∧ h_t x = t ∧ finished x = false) ∨ t ∈ Tag <$> qs.

(** the server has answered the call: request, answer *)
Definition served (hs : list handler) (t : Ttag) (b : bytes) (r : reply) : Prop :=
  ∃ x, x ∈ hs ∧ h_t x = t ∧ h_req x = b ∧ h_pc x = HDone (rep r) (rep_ok r).

(** what a call has, or is being handed *)
Definition gets (d : DemuxClnt) (i : nat) (c : call) (r : reply) : Prop :=
  c_pc c = CDone r ∨ ∃ k, rd d = RSend i r k.

Record calls_inv (d : DemuxClnt) (rs : list msg) (hs : list handler) (qs : list msg) : Prop := {
  r_once : NoDup ((Tag <$> rs) ++ (h_t <$> hs));
  r_replies : NoDup (Tag <$> qs);
  r_done : ∀ q, q ∈ qs → ∃ x, x ∈ hs ∧ h_t x = Tag q ∧ h_pc x = HDone (Data q) (Ok q);
  r_asked : ∀ m, m ∈ rs → asked d (Tag m) (Data m);
  r_served : ∀ x, x ∈ hs → asked d (h_t x) (h_req x);
  r_live : reading (rd d) = true → ∀ t, in_flight rs hs qs t → is_Some (calls (callmap d) !! t);
  r_answer : ∀ i c t r, pool d !! i = Some c → c_t c = Some t → gets d i c r → rep_err r = false →
               served hs t (c_b c) r
}.

(** the client moves on, with the same messages on their way *)
Lemma calls_mono d d' rs hs qs : calls_inv d rs hs qs →
  (∀ t b, asked d t b → asked d' t b) →
  (reading (rd d') = true → reading (rd d) = true ∧
     ∀ t, is_Some (calls (callmap d) !! t) → is_Some (calls (callmap d') !! t)) →
  (∀ i c t r, pool d' !! i = Some c → c_t c = Some t → gets d' i c r → rep_err r = false →
     ∃ c0, pool d !! i = Some c0 ∧ c_t c0 = Some t ∧ c_b c0 = c_b c ∧ gets d i c0 r) →
  calls_inv d' rs hs qs.
Proof.
  intros [R1 R2 R3 R4 R5 R6 R7] Ha Hl Hg. split; try done.
  - intros m Hm. by apply Ha, R4.
  - intros x Hx. by apply Ha, R5.
  - intros Hr t Ht. destruct (Hl Hr) as [Hr' Hm]. by apply Hm, R6.
  - intros i c t r Hi Ht Hgr He. destruct (Hg i c t r Hi Ht Hgr He) as (c0 & ? & ? & <- & ?). by eapply R7.
Qed.

(** one call changes *)
Lemma asked_set d d' i c c' : pool d !! i = Some c → pool d' = <[i := c']> (pool d) →
  (∀ t, c_t c = Some t → c_pc c ≠ CPut → c_pc c ≠ CWrite →
     c_t c' = Some t ∧ c_b c' = c_b c ∧ c_pc c' ≠ CPut ∧ c_pc c' ≠ CWrite) →
  ∀ t b, asked d t b → asked d' t b.
Proof.
  intros Hi Hp Hc t b (j & x & Hj & Ht & Hb & H1 & H2). destruct (decide (j = i)) as [->|Hne].
  - rewrite Hi in Hj. injection Hj as <-. destruct (Hc t Ht H1 H2) as (? & Hb' & ? & ?).
    exists i, c'. rewrite Hp, list_lookup_insert_eq by (by eapply lookup_lt_Some). by rewrite Hb'.
  - exists j, x. rewrite Hp, list_lookup_insert_ne by done. done.
Qed.

Lemma calls_set d d' i c c' rs hs qs : calls_inv d rs hs qs →
  pool d !! i = Some c → pool d' = <[i := c']> (pool d) →
  (∀ t, c_t c = Some t → c_pc c ≠ CPut → c_pc c ≠ CWrite →
     c_t c' = Some t ∧ c_b c' = c_b c ∧ c_pc c' ≠ CPut ∧ c_pc c' ≠ CWrite) →
  (reading (rd d') = true → reading (rd d) = true ∧
     ∀ t, is_Some (calls (callmap d) !! t) → is_Some (calls (callmap d') !! t)) →
  (∀ t r, c_t c' = Some t → gets d' i c' r → rep_err r = false → c_t c = Some t ∧ c_b c = c_b c' ∧ gets d i c r) →
  (∀ j r k, j ≠ i → rd d' = RSend j r k → rd d = RSend j r k) →
  calls_inv d' rs hs qs.
Proof.
  intros HI Hi Hp Hc Hl Hg Hr. apply (calls_mono d); [done|by eapply asked_set|done|].
  intros j x t r Hj Ht Hx He. rewrite Hp in Hj. destruct (decide (j = i)) as [->|Hne].
  - rewrite list_lookup_insert_eq in Hj by (by eapply lookup_lt_Some). injection Hj as <-.
    exists c. destruct (Hg t r Ht Hx He) as (? & ? & ?). done.
  - rewrite list_lookup_insert_ne in Hj by done. exists x. split_and!; try done.
    destruct Hx as [|[k Hk]]; [by left|right]. exists k. by eapply Hr.
Qed.

Lemma start_calls b d rs hs qs : calls_inv d rs hs qs → calls_inv (start_call b d) rs hs qs.
Proof.
  intros HI. apply (calls_mono d); [done|..|done|].
  - intros t x (i & c & Hi & ?). exists i, c. split; [|done]. simpl. by apply lookup_app_l_Some.
  - intros i c t r [[_ ->]|[_ Hi]]%lookup_snoc_inv Ht Hg _; [done|]. by exists c.
Qed.

(** the reader holds no call that is not waiting *)
Lemma not_held d i c r k : client_inv d → pool d !! i = Some c → ¬ waiting c → rd d ≠ RSend i r k.
Proof.
  intros [_ HC] Hi Hw Hr. destruct (i_hold d HC i r k Hr) as (x & _ & Hx & _ & Hwx & _). congruence.
Qed.

Lemma tag_calls i d d' rs hs qs : client_inv d → calls_inv d rs hs qs → call_tag i d = Some d' → calls_inv d' rs hs qs.
Proof.
  intros HC HI E. unfold call_tag in E. apply bind_Some in E as (c & Hi & E).
  destruct (c_pc c) eqn:Hpc; try done. simpl in E. injection E as <-.
  assert (c_t c = None) as Hn by (by apply (i_pc d (proj1 HC) i c Hi)).
  eapply (calls_set d _ i c); [done|done|reflexivity|by rewrite Hn|done| |done].
  intros t r _ [?|[k Hk]]; [done|]. exfalso. eapply (not_held d i c); [done..| |exact Hk].
  unfold waiting. rewrite Hpc. naive_solver.
Qed.

Lemma put_calls i d d' rs hs qs : client_inv d → calls_inv d rs hs qs → call_put i d = Some d' → calls_inv d' rs hs qs.
Proof.
  intros HC HI E. unfold call_put in E. apply bind_Some in E as (c & Hi & E).
  destruct (c_pc c) eqn:Hpc; try done. destruct (c_t c) as [t|] eqn:Ht; [|done].
  assert (∀ r k, rd d ≠ RSend i r k) as Hnh.
  { intros r k. apply (not_held d i c); [done..|]. unfold waiting. rewrite Hpc. naive_solver. }
  unfold put in E. destruct (cm_closed (callmap d)); injection E as <-.
  - eapply (calls_set d _ i c); [done|done|reflexivity|by rewrite Hpc|done| |done].
    intros t' r _ [[= <-]|[k Hk]]; [done|by destruct (Hnh r k)].
  - eapply (calls_set d _ i c); [done|done|reflexivity|by rewrite Hpc| | |done].
    + simpl. intros. split; [done|]. intros t' [j Hj]. destruct (decide (t' = t)) as [->|].
      * rewrite lookup_insert_eq. by eexists.
      * rewrite lookup_insert_ne by done. by exists j.
    + intros t' r _ [?|[k Hk]]; [done|by destruct (Hnh r k)].
Qed.

Lemma tag_of d rs hs qs i c t b : client_inv d → calls_inv d rs hs qs → pool d !! i = Some c → c_t c = Some t →
  asked d t b → c_b c = b ∧ c_pc c ≠ CPut ∧ c_pc c ≠ CWrite.
Proof.
  intros [HT _] _ Hi Ht (j & x & Hj & Htx & Hb & ? & ?). assert (j = i) as -> by (by eapply (i_inj d HT)).
  rewrite Hi in Hj. injection Hj as <-. done.
Qed.

Lemma write_calls i c t b w d rs hs qs ms' : client_inv d → calls_inv d rs hs qs →
  pool d !! i = Some c → c_t c = Some t → c_pc c = CWrite → 
  (ms' = [] ∨ ms' = [{| Tag := t; Data := c_b c; Ok := b |}]) →
  calls_inv (set_c_werr w (set_call i (at_pc c CWait) d)) (rs ++ ms') hs qs.
Proof.
  intros HC HI Hi Ht Hpc Hms. set (d' := set_c_werr w _).
  assert (calls_inv d' rs hs qs) as [R1 R2 R3 R4 R5 R6 R7].
  { eapply (calls_set d _ i c (at_pc c CWait)); [done|done|reflexivity|by rewrite Hpc|done| |done].
    intros t' r Ht' [?|[k Hk]]; [done|]. intros _. split_and!; try done. right. by exists k. }
  destruct Hms as [->| ->]; [by rewrite app_nil_r|].
  assert (∀ x, asked d t x → False) as Hna.
  { intros x Hx. destruct (tag_of _ _ _ _ _ _ _ _ HC HI Hi Ht Hx) as (_ & _ & ?). congruence. }
  split; try done.
  - rewrite fmap_app, <-app_assoc. simpl. rewrite Permutation_app_comm. simpl. constructor.
    + rewrite elem_of_app, !list_elem_of_fmap. intros [(x & -> & Hx)|(m & -> & Hm)].
      * eapply Hna, (r_served d rs hs qs); [done|exact Hx].
      * eapply Hna, (r_asked d rs hs qs); [done|exact Hm].
    + by rewrite Permutation_app_comm.
  - intros m [Hm| ->%list_elem_of_singleton]%elem_of_app; [by apply R4|]. simpl.
    exists i, (at_pc c CWait). split; [by apply (set_lookup_eq d i c)|]. done.
  - intros Hr t' [Ht'|Ht']; [|apply R6; [done|by right]].
    rewrite fmap_app in Ht'. apply elem_of_app in Ht' as [Ht'| ->%list_elem_of_singleton]; [by apply R6; [|left]|].
    simpl. destruct HC as [HT HC]. destruct (i_wait d HC i c t Hi Ht) as [Hm|(r & k & Hk)]; [by left|by exists i|].
    destruct (i_hold d HC i r k Hk) as (x & ? & Hx & _ & _ & _ & Hkn). simpl in Hr. rewrite Hk in Hr.
    destruct k; [done|]. specialize (Hkn eq_refl). congruence.
Qed.

(** a tag belongs to one goroutine of the server *)
Lemma same_tag (rs : list msg) hs x y : NoDup ((Tag <$> rs) ++ (h_t <$> hs)) → x ∈ hs → y ∈ hs → h_t x = h_t y → x = y.
Proof.
  intros (_ & _ & Hnd)%NoDup_app [a Ha]%list_elem_of_lookup [b Hb]%list_elem_of_lookup Ht.
  assert (a = b) as ->; [|congruence]. eapply (NoDup_lookup (h_t <$> hs)); [done|..]; rewrite list_lookup_fmap;
    [by rewrite Ha|rewrite Hb; simpl; congruence].
Qed.

(** ** The reader reads a reply *)

Lemma read_calls d rs hs qs m : client_inv d → rd d = RRead → calls_inv d rs hs (m :: qs) →
  ∃ d', reply_to (Tag m) {| rep := Data m; rep_ok := Ok m; rep_err := false |} None d = Ret d' ∧
    client_inv d' ∧ c_werr d' = c_werr d ∧ calls_inv d' rs hs qs.
Proof.
  intros HC Hrd HI. pose proof HI as [R1 R2 R3 R4 R5 R6 R7].
  destruct (R3 m) as (x & Hx & Htx & Hpx); [by left|].
  destruct (R6 ltac:(by rewrite Hrd) (Tag m)) as [i Hm]; [right; right; by left|].
  destruct (i_map d (proj2 HC) _ _ Hm) as (c & Hi & Ht & Hw).
  pose proof (R5 x Hx) as Hask. rewrite Htx in Hask.
  destruct (tag_of _ _ _ _ _ _ _ _ HC HI Hi Ht Hask) as (Hb & ? & ?).
  assert (reply_to (Tag m) {| rep := Data m; rep_ok := Ok m; rep_err := false |} None d = Ret
    (set_rd (RSend i {| rep := Data m; rep_ok := Ok m; rep_err := false |} None)
       (set_callmap {| cm_closed := cm_closed (callmap d); calls := delete (Tag m) (calls (callmap d)) |} d))) as E.
  { unfold reply_to, remove. by rewrite Hm. }
  eexists. split; [exact E|]. split.
  { eapply reply_inv; [done|by rewrite Hrd|exact E|]. intros j y Hj Hy.
    rewrite Hm in Hj. injection Hj as <-. rewrite Hi in Hy. injection Hy as <-. by destruct Hw. }
  split; [done|].
  simpl in R2. apply NoDup_cons in R2 as [Hnq R2]. split; simpl; try done.
  - intros q Hq. apply R3. by right.
  - intros _ t Hfl. assert (t ≠ Tag m) as Hne.
    { intros ->. destruct Hfl as [Hrs|[(y & Hy & Hty & Hf)|Hq]]; [|..|done].
      - apply NoDup_app in R1 as (_ & Hdis & _). eapply Hdis; [exact Hrs|]. rewrite <-Htx. by apply list_elem_of_fmap_2.
      - assert (x = y) as -> by (eapply (same_tag rs hs); [done..|congruence]). unfold finished in Hf. by rewrite Hpx in Hf. }
    rewrite lookup_delete_ne by done. apply R6; [by rewrite Hrd|].
    destruct Hfl as [?|[?|?]]; [by left|right; by left|right; right; by right].
  - intros j y t r Hj Hty [Hd|[k Hk]] He.
    + apply (R7 j y t r); [done..|by left|done].
    + injection Hk as <- <- _. rewrite Hi in Hj. injection Hj as <-. rewrite Ht in Hty. injection Hty as <-.
      exists x. simpl. by rewrite Hb.
Qed.

Lemma hand_over_calls d d' rs hs qs : client_inv d → calls_inv d rs hs qs → hand_over d = Some d' → calls_inv d' rs hs qs.
Proof.
  intros HC HI E. unfold hand_over in E. destruct (rd d) as [|i r k| | | |] eqn:Hr; try done.
  apply bind_Some in E as (c & Hi & E). destruct (c_pc c) eqn:Hpc; try done. injection E as <-.
  eapply (calls_set d _ i c (at_pc c (CDone r))); [done|done|reflexivity|done|..].
  - simpl. rewrite Hr. by destruct k.
  - intros t r' Ht [[= <-]|[k' Hk']] He; [|by destruct k]. split_and!; try done. right. by exists k.
  - intros j r' k' _ Hk'. by destruct k.
Qed.

(** the other steps of the reader and of [Close] *)
Lemma quiet_calls d d' rs hs qs : calls_inv d rs hs qs → pool d' = pool d →
  (reading (rd d') = true → reading (rd d) = true ∧ calls (callmap d') = calls (callmap d)) →
  (∀ i r k, rd d' = RSend i r k → rd d = RSend i r k ∨ rep_err r = true) → calls_inv d' rs hs qs.
Proof.
  intros HI Hp Hl Hr. apply (calls_mono d); [done|..].
  - intros t b (i & c & ?). exists i, c. by rewrite Hp.
  - intros Hrd. destruct (Hl Hrd) as [? ->]. done.
  - rewrite Hp. intros i c t r Hi Ht Hg He. exists c. split_and!; try done.
    destruct Hg as [|[k Hk]]; [by left|right]. exists k. destruct (Hr i r k Hk) as [|]; [done|congruence].
Qed.

(** ** The server *)

(** a goroutine changes, keeping its request; one that has finished stays *)
Lemma handler_set d rs hs qs h x x' : calls_inv d rs hs qs → hs !! h = Some x →
  h_t x' = h_t x → h_req x' = h_req x → finished x = false → calls_inv d rs (<[h := x']> hs) qs.
Proof.
  intros [R1 R2 R3 R4 R5 R6 R7] Hh Ht Hq Hf.
  assert (h_t <$> <[h := x']> hs = h_t <$> hs) as Hts.
  { rewrite list_fmap_insert, Ht. apply list_insert_id. by rewrite list_lookup_fmap, Hh. }
  assert (∀ y, y ∈ hs → y ≠ x → y ∈ <[h := x']> hs) as Hold.
  { intros y [j Hj]%list_elem_of_lookup Hne. apply list_elem_of_lookup. exists j.
    rewrite list_lookup_insert_ne; [done|]. congruence. }
  assert (∀ y, y ∈ <[h := x']> hs → y = x' ∨ y ∈ hs) as Hnew.
  { intros y [j Hj]%list_elem_of_lookup. destruct (decide (h = j)) as [->|].
    - rewrite list_lookup_insert_eq in Hj by (by eapply lookup_lt_Some). left. congruence.
    - rewrite list_lookup_insert_ne in Hj by done. right. by eapply list_elem_of_lookup_2. }
  split; rewrite ?Hts; try done.
  - intros q Hq'. destruct (R3 q Hq') as (y & Hy & Hty & Hpy). exists y. split; [|done]. apply Hold; [done|].
    intros ->. unfold finished in Hf. by rewrite Hpy in Hf.
  - intros y [->|Hy]%Hnew; [|by apply R5]. rewrite Ht, Hq. apply R5. by eapply list_elem_of_lookup_2.
  - intros Hr t Hfl. apply R6; [done|]. destruct Hfl as [|[(y & Hy & Hty & Hfy)|]]; [by left|right; left|right; by right].
    apply Hnew in Hy as [->|Hy]; [|by exists y]. exists x. rewrite <-Hty, Ht. split; [|done]. by eapply list_elem_of_lookup_2.
  - intros i c t r Hi Hct Hg He. destruct (R7 i c t r Hi Hct Hg He) as (y & Hy & Hty & Hqy & Hpy).
    exists y. split; [|done]. apply Hold; [done|]. intros ->. unfold finished in Hf. by rewrite Hpy in Hf.
Qed.

(** the reply of a goroutine goes out *)
Lemma reply_calls d rs hs qs h x b ok ms' : calls_inv d rs hs qs → hs !! h = Some x → h_pc x = HWrite b ok →
  (ms' = [] ∨ ms' = [{| Tag := h_t x; Data := b; Ok := ok |}]) →
  calls_inv d rs (<[h := {| h_t := h_t x; h_req := h_req x; h_pc := HDone b ok |}]> hs) (qs ++ ms').
Proof.
  intros HI Hh Hpc Hms. set (x' := {| h_t := h_t x; h_req := h_req x; h_pc := HDone b ok |}).
  assert (finished x = false) as Hf by (unfold finished; by rewrite Hpc).
  pose proof (handler_set d rs hs qs h x x' HI Hh eq_refl eq_refl Hf) as [R1 R2 R3 R4 R5 R6 R7].
  destruct Hms as [->| ->]; [by rewrite app_nil_r|].
  assert (x' ∈ <[h := x']> hs) as Hin.
  { apply list_elem_of_lookup. exists h. apply list_lookup_insert_eq. by eapply lookup_lt_Some. }
  split; try done.
  - rewrite fmap_app. simpl. apply NoDup_app. split; [done|]. split; [|apply NoDup_singleton].
    intros t (q & Hqt & Hq)%list_elem_of_fmap Ht. apply list_elem_of_singleton in Ht as ->.
    destruct (r_done _ _ _ _ HI q Hq) as (y & Hy & Hty & Hpy).
    assert (x = y) as <-; [|congruence]. eapply (same_tag rs hs); [apply HI|by eapply list_elem_of_lookup_2|done|congruence].
  - intros q [Hq| ->%list_elem_of_singleton]%elem_of_app; [by apply R3|by exists x'].
  - intros Hr t [?|[?|Ht]]; [apply R6; [done|by left]|apply R6; [done|right; by left]|].
    rewrite fmap_app in Ht. apply elem_of_app in Ht as [?| ->%list_elem_of_singleton]; [apply R6; [done|right; by right]|].
    apply (r_live _ _ _ _ HI Hr). right. left. exists x. split_and!; [by eapply list_elem_of_lookup_2|done|done].
Qed.

(** the server's reader starts a goroutine *)
Lemma spawn_calls d m rs hs qs : calls_inv d (m :: rs) hs qs →
  calls_inv d rs (hs ++ [{| h_t := Tag m; h_req := Data m; h_pc := HServe |}]) qs.
Proof.
  intros [R1 R2 R3 R4 R5 R6 R7]. split; try done.
  - rewrite fmap_app. simpl in *. rewrite app_assoc. by rewrite <-Permutation_cons_append.
  - intros q Hq. destruct (R3 q Hq) as (x & ? & ?). exists x. split; [apply elem_of_app; by left|done].
  - intros m' Hm. apply R4. by right.
  - intros x [Hx| ->%list_elem_of_singleton]%elem_of_app; [by apply R5|]. apply (R4 m). by left.
  - intros Hr t Hfl. apply R6; [done|]. destruct Hfl as [|[(x & [Hx| ->%list_elem_of_singleton]%elem_of_app & Ht & Hf)|]].
    + left. by right.
    + right. left. by exists x.
    + left. rewrite <-Ht. by left.
    + right. by right.
  - intros i c t r Hi Ht Hg He. destruct (R7 i c t r Hi Ht Hg He) as (x & ? & ?). exists x.
    split; [apply elem_of_app; by left|done].
Qed.

(** ** Everything together *)

Definition pending_requests (l : link) (rs : list msg) : Prop :=
  match s_pc (srv l) with
  | SInit => handlers (srv l) = [] ∧ ∃ m0, stream (m0 :: rs) (c2s l) (c_werr (clnt l))
  | _ => stream rs (c2s l) (c_werr (clnt l))
  end.

Definition link_inv (l : link) : Prop :=
  client_inv (clnt l) ∧ ∃ rs qs, calls_inv (clnt l) rs (handlers (srv l)) qs
    ∧ pending_requests l rs ∧ stream qs (s2c l) (s_werr (srv l)).

Lemma link_client d l : link_inv l → client_inv d → c_werr d = c_werr (clnt l) →
  (∀ rs qs, calls_inv (clnt l) rs (handlers (srv l)) qs → calls_inv d rs (handlers (srv l)) qs) →
  link_inv (with_clnt d l).
Proof.
  intros (_ & rs & qs & HI & Hp & Hq) HC Hw Hm. split; [done|]. exists rs, qs. split; [by apply Hm|].
  split; [|done]. unfold pending_requests in *. simpl. by rewrite Hw.
Qed.

Lemma write_link i fault l l' : link_inv l → call_write i fault l = Some (Ret l') → link_inv l'.
Proof.
  intros (HC & rs & qs & HI & Hp & Hq) E. unfold call_write in E. apply bind_Some in E as (c & Hi & E).
  destruct (c_pc c) eqn:Hpc; try done. destruct (c_t c) as [t|] eqn:Ht; [|done].
  destruct (may_write l fault); [|done]. injection E as E. apply outcome_bind_ret in E as ([err out] & Ew & [= <-]).
  split; [by apply write_inv|]. simpl.
  assert (∀ ms, stream ms (c2s l) (c_werr (clnt l)) → ∃ ms', (ms' = [] ∨ ms' = [{| Tag := t; Data := c_b c; Ok := true |}])
    ∧ stream (ms ++ ms') (c2s l ++ out) err) as Hst by (intros ms Hms; by eapply stream_write).
  unfold pending_requests in *. simpl. destruct (s_pc (srv l)).
  - destruct Hp as (Hh & m0 & Hs). destruct (Hst _ Hs) as (ms' & Hms & Hs'). exists (rs ++ ms'), qs.
    split; [by eapply write_calls|]. split; [|done]. split; [done|]. by exists m0.
  - destruct (Hst _ Hp) as (ms' & Hms & Hs'). exists (rs ++ ms'), qs. split; [by eapply write_calls|done].
  - destruct (Hst _ Hp) as (ms' & Hms & Hs'). exists (rs ++ ms'), qs. split; [by eapply write_calls|done].
Qed.

(** the reader of the client: [ReadCall] and what it leads to *)
Lemma read_link fail l o : link_inv l → reader_read fail l = Some o → ∃ l', o = Ret l' ∧ link_inv l'.
Proof.
  intros HL E. unfold reader_read in E. destruct (rd (clnt l)) eqn:Hr; try done.
  assert (link_inv (with_clnt (set_rd RClose (clnt l)) l)) as Hfail.
  { pose proof HL as (HC & _). apply link_client; [done| |done|].
    - apply client_set_rd; [done|by rewrite Hr|done|done].
    - intros rs qs HI. by eapply quiet_calls. }
  destruct fail; [destruct (down l); [injection E as <-; eauto|done]|]. destruct (c_down l); [done|].
  destruct HL as (HC & rs & qs & HI & Hp & Hq).
  destruct (stream_cases _ _ _ (s_down l) Hq) as [(m & qs' & rest & -> & Er & Hq')|[(_ & Er & _)|(_ & [Er|Er])]];
    rewrite Er in E; try (injection E as <-; eauto; fail); try done.
  injection E as <-. destruct (read_calls _ _ _ _ _ HC Hr HI) as (d' & -> & HC' & Hw & HI').
  eexists. split; [reflexivity|]. split; [done|]. exists rs, qs'. split; [done|]. split; [|done].
  unfold pending_requests in *. simpl. by rewrite Hw.
Qed.

Lemma drain_link l o : link_inv l → reader_drain (clnt l) = Some o → ∃ d, o = Ret d ∧ link_inv (with_clnt d l).
Proof.
  intros HL E. pose proof HL as (HC & _). destruct (drain_inv _ _ HC E) as (d & -> & HC').
  exists d. split; [done|]. unfold reader_drain in E. destruct (rd (clnt l)) as [| | | |[|t ts]|] eqn:Hr; try done.
  - injection E as <-. apply link_client; [done..|]. intros rs qs HI. by eapply quiet_calls.
  - injection E as E. unfold reply_to in E. destruct (remove t _) as [[i cm]|]; [|done]. injection E as <-.
    apply link_client; [done..|]. intros rs qs HI. eapply quiet_calls; [done..|].
    intros j r k [= <- <- <-]. by right.
Qed.

Lemma close_link j l l' : link_inv l → close_step j l = Some l' → link_inv l'.
Proof.
  intros HL E. unfold close_step in E. apply bind_Some in E as (k & Hj & E). pose proof HL as (HC & _).
  assert (∀ d, client_inv d → pool d = pool (clnt l) → rd d = rd (clnt l) → c_werr d = c_werr (clnt l) →
    calls (callmap d) = calls (callmap (clnt l)) → link_inv (with_clnt d l)) as Hq.
  { intros d Hd Hp Hr Hw Hm. apply link_client; [done..|]. intros rs qs HI. apply (quiet_calls (clnt l)); [done..| |].
    - rewrite Hr. done.
    - rewrite Hr. intros. by left. }
  assert (∀ k' d, client_inv d → client_inv (set_closer j k' d)) as Hset.
  { intros k' d [HT HCh]. split; [by eapply tags_same|by eapply chans_ext]. }
  destruct k; try done; injection E as <-.
  - apply Hq; try done. by apply Hset.
  - destruct (Hq (set_closer j KMap (clnt l))) as (? & ?); [by apply Hset|done..|]. done.
  - apply Hq; try done. by apply Hset, client_close.
Qed.

(** ** The steps of the server *)

Lemma init_link fail l l' : link_inv l → NewDemuxSrv fail l = Some (Ret l') → link_inv l'.
Proof.
  intros (HC & rs & qs & HI & Hp & Hq) E. unfold NewDemuxSrv, pending_requests in *.
  destruct (s_pc (srv l)) eqn:Hpc; try done. destruct Hp as (Hh & m0 & Hs).
  destruct fail; [by destruct (down l)|]. destruct (s_down l); [done|].
  destruct (stream_cases _ _ _ (c_down l) Hs) as [(m & rs' & rest & [= <- <-] & Er & Hs')|[(? & _)|(? & _)]]; try done.
  rewrite Er in E. injection E as E. apply outcome_bind_ret in E as (e & _ & [= <-]).
  split; [done|]. by exists rs, qs.
Qed.

Lemma srv_read_link fail l l' : link_inv l → srv_read fail l = Some (Ret l') → link_inv l'.
Proof.
  intros (HC & rs & qs & HI & Hp & Hq) E. unfold srv_read in E. unfold pending_requests in Hp.
  destruct (s_pc (srv l)) eqn:Hpc; try done.
  assert (∀ s, s_werr s = s_werr (srv l) → handlers s = handlers (srv l) → s_pc s = SExit → link_inv (with_srv s l)) as Hex.
  { intros s Hw Hh Hs. split; [done|]. exists rs, qs. simpl. rewrite Hh, Hw. unfold pending_requests. simpl. by rewrite Hs. }
  destruct fail; [destruct (down l); [|done]; injection E as <-; by apply Hex|]. destruct (s_down l); [done|].
  destruct (stream_cases _ _ _ (c_down l) Hp) as [(m & rs' & rest & -> & Er & Hs')|[(_ & Er & _)|(_ & [Er|Er])]];
    rewrite Er in E; try done; try (injection E as <-; by apply Hex).
  injection E as <-. split; [done|]. exists rs', qs. split; [by apply spawn_calls|]. split; [|done].
  unfold pending_requests. simpl. by rewrite Hpc.
Qed.

Lemma handlers_link l h x : link_inv l → handlers (srv l) !! h = Some x → s_pc (srv l) ≠ SInit.
Proof.
  intros (_ & rs & _ & _ & Hp & _) Hh Hs. unfold pending_requests in Hp. rewrite Hs in Hp. destruct Hp as [Hn _].
  by rewrite Hn in Hh.
Qed.

Lemma serve_link h b ok l s : link_inv l → serve_done h b ok (srv l) = Some s → link_inv (with_srv s l).
Proof.
  intros HL E. unfold serve_done in E. apply bind_Some in E as (x & Hh & E).
  pose proof (handlers_link l h x HL Hh) as Hs. destruct (h_pc x) eqn:Hx; try done. injection E as <-.
  destruct HL as (HC & rs & qs & HI & Hp & Hq). split; [done|]. exists rs, qs.
  split; [apply (handler_set _ _ _ _ h x); try done; unfold finished; by rewrite Hx|]. split; [|done].
  unfold pending_requests in *. simpl. by destruct (s_pc (srv l)).
Qed.

Lemma serve_write_link h fault l l' : link_inv l → serve_write h fault l = Some (Ret l') → link_inv l'.
Proof.
  intros HL E. unfold serve_write in E. apply bind_Some in E as (x & Hh & E).
  pose proof (handlers_link l h x HL Hh) as Hs. destruct (h_pc x) as [|b ok|] eqn:Hx; try done.
  destruct (may_write l fault); [|done]. injection E as E. apply outcome_bind_ret in E as ([err out] & Ew & [= <-]).
  destruct HL as (HC & rs & qs & HI & Hp & Hq). destruct (stream_write _ _ _ _ _ _ _ Hq Ew) as (ms' & Hms & Hq').
  split; [done|]. exists rs, (qs ++ ms'). split; [by apply reply_calls|]. split; [|done].
  unfold pending_requests in *. simpl. by destruct (s_pc (srv l)).
Qed.

Lemma down_link l l' : link_inv l → clnt l' = clnt l → srv l' = srv l ∨ srv l' = set_closed (srv l) →
  c2s l' = c2s l → s2c l' = s2c l → link_inv l'.
Proof.
  intros (HC & rs & qs & HI & Hp & Hq) H1 H2 H3 H4. split; [by rewrite H1|]. exists rs, qs.
  unfold pending_requests in *. rewrite H1, H3, H4. by destruct H2 as [->| ->].
Qed.

Lemma act_link a l l' : few_calls (clnt l) → link_inv l → act a l = Some (Ret l') → link_inv l'.
Proof.
  intros Hfew HL E. pose proof HL as (HC & _).
  destruct a; cbn [act] in E; try (apply fmap_Some in E as (d & E & [= ->])).
  - injection E as <-. apply link_client; [done| |done|intros; by apply start_calls].
    destruct HC. split; [by apply start_tags|by apply start_chans].
  - destruct HC as [HT HCh]. apply link_client; [done|split; [by eapply tag_tags|by eapply tag_chans]| |].
    + unfold call_tag in E. apply bind_Some in E as (c & _ & E). destruct (c_pc c); try done. by injection E as <-.
    + intros. by eapply tag_calls.
  - apply link_client; [done|by eapply put_inv| |intros; by eapply put_calls].
    unfold call_put in E. apply bind_Some in E as (c & _ & E). destruct (c_pc c), (c_t c); try done.
    injection E as <-. by destruct (put _ _ _).
  - by eapply write_link.
  - destruct (read_link fail l _ HL E) as (? & [= ->] & ?). done.
  - apply link_client; [done|by eapply hand_over_inv| |intros; by eapply hand_over_calls].
    unfold hand_over in E. destruct (rd (clnt l)); try done. apply bind_Some in E as (c & _ & E).
    destruct (c_pc c); try done. by injection E as <-.
  - unfold reader_close in E. destruct (rd (clnt l)) eqn:Hr; try done. injection E as <-.
    apply link_client; [done| |done|intros; by eapply quiet_calls].
    apply client_set_rd; [by apply client_close|by simpl; rewrite Hr|done|done].
  - apply link_client; [done|by eapply outstanding_inv| |].
    + unfold reader_outstanding in E. destruct (rd (clnt l)); try done. destruct (outstanding _ _); [|done]. by injection E as <-.
    + intros. unfold reader_outstanding in E. destruct (rd (clnt l)) eqn:Hr; try done.
      destruct (outstanding _ _); [|done]. injection E as <-. by eapply quiet_calls.
  - apply fmap_Some in E as (o & E & Eo). destruct (drain_link l _ HL E) as (d' & -> & HL'). by injection Eo as ->.
  - injection E as <-. apply link_client; [done| |done|].
    + destruct HC. split; [by eapply tags_same|by eapply chans_ext].
    + intros. eapply quiet_calls; [done..|]. intros. by left.
  - by eapply close_link.
  - by eapply init_link.
  - by eapply srv_read_link.
  - by eapply serve_link.
  - by eapply serve_write_link.
  - injection E as <-. unfold srv_close. destruct (s_closed (srv l)); [done|]. by eapply (down_link l); [..|right| |].
  - injection E as <-. by eapply (down_link l); [..|left| |].
Qed.

(** ** Runs *)

Definition is_call (a : action) : bool := match a with ACall _ => true | _ => false end.
Definition calls_of (acts : list action) : Z := zlen (filter is_call acts).

Lemma act_pool a l l' : act a l = Some (Ret l') →
  length (pool (clnt l')) = (length (pool (clnt l)) + if is_call a then 1 else 0)%nat.
Proof.
  destruct a; cbn [act is_call];
    unfold call_tag, tag, call_put, call_write, reader_read, reply_to, hand_over, reader_close, reader_outstanding,
      reader_drain, close_step, NewDemuxSrv, srv_read, serve_done, serve_write, srv_close;
    intros E;
    repeat (match goal with H : _ ≫= _ = Ret _ |- _ => apply outcome_bind_ret in H as (? & ? & ?) end
            || case_match || simplify_option_eq || simpl in *);
    simplify_eq/=; rewrite ?length_app, ?length_insert; simpl; try lia.
  unfold reply_to in *. repeat case_match; simplify_eq/=. lia.
Qed.

Lemma run_pool acts l l' : run acts l = Some (Ret l') →
  zlen (pool (clnt l')) = zlen (pool (clnt l)) + calls_of acts.
Proof.
  revert l. unfold calls_of, zlen. induction acts as [|a acts IH]; intros l; cbn [run]; [intros [= ->]; simpl; lia|].
  destruct (act a l) as [[l1| |]|] eqn:E; try done. intros Hr%IH. apply act_pool in E.
  rewrite filter_cons. destruct (is_call a); simpl in *; lia.
Qed.

Lemma run_link acts l l' : few_calls (clnt l') → link_inv l → run acts l = Some (Ret l') → link_inv l'.
Proof.
  intros Hfew. revert l. induction acts as [|a acts IH]; intros l HL; cbn [run]; [by intros [= <-]|].
  destruct (act a l) as [[l1| |]|] eqn:E; try done. intros Hr. apply (IH l1); [|done].
  eapply act_link; [|done..]. unfold few_calls in *. apply run_pool in Hr. apply act_pool in E.
  unfold calls_of, zlen in *. destruct (is_call a); lia.
Qed.

Lemma connect_link name l : connect name = Ret (Some l) → link_inv l ∧ pool (clnt l) = [].
Proof.
  unfold connect, NewDemuxClnt, WriteCall, Marshall. destruct (gob_encode {| Clnt := name |}) as [b|]; [|done].
  set (m0 := {| Tag := 0; Data := b; Ok := true |}). simpl. fold m0.
  destruct (gob_encode m0) as [e|] eqn:He; [|done]. simpl. intros [= <-]. split; [|done]. split.
  { split; split; simpl; try done; intros; try done; by destruct i. }
  exists [], []. split; [|split; [|apply stream_nil]].
  - split; simpl; try apply NoDup_nil; try done; try (by intros ? []%not_elem_of_nil).
    intros _ t [[]%not_elem_of_nil|[(x & []%not_elem_of_nil & _)|[]%not_elem_of_nil]].
  - split; [done|]. exists m0, [frame e], []. simpl. split; [by rewrite !app_nil_r|].
    split; [constructor; [by apply frame_sends|constructor]|]. split; [apply blocked_nil|by left].
Qed.

Lemma reached name acts l0 l : connect name = Ret (Some l0) → run acts l0 = Some (Ret l) → calls_of acts < 2 ^ 32 - 1 →
  link_inv l.
Proof.
  intros [HL Hp]%connect_link Hr Hc. eapply run_link; [|done..]. unfold few_calls. apply run_pool in Hr.
  rewrite Hr, Hp. unfold zlen. simpl. lia.
Qed.

(** C16. Every call gets its own reply: however the goroutines of client and
    server interleave and however the connection fails, as long as fewer than
    2^32 - 1 calls are made, a call that returns without an error has been
    served, exactly once, and returns what the server answered to its request;
    no other call has its tag. *)
Theorem call_own_reply name acts l0 l i c t r :
  connect name = Ret (Some l0) → run acts l0 = Some (Ret l) → calls_of acts < 2 ^ 32 - 1 →
  pool (clnt l) !! i = Some c → c_t c = Some t → c_pc c = CDone r → rep_err r = false →
  (∃ h x, handlers (srv l) !! h = Some x ∧ h_t x = t ∧ h_req x = c_b c ∧ h_pc x = HDone (rep r) (rep_ok r)
     ∧ ∀ h' x', handlers (srv l) !! h' = Some x' → h_t x' = t → h' = h)
  ∧ ∀ j c', pool (clnt l) !! j = Some c' → c_t c' = Some t → j = i.
Proof.
  intros Hc Hr Hn Hi Ht Hpc He. destruct (reached _ _ _ _ Hc Hr Hn) as ([HT _] & rs & qs & HI & _).
  split; [|intros j c' ??; by eapply (i_inj _ HT)].
  destruct (r_answer _ _ _ _ HI i c t r Hi Ht) as (x & Hx & Htx & Hq & Hp); [by left|done|].
  pose proof Hx as [h Hh]%list_elem_of_lookup. exists h, x. split_and!; try done. intros h' x' Hh' Ht'.
  pose proof (r_once _ _ _ _ HI) as (_ & _ & Hnd)%NoDup_app.
  eapply (NoDup_lookup (h_t <$> handlers (srv l))); [done|..]; rewrite list_lookup_fmap;
    [rewrite Hh'; simpl; by rewrite Ht'|rewrite Hh; simpl; by rewrite Htx].
Qed.

(** The reader of the client never ends the process: every reply it reads,
    and every reply it makes up when the connection is lost, is for a call that
    is registered. *)
Theorem reader_never_fatal name acts l0 l a o :
  connect name = Ret (Some l0) → run acts l0 = Some (Ret l) → calls_of acts < 2 ^ 32 - 1 →
  act a l = Some o → (∃ fail, a = ARead fail) ∨ a = ADrain → ∃ l', o = Ret l'.
Proof.
  intros Hc Hr Hn E Ha. pose proof (reached _ _ _ _ Hc Hr Hn) as HL. destruct Ha as [[fail ->]| ->].
  - destruct (read_link fail l o HL E) as (l' & -> & _). eauto.
  - apply fmap_Some in E as (o' & E & ->). destruct (drain_link l o' HL E) as (d & -> & _). simpl. eauto.
Qed.

(** ** A lost connection *)

Lemma run_app acts1 acts2 l : run (acts1 ++ acts2) l = match run acts1 l with Some (Ret l') => run acts2 l' | o => o end.
Proof.
  revert l. induction acts1 as [|a acts1 IH]; intros l; [done|]. cbn [run app].
  destruct (act a l) as [[l'| |]|]; [apply IH|done..].
Qed.

Definition settled (d : DemuxClnt) : Prop :=
  ∀ i c, pool d !! i = Some c → c_pc c = CWait ∨ ∃ r, c_pc c = CDone r.

(** [l'] comes from [l] without new calls *)
Definition goes_to (l l' : link) : Prop :=
  ∃ acts, run acts l = Some (Ret l') ∧ calls_of acts = 0.

Lemma goes_refl l : goes_to l l.
Proof. by exists []. Qed.

Lemma goes_step a l l1 l2 : act a l = Some (Ret l1) → is_call a = false → goes_to l1 l2 → goes_to l l2.
Proof.
  intros E Ha (acts & Hr & Hn). exists (a :: acts). cbn [run]. rewrite E. split; [done|].
  unfold calls_of in *. rewrite filter_cons, Ha. done.
Qed.

Lemma goes_inv l l' : few_calls (clnt l) → link_inv l → goes_to l l' → few_calls (clnt l') ∧ link_inv l'.
Proof.
  intros Hf HL (acts & Hr & Hn). assert (few_calls (clnt l')) as Hf'.
  { unfold few_calls in *. apply run_pool in Hr. lia. }
  split; [done|]. by eapply run_link.
Qed.

Definition pc_weight (c : call) : nat :=
  match c_pc c with CTag => 3 | CPut => 2 | CWrite => 1 | CWait | CDone _ => 0 end.
Definition weight (d : DemuxClnt) : nat := sum_list_with pc_weight (pool d).

Lemma weight_set d i c c' : pool d !! i = Some c →
  (weight (set_call i c' d) + pc_weight c = weight d + pc_weight c')%nat.
Proof.
  unfold weight. intros Hi. simpl. rewrite insert_take_drop by (by eapply lookup_lt_Some).
  rewrite <-(take_drop_middle _ _ _ Hi) at 3. rewrite !sum_list_with_app. simpl. lia.
Qed.

(** the requests of the calls can be encoded *)
Definition encodable (d : DemuxClnt) : Prop :=
  ∀ i c t, pool d !! i = Some c → 0 ≤ t < 2 ^ 32 → is_Some (gob_encode {| Tag := t; Data := c_b c; Ok := true |}).

Lemma encodable_set d i c c' : pool d !! i = Some c → c_b c' = c_b c → encodable d → encodable (set_call i c' d).
Proof.
  intros Hi Hb He j x t [[-> ->]|[_ Hx]]%(set_lookup d i c c' j x Hi) Ht; [rewrite Hb; by eapply He|by eapply He].
Qed.

Lemma down_write l : down l = true → may_write l (Some 0%nat) = true.
Proof. intros Hd. unfold may_write. by rewrite Hd. Qed.

(** one call that has not come to wait takes a step; the connection is lost *)
Lemma call_moves l i c : few_calls (clnt l) → client_inv (clnt l) → down l = true → encodable (clnt l) →
  pool (clnt l) !! i = Some c → pc_weight c ≠ 0%nat →
  ∃ a l', act a l = Some (Ret l') ∧ is_call a = false ∧ down l' = true ∧ encodable (clnt l')
    ∧ (weight (clnt l') < weight (clnt l))%nat.
Proof.
  intros Hf [HT _] Hd He Hi Hw. unfold pc_weight in Hw. destruct (c_pc c) eqn:Hpc; try done.
  - exists (ATag i). cbn [act]. unfold call_tag. rewrite Hi. simpl. rewrite Hpc. simpl. eexists. split; [reflexivity|].
    split_and!; try done; simpl.
    + by apply (encodable_set (snd (tag (clnt l))) i c).
    + pose proof (weight_set (snd (tag (clnt l))) i c {| c_b := c_b c; c_t := Some (nextTag (clnt l)); c_pc := CPut |} Hi) as H1.
      unfold pc_weight in H1. rewrite Hpc in H1. unfold weight in *. simpl in *. lia.
  - destruct (c_t c) as [t|] eqn:Ht; [|by apply (i_pc _ HT i c Hi) in Ht; congruence].
    exists (APut i). cbn [act]. unfold call_put. rewrite Hi. simpl. rewrite Hpc, Ht. simpl. eexists. split; [reflexivity|].
    set (d := match put t i (callmap (clnt l)) with Some cm => set_callmap cm (clnt l) | None => clnt l end).
    set (c' := match put t i (callmap (clnt l)) with Some _ => at_pc c CWrite | None => at_pc c (CDone reader_fail) end).
    assert (with_clnt match put t i (callmap (clnt l)) with Some cm => set_call i (at_pc c CWrite) (set_callmap cm (clnt l))
      | None => set_call i (at_pc c (CDone reader_fail)) (clnt l) end l = with_clnt (set_call i c' d) l) as ->
      by (unfold c', d; by destruct (put _ _ _)).
    assert (pool d = pool (clnt l)) as Hp by (unfold d; by destruct (put _ _ _)).
    assert (c_b c' = c_b c ∧ (pc_weight c' ≤ 1)%nat) as [Hb Hc']
      by (unfold c', pc_weight; destruct (put _ _ _); (split; [done|simpl; lia])).
    split_and!; try done; simpl.
    + apply (encodable_set d i c); [by rewrite Hp|done|]. intros j x t'. rewrite Hp. apply He.
    + pose proof (weight_set d i c c' ltac:(by rewrite Hp)) as H1. assert (pc_weight c = 2%nat) as Hw2 by (unfold pc_weight; by rewrite Hpc).
      rewrite Hw2 in H1. unfold weight in *. rewrite Hp in H1. simpl in *. lia.
  - destruct (c_t c) as [t|] eqn:Ht; [|by apply (i_pc _ HT i c Hi) in Ht; congruence].
    destruct (He i c t Hi) as [e Hen].
    { pose proof (i_tag _ HT i c t Hi Ht). unfold few_calls, drawn, zlen in *. pose proof (omap_length (pool (clnt l))). lia. }
    exists (AWrite i (Some 0%nat)). cbn [act]. unfold call_write. rewrite Hi. cbn [mbind option_bind].
    rewrite Hpc, Ht, down_write by done.
    unfold WriteCall, Marshall. rewrite Hen. cbn [mbind outcome_bind].
    assert (∃ out, (if c_werr (clnt l) then Ret (true, []) else Ret (true, take 0 (frame e))) = Ret (true, out : bytes)) as [out ->]
      by (destruct (c_werr _); eauto).
    cbn [mbind outcome_bind]. eexists. split; [reflexivity|]. split_and!; try done; simpl.
    + intros j x. by apply (encodable_set (clnt l) i c).
    + pose proof (weight_set (clnt l) i c (at_pc c CWait) Hi) as H1. unfold pc_weight in H1. rewrite Hpc in H1.
      unfold weight in *. simpl in *. lia.
Qed.

Lemma all_settle l : few_calls (clnt l) → link_inv l → down l = true → encodable (clnt l) →
  ∃ l', goes_to l l' ∧ down l' = true ∧ settled (clnt l').
Proof.
  remember (weight (clnt l)) as n eqn:Hn. revert l Hn. induction (lt_wf n) as [n _ IH]. intros l -> Hf HL Hd He.
  destruct (decide (Forall (λ c, pc_weight c = 0%nat) (pool (clnt l)))) as [Hall|Hsome].
  - exists l. split; [apply goes_refl|]. split; [done|]. intros i c Hi. rewrite Forall_lookup in Hall.
    specialize (Hall i c Hi). unfold pc_weight in Hall. destruct (c_pc c); try done; [by left|right; eauto].
  - apply not_Forall_Exists in Hsome; [|solve_decision]. apply Exists_exists in Hsome as (c & [i Hi]%list_elem_of_lookup & Hc).
    destruct (call_moves l i c Hf (proj1 HL) Hd He Hi Hc) as (a & l1 & E & Ha & Hd1 & He1 & Hlt).
    assert (goes_to l l1) as Hg by (eapply goes_step; [done|done|apply goes_refl]).
    destruct (goes_inv l l1 Hf HL Hg) as [Hf1 HL1].
    destruct (IH _ Hlt l1 eq_refl Hf1 HL1 Hd1 He1) as (l2 & Hg2 & ?).
    exists l2. split; [by eapply goes_step|done].
Qed.

(** the reader hands over what it holds *)
Lemma hands_over l i r k : few_calls (clnt l) → link_inv l → settled (clnt l) → rd (clnt l) = RSend i r k →
  ∃ l', act AHandOver l = Some (Ret l') ∧ down l' = down l ∧ settled (clnt l')
    ∧ rd (clnt l') = match k with None => RRead | Some ts => RDrain ts end.
Proof.
  intros Hf ([HT HC] & _) Hs Hr. destruct (i_hold _ HC i r k Hr) as (c & t & Hi & _ & Hw & _).
  assert (c_pc c = CWait) as Hpc by (destruct (Hs i c Hi) as [|[? ?]]; destruct Hw; congruence).
  cbn [act]. unfold hand_over. rewrite Hr, Hi. simpl. rewrite Hpc. simpl. eexists. split; [reflexivity|].
  split_and!; try done. simpl. intros j x Hj.
  apply (set_lookup (clnt l) i c (at_pc c (CDone r)) j x Hi) in Hj as [[-> ->]|[_ Hx]]; [right; by eexists|by apply (Hs j)].
Qed.

(** the reader is gone and nobody waits *)
Definition all_done (l : link) : Prop :=
  rd (clnt l) = RExit ∧ ∀ i c, pool (clnt l) !! i = Some c → ∃ r, c_pc c = CDone r.

Lemma exit_done l : link_inv l → settled (clnt l) → rd (clnt l) = RExit → all_done l.
Proof.
  intros ([HT HC] & _) Hs Hr. split; [done|]. intros i c Hi. destruct (Hs i c Hi) as [Hw|]; [|done].
  destruct (c_t c) as [t|] eqn:Ht; [|apply (i_pc _ HT i c Hi) in Ht; congruence].
  pose proof (i_drain _ HC) as Hd. unfold drain_ok in Hd. rewrite Hr in Hd. destruct Hd as [_ Hd].
  destruct (i_wait _ HC i c t Hi Ht) as [Hm|(r & k & Hk)]; [by right|rewrite Hd in Hm; done|congruence].
Qed.

Lemma drains ts l : few_calls (clnt l) → link_inv l → settled (clnt l) → rd (clnt l) = RDrain ts →
  ∃ l', goes_to l l' ∧ all_done l'.
Proof.
  revert l. induction ts as [|t ts IH]; intros l Hf HL Hs Hr.
  - assert (act ADrain l = Some (Ret (with_clnt (set_rd RExit (clnt l)) l))) as E.
    { cbn [act]. unfold reader_drain. by rewrite Hr. }
    assert (goes_to l (with_clnt (set_rd RExit (clnt l)) l)) as Hg by (eapply goes_step; [done|done|apply goes_refl]).
    eexists. split; [done|]. apply exit_done; [|done|done]. by apply (goes_inv l).
  - destruct (drain_link l (reply_to t reader_fail (Some ts) (clnt l)) HL) as (d & E & HLd).
    { unfold reader_drain. by rewrite Hr. }
    assert (act ADrain l = Some (Ret (with_clnt d l))) as Ea.
    { cbn [act]. unfold reader_drain. rewrite Hr. simpl. by rewrite E. }
    unfold reply_to in E. destruct (remove t _) as [[i cm]|]; [|done]. injection E as <-.
    assert (few_calls (clnt (with_clnt (set_rd (RSend i reader_fail (Some ts)) (set_callmap cm (clnt l))) l))) as Hf1 by done.
    destruct (hands_over _ i reader_fail (Some ts) Hf1 HLd Hs eq_refl) as (l2 & E2 & _ & Hs2 & Hr2).
    assert (goes_to l l2) as Hg by (eapply goes_step; [done|done|]; eapply goes_step; [done|done|apply goes_refl]).
    destruct (goes_inv _ _ Hf HL Hg) as [Hf2 HL2].
    destruct (IH l2 Hf2 HL2 Hs2 Hr2) as (l3 & Hg3 & Hd3). exists l3. split; [|done].
    eapply goes_step; [done|done|]. by eapply goes_step.
Qed.

Lemma run_to a l (Q : link → Prop) : few_calls (clnt l) → link_inv l →
  (∃ l1, act a l = Some (Ret l1) ∧ is_call a = false
     ∧ (few_calls (clnt l1) → link_inv l1 → ∃ l', goes_to l1 l' ∧ Q l')) → ∃ l', goes_to l l' ∧ Q l'.
Proof.
  intros Hf HL (l1 & E & Ha & Hn). destruct (goes_inv l l1) as [? ?]; [done..|by eapply goes_step, goes_refl|].
  destruct Hn as (l' & Hg & ?); [done..|]. exists l'. split; [by eapply goes_step|done].
Qed.

(** from each place of the reader, once the calls have settled *)
Lemma reader_finishes l : few_calls (clnt l) → link_inv l → settled (clnt l) → down l = true →
  ∃ l', goes_to l l' ∧ all_done l'.
Proof.
  intros Hf HL Hs Hd.
  assert (∀ l, few_calls (clnt l) → link_inv l → settled (clnt l) → rd (clnt l) = ROutstanding →
    ∃ l', goes_to l l' ∧ all_done l') as Hout.
  { clear -wire. intros l Hf HL Hs Hr. apply (run_to (AOutstanding (elements (dom (calls (callmap (clnt l)))))) l); [done..|].
    eexists. split; [|split; [done|]].
    - cbn [act]. unfold reader_outstanding, outstanding. rewrite Hr, !bool_decide_eq_true_2; [reflexivity|..].
      + by rewrite list_to_set_elements_L.
      + apply NoDup_elements.
    - intros Hf1 HL1. by eapply drains. }
  assert (∀ l, few_calls (clnt l) → link_inv l → settled (clnt l) → rd (clnt l) = RClose →
    ∃ l', goes_to l l' ∧ all_done l') as Hclose.
  { clear -wire Hout. intros l Hf HL Hs Hr. apply (run_to AReaderClose l); [done..|].
    eexists. split; [|split; [done|]]; [cbn [act]; unfold reader_close; rewrite Hr; reflexivity|].
    intros Hf1 HL1. by apply Hout. }
  assert (∀ l, few_calls (clnt l) → link_inv l → settled (clnt l) → down l = true → rd (clnt l) = RRead →
    ∃ l', goes_to l l' ∧ all_done l') as Hread.
  { clear -wire Hclose. intros l Hf HL Hs Hd Hr. apply (run_to (ARead true) l); [done..|].
    eexists. split; [|split; [done|]]; [cbn [act]; unfold reader_read; rewrite Hr, Hd; reflexivity|].
    intros Hf1 HL1. by apply Hclose. }
  destruct (rd (clnt l)) as [|i r k| | |ts|] eqn:Hr; [by apply Hread| |by apply Hclose|by apply Hout|by eapply drains|].
  - apply (run_to AHandOver l); [done..|]. destruct (hands_over l i r k Hf HL Hs Hr) as (l1 & E & Hd1 & Hs1 & Hr1).
    exists l1. split; [done|]. split; [done|]. intros Hf1 HL1.
    destruct k as [ts|]; [by eapply drains|apply Hread; done || congruence].
  - exists l. split; [apply goes_refl|by apply exit_done].
Qed.

(** C23. A lost connection ends every call: once either side has closed the
    connection, or the server is gone, the client's goroutines can always come
    to an end by themselves: the reader leaves, and every call returns. *)
Theorem lost_connection_ends_calls name acts l0 l :
  connect name = Ret (Some l0) → run acts l0 = Some (Ret l) → calls_of acts < 2 ^ 32 - 1 →
  encodable (clnt l) → down l = true → ∃ l', goes_to l l' ∧ all_done l'.
Proof.
  intros Hc Hr Hn He Hd. pose proof (reached _ _ _ _ Hc Hr Hn) as HL.
  assert (few_calls (clnt l)) as Hf.
  { apply connect_link in Hc as [_ Hp]. unfold few_calls. apply run_pool in Hr. rewrite Hr, Hp. unfold zlen. simpl. lia. }
  destruct (all_settle l Hf HL Hd He) as (l1 & Hg & Hd1 & Hs1). destruct (goes_inv _ _ Hf HL Hg) as [Hf1 HL1].
  destruct (reader_finishes l1 Hf1 HL1 Hs1 Hd1) as (l2 & (acts2 & Hr2 & Hn2) & Hdone).
  destruct Hg as (acts1 & Hr1 & Hn1). exists l2. split; [|done]. exists (acts1 ++ acts2).
  rewrite run_app, Hr1. split; [done|]. unfold calls_of, zlen in *. rewrite filter_app, length_app. lia.
Qed.
End wire.

(** ** A concrete connection *)

#[export] Instance InitMsg_gob : Gob InitMsg := {|
  gob_encode m := Some (String.list_byte_of_string (Clnt m));
  gob_decode _ b := Some {| Clnt := String.string_of_list_byte b |}
|}.

(** two calls, answered in the other order; the server dies before it has
    answered the first *)
Definition demux_acts : list action :=
  [ASrvInit false; ACall [x61]; ACall [x62; x63]; ATag 1; ATag 0; APut 0; APut 1; AWrite 0 None; ASrvRead false;
   AWrite 1 None; ASrvRead false; AServe 1 [x64] true; ASrvWrite 1 None; ARead false; AHandOver; AServe 0 [x65] true;
   ASrvDies].

Abbreviation demux_run := (match connect "clnt" with Ret (Some l) => run demux_acts l | _ => None end).

Lemma demux_started : ∃ l0, connect "clnt" = Ret (Some l0) ∧ run demux_acts l0 = demux_run.
Proof.
  destruct (connect "clnt") as [[l0|]| |] eqn:E; [by exists l0|vm_compute in E; discriminate E..].
Qed.

Lemma call_own_reply_witness : ∃ l c, demux_run = Some (Ret l) ∧ clntEnd (srv l) = "clnt" ∧
  pool (clnt l) !! 1%nat = Some c ∧ c_t c = Some 1 ∧ c_b c = [x62; x63] ∧
  c_pc c = CDone {| rep := [x64]; rep_ok := true; rep_err := false |} ∧
  (∃ h x, handlers (srv l) !! h = Some x ∧ h_t x = 1 ∧ h_req x = c_b c ∧ h_pc x = HDone [x64] true
     ∧ ∀ h' x', handlers (srv l) !! h' = Some x' → h_t x' = 1 → h' = h)
  ∧ ∀ j c', pool (clnt l) !! j = Some c' → c_t c' = Some 1 → j = 1%nat.
Proof.
  destruct demux_started as (l0 & E0 & Er). destruct demux_run as [[l| |]|] eqn:E; [|vm_compute in E; discriminate E..].
  assert (∃ c, pool (clnt l) !! 1%nat = Some c ∧ c_t c = Some 1 ∧ c_b c = [x62; x63]
    ∧ c_pc c = CDone {| rep := [x64]; rep_ok := true; rep_err := false |}) as (c & Hi & Ht & Hb & Hp).
  { vm_compute in E. injection E as <-. eexists. split_and!; reflexivity. }
  exists l, c. split; [reflexivity|]. split; [vm_compute in E; injection E as <-; reflexivity|].
  split; [exact Hi|]. split; [exact Ht|]. split; [exact Hb|]. split; [exact Hp|].
  apply (call_own_reply msg_wire "clnt" demux_acts l0 l 1 c 1 {| rep := [x64]; rep_ok := true; rep_err := false |});
    [exact E0|exact Er|reflexivity|exact Hi|exact Ht|exact Hp|reflexivity].
Defined.

(** the reader finds the end of the connection, and then the other call *)
Lemma reader_never_fatal_witness : ∃ l l', demux_run = Some (Ret l) ∧ act (ARead true) l = Some (Ret l').
Proof.
  destruct demux_started as (l0 & E0 & Er). destruct demux_run as [[l| |]|] eqn:E; [|vm_compute in E; discriminate E..].
  destruct (act (ARead true) l) as [o|] eqn:Ea; [|vm_compute in E; injection E as <-; vm_compute in Ea; discriminate Ea].
  destruct (reader_never_fatal msg_wire "clnt" demux_acts l0 l (ARead true) o E0 Er) as [l' ->];
    [reflexivity|exact Ea|left; by exists true|].
  exists l, l'. split; [reflexivity|exact Ea].
Defined.

Lemma lost_connection_ends_calls_witness : ∃ l l' c, demux_run = Some (Ret l) ∧
  pool (clnt l) !! 0%nat = Some c ∧ c_pc c = CWait ∧ goes_to l l' ∧ all_done l'.
Proof.
  destruct demux_started as (l0 & E0 & Er). destruct demux_run as [[l| |]|] eqn:E; [|vm_compute in E; discriminate E..].
  destruct (lost_connection_ends_calls msg_wire "clnt" demux_acts l0 l) as (l' & Hg & Hd);
    [exact E0|exact Er|reflexivity|..].
  - vm_compute in E. injection E as <-. intros [|[|i]] c t Hi Ht; [..|discriminate Hi]; injection Hi as <-;
      simpl; unfold msg_encode; (rewrite decide_True; [by eexists|]); unfold u32; by rewrite Z.mod_small.
  - vm_compute in E. injection E as <-. reflexivity.
  - exists l, l'. vm_compute in E. injection E as <-. eexists. split; [reflexivity|]. split; [reflexivity|].
    split; [reflexivity|]. by split.
Defined.
