(* ===== verification/Lock.v ===== *)
(** * The distributed lock (kvsrv1/lock/lock.go)

    A lock is a key whose value names its holder ([""]: free).  [Acquire] and
    [Release] are loops over the clerk's [Get] and [Put]; here they run against
    one kvsrv1 server, message by message: an attempt of a clerk's [Put] is a
    step of its own, its request or its reply may be lost, and the steps of all
    clients interleave. *)

From S2P Require Import Prelude KvRpc KvSrv KvClerk.
Local Open Scope Z_scope.

Section lock.
Context (lockName : string) (clientID : nat → string).

(** Where a client is in its code.  [APut ver first]: inside the clerk's
    [Put(lockName, clientID, ver)] of [Acquire]; [first] until the first
    attempt has been made.  [RPut] likewise in [Release]. *)
Inductive pc :=
| Idle
| Held
| AGet
| APut (version : Tversion) (first : bool)
| RGet
| RPut (version : Tversion) (first : bool)
| Exited.  (** [log.Fatalf] ended the process *)

(** [Acquire] on the answer of [Get] *)
Definition Acquire_after_get (i : nat) (value : string) (version : Tversion) (err : Err) : pc :=
  match err with
  | ErrNoKey => APut 0 true
  | OK =>
      if decide (value = "") then APut version true
      else if decide (value = clientID i) then Held
      else AGet
  | _ => Exited
  end.

(** [Acquire] on the answer of [Put] (the same in both branches) *)
Definition Acquire_after_put (err : outcome Err) : pc :=
  match err with
  | Ret OK => Held
  | Ret ErrVersion | Ret ErrMaybe => AGet
  | _ => Exited
  end.

Definition Release_after_get (i : nat) (value : string) (version : Tversion) (err : Err) : pc :=
  match err with
  | OK => if decide (value = clientID i) then RPut version true else Idle
  | ErrNoKey => Idle
  | _ => Exited
  end.

Definition Release_after_put (err : outcome Err) : pc :=
  match err with
  | Ret OK => Idle
  | Ret ErrMaybe => RGet
  | _ => Exited
  end.

Record sys := { srv : KvSrv.KVServer; pcs : list pc }.

Definition set_pc (s : sys) (i : nat) (p : pc) : sys :=
  {| srv := srv s; pcs := <[i := p]> (pcs s) |}.

(** one attempt of a clerk's [Put], and how the lock's code goes on *)
Definition put_attempt (s : sys) (i : nat) (args : PutArgs) (f : fate) (first : bool)
    (retry : pc) (after : outcome Err → pc) : sys :=
  match f with
  | ReqLost => set_pc s i retry
  | RepLost =>
      let '(kv, _) := KvSrv.Put (srv s) args PutReply0 in
      {| srv := kv; pcs := <[i := retry]> (pcs s) |}
  | Delivered =>
      let '(kv, r) := KvSrv.Put (srv s) args PutReply0 in
      {| srv := kv;
         pcs := <[i := after (if first then Put_first_reply r else Put_resend_reply r)]> (pcs s) |}
  end.

Definition lock_get (s : sys) : GetReply :=
  KvSrv.Get (srv s) {| get_Key := lockName |} GetReply0.

(** the request of [i]'s pending [Put] *)
Definition acquire_args (i : nat) (version : Tversion) : PutArgs :=
  {| put_Key := lockName; put_Value := clientID i; put_Version := version |}.
Definition release_args (version : Tversion) : PutArgs :=
  {| put_Key := lockName; put_Value := ""; put_Version := version |}.

Inductive step (s : sys) : sys → Prop :=
| step_call_acquire i :
    pcs s !! i = Some Idle → step s (set_pc s i AGet)
| step_call_release i p :
    pcs s !! i = Some p → p = Held ∨ p = Idle → step s (set_pc s i RGet)
| step_acquire_get i :
    pcs s !! i = Some AGet →
    let r := lock_get s in
    step s (set_pc s i (Acquire_after_get i (get_Value r) (get_Version r) (get_Err r)))
| step_acquire_put i version first f :
    pcs s !! i = Some (APut version first) →
    step s (put_attempt s i (acquire_args i version) f first
              (APut version false) Acquire_after_put)
| step_release_get i :
    pcs s !! i = Some RGet →
    let r := lock_get s in
    step s (set_pc s i (Release_after_get i (get_Value r) (get_Version r) (get_Err r)))
| step_release_put i version first f :
    pcs s !! i = Some (RPut version first) →
    step s (put_attempt s i (release_args version) f first
              (RPut version false) Release_after_put).

Definition init (n : nat) : sys :=
  {| srv := KvSrv.MakeKVServer; pcs := replicate n Idle |}.

(** ** The invariant *)

Definition holder (s : sys) : string := value_at (KvSrv.tbl (srv s)) lockName.
Definition cur_version (s : sys) : Tversion := version_at (KvSrv.tbl (srv s)) lockName.

(** what a client's position says about the server *)
Definition pc_ok (t : table) (i : nat) (p : pc) : Prop :=
  let val := value_at t lockName in
  let cur := version_at t lockName in
  match p with
  | Held => val = clientID i
  | APut v first => 0 ≤ v ≤ cur ∧ (v = cur → val = "")
  | RPut v first =>
      (v = cur ∧ val = clientID i) ∨ (0 ≤ v < cur ∧ first = false ∧ val ≠ clientID i)
  | Exited => False
  | _ => True
  end.

Definition inv_ok (s : sys) : Prop :=
  0 ≤ cur_version s ∧ ∀ i p, pcs s !! i = Some p → pc_ok (KvSrv.tbl (srv s)) i p.

(** ** Preservation

    The identifiers are random strings; the lock relies on their being
    distinct and not the free marker. *)
Hypothesis clientID_inj : ∀ i j, clientID i = clientID j → i = j.
Hypothesis clientID_nonempty : ∀ i, clientID i ≠ "".

Implicit Types (t : table) (i j : nat) (p : pc).

(** the handler either performs the put or leaves the table alone *)
Lemma Put_effect kv a kv' r :
  put_Key a = lockName →
  0 ≤ version_at (KvSrv.tbl kv) lockName < u64_mod - 1 →
  KvSrv.Put kv a PutReply0 = (kv', r) →
  (put_Err r = OK ∧ put_Version a = version_at (KvSrv.tbl kv) lockName
   ∧ version_at (KvSrv.tbl kv') lockName = version_at (KvSrv.tbl kv) lockName + 1
   ∧ value_at (KvSrv.tbl kv') lockName = put_Value a)
  ∨ (KvSrv.tbl kv' = KvSrv.tbl kv ∧ put_Version a ≠ version_at (KvSrv.tbl kv) lockName
     ∧ (put_Err r = ErrVersion
        ∨ put_Err r = ErrNoKey ∧ version_at (KvSrv.tbl kv) lockName = 0
          ∧ value_at (KvSrv.tbl kv) lockName = "")).
Proof.
  intros Hk Hb E. pose proof (KvSrv.Put_spec kv a PutReply0) as Es. rewrite E in Es; simpl in Es.
  assert (KvSrv.tbl kv' = fst (spec_put (KvSrv.tbl kv) a)) as Et by by rewrite <-Es.
  assert (put_Err r = snd (spec_put (KvSrv.tbl kv) a)) as Er by by rewrite <-Es.
  rewrite Et, Er. clear Es Et Er E kv'. set (t := KvSrv.tbl kv) in *.
  destruct (decide (snd (spec_put t a) = OK)) as [Hok|Hno].
  - left. split; [done|]. pose proof (proj1 (spec_put_ok _ _) Hok) as Hv. rewrite Hk in Hv.
    split; [done|]. split.
    + rewrite spec_put_version by done. by rewrite decide_True.
    + unfold value_at. rewrite <-Hk, spec_put_lookup_ok by done. done.
  - right. rewrite spec_put_fail by done. split; [done|].
    rewrite spec_put_ok, Hk in Hno. split; [done|].
    unfold spec_put. rewrite Hk, decide_False by done. simpl. case_decide as Hn; [|auto].
    right. unfold version_at, value_at. by rewrite Hn.
Qed.

(** a performed put of another client keeps what we know of client [i] *)
Lemma pc_ok_other t t' i p :
  version_at t' lockName = version_at t lockName + 1 →
  value_at t lockName ≠ clientID i → value_at t' lockName ≠ clientID i →
  pc_ok t i p → pc_ok t' i p.
Proof. intros Hv Hn Hn'. destruct p; simpl; rewrite ?Hv; naive_solver lia. Qed.

Lemma pc_ok_table t t' i p : t' = t → pc_ok t i p → pc_ok t' i p.
Proof. by intros ->. Qed.

(** setting one client's position *)
Lemma inv_ok_set kv ps i p :
  0 ≤ version_at (KvSrv.tbl kv) lockName →
  pc_ok (KvSrv.tbl kv) i p →
  (∀ j q, j ≠ i → ps !! j = Some q → pc_ok (KvSrv.tbl kv) j q) →
  inv_ok {| srv := kv; pcs := <[i := p]> ps |}.
Proof.
  intros H0 Hp Ho. split; [done|]. intros j q. simpl.
  rewrite list_lookup_insert. case_decide as Hd; [naive_solver|].
  intros Hj. destruct (decide (j = i)) as [->|]; [|eauto].
  apply lookup_lt_Some in Hj. naive_solver.
Qed.

(** an attempt of [i]'s put keeps the invariant, provided the position before
    it admits the put and the code goes on correctly after each answer *)
Lemma put_attempt_ok (s : sys) i (a : PutArgs) (f : fate) (first : bool) (retry : pc) after :
  put_Key a = lockName → inv_ok s → cur_version s < u64_mod - 1 →
  (put_Version a = cur_version s →
     (∀ j, j ≠ i → holder s ≠ clientID j ∧ put_Value a ≠ clientID j)) →
  (∀ t', t' = KvSrv.tbl (srv s) ∨
         (put_Version a = cur_version s ∧ version_at t' lockName = cur_version s + 1
          ∧ value_at t' lockName = put_Value a) →
     (f = ReqLost → t' = KvSrv.tbl (srv s)) →
     pc_ok t' i retry) →
  (∀ t' r, (put_Err r = OK ∧ put_Version a = cur_version s
            ∧ version_at t' lockName = cur_version s + 1 ∧ value_at t' lockName = put_Value a)
           ∨ (t' = KvSrv.tbl (srv s) ∧ put_Version a ≠ cur_version s
              ∧ (put_Err r = ErrVersion
                 ∨ put_Err r = ErrNoKey ∧ cur_version s = 0 ∧ holder s = "")) →
     pc_ok t' i (after (if first then Put_first_reply r else Put_resend_reply r))) →
  inv_ok (put_attempt s i a f first retry after)
  ∧ cur_version (put_attempt s i a f first retry after) ≤ cur_version s + 1.
Proof.
  intros Hk [H0 Hpc] Hb Hoth Hretry Hafter. unfold put_attempt, set_pc.
  destruct (KvSrv.Put (srv s) a PutReply0) as [kv r] eqn:EP.
  apply Put_effect in EP; [|done|unfold cur_version in *; lia].
  assert (∀ j q, j ≠ i → pcs s !! j = Some q → pc_ok (KvSrv.tbl kv) j q) as Hj.
  { intros j q Hne Hq. specialize (Hpc _ _ Hq).
    destruct EP as [(_ & Hv & Hv' & Hval)|(-> & _)]; [|done].
    destruct (Hoth Hv j Hne). apply (pc_ok_other (KvSrv.tbl (srv s))); try done. by rewrite Hval. }
  assert (0 ≤ version_at (KvSrv.tbl kv) lockName ≤ cur_version s + 1) as Hver.
  { unfold cur_version in *. destruct EP as [(_ & _ & -> & _)|(-> & _)]; lia. }
  destruct f; (split; [|unfold cur_version in *; simpl; lia]);
    apply inv_ok_set; try done; try (unfold cur_version in *; lia).
  - apply Hretry; naive_solver.
  - eauto.
  - apply Hretry; naive_solver.
  - apply Hafter. naive_solver.
Qed.

Lemma step_ok s s' :
  inv_ok s → cur_version s < u64_mod - 1 → step s s' →
  inv_ok s' ∧ cur_version s' ≤ cur_version s + 1.
Proof.
  intros Hinv Hb Hst. pose proof Hinv as [H0 Hpc].
  assert (∀ i p, pc_ok (KvSrv.tbl (srv s)) i p → inv_ok (set_pc s i p)
                 ∧ cur_version (set_pc s i p) ≤ cur_version s + 1) as Hset.
  { intros i p Hp. split; [apply inv_ok_set; eauto|unfold cur_version; simpl; lia]. }
  assert (∀ v, lock_get s = v → get_Err v = OK ∧ get_Value v = holder s ∧ get_Version v = cur_version s
           ∨ get_Err v = ErrNoKey ∧ holder s = "" ∧ cur_version s = 0) as Hget.
  { intros v <-. unfold lock_get, holder, cur_version, value_at, version_at, KvSrv.Get; simpl.
    destruct (KvSrv.tbl (srv s) !! lockName); naive_solver. }
  destruct Hst as [i Hi|i p Hi _|i Hi r|i v first f Hi|i Hi r|i v first f Hi].
  - by apply Hset.
  - by apply Hset.
  - apply Hset. subst r. unfold Acquire_after_get. destruct (Hget _ eq_refl) as [(-> & -> & ->)|(-> & Hh & Hc)].
    + repeat case_decide; simpl; [|done..]. unfold cur_version in *. split; [lia|done].
    + simpl. unfold holder, cur_version in *. rewrite Hh, Hc. split; [lia|done].
  - specialize (Hpc _ _ Hi) as [Hv He].
    apply put_attempt_ok; try done; unfold holder, cur_version in *; simpl.
    + intros Hv'. split; [rewrite He by done; eauto|eauto].
    + intros t' [->|(_ & -> & ->)] _; simpl; [done|lia].
    + intros t' r [(Ho & Hv' & _ & Hval)|(-> & Hv' & Hr)].
      * unfold Put_first_reply, Put_resend_reply. rewrite Ho. destruct first; simpl; done.
      * unfold Put_first_reply, Put_resend_reply. destruct Hr as [->|(-> & Hc & _)]; [|lia].
        by destruct first.
  - apply Hset. subst r. unfold Release_after_get. destruct (Hget _ eq_refl) as [(-> & -> & ->)|(-> & Hh & Hc)]; [|done].
    case_decide; simpl; [|done]. by left.
  - specialize (Hpc _ _ Hi). simpl in Hpc.
    apply put_attempt_ok; try done; unfold holder, cur_version in *; simpl.
    + intros Hv'. destruct Hpc as [[_ Hval]|[? _]]; [|lia]. intros j Hj.
      rewrite Hval. split; [naive_solver|intros ?; by eapply clientID_nonempty].
    + intros t' [->|(Hv' & -> & ->)] Hf; simpl.
      * naive_solver.
      * right. split_and!; [lia..|done|]. intros ?; by eapply clientID_nonempty.
    + intros t' r [(Ho & Hv' & _ & Hval)|(-> & Hv' & Hr)].
      * unfold Put_first_reply, Put_resend_reply. rewrite Ho. destruct first; simpl; done.
      * destruct Hpc as [[? _]|(? & -> & ?)]; [done|]. unfold Put_resend_reply.
        destruct Hr as [->|(-> & Hc & _)]; [done|lia].
Qed.

Lemma init_ok n : inv_ok (init n) ∧ cur_version (init n) = 0.
Proof.
  split; [|done]. split; [done|]. intros i p Hp. simpl in Hp.
  apply lookup_replicate in Hp as [-> _]. done.
Qed.

Lemma nsteps_ok k s s' :
  nsteps step k s s' → inv_ok s → cur_version s + Z.of_nat k < u64_mod →
  inv_ok s' ∧ cur_version s' ≤ cur_version s + Z.of_nat k.
Proof.
  induction 1 as [s|k s1 s2 s3 Hst _ IH]; intros Hi Hb; [split; [done|lia]|].
  destruct (step_ok s1 s2) as [Hi2 Hv2]; [done|lia|done|].
  destruct IH as [Hi3 Hv3]; [done|lia|]. split; [done|lia].
Qed.

Lemma run_ok n k s : nsteps step k (init n) s → Z.of_nat k < u64_mod → inv_ok s.
Proof.
  intros Hr Hb. destruct (init_ok n) as [Hi H0].
  apply (nsteps_ok _ _ _ Hr Hi). lia.
Qed.
End lock.

(** C5. Mutual exclusion.  In every run of fewer than [2^64] steps of any
    number of clients with distinct non-empty identifiers, over a network that
    loses requests and replies, at most one client is between a returned
    [Acquire] and its [Release]; the server then names that client; and no
    client reaches one of the [log.Fatalf] calls of lock.go. *)
Theorem lock_mutual_exclusion lockName clientID
    (Hinj : ∀ i j, clientID i = clientID j → i = j) (Hne : ∀ i, clientID i ≠ "") n k s :
  nsteps (step lockName clientID) k (init n) s → Z.of_nat k < u64_mod →
  (∀ i j, pcs s !! i = Some Held → pcs s !! j = Some Held → i = j)
  ∧ (∀ i, pcs s !! i = Some Held → holder lockName s = clientID i)
  ∧ (∀ i, pcs s !! i ≠ Some Exited).
Proof.
  intros Hr Hb. destruct (run_ok lockName clientID Hinj Hne n k s Hr Hb) as [_ Hpc].
  split_and!.
  - intros i j Hi Hj. apply Hpc in Hi, Hj. simpl in *. apply Hinj. congruence.
  - intros i Hi. by apply Hpc in Hi.
  - intros i Hi. by apply Hpc in Hi.
Qed.

(** A free lock can be taken: from any state of such a run in which the
    lock names no holder, a client waiting in [Acquire] returns holding it
    after one [Get] and one delivered [Put] of its own. *)
Theorem lock_acquire_when_free lockName clientID
    (Hinj : ∀ i j, clientID i = clientID j → i = j) (Hne : ∀ i, clientID i ≠ "") n k s i :
  nsteps (step lockName clientID) k (init n) s → Z.of_nat k < u64_mod →
  holder lockName s = "" → pcs s !! i = Some AGet →
  ∃ s', nsteps (step lockName clientID) 2 s s' ∧ pcs s' !! i = Some Held.
Proof.
  intros Hr Hb Hfree Hi. destruct (run_ok lockName clientID Hinj Hne n k s Hr Hb) as [H0 _].
  set (r := lock_get lockName s).
  assert (Acquire_after_get clientID i (get_Value r) (get_Version r) (get_Err r)
          = APut (cur_version lockName s) true) as Eget.
  { unfold r, lock_get, cur_version, holder, version_at, value_at, KvSrv.Get in *; simpl.
    destruct (KvSrv.tbl (srv s) !! lockName) as [[v ver]|]; simpl in *; [|done].
    by rewrite decide_True. }
  pose proof (lookup_lt_Some _ _ _ Hi) as Hlt.
  set (s1 := set_pc s i (APut (cur_version lockName s) true)).
  assert (step lockName clientID s s1) as St1.
  { unfold s1. rewrite <-Eget. by apply step_acquire_get. }
  assert (pcs s1 !! i = Some (APut (cur_version lockName s) true)) as Hi1
    by by apply list_lookup_insert_eq.
  pose proof (step_acquire_put lockName clientID s1 i _ _ Delivered Hi1) as St2.
  eexists. split; [eapply nsteps_l; [exact St1|]; eapply nsteps_l; [exact St2|apply nsteps_O]|].
  unfold put_attempt.
  destruct (KvSrv.Put (srv s1) _ PutReply0) as [kv rep] eqn:EP.
  pose proof (KvSrv.Put_spec (srv s1) (acquire_args lockName clientID i (cur_version lockName s)) PutReply0) as Es.
  rewrite EP in Es. simpl in Es.
  assert (put_Err rep = snd (spec_put (KvSrv.tbl (srv s))
    (acquire_args lockName clientID i (cur_version lockName s)))) as Er by by rewrite <-Es.
  unfold Put_first_reply. rewrite Er, (proj2 (spec_put_ok _ _)) by done.
  simpl. apply list_lookup_insert_eq. by rewrite length_insert.
Qed.

(* ------------------------------------------------------------------ *)
(** ** Witnesses: two clients, the first acquires over a lossy network *)

(** a name of [i + 1] letters *)
Fixpoint client_name (i : nat) : string :=
  match i with O => "a" | S i' => ("a" ++ client_name i')%string end.

Lemma client_name_inj i j : client_name i = client_name j → i = j.
Proof.
  revert j. induction i as [|i IH]; destruct j as [|j]; simpl; intros E; [done| | |];
    injection E as E'; [by destruct j|by destruct i|f_equal; auto].
Qed.

Lemma client_name_nonempty i : client_name i ≠ "".
Proof. by destruct i. Qed.

(** client 0 calls [Acquire]; its first [Put] is performed but the reply is lost *)
Definition lock_s1 := set_pc (init 2) 0 AGet.
Definition lock_s2 := set_pc lock_s1 0 (APut 0 true).
Definition lock_s3 := put_attempt lock_s2 0 (acquire_args "l" client_name 0 0) RepLost true
                        (APut 0 false) Acquire_after_put.
Definition lock_s4 := put_attempt lock_s3 0 (acquire_args "l" client_name 0 0) Delivered false
                        (APut 0 false) Acquire_after_put.
Definition lock_s5 := set_pc lock_s4 0 Held.

Lemma lock_run : nsteps (step "l" client_name) 5 (init 2) lock_s5.
Proof.
  eapply nsteps_l; [by apply (step_call_acquire _ _ (init 2) 0)|].
  eapply nsteps_l; [by apply (step_acquire_get _ _ lock_s1 0)|].
  eapply nsteps_l; [by apply (step_acquire_put _ _ lock_s2 0 0 true RepLost)|].
  eapply nsteps_l; [by apply (step_acquire_put _ _ lock_s3 0 0 false Delivered)|].
  eapply nsteps_l; [by apply (step_acquire_get _ _ lock_s4 0)|].
  apply nsteps_O.
Qed.

Lemma lock_mutual_exclusion_witness :
  pcs lock_s5 !! 0%nat = Some Held ∧ holder "l" lock_s5 = "a".
Proof.
  split; [reflexivity|].
  apply (proj1 (proj2 (lock_mutual_exclusion "l" client_name client_name_inj
    client_name_nonempty 2 5 lock_s5 lock_run eq_refl)) 0%nat). reflexivity.
Defined.

Lemma lock_acquire_when_free_witness :
  ∃ s', nsteps (step "l" client_name) 2 lock_s1 s' ∧ pcs s' !! 0%nat = Some Held.
Proof.
  apply (lock_acquire_when_free "l" client_name client_name_inj client_name_nonempty 2 1 lock_s1 0).
  - eapply nsteps_l; [by apply (step_call_acquire _ _ (init 2) 0)|apply nsteps_O].
  - reflexivity.
  - reflexivity.
  - reflexivity.
Defined.
