(* ===== verification/RaftNode.v ===== *)
(** * One Raft peer (raft1/raft.go)

    The state of a peer and every operation on it: RPC handlers, the handling
    of RPC replies, the operations of the service above, and one iteration of
    each background goroutine.  Each runs under [rf.mu], so each is one atomic
    function of the state; what it starts or sends is returned as a list of
    effects.  Terms and log indices are Go [int]s, taken as [Z]; indexing and
    slicing panic out of range as in Go. *)

From S2P Require Import Prelude.
Local Open Scope Z_scope.

Inductive RaftState := RaftLeader | RaftCandidate | RaftFollower.

#[export] Instance RaftState_eq_dec : EqDecision RaftState.
Proof. solve_decision. Defined.

Definition TIME_INTERVAL_TO_SEND_HEART_BEAT : Z := 50.

(** [time.Now()] in milliseconds and the value of [rand.Int63()] (non-negative) *)
Record clock := { now : Z; rnd : Z }.

Section raft.
(** commands and snapshots are opaque to Raft; [nil] and the empty snapshot are
    [None] *)
Context {Cmd Snap : Type}.

Record LogEntry := { e_Term : Z; e_Command : option Cmd }.

(** ** tester1/persister.go

    The saved Raft state is a gob stream: the encoded values in order. *)
Inductive gobval := GInt (z : Z) | GLogs (l : list LogEntry).

Record Persister := { ps_raftstate : list gobval; ps_snapshot : option Snap }.

Definition MakePersister : Persister := {| ps_raftstate := []; ps_snapshot := None |}.
Definition Save (raftstate : list gobval) (snapshot : option Snap) (ps : Persister) : Persister :=
  {| ps_raftstate := raftstate; ps_snapshot := snapshot |}.
Definition ReadRaftState (ps : Persister) : list gobval := ps_raftstate ps.
Definition ReadSnapshot (ps : Persister) : option Snap := ps_snapshot ps.
Definition Checkpoint (ps : Persister) : Persister :=
  {| ps_raftstate := ps_raftstate ps; ps_snapshot := ps_snapshot ps |}.

(** [d.Decode(&x)] for an [int] and for the log: the next value of the stream,
    if it has the right type *)
Definition Decode_int (d : list gobval) : option (Z * list gobval) :=
  match d with GInt z :: d' => Some (z, d') | _ => None end.
Definition Decode_logs (d : list gobval) : option (list LogEntry * list gobval) :=
  match d with GLogs l :: d' => Some (l, d') | _ => None end.

(** ** The state of a peer *)
Record Raft := mkRaft {
  peers : nat;
  me : Z;
  persister : Persister;
  raftState : RaftState;
  currentTerm : Z;
  voteFor : Z;
  logs : list LogEntry;
  commitIndex : Z;
  lastApplied : Z;
  nextIndex : list Z;
  matchIndex : list Z;
  electionTimerStart : Z;
  timeout : Z;
  gotVotes : Z;
  leaderID : Z;
  snapshotIndex : Z;
  snapshot : option Snap
}.

Definition set_persister (v : Persister) (rf : Raft) : Raft :=
  mkRaft (peers rf) (me rf) v (raftState rf) (currentTerm rf) (voteFor rf) (logs rf)
    (commitIndex rf) (lastApplied rf) (nextIndex rf) (matchIndex rf) (electionTimerStart rf)
    (timeout rf) (gotVotes rf) (leaderID rf) (snapshotIndex rf) (snapshot rf).
Definition set_raftState (v : RaftState) (rf : Raft) : Raft :=
  mkRaft (peers rf) (me rf) (persister rf) v (currentTerm rf) (voteFor rf) (logs rf)
    (commitIndex rf) (lastApplied rf) (nextIndex rf) (matchIndex rf) (electionTimerStart rf)
    (timeout rf) (gotVotes rf) (leaderID rf) (snapshotIndex rf) (snapshot rf).
Definition set_currentTerm (v : Z) (rf : Raft) : Raft :=
  mkRaft (peers rf) (me rf) (persister rf) (raftState rf) v (voteFor rf) (logs rf) (commitIndex
    rf) (lastApplied rf) (nextIndex rf) (matchIndex rf) (electionTimerStart rf) (timeout rf)
    (gotVotes rf) (leaderID rf) (snapshotIndex rf) (snapshot rf).
Definition set_voteFor (v : Z) (rf : Raft) : Raft :=
  mkRaft (peers rf) (me rf) (persister rf) (raftState rf) (currentTerm rf) v (logs rf)
    (commitIndex rf) (lastApplied rf) (nextIndex rf) (matchIndex rf) (electionTimerStart rf)
    (timeout rf) (gotVotes rf) (leaderID rf) (snapshotIndex rf) (snapshot rf).
Definition set_logs (v : list LogEntry) (rf : Raft) : Raft :=
  mkRaft (peers rf) (me rf) (persister rf) (raftState rf) (currentTerm rf) (voteFor rf) v
    (commitIndex rf) (lastApplied rf) (nextIndex rf) (matchIndex rf) (electionTimerStart rf)
    (timeout rf) (gotVotes rf) (leaderID rf) (snapshotIndex rf) (snapshot rf).
Definition set_commitIndex (v : Z) (rf : Raft) : Raft :=
  mkRaft (peers rf) (me rf) (persister rf) (raftState rf) (currentTerm rf) (voteFor rf) (logs
    rf) v (lastApplied rf) (nextIndex rf) (matchIndex rf) (electionTimerStart rf) (timeout rf)
    (gotVotes rf) (leaderID rf) (snapshotIndex rf) (snapshot rf).
Definition set_lastApplied (v : Z) (rf : Raft) : Raft :=
  mkRaft (peers rf) (me rf) (persister rf) (raftState rf) (currentTerm rf) (voteFor rf) (logs
    rf) (commitIndex rf) v (nextIndex rf) (matchIndex rf) (electionTimerStart rf) (timeout rf)
    (gotVotes rf) (leaderID rf) (snapshotIndex rf) (snapshot rf).
Definition set_nextIndex (v : list Z) (rf : Raft) : Raft :=
  mkRaft (peers rf) (me rf) (persister rf) (raftState rf) (currentTerm rf) (voteFor rf) (logs
    rf) (commitIndex rf) (lastApplied rf) v (matchIndex rf) (electionTimerStart rf) (timeout
    rf) (gotVotes rf) (leaderID rf) (snapshotIndex rf) (snapshot rf).
Definition set_matchIndex (v : list Z) (rf : Raft) : Raft :=
  mkRaft (peers rf) (me rf) (persister rf) (raftState rf) (currentTerm rf) (voteFor rf) (logs
    rf) (commitIndex rf) (lastApplied rf) (nextIndex rf) v (electionTimerStart rf) (timeout rf)
    (gotVotes rf) (leaderID rf) (snapshotIndex rf) (snapshot rf).
Definition set_electionTimerStart (v : Z) (rf : Raft) : Raft :=
  mkRaft (peers rf) (me rf) (persister rf) (raftState rf) (currentTerm rf) (voteFor rf) (logs
    rf) (commitIndex rf) (lastApplied rf) (nextIndex rf) (matchIndex rf) v (timeout rf)
    (gotVotes rf) (leaderID rf) (snapshotIndex rf) (snapshot rf).
Definition set_timeout (v : Z) (rf : Raft) : Raft :=
  mkRaft (peers rf) (me rf) (persister rf) (raftState rf) (currentTerm rf) (voteFor rf) (logs
    rf) (commitIndex rf) (lastApplied rf) (nextIndex rf) (matchIndex rf) (electionTimerStart
    rf) v (gotVotes rf) (leaderID rf) (snapshotIndex rf) (snapshot rf).
Definition set_gotVotes (v : Z) (rf : Raft) : Raft :=
  mkRaft (peers rf) (me rf) (persister rf) (raftState rf) (currentTerm rf) (voteFor rf) (logs
    rf) (commitIndex rf) (lastApplied rf) (nextIndex rf) (matchIndex rf) (electionTimerStart
    rf) (timeout rf) v (leaderID rf) (snapshotIndex rf) (snapshot rf).
Definition set_leaderID (v : Z) (rf : Raft) : Raft :=
  mkRaft (peers rf) (me rf) (persister rf) (raftState rf) (currentTerm rf) (voteFor rf) (logs
    rf) (commitIndex rf) (lastApplied rf) (nextIndex rf) (matchIndex rf) (electionTimerStart
    rf) (timeout rf) (gotVotes rf) v (snapshotIndex rf) (snapshot rf).
Definition set_snapshotIndex (v : Z) (rf : Raft) : Raft :=
  mkRaft (peers rf) (me rf) (persister rf) (raftState rf) (currentTerm rf) (voteFor rf) (logs
    rf) (commitIndex rf) (lastApplied rf) (nextIndex rf) (matchIndex rf) (electionTimerStart
    rf) (timeout rf) (gotVotes rf) (leaderID rf) v (snapshot rf).
Definition set_snapshot (v : option Snap) (rf : Raft) : Raft :=
  mkRaft (peers rf) (me rf) (persister rf) (raftState rf) (currentTerm rf) (voteFor rf) (logs
    rf) (commitIndex rf) (lastApplied rf) (nextIndex rf) (matchIndex rf) (electionTimerStart
    rf) (timeout rf) (gotVotes rf) (leaderID rf) (snapshotIndex rf) v.
(** raftapi/raftapi.go *)
Record ApplyMsg := {
  CommandValid : bool;
  am_Command : option Cmd;
  CommandIndex : Z;
  SnapshotValid : bool;
  am_Snapshot : option Snap;
  SnapshotTerm : Z;
  SnapshotIndex : Z
}.

(** ** RPC arguments and replies *)
Record RequestVoteArgs := {
  rv_Term : Z; CandidateId : Z; LastLogIndex : Z; LastLogTerm : Z }.
Record RequestVoteReply := { rvr_Term : Z; VoteGranted : bool }.
Record AppendEntriesArgs := {
  ae_Term : Z; ae_LeaderID : Z; PrevLogIndex : Z; PrevLogTerm : Z;
  Entries : list LogEntry; LeaderCommit : Z }.
Record AppendEntriesReply := {
  aer_Term : Z; Success : bool; XTerm : Z; XIndex : Z; XLen : Z }.
Record InstallSnapshotArgs := {
  is_Term : Z; is_LeaderID : Z; LastIncludedIndex : Z; LastIncludedTerm : Z;
  Offset : Z; Data : option Snap; Done : bool }.
Record InstallSnapshotReply := { isr_Term : Z }.

(** what an operation starts, signals or sends *)
Inductive effect :=
| GoTicker
| GoHeartBeat
| GoCommit
| ApplySignal
| NewEntry
| SendRequestVote (server : Z) (args : RequestVoteArgs)
| SendAppendEntries (server : Z) (args : AppendEntriesArgs)
| SendInstallSnapshot (server : Z) (args : InstallSnapshotArgs)
| Apply (msg : ApplyMsg).

(** ** Log access *)

Definition GetLastLogIndex (rf : Raft) : Z := zlen (logs rf) - 1 + snapshotIndex rf.

Definition GetLastLogTerm (rf : Raft) : outcome Z :=
  e ← go_index (logs rf) (zlen (logs rf) - 1); Ret (e_Term e).

Definition index (rf : Raft) (i : Z) : Z := i - snapshotIndex rf.

Definition log (rf : Raft) (i : Z) : outcome LogEntry := go_index (logs rf) (index rf i).

(** ** Persistence *)

Definition persist (rf : Raft) : Raft :=
  set_persister
    (Save [GInt (currentTerm rf); GInt (voteFor rf); GLogs (logs rf); GInt (snapshotIndex rf)]
       (snapshot rf) (persister rf)) rf.

Definition readPersist (data : list gobval) (rf : Raft) : Raft :=
  match data with
  | [] => rf
  | _ =>
      match
        '(term, d1) ← Decode_int data;
        '(vote, d2) ← Decode_int d1;
        '(ls, d3) ← Decode_logs d2;
        '(sidx, d4) ← Decode_int d3;
        Some (term, vote, ls, sidx)
      with
      | None => rf
      | Some (term, vote, ls, sidx) =>
          set_snapshotIndex sidx (set_logs ls (set_voteFor vote (set_currentTerm term rf)))
      end
  end.

(** ** Role changes *)

Definition updateTermAndBecomeFollower (term : Z) (rf : Raft) : Raft * list effect :=
  let eff := if decide (raftState rf = RaftLeader) then [GoTicker] else [] in
  let rf1 := set_raftState RaftFollower (set_currentTerm term rf) in
  let rf2 := persist (set_voteFor (-1) (set_leaderID (-1) rf1)) in
  (set_gotVotes 0 rf2, eff).

Definition resetElectionTimer (clk : clock) (rf : Raft) : Raft :=
  set_timeout (400 + rnd clk `mod` 300) (set_electionTimerStart (now clk) rf).

Definition becomeLeader (clk : clock) (rf : Raft) : outcome (Raft * list effect) :=
  if decide (gotVotes rf ≤ Z.of_nat (peers rf) / 2) then Fatal
  else if decide (raftState rf ≠ RaftCandidate) then Fatal
  else
    let rf1 := set_voteFor (-1) (set_raftState RaftLeader (set_gotVotes 0 (resetElectionTimer clk rf))) in
    let rf2 := persist (set_leaderID (me rf) rf1) in
    let rf3 := set_nextIndex (replicate (peers rf) (GetLastLogIndex rf2 + 1)) rf2 in
    mi ← go_update (replicate (peers rf) 0) (me rf) (GetLastLogIndex rf3);
    Ret (set_matchIndex mi rf3, [GoHeartBeat; GoCommit]).

Definition startAElection (rf : Raft) : outcome (Raft * list effect) :=
  if decide (raftState rf = RaftLeader) then Ret (rf, [])
  else
    let rf1 := set_raftState RaftCandidate (set_currentTerm (currentTerm rf + 1) rf) in
    let rf2 := persist (set_voteFor (me rf) (set_gotVotes 1 rf1)) in
    lastTerm ← GetLastLogTerm rf2;
    let args := {| rv_Term := currentTerm rf2; CandidateId := me rf2;
                   LastLogIndex := GetLastLogIndex rf2; LastLogTerm := lastTerm |} in
    Ret (rf2, (λ i, SendRequestVote (Z.of_nat i) args)
                <$> filter (λ i, Z.of_nat i ≠ me rf2) (seq 0 (peers rf2))).

(** ** The service's operations *)

Definition GetState (rf : Raft) : Z * bool :=
  (currentTerm rf, bool_decide (raftState rf = RaftLeader)).

Definition GetLeader (rf : Raft) : Z := leaderID rf.

Definition Start (command : option Cmd) (rf : Raft) : Raft * list effect * (Z * Z * bool) :=
  if decide (raftState rf ≠ RaftLeader) then (rf, [], (0, 0, false))
  else
    let entry := {| e_Term := currentTerm rf; e_Command := command |} in
    let rf1 := persist (set_logs (logs rf ++ [entry]) rf) in
    (rf1, [NewEntry], (GetLastLogIndex rf1, currentTerm rf1, true)).

Definition Snapshot (i : Z) (snap : option Snap) (rf : Raft) : outcome Raft :=
  if decide (i < snapshotIndex rf) then Ret rf
  else if decide (i > GetLastLogIndex rf) then Fatal
  else
    ls ← go_drop (logs rf) (index rf i);
    Ret (persist (set_snapshot snap (set_snapshotIndex i (set_logs ls rf)))).

(** ** AppendEntries *)

(** [for XIndex > rf.snapshotIndex && rf.log(XIndex).Term == term { XIndex-- }];
    the fuel is the number of iterations the first conjunct allows *)
Fixpoint back_over_term (rf : Raft) (term : Z) (fuel : nat) (XIndex : Z) : outcome Z :=
  match fuel with
  | O => Ret XIndex
  | S fuel' =>
      if decide (XIndex > snapshotIndex rf) then
        e ← log rf XIndex;
        if decide (e_Term e = term) then back_over_term rf term fuel' (XIndex - 1)
        else Ret XIndex
      else Ret XIndex
  end.

(** the loop that skips the entries already present: the first local index not
    covered and the entries left *)
Fixpoint skip_present (rf : Raft) (localLogIndex : Z) (entries : list LogEntry)
    : outcome (Z * list LogEntry) :=
  match entries with
  | [] => Ret (localLogIndex, [])
  | e :: rest =>
      if decide (localLogIndex ≤ GetLastLogIndex rf) then
        l ← log rf localLogIndex;
        if decide (e_Term l = e_Term e) then skip_present rf (localLogIndex + 1) rest
        else Ret (localLogIndex, entries)
      else Ret (localLogIndex, entries)
  end.

(** the last part of the handler: truncate and append, advance the commit
    index, persist *)
Definition AppendEntries_accept (rf : Raft) (args : AppendEntriesArgs)
    : outcome (Raft * list effect) :=
  '(localLogIndex, rest) ← skip_present rf (PrevLogIndex args + 1) (Entries args);
  rf1 ← (match rest with
         | [] => Ret rf
         | _ => ls ← go_take (logs rf) (index rf localLogIndex); Ret (set_logs (ls ++ rest) rf)
         end);
  let '(rf2, eff) :=
    if decide (LeaderCommit args > commitIndex rf1) then
      let newCommitIndex := Z.min (LeaderCommit args) (GetLastLogIndex rf1) in
      (set_commitIndex newCommitIndex rf1,
       if decide (newCommitIndex > commitIndex rf1) then [ApplySignal] else [])
    else (rf1, []) in
  Ret (persist rf2, eff).

Definition AppendEntries (clk : clock) (rf : Raft) (args : AppendEntriesArgs)
    : outcome (Raft * list effect * AppendEntriesReply) :=
  let reply ok xterm xindex xlen :=
    {| aer_Term := currentTerm rf; Success := ok; XTerm := xterm; XIndex := xindex; XLen := xlen |} in
  if decide (ae_Term args < currentTerm rf) then Ret (rf, [], reply false 0 0 0)
  else
    let rf1 := resetElectionTimer clk rf in
    let '(rf2, eff) :=
      if decide (ae_Term args > currentTerm rf1 ∨ raftState rf1 ≠ RaftFollower)
      then updateTermAndBecomeFollower (ae_Term args) rf1 else (rf1, []) in
    let rf3 := set_leaderID (ae_LeaderID args) rf2 in
    if decide (PrevLogIndex args < snapshotIndex rf3) then
      Ret (rf3, eff, reply false (-1) (-1) (snapshotIndex rf3 + 1))
    else if decide (PrevLogIndex args > GetLastLogIndex rf3) then
      Ret (rf3, eff, reply false (-1) (-1) (zlen (logs rf3) + snapshotIndex rf3))
    else
      prev ← log rf3 (PrevLogIndex args);
      if decide (PrevLogTerm args ≠ e_Term prev) then
        xi ← back_over_term rf3 (e_Term prev)
               (Z.to_nat (PrevLogIndex args - snapshotIndex rf3)) (PrevLogIndex args);
        if decide (xi = snapshotIndex rf3) then
          Ret (rf3, eff, reply false (-1) (-1) (snapshotIndex rf3 + 1))
        else Ret (rf3, eff, reply false (e_Term prev) (xi + 1) (-1))
      else
        '(rf4, eff') ← AppendEntries_accept rf3 args;
        Ret (rf4, eff ++ eff', reply true 0 0 0).

(** ** RequestVote *)

Definition RequestVote (clk : clock) (rf : Raft) (args : RequestVoteArgs)
    : outcome (Raft * list effect * RequestVoteReply) :=
  if decide (rv_Term args < currentTerm rf) then
    Ret (rf, [], {| rvr_Term := currentTerm rf; VoteGranted := false |})
  else
    let '(rf1, eff) :=
      if decide (rv_Term args > currentTerm rf)
      then updateTermAndBecomeFollower (rv_Term args) rf else (rf, []) in
    let reply granted := {| rvr_Term := currentTerm rf1; VoteGranted := granted |} in
    let grant :=
      persist (resetElectionTimer clk (set_voteFor (CandidateId args) rf1)) in
    if decide (voteFor rf1 ≠ -1 ∧ voteFor rf1 ≠ CandidateId args) then Ret (rf1, eff, reply false)
    else if decide (voteFor rf1 = CandidateId args) then Ret (rf1, eff, reply true)
    else
      lastTerm ← GetLastLogTerm rf1;
      if decide (LastLogTerm args > lastTerm) then Ret (grant, eff, reply true)
      else if decide (LastLogTerm args < lastTerm) then Ret (rf1, eff, reply false)
      else if decide (GetLastLogIndex rf1 ≤ LastLogIndex args) then Ret (grant, eff, reply true)
      else Ret (rf1, eff, reply false).

(** ** InstallSnapshot *)

Definition InstallSnapshot (clk : clock) (rf : Raft) (args : InstallSnapshotArgs)
    : outcome (Raft * list effect * InstallSnapshotReply) :=
  if decide (is_Term args < currentTerm rf) then Ret (rf, [], {| isr_Term := currentTerm rf |})
  else
    let '(rf1, eff) :=
      if decide (is_Term args > currentTerm rf)
      then updateTermAndBecomeFollower (is_Term args) rf else (rf, []) in
    let reply := {| isr_Term := currentTerm rf1 |} in
    let rf2 := set_leaderID (is_LeaderID args) (resetElectionTimer clk rf1) in
    if decide (LastIncludedIndex args ≤ snapshotIndex rf2) then Ret (rf2, eff, reply)
    else
      let dummy := {| e_Term := LastIncludedTerm args; e_Command := None |} in
      ls ← (if decide (GetLastLogIndex rf2 > LastIncludedIndex args) then
              kept ← go_drop (logs rf2) (index rf2 (LastIncludedIndex args + 1));
              Ret (dummy :: kept)
            else Ret [dummy]);
      let rf3 := set_snapshotIndex (LastIncludedIndex args)
                   (set_snapshot (Data args) (set_logs ls rf2)) in
      let rf4 := if decide (commitIndex rf3 < LastIncludedIndex args)
                 then set_commitIndex (LastIncludedIndex args) rf3 else rf3 in
      let rf5 := if decide (lastApplied rf4 < LastIncludedIndex args)
                 then set_lastApplied (LastIncludedIndex args) rf4 else rf4 in
      Ret (persist rf5,
           eff ++ [Apply {| CommandValid := false; am_Command := None; CommandIndex := 0;
                            SnapshotValid := true; am_Snapshot := Data args;
                            SnapshotTerm := LastIncludedTerm args;
                            SnapshotIndex := LastIncludedIndex args |}],
           reply).

(** ** Replies: what the sending goroutines do once [Call] returned true *)

Definition sendRequestVote_reply (clk : clock) (rf : Raft) (args : RequestVoteArgs)
    (reply : RequestVoteReply) : outcome (Raft * list effect) :=
  if decide (rv_Term args < currentTerm rf) then Ret (rf, [])
  else if decide (rvr_Term reply < currentTerm rf) then Ret (rf, [])
  else if decide (rvr_Term reply > currentTerm rf) then
    Ret (updateTermAndBecomeFollower (rvr_Term reply) rf)
  else if decide (raftState rf = RaftCandidate ∧ VoteGranted reply = true ∧ gotVotes rf > 0) then
    let rf1 := set_gotVotes (gotVotes rf + 1) rf in
    if decide (gotVotes rf1 > Z.of_nat (peers rf1) / 2) then becomeLeader clk rf1
    else Ret (rf1, [])
  else Ret (rf, []).

(** [for i := last; i > snapshotIndex; i-- { if log(i).Term == term { return i } }; return 0] *)
Fixpoint lastIndexForTerm_from (rf : Raft) (term : Z) (fuel : nat) (i : Z) : outcome Z :=
  match fuel with
  | O => Ret 0
  | S fuel' =>
      if decide (i > snapshotIndex rf) then
        e ← log rf i;
        if decide (e_Term e = term) then Ret i else lastIndexForTerm_from rf term fuel' (i - 1)
      else Ret 0
  end.

Definition lastIndexForTerm (rf : Raft) (term : Z) : outcome Z :=
  lastIndexForTerm_from rf term (length (logs rf)) (GetLastLogIndex rf).

Definition sendAppendEntries_reply (rf : Raft) (server : Z) (args : AppendEntriesArgs)
    (reply : AppendEntriesReply) : outcome (Raft * list effect) :=
  let matchIndexShouldBe := PrevLogIndex args + zlen (Entries args) in
  let nextIndexShouldBe := matchIndexShouldBe + 1 in
  if decide (ae_Term args < currentTerm rf) then Ret (rf, [])
  else if decide (aer_Term reply < currentTerm rf) then Ret (rf, [])
  else if decide (aer_Term reply > currentTerm rf) then
    Ret (updateTermAndBecomeFollower (aer_Term reply) rf)
  else if Success reply then
    ni ← go_index (nextIndex rf) server;
    nis ← go_update (nextIndex rf) server (Z.max ni nextIndexShouldBe);
    mi ← go_index (matchIndex rf) server;
    mis ← go_update (matchIndex rf) server (Z.max mi matchIndexShouldBe);
    Ret (set_matchIndex mis (set_nextIndex nis rf), [])
  else if decide (XLen reply ≠ -1) then
    nis ← go_update (nextIndex rf) server (XLen reply); Ret (set_nextIndex nis rf, [])
  else if decide (XIndex reply ≠ -1) then
    i ← lastIndexForTerm rf (XTerm reply);
    nis ← go_update (nextIndex rf) server (if decide (i = 0) then XIndex reply else i + 1);
    Ret (set_nextIndex nis rf, [])
  else Ret (rf, []).

Definition sendInstallSnapshot_reply (rf : Raft) (server : Z) (args : InstallSnapshotArgs)
    (reply : InstallSnapshotReply) : outcome (Raft * list effect) :=
  if decide (is_Term args < currentTerm rf) then Ret (rf, [])
  else if decide (isr_Term reply < currentTerm rf) then Ret (rf, [])
  else if decide (isr_Term reply > currentTerm rf) then
    Ret (updateTermAndBecomeFollower (isr_Term reply) rf)
  else
    mi ← go_index (matchIndex rf) server;
    mis ← go_update (matchIndex rf) server (Z.max mi (LastIncludedIndex args));
    ni ← go_index (nextIndex rf) server;
    nis ← go_update (nextIndex rf) server (Z.max ni (LastIncludedIndex args + 1));
    Ret (set_nextIndex nis (set_matchIndex mis rf), []).

(** ** One iteration of each background goroutine *)

(** [ticker]: [None] when the loop ends *)
Definition ticker_iteration (clk : clock) (rf : Raft) : outcome (option (Raft * list effect)) :=
  if decide (raftState rf = RaftLeader) then Ret None
  else if decide (now clk - electionTimerStart rf > timeout rf) then
    '(rf1, eff) ← startAElection rf;
    Ret (Some (resetElectionTimer clk rf1, eff))
  else Ret (Some (rf, [])).

(** what [heartBeat] sends to server [i], whose next index is [next].  The
    entries are those of the log now.  In the code the request shares the log's
    array until it is encoded, outside the lock: it carries these entries as long
    as the peer only appends to its log meanwhile, but not when it truncates it
    (RaftSlices). *)
Definition heartBeat_send (rf : Raft) (i next : Z) : outcome effect :=
  if decide (next ≤ snapshotIndex rf) then
    e0 ← go_index (logs rf) 0;
    Ret (SendInstallSnapshot i
      {| is_Term := currentTerm rf; is_LeaderID := me rf; LastIncludedIndex := snapshotIndex rf;
         LastIncludedTerm := e_Term e0; Offset := 0; Data := snapshot rf; Done := true |})
  else
    prev ← log rf (next - 1);
    entries ← go_drop (logs rf) (index rf next);
    Ret (SendAppendEntries i
      {| ae_Term := currentTerm rf; ae_LeaderID := me rf; PrevLogIndex := next - 1;
         PrevLogTerm := e_Term prev; Entries := entries; LeaderCommit := commitIndex rf |}).

(** [for i, nextIndex := range rf.nextIndex] *)
Fixpoint heartBeat_range (rf : Raft) (i : Z) (nexts : list Z) : outcome (list effect) :=
  match nexts with
  | [] => Ret []
  | next :: nexts' =>
      if decide (i = me rf) then heartBeat_range rf (i + 1) nexts'
      else
        e ← heartBeat_send rf i next;
        es ← heartBeat_range rf (i + 1) nexts';
        Ret (e :: es)
  end.

Definition heartBeat_iteration (rf : Raft) : outcome (option (list effect)) :=
  if decide (raftState rf ≠ RaftLeader) then Ret None
  else es ← heartBeat_range rf 0 (nextIndex rf); Ret (Some es).

(** [commit]: the median of [matchIndex] *)
Definition commit_iteration (rf : Raft) : outcome (option (Raft * list effect)) :=
  if decide (raftState rf ≠ RaftLeader) then Ret None
  else
    mis ← go_update (matchIndex rf) (me rf) (GetLastLogIndex rf);
    let rf1 := set_matchIndex mis rf in
    let sorted := merge_sort Z.le (matchIndex rf1) in
    majorityIndex ← go_index sorted (zlen sorted / 2);
    if decide (majorityIndex > commitIndex rf1) then
      e ← log rf1 majorityIndex;
      if decide (e_Term e = currentTerm rf1)
      then Ret (Some (set_commitIndex majorityIndex rf1, [ApplySignal]))
      else Ret (Some (rf1, []))
    else Ret (Some (rf1, [])).

(** [apply]: wait until the indices differ ([None]: still waiting), collect the
    messages under the lock; they are sent after it is released *)
Fixpoint apply_collect (rf : Raft) (i : Z) (n : nat) : outcome (list ApplyMsg) :=
  match n with
  | O => Ret []
  | S n' =>
      e ← log rf i;
      ms ← apply_collect rf (i + 1) n';
      Ret ({| CommandValid := true; am_Command := e_Command e; CommandIndex := i;
              SnapshotValid := false; am_Snapshot := None;
              SnapshotTerm := 0; SnapshotIndex := 0 |} :: ms)
  end.

Definition apply_iteration (rf : Raft) : outcome (option (Raft * list ApplyMsg)) :=
  if decide (commitIndex rf = lastApplied rf) then Ret None
  else if decide (commitIndex rf < lastApplied rf) then
    Panic (* make([]ApplyMsg, end-start+1): the length is negative *)
  else
    ms ← apply_collect rf (lastApplied rf + 1) (Z.to_nat (commitIndex rf - lastApplied rf));
    Ret (Some (set_lastApplied (commitIndex rf) rf, ms)).

(** ** Start-up and recovery *)

Definition Make (clk : clock) (npeers : nat) (self : Z) (ps : Persister) : Raft * list effect :=
  let rf := {| peers := npeers; me := self; persister := ps; raftState := RaftFollower;
               currentTerm := 0; voteFor := -1;
               logs := [{| e_Term := 0; e_Command := None |}];
               commitIndex := 0; lastApplied := 0; nextIndex := []; matchIndex := [];
               electionTimerStart := 0; timeout := 0; gotVotes := 0; leaderID := -1;
               snapshotIndex := 0; snapshot := None |} in
  let rf1 := set_snapshot (ReadSnapshot ps) (readPersist (ReadRaftState ps) rf) in
  let rf2 := if decide (snapshotIndex rf1 ≠ 0)
             then set_lastApplied (snapshotIndex rf1) (set_commitIndex (snapshotIndex rf1) rf1)
             else rf1 in
  (resetElectionTimer clk rf2, [GoTicker]).
End raft.

Arguments LogEntry : clear implicits.
Arguments gobval : clear implicits.
Arguments Persister : clear implicits.
Arguments Raft : clear implicits.
Arguments ApplyMsg : clear implicits.
Arguments AppendEntriesArgs : clear implicits.
Arguments InstallSnapshotArgs : clear implicits.
Arguments effect : clear implicits.
