(* ===== verification/RaftSlices.v ===== *)
(** * The log's slice and the requests that share it (raft1/raft.go)

    [rf.logs] is a Go slice: part of an array that other slices may share.
    RaftNode keeps the log as a list; here the slice operations of the code are
    shown to do to the log what RaftNode says.  A request takes its entries from
    the log without copying them (line 912) and is encoded outside the lock: it
    carries the entries of the moment it was made as long as the peer's log is not
    truncated before, which a leader never does; after a truncation it can carry
    entries that replaced them. *)

From S2P Require Import Prelude RaftNode.

Section slices.
Context {E : Type}.

(** arrays by identity, each as long as its capacity; a slice's capacity ends
    with its array *)
Abbreviation heap := (list (list E)).
Record slice := { s_arr : nat; s_off : nat; s_len : nat }.

Definition array (h : heap) (s : slice) : list E := default [] (h !! s_arr s).
Definition slice_read (h : heap) (s : slice) : list E := take (s_len s) (drop (s_off s) (array h s)).
Definition slice_cap (h : heap) (s : slice) : nat := length (array h s) - s_off s.

(** [s[i:]] and [s[:i]] within the slice *)
Definition slice_from (i : nat) (s : slice) : slice :=
  {| s_arr := s_arr s; s_off := s_off s + i; s_len := s_len s - i |}.
Definition slice_to (i : nat) (s : slice) : slice := {| s_arr := s_arr s; s_off := s_off s; s_len := i |}.

(** elements [l] stored from position [i] on *)
Definition store (i : nat) (l a : list E) : list E := take i a ++ l ++ drop (i + length l) a.

Definition alloc (a : list E) (n : nat) (h : heap) : heap * slice :=
  (h ++ [a], {| s_arr := length h; s_off := 0; s_len := n |}).

(** [append(s, es...)]; [spare]: what a new array holds behind them *)
Definition slice_append (s : slice) (es spare : list E) (h : heap) : heap * slice :=
  if decide (s_len s + length es ≤ slice_cap h s)%nat
  then (<[s_arr s := store (s_off s + s_len s) es (array h s)]> h,
        {| s_arr := s_arr s; s_off := s_off s; s_len := s_len s + length es |})
  else alloc (slice_read h s ++ es ++ spare) (s_len s + length es) h.

(** ** What the code does to [rf.logs] *)
Inductive log_op :=
| LAppend (es spare : list E)               (** [Start], and [AppendEntries] behind the log *)
| LTruncate (i : nat) (es spare : list E)   (** [AppendEntries] when an entry conflicts *)
| LFrom (i : nat)                           (** [Snapshot] *)
| LNew (l spare : list E).                  (** [InstallSnapshot], [readPersist], [Make] *)

Definition log_exec (o : log_op) (st : heap * slice) : heap * slice :=
  let '(h, s) := st in
  match o with
  | LAppend es spare => slice_append s es spare h
  | LTruncate i es spare => slice_append (slice_to i s) es spare h
  | LFrom i => (h, slice_from i s)
  | LNew l spare => alloc (l ++ spare) (length l) h
  end.

(** the operation on lists *)
Definition log_spec (o : log_op) (l : list E) : list E :=
  match o with
  | LAppend es _ => l ++ es
  | LTruncate i es _ => take i l ++ es
  | LFrom i => drop i l
  | LNew l' _ => l'
  end.

(** indices are within the log *)
Definition op_fits (o : log_op) (s : slice) : Prop :=
  match o with LTruncate i _ _ | LFrom i => (i ≤ s_len s)%nat | _ => True end.

Definition slice_ok (h : heap) (s : slice) : Prop := ∃ a, h !! s_arr s = Some a ∧ (s_off s + s_len s ≤ length a)%nat.

Lemma slice_ok_to h s i : slice_ok h s → (i ≤ s_len s)%nat → slice_ok h (slice_to i s).
Proof. intros (a & Ha & Hl) Hi. exists a. simpl. split; [done|lia]. Qed.

Lemma slice_read_to h s i : (i ≤ s_len s)%nat → slice_read h (slice_to i s) = take i (slice_read h s).
Proof. intros Hi. unfold slice_read, array. simpl. rewrite take_take. f_equal. lia. Qed.

Lemma length_store i l a : (i + length l ≤ length a)%nat → length (store i l a) = length a.
Proof. intros Hi. unfold store. rewrite !length_app, length_take, length_drop. lia. Qed.

(** what is stored behind a part of the array leaves the part alone *)
Lemma store_before i l a off n : (off + n ≤ i)%nat → (i ≤ length a)%nat →
  take n (drop off (store i l a)) = take n (drop off a).
Proof.
  intros Hn Hi. apply list_eq. intros j. destruct (decide (j < n)%nat).
  - rewrite !lookup_take_lt, !lookup_drop by done. unfold store.
    by rewrite lookup_app_l, lookup_take_lt by (rewrite ?length_take; lia).
  - by rewrite !lookup_take_ge by lia.
Qed.

Lemma store_behind off n l a : (off + n + length l ≤ length a)%nat →
  take (n + length l) (drop off (store (off + n) l a)) = take n (drop off a) ++ l.
Proof.
  intros Hl. unfold store. rewrite <-(take_take_drop a off n), <-app_assoc.
  rewrite drop_app_length' by (rewrite length_take; lia). rewrite app_assoc.
  by rewrite take_app_length' by (rewrite length_app, length_take, length_drop; lia).
Qed.

Lemma array_lookup h s a : h !! s_arr s = Some a → array h s = a.
Proof. unfold array. by intros ->. Qed.

Lemma slice_append_ok s es spare h h' s' : slice_ok h s → slice_append s es spare h = (h', s') →
  slice_ok h' s' ∧ slice_read h' s' = slice_read h s ++ es.
Proof.
  intros (a & Ha & Hl) E0. unfold slice_append, slice_cap, slice_read in *. rewrite (array_lookup h s a Ha) in *.
  assert (length (take (s_len s) (drop (s_off s) a)) = s_len s) as Hlen by (rewrite length_take, length_drop; lia).
  pose proof (lookup_lt_Some _ _ _ Ha) as Hlt. destruct (decide _) as [Hc|_].
  - injection E0 as <- <-. assert (<[s_arr s := store (s_off s + s_len s) es a]> h !! s_arr s
      = Some (store (s_off s + s_len s) es a)) as Ha' by (by apply list_lookup_insert_eq).
    split.
    + eexists. split; [exact Ha'|]. simpl. rewrite length_store; lia.
    + unfold array. simpl. rewrite Ha'. simpl. apply store_behind. lia.
  - unfold alloc in E0. injection E0 as <- <-. split.
    + eexists. simpl. rewrite lookup_app_r, Nat.sub_diag by lia. split; [done|]. simpl.
      rewrite !length_app. lia.
    + unfold array. simpl. rewrite lookup_app_r, Nat.sub_diag by lia. simpl. rewrite drop_0, app_assoc.
      apply take_app_length'. rewrite length_app. lia.
Qed.

(** The slice operations of the code do what RaftNode says they do to the list,
    whatever arrays are shared and however much room they have. *)
Theorem log_exec_spec o h s h' s' : slice_ok h s → op_fits o s → log_exec o (h, s) = (h', s') →
  slice_ok h' s' ∧ slice_read h' s' = log_spec o (slice_read h s).
Proof.
  intros Hok Hf E0. destruct o as [es spare|i es spare|i|l spare]; simpl in *.
  - by eapply slice_append_ok.
  - eapply slice_append_ok in E0 as [? E1]; [|by apply slice_ok_to]. split; [done|]. by rewrite E1, slice_read_to.
  - injection E0 as <- <-. destruct Hok as (a & Ha & Hl). split; [exists a; simpl; split; [done|lia]|].
    unfold slice_read, array. simpl. rewrite <-drop_drop, (take_drop_commute _ (s_len s - i)). do 2 f_equal. lia.
  - unfold alloc in E0. injection E0 as <- <-. split.
    + eexists. simpl. rewrite lookup_app_r, Nat.sub_diag by lia. split; [done|]. rewrite length_app. lia.
    + unfold slice_read, array. simpl. rewrite lookup_app_r, Nat.sub_diag by lia. simpl. rewrite drop_0. by apply take_app_length'.
Qed.

(** ** Requests *)

(** the request's part of the array is not written any more: the log is in
    another array, or ends behind it *)
Definition behind (r : slice) (h : heap) (s : slice) : Prop :=
  slice_ok h s ∧ (s_arr r < length h)%nat ∧ (s_arr s = s_arr r → (s_off r + s_len r ≤ s_off s + s_len s)%nat).

Definition truncates (o : log_op) : bool := match o with LTruncate _ _ _ => true | _ => false end.

Lemma append_behind r s es spare h h' s' : behind r h s → slice_append s es spare h = (h', s') →
  behind r h' s' ∧ slice_read h' r = slice_read h r.
Proof.
  intros (Hok & Hr & Hb) E0. destruct (slice_append_ok _ _ _ _ _ _ Hok E0) as [Hok' _].
  destruct Hok as (a & Ha & Hl). unfold slice_append in E0. destruct (decide _).
  - injection E0 as <- <-. split; [split; [done|split; [by rewrite length_insert|simpl; intros E1; specialize (Hb E1); lia]]|].
    unfold slice_read, array at 1. simpl. destruct (decide (s_arr s = s_arr r)) as [E1|Hne].
    + rewrite <-E1, list_lookup_insert_eq by (by eapply lookup_lt_Some). simpl. rewrite (array_lookup h s a Ha).
      rewrite store_before by (specialize (Hb E1); lia). unfold array. by rewrite <-E1, Ha.
    + by rewrite list_lookup_insert_ne.
  - unfold alloc in E0. injection E0 as <- <-. split.
    + split; [done|]. split; [rewrite length_app; lia|]. simpl. intros E1. lia.
    + unfold slice_read, array. by rewrite lookup_app_l.
Qed.

Lemma exec_behind r o h s h' s' : behind r h s → op_fits o s → truncates o = false → log_exec o (h, s) = (h', s') →
  behind r h' s' ∧ slice_read h' r = slice_read h r.
Proof.
  intros Hb Hf Ht E0. destruct o as [es spare|i es spare|i|l spare]; simpl in *; [by eapply append_behind|done| |].
  - pose proof (log_exec_spec (LFrom i) h s h' s' (proj1 Hb) Hf E0) as [Hok _]. injection E0 as <- <-.
    destruct Hb as (_ & Hr & Hb). split; [|done]. split; [done|]. split; [done|]. simpl. intros E1. specialize (Hb E1). lia.
  - pose proof (log_exec_spec (LNew l spare) h s h' s' (proj1 Hb) I E0) as [Hok _]. destruct Hb as (_ & Hr & _).
    unfold alloc in E0. injection E0 as <- <-. split.
    + split; [done|]. split; [rewrite length_app; lia|]. simpl. lia.
    + unfold slice_read, array. by rewrite lookup_app_l.
Qed.

Fixpoint log_execs (os : list log_op) (st : heap * slice) : heap * slice :=
  match os with [] => st | o :: os' => log_execs os' (log_exec o st) end.
Fixpoint ops_fit (os : list log_op) (st : heap * slice) : Prop :=
  match os with [] => True | o :: os' => op_fits o (snd st) ∧ ops_fit os' (log_exec o st) end.

(** A request made from the log at position [i] carries the entries the log had
    then, whenever it is encoded, as long as the log is not truncated before:
    appending, compacting and replacing the log by a snapshot do not touch them. *)
Theorem request_keeps_entries i os h s h' s' :
  slice_ok h s → (i ≤ s_len s)%nat → ops_fit os (h, s) → Forall (λ o, truncates o = false) os →
  log_execs os (h, s) = (h', s') →
  slice_read h' (slice_from i s) = drop i (slice_read h s).
Proof.
  intros Hok Hi Hf Ht E0. pose proof (log_exec_spec (LFrom i) h s h (slice_from i s) Hok Hi eq_refl) as [_ Hread].
  simpl in Hread. rewrite <-Hread. set (r := slice_from i s) in *.
  assert (behind r h s) as Hb.
  { split; [done|]. destruct Hok as (a & Ha & _). split; [by eapply lookup_lt_Some|]. simpl. lia. }
  clear Hread Hok Hi. clearbody r. revert h s Hf E0 Hb. induction Ht as [|o os Ho _ IH]; intros h s Hf E0 Hb.
  { by injection E0 as <- <-. }
  destruct Hf as [Hf Hfs]. cbn [log_execs snd] in *. destruct (log_exec o (h, s)) as [h1 s1] eqn:E1.
  destruct (exec_behind r o h s h1 s1 Hb Hf Ho E1) as [Hb1 <-]. by apply (IH h1 s1).
Qed.
End slices.

(** *** A request overtaken by a truncation *)

Definition sl_entry (t : Z) (cmd : nat) : LogEntry nat := {| e_Term := t; e_Command := Some cmd |}.
(** a leader of term 1 with two entries, in an array with room for one more *)
Definition sl_heap : list (list (LogEntry nat)) :=
  [[{| e_Term := 0; e_Command := None |}; sl_entry 1 10; sl_entry 1 11; {| e_Term := 0; e_Command := None |}]].
Definition sl_log : slice := {| s_arr := 0; s_off := 0; s_len := 3 |}.

Lemma request_keeps_entries_witness :
  slice_read (fst (log_execs [LAppend [sl_entry 1 12] []; LAppend [sl_entry 1 13] []; LFrom 2] (sl_heap, sl_log))) (slice_from 1 sl_log)
  = [sl_entry 1 10; sl_entry 1 11].
Proof.
  refine (request_keeps_entries 1 [LAppend [sl_entry 1 12] []; LAppend [sl_entry 1 13] []; LFrom 2] sl_heap sl_log _ _ _ _ _ _ eq_refl).
  - eexists. split; [reflexivity|]. simpl. lia.
  - simpl. lia.
  - simpl. repeat split; simpl; lia.
  - by repeat constructor.
Defined.

(** The leader made a request with its two entries, then it became a follower
    and the leader of term 2 replaced them: the request, still of term 1, is
    encoded with the new entry. *)
Theorem request_overwritten :
  slice_read sl_heap (slice_from 1 sl_log) = [sl_entry 1 10; sl_entry 1 11]
  ∧ slice_read (fst (log_exec (LTruncate 1 [sl_entry 2 20] []) (sl_heap, sl_log))) (slice_from 1 sl_log)
    = [sl_entry 2 20; sl_entry 1 11].
Proof. split; vm_compute; reflexivity. Qed.
