(* ===== verification/RaftFacts.v ===== *)
(** * What each Raft operation does to the election state and to stable storage

    Frame lemmas for raft1/raft.go: which fields an operation may touch, and
    that everything the protocol keeps on stable storage is saved whenever an
    operation ends. *)

From S2P Require Import Prelude RaftNode.
Local Open Scope Z_scope.

Section facts.
Context {Cmd Snap : Type}.
Implicit Types (rf : Raft Cmd Snap) (clk : clock).

(** the fields that decide elections *)
Definition view rf : Z * Z * RaftState * Z :=
  (currentTerm rf, voteFor rf, raftState rf, gotVotes rf).

(** identity and membership never change *)
Definition same_id rf rf' : Prop := peers rf' = peers rf ∧ me rf' = me rf.

Lemma same_id_refl rf : same_id rf rf.
Proof. done. Qed.
Lemma same_id_trans rf1 rf2 rf3 : same_id rf1 rf2 → same_id rf2 rf3 → same_id rf1 rf3.
Proof. intros [? ?] [? ?]; split; congruence. Qed.
#[local] Hint Resolve same_id_refl same_id_trans : core.

(** the five fields on stable storage *)
Definition stable rf : Z * Z * list (LogEntry Cmd) * Z * option Snap :=
  (currentTerm rf, voteFor rf, logs rf, snapshotIndex rf, snapshot rf).

Lemma stable_fields rf rf' : stable rf' = stable rf →
  currentTerm rf' = currentTerm rf ∧ voteFor rf' = voteFor rf ∧ logs rf' = logs rf
  ∧ snapshotIndex rf' = snapshotIndex rf ∧ snapshot rf' = snapshot rf.
Proof. by intros [=]. Qed.

(** a restart from the saved state would bring them back *)
Definition recoverable rf : Prop :=
  ∀ clk, stable (fst (Make clk (peers rf) (me rf) (persister rf))) = stable rf.

(** [rf] steps down to term [t] *)
Definition down (t : Z) : Z * Z * RaftState * Z := (t, -1, RaftFollower, 0).

Lemma persist_recoverable rf : recoverable (persist rf).
Proof.
  intros clk. unfold Make, persist, stable. simpl.
  case_decide; reflexivity.
Qed.

(** operations that leave stable fields and storage alone keep recoverability *)
Lemma recoverable_frame rf rf' :
  recoverable rf → same_id rf rf' → persister rf' = persister rf → stable rf' = stable rf →
  recoverable rf'.
Proof. intros Hr [Hp Hm] Hps Hst clk. by rewrite Hp, Hm, Hps, Hr. Qed.

Lemma update_view t rf : view (fst (updateTermAndBecomeFollower t rf)) = down t.
Proof. reflexivity. Qed.

Lemma update_frame t rf :
  same_id rf (fst (updateTermAndBecomeFollower t rf))
  ∧ logs (fst (updateTermAndBecomeFollower t rf)) = logs rf
  ∧ snapshotIndex (fst (updateTermAndBecomeFollower t rf)) = snapshotIndex rf
  ∧ snapshot (fst (updateTermAndBecomeFollower t rf)) = snapshot rf
  ∧ commitIndex (fst (updateTermAndBecomeFollower t rf)) = commitIndex rf
  ∧ lastApplied (fst (updateTermAndBecomeFollower t rf)) = lastApplied rf.
Proof. done. Qed.

Lemma update_recoverable t rf : recoverable (fst (updateTermAndBecomeFollower t rf)).
Proof.
  eapply recoverable_frame; [apply persist_recoverable|done|reflexivity|reflexivity].
Qed.

Lemma accept_view rf args rf' eff :
  AppendEntries_accept rf args = Ret (rf', eff) →
  view rf' = view rf ∧ same_id rf rf' ∧ recoverable rf'.
Proof.
  unfold AppendEntries_accept. intros E.
  apply outcome_bind_ret in E as ([lx rest] & _ & E).
  apply outcome_bind_ret in E as (rf1 & E1 & E).
  assert (view rf1 = view rf ∧ same_id rf rf1) as [Hv Hid].
  { destruct rest; go_inv; done. }
  destruct (decide (LeaderCommit args > commitIndex rf1)); go_inv;
    (split; [exact Hv|split; [exact Hid|apply persist_recoverable]]).
Qed.

(** [AppendEntries] keeps the election state, or steps down: to a larger term,
    or within its term when the receiver was not a follower *)
Lemma AppendEntries_view clk rf args rf' eff reply :
  AppendEntries clk rf args = Ret (rf', eff, reply) →
  same_id rf rf' ∧ (recoverable rf → recoverable rf') ∧
  (view rf' = view rf
   ∨ view rf' = down (ae_Term args)
     ∧ (currentTerm rf < ae_Term args
        ∨ currentTerm rf = ae_Term args ∧ raftState rf ≠ RaftFollower)).
Proof.
  unfold AppendEntries. intros E. destruct (decide _) as [|Hge]; [go_inv; auto|].
  set (rf1 := resetElectionTimer clk rf) in *.
  destruct (if decide _ then _ else _) as [rf2 eff2] eqn:E2.
  set (rf3 := set_leaderID (ae_LeaderID args) rf2) in *.
  assert (same_id rf rf3 ∧ (recoverable rf → recoverable rf3) ∧
    (view rf3 = view rf ∨ view rf3 = down (ae_Term args)
     ∧ (currentTerm rf < ae_Term args ∨ currentTerm rf = ae_Term args ∧ raftState rf ≠ RaftFollower)))
    as (Hid & Hrec & Hview).
  { destruct (decide _) as [Hc|Hc]; injection E2 as E2 _; subst rf2 rf3.
    - split; [done|]. split.
      + intros _. eapply recoverable_frame; [apply (update_recoverable (ae_Term args) rf1)|done..].
      + right. split; [done|]. subst rf1; simpl in Hc. destruct Hc; [left; lia|].
        destruct (decide (currentTerm rf = ae_Term args)); [auto|left; lia].
    - split; [done|]. split; [|by left]. intros Hr. by eapply recoverable_frame. }
  clearbody rf3. clear E2.
  repeat (destruct (decide _); [go_inv; auto|]).
  apply outcome_bind_ret in E as (prev & _ & E).
  destruct (decide _).
  - apply outcome_bind_ret in E as (xi & _ & E). go_inv; auto.
  - apply outcome_bind_ret in E as ([rf4 eff4] & E4 & E). go_inv.
    apply accept_view in E4 as (Hv & ? & ?). rewrite Hv. split; [eauto|]. auto.
Qed.

(** [RequestVote]: perhaps step down to the candidate's larger term, then
    perhaps record the vote *)
Lemma RequestVote_view clk rf args rf' eff reply :
  RequestVote clk rf args = Ret (rf', eff, reply) →
  same_id rf rf' ∧ (recoverable rf → recoverable rf') ∧
  ∃ rf1,
    (view rf1 = view rf ∧ rv_Term args ≤ currentTerm rf
     ∨ view rf1 = down (rv_Term args) ∧ currentTerm rf < rv_Term args)
    ∧ (view rf' = view rf1 ∧ (VoteGranted reply = true → currentTerm rf1 = rv_Term args ∧ voteFor rf1 = CandidateId args)
       ∨ VoteGranted reply = true ∧ currentTerm rf1 = rv_Term args ∧ voteFor rf1 = -1
         ∧ view rf' = (currentTerm rf1, CandidateId args, raftState rf1, gotVotes rf1)).
Proof.
  unfold RequestVote. intros E. destruct (decide _) as [|Hge].
  { go_inv. split; [done|]. split; [done|]. exists rf'. split; [left; split; [done|lia]|by left]. }
  destruct (if decide _ then _ else _) as [rf1 eff1] eqn:E1.
  assert (same_id rf rf1 ∧ (recoverable rf → recoverable rf1) ∧ currentTerm rf1 = rv_Term args ∧
    (view rf1 = view rf ∧ rv_Term args ≤ currentTerm rf
     ∨ view rf1 = down (rv_Term args) ∧ currentTerm rf < rv_Term args)) as (Hid & Hrec & Hterm & Hv).
  { destruct (decide _) as [Hc|Hc]; injection E1 as E1 _; subst rf1.
    - split; [done|]. split; [intros _; apply update_recoverable|]. split; [done|]. right. split; [done|lia].
    - split; [done|]. split; [done|]. split; [lia|]. left. split; [done|lia]. }
  clear E1.
  set (grant := persist _) in E.
  assert (same_id rf1 grant ∧ view grant = (currentTerm rf1, CandidateId args, raftState rf1, gotVotes rf1)
          ∧ recoverable grant) as (Hgid & Hgv & Hgr).
  { split_and!; [done..|apply persist_recoverable]. }
  clearbody grant.
  destruct (decide _) as [|Hvote].
  { go_inv. split; [done|]. split; [done|]. exists rf'. split; [done|]. by left. }
  destruct (decide _) as [Hsame|Hsame].
  { go_inv. split; [done|]. split; [done|]. exists rf'. split; [done|]. by left. }
  assert (voteFor rf1 = -1) as Hnone.
  { destruct (decide (voteFor rf1 = -1)); [done|]. exfalso; apply Hvote; done. }
  apply outcome_bind_ret in E as (lastTerm & _ & E).
  assert (same_id rf grant) as Hid' by eauto.
  destruct (decide (LastLogTerm args > lastTerm)); [|destruct (decide (LastLogTerm args < lastTerm));
    [|destruct (decide (GetLastLogIndex rf1 ≤ LastLogIndex args))]];
    injection E as <- <- <-; simpl; (split; [done|]); (split; [auto|]); exists rf1; (split; [done|]);
    (by right; rewrite Hnone, Hgv) || (left; split; [done|discriminate]).
Qed.

(** [InstallSnapshot]: keep the election state or step down to a larger term *)
Lemma InstallSnapshot_view clk rf args rf' eff reply :
  InstallSnapshot clk rf args = Ret (rf', eff, reply) →
  same_id rf rf' ∧ (recoverable rf → recoverable rf') ∧
  (view rf' = view rf ∨ view rf' = down (is_Term args) ∧ currentTerm rf < is_Term args).
Proof.
  unfold InstallSnapshot. intros E. destruct (decide _) as [|Hge]; [go_inv; auto|].
  destruct (if decide _ then _ else _) as [rf1 eff1] eqn:E1.
  assert (same_id rf rf1 ∧ (recoverable rf → recoverable rf1) ∧
    (view rf1 = view rf ∨ view rf1 = down (is_Term args) ∧ currentTerm rf < is_Term args))
    as (Hid & Hrec & Hview).
  { destruct (decide _) as [Hc|Hc]; injection E1 as E1 _; subst rf1; [|auto].
    split; [done|]. split; [intros _; apply update_recoverable|]. right. split; [done|lia]. }
  clear E1. set (rf2 := set_leaderID _ _) in E.
  assert (same_id rf1 rf2 ∧ view rf2 = view rf1 ∧ (recoverable rf1 → recoverable rf2))
    as (Hid2 & Hv2 & Hrec2).
  { split_and!; [done..|]. intros Hr. by eapply recoverable_frame. }
  clearbody rf2. destruct (decide _).
  { injection E as <- <- <-. rewrite Hv2. split; [eauto|]. split; [auto|done]. }
  apply outcome_bind_ret in E as (ls & _ & E). injection E as <- _ _.
  split; [|split; [intros _; apply persist_recoverable|]].
  - assert (same_id rf rf2) as [Hp Hm] by eauto. unfold same_id. simpl.
    repeat case_decide; simpl; done.
  - rewrite <-Hv2 in Hview. unfold view in *; simpl. repeat case_decide; simpl; done.
Qed.

(** replies to a leader: keep the election state or step down to a larger term *)
Definition reply_view rf rf' : Prop :=
  same_id rf rf' ∧ (recoverable rf → recoverable rf') ∧
  (view rf' = view rf ∨ ∃ t, currentTerm rf < t ∧ view rf' = down t).

Lemma reply_view_update rf t :
  currentTerm rf < t → reply_view rf (fst (updateTermAndBecomeFollower t rf)).
Proof.
  intros ?. split; [done|]. split; [intros _; apply update_recoverable|]. right. eauto.
Qed.

Lemma reply_view_volatile rf rf' :
  same_id rf rf' → persister rf' = persister rf → stable rf' = stable rf → view rf' = view rf →
  reply_view rf rf'.
Proof. intros ????. split; [done|]. split; [|by left]. intros ?. by eapply recoverable_frame. Qed.

Lemma sendAppendEntries_reply_view rf server args reply rf' eff :
  sendAppendEntries_reply rf server args reply = Ret (rf', eff) → reply_view rf rf'.
Proof.
  unfold sendAppendEntries_reply. intros E.
  destruct (decide _); [injection E as <- _; by apply reply_view_volatile|].
  destruct (decide _); [injection E as <- _; by apply reply_view_volatile|].
  destruct (decide _).
  { injection E as <- _. apply reply_view_update. lia. }
  destruct (Success reply); [|destruct (decide _); [|destruct (decide _)]];
    repeat (apply outcome_bind_ret in E as (? & _ & E));
    injection E as <- _; by apply reply_view_volatile.
Qed.

Lemma sendInstallSnapshot_reply_view rf server args reply rf' eff :
  sendInstallSnapshot_reply rf server args reply = Ret (rf', eff) → reply_view rf rf'.
Proof.
  unfold sendInstallSnapshot_reply. intros E.
  destruct (decide _); [injection E as <- _; by apply reply_view_volatile|].
  destruct (decide _); [injection E as <- _; by apply reply_view_volatile|].
  destruct (decide _).
  { injection E as <- _. apply reply_view_update. lia. }
  repeat (apply outcome_bind_ret in E as (? & _ & E));
    injection E as <- _; by apply reply_view_volatile.
Qed.

(** a vote reply may also be counted, and the majority makes a leader *)
Lemma sendRequestVote_reply_view clk rf args reply rf' eff :
  sendRequestVote_reply clk rf args reply = Ret (rf', eff) →
  reply_view rf rf'
  ∨ (same_id rf rf' ∧ (recoverable rf → recoverable rf') ∧
     currentTerm rf ≤ rv_Term args ∧ rvr_Term reply = currentTerm rf ∧ VoteGranted reply = true ∧
     raftState rf = RaftCandidate ∧ 0 < gotVotes rf ∧
     ((view rf' = (currentTerm rf, voteFor rf, RaftCandidate, gotVotes rf + 1))
      ∨ Z.of_nat (peers rf) / 2 < gotVotes rf + 1
        ∧ view rf' = (currentTerm rf, -1, RaftLeader, 0))).
Proof.
  unfold sendRequestVote_reply. intros E.
  destruct (decide _); [injection E as <- _; left; by apply reply_view_volatile|].
  destruct (decide _); [injection E as <- _; left; by apply reply_view_volatile|].
  destruct (decide _).
  { injection E as <- _. left. apply reply_view_update. lia. }
  destruct (decide _) as [(Hst & Hgr & Hgv)|]; [|injection E as <- _; left; by apply reply_view_volatile].
  right. set (rf1 := set_gotVotes (gotVotes rf + 1) rf) in *. simpl in E.
  destruct (decide _) as [Hmaj|].
  - unfold becomeLeader in E. destruct (decide _); [done|]. destruct (decide _); [done|].
    apply outcome_bind_ret in E as (mi & _ & E). injection E as <- _.
    split; [done|]. split.
    { intros _. eapply recoverable_frame; [apply persist_recoverable|done..]. }
    split_and!; [lia|lia|done..|lia|]. right. split; [lia|done].
  - injection E as <- _. split; [done|]. split; [intros Hr; by eapply recoverable_frame|].
    split_and!; [lia|lia|done..|lia|]. left. unfold view; simpl. by rewrite Hst.
Qed.

Lemma Start_view command rf rf' eff res :
  Start command rf = (rf', eff, res) → reply_view rf rf'.
Proof.
  unfold Start. intros E. destruct (decide _); injection E as <- _ _.
  - by apply reply_view_volatile.
  - split; [done|]. split; [intros _; apply persist_recoverable|by left].
Qed.

Lemma Snapshot_view i snap rf rf' : Snapshot i snap rf = Ret rf' → reply_view rf rf'.
Proof.
  unfold Snapshot. intros E. destruct (decide _); [injection E as <-; by apply reply_view_volatile|].
  destruct (decide _); [done|]. apply outcome_bind_ret in E as (? & _ & E). injection E as <-.
  split; [done|]. split; [intros _; apply persist_recoverable|by left].
Qed.

Lemma commit_view rf rf' eff : commit_iteration rf = Ret (Some (rf', eff)) → reply_view rf rf'.
Proof.
  unfold commit_iteration. intros E. destruct (decide _); [done|].
  apply outcome_bind_ret in E as (? & _ & E). apply outcome_bind_ret in E as (? & _ & E).
  destruct (decide _); [apply outcome_bind_ret in E as (? & _ & E); destruct (decide _)|];
    injection E as <- _; by apply reply_view_volatile.
Qed.

Lemma apply_view rf rf' ms : apply_iteration rf = Ret (Some (rf', ms)) → reply_view rf rf'.
Proof.
  unfold apply_iteration. intros E. destruct (decide _); [done|]. destruct (decide _); [done|].
  apply outcome_bind_ret in E as (? & _ & E). injection E as <- _. by apply reply_view_volatile.
Qed.

(** [ticker]: nothing, or an election in the next term with a vote for itself *)
Lemma ticker_view clk rf rf' eff :
  ticker_iteration clk rf = Ret (Some (rf', eff)) →
  same_id rf rf' ∧ (recoverable rf → recoverable rf') ∧
  ((rf' = rf ∧ eff = [])
   ∨ view rf' = (currentTerm rf + 1, me rf, RaftCandidate, 1)
     ∧ ∃ args, rv_Term args = currentTerm rf + 1 ∧ CandidateId args = me rf
         ∧ eff = (λ i, SendRequestVote (Z.of_nat i) args)
                   <$> filter (λ i, Z.of_nat i ≠ me rf) (seq 0 (peers rf))).
Proof.
  unfold ticker_iteration. intros E. destruct (decide _) as [|Hnl]; [done|].
  destruct (decide _); [|injection E as <- <-; auto].
  apply outcome_bind_ret in E as ([rf1 eff1] & E1 & E). injection E as <- <-.
  unfold startAElection in E1. rewrite decide_False in E1 by done.
  apply outcome_bind_ret in E1 as (lastTerm & _ & E1). injection E1 as <- <-.
  split; [done|]. split.
  - intros _. eapply recoverable_frame; [apply persist_recoverable|done..].
  - right. split; [done|]. eexists. split; [|split; [|reflexivity]]; done.
Qed.

(** [heartBeat] sends only in the name of a leader, in its term *)
Lemma heartBeat_range_effects rf nexts i es e :
  heartBeat_range rf i nexts = Ret es → e ∈ es →
  (∃ j args, e = SendAppendEntries j args ∧ ae_Term args = currentTerm rf)
  ∨ (∃ j args, e = SendInstallSnapshot j args ∧ is_Term args = currentTerm rf).
Proof.
  revert i es. induction nexts as [|next nexts IH]; intros i es E He; simpl in E.
  { injection E as <-. by apply not_elem_of_nil in He. }
  destruct (decide _); [eauto|].
  apply outcome_bind_ret in E as (e1 & E1 & E). apply outcome_bind_ret in E as (es1 & E2 & E).
  injection E as <-. apply elem_of_cons in He as [->|]; [|eauto].
  unfold heartBeat_send in E1. destruct (decide _).
  - apply outcome_bind_ret in E1 as (? & _ & E1). injection E1 as <-. eauto 6.
  - apply outcome_bind_ret in E1 as (? & _ & E1). apply outcome_bind_ret in E1 as (? & _ & E1).
    injection E1 as <-. eauto 6.
Qed.

Lemma heartBeat_effects rf es :
  heartBeat_iteration rf = Ret (Some es) →
  raftState rf = RaftLeader ∧ ∀ e, e ∈ es →
  (∃ j args, e = SendAppendEntries j args ∧ ae_Term args = currentTerm rf)
  ∨ (∃ j args, e = SendInstallSnapshot j args ∧ is_Term args = currentTerm rf).
Proof.
  unfold heartBeat_iteration. intros E. destruct (decide _) as [|Hl]; [done|].
  apply outcome_bind_ret in E as (es' & E & E'). injection E' as <-. split.
  - destruct (decide (raftState rf = RaftLeader)); [done|by exfalso].
  - intros e. by eapply heartBeat_range_effects.
Qed.

Lemma readPersist_frame data rf :
  let rf' := readPersist data rf in
  same_id rf rf' ∧ persister rf' = persister rf ∧ raftState rf' = raftState rf
  ∧ gotVotes rf' = gotVotes rf.
Proof.
  unfold readPersist. destruct data as [|g d]; [done|].
  by destruct (Decode_int (g :: d) ≫= _) as [[[[? ?] ?] ?]|].
Qed.

Lemma Make_restart clk rf :
  recoverable rf →
  let rf' := fst (Make clk (peers rf) (me rf) (persister rf)) in
  stable rf' = stable rf ∧ same_id rf rf' ∧ recoverable rf'
  ∧ view rf' = (currentTerm rf, voteFor rf, RaftFollower, 0).
Proof.
  intros Hr rf'. specialize (Hr clk) as Hst. fold rf' in Hst.
  assert (same_id rf rf' ∧ persister rf' = persister rf ∧ raftState rf' = RaftFollower ∧ gotVotes rf' = 0)
    as (Hid & Hps & Hs & Hg).
  { subst rf'. unfold Make. cbv zeta. simpl fst.
    match goal with |- context [readPersist ?d ?r] =>
      destruct (readPersist_frame d r) as ((Hp & Hm) & Hps & Hs & Hg) end.
    destruct (decide _); done. }
  split; [done|]. split; [done|]. split.
  - intros clk'. destruct Hid as [-> ->]. by rewrite Hps, Hr, Hst.
  - clearbody rf'. injection Hst as Hc Hv _ _ _. unfold view. by rewrite Hc, Hv, Hs, Hg.
Qed.

Lemma Make_fresh clk n self :
  let rf := fst (Make (Cmd:=Cmd) (Snap:=Snap) clk n self MakePersister) in
  recoverable rf ∧ view rf = (0, -1, RaftFollower, 0) ∧ peers rf = n ∧ me rf = self.
Proof. simpl. split_and!; done. Qed.
End facts.
