(* ===== verification/RaftCluster.v ===== *)
(** * A Raft cluster: peers, in-flight RPCs, crashes

    The peers of raft1/raft.go composed with the RPC layer.  Every operation of
    RaftNode.v is one atomic action (it holds [rf.mu]); the actions of all
    goroutines of all peers interleave freely.  A [call] is a goroutine inside
    [labrpc]'s [Call]: its request runs at the target at some later time, the
    request or the reply may be lost, the reply is handled at some later time,
    and calls overtake each other.  [sendRequestVote] tries three times.  A
    crash replaces a peer by [Make] on its persister; its goroutines are gone
    (their calls carry an old epoch), but requests under way still arrive. *)

From S2P Require Import Prelude RaftNode.
Local Open Scope Z_scope.

(** how an action ended: its binds, peeled *)
Ltac act_inv :=
  repeat match goal with
  | H : _ ≫= _ = Some _ |- _ => apply bind_Some in H as (? & ? & H); simpl in H
  | H : of_ret _ = Some _ |- _ => apply of_ret_Some in H
  | p : (_ * _)%type |- _ => destruct p
  end; simplify_eq/=.

Section cluster.
Context {Cmd Snap : Type}.

Inductive rpc :=
| RpcVote (args : RequestVoteArgs) (tries : nat) (reply : option RequestVoteReply)
| RpcAppend (args : AppendEntriesArgs Cmd) (reply : option AppendEntriesReply)
| RpcSnap (args : InstallSnapshotArgs Snap) (reply : option InstallSnapshotReply).

Record call := { c_from : nat; c_epoch : nat; c_to : nat; c_rpc : rpc }.

Record cluster := {
  nodes : list (Raft Cmd Snap);
  epochs : list nat;                       (** incarnation of each peer *)
  calls : list call;
  pending : list (list (ApplyMsg Cmd Snap));   (** collected by [apply], not yet sent *)
  delivered : list (list (ApplyMsg Cmd Snap)); (** what each service received, in order *)
  grants : list (Z * nat * nat)            (** history: (term, voter, candidate) of granted votes *)
}.

(** the call a send effect starts *)
Definition effect_call (from epoch : nat) (e : effect Cmd Snap) : option call :=
  match e with
  | SendRequestVote s a =>
      Some {| c_from := from; c_epoch := epoch; c_to := Z.to_nat s; c_rpc := RpcVote a 3 None |}
  | SendAppendEntries s a =>
      Some {| c_from := from; c_epoch := epoch; c_to := Z.to_nat s; c_rpc := RpcAppend a None |}
  | SendInstallSnapshot s a =>
      Some {| c_from := from; c_epoch := epoch; c_to := Z.to_nat s; c_rpc := RpcSnap a None |}
  | _ => None
  end.

(** the messages an operation puts on the apply channel itself *)
Definition effect_msg (e : effect Cmd Snap) : option (ApplyMsg Cmd Snap) :=
  match e with Apply m => Some m | _ => None end.

Definition set_node (i : nat) (rf : Raft Cmd Snap) (c : cluster) : cluster :=
  {| nodes := <[i := rf]> (nodes c); epochs := epochs c; calls := calls c;
     pending := pending c; delivered := delivered c; grants := grants c |}.
Definition set_calls (cs : list call) (c : cluster) : cluster :=
  {| nodes := nodes c; epochs := epochs c; calls := cs;
     pending := pending c; delivered := delivered c; grants := grants c |}.
Definition add_calls (cs : list call) (c : cluster) : cluster := set_calls (calls c ++ cs) c.
Definition set_pending (i : nat) (ms : list (ApplyMsg Cmd Snap)) (c : cluster) : cluster :=
  {| nodes := nodes c; epochs := epochs c; calls := calls c;
     pending := <[i := ms]> (pending c); delivered := delivered c; grants := grants c |}.
Definition deliver_msgs (i : nat) (ms : list (ApplyMsg Cmd Snap)) (c : cluster) : cluster :=
  {| nodes := nodes c; epochs := epochs c; calls := calls c; pending := pending c;
     delivered := alter (λ l, l ++ ms) i (delivered c); grants := grants c |}.
Definition add_grant (g : Z * nat * nat) (c : cluster) : cluster :=
  {| nodes := nodes c; epochs := epochs c; calls := calls c;
     pending := pending c; delivered := delivered c; grants := g :: grants c |}.

Inductive action :=
| ATick (i : nat) (clk : clock)             (** an iteration of [ticker] *)
| AHeartBeat (i : nat)                      (** an iteration of [heartBeat] *)
| ACommit (i : nat)                         (** an iteration of [commit] *)
| AApply (i : nat)                          (** [apply] collects a batch *)
| ASend (i : nat)                           (** [apply] sends one message of it *)
| AStart (i : nat) (command : option Cmd)
| ASnapshot (i : nat) (idx : Z) (snap : option Snap)
| ADeliver (k : nat) (clk : clock)          (** the request of call [k] runs *)
| ALose (k : nat)                           (** its request or its reply is lost *)
| AReply (k : nat) (clk : clock)            (** its reply is handled *)
| ACrash (i : nat) (clk : clock).

Definition with_rpc (cl : call) (r : rpc) : call :=
  {| c_from := c_from cl; c_epoch := c_epoch cl; c_to := c_to cl; c_rpc := r |}.

Definition deliver (k : nat) (clk : clock) (c : cluster) : option cluster :=
  cl ← calls c !! k;
  rf ← nodes c !! c_to cl;
  let answered r := set_calls (<[k := with_rpc cl r]> (calls c)) c in
  match c_rpc cl with
  | RpcVote args tries None =>
      '(rf', _, reply) ← of_ret (RequestVote clk rf args);
      let c' := set_node (c_to cl) rf' (answered (RpcVote args tries (Some reply))) in
      Some (if VoteGranted reply then add_grant (rv_Term args, c_to cl, c_from cl) c' else c')
  | RpcAppend args None =>
      '(rf', _, reply) ← of_ret (AppendEntries clk rf args);
      Some (set_node (c_to cl) rf' (answered (RpcAppend args (Some reply))))
  | RpcSnap args None =>
      '(rf', eff, reply) ← of_ret (InstallSnapshot clk rf args);
      Some (deliver_msgs (c_to cl) (omap effect_msg eff)
              (set_node (c_to cl) rf' (answered (RpcSnap args (Some reply)))))
  | _ => None
  end.

Definition lose (k : nat) (c : cluster) : option cluster :=
  cl ← calls c !! k;
  match c_rpc cl with
  | RpcVote args (S (S tries)) _ =>
      Some (set_calls (<[k := with_rpc cl (RpcVote args (S tries) None)]> (calls c)) c)
  | _ => Some (set_calls (delete k (calls c)) c)
  end.

Definition handle_reply (k : nat) (clk : clock) (c : cluster) : option cluster :=
  cl ← calls c !! k;
  rf ← nodes c !! c_from cl;
  epoch ← epochs c !! c_from cl;
  if decide (epoch = c_epoch cl) then
    '(rf', _) ← of_ret
      (match c_rpc cl with
       | RpcVote args _ (Some reply) => sendRequestVote_reply clk rf args reply
       | RpcAppend args (Some reply) =>
           sendAppendEntries_reply rf (Z.of_nat (c_to cl)) args reply
       | RpcSnap args (Some reply) =>
           sendInstallSnapshot_reply rf (Z.of_nat (c_to cl)) args reply
       | _ => Panic
       end);
    Some (set_node (c_from cl) rf' (set_calls (delete k (calls c)) c))
  else None.

Definition cluster_step (a : action) (c : cluster) : option cluster :=
  match a with
  | ATick i clk =>
      rf ← nodes c !! i; epoch ← epochs c !! i;
      res ← of_ret (ticker_iteration clk rf);
      '(rf', eff) ← res;
      Some (add_calls (omap (effect_call i epoch) eff) (set_node i rf' c))
  | AHeartBeat i =>
      rf ← nodes c !! i; epoch ← epochs c !! i;
      res ← of_ret (heartBeat_iteration rf);
      eff ← res;
      Some (add_calls (omap (effect_call i epoch) eff) c)
  | ACommit i =>
      rf ← nodes c !! i; res ← of_ret (commit_iteration rf); '(rf', _) ← res;
      Some (set_node i rf' c)
  | AApply i =>
      rf ← nodes c !! i; q ← pending c !! i;
      res ← of_ret (apply_iteration rf); '(rf', ms) ← res;
      match q with
      | [] => Some (set_pending i ms (set_node i rf' c))
      | _ => None
      end
  | ASend i =>
      q ← pending c !! i;
      match q with
      | m :: q' => Some (deliver_msgs i [m] (set_pending i q' c))
      | [] => None
      end
  | AStart i command =>
      rf ← nodes c !! i; let '(rf', _, _) := Start command rf in Some (set_node i rf' c)
  | ASnapshot i idx snap =>
      rf ← nodes c !! i; rf' ← of_ret (Snapshot idx snap rf); Some (set_node i rf' c)
  | ADeliver k clk => deliver k clk c
  | ALose k => lose k c
  | AReply k clk => handle_reply k clk c
  | ACrash i clk =>
      rf ← nodes c !! i; epoch ← epochs c !! i;
      Some {| nodes := <[i := fst (Make clk (peers rf) (me rf) (persister rf))]> (nodes c);
              epochs := <[i := S epoch]> (epochs c); calls := calls c;
              pending := <[i := []]> (pending c); delivered := <[i := []]> (delivered c);
              grants := grants c |}
  end.

(** running a schedule *)
Fixpoint cluster_run (acts : list action) (c : cluster) : option cluster :=
  match acts with
  | [] => Some c
  | a :: acts' => c' ← cluster_step a c; cluster_run acts' c'
  end.

Definition cluster_init (clk : clock) (n : nat) : cluster :=
  {| nodes := (λ i, fst (Make clk n (Z.of_nat i) MakePersister)) <$> seq 0 n;
     epochs := replicate n O; calls := [];
     pending := replicate n []; delivered := replicate n []; grants := [] |}.

(** a cluster state some schedule leads to *)
Definition cluster_reachable (n : nat) (c : cluster) : Prop :=
  ∃ clk acts, cluster_run acts (cluster_init clk n) = Some c.

(** *** Messages and actions *)

Lemma step_delivered a c c' i d : cluster_step a c = Some c' → delivered c !! i = Some d →
  ∃ d', delivered c' !! i = Some d' ∧ (d `prefix_of` d' ∨ (∃ clk, a = ACrash i clk) ∧ d' = []).
Proof.
  intros E Hd.
  assert (∀ j ms, ∃ d', alter (λ l, l ++ ms) j (delivered c) !! i = Some d' ∧ d `prefix_of` d') as Halt.
  { intros j ms. destruct (decide (j = i)) as [->|].
    - rewrite list_lookup_alter_eq, Hd. eexists. split; [done|]. by apply prefix_app_r.
    - rewrite list_lookup_alter_ne by done. eauto. }
  destruct a as [j clk|j|j|j|j|j command|j idx snap|k clk|k|k clk|j clk]; simpl in E; try (act_inv; by eauto).
  - act_inv. case_match; [|done]. injection E as <-. eauto.
  - act_inv. case_match; [done|]. injection E as <-. simpl. naive_solver.
  - apply bind_Some in E as (rf & _ & E). destruct (Start command rf) as [[? ?] ?]. injection E as <-. eauto.
  - unfold deliver in E. apply bind_Some in E as (cl & _ & E). apply bind_Some in E as (rf & _ & E).
    destruct (c_rpc cl) as [args tries [r|]|args [r|]|args [r|]]; try discriminate E; act_inv.
    + destruct (VoteGranted _); eauto.
    + eauto.
    + naive_solver.
  - unfold lose in E. act_inv. destruct (c_rpc _) as [? [|[|?]] ?|? ?|? ?]; injection E as <-; eauto.
  - unfold handle_reply in E. apply bind_Some in E as (cl & _ & E). apply bind_Some in E as (rf & _ & E).
    apply bind_Some in E as (epoch & _ & E). destruct (decide _); [|done].
    apply bind_Some in E as ([? ?] & _ & E). injection E as <-. eauto.
  - act_inv. destruct (decide (j = i)) as [->|].
    + rewrite list_lookup_insert_eq by (by eapply lookup_lt_Some). eauto 10.
    + rewrite list_lookup_insert_ne by done. eauto.
Qed.

Lemma cluster_run_app acts1 acts2 c :
  cluster_run (acts1 ++ acts2) c = c' ← cluster_run acts1 c; cluster_run acts2 c'.
Proof.
  revert c. induction acts1 as [|a acts1 IH]; intros c; [done|]. simpl.
  destruct (cluster_step a c); simpl; [apply IH|done].
Qed.

Lemma step_lengths a c c' : cluster_step a c = Some c' →
  length (nodes c') = length (nodes c) ∧ length (pending c') = length (pending c)
  ∧ length (delivered c') = length (delivered c).
Proof.
  intros E. destruct a as [j clk|j|j|j|j|j command|j idx snap|k clk|k|k clk|j clk]; simpl in E;
    try (act_inv; by rewrite ?length_insert).
  - act_inv. case_match; [|done]. injection E as <-. simpl. by rewrite !length_insert.
  - act_inv. case_match; [done|]. injection E as <-. simpl. by rewrite length_insert, length_alter.
  - apply bind_Some in E as (rf & _ & E). destruct (Start command rf) as [[? ?] ?]. injection E as <-.
    simpl. by rewrite length_insert.
  - unfold deliver in E. apply bind_Some in E as (cl & _ & E). apply bind_Some in E as (rf & _ & E).
    destruct (c_rpc cl) as [args tries [r|]|args [r|]|args [r|]]; try discriminate E; act_inv;
      try destruct (VoteGranted _); simpl; by rewrite ?length_insert, ?length_alter.
  - unfold lose in E. act_inv. by destruct (c_rpc _) as [? [|[|?]] ?|? ?|? ?]; injection E as <-.
  - unfold handle_reply in E. apply bind_Some in E as (cl & _ & E). apply bind_Some in E as (rf & _ & E).
    apply bind_Some in E as (epoch & _ & E). destruct (decide _); [|done].
    apply bind_Some in E as ([? ?] & _ & E). injection E as <-. simpl. by rewrite length_insert.
Qed.

(** invariants of reachable clusters *)
Lemma cluster_invariant (I : cluster → Prop) n :
  (∀ clk, I (cluster_init clk n)) →
  (∀ a c c', I c → cluster_step a c = Some c' → I c') →
  ∀ c, cluster_reachable n c → I c.
Proof.
  intros H0 Hs c (clk & acts & Hr). specialize (H0 clk).
  revert H0 Hr. generalize (cluster_init clk n). induction acts as [|a acts IH]; simpl; intros c0 HI Hr.
  { by injection Hr as <-. }
  destruct (cluster_step a c0) as [c1|] eqn:E; simpl in Hr; [|done]. eauto.
Qed.

Lemma cluster_lengths n c : cluster_reachable n c →
  length (nodes c) = n ∧ length (pending c) = n ∧ length (delivered c) = n.
Proof.
  revert c. apply (cluster_invariant (λ c, length (nodes c) = n ∧ length (pending c) = n ∧ length (delivered c) = n)).
  - intros clk. simpl. by rewrite length_fmap, length_seq, !length_replicate.
  - intros a c c' (? & ? & ?) E. destruct (step_lengths a c c' E) as (-> & -> & ->). done.
Qed.
End cluster.

Arguments rpc : clear implicits.
Arguments call : clear implicits.
Arguments cluster : clear implicits.
Arguments action : clear implicits.
