(* ===== verification/Election.v ===== *)
(** * Leader election, abstractly

    The specification that the peers of raft1/raft.go implement when they elect
    a leader (RaftElection.v proves the refinement).  A peer has a term, a vote,
    a role and the set of voters it has counted; the votes cast and the
    elections won are recorded as history.  The step [e_win] clears the winner's
    vote and [e_reset] the vote of a peer that hears from a leader of its own
    term: the code does both.  So a winner may vote again in the term it won,
    and at most one leader per term is not an invariant for an odd number of
    peers; what holds is proved here. *)

From stdpp Require Import functions.
From S2P Require Import Prelude RaftNode.
Local Open Scope Z_scope.

Record anode := mkA { a_term : Z; a_vote : Z; a_role : RaftState; a_tally : list nat }.
Record estate := mkE {
  ns : nat → anode;
  vts : list (Z * nat * nat);    (** (term, voter, candidate) *)
  wns : list (Z * nat)           (** (term, winner) *)
}.

Definition e_init : estate :=
  {| ns := λ _, mkA 0 (-1) RaftFollower []; vts := []; wns := [] |}.

Section election.
Variable n : nat.   (** the number of peers *)

Inductive e_step (s : estate) : estate → Prop :=
| e_down i t : (i < n)%nat → a_term (ns s i) < t →
    e_step s (mkE (<[i := mkA t (-1) RaftFollower []]> (ns s)) (vts s) (wns s))
| e_reset i x : (i < n)%nat → a_role (ns s i) ≠ RaftFollower → (a_term (ns s i), x) ∈ wns s →
    e_step s (mkE (<[i := mkA (a_term (ns s i)) (-1) RaftFollower []]> (ns s)) (vts s) (wns s))
| e_vote v c : (v < n)%nat → v ≠ c → a_vote (ns s v) = -1 ∨ a_vote (ns s v) = Z.of_nat c →
    e_step s (mkE (<[v := mkA (a_term (ns s v)) (Z.of_nat c) (a_role (ns s v)) (a_tally (ns s v))]> (ns s))
                  ((a_term (ns s v), v, c) :: vts s) (wns s))
| e_stand i : (i < n)%nat →
    e_step s (mkE (<[i := mkA (a_term (ns s i) + 1) (Z.of_nat i) RaftCandidate [i]]> (ns s))
                  ((a_term (ns s i) + 1, i, i) :: vts s) (wns s))
| e_count i v : (i < n)%nat → (v < n)%nat → a_role (ns s i) = RaftCandidate →
    v ∉ a_tally (ns s i) → (a_term (ns s i), v, i) ∈ vts s →
    e_step s (mkE (<[i := mkA (a_term (ns s i)) (a_vote (ns s i)) RaftCandidate (v :: a_tally (ns s i))]>
                      (ns s)) (vts s) (wns s))
| e_win i v : (i < n)%nat → (v < n)%nat → a_role (ns s i) = RaftCandidate →
    v ∉ a_tally (ns s i) → (a_term (ns s i), v, i) ∈ vts s →
    (n / 2 < S (length (a_tally (ns s i))))%nat →
    e_step s (mkE (<[i := mkA (a_term (ns s i)) (-1) RaftLeader []]> (ns s))
                  (vts s) ((a_term (ns s i), i) :: wns s))
| e_restart i : (i < n)%nat →
    e_step s (mkE (<[i := mkA (a_term (ns s i)) (a_vote (ns s i)) RaftFollower []]> (ns s)) (vts s) (wns s)).

Definition e_reachable : estate → Prop := reachable (eq e_init) e_step.

(** a set of more than half of the peers that voted for [x] in [t] *)
Definition quorum (s : estate) (t : Z) (x : nat) (Q : list nat) : Prop :=
  NoDup Q ∧ (n / 2 < length Q)%nat ∧ x ∈ Q ∧ ∀ v, v ∈ Q → (v < n)%nat ∧ (t, v, x) ∈ vts s.

Definition no_win (s : estate) (t : Z) : Prop := ∀ x, (t, x) ∉ wns s.

(** the quorum of the first winner [x] is bound to it: apart from [x] itself its
    members vote for nobody else in [t] *)
Definition bound (s : estate) (t : Z) (x v : nat) : Prop :=
  (∀ c, (t, v, c) ∈ vts s → c = x) ∧
  (a_term (ns s v) = t → a_vote (ns s v) = Z.of_nat x ∧ a_role (ns s v) = RaftFollower).

Record e_inv (s : estate) : Prop := {
  i_past : ∀ t v c, (t, v, c) ∈ vts s → t ≤ a_term (ns s v);
  i_vote : ∀ v, a_vote (ns s v) = -1
                ∨ ∃ c, a_vote (ns s v) = Z.of_nat c ∧ (a_term (ns s v), v, c) ∈ vts s;
  i_cand : ∀ i, a_role (ns s i) = RaftCandidate →
           a_vote (ns s i) = Z.of_nat i ∧ NoDup (a_tally (ns s i)) ∧ i ∈ a_tally (ns s i)
           ∧ ∀ v, v ∈ a_tally (ns s i) → (v < n)%nat ∧ (a_term (ns s i), v, i) ∈ vts s;
  i_lead : ∀ i, a_role (ns s i) = RaftLeader → (a_term (ns s i), i) ∈ wns s;
  i_once : ∀ t v c, no_win s t → (t, v, c) ∈ vts s →
           (∀ c', (t, v, c') ∈ vts s → c' = c)
           ∧ (a_term (ns s v) = t → a_vote (ns s v) = Z.of_nat c);
  i_first : ∀ t y, (t, y) ∈ wns s → ∃ x Q, quorum s t x Q ∧ ∀ v, v ∈ Q → v ≠ x → bound s t x v;
  i_wins : ∀ t y, (t, y) ∈ wns s → ∃ Q, quorum s t y Q
}.

Lemma quorum_mono s s' t x Q :
  quorum s t x Q → (∀ u, u ∈ vts s → u ∈ vts s') → quorum s' t x Q.
Proof. intros (?&?&?&HQ) Hin. split_and!; [done..|]. intros v Hv. destruct (HQ v Hv); auto. Qed.

Lemma e_init_inv : e_inv e_init.
Proof. split; simpl; try done; try (by intros; set_solver). Qed.

(** *** The seven parts of the invariant, one lemma each *)

Lemma step_past s s' : e_inv s → e_step s s' →
  ∀ t v c, (t, v, c) ∈ vts s' → t ≤ a_term (ns s' v).
Proof.
  intros HI Hst t v c. pose proof (i_past _ HI t v c) as Hp.
  destruct Hst as [i|i|i|i|i|i|i]; simpl; rewrite ?elem_of_cons; intros Hin; at_node i v;
    repeat match goal with H : _ ∨ _ |- _ => destruct H as [H|H] end; simplify_eq;
    try specialize (Hp Hin); lia.
Qed.

Lemma step_vote s s' : e_inv s → e_step s s' →
  ∀ v, a_vote (ns s' v) = -1
       ∨ ∃ c, a_vote (ns s' v) = Z.of_nat c ∧ (a_term (ns s' v), v, c) ∈ vts s'.
Proof.
  intros HI Hst v. pose proof (i_vote _ HI v) as Hv.
  destruct Hst as [i|i|i|i|i|i|i]; simpl; at_node i v; auto;
    try (right; eexists; split; [done|by left]);
    destruct Hv as [|(c' & ? & ?)]; auto; right; eexists; (split; [done|]); auto; by right.
Qed.

Lemma step_cand s s' : e_inv s → e_step s s' →
  ∀ i, a_role (ns s' i) = RaftCandidate →
    a_vote (ns s' i) = Z.of_nat i ∧ NoDup (a_tally (ns s' i)) ∧ i ∈ a_tally (ns s' i)
    ∧ ∀ v, v ∈ a_tally (ns s' i) → (v < n)%nat ∧ (a_term (ns s' i), v, i) ∈ vts s'.
Proof.
  intros HI Hst j. pose proof (i_cand _ HI j) as Hc.
  destruct Hst as [i|i|i|i|i|i|i]; simpl; at_node i j; intros Hr; try done;
    try (specialize (Hc ltac:(done)) as (Hv & Hnd & Hin & Hall)); try (by split_and!).
  - (* a candidate votes only for itself *)
    exfalso. rewrite Hv in *. lia.
  - split_and!; [done..|]. intros v ?. destruct (Hall v); [done|]. split; [done|by right].
  - split_and!; [done|apply NoDup_singleton|set_solver|].
    intros v ->%list_elem_of_singleton. split; [done|by left].
  - split_and!; [done..|]. intros v ?. destruct (Hall v); [done|]. split; [done|by right].
  - split_and!; [done|by constructor|by right|].
    intros v' [->|?]%elem_of_cons; auto.
Qed.

Lemma step_lead s s' : e_inv s → e_step s s' →
  ∀ i, a_role (ns s' i) = RaftLeader → (a_term (ns s' i), i) ∈ wns s'.
Proof.
  intros HI Hst j. pose proof (i_lead _ HI j) as Hl.
  destruct Hst as [i|i|i|i|i|i|i]; simpl; at_node i j; intros; try done; auto; set_solver.
Qed.

Lemma no_win_mono s s' t : (∀ w, w ∈ wns s → w ∈ wns s') → no_win s' t → no_win s t.
Proof. intros Hin Hno x Hx. by apply (Hno x), Hin. Qed.

Lemma step_history s s' : e_step s s' →
  (∀ u, u ∈ vts s → u ∈ vts s') ∧ (∀ w, w ∈ wns s → w ∈ wns s').
Proof. destruct 1; simpl; split; intros; by repeat right. Qed.

Lemma step_once s s' : e_inv s → e_step s s' →
  ∀ t v c, no_win s' t → (t, v, c) ∈ vts s' →
    (∀ c', (t, v, c') ∈ vts s' → c' = c)
    ∧ (a_term (ns s' v) = t → a_vote (ns s' v) = Z.of_nat c).
Proof.
  intros HI Hst t v c Hno.
  pose proof (no_win_mono _ _ t (proj2 (step_history _ _ Hst)) Hno) as Hno'.
  pose proof (i_once _ HI t v) as Ho. pose proof (i_past _ HI t v) as Hp.
  destruct Hst as [i t' ? ?|i x ? ? Hwin|v' c' ? ? Hv|i ?|i v'|i v'|i]; simpl in *.
  - intros Hin. destruct (Ho c Hno' Hin) as [? Hm]. split; [done|].
    at_node i v; [specialize (Hp c Hin); lia|done].
  - intros Hin. destruct (Ho c Hno' Hin) as [? Hm]. split; [done|].
    at_node i v; [|done]. intros <-. by destruct (Hno x).
  - (* a vote: the peer had none in this term, or the same *)
    setoid_rewrite elem_of_cons.
    assert (∀ d, (t, v', d) ∈ vts s → a_term (ns s v') = t → v = v' → d = c') as Hsame.
    { intros d Hd Ht ->. destruct (Ho d Hno' Hd) as [_ Hm]. specialize (Hm Ht). lia. }
    assert (∀ d, (t, v, d) = (a_term (ns s v'), v', c') ∨ (t, v, d) ∈ vts s →
            (v = v' → a_term (ns s v') = t → d = c') ∧ (v ≠ v' ∨ a_term (ns s v') ≠ t → (t, v, d) ∈ vts s))
      as Hd.
    { intros d [[= -> -> ->]|Hd]; [naive_solver|]. split; [|done]. intros -> ?. by eapply Hsame. }
    intros Hc. destruct (decide (v = v' ∧ a_term (ns s v') = t)) as [[-> Ht]|Hne].
    + split; [intros d Hdin; transitivity c'; [|symmetry]; by apply Hd|].
      rewrite fn_lookup_insert; simpl. intros _. f_equal. symmetry. by apply Hd.
    + assert (v ≠ v' ∨ a_term (ns s v') ≠ t) as Hne' by (destruct (decide (v = v')); naive_solver).
      destruct (Ho c Hno') as [Huniq Hm]; [by apply Hd|]. split.
      * intros d Hdin. apply Huniq. by apply Hd.
      * at_node v' v; [|done]. intros. naive_solver.
  - (* standing opens a new term for this peer *)
    setoid_rewrite elem_of_cons. destruct (decide (v = i ∧ t = a_term (ns s i) + 1)) as [[-> ->]|Hne].
    + assert (∀ d, (a_term (ns s i) + 1, i, d) ∉ vts s) as Hnone.
      { intros d Hd. specialize (Hp d Hd). lia. }
      rewrite fn_lookup_insert; simpl. intros [[= ->]|Hin]; [|by destruct (Hnone c)].
      split; [|done]. intros d [[= ->]|Hin]; [done|by destruct (Hnone d)].
    + intros [[= -> -> ->]|Hin]; [by destruct Hne|]. destruct (Ho c Hno' Hin) as [Hu Hm]. split.
      * intros d [[= -> -> ->]|Hd]; [by destruct Hne|by apply Hu].
      * at_node i v; [|done]. intros <-. by destruct Hne.
  - intros Hin. destruct (Ho c Hno' Hin) as [? Hm]. split; [done|]. at_node i v; done.
  - intros Hin. destruct (Ho c Hno' Hin) as [? Hm]. split; [done|].
    at_node i v; [|done]. intros <-. destruct (Hno i). by left.
  - intros Hin. destruct (Ho c Hno' Hin) as [? Hm]. split; [done|]. at_node i v; done.
Qed.

Lemma step_bound s s' t x v : e_inv s → e_step s s' → (t, v, x) ∈ vts s → v ≠ x →
  bound s t x v → bound s' t x v.
Proof.
  intros HI Hst Hvote Hne [Honly Hcur]. pose proof (i_past _ HI _ _ _ Hvote) as Hp.
  destruct Hst as [i t' ? ?|i y ? ? Hwin|v' c' ? ? Hv|i ?|i v'|i v'|i]; split; simpl in *;
    try exact Honly; try setoid_rewrite elem_of_cons.
  - at_node i v; [lia|done].
  - at_node i v; [|done]. intros Ht. by destruct (Hcur Ht).
  - intros d [[= -> <- ->]|Hd]; [|by apply Honly]. destruct Hcur as [Hcur _]; [done|]. lia.
  - at_node v' v; [|done]. intros Ht. destruct (Hcur Ht) as [Hc ?]. split; [|done]. lia.
  - intros d [[= -> -> ->]|Hd]; [lia|by apply Honly].
  - at_node i v; [lia|done].
  - at_node i v; [|done]. intros Ht. destruct (Hcur Ht). congruence.
  - at_node i v; [|done]. intros Ht. destruct (Hcur Ht). congruence.
  - at_node i v; [|done]. intros Ht. by destruct (Hcur Ht).
Qed.

(** the counted voters of a winner are a quorum *)
Lemma tally_quorum s i v : e_inv s → (v < n)%nat → a_role (ns s i) = RaftCandidate →
  v ∉ a_tally (ns s i) → (a_term (ns s i), v, i) ∈ vts s →
  (n / 2 < S (length (a_tally (ns s i))))%nat →
  quorum s (a_term (ns s i)) i (v :: a_tally (ns s i)).
Proof.
  intros HI ? Hr Hv Hin ?. destruct (i_cand _ HI i Hr) as (_ & Hnd & Hself & Hall).
  split_and!; [by constructor|done|by right|].
  intros u [->|?]%elem_of_cons; auto.
Qed.

Lemma step_first s s' : e_inv s → e_step s s' →
  ∀ t y, (t, y) ∈ wns s' → ∃ x Q, quorum s' t x Q ∧ ∀ v, v ∈ Q → v ≠ x → bound s' t x v.
Proof.
  intros HI Hst t y Hin. pose proof (proj1 (step_history _ _ Hst)) as Hmono.
  assert (∀ z, (t, z) ∈ wns s → ∃ x Q, quorum s' t x Q ∧ ∀ v, v ∈ Q → v ≠ x → bound s' t x v) as Hold.
  { intros z Hz. destruct (i_first _ HI t z Hz) as (x & Q & HQ & Hb). exists x, Q.
    split; [by eapply quorum_mono|]. intros v Hv Hne. eapply step_bound; eauto. by apply HQ. }
  destruct Hst as [| | | | |i v ? ? Hrole Hv Hvote Hmaj|]; simpl in Hin; try (by eapply Hold).
  apply elem_of_cons in Hin as [[= -> ->]|]; [|by eapply Hold].
  destruct (decide (a_term (ns s i) ∈ (wns s).*1)) as [((z0 & z) & Ht & Hz)%list_elem_of_fmap|Hno].
  { simpl in Ht. rewrite <-Ht in Hz. by eapply Hold. }
  assert (no_win s (a_term (ns s i))) as Hno'.
  { intros z Hz. apply Hno. apply list_elem_of_fmap. by eexists (_, z). }
  pose proof (tally_quorum s i v HI ltac:(done) Hrole Hv Hvote Hmaj) as HQ.
  exists i, (v :: a_tally (ns s i)). split; [done|].
  intros u Hu Hui. destruct HQ as (_ & _ & _ & HQ). destruct (HQ u Hu) as [_ Hui'].
  destruct (i_once _ HI _ _ _ Hno' Hui') as [Hou Hcu].
  split; simpl; [exact Hou|]. at_node i u; [done|]. intros Ht. specialize (Hcu Ht). split; [done|].
  destruct (a_role (ns s u)) eqn:Hru; [| |done]; exfalso.
  - destruct (Hno' u). rewrite <-Ht. by apply (i_lead _ HI).
  - destruct (i_cand _ HI u Hru) as [Hself _]. lia.
Qed.

Lemma step_wins s s' : e_inv s → e_step s s' → ∀ t y, (t, y) ∈ wns s' → ∃ Q, quorum s' t y Q.
Proof.
  intros HI Hst t y Hin. pose proof (proj1 (step_history _ _ Hst)) as Hmono.
  assert ((t, y) ∈ wns s → ∃ Q, quorum s' t y Q) as Hold.
  { intros Hz. destruct (i_wins _ HI t y Hz) as (Q & HQ). exists Q. by eapply quorum_mono. }
  destruct Hst as [| | | | |i v ? ? Hrole Hv Hvote Hmaj|]; simpl in Hin; try (by apply Hold).
  apply elem_of_cons in Hin as [[= -> ->]|]; [|by apply Hold].
  exists (v :: a_tally (ns s i)). by apply (tally_quorum s i v).
Qed.

Lemma e_reachable_inv s : e_reachable s → e_inv s.
Proof.
  apply invariant_reachable; [intros ? <-; apply e_init_inv|].
  intros s1 s2 HI Hst. split; [eapply step_past|eapply step_vote|eapply step_cand|eapply step_lead
    |eapply step_once|eapply step_first|eapply step_wins]; done.
Qed.

(** *** Counting *)

Lemma below_length L : NoDup L → (∀ v, v ∈ L → (v < n)%nat) → (length L ≤ n)%nat.
Proof.
  intros Hnd Hlt. transitivity (length (seq 0 n)); [|by rewrite length_seq].
  apply submseteq_length, NoDup_submseteq; [done|]. intros v Hv. apply elem_of_seq. specialize (Hlt v Hv). lia.
Qed.

Lemma below_full L v : NoDup L → (∀ u, u ∈ L → (u < n)%nat) → (n ≤ length L)%nat → (v < n)%nat → v ∈ L.
Proof.
  intros Hnd Hlt Hlen Hv. destruct (decide (v ∈ L)) as [|Hno]; [done|exfalso].
  assert (length (v :: L) ≤ n)%nat as Hl; [|simpl in Hl; lia].
  apply below_length; [by constructor|]. intros u [->|?]%elem_of_cons; auto.
Qed.

Lemma filter_ne_length (x : nat) L : NoDup L → (length L ≤ S (length (filter (λ v, v ≠ x) L)))%nat.
Proof.
  intros Hnd. induction Hnd as [|v L Hv Hnd IH]; [simpl; lia|].
  destruct (decide (v = x)) as [->|Hne].
  - rewrite filter_cons_False by naive_solver.
    assert (filter (λ v, v ≠ x) L = L) as ->; [|simpl; lia].
    clear IH Hnd. induction L as [|u L IH]; [done|]. apply not_elem_of_cons in Hv as [? ?].
    rewrite filter_cons_True by done. f_equal. by apply IH.
  - rewrite filter_cons_True by done. simpl. lia.
Qed.

(** apart from the first winner itself, its quorum is disjoint from any other's *)
Lemma other_quorum s t x y Q Q' :
  quorum s t x Q → (∀ v, v ∈ Q → v ≠ x → bound s t x v) → quorum s t y Q' → y ≠ x →
  NoDup (Q' ++ filter (λ v, v ≠ x) Q)
  ∧ (∀ v, v ∈ Q' ++ filter (λ v, v ≠ x) Q → (v < n)%nat)
  ∧ (n / 2 + n / 2 + 1 ≤ length (Q' ++ filter (λ v, v ≠ x) Q))%nat.
Proof.
  intros (Hnd & Hlen & _ & HQ) Hb (Hnd' & Hlen' & _ & HQ') Hne.
  split; [|split].
  - apply NoDup_app. split; [done|]. split; [|by apply NoDup_filter].
    intros v Hv [Hvx Hv']%list_elem_of_filter. destruct (Hb v Hv' Hvx) as [Honly _].
    apply Hne, Honly. by apply HQ'.
  - intros v [Hv|[_ Hv]%list_elem_of_filter]%elem_of_app; [by apply HQ'|by apply HQ].
  - rewrite length_app. pose proof (filter_ne_length x Q Hnd). lia.
Qed.

Lemma even_one_winner s t x y : e_inv s → Nat.Even n → (t, x) ∈ wns s → (t, y) ∈ wns s → x = y.
Proof.
  intros HI [m Hm] Hx Hy.
  destruct (i_first _ HI t x Hx) as (z & Q & HQ & Hb).
  assert (∀ w, (t, w) ∈ wns s → w = z) as Hall; [|by rewrite (Hall x), (Hall y)].
  intros w Hw. destruct (decide (w = z)) as [|Hne]; [done|exfalso].
  destruct (i_wins _ HI t w Hw) as (Q' & HQ').
  destruct (other_quorum _ _ _ _ _ _ HQ Hb HQ' Hne) as (Hnd & Hlt & Hlen).
  pose proof (below_length _ Hnd Hlt).
  assert (n / 2 = m)%nat by (rewrite Hm, Nat.mul_comm; by apply Nat.div_mul). lia.
Qed.

(** the first winner voted for every other one *)
Lemma first_voted s t x y Q Q' :
  quorum s t x Q → (∀ v, v ∈ Q → v ≠ x → bound s t x v) → quorum s t y Q' → y ≠ x → x ∈ Q'.
Proof.
  intros HQ Hb HQ' Hne.
  destruct (other_quorum _ _ _ _ _ _ HQ Hb HQ' Hne) as (Hnd & Hlt & Hlen).
  destruct (decide (x ∈ Q')) as [|Hno]; [done|exfalso].
  assert (length (x :: Q' ++ filter (λ v, v ≠ x) Q) ≤ n)%nat as Hl.
  { apply below_length.
    - constructor; [|done]. rewrite elem_of_app, list_elem_of_filter. naive_solver.
    - destruct HQ as (_ & _ & Hx & HQ). intros v [->|?]%elem_of_cons; [by apply HQ|auto]. }
  simpl in Hl. pose proof (Nat.div_mod_eq n 2). pose proof (Nat.mod_upper_bound n 2). lia.
Qed.

(** of two winners of a term one voted for the other *)
Lemma winners_voted s t x y : e_inv s → (t, x) ∈ wns s → (t, y) ∈ wns s → x ≠ y →
  (t, x, y) ∈ vts s ∨ (t, y, x) ∈ vts s.
Proof.
  intros HI Hx Hy Hne.
  destruct (i_first _ HI t x Hx) as (z & Q & HQ & Hb).
  destruct (i_wins _ HI t x Hx) as (Qx & HQx). destruct (i_wins _ HI t y Hy) as (Qy & HQy).
  destruct (decide (x = z)) as [->|Hxz].
  { left. apply HQy. by eapply (first_voted s t z y Q Qy). }
  destruct (decide (y = z)) as [->|Hyz].
  { right. apply HQx. by eapply (first_voted s t z x Q Qx). }
  right. apply HQx.
  destruct (other_quorum _ _ _ _ _ _ HQ Hb HQx Hxz) as (Hnd & Hlt & Hlen).
  destruct HQy as (_ & _ & Hyin & HQy). destruct (HQy y Hyin) as [Hyn Hself].
  assert (y ∈ Qx ++ filter (λ v, v ≠ z) Q) as [|[_ Hbad]%list_elem_of_filter]%elem_of_app; [|done|].
  - apply below_full; [done..| |done].
    pose proof (Nat.div_mod_eq n 2). pose proof (Nat.mod_upper_bound n 2). lia.
  - exfalso. apply Hyz. by apply (Hb y Hbad Hyz).
Qed.
End election.
