(* ===== verification/RaftElection.v ===== *)
(** * The peers implement the abstract election

    A simulation between the cluster of RaftCluster.v, running the operations of
    raft1/raft.go under message loss, reordering, duplication by retries and
    crashes, and the abstract election of Election.v.  From it: the leaders a
    term can have, and recovery from stable storage in every reachable state. *)

From stdpp Require Import functions.
From S2P Require Import Prelude RaftNode RaftFacts RaftCluster Election.
Local Open Scope Z_scope.

Section refinement.
Context {Cmd Snap : Type}.
Implicit Types (rf : Raft Cmd Snap) (c : cluster Cmd Snap) (cl : call Cmd Snap) (s : estate).
Variable n : nat.

(** a peer and its abstraction *)
Definition matches (a : anode) rf : Prop :=
  view rf = (a_term a, a_vote a, a_role a, Z.of_nat (length (a_tally a))).

(** a vote request is identified by its sender, term and target *)
Definition vote_key cl : option (nat * Z * nat) :=
  match c_rpc cl with RpcVote args _ _ => Some (c_from cl, rv_Term args, c_to cl) | _ => None end.

(** the calls under way: a vote request is the candidate's, for a term it has
    reached, to a peer it has not counted in that term, and a granted reply is a
    vote cast; entries are sent only in a term that was won *)
Definition call_ok s cl : Prop :=
  match c_rpc cl with
  | RpcVote args _ reply =>
      c_to cl ≠ c_from cl ∧ CandidateId args = Z.of_nat (c_from cl)
      ∧ (c_to cl < n)%nat
      ∧ rv_Term args ≤ a_term (ns s (c_from cl))
      ∧ (rv_Term args = a_term (ns s (c_from cl)) → c_to cl ∉ a_tally (ns s (c_from cl)))
      ∧ (∀ r, reply = Some r → VoteGranted r = true → (rv_Term args, c_to cl, c_from cl) ∈ vts s)
  | RpcAppend args _ => ∃ x, (ae_Term args, x) ∈ wns s
  | RpcSnap _ _ => True
  end.

Record sim s c : Prop := {
  sim_len : length (nodes c) = n;
  sim_node : ∀ i rf, nodes c !! i = Some rf →
    peers rf = n ∧ me rf = Z.of_nat i ∧ recoverable rf ∧ matches (ns s i) rf;
  sim_calls : Forall (call_ok s) (calls c);
  sim_keys : NoDup (omap vote_key (calls c));
  sim_votes : ∀ t v x, (t, v, x) ∈ vts s → v = x ∨ (t, v, x) ∈ grants c
}.

(** [s'] extends [s] by steps of peer [i] that count no new vote in its term *)
Definition ext (i : nat) s s' : Prop :=
  (∀ j, j ≠ i → ns s' j = ns s j)
  ∧ (∀ u, u ∈ vts s → u ∈ vts s') ∧ (∀ w, w ∈ wns s → w ∈ wns s')
  ∧ a_term (ns s i) ≤ a_term (ns s' i)
  ∧ (a_term (ns s' i) = a_term (ns s i) → ∀ v, v ∈ a_tally (ns s' i) → v ∈ a_tally (ns s i)).

Lemma ext_refl i s : ext i s s.
Proof. split_and!; auto; lia. Qed.
Lemma ext_trans i s1 s2 s3 : ext i s1 s2 → ext i s2 s3 → ext i s1 s3.
Proof.
  intros (Ho1 & Hv1 & Hw1 & Ht1 & Hl1) (Ho2 & Hv2 & Hw2 & Ht2 & Hl2).
  split_and!; auto; [intros j ?; rewrite Ho2 by done; auto|lia|].
  intros Heq v Hv. apply Hl1; [lia|]. apply Hl2; [lia|done].
Qed.

Lemma call_ok_ext i s s' cl : ext i s s' → call_ok s cl → call_ok s' cl.
Proof.
  intros (Ho & Hv & Hw & Ht & Hl). unfold call_ok. destruct (c_rpc cl) as [args ? r|args r|args r]; [|naive_solver|done].
  intros (? & ? & ? & Hle & Hnot & Hr). split_and!; [done..| | |eauto].
  - destruct (decide (c_from cl = i)) as [<-|]; [lia|by rewrite Ho].
  - destruct (decide (c_from cl = i)) as [<-|]; [|by rewrite Ho].
    intros Heq Hin. apply Hnot; [lia|]. apply Hl; [lia|done].
Qed.

(** the steps of the abstract election as extensions *)
Lemma ext_at i s x V W :
  a_term (ns s i) ≤ a_term x →
  (a_term x = a_term (ns s i) → ∀ v, v ∈ a_tally x → v ∈ a_tally (ns s i)) →
  ext i s (mkE (<[i := x]> (ns s)) (V ++ vts s) (W ++ wns s)).
Proof.
  intros ??. split_and!; simpl; [|by intros; apply elem_of_app; right..| |];
    [intros; by rewrite fn_lookup_insert_ne|by rewrite fn_lookup_insert..].
Qed.

(** the concrete state changes at one peer, the abstract one follows *)
Lemma sim_set_node_calls i rf rf' s s' c :
  sim s c → nodes c !! i = Some rf → same_id rf rf' → (recoverable rf → recoverable rf') →
  (∀ j, j ≠ i → ns s' j = ns s j) → Forall (call_ok s') (calls c) → matches (ns s' i) rf' →
  (∀ t v x, (t, v, x) ∈ vts s' → v = x ∨ (t, v, x) ∈ grants c) →
  sim s' (set_node i rf' c).
Proof.
  intros [Hlen Hnode Hcalls Hkeys Hvotes] Hi [Hp Hm] Hrec Ho Hok Hmatch Hg.
  split; simpl; [by rewrite length_insert| |done..].
  intros j rfj Hj. destruct (decide (i = j)) as [<-|Hne].
  - rewrite list_lookup_insert_eq in Hj by (by eapply lookup_lt_Some). injection Hj as <-.
    destruct (Hnode i rf Hi) as (Hpeers & Hme & Hr & _). split_and!; [congruence|congruence|auto|done].
  - rewrite list_lookup_insert_ne in Hj by done. rewrite Ho by done. by apply Hnode.
Qed.

Lemma sim_set_node i rf rf' s s' c :
  sim s c → nodes c !! i = Some rf → same_id rf rf' → (recoverable rf → recoverable rf') →
  ext i s s' → matches (ns s' i) rf' →
  (∀ t v x, (t, v, x) ∈ vts s' → v = x ∨ (t, v, x) ∈ grants c) →
  sim s' (set_node i rf' c).
Proof.
  intros Hs Hi Hid Hrec Hext Hm Hg. eapply sim_set_node_calls; eauto; [apply Hext|].
  eapply Forall_impl; [apply Hs|]. intros cl. by apply (call_ok_ext i).
Qed.

Lemma sim_set_calls s c cs :
  sim s c → Forall (call_ok s) cs → NoDup (omap vote_key cs) → sim s (set_calls cs c).
Proof. intros [????] ??. by split. Qed.

Lemma sim_add_calls s c cs :
  sim s c → Forall (call_ok s) cs → NoDup (omap vote_key cs) →
  (∀ key, key ∈ omap vote_key cs → key ∉ omap vote_key (calls c)) →
  sim s (add_calls cs c).
Proof.
  intros Hs ?? Hnew. apply sim_set_calls; [done|by apply Forall_app; split; [apply Hs|]|].
  rewrite omap_app. apply NoDup_app. split; [apply Hs|]. split; [|done].
  intros key H1 H2. by apply (Hnew key).
Qed.

Lemma sim_delete_call s c k : sim s c → sim s (set_calls (delete k (calls c)) c).
Proof.
  intros Hs. apply sim_set_calls; [done|apply Forall_delete, Hs|].
  destruct (calls c !! k) as [cl|] eqn:Hk.
  - pose proof (sim_keys _ _ Hs) as Hnd. rewrite <-(take_drop_middle _ _ _ Hk) in Hnd.
    rewrite delete_take_drop. rewrite omap_app in *. simpl in Hnd.
    destruct (vote_key cl); [|done]. apply NoDup_app in Hnd as (H1 & H2 & [_ H3]%NoDup_cons).
    apply NoDup_app. split; [done|]. split; [|done]. intros key ? ?. by eapply H2; [|right].
  - apply lookup_ge_None in Hk.
    rewrite delete_take_drop, take_ge, drop_ge, app_nil_r by lia. apply Hs.
Qed.

Lemma sim_update_call s c k cl r :
  sim s c → calls c !! k = Some cl → vote_key (with_rpc cl r) = vote_key cl → call_ok s (with_rpc cl r) →
  sim s (set_calls (<[k := with_rpc cl r]> (calls c)) c).
Proof.
  intros Hs Hk Hkey Hok. apply sim_set_calls; [done|apply Forall_insert; [apply Hs|done]|].
  rewrite insert_take_drop by (by eapply lookup_lt_Some).
  pose proof (sim_keys _ _ Hs) as Hnd. rewrite <-(take_drop_middle _ _ _ Hk) in Hnd.
  rewrite omap_app in *. simpl in *. by rewrite Hkey.
Qed.

(** *** Each action of the cluster is matched by steps of the election *)

Definition simulated s c' : Prop := ∃ s', rtc (e_step n) s s' ∧ sim s' c'.

(** a peer that keeps its election state *)
Lemma sim_keep i rf rf' s c :
  sim s c → nodes c !! i = Some rf → same_id rf rf' → (recoverable rf → recoverable rf') →
  view rf' = view rf → sim s (set_node i rf' c).
Proof.
  intros Hs Hi ?? Hv. apply (sim_set_node i rf rf' s); auto using ext_refl; [|by apply Hs].
  unfold matches. rewrite Hv. by apply (sim_node _ _ Hs).
Qed.

(** a peer that steps down to a larger term *)
Lemma down_step i t s c rf :
  sim s c → nodes c !! i = Some rf → currentTerm rf < t →
  let s' := mkE (<[i := mkA t (-1) RaftFollower []]> (ns s)) (vts s) (wns s) in
  e_step n s s' ∧ ext i s s' ∧ (∀ rf', view rf' = down t → matches (ns s' i) rf').
Proof.
  intros Hs Hi Ht s'. destruct (sim_node _ _ Hs i rf Hi) as (_ & _ & _ & Hm).
  unfold matches, view in Hm. injection Hm as Hterm _ _ _.
  split; [|split].
  - constructor; [|lia]. rewrite <-(sim_len _ _ Hs). by eapply lookup_lt_Some.
  - apply (ext_at i s _ [] []); simpl; [lia|]. intros; lia.
  - intros rf' Hv. unfold matches. rewrite Hv. subst s'; simpl. by rewrite fn_lookup_insert.
Qed.

Lemma simulated_reply_view i rf rf' s c :
  sim s c → nodes c !! i = Some rf → reply_view rf rf' → simulated s (set_node i rf' c).
Proof.
  intros Hs Hi (Hid & Hrec & [Hv|(t & Ht & Hv)]).
  - exists s. split; [done|]. by eapply sim_keep.
  - destruct (down_step i t s c rf Hs Hi Ht) as (Hst & Hext & Hm).
    eexists. split; [by apply rtc_once|]. eapply sim_set_node; eauto. simpl. apply Hs.
Qed.

Lemma simulated_AppendEntries clk i rf args rf' eff reply s c x :
  sim s c → nodes c !! i = Some rf → (ae_Term args, x) ∈ wns s →
  AppendEntries clk rf args = Ret (rf', eff, reply) → simulated s (set_node i rf' c).
Proof.
  intros Hs Hi Hwin E. destruct (AppendEntries_view _ _ _ _ _ _ E) as (Hid & Hrec & [Hv|(Hv & [Ht|[Ht Hr]])]).
  - eapply simulated_reply_view; eauto. by split_and!; [| |left].
  - eapply simulated_reply_view; eauto. split_and!; [done..|]. right. eauto.
  - destruct (sim_node _ _ Hs i rf Hi) as (_ & _ & _ & Hm).
    unfold matches, view in Hm. injection Hm as Hterm _ Hrole _.
    eexists. split; [apply rtc_once, (e_reset n s i x)|].
    + rewrite <-(sim_len _ _ Hs). by eapply lookup_lt_Some.
    + congruence.
    + by rewrite <-Hterm, Ht.
    + eapply sim_set_node; eauto; [|simpl; rewrite fn_lookup_insert|apply Hs].
      * apply (ext_at i s _ [] []); simpl; [lia|set_solver].
      * unfold matches. rewrite Hv. unfold down. simpl. by rewrite <-Hterm, Ht.
Qed.

Lemma simulated_InstallSnapshot clk i rf args rf' eff reply s c :
  sim s c → nodes c !! i = Some rf →
  InstallSnapshot clk rf args = Ret (rf', eff, reply) → simulated s (set_node i rf' c).
Proof.
  intros Hs Hi E. destruct (InstallSnapshot_view _ _ _ _ _ _ E) as (Hid & Hrec & Hv).
  eapply simulated_reply_view; eauto. split_and!; [done..|]. destruct Hv as [|[? ?]]; [by left|right; eauto].
Qed.

(** the vote a peer casts, or confirms *)
Lemma vote_step v x a s : (v < n)%nat → v ≠ x →
  ns s v = a → a_vote a = -1 ∨ a_vote a = Z.of_nat x →
  let s' := mkE (<[v := mkA (a_term a) (Z.of_nat x) (a_role a) (a_tally a)]> (ns s))
                ((a_term a, v, x) :: vts s) (wns s) in
  e_step n s s' ∧ ext v s s'.
Proof.
  intros ?? <- Hv. split; [by apply e_vote|].
  apply (ext_at v s _ [_] []); simpl; [lia|auto].
Qed.

Lemma sim_add_grant s c g : sim s c → sim s (add_grant g c).
Proof.
  intros [???? Hv]. split; [done..|]. intros t v x Hin.
  destruct (Hv t v x Hin); [by left|right; by right].
Qed.

(** the first half of [RequestVote]: perhaps step down to the larger term *)
Lemma request_term_step i s c rf rf1 t :
  sim s c → nodes c !! i = Some rf →
  view rf1 = view rf ∧ t ≤ currentTerm rf ∨ view rf1 = down t ∧ currentTerm rf < t →
  ∃ s1, rtc (e_step n) s s1 ∧ ext i s s1 ∧ vts s1 = vts s ∧ matches (ns s1 i) rf1.
Proof.
  intros Hs Hi [[Hv _]|[Hv Ht]].
  - exists s. split_and!; [done|apply ext_refl|done|]. unfold matches. rewrite Hv. by apply Hs.
  - destruct (down_step i t s c rf Hs Hi Ht) as (Hst & Hext & Hm).
    eexists. split; [by apply rtc_once|]. split; [done|]. split; [done|by apply Hm].
Qed.

Lemma simulated_RequestVote clk k cl args tries rf rf' eff reply s c :
  sim s c → calls c !! k = Some cl → c_rpc cl = RpcVote args tries None →
  nodes c !! c_to cl = Some rf → RequestVote clk rf args = Ret (rf', eff, reply) →
  simulated s
    (set_node (c_to cl) rf'
       (set_calls (<[k := with_rpc cl (RpcVote args tries (Some reply))]> (calls c))
          (if VoteGranted reply then add_grant (rv_Term args, c_to cl, c_from cl) c else c))).
Proof.
  intros Hs Hk Hrpc Hi E.
  pose proof (proj1 (Forall_lookup _ _) (sim_calls _ _ Hs) k cl Hk) as Hcl.
  unfold call_ok in Hcl. rewrite Hrpc in Hcl. destruct Hcl as (Hne & Hcand & Hto & Hle & Htal & _).
  destruct (RequestVote_view _ _ _ _ _ _ E) as (Hid & Hrec & rf1 & H1 & H2).
  destruct (request_term_step _ _ _ _ _ _ Hs Hi H1) as (s1 & Hst1 & Hext1 & Hvts1 & Hm1).
  assert (∃ s', rtc (e_step n) s s' ∧ ext (c_to cl) s s' ∧ matches (ns s' (c_to cl)) rf' ∧
    (if VoteGranted reply then vts s' = (rv_Term args, c_to cl, c_from cl) :: vts s else vts s' = vts s))
    as (s' & Hst & Hext & Hm & Hvts).
  { destruct (VoteGranted reply).
    - assert (currentTerm rf1 = rv_Term args ∧
              view rf' = (currentTerm rf1, CandidateId args, raftState rf1, gotVotes rf1) ∧
              (voteFor rf1 = -1 ∨ voteFor rf1 = CandidateId args)) as (Ht & Hv & Hvote).
      { destruct H2 as [[Hv Hg]|(_ & Ht & Hn & Hv)]; [|by auto].
        destruct (Hg eq_refl) as [Ht Hc]. split_and!; [done| |by right]. rewrite Hv. unfold view. by rewrite Hc. }
      unfold matches, view in Hm1. injection Hm1 as Ht1 Hv1 Hr1 Hg1.
      destruct (vote_step (c_to cl) (c_from cl) _ s1 Hto Hne eq_refl) as [Hst2 Hext2].
      { rewrite <-Hv1, <-Hcand. done. }
      eexists. split; [by eapply rtc_r|]. split; [by eapply ext_trans|].
      split; simpl; [|by rewrite <-Ht1, Ht, Hvts1].
      rewrite fn_lookup_insert. unfold matches. rewrite Hv; simpl. congruence.
    - exists s1. split_and!; [done..| |done]. destruct H2 as [[Hv _]|[? _]]; [|done].
      unfold matches in *. by rewrite Hv. }
  exists s'. split; [done|].
  assert (sim s' (set_node (c_to cl) rf'
    (if VoteGranted reply then add_grant (rv_Term args, c_to cl, c_from cl) c else c))) as Hs'.
  { eapply (sim_set_node _ rf); [|destruct (VoteGranted reply); done|done..|].
    - destruct (VoteGranted reply); [by apply sim_add_grant|done].
    - intros t v x. destruct (VoteGranted reply); rewrite Hvts; simpl; [|apply Hs].
      intros [[= -> -> ->]|Hin]%elem_of_cons; [right; by left|].
      destruct (sim_votes _ _ Hs t v x Hin); [by left|right; by right]. }
  assert (calls (set_node (c_to cl) rf'
    (if VoteGranted reply then add_grant (rv_Term args, c_to cl, c_from cl) c else c)) = calls c) as Hcs.
  { by destruct (VoteGranted reply). }
  replace (set_node _ _ (set_calls _ _)) with
    (set_calls (<[k:=with_rpc cl (RpcVote args tries (Some reply))]> (calls c))
      (set_node (c_to cl) rf'
        (if VoteGranted reply then add_grant (rv_Term args, c_to cl, c_from cl) c else c))) by done.
  rewrite <-Hcs. apply sim_update_call; [done|by rewrite Hcs| |].
  - unfold vote_key. by rewrite Hrpc.
  - assert (call_ok s' cl) as Hcl'.
    { apply (call_ok_ext (c_to cl) s); [done|]. by apply (Forall_lookup_1 _ _ _ _ (sim_calls _ _ Hs) Hk). }
    unfold call_ok in *. rewrite Hrpc in Hcl'. simpl.
    destruct Hcl' as (? & ? & ? & ? & ? & _). split_and!; [done..|].
    intros r [= <-] Hg. rewrite Hg in Hvts. rewrite Hvts. by left.
Qed.

(** the remaining vote requests of a counted call differ from it *)
Lemma other_keys (l : list (call Cmd Snap)) k cl y :
  NoDup (omap vote_key l) → l !! k = Some cl → vote_key cl = Some y →
  ∀ cl', cl' ∈ delete k l → vote_key cl' ≠ Some y.
Proof.
  intros Hnd Hk Hy cl' Hin Hy'. rewrite <-(take_drop_middle _ _ _ Hk), omap_app in Hnd.
  simpl in Hnd. rewrite Hy in Hnd. rewrite delete_take_drop in Hin.
  apply NoDup_app in Hnd as (_ & Hd & [Hd' _]%NoDup_cons).
  apply elem_of_app in Hin as [Hin|Hin].
  - apply (Hd y); [|by left]. apply list_elem_of_omap. eauto.
  - apply Hd'. apply list_elem_of_omap. eauto.
Qed.

Lemma simulated_vote_reply clk k cl args tries rf rf' eff reply s c :
  sim s c → calls c !! k = Some cl → c_rpc cl = RpcVote args tries (Some reply) →
  nodes c !! c_from cl = Some rf → sendRequestVote_reply clk rf args reply = Ret (rf', eff) →
  simulated s (set_node (c_from cl) rf' (set_calls (delete k (calls c)) c)).
Proof.
  intros Hs Hk Hrpc Hi E. pose proof (sim_delete_call s c k Hs) as Hdel.
  destruct (sendRequestVote_reply_view _ _ _ _ _ _ E) as [|(Hid & Hrec & Hle & Hrt & Hg & Hcand & Hpos & Hv)].
  { by eapply simulated_reply_view. }
  pose proof (proj1 (Forall_lookup _ _) (sim_calls _ _ Hs) k cl Hk) as Hcl.
  unfold call_ok in Hcl. rewrite Hrpc in Hcl. destruct Hcl as (Hne & _ & Hto & Hterm & Htal & Hvote).
  destruct (sim_node _ _ Hs _ _ Hi) as (Hp & _ & _ & Hm).
  unfold matches, view in Hm. injection Hm as Ht1 Hv1 Hr1 Hg1.
  assert (rv_Term args = a_term (ns s (c_from cl))) as Heq by lia.
  specialize (Htal Heq). specialize (Hvote reply eq_refl Hg). rewrite Heq in Hvote.
  assert (c_from cl < n)%nat as Hfrom by (rewrite <-(sim_len _ _ Hs); by eapply lookup_lt_Some).
  destruct Hv as [Hv|[Hmaj Hv]].
  - eexists. split; [apply rtc_once, (e_count n s (c_from cl) (c_to cl)); [done..|congruence|done|done]|].
    apply (sim_set_node_calls _ rf rf' s); [done..| | | |apply Hs].
    + intros. simpl. by rewrite fn_lookup_insert_ne.
    + apply Forall_forall. intros cl' Hin.
      pose proof (proj1 (Forall_forall _ _) (sim_calls _ _ Hdel) cl' Hin) as Hok.
      pose proof (other_keys _ k cl _ (sim_keys _ _ Hs) Hk ltac:(unfold vote_key; by rewrite Hrpc) cl' Hin) as Hkey.
      unfold call_ok, vote_key in *. destruct (c_rpc cl') as [args' ? r'| |]; [|done..].
      destruct Hok as (? & ? & ? & ? & ? & ?). simpl.
      destruct (decide (c_from cl' = c_from cl)) as [Hf|Hf];
        [rewrite Hf in *; rewrite fn_lookup_insert; simpl|by rewrite fn_lookup_insert_ne].
      split_and!; [done..| |done]. intros Ht [Hc|?]%elem_of_cons; [|naive_solver].
      apply Hkey. congruence.
    + simpl. rewrite fn_lookup_insert. unfold matches. rewrite Hv. simpl. rewrite Ht1, Hv1, Hg1.
      repeat f_equal. lia.
  - eexists. split; [apply rtc_once, (e_win n s (c_from cl) (c_to cl)); [done..|congruence|done|done|]|].
    + rewrite Hp, Hg1 in Hmaj. apply Nat2Z.inj_lt. rewrite Nat2Z.inj_div. lia.
    + eapply sim_set_node; eauto; [|simpl; rewrite fn_lookup_insert|apply Hs].
      * apply (ext_at _ s _ [] [_]); simpl; [lia|set_solver].
      * unfold matches. rewrite Hv. simpl. by rewrite Ht1.
Qed.

(** the calls an election starts *)
Lemma vote_calls_keys i epoch args (l : list nat) :
  omap vote_key (omap (effect_call (Cmd:=Cmd) (Snap:=Snap) i epoch)
                   ((λ j, SendRequestVote (Z.of_nat j) args) <$> l))
  = (λ j, (i, rv_Term args, j)) <$> l.
Proof. induction l as [|j l IH]; [done|]. csimpl. rewrite IH. simpl. by rewrite Nat2Z.id. Qed.

Lemma vote_calls_ok s i epoch args (l : list nat) :
  CandidateId args = Z.of_nat i → rv_Term args = a_term (ns s i) →
  (∀ j, j ∈ l → j ≠ i ∧ (j < n)%nat ∧ j ∉ a_tally (ns s i)) →
  Forall (call_ok s) (omap (effect_call (Cmd:=Cmd) (Snap:=Snap) i epoch)
                        ((λ j, SendRequestVote (Z.of_nat j) args) <$> l)).
Proof.
  intros Hc Ht. induction l as [|j l IH]; intros Hl; [constructor|]. simpl.
  constructor; [|apply IH; intros; apply Hl; by right].
  destruct (Hl j) as (? & ? & ?); [by left|]. unfold call_ok; simpl. rewrite Nat2Z.id.
  split_and!; [done|done|done|lia|done|done].
Qed.

Lemma simulated_tick clk i epoch rf rf' eff s c :
  sim s c → nodes c !! i = Some rf → ticker_iteration clk rf = Ret (Some (rf', eff)) →
  simulated s (add_calls (omap (effect_call i epoch) eff) (set_node i rf' c)).
Proof.
  intros Hs Hi E. destruct (sim_node _ _ Hs _ _ Hi) as (Hp & Hme & _ & Hm).
  assert (i < n)%nat as Hin by (rewrite <-(sim_len _ _ Hs); by eapply lookup_lt_Some).
  destruct (ticker_view _ _ _ _ E) as (Hid & Hrec & [[-> ->]|(Hv & args & Ht & Hc & ->)]).
  { exists s. split; [done|]. apply sim_add_calls; simpl; [by eapply sim_keep|constructor..|].
    intros key Hkey. by apply not_elem_of_nil in Hkey. }
  unfold matches, view in Hm. injection Hm as Ht1 Hv1 Hr1 Hg1.
  eexists. split; [by apply rtc_once, (e_stand n s i)|].
  apply sim_add_calls.
  - eapply sim_set_node; eauto; [|simpl; rewrite fn_lookup_insert|].
    + apply (ext_at _ s _ [_] []); simpl; [lia|intros; lia].
    + unfold matches. rewrite Hv, Ht1, Hme. done.
    + simpl. intros t v x [[= -> -> ->]|Hin']%elem_of_cons; [by left|by apply (sim_votes _ _ Hs)].
  - apply vote_calls_ok; [congruence|simpl; rewrite fn_lookup_insert; simpl; lia|].
    intros j [Hj Hj']%list_elem_of_filter. apply elem_of_seq in Hj'. simpl. rewrite fn_lookup_insert. simpl.
    split; [lia|]. split; [lia|]. rewrite list_elem_of_singleton. lia.
  - rewrite vote_calls_keys. apply NoDup_fmap_2; [intros ?? [=]; done|]. apply NoDup_filter, NoDup_seq.
  - rewrite vote_calls_keys. intros key (j & -> & _)%list_elem_of_fmap (cl & Hcl & Hkey)%list_elem_of_omap.
    pose proof (proj1 (Forall_forall _ _) (sim_calls _ _ Hs) cl Hcl) as Hok.
    unfold vote_key, call_ok in *. destruct (c_rpc cl) as [args' ? r'| |]; [|done..].
    injection Hkey as Hf Ht' _. destruct Hok as (_ & _ & _ & Hle & _). rewrite Hf in Hle. lia.
Qed.

Lemma simulated_heartBeat i epoch rf eff s c :
  e_inv n s → sim s c → nodes c !! i = Some rf → heartBeat_iteration rf = Ret (Some eff) →
  simulated s (add_calls (omap (effect_call i epoch) eff) c).
Proof.
  intros HI Hs Hi E. destruct (heartBeat_effects _ _ E) as [Hl Heff].
  destruct (sim_node _ _ Hs _ _ Hi) as (_ & _ & _ & Hm).
  unfold matches, view in Hm. injection Hm as Ht1 _ Hr1 _.
  assert ((currentTerm rf, i) ∈ wns s) as Hwin by (rewrite Ht1; apply (i_lead _ _ HI); congruence).
  exists s. split; [done|].
  assert (∀ cl, cl ∈ omap (effect_call i epoch) eff → call_ok s cl ∧ vote_key cl = None) as Hcl.
  { intros cl (e & He & Hcl)%list_elem_of_omap.
    destruct (Heff e He) as [(j & args & -> & Ht)|(j & args & -> & Ht)]; injection Hcl as <-;
      split; try done. exists i. simpl. by rewrite Ht. }
  assert (omap vote_key (omap (effect_call i epoch) eff) = []) as Hkeys.
  { generalize dependent (omap (effect_call i epoch) eff). intros l Hcl.
    induction l as [|cl l IH]; [done|]. csimpl.
    destruct (Hcl cl) as [_ ->]; [by left|]. apply IH. intros; apply Hcl. by right. }
  apply sim_add_calls; [done|apply Forall_forall; intros; by apply Hcl|rewrite Hkeys..].
  - constructor.
  - intros key Hkey. by apply not_elem_of_nil in Hkey.
Qed.

Lemma simulated_crash clk i rf c' s c :
  sim s c → nodes c !! i = Some rf →
  nodes c' = <[i := fst (Make clk (peers rf) (me rf) (persister rf))]> (nodes c) →
  calls c' = calls c → grants c' = grants c → simulated s c'.
Proof.
  intros Hs Hi Hn Hc Hg. destruct (sim_node _ _ Hs _ _ Hi) as (_ & _ & Hrec & Hm).
  destruct (Make_restart clk rf Hrec) as (_ & Hid & Hrec' & Hv).
  set (rf' := fst (Make clk (peers rf) (me rf) (persister rf))) in *.
  unfold matches, view in Hm. injection Hm as Ht1 Hv1 Hr1 Hg1.
  assert (i < n)%nat as Hin by (rewrite <-(sim_len _ _ Hs); by eapply lookup_lt_Some).
  assert (simulated s (set_node i rf' c)) as (s' & Hst & Hs').
  { eexists. split; [by apply rtc_once, (e_restart n s i)|].
    eapply sim_set_node; eauto; [|simpl; rewrite fn_lookup_insert|apply Hs].
    - apply (ext_at _ s _ [] []); simpl; [lia|set_solver].
    - unfold matches. rewrite Hv. simpl. by rewrite Ht1, Hv1. }
  exists s'. split; [done|]. destruct Hs' as [H1 H2 H3 H4 H5]. split.
  - by rewrite Hn. - by rewrite Hn. - by rewrite Hc. - by rewrite Hc. - by rewrite Hg.
Qed.

(** peel the binds of an action *)
#[local] Ltac act_inv :=
  repeat match goal with
  | H : _ ≫= _ = Some _ |- _ => apply bind_Some in H as (? & ? & H); simpl in H
  | H : of_ret ?m = Some _ |- _ => destruct m eqn:?; simpl in H; simplify_eq
  | H : (let '(_, _) := ?p in _) = Some _ |- _ => destruct p
  | H : (if ?b then _ else _) = Some _ |- _ => destruct b eqn:?
  | p : (_ * _)%type |- _ => destruct p
  end; simplify_eq/=.

Lemma simulated_deliver k clk s c c' : sim s c → deliver k clk c = Some c' → simulated s c'.
Proof.
  intros Hs E. unfold deliver in E. apply bind_Some in E as (cl & Hk & E).
  apply bind_Some in E as (rf & Hi & E).
  pose proof (proj1 (Forall_lookup _ _) (sim_calls _ _ Hs) k cl Hk) as Hcl.
  unfold call_ok in Hcl.
  destruct (c_rpc cl) as [args tries [r|]|args [r|]|args [r|]] eqn:Hrpc; try discriminate E.
  - apply bind_Some in E as ([[rf' eff] reply] & E1 & E). destruct (RequestVote _ _ _) eqn:E2; [|done..].
    injection E1 as ->. pose proof (simulated_RequestVote clk k cl args tries rf rf' eff reply s c Hs Hk Hrpc Hi E2) as H.
    destruct (VoteGranted reply); injection E as <-; exact H.
  - apply bind_Some in E as ([[rf' eff] reply] & E1 & E). destruct (AppendEntries _ _ _) eqn:E2; [|done..].
    injection E1 as ->. injection E as <-. destruct Hcl as [x Hwin].
    eapply simulated_AppendEntries; [|exact Hi|exact Hwin|exact E2].
    apply sim_update_call; [done..|unfold vote_key; by rewrite Hrpc|by exists x].
  - apply bind_Some in E as ([[rf' eff] reply] & E1 & E). destruct (InstallSnapshot _ _ _) eqn:E2; [|done..].
    injection E1 as ->. injection E as <-.
    assert (sim s (set_calls (<[k:=with_rpc cl (RpcSnap args (Some reply))]> (calls c)) c)) as Hs1.
    { apply sim_update_call; [exact Hs|exact Hk|unfold vote_key; by rewrite Hrpc|done]. }
    destruct (simulated_InstallSnapshot clk (c_to cl) rf args rf' eff reply s _ Hs1 Hi E2) as (s' & Hst & Hs').
    exists s'. split; [done|]. destruct Hs'. by split.
Qed.

Lemma simulated_lose k s c c' : sim s c → lose k c = Some c' → simulated s c'.
Proof.
  intros Hs E. unfold lose in E. apply bind_Some in E as (cl & Hk & E).
  assert (simulated s (set_calls (delete k (calls c)) c)) as Hdel.
  { exists s. split; [done|]. by apply sim_delete_call. }
  destruct (c_rpc cl) as [args [|[|tries]] r|args r|args r] eqn:Hrpc; injection E as <-; try exact Hdel.
  exists s. split; [done|]. apply sim_update_call; [done..|unfold vote_key; by rewrite Hrpc|].
  pose proof (proj1 (Forall_lookup _ _) (sim_calls _ _ Hs) k cl Hk) as Hcl.
  unfold call_ok in *. rewrite Hrpc in Hcl. simpl. destruct Hcl as (? & ? & ? & ? & ? & _).
  by split_and!.
Qed.

Lemma simulated_reply k clk s c c' : sim s c → handle_reply k clk c = Some c' → simulated s c'.
Proof.
  intros Hs E. unfold handle_reply in E. apply bind_Some in E as (cl & Hk & E).
  apply bind_Some in E as (rf & Hi & E). apply bind_Some in E as (epoch & _ & E).
  destruct (decide _); [|done]. apply bind_Some in E as ([rf' eff] & E1 & E). injection E as <-.
  pose proof (sim_delete_call s c k Hs) as Hdel.
  destruct (c_rpc cl) as [args tries [r|]|args [r|]|args [r|]] eqn:Hrpc; try discriminate E1.
  - destruct (sendRequestVote_reply _ _ _ _) eqn:E2; [|done..]. injection E1 as ->.
    by eapply simulated_vote_reply.
  - destruct (sendAppendEntries_reply _ _ _ _) eqn:E2; [|done..]. injection E1 as ->.
    eapply simulated_reply_view; [exact Hdel|exact Hi|by eapply sendAppendEntries_reply_view].
  - destruct (sendInstallSnapshot_reply _ _ _ _) eqn:E2; [|done..]. injection E1 as ->.
    eapply simulated_reply_view; [exact Hdel|exact Hi|by eapply sendInstallSnapshot_reply_view].
Qed.

(** fields the election does not read *)
Lemma simulated_frame s c c' :
  nodes c' = nodes c → calls c' = calls c → grants c' = grants c → simulated s c → simulated s c'.
Proof.
  intros Hn Hc Hg (s' & Hst & [H1 H2 H3 H4 H5]). exists s'. split; [done|].
  split; [by rewrite Hn|by rewrite Hn|by rewrite Hc|by rewrite Hc|by rewrite Hg].
Qed.

Lemma simulated_step a s c c' : e_inv n s → sim s c → cluster_step a c = Some c' → simulated s c'.
Proof.
  intros HI Hs E. destruct a as [i clk|i|i|i|i|i command|i idx snap|k clk|k|k clk|i clk]; simpl in E.
  - act_inv. by eapply simulated_tick.
  - act_inv. by eapply simulated_heartBeat.
  - act_inv. eapply simulated_reply_view; [done..|by eapply commit_view].
  - act_inv.
    eapply (simulated_frame s (set_node i _ c)); [done..|].
    eapply simulated_reply_view; [done..|by eapply apply_view].
  - act_inv. destruct (_ : list (ApplyMsg Cmd Snap)) as [|m q']; [done|]. injection E as <-.
    eapply (simulated_frame s c); [done..|]. by exists s.
  - apply bind_Some in E as (rf & Hi & E). destruct (Start command rf) as [[rf' ?] ?] eqn:E1.
    injection E as <-.
    eapply simulated_reply_view; [done..|by eapply Start_view].
  - act_inv. eapply simulated_reply_view; [done..|by eapply Snapshot_view].
  - by eapply simulated_deliver.
  - by eapply simulated_lose.
  - by eapply simulated_reply.
  - act_inv. by eapply simulated_crash.
Qed.

Lemma sim_init clk : sim e_init (cluster_init clk n).
Proof.
  split; simpl.
  - by rewrite length_fmap, length_seq.
  - intros i rf Hi. apply list_lookup_fmap_Some in Hi as (j & -> & Hj).
    apply lookup_seq in Hj as [-> ?].
    destruct (Make_fresh (Cmd:=Cmd) (Snap:=Snap) clk n (Z.of_nat (0 + i))) as (Hr & Hv & Hp & Hm).
    by split_and!.
  - constructor.
  - constructor.
  - intros t v x Hin. by apply not_elem_of_nil in Hin.
Qed.

(** every reachable cluster is matched by a reachable state of the election *)
Lemma cluster_refines c : cluster_reachable n c → ∃ s, e_reachable n s ∧ sim s c.
Proof.
  apply (cluster_invariant (λ c, ∃ s, e_reachable n s ∧ sim s c)).
  - intros clk. exists e_init. split; [by exists e_init|apply sim_init].
  - intros a c1 c2 (s & Hr & Hs) E.
    destruct (simulated_step a s c1 c2 (e_reachable_inv n s Hr) Hs E) as (s' & Hst & Hs').
    exists s'. split; [|done]. destruct Hr as (s0 & H0 & Hr). exists s0. split; [done|]. by etrans.
Qed.

(** a leader of the cluster is a winner of the election *)
Lemma leader_won c s i rf : e_reachable n s → sim s c → nodes c !! i = Some rf →
  raftState rf = RaftLeader → (currentTerm rf, i) ∈ wns s.
Proof.
  intros Hr Hs Hi Hl. destruct (sim_node _ _ Hs i rf Hi) as (_ & _ & _ & Hm).
  unfold matches, view in Hm. injection Hm as Ht1 _ Hr1 _.
  rewrite Ht1. apply (i_lead _ _ (e_reachable_inv n s Hr)). congruence.
Qed.

(** C2. Leaders of one term: whatever messages are lost, retried or reordered
    and whichever peers crash and recover, when two different peers lead in the
    same term, one of them granted its vote in that term to the other.  (The
    only way to two leaders is the vote a leader may still cast in its own
    term.) *)
Theorem leaders_of_a_term c i j rfi rfj :
  cluster_reachable n c → nodes c !! i = Some rfi → nodes c !! j = Some rfj →
  raftState rfi = RaftLeader → raftState rfj = RaftLeader → currentTerm rfi = currentTerm rfj →
  i = j ∨ (currentTerm rfi, i, j) ∈ grants c ∨ (currentTerm rfi, j, i) ∈ grants c.
Proof.
  intros Hc Hi Hj Hli Hlj Ht. destruct (cluster_refines c Hc) as (s & Hr & Hs).
  destruct (decide (i = j)) as [|Hne]; [by left|right].
  destruct (winners_voted n s (currentTerm rfi) i j) as [Hv|Hv].
  - by apply e_reachable_inv.
  - by eapply leader_won.
  - rewrite Ht. by eapply leader_won.
  - done.
  - destruct (sim_votes _ _ Hs _ _ _ Hv); [done|by left].
  - destruct (sim_votes _ _ Hs _ _ _ Hv); [done|by right].
Qed.

(** Election safety for an even number of peers: at most one leader per
    term in every reachable state. *)
Theorem even_cluster_one_leader c i j rfi rfj :
  cluster_reachable n c → Nat.Even n → nodes c !! i = Some rfi → nodes c !! j = Some rfj →
  raftState rfi = RaftLeader → raftState rfj = RaftLeader → currentTerm rfi = currentTerm rfj → i = j.
Proof.
  intros Hc Heven Hi Hj Hli Hlj Ht. destruct (cluster_refines c Hc) as (s & Hr & Hs).
  eapply (even_one_winner n s (currentTerm rfi)).
  - by apply e_reachable_inv.
  - done.
  - by eapply leader_won.
  - rewrite Ht. by eapply leader_won.
Qed.

Lemma reachable_recoverable c i rf : cluster_reachable n c → nodes c !! i = Some rf → recoverable rf.
Proof.
  intros Hc Hi. destruct (cluster_refines c Hc) as (s & _ & Hs). by apply (sim_node _ _ Hs i rf).
Qed.

(** C20. Crash recovery: in every reachable state of the cluster, a peer that
    crashes and restarts from its persister gets back its current term, vote,
    log, snapshot index and snapshot. *)
Theorem crash_keeps_stable_state c i rf clk :
  cluster_reachable n c → nodes c !! i = Some rf →
  stable (fst (Make clk (peers rf) (me rf) (persister rf))) = stable rf.
Proof.
  intros Hc Hi. by apply (reachable_recoverable c i rf).
Qed.
End refinement.

(** *** Schedules *)

(** three peers: peers 0 and 1 stand in term 1; peer 2 makes 0 the leader; 0
    then grants its vote in term 1 to peer 1 *)
Definition two_leaders_schedule : list (action nat nat) :=
  let late := {| now := 1000; rnd := 0 |} in
  [ATick 0 late; ATick 1 late; ADeliver 1 late; AReply 1 late; ADeliver 1 late; AReply 1 late].

Definition clk0 : clock := {| now := 0; rnd := 0 |}.

Definition run3 (acts : list (action nat nat)) : option (cluster nat nat) :=
  cluster_run acts (cluster_init clk0 3).

Lemma run3_reachable acts c : run3 acts = Some c → cluster_reachable 3 c.
Proof. intros E. by exists clk0, acts. Qed.

Example two_leaders : (λ c, (λ rf, (raftState rf, currentTerm rf)) <$> nodes c) <$> run3 two_leaders_schedule
  = Some [(RaftLeader, 1); (RaftLeader, 1); (RaftFollower, 1)].
Proof. vm_compute. reflexivity. Qed.

Lemma leaders_of_a_term_witness : ∃ c rf, run3 two_leaders_schedule = Some c ∧
  nodes c !! 0%nat = Some rf ∧ currentTerm rf = 1 ∧
  (0%nat = 1%nat ∨ (currentTerm rf, 0%nat, 1%nat) ∈ grants c ∨ (currentTerm rf, 1%nat, 0%nat) ∈ grants c).
Proof.
  eexists _, _. split; [vm_compute; reflexivity|]. split; [reflexivity|]. split; [reflexivity|].
  eapply (leaders_of_a_term 3 _ 0 1);
    [exists clk0, two_leaders_schedule; vm_compute; reflexivity|simpl; reflexivity..].
Defined.

(** two peers, one of them leading *)
Definition one_leader_schedule : list (action nat nat) :=
  let late := {| now := 1000; rnd := 0 |} in [ATick 0 late; ADeliver 0 late; AReply 0 late].

Definition run2 (acts : list (action nat nat)) : option (cluster nat nat) :=
  cluster_run acts (cluster_init clk0 2).

Lemma even_cluster_one_leader_witness : ∃ c rf, run2 one_leader_schedule = Some c ∧
  nodes c !! 0%nat = Some rf ∧ raftState rf = RaftLeader ∧ 0%nat = 0%nat.
Proof.
  eexists _, _. split; [vm_compute; reflexivity|]. split; [reflexivity|]. split; [reflexivity|].
  eapply (even_cluster_one_leader 2 _ 0 0);
    [exists clk0, one_leader_schedule; vm_compute; reflexivity|by exists 1%nat|simpl; reflexivity..].
Defined.

Lemma crash_keeps_stable_state_witness : ∃ c rf, run3 two_leaders_schedule = Some c ∧
  nodes c !! 2%nat = Some rf ∧ voteFor rf = 0 ∧
  stable (fst (Make clk0 (peers rf) (me rf) (persister rf))) = stable rf.
Proof.
  eexists _, _. split; [vm_compute; reflexivity|]. split; [reflexivity|]. split; [reflexivity|].
  eapply (crash_keeps_stable_state 3 _ 2);
    [exists clk0, two_leaders_schedule; vm_compute; reflexivity|simpl; reflexivity].
Defined.

(** the two leaders then commit different commands at the same index: 0 starts
    command 10 and replicates it on 2; 1 starts command 20, and 2 answers
    success, for it holds an entry of the same index and term *)
Definition diverging_schedule : list (action nat nat) :=
  let late := {| now := 1000; rnd := 0 |} in
  two_leaders_schedule ++
  [AStart 0 (Some 10%nat); AHeartBeat 0; ADeliver 3 late; AReply 3 late; ACommit 0; AApply 0; ASend 0;
   AStart 1 (Some 20%nat); AHeartBeat 1; ADeliver 4 late; AReply 4 late; ACommit 1; AApply 1; ASend 1].

Definition applied (c : cluster nat nat) : list (list (Z * option nat)) :=
  map (map (λ m, (CommandIndex m, am_Command m))) (delivered c).

(** C38. State machine safety fails for three peers: in a reachable state, peers 0
    and 1 have delivered different commands at index 1. *)
Theorem state_machine_safety_fails : ∃ c, cluster_reachable 3 c ∧
  applied c = [[(1, Some 10%nat)]; [(1, Some 20%nat)]; []].
Proof.
  assert (applied <$> run3 diverging_schedule = Some [[(1, Some 10%nat)]; [(1, Some 20%nat)]; []]) as H
    by (vm_compute; reflexivity).
  destruct (run3 diverging_schedule) as [c|] eqn:E; [|discriminate H].
  exists c. split; [exact (run3_reachable _ _ E)|]. by injection H.
Qed.
