(* ===== verification/RaftLog.v ===== *)
(** * Log replication at one peer

    What the operations of raft1/raft.go do to the log, the commit index and
    the replication bookkeeping: the log a follower ends up with, that an old
    or repeated AppendEntries harms nothing, that no handler indexes out of
    range on a well-formed peer, what a commit proves, and what snapshots keep. *)

From S2P Require Import Prelude RaftNode RaftFacts RaftCluster.
Local Open Scope Z_scope.

Section raftlog.
Context {Cmd Snap : Type}.
Implicit Types (rf : Raft Cmd Snap) (clk : clock) (e : LogEntry Cmd).

(** ** Well-formed peers *)

(** [logs[0]] stands for the entry at [snapshotIndex]; what is applied is
    committed, and what is committed is in the log *)
Record node_wf rf : Prop := {
  wf_logs : logs rf ≠ [];
  wf_snap : 0 ≤ snapshotIndex rf;
  wf_applied : snapshotIndex rf ≤ lastApplied rf ≤ commitIndex rf;
  wf_commit : commitIndex rf ≤ GetLastLogIndex rf
}.

(** the part of it that no message can break *)
Definition node_ok rf : Prop := logs rf ≠ [] ∧ 0 ≤ snapshotIndex rf.

Lemma zlen_pos {A} (l : list A) : l ≠ [] → 0 < zlen l.
Proof. unfold zlen. destruct l; [done|simpl; lia]. Qed.

Lemma log_in_range rf i : snapshotIndex rf ≤ i ≤ GetLastLogIndex rf → ∃ e, log rf i = Ret e.
Proof.
  intros Hi. unfold GetLastLogIndex in Hi. unfold log, go_index, index.
  destruct (zlookup_is_Some (logs rf) (i - snapshotIndex rf)) as [e ->]; [lia|eauto].
Qed.

Lemma log_Ret rf i e : log rf i = Ret e →
  snapshotIndex rf ≤ i ≤ GetLastLogIndex rf ∧ logs rf !! Z.to_nat (i - snapshotIndex rf) = Some e.
Proof.
  unfold log, index, GetLastLogIndex. rewrite go_index_Ret. intros [? ?]%zlookup_Some.
  split; [lia|done].
Qed.

Lemma log_lookup rf i : snapshotIndex rf ≤ i →
  log rf i = match logs rf !! Z.to_nat (i - snapshotIndex rf) with Some e => Ret e | None => Panic end.
Proof.
  intros ?. unfold log, go_index, index, zlookup. rewrite decide_False by lia.
  by destruct (_ !! _).
Qed.

(** ** AppendEntries: the entries already present *)

(** reference definition: the number of leading entries whose terms agree with
    the log from position [p] *)
Fixpoint agree (l : list (LogEntry Cmd)) (entries : list (LogEntry Cmd)) : nat :=
  match l, entries with
  | x :: l', y :: entries' => if decide (e_Term x = e_Term y) then S (agree l' entries') else O
  | _, _ => O
  end.

(** reference definition of the log after an accepted AppendEntries, [p] being
    the position of the first entry: nothing changes when the log already covers
    the entries, otherwise the entries replace everything from [p] on *)
Definition merged (l : list (LogEntry Cmd)) (p : nat) (entries : list (LogEntry Cmd)) : list (LogEntry Cmd) :=
  let k := agree (drop p l) entries in
  if decide (k = length entries) then l else take (p + k) l ++ drop k entries.

Lemma agree_le l es : (agree l es ≤ length l)%nat ∧ (agree l es ≤ length es)%nat.
Proof.
  revert es. induction l as [|x l IH]; intros [|y es]; simpl; try lia.
  destruct (decide _); simpl; [|lia]. destruct (IH es). lia.
Qed.

(** the loop of the handler computes [agree] *)
Lemma skip_present_agree rf es p :
  (p ≤ length (logs rf))%nat →
  skip_present rf (snapshotIndex rf + Z.of_nat p) es
  = Ret (snapshotIndex rf + Z.of_nat (p + agree (drop p (logs rf)) es),
         drop (agree (drop p (logs rf)) es) es).
Proof.
  revert p. induction es as [|e es IH]; intros p Hp; simpl.
  { destruct (drop p (logs rf)); simpl; do 2 f_equal; lia. }
  unfold GetLastLogIndex, zlen. destruct (decide _) as [Hin|Hout].
  - assert (p < length (logs rf))%nat as Hlt by lia.
    destruct (lookup_lt_is_Some_2 _ _ Hlt) as [x Hx].
    rewrite log_lookup by lia.
    replace (Z.to_nat (snapshotIndex rf + Z.of_nat p - snapshotIndex rf)) with p by lia.
    rewrite Hx. simpl. rewrite (drop_S _ _ _ Hx). simpl.
    destruct (decide (e_Term x = e_Term e)) as [Heq|Hne].
    + replace (snapshotIndex rf + Z.of_nat p + 1) with (snapshotIndex rf + Z.of_nat (S p)) by lia.
      rewrite IH by lia. simpl. do 2 f_equal. lia.
    + do 2 f_equal. lia.
  - rewrite drop_ge by lia. simpl. do 2 f_equal. lia.
Qed.

(** the log an accepted AppendEntries leaves *)
Lemma accept_logs rf args rf' eff :
  snapshotIndex rf ≤ PrevLogIndex args ≤ GetLastLogIndex rf →
  AppendEntries_accept rf args = Ret (rf', eff) →
  logs rf' = merged (logs rf) (Z.to_nat (PrevLogIndex args + 1 - snapshotIndex rf)) (Entries args)
  ∧ commitIndex rf' = (if decide (LeaderCommit args > commitIndex rf)
                       then Z.min (LeaderCommit args) (GetLastLogIndex rf') else commitIndex rf)
  ∧ lastApplied rf' = lastApplied rf ∧ snapshotIndex rf' = snapshotIndex rf
  ∧ snapshot rf' = snapshot rf.
Proof.
  intros Hp. unfold AppendEntries_accept. set (p := Z.to_nat _).
  unfold GetLastLogIndex, zlen in Hp.
  replace (PrevLogIndex args + 1) with (snapshotIndex rf + Z.of_nat p) by lia.
  rewrite skip_present_agree by lia. simpl.
  set (k := agree _ _). pose proof (agree_le (drop p (logs rf)) (Entries args)) as [Hk1 Hk2].
  fold k in Hk1, Hk2. rewrite length_drop in Hk1.
  unfold merged. fold k.
  destruct (drop k (Entries args)) as [|e rest] eqn:Hrest.
  - assert (k = length (Entries args)) as Hk.
    { apply (f_equal length) in Hrest. rewrite length_drop in Hrest. simpl in Hrest. lia. }
    rewrite decide_True by done. simpl.
    destruct (decide (LeaderCommit args > commitIndex rf)); intros [= <- <-]; by simpl.
  - assert (k ≠ length (Entries args)) as Hk.
    { intros Hk. rewrite Hk, drop_all in Hrest. done. }
    rewrite decide_False by done. unfold go_take, index. rewrite decide_True by (unfold zlen; lia). simpl.
    replace (Z.to_nat (snapshotIndex rf + Z.of_nat (p + k) - snapshotIndex rf)) with (p + k)%nat by lia.
    destruct (decide (LeaderCommit args > commitIndex rf)); intros [= <- <-]; by simpl.
Qed.

(** *** Facts about the reference definition *)

Definition term_at (l : list (LogEntry Cmd)) (i : nat) : option Z := e_Term <$> l !! i.

Lemma agree_terms l es j : (j < agree l es)%nat → term_at l j = term_at es j.
Proof.
  unfold term_at. revert es j. induction l as [|x l IH]; intros [|y es] j; simpl; try lia.
  destruct (decide (e_Term x = e_Term y)) as [Heq|]; [|lia].
  destruct j as [|j]; simpl; [by rewrite Heq|]. intros ?. apply IH. lia.
Qed.

Lemma agree_stops l es : (agree l es < length es)%nat → term_at l (agree l es) ≠ term_at es (agree l es).
Proof.
  unfold term_at. revert es. induction l as [|x l IH]; intros [|y es]; simpl; try (lia || done).
  destruct (decide (e_Term x = e_Term y)) as [|Hne]; simpl.
  - intros ?. apply IH. lia.
  - congruence.
Qed.

Lemma agree_full l es :
  (∀ j, (j < length es)%nat → term_at l j = term_at es j) → agree l es = length es.
Proof.
  unfold term_at. revert es. induction l as [|x l IH]; intros [|y es] Hj; try done.
  - specialize (Hj 0%nat ltac:(simpl; lia)). done.
  - pose proof (Hj 0%nat ltac:(simpl; lia)) as H0. simpl in H0. injection H0 as H0.
    simpl. rewrite decide_True by done. f_equal. apply IH.
    intros j ?. apply (Hj (S j)). simpl. lia.
Qed.

(** a request whose entries are all there changes nothing *)
Lemma merged_present l p es :
  (∀ j, (j < length es)%nat → term_at l (p + j) = term_at es j) → merged l p es = l.
Proof.
  intros Hj. unfold merged. rewrite decide_True; [done|]. apply agree_full.
  intros j ?. unfold term_at. rewrite lookup_drop. by apply Hj.
Qed.

Lemma merged_prefix l p es : (p ≤ length l)%nat → take p (merged l p es) = take p l.
Proof.
  intros Hp. unfold merged. destruct (agree_le (drop p l) es) as [H1 _]. rewrite length_drop in H1.
  destruct (decide _); [done|].
  rewrite take_app_le by (rewrite length_take; lia). rewrite take_take. f_equal. lia.
Qed.

Lemma merged_terms l p es j :
  (p ≤ length l)%nat → (j < length es)%nat → term_at (merged l p es) (p + j) = term_at es j.
Proof.
  intros Hp Hj. unfold merged. set (k := agree _ _).
  destruct (agree_le (drop p l) es) as [H1 H2]. fold k in H1, H2. rewrite length_drop in H1.
  assert (∀ i, (i < k)%nat → term_at l (p + i) = term_at es i) as Hk.
  { intros i Hi. pose proof (agree_terms (drop p l) es i Hi) as Ht. unfold term_at in *.
    by rewrite lookup_drop in Ht. }
  destruct (decide (k = length es)) as [Heq|Hne]; [apply Hk; lia|].
  destruct (decide (j < k)%nat) as [Hlt|Hge].
  - unfold term_at. rewrite lookup_app_l by (rewrite length_take; lia).
    rewrite lookup_take_lt by lia. apply (Hk j Hlt).
  - unfold term_at. rewrite lookup_app_r by (rewrite length_take; lia).
    rewrite lookup_drop, length_take. do 2 f_equal. lia.
Qed.

Lemma merged_length l p es : (p ≤ length l)%nat → (p + length es ≤ length (merged l p es))%nat.
Proof.
  intros Hp. destruct (Nat.eq_0_gt_0_cases (length es)) as [H0|Hpos].
  - unfold merged. rewrite H0. destruct (agree_le (drop p l) es) as [_ H2].
    rewrite decide_True by lia. lia.
  - pose proof (merged_terms l p es (length es - 1) Hp ltac:(lia)) as Ht. unfold term_at in Ht.
    destruct (lookup_lt_is_Some_2 es (length es - 1) ltac:(lia)) as [x Hx]. rewrite Hx in Ht.
    destruct (merged l p es !! (p + (length es - 1))%nat) eqn:E; [|done].
    apply lookup_lt_Some in E. lia.
Qed.

(** which entries are taken from where *)
Lemma merged_split l p es : ∃ k, (k ≤ length es)%nat
  ∧ (∀ j, (j < k)%nat → term_at (drop p l) j = term_at es j)
  ∧ (k = length es ∧ merged l p es = l
     ∨ (k < length es)%nat ∧ term_at (drop p l) k ≠ term_at es k ∧ merged l p es = take (p + k) l ++ drop k es).
Proof.
  exists (agree (drop p l) es). destruct (agree_le (drop p l) es) as [_ Hk]. split; [done|].
  split; [intros j; apply agree_terms|]. unfold merged. destruct (decide _) as [|Hne]; [by left|right].
  split; [lia|]. split; [|done]. apply agree_stops. lia.
Qed.

(** the log changes only to end with the request's entries *)
Lemma merged_cases l p es :
  (p ≤ length l)%nat → merged l p es = l ∨ length (merged l p es) = (p + length es)%nat.
Proof.
  intros Hp. destruct (agree_le (drop p l) es) as [H1 H2]. rewrite length_drop in H1.
  unfold merged. destruct (decide _); [by left|right].
  rewrite length_app, length_take, length_drop. lia.
Qed.

(** ** AppendEntries: the handler *)

(** a request is accepted when the previous entry is there with its term *)
Definition prev_matches rf (args : AppendEntriesArgs Cmd) : Prop :=
  snapshotIndex rf ≤ PrevLogIndex args ≤ GetLastLogIndex rf ∧
  ∃ e, log rf (PrevLogIndex args) = Ret e ∧ e_Term e = PrevLogTerm args.

(** the part of a peer replication works on *)
Definition replica rf : list (LogEntry Cmd) * Z * Z * Z * option Snap :=
  (logs rf, commitIndex rf, lastApplied rf, snapshotIndex rf, snapshot rf).

Lemma back_over_term_total rf t fuel xi :
  snapshotIndex rf ≤ xi ≤ GetLastLogIndex rf → ∃ z, back_over_term rf t fuel xi = Ret z.
Proof.
  revert xi. induction fuel as [|fuel IH]; intros xi Hxi; simpl; [eauto|].
  destruct (decide _); [|eauto].
  destruct (log_in_range rf xi Hxi) as [e ->]. simpl. destruct (decide _); [|eauto].
  apply IH. lia.
Qed.

Lemma AppendEntries_accept_total rf args :
  prev_matches rf args → ∃ r, AppendEntries_accept rf args = Ret r.
Proof.
  intros [Hp _]. unfold AppendEntries_accept. set (p := Z.to_nat (PrevLogIndex args + 1 - snapshotIndex rf)).
  pose proof Hp as Hp'. unfold GetLastLogIndex, zlen in Hp'.
  replace (PrevLogIndex args + 1) with (snapshotIndex rf + Z.of_nat p) by lia.
  rewrite skip_present_agree by lia. simpl.
  pose proof (agree_le (drop p (logs rf)) (Entries args)) as [Hk1 Hk2]. rewrite length_drop in Hk1.
  destruct (drop (agree _ _) _); simpl; [by destruct (decide _); eauto|].
  unfold go_take, index. rewrite decide_True by (unfold zlen; lia). simpl.
  destruct (decide _); eauto.
Qed.

(** the handler in one statement: rejections leave the replica alone, an
    accepted request merges its entries *)
Lemma AppendEntries_cases clk rf args rf' eff reply :
  AppendEntries clk rf args = Ret (rf', eff, reply) →
  Success reply = false ∧ replica rf' = replica rf
    ∧ (ae_Term args < currentTerm rf ∨ ¬ prev_matches rf args)
  ∨ Success reply = true ∧ currentTerm rf ≤ ae_Term args ∧ prev_matches rf args
    ∧ ∃ rf3 eff', replica rf3 = replica rf ∧ AppendEntries_accept rf3 args = Ret (rf', eff').
Proof.
  unfold AppendEntries. intros E. destruct (decide _) as [|Hge]; [go_inv; left; auto|].
  set (rf1 := resetElectionTimer clk rf) in *.
  destruct (if decide _ then _ else _) as [rf2 eff2] eqn:E2.
  set (rf3 := set_leaderID (ae_LeaderID args) rf2) in *.
  assert (replica rf3 = replica rf) as Hrep.
  { destruct (decide _); injection E2 as E2 _; subst rf2 rf3; done. }
  clearbody rf3. clear E2.
  assert (∀ i, log rf3 i = log rf i) as Hlog.
  { intros i. injection Hrep as Hl _ _ Hsn _. unfold log, index. by rewrite Hl, Hsn. }
  assert (GetLastLogIndex rf3 = GetLastLogIndex rf ∧ snapshotIndex rf3 = snapshotIndex rf) as [Hlast Hsn].
  { injection Hrep as Hl _ _ Hsn _. unfold GetLastLogIndex. by rewrite Hl, Hsn. }
  destruct (decide _).
  { go_inv. left. split_and!; [done..|right]. intros [? _]. lia. }
  destruct (decide _).
  { go_inv. left. split_and!; [done..|right]. intros [? _]. lia. }
  apply outcome_bind_ret in E as (prev & Eprev & E). rewrite Hlog in Eprev.
  destruct (decide _) as [Hne|Heq].
  - apply outcome_bind_ret in E as (xi & _ & E).
    assert (¬ prev_matches rf args) as Hno.
    { intros (_ & e & He & Ht). rewrite Eprev in He. injection He as ->. congruence. }
    destruct (decide _); go_inv; left; auto.
  - apply outcome_bind_ret in E as ([rf4 eff4] & E4 & E). injection E as <- <- <-.
    right. split; [done|]. split; [lia|]. split; [|eauto].
    split; [lia|]. exists prev. split; [done|]. destruct (decide (PrevLogTerm args = e_Term prev)); [done|by destruct Heq].
Qed.

Lemma prev_pos rf args : prev_matches rf args →
  (Z.to_nat (PrevLogIndex args + 1 - snapshotIndex rf) ≤ length (logs rf))%nat.
Proof. unfold prev_matches, GetLastLogIndex, zlen. intros [? _]. lia. Qed.

Lemma AppendEntries_success clk rf args rf' eff reply :
  AppendEntries clk rf args = Ret (rf', eff, reply) → Success reply = true →
  currentTerm rf ≤ ae_Term args ∧ prev_matches rf args
  ∧ logs rf' = merged (logs rf) (Z.to_nat (PrevLogIndex args + 1 - snapshotIndex rf)) (Entries args)
  ∧ commitIndex rf' = (if decide (LeaderCommit args > commitIndex rf)
                       then Z.min (LeaderCommit args) (GetLastLogIndex rf') else commitIndex rf)
  ∧ lastApplied rf' = lastApplied rf ∧ snapshotIndex rf' = snapshotIndex rf ∧ snapshot rf' = snapshot rf.
Proof.
  intros E Hs. destruct (AppendEntries_cases _ _ _ _ _ _ E) as [(? & _)|(_ & Ht & Hp & rf3 & eff' & Hrep & Ha)];
    [congruence|].
  split; [done|]. split; [done|]. injection Hrep as Hl Hc Hla Hsn Hsnap.
  destruct Hp as [Hp _]. unfold GetLastLogIndex in Hp. rewrite <-Hl, <-Hsn in Hp.
  destruct (accept_logs _ _ _ _ Hp Ha) as (H1 & H2 & H3 & H4 & H5).
  rewrite H1, H2, H3, H4, H5, <-Hl, <-Hc, <-Hla, <-Hsn, <-Hsnap. done.
Qed.

(** ** No handler ends the process *)

Lemma AppendEntries_total clk rf args : logs rf ≠ [] → ∃ r, AppendEntries clk rf args = Ret r.
Proof.
  intros Hne. apply zlen_pos in Hne.
  unfold AppendEntries. destruct (decide _); [eauto|].
  set (rf1 := resetElectionTimer clk rf).
  destruct (if decide _ then _ else _) as [rf2 eff2] eqn:E2.
  set (rf3 := set_leaderID (ae_LeaderID args) rf2).
  assert (logs rf3 = logs rf ∧ snapshotIndex rf3 = snapshotIndex rf) as [Hl Hsn].
  { destruct (decide _); injection E2 as E2 _; subst rf2 rf3; done. }
  clearbody rf3. clear E2.
  destruct (decide _); [eauto|]. destruct (decide _); [eauto|].
  destruct (log_in_range rf3 (PrevLogIndex args)) as [prev Hprev]; [lia|]. rewrite Hprev. simpl.
  destruct (decide _) as [|Heq].
  - destruct (back_over_term_total rf3 (e_Term prev)
      (Z.to_nat (PrevLogIndex args - snapshotIndex rf3)) (PrevLogIndex args)) as [z ->]; [lia|].
    simpl. destruct (decide _); eauto.
  - destruct (AppendEntries_accept_total rf3 args) as [[rf4 eff4] ->].
    { split; [lia|]. exists prev. split; [done|]. destruct (decide (PrevLogTerm args = e_Term prev)); [done|by destruct Heq]. }
    simpl. eauto.
Qed.

Lemma GetLastLogTerm_total rf : logs rf ≠ [] → ∃ t, GetLastLogTerm rf = Ret t.
Proof.
  intros ?%zlen_pos. unfold GetLastLogTerm, go_index.
  destruct (zlookup_is_Some (logs rf) (zlen (logs rf) - 1)) as [e ->]; [lia|]. simpl. eauto.
Qed.

Lemma RequestVote_total clk rf args : node_ok rf → ∃ r, RequestVote clk rf args = Ret r.
Proof.
  intros [Hne _]. unfold RequestVote. destruct (decide _); [eauto|].
  destruct (if decide _ then _ else _) as [rf1 eff1] eqn:E1.
  assert (logs rf1 = logs rf) as Hl by (destruct (decide _); injection E1 as E1 _; by subst rf1).
  clear E1. destruct (GetLastLogTerm_total rf1) as [t Ht]; [by rewrite Hl|].
  destruct (decide _); [eauto|]. destruct (decide _); [eauto|]. rewrite Ht. simpl.
  repeat (destruct (decide _); [eauto|]). eauto.
Qed.

Lemma InstallSnapshot_total clk rf args : node_ok rf → ∃ r, InstallSnapshot clk rf args = Ret r.
Proof.
  intros [Hne ?]. apply zlen_pos in Hne. unfold InstallSnapshot. destruct (decide _); [eauto|].
  destruct (if decide _ then _ else _) as [rf1 eff1] eqn:E1.
  assert (logs rf1 = logs rf ∧ snapshotIndex rf1 = snapshotIndex rf) as [Hl Hsn].
  { destruct (decide _); injection E1 as E1 _; by subst rf1. }
  clear E1. destruct (decide _) as [|Hnew]; [eauto|]. simpl in Hnew.
  destruct (decide (GetLastLogIndex _ > _)) as [Hgt|]; [|simpl; eauto].
  unfold GetLastLogIndex in Hgt. simpl in Hgt.
  unfold go_drop, index. simpl. rewrite decide_True by lia. simpl. eauto.
Qed.

(** ** Operations keep [node_ok] *)

Lemma node_ok_frame rf rf' : logs rf' = logs rf → snapshotIndex rf' = snapshotIndex rf → node_ok rf → node_ok rf'.
Proof. unfold node_ok. by intros -> ->. Qed.

Lemma merged_nonempty (l : list (LogEntry Cmd)) p es : (0 < p)%nat → l ≠ [] → merged l p es ≠ [].
Proof.
  intros Hp Hl. unfold merged. destruct (decide _); [done|].
  destruct l; [done|]. destruct p; [lia|]. done.
Qed.

Lemma AppendEntries_ok clk rf args rf' eff reply :
  AppendEntries clk rf args = Ret (rf', eff, reply) → node_ok rf → node_ok rf'.
Proof.
  intros E Hok. destruct (Success reply) eqn:Hs.
  - destruct (AppendEntries_success _ _ _ _ _ _ E Hs) as (_ & [Hp _] & Hl & _ & _ & Hsn & _).
    destruct Hok as [Hne H0]. split; [|by rewrite Hsn]. rewrite Hl. apply merged_nonempty; [lia|done].
  - destruct (AppendEntries_cases _ _ _ _ _ _ E) as [(_ & Hrep & _)|(? & _)]; [|congruence].
    injection Hrep as Hl _ _ Hsn _. by eapply node_ok_frame.
Qed.

Lemma RequestVote_replica clk rf args rf' eff reply :
  RequestVote clk rf args = Ret (rf', eff, reply) → replica rf' = replica rf.
Proof.
  unfold RequestVote. intros E. destruct (decide _); [by go_inv|].
  destruct (if decide _ then _ else _) as [rf1 eff1] eqn:E1.
  assert (replica rf1 = replica rf) as Hr by (destruct (decide _); injection E1 as E1 _; by subst rf1).
  rewrite <-Hr. clear Hr E1.
  destruct (decide _); [by go_inv|]. destruct (decide _); [by go_inv|].
  apply outcome_bind_ret in E as (t & _ & E).
  repeat (destruct (decide _); [by injection E as <- _ _|]). by injection E as <- _ _.
Qed.

Lemma replica_ok rf rf' : replica rf' = replica rf → node_ok rf → node_ok rf'.
Proof. intros [= ? _ _ ? _]. by apply node_ok_frame. Qed.

(** [InstallSnapshot] either leaves the replica alone or makes the snapshot its
    start, keeping the entries behind it *)
Lemma InstallSnapshot_cases clk rf args rf' eff reply :
  InstallSnapshot clk rf args = Ret (rf', eff, reply) → node_ok rf →
  (replica rf' = replica rf ∧ omap effect_msg eff = []
   ∧ (is_Term args < currentTerm rf ∨ LastIncludedIndex args ≤ snapshotIndex rf))
  ∨ (currentTerm rf ≤ is_Term args ∧ snapshotIndex rf < LastIncludedIndex args
     ∧ logs rf' = {| e_Term := LastIncludedTerm args; e_Command := None |}
                  :: drop (S (Z.to_nat (LastIncludedIndex args - snapshotIndex rf))) (logs rf)
     ∧ snapshotIndex rf' = LastIncludedIndex args ∧ snapshot rf' = Data args
     ∧ commitIndex rf' = Z.max (commitIndex rf) (LastIncludedIndex args)
     ∧ lastApplied rf' = Z.max (lastApplied rf) (LastIncludedIndex args)
     ∧ ∃ m, omap effect_msg eff = [m]
            ∧ SnapshotValid m = true ∧ CommandValid m = false
            ∧ SnapshotIndex m = LastIncludedIndex args ∧ am_Snapshot m = Data args).
Proof.
  intros E [Hne H0]. apply zlen_pos in Hne.
  unfold InstallSnapshot in E. destruct (decide _) as [|Hge]; [go_inv; left; auto|].
  destruct (if decide _ then _ else _) as [rf1 eff1] eqn:E1.
  assert (replica rf1 = replica rf ∧ omap effect_msg eff1 = [])
    as [Hrep Heff].
  { destruct (decide (is_Term args > currentTerm rf)); injection E1 as <- <-; [|done].
    by destruct (decide (raftState rf = RaftLeader)). }
  injection Hrep as Hl Hc Hla Hsn Hsnap. clear E1.
  destruct (decide _) as [|Hnew].
  { injection E as <- <- <-. left. split; [|split; [done|right; simpl in *; lia]].
    unfold replica; simpl. congruence. }
  simpl in Hnew. right. apply outcome_bind_ret in E as (ls & Els & E). injection E as <- <- _.
  split; [lia|]. split; [lia|].
  assert (ls = {| e_Term := LastIncludedTerm args; e_Command := None |}
            :: drop (S (Z.to_nat (LastIncludedIndex args - snapshotIndex rf))) (logs rf)) as ->.
  { unfold GetLastLogIndex in Els. simpl in Els. destruct (decide _) as [Hgt|Hle].
    - apply outcome_bind_ret in Els as (kept & Ek & Els). injection Els as <-.
      unfold go_drop, index in Ek. simpl in Ek. destruct (decide _); [|done]. injection Ek as <-.
      f_equal. rewrite Hl. f_equal. lia.
    - injection Els as <-. rewrite drop_ge; [done|]. unfold zlen in *. rewrite Hl, Hsn in Hle. lia. }
  simpl. split_and!; try (repeat case_decide; simpl in *; congruence || lia).
  rewrite omap_app, Heff. simpl. eexists. by split_and!.
Qed.

(** ** Properties of AppendEntries *)

(** the term of the entry at global index [i], if the log holds one *)
Definition term_of rf (i : Z) : option Z :=
  match log rf i with Ret e => Some (e_Term e) | _ => None end.

Lemma term_of_at rf i : snapshotIndex rf ≤ i → term_of rf i = term_at (logs rf) (Z.to_nat (i - snapshotIndex rf)).
Proof. intros ?. unfold term_of, term_at. rewrite log_lookup by done. by destruct (_ !! _). Qed.

(** every entry of an accepted request is in the log *)
Lemma accepted_entries clk rf args rf' eff reply :
  AppendEntries clk rf args = Ret (rf', eff, reply) → Success reply = true →
  (∀ j, (j < length (Entries args))%nat →
     term_of rf' (PrevLogIndex args + 1 + Z.of_nat j) = term_at (Entries args) j)
  ∧ PrevLogIndex args + zlen (Entries args) ≤ GetLastLogIndex rf'.
Proof.
  intros E Hs. destruct (AppendEntries_success _ _ _ _ _ _ E Hs) as (_ & Hprev & Hl & _ & _ & Hsn & _).
  pose proof (prev_pos _ _ Hprev) as Hp. destruct Hprev as [Hrange _]. set (p := Z.to_nat _) in *. split.
  - intros j Hj. rewrite term_of_at by lia. rewrite Hl, Hsn.
    replace (Z.to_nat _) with (p + j)%nat by lia. by apply merged_terms.
  - pose proof (merged_length (logs rf) p (Entries args) Hp).
    unfold GetLastLogIndex, zlen. rewrite Hl, Hsn. lia.
Qed.

(** C26. What AppendEntries leaves, on every branch.  On success everything up
    to the previous index is kept; of the request's entries the first [k] are
    those that the log already holds, by index and term, and the next one is not;
    when that is all of them, the log is unchanged (also behind them), otherwise
    it is what it held before entry [k], followed by the request's entries from
    [k] on, commands included.  The commit index moves to [min(LeaderCommit, last
    index of the local log)] when the leader's is larger.  That is the index of
    the last new entry, which the comment at raft.go:72 asks for, when the log has changed, or
    when the leader's commit index is within the request, as it is in what leaders
    send ([heartBeat_reaches_commit]); otherwise it may differ
    ([commit_of_local_log]).  On failure log, commit index and snapshot are
    unchanged. *)
Theorem AppendEntries_log clk rf args rf' eff reply :
  AppendEntries clk rf args = Ret (rf', eff, reply) →
  if Success reply then
    (∀ j, (j < length (Entries args))%nat →
       term_of rf' (PrevLogIndex args + 1 + Z.of_nat j) = term_at (Entries args) j)
    ∧ (∀ i, snapshotIndex rf ≤ i ≤ PrevLogIndex args → log rf' i = log rf i)
    ∧ (∃ k, (k ≤ length (Entries args))%nat
       ∧ (∀ j, (j < k)%nat → term_of rf (PrevLogIndex args + 1 + Z.of_nat j) = term_at (Entries args) j)
       ∧ (k = length (Entries args) ∧ logs rf' = logs rf
          ∨ (k < length (Entries args))%nat
            ∧ term_of rf (PrevLogIndex args + 1 + Z.of_nat k) ≠ term_at (Entries args) k
            ∧ logs rf' = take (Z.to_nat (PrevLogIndex args + 1 - snapshotIndex rf) + k) (logs rf)
                         ++ drop k (Entries args)))
    ∧ PrevLogIndex args + zlen (Entries args) ≤ GetLastLogIndex rf'
    ∧ commitIndex rf' = (if decide (LeaderCommit args > commitIndex rf)
                         then Z.min (LeaderCommit args) (GetLastLogIndex rf') else commitIndex rf)
    ∧ (logs rf' ≠ logs rf ∨ LeaderCommit args ≤ PrevLogIndex args + zlen (Entries args) →
       Z.min (LeaderCommit args) (GetLastLogIndex rf')
       = Z.min (LeaderCommit args) (PrevLogIndex args + zlen (Entries args)))
  else replica rf' = replica rf.
Proof.
  intros E. destruct (Success reply) eqn:Hs.
  2: { destruct (AppendEntries_cases _ _ _ _ _ _ E) as [(_ & Hrep & _)|(? & _)]; [done|congruence]. }
  destruct (AppendEntries_success _ _ _ _ _ _ E Hs) as (_ & Hprev & Hl & Hc & _ & Hsn & _).
  pose proof (prev_pos _ _ Hprev) as Hp. destruct Hprev as [Hrange _].
  destruct (accepted_entries _ _ _ _ _ _ E Hs) as [Hterms Hlen].
  set (p := Z.to_nat _) in *. split_and!; [done| | |done|done|].
  - intros i Hi. rewrite !log_lookup by lia. rewrite Hl, Hsn.
    assert (Z.to_nat (i - snapshotIndex rf) < p)%nat as Hlt by lia.
    rewrite <-(lookup_take_lt (merged _ _ _) p) by done. rewrite merged_prefix by done.
    by rewrite lookup_take_lt.
  - assert (∀ j, term_of rf (PrevLogIndex args + 1 + Z.of_nat j) = term_at (drop p (logs rf)) j) as Hold.
    { intros j. rewrite term_of_at by lia. unfold term_at. rewrite lookup_drop. do 2 f_equal. lia. }
    destruct (merged_split (logs rf) p (Entries args)) as (k & Hk & Hsame & Hcase).
    exists k. split; [done|]. split; [intros j Hj; by rewrite Hold, Hsame|]. rewrite Hl, Hold. done.
  - intros Hor. destruct (merged_cases (logs rf) p (Entries args) Hp) as [Heq|Hlen'].
    + destruct Hor as [Hne|]; [by rewrite Hl in Hne|lia].
    + unfold GetLastLogIndex, zlen. rewrite Hl, Hlen', Hsn. lia.
Qed.

(** What a leader sends reaches to the end of its log, so to its commit index. *)
Lemma heartBeat_reaches_commit rf i next j args : node_wf rf →
  heartBeat_send rf i next = Ret (SendAppendEntries j args) →
  PrevLogIndex args + zlen (Entries args) = GetLastLogIndex rf
  ∧ LeaderCommit args ≤ PrevLogIndex args + zlen (Entries args).
Proof.
  intros [_ _ _ Hc] E. unfold heartBeat_send in E. case_decide as Hn; [by apply outcome_bind_ret in E as (? & _ & ?)|].
  apply outcome_bind_ret in E as (prev & Hprev & E). apply outcome_bind_ret in E as (es & Hes & E).
  injection E as <- <-. simpl. unfold go_drop, index in Hes. case_decide as Hr; [|done]. injection Hes as <-.
  unfold GetLastLogIndex, zlen in *. rewrite length_drop. lia.
Qed.

(** Old and repeated requests are harmless: once a request of the current
    term has been accepted, any request of that term carrying a slice of the
    same entries with the matching previous entry (a retry, or an earlier,
    shorter request overtaken on the network) is accepted and changes neither
    the log nor the commit index. *)
Theorem AppendEntries_stale clk clk' rf args rf1 eff reply args2 j m :
  AppendEntries clk rf args = Ret (rf1, eff, reply) → Success reply = true →
  (j ≤ length (Entries args))%nat →
  ae_Term args2 = currentTerm rf1 → PrevLogIndex args2 = PrevLogIndex args + Z.of_nat j →
  term_of rf1 (PrevLogIndex args2) = Some (PrevLogTerm args2) →
  Entries args2 = take m (drop j (Entries args)) → LeaderCommit args2 ≤ LeaderCommit args →
  ∃ rf2 eff2 reply2, AppendEntries clk' rf1 args2 = Ret (rf2, eff2, reply2)
    ∧ Success reply2 = true ∧ logs rf2 = logs rf1 ∧ commitIndex rf2 = commitIndex rf1.
Proof.
  intros E Hs Hj Hterm Hpi Hpt Hes Hlc.
  destruct (accepted_entries _ _ _ _ _ _ E Hs) as [Hterms Hlast].
  destruct (AppendEntries_success _ _ _ _ _ _ E Hs) as (_ & [Hrange _] & _ & Hcommit & _ & Hsn & _).
  assert (prev_matches rf1 args2) as Hprev.
  { split; [unfold zlen in Hlast; lia|]. unfold term_of in Hpt.
    destruct (log rf1 (PrevLogIndex args2)) as [e| |]; [|done..]. exists e. split; [done|]. congruence. }
  assert (logs rf1 ≠ []) as Hne.
  { destruct Hprev as [Hr _]. intros Hnil. unfold GetLastLogIndex in Hr. rewrite Hnil in Hr.
    unfold zlen in Hr. simpl in Hr. lia. }
  destruct (AppendEntries_total clk' rf1 args2 Hne) as ([[rf2 eff2] reply2] & E2).
  exists rf2, eff2, reply2. split; [done|].
  destruct (Success reply2) eqn:Hs2.
  2: { destruct (AppendEntries_cases _ _ _ _ _ _ E2) as [(_ & _ & [|])|(? & _)]; [lia|done|congruence]. }
  destruct (AppendEntries_success _ _ _ _ _ _ E2 Hs2) as (_ & _ & Hl2 & Hc2 & _ & Hsn2 & _).
  assert (logs rf2 = logs rf1) as Hsame.
  { rewrite Hl2. apply merged_present. intros i Hi.
    rewrite Hes, length_take, length_drop in Hi. rewrite Hes. unfold term_at at 2.
    rewrite lookup_take_lt, lookup_drop by lia. fold (term_at (Entries args) (j + i)).
    rewrite <-(Hterms (j + i)%nat) by lia. rewrite term_of_at by lia. f_equal. lia. }
  split; [done|]. split; [done|].
  assert (GetLastLogIndex rf2 = GetLastLogIndex rf1) as Hlast2.
  { unfold GetLastLogIndex. by rewrite Hsame, Hsn2. }
  rewrite Hc2, Hlast2. destruct (decide (LeaderCommit args2 > commitIndex rf1)); [|done].
  destruct (decide (LeaderCommit args > commitIndex rf)); lia.
Qed.

(** ** The vote restriction *)

(** the candidate's last entry is at least as new as the voter's *)
Definition up_to_date rf (args : RequestVoteArgs) : Prop :=
  ∃ t, GetLastLogTerm rf = Ret t ∧
  (t < LastLogTerm args ∨ t = LastLogTerm args ∧ GetLastLogIndex rf ≤ LastLogIndex args).

(** A granted vote: the voter is in the candidate's term with its vote
    recorded and saved, the reply carries that term, and unless the vote had
    been given before in the same term, the candidate's log is at least as up
    to date as the voter's. *)
Theorem RequestVote_restriction clk rf args rf' eff reply :
  RequestVote clk rf args = Ret (rf', eff, reply) → 0 ≤ CandidateId args → VoteGranted reply = true →
  currentTerm rf' = rv_Term args ∧ rvr_Term reply = rv_Term args ∧ voteFor rf' = CandidateId args
  ∧ (recoverable rf → recoverable rf')
  ∧ (currentTerm rf = rv_Term args ∧ voteFor rf = CandidateId args ∨ up_to_date rf args).
Proof.
  intros E H0 Hg. pose proof (RequestVote_view _ _ _ _ _ _ E) as (_ & Hrec & _).
  unfold RequestVote in E. destruct (decide _) as [|Hge]; [go_inv; discriminate|].
  destruct (if decide _ then _ else _) as [rf1 eff1] eqn:E1.
  assert (currentTerm rf1 = rv_Term args ∧ GetLastLogTerm rf1 = GetLastLogTerm rf
    ∧ GetLastLogIndex rf1 = GetLastLogIndex rf
    ∧ (voteFor rf1 = -1 ∨ currentTerm rf = rv_Term args ∧ voteFor rf1 = voteFor rf)) as (Ht & Hlt & Hli & Hv).
  { destruct (decide (rv_Term args > currentTerm rf)); injection E1 as E1 _; subst rf1;
      (split_and!; [simpl; lia|done|done|]); [by left|right; split; [lia|done]]. }
  clear E1. destruct (decide _); [injection E as <- <- <-; discriminate|].
  destruct (decide _) as [Hsame|Hsame].
  { injection E as <- <- <-. split_and!; [done..|]. left. destruct Hv as [|[? ?]]; [lia|].
    split; congruence. }
  apply outcome_bind_ret in E as (t & Et & E). rewrite Hlt in Et.
  destruct (decide (LastLogTerm args > t)).
  { injection E as <- <- <-. split_and!; [done..|]. right. exists t. split; [done|]. left. lia. }
  destruct (decide (LastLogTerm args < t)); [injection E as <- <- <-; discriminate|].
  destruct (decide (GetLastLogIndex rf1 ≤ LastLogIndex args)); injection E as <- <- <-; [|discriminate].
  split_and!; [done..|]. right. exists t. split; [done|]. right. split; lia.
Qed.

(** ** Commit *)

(** more than half of any list of [n] numbers lie at or above its median
    [sorted[n/2]], or half of them when [n] is even *)
Lemma median_below (l : list Z) m :
  merge_sort Z.le l !! (length l / 2)%nat = Some m →
  (length (filter (λ v, v < m)%Z l) ≤ length l / 2)%nat.
Proof.
  intros Hm. set (s := merge_sort Z.le l) in *.
  assert (s ≡ₚ l) as Hperm by apply merge_sort_Permutation.
  assert (StronglySorted Z.le s) as Hsort by (apply StronglySorted_merge_sort; apply _).
  rewrite <-Hperm at 1. rewrite <-(take_drop_middle _ _ _ Hm), filter_app, length_app.
  pose proof (length_filter (λ v, v < m) (take (length l / 2) s)).
  rewrite <-(take_drop_middle _ _ _ Hm) in Hsort.
  assert (∀ v, v ∈ m :: drop (S (length l / 2)) s → m ≤ v) as Hge.
  { apply StronglySorted_app_1_r in Hsort as Hs. inversion_clear Hs as [|? ? _ Hall].
    intros v [->|Hv]%elem_of_cons; [lia|]. rewrite Forall_forall in Hall. by apply Hall. }
  assert (filter (λ v, v < m) (m :: drop (S (length l / 2)) s) = []) as ->.
  { apply filter_none. intros v Hv. specialize (Hge v Hv). lia. }
  rewrite length_take in H. simpl. rewrite Nat.add_0_r. etrans; [exact H|]. apply Nat.le_min_l.
Qed.

(** a majority of the peers has a member at or above the median *)
Lemma median_majority (l : list Z) m Q :
  merge_sort Z.le l !! (length l / 2)%nat = Some m →
  NoDup Q → (∀ i, i ∈ Q → (i < length l)%nat) → (length l / 2 < length Q)%nat →
  ∃ i v, i ∈ Q ∧ l !! i = Some v ∧ m ≤ v.
Proof.
  intros Hm Hnd Hlt Hlen.
  destruct (decide (Exists (λ i, ¬ default m (l !! i) < m) Q)) as [Hex|Hno].
  - apply Exists_exists in Hex as (i & Hi & Hv).
    destruct (lookup_lt_is_Some_2 l i (Hlt i Hi)) as [v Hl]. exists i, v.
    rewrite Hl in Hv. simpl in Hv. split_and!; [done..|lia].
  - exfalso. pose proof (median_below l m Hm) as Hb. rewrite <-(positions_below l m 0) in Hb.
    enough (length Q ≤ length (filter (λ i, (default m (l !! (i - 0)%nat) < m)%Z) (seq 0 (length l))))%nat by lia.
    { apply NoDup_incl_le; [done|]. intros i Hi. apply list_elem_of_filter. split.
      - rewrite Nat.sub_0_r. destruct (decide (default m (l !! i) < m)) as [|Hge]; [done|].
        destruct Hno. apply Exists_exists. eauto.
      - apply elem_of_seq. specialize (Hlt i Hi). lia. }
Qed.

(** What a leader's commit proves: when [commit] moves the commit index to
    [m], the entry at [m] is of the leader's current term, the index only grew,
    and every set of more than half of the peers, hence every set that can elect
    a leader, has a member whose match index, the leader's own included,
    reaches [m]. *)
Theorem commit_meets_majorities rf rf' eff Q :
  commit_iteration rf = Ret (Some (rf', eff)) → commitIndex rf' ≠ commitIndex rf →
  NoDup Q → (∀ i, i ∈ Q → (i < length (matchIndex rf))%nat) → (length (matchIndex rf) / 2 < length Q)%nat →
  commitIndex rf < commitIndex rf' ∧ term_of rf (commitIndex rf') = Some (currentTerm rf)
  ∧ ∃ i v, i ∈ Q ∧ matchIndex rf' !! i = Some v ∧ commitIndex rf' ≤ v.
Proof.
  intros E Hne Hnd Hlt Hlen. unfold commit_iteration in E. destruct (decide _); [done|].
  apply outcome_bind_ret in E as (mis & Emis & E). unfold go_update in Emis.
  destruct (decide _); [|done]. injection Emis as Emis.
  assert (length mis = length (matchIndex rf)) as Hl by (by rewrite <-Emis, length_insert).
  simpl in E. apply outcome_bind_ret in E as (m & Em & E).
  apply go_index_Ret in Em. apply zlookup_Some in Em as [_ Em].
  destruct (decide (m > commitIndex rf)) as [Hgt|]; [|injection E as <- <-; done].
  apply outcome_bind_ret in E as (e & He & E).
  destruct (decide _) as [Ht|]; injection E as <- <-; [|done]. simpl.
  split; [lia|]. split.
  { unfold term_of. unfold log, index in *. simpl in He. rewrite He. by rewrite Ht. }
  apply median_majority; [|done|by rewrite Hl|by rewrite Hl].
  rewrite <-Em. f_equal. unfold zlen. rewrite (merge_sort_Permutation Z.le mis).
  change 2 with (Z.of_nat 2). by rewrite <-Nat2Z.inj_div, Nat2Z.id.
Qed.

(** ** Snapshots *)

(** [Snapshot] trims the log and loses nothing behind it: an index beyond
    the log ends the process, an index before the present snapshot is ignored,
    and otherwise the snapshot is stored, its index becomes the start of the
    log, and every entry from that index on, with the last index and term, is
    unchanged and saved. *)
Theorem Snapshot_keeps_log i snap rf :
  node_ok rf →
  (i < snapshotIndex rf → Snapshot i snap rf = Ret rf)
  ∧ (snapshotIndex rf ≤ i → GetLastLogIndex rf < i → Snapshot i snap rf = Fatal)
  ∧ (snapshotIndex rf ≤ i ≤ GetLastLogIndex rf →
     ∃ rf', Snapshot i snap rf = Ret rf' ∧ snapshotIndex rf' = i ∧ snapshot rf' = snap
       ∧ (∀ k, i ≤ k → log rf' k = log rf k)
       ∧ GetLastLogIndex rf' = GetLastLogIndex rf ∧ recoverable rf' ∧ node_ok rf').
Proof.
  intros [Hne H0]. unfold Snapshot. split_and!; intros Hi.
  - by rewrite decide_True.
  - intros Hi'. rewrite decide_False by lia. by rewrite decide_True by lia.
  - rewrite decide_False by lia. rewrite decide_False by lia.
    unfold go_drop, index. unfold GetLastLogIndex in Hi. rewrite decide_True by lia. simpl.
    eexists. split; [reflexivity|]. split_and!; try done.
    + intros k Hk. rewrite !log_lookup by (simpl; lia). simpl. rewrite lookup_drop.
      by replace (Z.to_nat (i - snapshotIndex rf) + Z.to_nat (k - i))%nat with (Z.to_nat (k - snapshotIndex rf)) by lia.
    + unfold GetLastLogIndex, zlen in *. simpl. rewrite length_drop. lia.
    + apply persist_recoverable.
    + split; [|simpl; lia]. simpl. intros Hnil. apply (f_equal length) in Hnil.
      rewrite length_drop in Hnil. simpl in Hnil. unfold zlen in *. lia.
Qed.

(** [InstallSnapshot] never loses progress: the snapshot index, the commit
    index and the applied index never decrease, the entries behind the
    snapshot are kept, the state is saved, and the service is handed the
    snapshot exactly when it is newer than the peer's own. *)
Theorem InstallSnapshot_progress clk rf args rf' eff reply :
  InstallSnapshot clk rf args = Ret (rf', eff, reply) → node_wf rf → recoverable rf →
  snapshotIndex rf ≤ snapshotIndex rf' ∧ commitIndex rf ≤ commitIndex rf'
  ∧ lastApplied rf ≤ lastApplied rf' ∧ node_wf rf' ∧ recoverable rf'
  ∧ (∀ k, snapshotIndex rf' < k ≤ GetLastLogIndex rf → log rf' k = log rf k)
  ∧ length (omap effect_msg eff)
    = (if decide (currentTerm rf ≤ is_Term args ∧ snapshotIndex rf < LastIncludedIndex args) then 1%nat else 0%nat).
Proof.
  intros E [Hne H0 Ha Hc] Hrec.
  pose proof (InstallSnapshot_view _ _ _ _ _ _ E) as (_ & Hrec' & _).
  destruct (InstallSnapshot_cases _ _ _ _ _ _ E (conj Hne H0))
    as [([= Hl Hci Hla Hsn Hsnap] & -> & Hold)|(Ht & Hnew & Hl & Hsn & _ & Hci & Hla & m & -> & _)].
  - rewrite Hci, Hla, Hsn. rewrite decide_False by lia. split_and!; try lia; [|auto| |done].
    + split; [by rewrite Hl|lia|lia|]. unfold GetLastLogIndex. rewrite Hl, Hsn, Hci. done.
    + intros k _. unfold log, index. by rewrite Hl, Hsn.
  - rewrite decide_True by lia. unfold GetLastLogIndex, zlen in *.
    assert (length (logs rf') = S (length (logs rf) - S (Z.to_nat (LastIncludedIndex args - snapshotIndex rf)))) as Hlen.
    { rewrite Hl. simpl. by rewrite length_drop. }
    split_and!; try lia; [|auto| |done].
    + split; [by rewrite Hl|lia|lia|]. unfold GetLastLogIndex, zlen. lia.
    + intros k Hk. rewrite !log_lookup by lia. rewrite Hl, Hsn.
      destruct (Z.to_nat (k - LastIncludedIndex args)) as [|j] eqn:Hj; [lia|]. simpl.
      rewrite lookup_drop.
      by replace (S (Z.to_nat (LastIncludedIndex args - snapshotIndex rf)) + j)%nat
        with (Z.to_nat (k - snapshotIndex rf)) by lia.
Qed.

(** ** Applying *)

Lemma apply_collect_spec rf i n ms :
  apply_collect rf i n = Ret ms →
  length ms = n ∧ ∀ k m, ms !! k = Some m →
    CommandIndex m = i + Z.of_nat k ∧ CommandValid m = true ∧ SnapshotValid m = false
    ∧ ∃ e, log rf (i + Z.of_nat k) = Ret e ∧ am_Command m = e_Command e.
Proof.
  revert i ms. induction n as [|n IH]; intros i ms E; simpl in E; [by injection E as <-|].
  apply outcome_bind_ret in E as (e & He & E). apply outcome_bind_ret in E as (ms' & Ems & E).
  injection E as <-. destruct (IH _ _ Ems) as [Hlen Hms]. split; [simpl; lia|].
  intros [|k] m Hm; simpl in Hm.
  - injection Hm as <-. simpl. rewrite Z.add_0_r. eauto 6.
  - destruct (Hms k m Hm) as (? & ? & ? & e' & ? & ?). 
    replace (i + Z.of_nat (S k)) with (i + 1 + Z.of_nat k) by lia. eauto 7.
Qed.

Lemma apply_collect_total rf i n :
  snapshotIndex rf ≤ i → i + Z.of_nat n - 1 ≤ GetLastLogIndex rf → ∃ ms, apply_collect rf i n = Ret ms.
Proof.
  revert i. induction n as [|n IH]; intros i Hi Hn; simpl; [eauto|].
  destruct (log_in_range rf i) as [e ->]; [lia|]. simpl.
  destruct (IH (i + 1)) as [ms ->]; [lia..|]. simpl. eauto.
Qed.

(** Applying: when a well-formed peer has committed entries it has not
    applied, one round of [apply] hands the service exactly those, one message
    per index from [lastApplied + 1] to [commitIndex] in order, each with the
    command of the log at its index, and marks them applied. *)
Theorem apply_round rf :
  node_wf rf → lastApplied rf ≠ commitIndex rf →
  ∃ rf' ms, apply_iteration rf = Ret (Some (rf', ms))
    ∧ lastApplied rf' = commitIndex rf ∧ node_wf rf'
    ∧ zlen ms = commitIndex rf - lastApplied rf
    ∧ ∀ k m, ms !! k = Some m →
        CommandIndex m = lastApplied rf + 1 + Z.of_nat k ∧ CommandValid m = true
        ∧ ∃ e, log rf (CommandIndex m) = Ret e ∧ am_Command m = e_Command e.
Proof.
  intros [Hne H0 Ha Hc] Hneq. unfold apply_iteration. rewrite decide_False by done.
  rewrite decide_False by lia.
  destruct (apply_collect_total rf (lastApplied rf + 1) (Z.to_nat (commitIndex rf - lastApplied rf)))
    as [ms E]; [lia..|].
  destruct (apply_collect_spec _ _ _ _ E) as [Hlen Hms]. rewrite E. simpl. eexists _, ms.
  split; [reflexivity|]. split; [done|]. split; [split; simpl; try done; lia|].
  split; [unfold zlen; lia|]. intros k m Hm.
  destruct (Hms k m Hm) as (-> & ? & _ & e & ? & ?). eauto 6.
Qed.
End raftlog.

(** *** Concrete inputs *)

Definition entry (t : Z) (cmd : nat) : LogEntry nat := {| e_Term := t; e_Command := Some cmd |}.
Definition clk1 : clock := {| now := 5; rnd := 123 |}.

(** a peer of three in term 2, log terms 1 1 2 after the dummy entry, the first
    entry committed and none applied; its state is saved *)
Definition sample (st : RaftState) : Raft nat nat :=
  persist
    {| peers := 3; me := 0; persister := MakePersister; raftState := st; currentTerm := 2; voteFor := -1;
       logs := [{| e_Term := 0; e_Command := None |}; entry 1 10; entry 1 11; entry 2 12];
       commitIndex := 1; lastApplied := 0; nextIndex := [4; 3; 3]; matchIndex := [0; 3; 2];
       electionTimerStart := 0; timeout := 400; gotVotes := 0; leaderID := -1;
       snapshotIndex := 0; snapshot := None |}.

Lemma sample_wf st : node_wf (sample st).
Proof. split; simpl; try done; lia. Qed.

(** a leader of term 3 replaces the entry of term 2 *)
Definition append_args : AppendEntriesArgs nat :=
  {| ae_Term := 3; ae_LeaderID := 1; PrevLogIndex := 1; PrevLogTerm := 1;
     Entries := [entry 1 11; entry 3 13; entry 3 14]; LeaderCommit := 3 |}.

Lemma AppendEntries_log_witness : ∃ rf' eff reply,
  AppendEntries clk1 (sample RaftFollower) append_args = Ret (rf', eff, reply) ∧ Success reply = true ∧
  logs rf' ≠ logs (sample RaftFollower) ∧
  if Success reply then
    (∀ j, (j < length (Entries append_args))%nat →
       term_of rf' (PrevLogIndex append_args + 1 + Z.of_nat j) = term_at (Entries append_args) j)
    ∧ (∀ i, snapshotIndex (sample RaftFollower) ≤ i ≤ PrevLogIndex append_args →
         log rf' i = log (sample RaftFollower) i)
    ∧ (∃ k, (k ≤ length (Entries append_args))%nat
       ∧ (∀ j, (j < k)%nat → term_of (sample RaftFollower) (PrevLogIndex append_args + 1 + Z.of_nat j)
                             = term_at (Entries append_args) j)
       ∧ (k = length (Entries append_args) ∧ logs rf' = logs (sample RaftFollower)
          ∨ (k < length (Entries append_args))%nat
            ∧ term_of (sample RaftFollower) (PrevLogIndex append_args + 1 + Z.of_nat k) ≠ term_at (Entries append_args) k
            ∧ logs rf' = take (Z.to_nat (PrevLogIndex append_args + 1 - snapshotIndex (sample RaftFollower)) + k)
                              (logs (sample RaftFollower)) ++ drop k (Entries append_args)))
    ∧ PrevLogIndex append_args + zlen (Entries append_args) ≤ GetLastLogIndex rf'
    ∧ commitIndex rf' = (if decide (LeaderCommit append_args > commitIndex (sample RaftFollower))
                         then Z.min (LeaderCommit append_args) (GetLastLogIndex rf')
                         else commitIndex (sample RaftFollower))
    ∧ (logs rf' ≠ logs (sample RaftFollower)
       ∨ LeaderCommit append_args ≤ PrevLogIndex append_args + zlen (Entries append_args) →
       Z.min (LeaderCommit append_args) (GetLastLogIndex rf')
       = Z.min (LeaderCommit append_args) (PrevLogIndex append_args + zlen (Entries append_args)))
  else replica rf' = replica (sample RaftFollower).
Proof.
  eexists _, _, _. split; [vm_compute; reflexivity|]. split; [reflexivity|]. split; [discriminate|].
  apply (AppendEntries_log clk1 (sample RaftFollower) append_args _ [ApplySignal]). vm_compute; reflexivity.
Defined.

(** The commit index follows the local log, not the request: a request with
    commit index 3 that ends at index 1 makes a follower whose log has three
    entries commit all of them. *)
Theorem commit_of_local_log : ∃ rf' eff reply,
  let args := {| ae_Term := 2; ae_LeaderID := 1; PrevLogIndex := 1; PrevLogTerm := 1; Entries := []; LeaderCommit := 3 |} in
  AppendEntries clk1 (sample RaftFollower) args = Ret (rf', eff, reply) ∧ Success reply = true
  ∧ commitIndex rf' = 3 ∧ Z.min (LeaderCommit args) (PrevLogIndex args + zlen (Entries args)) = 1.
Proof. eexists _, _, _. split; [vm_compute; reflexivity|]. by split_and!. Qed.

(** the same request arrives again, and an earlier one with its middle entry *)
Lemma AppendEntries_stale_witness : ∃ rf1 eff reply,
  AppendEntries clk1 (sample RaftFollower) append_args = Ret (rf1, eff, reply) ∧
  ∃ rf2 eff2 reply2, AppendEntries clk1 rf1
      {| ae_Term := 3; ae_LeaderID := 1; PrevLogIndex := 2; PrevLogTerm := 1;
         Entries := [entry 3 13]; LeaderCommit := 1 |} = Ret (rf2, eff2, reply2)
    ∧ Success reply2 = true ∧ logs rf2 = logs rf1 ∧ commitIndex rf2 = commitIndex rf1.
Proof.
  eexists _, _, _. split; [vm_compute; reflexivity|].
  eapply (AppendEntries_stale clk1 clk1 (sample RaftFollower) append_args _ _ _ _ 1 1);
    [vm_compute; reflexivity|reflexivity|simpl; lia|reflexivity..|simpl; lia].
Defined.

Definition vote_args : RequestVoteArgs :=
  {| rv_Term := 3; CandidateId := 2; LastLogIndex := 1; LastLogTerm := 3 |}.

Lemma RequestVote_restriction_witness : ∃ rf' eff reply,
  RequestVote clk1 (sample RaftFollower) vote_args = Ret (rf', eff, reply) ∧
  currentTerm rf' = rv_Term vote_args ∧ rvr_Term reply = rv_Term vote_args
  ∧ voteFor rf' = CandidateId vote_args
  ∧ (recoverable (sample RaftFollower) → recoverable rf')
  ∧ (currentTerm (sample RaftFollower) = rv_Term vote_args
     ∧ voteFor (sample RaftFollower) = CandidateId vote_args
     ∨ up_to_date (sample RaftFollower) vote_args).
Proof.
  eexists _, _, _. split; [vm_compute; reflexivity|].
  eapply (RequestVote_restriction clk1 (sample RaftFollower) vote_args);
    [vm_compute; reflexivity|simpl; lia|reflexivity].
Defined.

(** the leader and peer 1 have the entry of term 2 at index 3 *)
Lemma commit_meets_majorities_witness : ∃ rf' eff,
  commit_iteration (sample RaftLeader) = Ret (Some (rf', eff)) ∧ commitIndex rf' = 3 ∧
  commitIndex (sample RaftLeader) < commitIndex rf'
  ∧ term_of (sample RaftLeader) (commitIndex rf') = Some (currentTerm (sample RaftLeader))
  ∧ ∃ i v, i ∈ [1%nat; 2%nat] ∧ matchIndex rf' !! i = Some v ∧ commitIndex rf' ≤ v.
Proof.
  eexists _, _. split; [vm_compute; reflexivity|]. split; [reflexivity|].
  eapply (commit_meets_majorities (sample RaftLeader) _ _ [1%nat; 2%nat]);
    [vm_compute; reflexivity|discriminate| | |simpl; lia].
  - apply (bool_decide_unpack _). reflexivity.
  - intros i Hi. apply elem_of_cons in Hi as [->|Hi]; [simpl; lia|].
    apply elem_of_cons in Hi as [->|Hi]; [simpl; lia|]. by apply not_elem_of_nil in Hi.
Defined.

Lemma Snapshot_keeps_log_witness :
  node_ok (sample RaftFollower) ∧
  (2 < snapshotIndex (sample RaftFollower) →
     Snapshot 2 (Some 7%nat) (sample RaftFollower) = Ret (sample RaftFollower))
  ∧ (snapshotIndex (sample RaftFollower) ≤ 2 → GetLastLogIndex (sample RaftFollower) < 2 →
     Snapshot 2 (Some 7%nat) (sample RaftFollower) = Fatal)
  ∧ (snapshotIndex (sample RaftFollower) ≤ 2 ≤ GetLastLogIndex (sample RaftFollower) →
     ∃ rf', Snapshot 2 (Some 7%nat) (sample RaftFollower) = Ret rf' ∧ snapshotIndex rf' = 2
       ∧ snapshot rf' = Some 7%nat ∧ (∀ k, 2 ≤ k → log rf' k = log (sample RaftFollower) k)
       ∧ GetLastLogIndex rf' = GetLastLogIndex (sample RaftFollower) ∧ recoverable rf' ∧ node_ok rf').
Proof.
  assert (node_ok (sample RaftFollower)) as Hok by (split; simpl; [done|lia]).
  split; [exact Hok|]. apply (Snapshot_keeps_log 2 (Some 7%nat) (sample RaftFollower) Hok).
Defined.

Definition snap_args : InstallSnapshotArgs nat :=
  {| is_Term := 3; is_LeaderID := 1; LastIncludedIndex := 2; LastIncludedTerm := 1; Offset := 0;
     Data := Some 7%nat; Done := true |}.

Lemma InstallSnapshot_progress_witness : ∃ rf' eff reply,
  InstallSnapshot clk1 (sample RaftFollower) snap_args = Ret (rf', eff, reply) ∧
  snapshotIndex (sample RaftFollower) ≤ snapshotIndex rf'
  ∧ commitIndex (sample RaftFollower) ≤ commitIndex rf'
  ∧ lastApplied (sample RaftFollower) ≤ lastApplied rf' ∧ node_wf rf' ∧ recoverable rf'
  ∧ (∀ k, snapshotIndex rf' < k ≤ GetLastLogIndex (sample RaftFollower) →
       log rf' k = log (sample RaftFollower) k)
  ∧ length (omap effect_msg eff)
    = (if decide (currentTerm (sample RaftFollower) ≤ is_Term snap_args
                  ∧ snapshotIndex (sample RaftFollower) < LastIncludedIndex snap_args)
       then 1%nat else 0%nat).
Proof.
  eexists _, _, _. split; [vm_compute; reflexivity|].
  eapply (InstallSnapshot_progress clk1 (sample RaftFollower) snap_args);
    [vm_compute; reflexivity|apply sample_wf|apply persist_recoverable].
Defined.

Lemma apply_round_witness :
  ∃ rf' ms, apply_iteration (sample RaftFollower) = Ret (Some (rf', ms))
    ∧ lastApplied rf' = commitIndex (sample RaftFollower) ∧ node_wf rf'
    ∧ zlen ms = commitIndex (sample RaftFollower) - lastApplied (sample RaftFollower)
    ∧ ∀ k m, ms !! k = Some m →
        CommandIndex m = lastApplied (sample RaftFollower) + 1 + Z.of_nat k ∧ CommandValid m = true
        ∧ ∃ e, log (sample RaftFollower) (CommandIndex m) = Ret e ∧ am_Command m = e_Command e.
Proof. apply (apply_round (sample RaftFollower)); [apply sample_wf|discriminate]. Defined.
