(* ===== verification/RaftSafety.v ===== *)
(** * Invariants of running clusters

    What holds at every peer of a cluster, whatever the schedule: no RPC handler
    ends the process, terms never go back (not even across a crash), and, while
    no snapshot is installed, each service receives the committed commands in
    index order without gap or repetition. *)

From S2P Require Import Prelude RaftNode RaftFacts RaftCluster RaftElection RaftLog.
Local Open Scope Z_scope.

Section safety.
Context {Cmd Snap : Type}.
Implicit Types (rf : Raft Cmd Snap) (c : cluster Cmd Snap).

(** what one action can do to one peer *)
Inductive node_step rf : Raft Cmd Snap → Prop :=
| ns_same : node_step rf rf
| ns_tick clk rf' eff : ticker_iteration clk rf = Ret (Some (rf', eff)) → node_step rf rf'
| ns_commit rf' eff : commit_iteration rf = Ret (Some (rf', eff)) → node_step rf rf'
| ns_apply rf' ms : apply_iteration rf = Ret (Some (rf', ms)) → node_step rf rf'
| ns_start command rf' eff res : Start command rf = (rf', eff, res) → node_step rf rf'
| ns_snapshot i snap rf' : Snapshot i snap rf = Ret rf' → node_step rf rf'
| ns_append clk args rf' eff reply : AppendEntries clk rf args = Ret (rf', eff, reply) → node_step rf rf'
| ns_vote clk args rf' eff reply : RequestVote clk rf args = Ret (rf', eff, reply) → node_step rf rf'
| ns_install clk args rf' eff reply : InstallSnapshot clk rf args = Ret (rf', eff, reply) → node_step rf rf'
| ns_vote_reply clk args reply rf' eff :
    sendRequestVote_reply clk rf args reply = Ret (rf', eff) → node_step rf rf'
| ns_append_reply srv args reply rf' eff :
    sendAppendEntries_reply rf srv args reply = Ret (rf', eff) → node_step rf rf'
| ns_install_reply srv args reply rf' eff :
    sendInstallSnapshot_reply rf srv args reply = Ret (rf', eff) → node_step rf rf'
| ns_restart clk : node_step rf (fst (Make clk (peers rf) (me rf) (persister rf))).

(** an update of the peers' list, looked up at [j] *)
Lemma node_update (l : list (Raft Cmd Snap)) i j rf0 rf0' rf :
  l !! i = Some rf0 → node_step rf0 rf0' → l !! j = Some rf →
  ∃ rf', <[i := rf0']> l !! j = Some rf' ∧ node_step rf rf'.
Proof.
  intros Hi Hst Hj. destruct (decide (i = j)) as [<-|Hne].
  - exists rf0'. rewrite list_lookup_insert_eq by (by eapply lookup_lt_Some). split; [done|].
    congruence.
  - exists rf. rewrite list_lookup_insert_ne by done. split; [done|constructor].
Qed.

Lemma node_same (l : list (Raft Cmd Snap)) j rf : l !! j = Some rf → ∃ rf', l !! j = Some rf' ∧ node_step rf rf'.
Proof. intros. exists rf. split; [done|constructor]. Qed.

Lemma deliver_node k clk c c' j rf :
  deliver k clk c = Some c' → nodes c !! j = Some rf → ∃ rf', nodes c' !! j = Some rf' ∧ node_step rf rf'.
Proof.
  unfold deliver. intros E Hj. act_inv.
  destruct (c_rpc _) as [args tries [r|]|args [r|]|args [r|]]; try discriminate E; act_inv.
  - destruct (VoteGranted _); simpl; (eapply node_update; [eassumption|by eapply ns_vote|done]).
  - eapply node_update; [eassumption|by eapply ns_append|done].
  - eapply node_update; [eassumption|by eapply ns_install|done].
Qed.

Lemma reply_node k clk c c' j rf :
  handle_reply k clk c = Some c' → nodes c !! j = Some rf → ∃ rf', nodes c' !! j = Some rf' ∧ node_step rf rf'.
Proof.
  unfold handle_reply. intros E Hj.
  apply bind_Some in E as (cl & Hk & E). apply bind_Some in E as (rf0 & Hi & E).
  apply bind_Some in E as (epoch & _ & E). destruct (decide _); [|done].
  apply bind_Some in E as ([rf0' eff] & E1%of_ret_Some & E). injection E as <-. simpl.
  destruct (c_rpc cl) as [args tries [r|]|args [r|]|args [r|]]; try discriminate E1.
  - eapply node_update; [done|by eapply ns_vote_reply|done].
  - eapply node_update; [done|by eapply ns_append_reply|done].
  - eapply node_update; [done|by eapply ns_install_reply|done].
Qed.

Lemma cluster_step_node a c c' j rf :
  cluster_step a c = Some c' → nodes c !! j = Some rf → ∃ rf', nodes c' !! j = Some rf' ∧ node_step rf rf'.
Proof.
  intros E Hj.
  destruct a as [i clk|i|i|i|i|i command|i idx snap|k clk|k|k clk|i clk]; simpl in E.
  - act_inv. eapply node_update; [eassumption|by eapply ns_tick|done].
  - act_inv. by apply node_same.
  - act_inv. eapply node_update; [eassumption|by eapply ns_commit|done].
  - act_inv. case_match; [|done]. injection E as <-. simpl.
    eapply node_update; [eassumption|by eapply ns_apply|done].
  - act_inv. case_match; [done|]. injection E as <-. by apply node_same.
  - apply bind_Some in E as (rf0 & Hi & E). destruct (Start command rf0) as [[rf0' ?] ?] eqn:E1.
    injection E as <-. simpl. eapply node_update; [done|by eapply ns_start|done].
  - act_inv. eapply node_update; [eassumption|by eapply ns_snapshot|done].
  - by eapply deliver_node.
  - unfold lose in E. act_inv. destruct (c_rpc _) as [? [|[|?]] ?|? ?|? ?]; injection E as <-; by apply node_same.
  - by eapply reply_node.
  - act_inv. eapply node_update; [eassumption|by eapply ns_restart|done].
Qed.

Lemma cluster_reachable_step n a c c' : cluster_reachable n c → cluster_step a c = Some c' → cluster_reachable n c'.
Proof.
  intros (clk & acts & Hr) E. exists clk, (acts ++ [a]). rewrite cluster_run_app, Hr. simpl. by rewrite E.
Qed.

Lemma step_length n a c c' : cluster_reachable n c → cluster_step a c = Some c' → length (nodes c') = length (nodes c).
Proof.
  intros Hc E. destruct (cluster_refines n c Hc) as (s & _ & Hs).
  destruct (cluster_refines n c' (cluster_reachable_step n a c c' Hc E)) as (s' & _ & Hs').
  by rewrite (sim_len _ _ _ Hs), (sim_len _ _ _ Hs').
Qed.

(** a property that every operation of a peer keeps holds at every peer of every
    reachable cluster *)
Lemma node_invariant n (P : Raft Cmd Snap → Prop) :
  (∀ clk i, P (fst (Make clk n (Z.of_nat i) MakePersister))) →
  (∀ rf rf', recoverable rf → P rf → node_step rf rf' → P rf') →
  ∀ c, cluster_reachable n c → ∀ i rf, nodes c !! i = Some rf → P rf.
Proof.
  intros H0 Hstep c Hc.
  cut (cluster_reachable n c ∧ ∀ i rf, nodes c !! i = Some rf → P rf); [by intros [_ ?]|].
  revert c Hc. apply (cluster_invariant (λ c, cluster_reachable n c ∧ ∀ i rf, nodes c !! i = Some rf → P rf)).
  - intros clk. split; [by exists clk, []|]. intros i rf Hi. simpl in Hi.
    apply list_lookup_fmap_Some in Hi as (j & -> & _). apply H0.
  - intros a c c' [Hc IH] E. split; [by eapply cluster_reachable_step|].
    intros i rf' Hi'. destruct (nodes c !! i) as [rf|] eqn:Hi.
    + destruct (cluster_step_node a c c' i rf E Hi) as (rf'' & Hi'' & Hst).
      assert (rf'' = rf') as -> by congruence.
      apply (Hstep rf); [by eapply reachable_recoverable|by eapply IH|done].
    + apply lookup_ge_None in Hi. apply lookup_lt_Some in Hi'.
      rewrite (step_length n a c c' Hc E) in Hi'. lia.
Qed.

(** *** No handler ends the process *)

Definition log_part rf := (logs rf, snapshotIndex rf, lastApplied rf).

Lemma log_part_ok rf rf' : log_part rf' = log_part rf → node_ok rf → node_ok rf'.
Proof. intros [= ? ? ?]. by apply node_ok_frame. Qed.

Lemma tick_log_part clk rf rf' eff : ticker_iteration clk rf = Ret (Some (rf', eff)) → log_part rf' = log_part rf.
Proof.
  unfold ticker_iteration, startAElection. intros E. destruct (decide _); [done|].
  destruct (decide _); [|by injection E as <- _].
  apply outcome_bind_ret in E as ([rf1 e1] & E1 & E). injection E as <- _.
  apply outcome_bind_ret in E1 as (t & _ & E1). by injection E1 as <- _.
Qed.

Lemma commit_log_part rf rf' eff : commit_iteration rf = Ret (Some (rf', eff)) → log_part rf' = log_part rf.
Proof.
  unfold commit_iteration. intros E. destruct (decide _); [done|].
  apply outcome_bind_ret in E as (? & _ & E). apply outcome_bind_ret in E as (? & _ & E).
  destruct (decide _); [apply outcome_bind_ret in E as (? & _ & E); destruct (decide _)|];
    by injection E as <- _.
Qed.

Lemma apply_log rf rf' ms : apply_iteration rf = Ret (Some (rf', ms)) →
  logs rf' = logs rf ∧ snapshotIndex rf' = snapshotIndex rf.
Proof.
  unfold apply_iteration. intros E. destruct (decide _); [done|]. destruct (decide _); [done|].
  apply outcome_bind_ret in E as (? & _ & E). by injection E as <- _.
Qed.

Lemma vote_reply_log_part clk rf args reply rf' eff :
  sendRequestVote_reply clk rf args reply = Ret (rf', eff) → log_part rf' = log_part rf.
Proof.
  unfold sendRequestVote_reply, becomeLeader. intros E.
  repeat (destruct (decide _); [by injection E as <- _|]).
  destruct (decide _); [|by injection E as <- _]. simpl in E.
  destruct (decide _); [|by injection E as <- _]. repeat (destruct (decide _); [done|]).
  apply outcome_bind_ret in E as (? & _ & E). by injection E as <- _.
Qed.

Lemma append_reply_log_part rf srv args reply rf' eff :
  sendAppendEntries_reply rf srv args reply = Ret (rf', eff) → log_part rf' = log_part rf.
Proof.
  unfold sendAppendEntries_reply. intros E.
  repeat (destruct (decide _); [by injection E as <- _|]).
  destruct (Success reply); [|destruct (decide _); [|destruct (decide _)]];
    repeat (apply outcome_bind_ret in E as (? & _ & E)); by injection E as <- _.
Qed.

Lemma install_reply_log_part rf srv args reply rf' eff :
  sendInstallSnapshot_reply rf srv args reply = Ret (rf', eff) → log_part rf' = log_part rf.
Proof.
  unfold sendInstallSnapshot_reply. intros E.
  repeat (destruct (decide _); [by injection E as <- _|]).
  repeat (apply outcome_bind_ret in E as (? & _ & E)); by injection E as <- _.
Qed.

Lemma node_step_ok rf rf' : recoverable rf → node_ok rf → node_step rf rf' → node_ok rf'.
Proof.
  intros Hrec Hok Hst.
  destruct Hst as [|clk rf' eff E|rf' eff E|rf' ms E|command rf' eff res E|i snap rf' E|clk args rf' eff reply E
    |clk args rf' eff reply E|clk args rf' eff reply E|clk args reply rf' eff E|srv args reply rf' eff E
    |srv args reply rf' eff E|clk]; try done.
  - eapply log_part_ok; [by eapply tick_log_part|done].
  - eapply log_part_ok; [by eapply commit_log_part|done].
  - destruct (apply_log _ _ _ E). by eapply node_ok_frame.
  - unfold Start in E. destruct (decide _); injection E as <- _ _; [done|].
    destruct Hok as [? ?]. split; [simpl; by destruct (logs rf)|done].
  - unfold Snapshot in E. destruct (decide _); [by injection E as <-|]. destruct (decide _); [done|].
    apply outcome_bind_ret in E as (ls & El & E). injection E as <-. destruct Hok as [Hne ?].
    unfold go_drop, index in El. destruct (decide _) as [Hr|]; [|done]. injection El as <-.
    unfold GetLastLogIndex in *. split; simpl; [|lia]. intros Hnil. apply (f_equal length) in Hnil.
    rewrite length_drop in Hnil. simpl in Hnil. unfold zlen in *. lia.
  - by eapply AppendEntries_ok.
  - eapply replica_ok; [by eapply RequestVote_replica|done].
  - destruct (InstallSnapshot_cases _ _ _ _ _ _ E Hok) as [(Hrep & _)|(_ & Hnew & Hl & Hsn & _)];
      [by eapply replica_ok|]. destruct Hok. split; [by rewrite Hl|lia].
  - eapply log_part_ok; [by eapply vote_reply_log_part|done].
  - eapply log_part_ok; [by eapply append_reply_log_part|done].
  - eapply log_part_ok; [by eapply install_reply_log_part|done].
  - destruct (stable_fields _ _ (Hrec clk)) as (_ & _ & Hl & Hsn & _). by eapply node_ok_frame.
Qed.

Lemma reachable_node_ok n c i rf : cluster_reachable n c → nodes c !! i = Some rf → node_ok rf.
Proof.
  intros Hc. revert i rf. revert c Hc. apply (node_invariant n node_ok).
  - intros clk i. by split.
  - apply node_step_ok.
Qed.

(** C33. In every reachable cluster, whatever request reaches a peer, its
    handler ends normally: it neither calls [log.Fatal] nor indexes a slice out
    of range. *)
Theorem handlers_end_normally n c i rf clk :
  cluster_reachable n c → nodes c !! i = Some rf →
  (∀ args, is_ret (AppendEntries clk rf args) = true)
  ∧ (∀ args, is_ret (RequestVote clk rf args) = true)
  ∧ (∀ args, is_ret (InstallSnapshot clk rf args) = true).
Proof.
  intros Hc Hi. pose proof (reachable_node_ok n c i rf Hc Hi) as Hok. split_and!; intros args.
  - by destruct (AppendEntries_total clk rf args (proj1 Hok)) as [? ->].
  - by destruct (RequestVote_total clk rf args Hok) as [? ->].
  - by destruct (InstallSnapshot_total clk rf args Hok) as [? ->].
Qed.

(** *** Terms and votes *)

Lemma reply_view_terms rf rf' : reply_view rf rf' →
  currentTerm rf ≤ currentTerm rf'
  ∧ (currentTerm rf' = currentTerm rf → voteFor rf' = voteFor rf).
Proof.
  intros (_ & _ & [Hv|(t & Ht & Hv)]).
  - injection Hv as -> -> _ _. split; [lia|done].
  - injection Hv as -> _ _ _. split; [lia|intros; lia].
Qed.

Lemma node_step_terms rf rf' : recoverable rf → node_step rf rf' →
  currentTerm rf ≤ currentTerm rf'
  ∧ (currentTerm rf' = currentTerm rf → raftState rf = RaftFollower → voteFor rf ≠ -1 →
     voteFor rf' = voteFor rf).
Proof.
  intros Hrec Hst.
  destruct Hst as [|clk rf' eff E|rf' eff E|rf' ms E|command rf' eff res E|i snap rf' E|clk args rf' eff reply E
    |clk args rf' eff reply E|clk args rf' eff reply E|clk args reply rf' eff E|srv args reply rf' eff E
    |srv args reply rf' eff E|clk].
  - split; [lia|done].
  - destruct (ticker_view _ _ _ _ E) as (_ & _ & [[-> _]|[Hv _]]); [split; [lia|done]|].
    injection Hv as -> _ _ _. split; [lia|intros; lia].
  - apply commit_view, reply_view_terms in E. naive_solver.
  - apply apply_view, reply_view_terms in E. naive_solver.
  - apply Start_view, reply_view_terms in E. naive_solver.
  - apply Snapshot_view, reply_view_terms in E. naive_solver.
  - destruct (AppendEntries_view _ _ _ _ _ _ E) as (_ & _ & [Hv|(Hv & Hc)]); injection Hv as -> -> _ _;
      [split; [lia|done]|]. destruct Hc as [|[? ?]]; (split; [lia|]); [intros; lia|done].
  - destruct (RequestVote_view _ _ _ _ _ _ E) as (_ & _ & rf1 & H1 & H2).
    assert (currentTerm rf' = currentTerm rf1 ∧ (voteFor rf' = voteFor rf1 ∨ voteFor rf1 = -1)) as [-> Hv].
    { destruct H2 as [[Hv _]|(_ & _ & ? & Hv)]; injection Hv as -> -> _ _; auto. }
    destruct H1 as [[H1 _]|[H1 ?]]; injection H1 as -> Hv1 _ _; (split; [lia|]); [|intros; lia].
    intros _ _ ?. destruct Hv; congruence.
  - destruct (InstallSnapshot_view _ _ _ _ _ _ E) as (_ & _ & [Hv|[Hv ?]]); injection Hv as -> -> _ _;
      (split; [lia|]); [done|intros; lia].
  - destruct (sendRequestVote_reply_view _ _ _ _ _ _ E) as [Hr|(_ & _ & _ & _ & _ & Hcand & _ & Hv)].
    + apply reply_view_terms in Hr. naive_solver.
    + destruct Hv as [Hv|[_ Hv]]; injection Hv as -> _ _ _; (split; [lia|congruence]).
  - apply sendAppendEntries_reply_view, reply_view_terms in E. naive_solver.
  - apply sendInstallSnapshot_reply_view, reply_view_terms in E. naive_solver.
  - destruct (stable_fields _ _ (Hrec clk)) as (Ht & Hv & _). split; [lia|done].
Qed.

(** A peer's term never decreases, and a follower neither changes nor
    forgets a vote it cast in its current term, across any action of the
    cluster, crashes and restarts included. *)
Theorem terms_and_votes_stable n a c c' i rf :
  cluster_reachable n c → cluster_step a c = Some c' → nodes c !! i = Some rf →
  ∃ rf', nodes c' !! i = Some rf' ∧ currentTerm rf ≤ currentTerm rf'
    ∧ (currentTerm rf' = currentTerm rf → raftState rf = RaftFollower → voteFor rf ≠ -1 →
       voteFor rf' = voteFor rf).
Proof.
  intros Hc E Hi. destruct (cluster_step_node a c c' i rf E Hi) as (rf' & Hi' & Hst).
  exists rf'. split; [done|]. apply node_step_terms; [by eapply reachable_recoverable|done].
Qed.

(** *** The order in which the services receive commands *)

(** an action that neither takes nor installs a snapshot *)
Definition log_only (a : action Cmd Snap) c : bool :=
  match a with
  | ASnapshot _ _ _ => false
  | ADeliver k _ => match c_rpc <$> calls c !! k with Some (RpcSnap _ _) => false | _ => true end
  | _ => true
  end.

Fixpoint log_only_run (acts : list (action Cmd Snap)) c : option (cluster Cmd Snap) :=
  match acts with
  | [] => Some c
  | a :: acts' => if log_only a c then c' ← cluster_step a c; log_only_run acts' c' else None
  end.

(** the commands received, and those collected and not yet sent, are those of
    the indices 1, 2, ... up to the applied index *)
Definition in_order rf (d p : list (ApplyMsg Cmd Snap)) : Prop :=
  snapshotIndex rf = 0 ∧ lastApplied rf = zlen (d ++ p) ∧
  ∀ k m, (d ++ p) !! k = Some m → CommandValid m = true ∧ CommandIndex m = Z.of_nat k + 1.

Definition all_in_order c : Prop :=
  ∀ i rf d p, nodes c !! i = Some rf → delivered c !! i = Some d → pending c !! i = Some p → in_order rf d p.

Lemma in_order_frame rf rf' d p : log_part rf' = log_part rf → in_order rf d p → in_order rf' d p.
Proof. intros [= _ Hsn Hla] (? & ? & ?). by rewrite <-Hsn, <-Hla in *. Qed.

(** cluster updates that leave the three lists of peer [i] alone, or change them
    together *)
Lemma all_in_order_set c c' i :
  all_in_order c →
  (∀ j, j ≠ i → nodes c' !! j = nodes c !! j ∧ delivered c' !! j = delivered c !! j
                ∧ pending c' !! j = pending c !! j) →
  (∀ rf d p, nodes c' !! i = Some rf → delivered c' !! i = Some d → pending c' !! i = Some p → in_order rf d p) →
  all_in_order c'.
Proof.
  intros HI Ho Hi j rf d p Hj Hd Hp. destruct (decide (j = i)) as [->|Hne]; [by apply Hi|].
  destruct (Ho j Hne) as (En & Ed & Ep). rewrite En in Hj. rewrite Ed in Hd. rewrite Ep in Hp. by eapply HI.
Qed.

Lemma all_in_order_node c c' i rf rf' :
  all_in_order c → nodes c !! i = Some rf → log_part rf' = log_part rf →
  nodes c' = <[i := rf']> (nodes c) → delivered c' = delivered c → pending c' = pending c →
  all_in_order c'.
Proof.
  intros HI Hi Hl Hn Hd Hp. apply (all_in_order_set c c' i HI).
  - intros j Hne. rewrite Hn, Hd, Hp. by rewrite list_lookup_insert_ne.
  - rewrite Hn, Hd, Hp. rewrite list_lookup_insert_eq by (by eapply lookup_lt_Some).
    intros rf0 d p [= <-] ??. eapply in_order_frame; [done|]. by eapply HI.
Qed.

Lemma AppendEntries_indices clk rf args rf' eff reply :
  AppendEntries clk rf args = Ret (rf', eff, reply) →
  snapshotIndex rf' = snapshotIndex rf ∧ lastApplied rf' = lastApplied rf.
Proof.
  intros E. destruct (Success reply) eqn:Hs.
  - destruct (AppendEntries_success _ _ _ _ _ _ E Hs) as (_ & _ & _ & _ & ? & ? & _). done.
  - destruct (AppendEntries_cases _ _ _ _ _ _ E) as [(_ & [=] & _)|(? & _)]; [done|congruence].
Qed.

Lemma in_order_indices rf rf' d p :
  snapshotIndex rf' = snapshotIndex rf → lastApplied rf' = lastApplied rf → in_order rf d p → in_order rf' d p.
Proof. intros Hsn Hla (? & ? & ?). by rewrite <-Hsn, <-Hla in *. Qed.

(** a round of [apply] *)
Lemma in_order_apply rf rf' d ms :
  apply_iteration rf = Ret (Some (rf', ms)) → in_order rf d [] → in_order rf' d ms.
Proof.
  intros E (Hsn & Hla & Hd). pose proof (apply_log _ _ _ E) as [_ Hsn'].
  unfold apply_iteration in E. destruct (decide _); [done|]. destruct (decide _); [done|].
  apply outcome_bind_ret in E as (ms' & Ems & E). injection E as <- ->.
  destruct (apply_collect_spec _ _ _ _ Ems) as [Hlen Hms].
  rewrite app_nil_r in *. split; [done|]. unfold zlen in *. simpl. rewrite length_app. split; [lia|].
  intros k m [Hk|[Hge Hk]]%lookup_app_Some; [by apply Hd|].
  destruct (Hms _ _ Hk) as (Hci & Hcv & _). split; [done|]. rewrite Hci. lia.
Qed.

Lemma restart_in_order clk rf d p :
  recoverable rf → in_order rf d p → in_order (fst (Make clk (peers rf) (me rf) (persister rf))) [] [].
Proof.
  intros Hrec (Hsn & _ & _). destruct (stable_fields _ _ (Hrec clk)) as (_ & _ & _ & Hsn' & _).
  rewrite Hsn in Hsn'. split; [done|]. split; [|done]. revert Hsn'. unfold Make. cbv zeta. simpl fst.
  destruct (decide _) as [Hne|He]; simpl; intros Hz; [simpl in *; by destruct Hne|].
  unfold readPersist. destruct (ReadRaftState _) as [|g l]; [done|].
  by destruct (Decode_int (g :: l) ≫= _) as [[[[? ?] ?] ?]|].
Qed.

Lemma deliver_in_order k clk c c' :
  all_in_order c → log_only (ADeliver k clk) c = true → cluster_step (ADeliver k clk) c = Some c' → all_in_order c'.
Proof.
  intros HI Hlog E. simpl in E. unfold deliver in E.
  apply bind_Some in E as (cl & Hk & E). apply bind_Some in E as (rf0 & Hi & E).
  simpl in Hlog. rewrite Hk in Hlog. simpl in Hlog.
  destruct (c_rpc cl) as [args tries [r|]|args [r|]|args [r|]]; try discriminate E; try done; act_inv.
  - pose proof (RequestVote_replica _ _ _ _ _ _ H) as Hr. injection Hr as Hl _ Hla Hsn _.
    eapply all_in_order_node; [done|exact Hi| |by destruct (VoteGranted _)..].
    unfold log_part. congruence.
  - pose proof (AppendEntries_indices _ _ _ _ _ _ H) as [Hsn Hla].
    apply (all_in_order_set c _ (c_to cl) HI); simpl.
    + intros j Hne. by rewrite list_lookup_insert_ne.
    + rewrite list_lookup_insert_eq by (by eapply lookup_lt_Some). intros rf dl pd [= <-] Hd Hp.
      eapply in_order_indices; [done..|]. by eapply HI.
Qed.

Lemma crash_in_order n i clk c c' :
  cluster_reachable n c → all_in_order c → cluster_step (ACrash i clk) c = Some c' → all_in_order c'.
Proof.
  intros Hc HI E. simpl in E. act_inv. apply (all_in_order_set c _ i HI); simpl.
  - intros j Hne. by rewrite !list_lookup_insert_ne.
  - rewrite list_lookup_insert_eq by (by eapply lookup_lt_Some).
    intros rf d p [= <-] Hd%list_lookup_insert_Some Hp%list_lookup_insert_Some.
    assert (d = [] ∧ p = []) as [-> ->] by naive_solver.
    destruct (delivered c !! i) as [d0|] eqn:Hd0; [|apply lookup_ge_None in Hd0; naive_solver lia].
    destruct (pending c !! i) as [p0|] eqn:Hp0; [|apply lookup_ge_None in Hp0; naive_solver lia].
    eapply restart_in_order; [by eapply reachable_recoverable|by eapply HI].
Qed.

Lemma step_in_order n a c c' :
  cluster_reachable n c → all_in_order c → log_only a c = true → cluster_step a c = Some c' → all_in_order c'.
Proof.
  intros Hc HI Hlog E.
  destruct a as [i clk|i|i|i|i|i command|i idx snap|k clk|k|k clk|i clk]; simpl in E.
  - act_inv. eapply all_in_order_node; [done|done|by eapply tick_log_part|done..].
  - act_inv. done.
  - act_inv. eapply all_in_order_node; [done|done|by eapply commit_log_part|done..].
  - act_inv. case_match; [|done]. injection E as <-.
    eapply (all_in_order_set c _ i HI).
    + intros j Hne. simpl. by rewrite !list_lookup_insert_ne.
    + simpl. rewrite !list_lookup_insert_eq by (by eapply lookup_lt_Some).
      intros rf d p [= <-] Hd [= <-]. eapply in_order_apply; [done|]. subst. by eapply HI.
  - act_inv. case_match; [done|]. injection E as <-.
    eapply (all_in_order_set c _ i HI).
    + intros j Hne. simpl. by rewrite list_lookup_insert_ne, list_lookup_alter_ne.
    + simpl. rewrite list_lookup_insert_eq by (by eapply lookup_lt_Some).
      rewrite list_lookup_alter_eq. intros rf d p Hn Hd [= <-].
      apply fmap_Some in Hd as (d0 & Hd0 & ->). unfold in_order. rewrite <-app_assoc. subst. by eapply HI.
  - apply bind_Some in E as (rf0 & Hi & E). destruct (Start command rf0) as [[rf0' ?] ?] eqn:E1.
    injection E as <-. unfold Start in E1.
    apply (all_in_order_set c _ i HI); simpl.
    + intros j Hne. by rewrite list_lookup_insert_ne.
    + rewrite list_lookup_insert_eq by (by eapply lookup_lt_Some). intros rf dl pd [= <-] Hd Hp.
      eapply (in_order_indices rf0); [..|by eapply HI]; destruct (decide _); by injection E1 as <- _ _.
  - done.
  - exact (deliver_in_order k clk c c' HI Hlog E).
  - unfold lose in E. act_inv. destruct (c_rpc _) as [? [|[|?]] ?|? ?|? ?]; by injection E as <-.
  - unfold handle_reply in E.
    apply bind_Some in E as (cl & Hk & E). apply bind_Some in E as (rf0 & Hi & E).
    apply bind_Some in E as (epoch & _ & E). destruct (decide _); [|done].
    apply bind_Some in E as ([rf0' eff] & E1%of_ret_Some & E). injection E as <-.
    eapply all_in_order_node; [done|exact Hi| |done..].
    destruct (c_rpc cl) as [args tries [r|]|args [r|]|args [r|]]; try discriminate E1;
      [by eapply vote_reply_log_part|by eapply append_reply_log_part|by eapply install_reply_log_part].
  - exact (crash_in_order n i clk c c' Hc HI E).
Qed.

Lemma init_in_order clk n : all_in_order (cluster_init clk n).
Proof.
  intros i rf d p Hi Hd Hp. simpl in *. apply list_lookup_fmap_Some in Hi as (j & -> & _).
  apply lookup_replicate in Hd as [-> _]. apply lookup_replicate in Hp as [-> _].
  split_and!; done.
Qed.

Lemma log_only_run_app acts acts' c :
  log_only_run (acts ++ acts') c = c' ← log_only_run acts c; log_only_run acts' c'.
Proof.
  revert c. induction acts as [|a acts IH]; intros c; [done|]. simpl. destruct (log_only a c); [|done].
  destruct (cluster_step a c); simpl; [apply IH|done].
Qed.

Lemma log_only_run_in_order n acts c c' :
  cluster_reachable n c → all_in_order c → log_only_run acts c = Some c' → all_in_order c'.
Proof.
  revert c. induction acts as [|a acts IH]; simpl; intros c Hc HI E; [by injection E as <-|].
  destruct (log_only a c) eqn:Ha; [|done]. apply bind_Some in E as (c1 & E1 & E).
  eapply IH; [by eapply cluster_reachable_step|by eapply step_in_order|done].
Qed.

(** Commands arrive in order: in any run in which no snapshot is taken or
    installed, with all crashes, losses and interleavings (two leaders in one
    term included), what a service has received since its peer's last start,
    followed by what is still to be sent, are commands with the indices 1, 2, ...
    up to the peer's applied index, without gap or repetition. *)
Theorem commands_in_order clk n acts c i rf d p :
  log_only_run acts (cluster_init clk n) = Some c →
  nodes c !! i = Some rf → delivered c !! i = Some d → pending c !! i = Some p →
  lastApplied rf = zlen (d ++ p)
  ∧ ∀ k m, (d ++ p) !! k = Some m → CommandValid m = true ∧ CommandIndex m = Z.of_nat k + 1.
Proof.
  intros E Hi Hd Hp.
  assert (cluster_reachable n (cluster_init (Cmd:=Cmd) (Snap:=Snap) clk n)) as H0 by (by exists clk, []).
  destruct (log_only_run_in_order n acts _ c H0 (init_in_order clk n) E i rf d p Hi Hd Hp) as (_ & ? & ?).
  done.
Qed.
End safety.

(** *** Concrete runs *)

Lemma handlers_end_normally_witness : ∃ c rf, run3 two_leaders_schedule = Some c ∧ nodes c !! 2%nat = Some rf ∧
  (∀ args, is_ret (AppendEntries clk0 rf args) = true)
  ∧ (∀ args, is_ret (RequestVote clk0 rf args) = true)
  ∧ (∀ args, is_ret (InstallSnapshot clk0 rf args) = true).
Proof.
  eexists _, _. split; [vm_compute; reflexivity|]. split; [reflexivity|].
  eapply (handlers_end_normally 3 _ 2);
    [exists clk0, two_leaders_schedule; vm_compute; reflexivity|simpl; reflexivity].
Defined.

Lemma terms_and_votes_stable_witness : ∃ c c' rf, run3 two_leaders_schedule = Some c ∧
  cluster_step (ACrash 2 clk0) c = Some c' ∧ nodes c !! 2%nat = Some rf ∧ voteFor rf = 0 ∧
  ∃ rf', nodes c' !! 2%nat = Some rf' ∧ currentTerm rf ≤ currentTerm rf'
    ∧ (currentTerm rf' = currentTerm rf → raftState rf = RaftFollower → voteFor rf ≠ -1 →
       voteFor rf' = voteFor rf).
Proof.
  eexists _, _, _. split; [vm_compute; reflexivity|]. split; [vm_compute; reflexivity|].
  split; [reflexivity|]. split; [reflexivity|].
  eapply (terms_and_votes_stable 3 (ACrash 2 clk0));
    [exists clk0, two_leaders_schedule; vm_compute; reflexivity|vm_compute; reflexivity|simpl; reflexivity].
Defined.

Lemma commands_in_order_witness : ∃ c rf d p, log_only_run diverging_schedule (cluster_init clk0 3) = Some c ∧
  nodes c !! 1%nat = Some rf ∧ delivered c !! 1%nat = Some d ∧ pending c !! 1%nat = Some p ∧
  length d = 1%nat ∧ lastApplied rf = zlen (d ++ p) ∧
  ∀ k m, (d ++ p) !! k = Some m → CommandValid m = true ∧ CommandIndex m = Z.of_nat k + 1.
Proof.
  eexists _, _, _, _. split; [vm_compute; reflexivity|]. split; [reflexivity|]. split; [reflexivity|].
  split; [reflexivity|]. split; [reflexivity|].
  eapply (commands_in_order clk0 3 diverging_schedule _ 1);
    [vm_compute; reflexivity|simpl; reflexivity..].
Defined.

(** with snapshots the order can break: [apply] sends its batch after releasing
    the lock, so a snapshot installed meanwhile reaches the service first.
    Peer 1 has collected command 1 when it installs the snapshot at index 2. *)
Definition overtaking_schedule : list (action nat nat) :=
  let late := {| now := 1000; rnd := 0 |} in
  [ATick 0 late; ADeliver 1 late; AReply 1 late; ADeliver 0 late; AReply 0 late;
   AStart 0 (Some 10%nat); AHeartBeat 0; ADeliver 0 late; ALose 0; ADeliver 0 late; AReply 0 late; ACommit 0;
   AHeartBeat 0; ADeliver 0 late; ALose 0; AApply 1;
   AStart 0 (Some 20%nat); AHeartBeat 0; ADeliver 2 late; AReply 2 late; ACommit 0; AApply 0; ASend 0; ASend 0;
   ASnapshot 0 2 (Some 7%nat); AHeartBeat 0; ADeliver 2 late; ASend 1].

Definition received (c : cluster nat nat) : list (list (bool * Z * Z)) :=
  map (map (λ m : ApplyMsg nat nat, (CommandValid m, CommandIndex m, SnapshotIndex m))) (delivered c).

(** A command can reach a service after a snapshot that covers it: in a
    reachable state, peer 1's service has received the snapshot of index 2 and
    then the command of index 1. *)
Theorem command_after_snapshot : ∃ c, cluster_reachable 3 c ∧
  received c = [[(true, 1, 0); (true, 2, 0)]; [(false, 0, 2); (true, 1, 0)]; []].
Proof.
  assert (received <$> run3 overtaking_schedule
          = Some [[(true, 1, 0); (true, 2, 0)]; [(false, 0, 2); (true, 1, 0)]; []]) as H
    by (vm_compute; reflexivity).
  destruct (run3 overtaking_schedule) as [c|] eqn:E; [|discriminate H].
  exists c. split; [exact (run3_reachable _ _ E)|]. by injection H.
Qed.
