(* ===== verification/RaftParts.v ===== *)
(** * What each Raft operation does to the replicated log

    For every operation of raft1/raft.go, the fields of a peer that log
    replication depends on, before and after: the input of the simulation in
    RaftReplication.v. *)

From S2P Require Import Prelude RaftNode RaftFacts RaftCluster RaftLog.
Local Open Scope Z_scope.

Section parts.
Context {Cmd Snap : Type}.
Implicit Types (rf : Raft Cmd Snap) (clk : clock) (e : LogEntry Cmd).

(** the fields replication depends on *)
Definition lpart rf :=
  (currentTerm rf, voteFor rf, raftState rf, logs rf, snapshotIndex rf, commitIndex rf, lastApplied rf,
   matchIndex rf).

(** [rf'] is [rf] stepped down to term [t] *)
Definition lowered t rf rf' : Prop :=
  lpart rf' = (t, -1, RaftFollower, logs rf, snapshotIndex rf, commitIndex rf, lastApplied rf, matchIndex rf).

Lemma update_lowered t rf : lowered t rf (fst (updateTermAndBecomeFollower t rf)).
Proof. done. Qed.

(** entering a request of term [t]: step down to a larger term, or stay *)
Definition entered t rf rf1 : Prop :=
  lpart rf1 = lpart rf ∧ currentTerm rf = t ∨ lowered t rf rf1 ∧ currentTerm rf ≤ t.

Lemma lpart_log rf rf' : logs rf' = logs rf → snapshotIndex rf' = snapshotIndex rf →
  (∀ i, log rf' i = log rf i) ∧ GetLastLogIndex rf' = GetLastLogIndex rf.
Proof. intros Hl Hs. unfold log, index, GetLastLogIndex. rewrite Hl, Hs. done. Qed.

Lemma entered_logs t rf rf1 : entered t rf rf1 →
  logs rf1 = logs rf ∧ snapshotIndex rf1 = snapshotIndex rf ∧ currentTerm rf1 = t.
Proof. intros [[Heq <-]|[Heq _]]; injection Heq; intros; by split_and!. Qed.

Lemma AppendEntries_parts clk rf args rf' eff reply :
  AppendEntries clk rf args = Ret (rf', eff, reply) →
  (rf' = rf ∧ Success reply = false)
  ∨ ∃ rf1, entered (ae_Term args) rf rf1 ∧ raftState rf1 = RaftFollower ∧
    (rf' = rf1 ∧ Success reply = false
     ∨ Success reply = true ∧ prev_matches rf1 args ∧ ∃ eff', AppendEntries_accept rf1 args = Ret (rf', eff')).
Proof.
  unfold AppendEntries. intros E. destruct (decide _) as [|Hge]; [injection E as <- _ <-; by left|right].
  set (rf1 := resetElectionTimer clk rf) in *.
  destruct (if decide _ then _ else _) as [rf2 eff2] eqn:E2.
  set (rf3 := set_leaderID (ae_LeaderID args) rf2) in *.
  exists rf3. split; [|split].
  - destruct (decide _) as [|Hc]; injection E2 as E2 _; subst rf2; [right; split; [done|lia]|left].
    split; [done|]. subst rf1. simpl in Hc. lia.
  - destruct (decide _) as [|Hc]; injection E2 as E2 _; subst rf2; [done|]. simpl in *.
    destruct (decide (raftState rf = RaftFollower)); [done|]. exfalso. apply Hc. by right.
  - clearbody rf3. clear E2. destruct (decide _); [injection E as <- _ <-; by left|].
    destruct (decide _); [injection E as <- _ <-; by left|].
    apply outcome_bind_ret in E as (prev & Eprev & E). destruct (decide _) as [Hne|Heq].
    + apply outcome_bind_ret in E as (xi & _ & E). destruct (decide _); injection E as <- _ <-; by left.
    + apply outcome_bind_ret in E as ([rf4 eff4] & E4 & E). injection E as <- _ <-. right.
      split; [done|]. split; [|eauto]. split; [lia|]. exists prev. split; [done|].
      destruct (decide (PrevLogTerm args = e_Term prev)); [done|by destruct Heq].
Qed.

Lemma accept_parts rf args rf' eff :
  AppendEntries_accept rf args = Ret (rf', eff) → prev_matches rf args →
  view rf' = view rf ∧ logs rf' = merged (logs rf) (Z.to_nat (PrevLogIndex args + 1 - snapshotIndex rf)) (Entries args)
  ∧ commitIndex rf' = (if decide (LeaderCommit args > commitIndex rf)
                       then Z.min (LeaderCommit args) (GetLastLogIndex rf') else commitIndex rf)
  ∧ lastApplied rf' = lastApplied rf ∧ snapshotIndex rf' = snapshotIndex rf.
Proof.
  intros E [Hp _]. destruct (accept_view _ _ _ _ E) as (Hv & _).
  destruct (accept_logs _ _ _ _ Hp E) as (? & ? & ? & ? & _). done.
Qed.

(** the last entry of a candidate is at least as new as the voter's *)
Definition newer_than rf (args : RequestVoteArgs) : Prop :=
  ∃ t, GetLastLogTerm rf = Ret t ∧
  (t < LastLogTerm args ∨ t = LastLogTerm args ∧ GetLastLogIndex rf ≤ LastLogIndex args).

Definition voted (x : Z) rf rf' : Prop :=
  lpart rf' = (currentTerm rf, x, raftState rf, logs rf, snapshotIndex rf, commitIndex rf, lastApplied rf,
               matchIndex rf).

Lemma RequestVote_parts clk rf args rf' eff reply :
  RequestVote clk rf args = Ret (rf', eff, reply) →
  (rf' = rf ∧ VoteGranted reply = false)
  ∨ ∃ rf1, entered (rv_Term args) rf rf1 ∧
    (rf' = rf1 ∧ (VoteGranted reply = true → voteFor rf1 = CandidateId args)
     ∨ VoteGranted reply = true ∧ newer_than rf1 args ∧ voted (CandidateId args) rf1 rf').
Proof.
  unfold RequestVote. intros E. destruct (decide _) as [|Hge]; [injection E as <- _ <-; by left|right].
  destruct (if decide _ then _ else _) as [rf1 eff1] eqn:E1. exists rf1. split.
  { destruct (decide _) as [Hc|Hc]; injection E1 as E1 _; subst rf1; [right; split; [done|lia]|left].
    split; [done|lia]. }
  clear E1. destruct (decide _); [injection E as <- _ <-; by left|].
  destruct (decide _); [injection E as <- _ <-; by left|].
  apply outcome_bind_ret in E as (t & Et & E). unfold newer_than.
  destruct (decide (LastLogTerm args > t)).
  { injection E as <- _ <-. right. split; [done|]. split; [|done]. exists t. split; [done|left; lia]. }
  destruct (decide (LastLogTerm args < t)); [injection E as <- _ <-; by left|].
  destruct (decide (GetLastLogIndex rf1 ≤ LastLogIndex args)); injection E as <- _ <-; [right|by left].
  split; [done|]. split; [|done]. exists t. split; [done|right; lia].
Qed.

(** a new leader's bookkeeping: the others have matched nothing yet *)
Definition elected rf rf' : Prop :=
  ∃ mis, lpart rf' = (currentTerm rf, -1, RaftLeader, logs rf, snapshotIndex rf, commitIndex rf, lastApplied rf, mis)
    ∧ length mis = peers rf ∧ ∀ j m, mis !! j = Some m → Z.of_nat j ≠ me rf → m = 0.

Lemma vote_reply_parts clk rf args reply rf' eff :
  sendRequestVote_reply clk rf args reply = Ret (rf', eff) →
  lpart rf' = lpart rf ∨ (∃ t, currentTerm rf < t ∧ lowered t rf rf')
  ∨ raftState rf = RaftCandidate ∧ elected rf rf'.
Proof.
  unfold sendRequestVote_reply, becomeLeader. intros E.
  repeat (destruct (decide _); [injection E as <- _; by left|]).
  destruct (decide _); [injection E as <- _; right; left; exists (rvr_Term reply); split; [lia|done]|].
  destruct (decide _) as [(Hc & _)|]; [|injection E as <- _; by left]. simpl in E.
  destruct (decide _); [|injection E as <- _; by left]. right. right. split; [done|].
  repeat (destruct (decide _); [done|]).
  apply outcome_bind_ret in E as (mis & Emis & E). injection E as <- _.
  unfold go_update in Emis. destruct (decide _) as [Hr|]; [|done]. injection Emis as <-. simpl in Hr.
  exists (<[Z.to_nat (me rf) := GetLastLogIndex rf]> (replicate (peers rf) 0)).
  split; [done|]. split; [by rewrite length_insert, length_replicate|].
  intros j m Hj Hne. apply list_lookup_insert_Some in Hj as [(Hj & _)|(_ & Hj)]; [simpl in Hj; lia|].
  by apply lookup_replicate in Hj as [-> _].
Qed.

Lemma append_reply_parts rf srv args reply rf' eff :
  sendAppendEntries_reply rf (Z.of_nat srv) args reply = Ret (rf', eff) →
  lpart rf' = lpart rf ∨ (∃ t, currentTerm rf < t ∧ lowered t rf rf')
  ∨ currentTerm rf ≤ ae_Term args ∧ Success reply = true ∧ ∃ m0,
    matchIndex rf !! srv = Some m0 ∧
    lpart rf' = (currentTerm rf, voteFor rf, raftState rf, logs rf, snapshotIndex rf, commitIndex rf, lastApplied rf,
                 <[srv := Z.max m0 (PrevLogIndex args + zlen (Entries args))]> (matchIndex rf)).
Proof.
  unfold sendAppendEntries_reply. intros E.
  destruct (decide _); [injection E as <- _; by left|].
  destruct (decide _); [injection E as <- _; by left|].
  destruct (decide _); [injection E as <- _; right; left; exists (aer_Term reply); split; [lia|done]|].
  destruct (Success reply) eqn:Hs.
  - apply outcome_bind_ret in E as (ni & _ & E). apply outcome_bind_ret in E as (nis & _ & E).
    apply outcome_bind_ret in E as (m0 & Em0 & E). apply outcome_bind_ret in E as (mis & Emis & E).
    injection E as <- _. right. right. split; [lia|]. split; [done|]. exists m0.
    apply go_index_Ret in Em0. rewrite zlookup_nat in Em0. split; [done|].
    unfold go_update in Emis. destruct (decide _); [|done]. injection Emis as <-.
    by rewrite Nat2Z.id.
  - left. destruct (decide _); [|destruct (decide _)];
      repeat (apply outcome_bind_ret in E as (? & _ & E)); by injection E as <- _.
Qed.

Lemma tick_parts clk rf rf' eff :
  ticker_iteration clk rf = Ret (Some (rf', eff)) →
  (lpart rf' = lpart rf ∧ eff = [])
  ∨ lpart rf' = (currentTerm rf + 1, me rf, RaftCandidate, logs rf, snapshotIndex rf, commitIndex rf,
                 lastApplied rf, matchIndex rf)
    ∧ ∃ lastTerm, GetLastLogTerm rf = Ret lastTerm
    ∧ eff = (λ i, SendRequestVote (Z.of_nat i)
                    {| rv_Term := currentTerm rf + 1; CandidateId := me rf;
                       LastLogIndex := GetLastLogIndex rf; LastLogTerm := lastTerm |})
              <$> filter (λ i, Z.of_nat i ≠ me rf) (seq 0 (peers rf)).
Proof.
  unfold ticker_iteration. intros E. destruct (decide _) as [|Hnl]; [done|].
  destruct (decide _); [|injection E as <- <-; by left].
  apply outcome_bind_ret in E as ([rf1 eff1] & E1 & E). injection E as <- <-.
  unfold startAElection in E1. rewrite decide_False in E1 by done.
  apply outcome_bind_ret in E1 as (lastTerm & Et & E1). injection E1 as <- <-.
  right. split; [done|]. exists lastTerm. split; done.
Qed.

Lemma heartBeat_range_send rf nexts i es (e : effect Cmd Snap) :
  heartBeat_range rf i nexts = Ret es → e ∈ es → ∃ j next, heartBeat_send rf j next = Ret e.
Proof.
  revert i es. induction nexts as [|next nexts IH]; intros i es E He; simpl in E.
  { injection E as <-. by apply not_elem_of_nil in He. }
  destruct (decide _); [eauto|].
  apply outcome_bind_ret in E as (e1 & E1 & E). apply outcome_bind_ret in E as (es1 & E2 & E).
  injection E as <-. apply elem_of_cons in He as [->|]; eauto.
Qed.

Lemma commit_parts rf rf' eff :
  commit_iteration rf = Ret (Some (rf', eff)) →
  raftState rf = RaftLeader ∧ ∃ mis ci,
    mis = <[Z.to_nat (me rf) := GetLastLogIndex rf]> (matchIndex rf) ∧
    lpart rf' = (currentTerm rf, voteFor rf, raftState rf, logs rf, snapshotIndex rf, ci, lastApplied rf, mis)
    ∧ (ci = commitIndex rf
       ∨ commitIndex rf < ci ∧ (∃ e, log rf ci = Ret e ∧ e_Term e = currentTerm rf)
         ∧ merge_sort Z.le mis !! (length mis / 2)%nat = Some ci).
Proof.
  unfold commit_iteration. intros E. destruct (decide _) as [|Hl]; [done|].
  apply outcome_bind_ret in E as (mis & Emis & E). unfold go_update in Emis.
  destruct (decide _); [|done]. injection Emis as <-. simpl in E.
  apply outcome_bind_ret in E as (m & Em & E). split; [by destruct (raftState rf); try (exfalso; by apply Hl)|].
  eexists. destruct (decide (m > commitIndex rf)) as [Hgt|];
    [|injection E as <- _; exists (commitIndex rf); split; [done|split; [done|by left]]].
  apply outcome_bind_ret in E as (e & He & E).
  destruct (decide _) as [Ht|]; injection E as <- _;
    [|exists (commitIndex rf); split; [done|split; [done|by left]]].
  exists m. split; [done|]. split; [done|right]. split; [lia|]. split; [exists e; split; done|].
  apply go_index_Ret, zlookup_Some in Em as [_ Em]. simpl in Em.
  rewrite <-Em. f_equal. unfold zlen.
  rewrite (merge_sort_Permutation Z.le (<[Z.to_nat (me rf) := GetLastLogIndex rf]> (matchIndex rf))) at 1.
  change 2 with (Z.of_nat 2). by rewrite <-Nat2Z.inj_div, Nat2Z.id.
Qed.

Lemma apply_parts rf rf' ms :
  apply_iteration rf = Ret (Some (rf', ms)) →
  lastApplied rf < commitIndex rf ∧
  lpart rf' = (currentTerm rf, voteFor rf, raftState rf, logs rf, snapshotIndex rf, commitIndex rf,
               commitIndex rf, matchIndex rf)
  ∧ ∀ m, m ∈ ms → lastApplied rf < CommandIndex m ≤ commitIndex rf
      ∧ ∃ e, log rf (CommandIndex m) = Ret e ∧ am_Command m = e_Command e.
Proof.
  unfold apply_iteration. intros E. destruct (decide _); [done|]. destruct (decide _); [done|].
  apply outcome_bind_ret in E as (ms' & Ems & E). injection E as <- <-.
  split; [lia|]. split; [done|]. destruct (apply_collect_spec _ _ _ _ Ems) as [Hlen Hms].
  intros m [k Hk]%list_elem_of_lookup. destruct (Hms k m Hk) as (-> & _ & _ & e & ? & ?).
  apply lookup_lt_Some in Hk. split; [lia|eauto].
Qed.

Lemma restart_parts clk rf :
  recoverable rf → 0 ≤ snapshotIndex rf →
  let rf' := fst (Make clk (peers rf) (me rf) (persister rf)) in
  currentTerm rf' = currentTerm rf ∧ voteFor rf' = voteFor rf ∧ raftState rf' = RaftFollower
  ∧ logs rf' = logs rf ∧ snapshotIndex rf' = snapshotIndex rf
  ∧ commitIndex rf' = snapshotIndex rf ∧ lastApplied rf' = snapshotIndex rf.
Proof.
  intros Hrec Hs rf'.
  assert (commitIndex rf' = snapshotIndex rf' ∧ lastApplied rf' = snapshotIndex rf') as Hz.
  { subst rf'. unfold Make. cbv zeta. simpl fst. destruct (decide _) as [Hne|He]; [done|].
    simpl. simpl in He. apply dec_stable in He. rewrite He.
    clear. unfold readPersist. destruct (ReadRaftState _) as [|g l]; [done|].
    by destruct (Decode_int (g :: l) ≫= _) as [[[[? ?] ?] ?]|]. }
  destruct (Make_restart clk rf Hrec) as (Hst & _ & _ & Hv). fold rf' in Hst, Hv. clearbody rf'.
  destruct (stable_fields _ _ Hst) as (? & ? & ? & Hs' & _). injection Hv as _ _ ? _.
  destruct Hz. split_and!; congruence.
Qed.

Lemma Snapshot_parts idx snap rf rf' :
  Snapshot idx snap rf = Ret rf' → 0 ≤ snapshotIndex rf →
  lpart rf' = lpart rf
  ∨ snapshotIndex rf ≤ idx ≤ GetLastLogIndex rf
    ∧ lpart rf' = (currentTerm rf, voteFor rf, raftState rf, drop (Z.to_nat (idx - snapshotIndex rf)) (logs rf),
                   idx, commitIndex rf, lastApplied rf, matchIndex rf).
Proof.
  unfold Snapshot. intros E Hs. destruct (decide _); [injection E as <-; by left|].
  destruct (decide _); [done|]. apply outcome_bind_ret in E as (ls & Els & E). injection E as <-.
  unfold go_drop, index in Els. destruct (decide _); [|done]. injection Els as <-.
  right. split; [lia|done].
Qed.

(** the message of an installed snapshot *)
Definition snapshot_msg (args : InstallSnapshotArgs Snap) : ApplyMsg Cmd Snap :=
  {| CommandValid := false; am_Command := None; CommandIndex := 0; SnapshotValid := true;
     am_Snapshot := Data args; SnapshotTerm := LastIncludedTerm args; SnapshotIndex := LastIncludedIndex args |}.

Lemma InstallSnapshot_parts clk rf args rf' eff reply :
  InstallSnapshot clk rf args = Ret (rf', eff, reply) →
  (rf' = rf ∧ is_Term args < isr_Term reply ∧ omap effect_msg eff = [])
  ∨ ∃ rf1, entered (is_Term args) rf rf1 ∧
    (lpart rf' = lpart rf1 ∧ LastIncludedIndex args ≤ snapshotIndex rf1 ∧ omap effect_msg eff = []
     ∨ snapshotIndex rf1 < LastIncludedIndex args ∧ omap effect_msg eff = [snapshot_msg args]
       ∧ ∃ kept, lpart rf' = (currentTerm rf1, voteFor rf1, raftState rf1,
                     {| e_Term := LastIncludedTerm args; e_Command := None |} :: kept,
                     LastIncludedIndex args, Z.max (commitIndex rf1) (LastIncludedIndex args),
                     Z.max (lastApplied rf1) (LastIncludedIndex args), matchIndex rf1)
         ∧ (GetLastLogIndex rf1 ≤ LastIncludedIndex args ∧ kept = []
            ∨ LastIncludedIndex args < GetLastLogIndex rf1
              ∧ kept = drop (S (Z.to_nat (LastIncludedIndex args - snapshotIndex rf1))) (logs rf1))).
Proof.
  unfold InstallSnapshot. intros E. destruct (decide _) as [|Hge]; [injection E as <- <- <-; left; simpl; split_and!; [done|lia|done]|right].
  destruct (if decide _ then _ else _) as [rf1 eff1] eqn:E1. exists rf1. split.
  { destruct (decide _) as [Hc|Hc]; injection E1 as E1 _; subst rf1; [right; split; [done|lia]|left].
    split; [done|lia]. }
  assert (omap effect_msg eff1 = []) as Heff.
  { destruct (decide (is_Term args > currentTerm rf)); injection E1 as _ <-; [|done].
    by destruct (decide (raftState rf = RaftLeader)). }
  clear E1. destruct (decide _) as [|Hnew]; [injection E as <- <- _; left; split_and!; [done|simpl in *; lia|done]|right].
  simpl in Hnew. apply outcome_bind_ret in E as (ls & Els & E). injection E as <- <- _.
  split; [lia|]. split; [by rewrite omap_app, Heff|].
  assert (∃ kept, ls = {| e_Term := LastIncludedTerm args; e_Command := None |} :: kept
    ∧ (GetLastLogIndex rf1 ≤ LastIncludedIndex args ∧ kept = []
       ∨ LastIncludedIndex args < GetLastLogIndex rf1
         ∧ kept = drop (S (Z.to_nat (LastIncludedIndex args - snapshotIndex rf1))) (logs rf1))) as (kept & -> & Hk).
  { unfold GetLastLogIndex in *. simpl in Els. destruct (decide _) as [Hgt|Hle].
    - apply outcome_bind_ret in Els as (kept & Ek & Els). injection Els as <-.
      unfold go_drop, index in Ek. simpl in Ek. destruct (decide _); [|done]. injection Ek as <-.
      eexists. split; [done|right]. split; [lia|]. f_equal. lia.
    - injection Els as <-. eexists. split; [done|left]. split; [lia|done]. }
  exists kept. split; [|done]. unfold lpart. clear Hk.
  repeat case_decide; simpl in *; repeat f_equal; lia.
Qed.

Lemma snap_reply_parts rf srv (args : InstallSnapshotArgs Snap) reply rf' eff :
  sendInstallSnapshot_reply rf (Z.of_nat srv) args reply = Ret (rf', eff) →
  lpart rf' = lpart rf ∨ (∃ t, currentTerm rf < t ∧ lowered t rf rf')
  ∨ currentTerm rf ≤ is_Term args ∧ isr_Term reply ≤ is_Term args ∧ ∃ m0,
    matchIndex rf !! srv = Some m0 ∧
    lpart rf' = (currentTerm rf, voteFor rf, raftState rf, logs rf, snapshotIndex rf, commitIndex rf, lastApplied rf,
                 <[srv := Z.max m0 (LastIncludedIndex args)]> (matchIndex rf)).
Proof.
  unfold sendInstallSnapshot_reply. intros E.
  destruct (decide _); [injection E as <- _; by left|].
  destruct (decide _); [injection E as <- _; by left|].
  destruct (decide _); [injection E as <- _; right; left; exists (isr_Term reply); split; [lia|done]|].
  apply outcome_bind_ret in E as (m0 & Em0 & E). apply outcome_bind_ret in E as (mis & Emis & E).
  apply outcome_bind_ret in E as (ni & _ & E). apply outcome_bind_ret in E as (nis & _ & E).
  injection E as <- _. right. right. split; [lia|]. split; [lia|]. exists m0.
  apply go_index_Ret in Em0. rewrite zlookup_nat in Em0. split; [done|].
  unfold go_update in Emis. destruct (decide _); [|done]. injection Emis as <-.
  by rewrite Nat2Z.id.
Qed.

(** ** The merged log *)

Lemma merged_cons d (l : list (LogEntry Cmd)) p es : merged (d :: l) (S p) es = d :: merged l p es.
Proof. unfold merged. simpl. by destruct (decide _). Qed.

(** merging behind the first [s] entries leaves them alone *)
Lemma merged_drop (l : list (LogEntry Cmd)) s p es :
  (s ≤ p ≤ length l)%nat → merged (drop s l) (p - s) es = drop s (merged l p es).
Proof.
  intros Hp. unfold merged. rewrite drop_drop. replace (s + (p - s))%nat with p by lia.
  destruct (agree_le (drop p l) es) as [Hk _]. rewrite length_drop in Hk. destruct (decide _); [done|].
  rewrite drop_app_le by (rewrite length_take; lia). f_equal.
  rewrite take_drop_commute. do 2 f_equal. lia.
Qed.
End parts.
