(* ===== verification/Replication.v ===== *)
(** * Log replication, abstractly

    The specification the peers of raft1/raft.go implement when a term has at
    most one leader (RaftReplication.v proves the refinement).  Each peer has a
    term, a log and a commit index.  As history: the log of the leader of each
    term, the logs candidates stood with and voters voted with, the elections
    won with their voters, the acknowledgements of peers to the leader of a
    term, and the log positions leaders counted as committed.  An election
    needs more than half of the [n] peers, a commit at least [n - n / 2] of
    them: enough to share a peer with every electing majority. *)

From stdpp Require Import functions.
From S2P Require Import Prelude RaftNode Election.
Local Open Scope Z_scope.

Section replication.
Context {Cmd : Type}.
Variable n : nat.   (** the number of peers *)
#[local] Abbreviation elog := (list (LogEntry Cmd)).

Record win := mkWin { w_term : Z; w_peer : nat; w_log : elog; w_votes : list (nat * elog) }.

Record rstate := mkR {
  rterm : nat → Z;
  rlog : nat → elog;
  rcommit : nat → nat;
  llog : Z → elog;                          (** the log of the leader of a term *)
  stands : list (Z * nat * elog);           (** (term, candidate, its log) *)
  votes : list (Z * nat * nat * elog);      (** (term, voter, candidate, the voter's log) *)
  wins : list win;
  acks : list (Z * nat * nat);              (** (term, peer, length of the log it shares) *)
  committed : list (Z * nat)                (** (term, length) *)
}.
Implicit Types (r : rstate) (L P : elog).

Definition r_init : rstate :=
  mkR (λ _, 0) (λ _, []) (λ _, O) (λ _, []) [] [] [] [] [].

Definition won r t : Prop := ∃ w, w ∈ wins r ∧ w_term w = t.

Definition last_term L : Z := from_option e_Term 0 (last L).

(** the election restriction: the candidate's log is at least as good *)
Definition as_good L clog : Prop :=
  last_term L < last_term clog ∨ last_term L = last_term clog ∧ (length L ≤ length clog)%nat.

(** more than half of the peers *)
Definition majority (Q : list nat) : Prop :=
  NoDup Q ∧ (n / 2 < length Q)%nat ∧ ∀ v, v ∈ Q → (v < n)%nat.

(** enough peers to commit *)
Definition commit_quorum (Q : list nat) : Prop :=
  NoDup Q ∧ (n ≤ length Q + n / 2)%nat ∧ ∀ v, v ∈ Q → (v < n)%nat.

Inductive r_step r : rstate → Prop :=
| r_term v t : rterm r v ≤ t →
    r_step r (mkR (<[v := t]> (rterm r)) (rlog r) (rcommit r) (llog r) (stands r) (votes r) (wins r)
                  (acks r) (committed r))
| r_stand v : let t := rterm r v + 1 in
    r_step r (mkR (<[v := t]> (rterm r)) (rlog r) (rcommit r) (llog r) ((t, v, rlog r v) :: stands r)
                  ((t, v, v, rlog r v) :: votes r) (wins r) (acks r) (committed r))
| r_vote v x clog : (rterm r v, x, clog) ∈ stands r → as_good (rlog r v) clog →
    r_step r (mkR (rterm r) (rlog r) (rcommit r) (llog r) (stands r)
                  ((rterm r v, v, x, rlog r v) :: votes r) (wins r) (acks r) (committed r))
| r_win x vs : ¬ won r (rterm r x) → (rterm r x, x, rlog r x) ∈ stands r → majority vs.*1 →
    (∀ v L, (v, L) ∈ vs → (rterm r x, v, x, L) ∈ votes r) →
    r_step r (mkR (rterm r) (rlog r) (rcommit r) (<[rterm r x := rlog r x]> (llog r)) (stands r)
                  (votes r) (mkWin (rterm r x) x (rlog r x) vs :: wins r) (acks r) (committed r))
| r_start w e : w ∈ wins r → rterm r (w_peer w) = w_term w → e_Term e = w_term w →
    r_step r (mkR (rterm r) (<[w_peer w := rlog r (w_peer w) ++ [e]]> (rlog r)) (rcommit r)
                  (<[w_term w := llog r (w_term w) ++ [e]]> (llog r)) (stands r) (votes r) (wins r)
                  (acks r) (committed r))
| r_agree v m : won r (rterm r v) → (m ≤ length (llog r (rterm r v)))%nat →
    take m (llog r (rterm r v)) `prefix_of` rlog r v →
    r_step r (mkR (rterm r) (rlog r) (rcommit r) (llog r) (stands r) (votes r) (wins r)
                  ((rterm r v, v, m) :: acks r) (committed r))
| r_replace v m : won r (rterm r v) → (m ≤ length (llog r (rterm r v)))%nat →
    ¬ take m (llog r (rterm r v)) `prefix_of` rlog r v →
    r_step r (mkR (rterm r) (<[v := take m (llog r (rterm r v))]> (rlog r)) (rcommit r) (llog r) (stands r)
                  (votes r) (wins r) ((rterm r v, v, m) :: acks r) (committed r))
| r_commit t k e Q : won r t → llog r t !! k = Some e → e_Term e = t → commit_quorum Q →
    (∀ v, v ∈ Q → ∃ m, (k < m)%nat ∧ (t, v, m) ∈ acks r) →
    r_step r (mkR (rterm r) (rlog r) (rcommit r) (llog r) (stands r) (votes r) (wins r) (acks r)
                  ((t, S k) :: committed r))
| r_learn v c t k : (t, k) ∈ committed r → t ≤ rterm r v → (c ≤ k)%nat → (c ≤ length (rlog r v))%nat →
    take c (rlog r v) `prefix_of` llog r t → (rcommit r v ≤ c)%nat →
    r_step r (mkR (rterm r) (rlog r) (<[v := c]> (rcommit r)) (llog r) (stands r) (votes r) (wins r)
                  (acks r) (committed r))
| r_forget v :
    r_step r (mkR (rterm r) (rlog r) (<[v := O]> (rcommit r)) (llog r) (stands r) (votes r) (wins r)
                  (acks r) (committed r)).

Definition r_reachable : rstate → Prop := reachable (eq r_init) r_step.

(** ** The invariant *)

(** every entry of [L] comes, with all before it, from the leader of its term *)
Definition matched r L : Prop :=
  ∀ i e, L !! i = Some e → won r (e_Term e) ∧ take (S i) L `prefix_of` llog r (e_Term e).

(** [L] has the first [k] entries of the leader of [t] *)
Definition kept r t k L : Prop := take k (llog r t) `prefix_of` L.

(** a leader between the terms [t] and [hi] did not have them *)
Definition lost r t k hi : Prop := ∃ t', t < t' < hi ∧ won r t' ∧ ¬ kept r t k (llog r t').

(** peer [v] acknowledged the first [k] entries of the leader of [t] *)
Definition acked r t v k : Prop := ∃ m, (k ≤ m)%nat ∧ (t, v, m) ∈ acks r.

Record r_inv r : Prop := {
  v_pos : ∀ v, 0 ≤ rterm r v;
  v_matched : ∀ v, matched r (rlog r v);
  v_terms : ∀ v e, e ∈ rlog r v → e_Term e ≤ rterm r v;
  v_lmatched : ∀ t, won r t → matched r (llog r t);
  v_lterms : ∀ t e, won r t → e ∈ llog r t → e_Term e ≤ t;
  v_stands : ∀ t x L, (t, x, L) ∈ stands r → 0 < t ≤ rterm r x ∧ matched r L ∧ (∀ e, e ∈ L → e_Term e < t);
  v_once : ∀ t x L L', (t, x, L) ∈ stands r → (t, x, L') ∈ stands r → L = L';
  v_votes : ∀ t v x L, (t, v, x, L) ∈ votes r →
    t ≤ rterm r v ∧ matched r L ∧ ∃ clog, (t, x, clog) ∈ stands r ∧ as_good L clog;
  v_unique : ∀ w w', w ∈ wins r → w' ∈ wins r → w_term w = w_term w' → w = w';
  v_leader : ∀ w, w ∈ wins r → 0 < w_term w ≤ rterm r (w_peer w)
    ∧ (rterm r (w_peer w) = w_term w → rlog r (w_peer w) = llog r (w_term w));
  v_wins : ∀ w, w ∈ wins r → w_log w `prefix_of` llog r (w_term w) ∧ matched r (w_log w)
    ∧ (∀ e, e ∈ w_log w → e_Term e < w_term w) ∧ majority (w_votes w).*1
    ∧ ∀ v L, (v, L) ∈ w_votes w → w_term w ≤ rterm r v ∧ matched r L ∧ as_good L (w_log w);
  v_acks : ∀ t v k, acked r t v k → t ≤ rterm r v ∧ won r t ∧ (k ≤ length (llog r t))%nat
    ∧ (kept r t k (rlog r v) ∨ lost r t k (rterm r v + 1));
  v_open : ∀ t v k t' x L, acked r t v k → (t', v, x, L) ∈ votes r → t < t' → ¬ won r t' →
    kept r t k L ∨ lost r t k t';
  v_closed : ∀ t v k w L, acked r t v k → w ∈ wins r → (v, L) ∈ w_votes w → t < w_term w →
    kept r t k L ∨ lost r t k (w_term w);
  v_committed : ∀ t k, (t, k) ∈ committed r → won r t ∧ (k ≤ length (llog r t))%nat
    ∧ (∃ e, e ∈ take k (llog r t) ∧ e_Term e = t)
    ∧ ∃ Q, commit_quorum Q ∧ ∀ v, v ∈ Q → acked r t v k;
  v_commit : ∀ v, rcommit r v = O ∨ ∃ t k, (t, k) ∈ committed r ∧ t ≤ rterm r v ∧ (rcommit r v ≤ k)%nat
    ∧ (rcommit r v ≤ length (rlog r v))%nat ∧ take (rcommit r v) (rlog r v) `prefix_of` llog r t
}.

(** ** What the invariant says *)

Lemma prefix_common {A} (l1 l2 l : list A) :
  l1 `prefix_of` l → l2 `prefix_of` l → (length l1 ≤ length l2)%nat → l1 `prefix_of` l2.
Proof.
  intros H1 H2 Hlen. destruct (prefix_weak_total _ _ _ H1 H2) as [|H]; [done|].
  apply prefix_length_eq in H; [by rewrite H|lia].
Qed.

Lemma prefix_lookup {A} (l1 l2 : list A) i x : l1 `prefix_of` l2 → l1 !! i = Some x → l2 !! i = Some x.
Proof. intros [k ->] Hi. by apply lookup_app_l_Some. Qed.

Lemma prefix_elem {A} (l1 l2 : list A) x : l1 `prefix_of` l2 → x ∈ l1 → x ∈ l2.
Proof. intros [k ->] Hx. apply elem_of_app. by left. Qed.

Lemma take_of_prefix {A} k (l1 l2 : list A) : l1 `prefix_of` l2 → (k ≤ length l1)%nat → take k l2 = take k l1.
Proof. intros [x ->] ?. by rewrite take_app_le. Qed.

Lemma matched_prefix r P L : matched r L → P `prefix_of` L → matched r P.
Proof.
  intros HL HP i e Hi. destruct (HL i e) as [Hw Ht]; [by eapply prefix_lookup|]. split; [done|].
  rewrite <-(take_of_prefix (S i) P L); [done..|]. apply lookup_lt_Some in Hi. lia.
Qed.

(** the log matching property *)
Lemma matched_common r L L' i e e' :
  matched r L → matched r L' → L !! i = Some e → L' !! i = Some e' → e_Term e = e_Term e' →
  take (S i) L = take (S i) L'.
Proof.
  intros HL HL' Hi Hi' Ht. destruct (HL i e Hi) as [_ H1]. destruct (HL' i e' Hi') as [_ H2].
  rewrite <-Ht in H2. apply lookup_lt_Some in Hi, Hi'.
  apply prefix_length_eq; [|rewrite !length_take; lia].
  apply (prefix_common _ _ _ H1 H2). rewrite !length_take. lia.
Qed.

Lemma matched_sorted r L i j e e' :
  r_inv r → matched r L → L !! i = Some e → L !! j = Some e' → (j ≤ i)%nat → e_Term e' ≤ e_Term e.
Proof.
  intros HI HL Hi Hj Hle. destruct (HL i e Hi) as [Hw HP].
  apply (v_lterms _ HI _ _ Hw). eapply prefix_elem; [exact HP|].
  apply (list_elem_of_lookup_2 _ j). rewrite lookup_take_lt; [done|lia].
Qed.

Lemma last_term_lookup L e : last L = Some e → last_term L = e_Term e ∧ L !! (length L - 1)%nat = Some e.
Proof. intros H. unfold last_term. rewrite H. split; [done|]. rewrite last_lookup in H. by rewrite Nat.sub_1_r. Qed.

Lemma elem_last_term r L e : r_inv r → matched r L → e ∈ L → e_Term e ≤ last_term L.
Proof.
  intros HI HL [i Hi]%list_elem_of_lookup. destruct (last L) as [e'|] eqn:E.
  - destruct (last_term_lookup _ _ E) as [-> Hl]. eapply (matched_sorted r L); [done..|].
    apply lookup_lt_Some in Hi. lia.
  - apply last_None in E. by subst.
Qed.

(** a non-empty log lies within the log of the leader of its last term *)
Lemma matched_last r L e : matched r L → last L = Some e →
  won r (last_term L) ∧ L `prefix_of` llog r (last_term L).
Proof.
  intros HL E. destruct (last_term_lookup _ _ E) as [-> Hl]. destruct (HL _ _ Hl) as [Hw HP].
  split; [done|]. rewrite take_ge in HP; [done|]. apply lookup_lt_Some in Hl. lia.
Qed.

(** a candidate as good as a log that keeps [P] keeps [P] as well *)
Lemma as_good_keeps r t P L C e :
  r_inv r → 0 ≤ t → matched r L → matched r C → P `prefix_of` L → e ∈ P → e_Term e = t →
  (∀ e', e' ∈ P → e_Term e' ≤ t) → as_good L C →
  (t < last_term C → won r (last_term C) → P `prefix_of` llog r (last_term C)) →
  P `prefix_of` C.
Proof.
  intros HI Ht HL HC HP He Het Hall Hgood IH.
  assert (t ≤ last_term L) as HtL.
  { rewrite <-Het. apply (elem_last_term r); [done..|]. by eapply prefix_elem. }
  assert (∃ eL, last L = Some eL) as [eL EL].
  { destruct (last L) eqn:E; [eauto|]. apply last_None in E. subst L. apply prefix_nil_inv in HP. subst P.
    by apply not_elem_of_nil in He. }
  assert (∃ eC, last C = Some eC) as [eC EC].
  { destruct (last C) eqn:E; [eauto|]. apply last_None in E. subst C. unfold as_good, last_term in Hgood.
    unfold last_term in HtL. simpl in *. destruct L; [done|]. simpl in *. lia. }
  destruct (matched_last _ _ _ HC EC) as [HwC HpC]. destruct Hgood as [Hlt|[Heq Hlen]].
  - specialize (IH ltac:(lia) HwC). destruct (prefix_weak_total _ _ _ IH HpC) as [|Hbad]; [done|].
    exfalso. destruct (last_term_lookup _ _ EC) as [HtC HlC].
    assert (e_Term eC ≤ t); [|lia]. apply Hall. eapply prefix_elem; [exact Hbad|].
    by eapply list_elem_of_lookup_2.
  - destruct (matched_last _ _ _ HL EL) as [_ HpL]. rewrite Heq in HpL.
    transitivity L; [done|]. by eapply prefix_common.
Qed.

Lemma quorums_meet Q Q' : commit_quorum Q → majority Q' → ∃ v, v ∈ Q ∧ v ∈ Q'.
Proof.
  intros (Hnd & Hlen & Hlt) (Hnd' & Hlen' & Hlt').
  destruct (decide (Exists (λ v, v ∈ Q') Q)) as [[v ?]%Exists_exists|Hno]; [eauto|exfalso].
  assert (length (Q ++ Q') ≤ n)%nat as Hl; [|rewrite length_app in Hl; lia].
  apply below_length.
  - apply NoDup_app. split; [done|]. split; [|done]. intros v ??. apply Hno, Exists_exists. eauto.
  - intros v [?|?]%elem_of_app; auto.
Qed.

(** leader completeness: what a leader committed is in the log of every leader
    of a later term *)
Lemma leader_complete r t k t' :
  r_inv r → (t, k) ∈ committed r → won r t' → t < t' → kept r t k (llog r t').
Proof.
  intros HI Hc. destruct (v_committed _ HI t k Hc) as (Hwt & Hk & (e & He & Het) & Q & HQ & Hack).
  assert (0 < t) as Ht0 by (destruct Hwt as (w & Hw & <-); by apply (v_leader _ HI w)).
  induction t' as [t' IH] using (well_founded_induction (Z.lt_wf t)). intros [w [Hw <-]] Hlt.
  destruct (v_wins _ HI w Hw) as (Hpre & Hm & Hwt' & HQ' & Hv).
  destruct (quorums_meet _ _ HQ HQ') as (v & HvQ & ((v' & L) & -> & HL)%list_elem_of_fmap). simpl in *.
  destruct (Hv _ _ HL) as (_ & HmL & Hgood).
  destruct (v_closed _ HI t v' k w L (Hack _ HvQ) Hw HL Hlt) as [Hkept|(t'' & ? & Hw'' & Hno)].
  - unfold kept in *. transitivity (w_log w); [|done].
    apply (as_good_keeps r t _ L _ e); try done; [lia| |].
    + intros e' He'. apply (v_lterms _ HI); [done|]. by eapply prefix_elem, He'; apply prefix_take.
    + intros Hlt' Hw'. apply IH; [|done|done]. split; [lia|].
      destruct (last (w_log w)) as [eC|] eqn:EC.
      * destruct (last_term_lookup _ _ EC) as [-> Hl]. apply Hwt'. by eapply list_elem_of_lookup_2.
      * unfold last_term in Hlt'. rewrite EC in Hlt'. simpl in Hlt'. lia.
  - exfalso. apply Hno. apply IH; [lia|done|lia].
Qed.

Lemma committed_kept r t k t' :
  r_inv r → (t, k) ∈ committed r → won r t' → t ≤ t' → kept r t k (llog r t').
Proof.
  intros HI Hc Hw Hle. destruct (decide (t = t')) as [<-|]; [apply prefix_take|].
  apply leader_complete; [done..|lia].
Qed.

(** what a peer holds committed is in the log of every leader from some term of
    the past on *)
Lemma commit_known r v : r_inv r → (0 < rcommit r v)%nat →
  ∃ t, won r t ∧ t ≤ rterm r v ∧ (rcommit r v ≤ length (rlog r v))%nat ∧
  ∀ t', won r t' → t ≤ t' → take (rcommit r v) (rlog r v) `prefix_of` llog r t'.
Proof.
  intros HI Hpos. destruct (v_commit _ HI v) as [?|(t & k & Hc & Ht & Hk & Hlen & HP)]; [lia|].
  destruct (v_committed _ HI t k Hc) as (Hw & Hkl & _). exists t. split_and!; [done..|].
  intros t' Hw' Hle. pose proof (committed_kept r t k t' HI Hc Hw' Hle) as Hkept.
  unfold kept in Hkept. transitivity (take k (llog r t)); [|done].
  eapply prefix_common; [done|apply prefix_take|]. rewrite !length_take. lia.
Qed.

(** two peers agree on what both hold committed *)
Lemma commits_agree r v w i : r_inv r → (i < rcommit r v)%nat → (i < rcommit r w)%nat →
  is_Some (rlog r v !! i) ∧ rlog r v !! i = rlog r w !! i.
Proof.
  intros HI Hv Hw.
  destruct (commit_known r v HI ltac:(lia)) as (t & Ht & _ & Hlv & Hv').
  destruct (commit_known r w HI ltac:(lia)) as (t' & Ht' & _ & Hlw & Hw').
  assert (∃ s, won r s ∧ t ≤ s ∧ t' ≤ s) as (s & Hs & H1 & H2).
  { destruct (decide (t ≤ t')); [exists t'|exists t]; split_and!; try done; lia. }
  assert (∀ u, (i < rcommit r u)%nat → (rcommit r u ≤ length (rlog r u))%nat →
    take (rcommit r u) (rlog r u) `prefix_of` llog r s → is_Some (rlog r u !! i) ∧ llog r s !! i = rlog r u !! i)
    as Hone.
  { intros u Hi Hl HP. destruct (lookup_lt_is_Some_2 (rlog r u) i) as [e He]; [lia|]. split; [eauto|].
    rewrite He. eapply prefix_lookup; [done|]. by rewrite lookup_take_lt. }
  destruct (Hone v Hv Hlv (Hv' s Hs H1)) as [? E1]. destruct (Hone w Hw Hlw (Hw' s Hs H2)) as [_ E2].
  split; [done|]. congruence.
Qed.

(** ** Every step keeps the invariant *)

(** what never happens: a win is forgotten or a leader's log loses entries; a
    leader adds entries of its own term *)
Definition grows r r' : Prop :=
  (∀ w, w ∈ wins r → w ∈ wins r') ∧
  (∀ t, won r t → ∃ E, llog r' t = llog r t ++ E ∧ ∀ e, e ∈ E → e_Term e = t).

Lemma grows_same r r' : wins r' = wins r → llog r' = llog r → grows r r'.
Proof. intros Hw Hl. split; [by rewrite Hw|]. intros t _. exists []. rewrite Hl, app_nil_r. split; [done|]. intros e He. by apply not_elem_of_nil in He. Qed.

Lemma won_grows r r' t : grows r r' → won r t → won r' t.
Proof. intros [Hg _] (w & Hw & ?). exists w. auto. Qed.

Lemma llog_grows r r' t : grows r r' → won r t → llog r t `prefix_of` llog r' t.
Proof. intros [_ Hg] Hw. destruct (Hg t Hw) as (E & -> & _). by eexists. Qed.

Lemma matched_grows r r' L : grows r r' → matched r L → matched r' L.
Proof.
  intros Hg HL i e Hi. destruct (HL i e Hi) as [Hw HP]. split; [by eapply won_grows|].
  etrans; [exact HP|]. by apply llog_grows.
Qed.

Lemma kept_grows r r' t k L : grows r r' → won r t → (k ≤ length (llog r t))%nat →
  kept r' t k L ↔ kept r t k L.
Proof. intros Hg Hw Hk. unfold kept. by rewrite (take_of_prefix k _ _ (llog_grows _ _ _ Hg Hw)). Qed.

Lemma lost_grows r r' t k hi : r_inv r → grows r r' → won r t → (k ≤ length (llog r t))%nat →
  lost r t k hi → lost r' t k hi.
Proof.
  intros HI Hg Hw Hk (t' & Ht' & Hw' & Hno). exists t'. split; [done|]. split; [by eapply won_grows|].
  rewrite kept_grows by done. intros Hkept. apply Hno. unfold kept in *.
  assert (∀ e, e ∈ take k (llog r t) → e_Term e ≤ t) as Hall.
  { intros e He. apply (v_lterms _ HI); [done|]. eapply prefix_elem, He. apply prefix_take. }
  destruct Hg as [_ Hg]. destruct (Hg t' Hw') as (E & HE & HEt). rewrite HE in Hkept.
  destruct (prefix_weak_total _ _ _ Hkept (prefix_app_r _ _ E (reflexivity (llog r t'))))
    as [|[[|e F] HF]]; [done|by rewrite HF, app_nil_r|exfalso].
  rewrite HF in Hkept, Hall. apply prefix_app_inv in Hkept.
  assert (e_Term e = t') by (apply HEt; eapply prefix_elem; [done|by left]).
  assert (e_Term e ≤ t); [|lia]. apply Hall. rewrite elem_of_app. right. by left.
Qed.

Lemma step_mono r r' : r_inv r → r_step r r' →
  grows r r' ∧ (∀ v, rterm r v ≤ rterm r' v) ∧ (∀ a, a ∈ stands r → a ∈ stands r')
  ∧ (∀ a, a ∈ votes r → a ∈ votes r') ∧ (∀ a, a ∈ acks r → a ∈ acks r')
  ∧ (∀ a, a ∈ committed r → a ∈ committed r').
Proof.
  intros HI Hst. split.
  - destruct Hst as [| | |x vs Hno| w e Hw Ht He| | | | |]; try by apply grows_same.
    + split; simpl; [by intros; right|]. intros t Hw. exists [].
      rewrite fn_lookup_insert_ne by (intros <-; done). rewrite app_nil_r. split; [done|set_solver].
    + split; simpl; [done|]. intros t _. destruct (decide (w_term w = t)) as [<-|].
      * exists [e]. rewrite fn_lookup_insert. split; [done|]. by intros e' ->%list_elem_of_singleton.
      * exists []. rewrite fn_lookup_insert_ne, app_nil_r by done. split; [done|set_solver].
  - destruct Hst as [v t|v| | | | | | | |]; simpl; split_and!; try done; try (by intros; right); intros v';
      at_node v v'; lia.
Qed.

(** *** The parts of the invariant, one lemma each *)

Lemma matched_snoc r L e : matched r L → won r (e_Term e) →
  L ++ [e] `prefix_of` llog r (e_Term e) → matched r (L ++ [e]).
Proof.
  intros HL Hw HP i e' Hi. apply lookup_app_Some in Hi as [Hi|[Hge Hi]].
  - rewrite take_app_le by (apply lookup_lt_Some in Hi; lia). by apply HL.
  - apply list_lookup_singleton_Some in Hi as [Hi <-]. split; [done|].
    rewrite take_ge; [done|]. rewrite length_app. simpl. lia.
Qed.

Lemma won_cons r w0 : ∀ t, (∃ w, w ∈ w0 :: wins r ∧ w_term w = t) → w_term w0 = t ∨ won r t.
Proof. intros t (w & [->|Hw]%elem_of_cons & Ht); [by left|right; by exists w]. Qed.

Lemma won_term r t : r_inv r → won r t → 0 < t.
Proof. intros HI (w & Hw & <-). by apply (v_leader _ HI). Qed.

Section preserve.
Context r r' (HI : r_inv r) (Hst : r_step r r').

#[local] Ltac mono := destruct (step_mono r r' HI Hst) as (Hgr & Htm & Hsm & Hvm & Ham & Hcm).

Lemma st_pos v : 0 ≤ rterm r' v.
Proof. mono. pose proof (v_pos _ HI v). specialize (Htm v). lia. Qed.

Lemma st_lmatched t : won r' t → matched r' (llog r' t).
Proof.
  mono. assert (won r t → matched r' (llog r t)) as Hold.
  { intros. by apply (matched_grows r), (v_lmatched _ HI). }
  destruct Hst as [| | |x vs Hno| w e Hw Ht He| | | | |]; simpl; try exact Hold.
  - intros [<-|Hw]%won_cons; simpl; [rewrite fn_lookup_insert|].
    + apply (matched_grows r); [done|]. apply (v_matched _ HI).
    + rewrite fn_lookup_insert_ne by (intros <-; done). by apply Hold.
  - intros Hwt. specialize (Hold Hwt). destruct (decide (w_term w = t)) as [<-|];
      [rewrite fn_lookup_insert|by rewrite fn_lookup_insert_ne].
    apply matched_snoc; [done|by rewrite He|]. simpl. by rewrite He, fn_lookup_insert.
Qed.

Lemma st_matched v : matched r' (rlog r' v).
Proof.
  mono. assert (matched r' (rlog r v)) as Hold by (by apply (matched_grows r), (v_matched _ HI)).
  destruct Hst as [| | |x vs Hno| w e Hw Ht He| |v' m Hw| | |]; simpl; try exact Hold.
  - destruct (decide (w_peer w = v)) as [<-|]; [rewrite fn_lookup_insert|by rewrite fn_lookup_insert_ne].
    destruct (v_leader _ HI w Hw) as [_ Hl]. apply matched_snoc; [done|rewrite He; by exists w|].
    simpl. by rewrite He, fn_lookup_insert, Hl.
  - destruct (decide (v' = v)) as [<-|]; [rewrite fn_lookup_insert|by rewrite fn_lookup_insert_ne].
    apply (matched_grows r); [done|]. eapply matched_prefix; [by apply (v_lmatched _ HI)|apply prefix_take].
Qed.

Lemma st_lterms t e : won r' t → e ∈ llog r' t → e_Term e ≤ t.
Proof.
  pose proof (v_lterms _ HI t e) as Hold.
  destruct Hst as [| | |x vs Hno| w e' Hw Ht He| | | | |]; simpl; try exact Hold.
  - intros [<-|Hw]%won_cons; simpl; [rewrite fn_lookup_insert; apply (v_terms _ HI)|].
    rewrite fn_lookup_insert_ne by (intros <-; done). by apply Hold.
  - intros Hwt. destruct (decide (w_term w = t)) as [<-|];
      [rewrite fn_lookup_insert|rewrite fn_lookup_insert_ne by done; by apply Hold].
    intros [?| ->%list_elem_of_singleton]%elem_of_app; [by apply Hold|lia].
Qed.

Lemma st_terms v e : e ∈ rlog r' v → e_Term e ≤ rterm r' v.
Proof.
  mono. pose proof (v_terms _ HI v e) as Hold. specialize (Htm v).
  destruct Hst as [| | |x vs Hno| w e' Hw Ht He| |v' m Hw| | |]; simpl in *; try (intros; etrans; [by apply Hold|done]).
  - destruct (decide (w_peer w = v)) as [<-|];
      [rewrite fn_lookup_insert|rewrite fn_lookup_insert_ne by done; exact Hold].
    intros [?| ->%list_elem_of_singleton]%elem_of_app; [by apply Hold|lia].
  - destruct (decide (v' = v)) as [<-|]; [rewrite fn_lookup_insert|by rewrite fn_lookup_insert_ne].
    intros ?. apply (v_lterms _ HI); [done|]. eapply prefix_elem; [apply prefix_take|done].
Qed.

Lemma st_stands t x L : (t, x, L) ∈ stands r' →
  0 < t ≤ rterm r' x ∧ matched r' L ∧ (∀ e, e ∈ L → e_Term e < t).
Proof.
  mono. assert ((t, x, L) ∈ stands r → 0 < t ≤ rterm r' x ∧ matched r' L ∧ (∀ e, e ∈ L → e_Term e < t)) as Hold.
  { intros Hin. destruct (v_stands _ HI t x L Hin) as (? & ? & ?). specialize (Htm x).
    split; [lia|]. split; [by apply (matched_grows r)|done]. }
  destruct Hst as [|v t'| | | | | | | |]; simpl; try exact Hold.
  intros [[= -> -> ->]|Hin]%elem_of_cons; [|by apply Hold].
  rewrite fn_lookup_insert. subst t'. split; [pose proof (v_pos _ HI v); lia|]. split.
  - apply (matched_grows r); [done|]. apply (v_matched _ HI).
  - intros e He. apply (v_terms _ HI) in He. lia.
Qed.

Lemma st_once t x L L' : (t, x, L) ∈ stands r' → (t, x, L') ∈ stands r' → L = L'.
Proof.
  pose proof (v_once _ HI t x L L') as Hold.
  destruct Hst as [|v t'| | | | | | | |]; simpl; try exact Hold. subst t'.
  assert (∀ L, (rterm r v + 1, v, L) ∉ stands r) as Hnew.
  { intros L0 Hin. destruct (v_stands _ HI _ _ _ Hin) as [? _]. lia. }
  intros Hin Hin'. apply elem_of_cons in Hin as [Hin|Hin], Hin' as [Hin'|Hin']; simplify_eq;
    [done|by destruct (Hnew L')|by destruct (Hnew L)|by apply Hold].
Qed.

Lemma st_votes t v x L : (t, v, x, L) ∈ votes r' →
  t ≤ rterm r' v ∧ matched r' L ∧ ∃ clog, (t, x, clog) ∈ stands r' ∧ as_good L clog.
Proof.
  mono. assert ((t, v, x, L) ∈ votes r →
    t ≤ rterm r' v ∧ matched r' L ∧ ∃ clog, (t, x, clog) ∈ stands r' ∧ as_good L clog) as Hold.
  { intros Hin. destruct (v_votes _ HI t v x L Hin) as (? & ? & clog & ? & ?). specialize (Htm v).
    split_and!; [lia|by apply (matched_grows r)|eauto]. }
  destruct Hst as [|v' t'|v' x' clog Hin Hgood| | | | | | |]; simpl; try exact Hold;
    (intros [[= -> -> -> ->]|?]%elem_of_cons; [|by apply Hold]).
  - rewrite fn_lookup_insert. subst t'. split; [done|]. split.
    + apply (matched_grows r); [done|]. apply (v_matched _ HI).
    + exists (rlog r v'). split; [by left|right; by split].
  - split; [done|]. split; [|by exists clog].
    apply (matched_grows r); [done|]. apply (v_matched _ HI).
Qed.

Lemma st_unique w w' : w ∈ wins r' → w' ∈ wins r' → w_term w = w_term w' → w = w'.
Proof.
  pose proof (v_unique _ HI w w') as Hold.
  destruct Hst as [| | |x vs Hno| | | | | |]; simpl; try exact Hold.
  intros Hw Hw'. apply elem_of_cons in Hw as [->|Hw], Hw' as [->|Hw']; simpl; [done| | |by apply Hold];
    intros Ht; destruct Hno; [by exists w'|by exists w].
Qed.

Lemma st_leader w : w ∈ wins r' → 0 < w_term w ≤ rterm r' (w_peer w)
  ∧ (rterm r' (w_peer w) = w_term w → rlog r' (w_peer w) = llog r' (w_term w)).
Proof.
  mono. pose proof (v_leader _ HI w) as Hold.
  assert (w ∈ wins r → 0 < w_term w ≤ rterm r' (w_peer w)) as Hpos.
  { intros Hw. destruct (Hold Hw). specialize (Htm (w_peer w)). lia. }
  destruct Hst as [v t|v t'|v x clog Hin Hgood|x vs Hno Hin| w0 e Hw0 Ht He|v m Hw|v m Hw Hm Hne|t k e Q|v c t k|v];
    simpl in *; try exact Hold.
  - intros Hw. split; [by apply Hpos|]. destruct (Hold Hw) as [? Hl]. destruct (decide (v = w_peer w)) as [->|];
      [rewrite fn_lookup_insert in *|by rewrite fn_lookup_insert_ne].
    intros ->. apply Hl. lia.
  - intros Hw. split; [by apply Hpos|]. destruct (Hold Hw) as [? Hl]. destruct (decide (v = w_peer w)) as [->|];
      [rewrite fn_lookup_insert in *|by rewrite fn_lookup_insert_ne].
    subst t'. intros; lia.
  - intros [->|Hw]%elem_of_cons; simpl.
    + rewrite fn_lookup_insert. split; [|done]. destruct (v_stands _ HI _ _ _ Hin) as (? & _). lia.
    + rewrite fn_lookup_insert_ne; [by apply Hold|]. intros Heq. destruct Hno. by exists w.
  - intros Hw. split; [by apply Hpos|]. intros Hcur. destruct (Hold Hw) as [_ Hl].
    destruct (decide (w_term w0 = w_term w)) as [Heq|Hne].
    + assert (w = w0) as -> by (by apply (v_unique _ HI)). by rewrite !fn_lookup_insert, Hl.
    + rewrite !fn_lookup_insert_ne by congruence. by apply Hl.
  - intros Hw'. destruct (Hold Hw') as [? Hl]. split; [done|]. destruct (decide (v = w_peer w)) as [->|];
      [rewrite fn_lookup_insert in *|by rewrite fn_lookup_insert_ne].
    intros Hcur. destruct Hne. rewrite Hl by done. rewrite Hcur. apply prefix_take.
Qed.

Lemma st_wins w : w ∈ wins r' → w_log w `prefix_of` llog r' (w_term w) ∧ matched r' (w_log w)
  ∧ (∀ e, e ∈ w_log w → e_Term e < w_term w) ∧ majority (w_votes w).*1
  ∧ ∀ v L, (v, L) ∈ w_votes w → w_term w ≤ rterm r' v ∧ matched r' L ∧ as_good L (w_log w).
Proof.
  mono. assert (w ∈ wins r → w_log w `prefix_of` llog r' (w_term w) ∧ matched r' (w_log w)
    ∧ (∀ e, e ∈ w_log w → e_Term e < w_term w) ∧ majority (w_votes w).*1
    ∧ ∀ v L, (v, L) ∈ w_votes w → w_term w ≤ rterm r' v ∧ matched r' L ∧ as_good L (w_log w)) as Hold.
  { intros Hw. destruct (v_wins _ HI w Hw) as (HP & Hm & Ht & Hmaj & Hv). split_and!; [|by apply (matched_grows r)|done..|].
    - etrans; [exact HP|]. apply llog_grows; [done|by exists w].
    - intros v L Hin. destruct (Hv v L Hin) as (? & ? & ?). specialize (Htm v).
      split_and!; [lia|by apply (matched_grows r)|done]. }
  destruct Hst as [| | |x vs Hno Hin Hmaj Hvs| | | | | |]; simpl; try exact Hold.
  intros [->|Hw]%elem_of_cons; [|by apply Hold]. simpl. rewrite fn_lookup_insert.
  destruct (v_stands _ HI _ _ _ Hin) as (_ & Hm & Ht).
  split_and!; [done|by apply (matched_grows r)|done..|].
  intros v L HvL. destruct (v_votes _ HI _ _ _ _ (Hvs _ _ HvL)) as (? & ? & clog & Hc & ?).
  rewrite (v_once _ HI _ _ _ _ Hc Hin) in *. split_and!; [done|by apply (matched_grows r)|done].
Qed.

(** a step that acknowledges something new does only that *)
Lemma acked_new t v k : acked r' t v k → acked r t v k
  ∨ (t = rterm r v ∧ won r t ∧ (k ≤ length (llog r t))%nat ∧ kept r t k (rlog r' v)
     ∧ wins r' = wins r ∧ llog r' = llog r ∧ rterm r' = rterm r ∧ votes r' = votes r).
Proof.
  intros (m' & Hk & Hin).
  assert ((t, v, m') ∈ acks r → acked r t v k) as Hold by (intros; by exists m').
  assert (∀ m L, (k ≤ m)%nat → take m (llog r t) `prefix_of` L → kept r t k L) as Hkept.
  { intros m L Hle HP. unfold kept. etrans; [|exact HP]. replace k with (k `min` m)%nat by lia.
    rewrite <-take_take. apply prefix_take. }
  destruct Hst as [| | | | |v' m Hw Hm HP|v' m Hw Hm HP| | |]; simpl in *; auto;
    (apply elem_of_cons in Hin as [[= -> -> ->]|]; [right|by auto]); split_and!; try done; try lia.
  - by eapply Hkept.
  - rewrite fn_lookup_insert. by eapply Hkept.
Qed.

(** prefixes of leaders' logs can be compared by the terms of their entries *)
Lemma matched_prefix_dec r0 A B : matched r0 A → matched r0 B → A `prefix_of` B ∨ ¬ A `prefix_of` B.
Proof.
  intros HA HB. destruct (last A) as [e|] eqn:E.
  - destruct (last_term_lookup _ _ E) as [_ Hl]. destruct (B !! (length A - 1)%nat) as [e'|] eqn:E'.
    + destruct (decide (e_Term e = e_Term e')) as [Ht|Hne].
      * left. pose proof (matched_common _ _ _ _ _ _ HA HB Hl E' Ht) as Heq.
        rewrite take_ge in Heq by lia. rewrite Heq. apply prefix_take.
      * right. intros HP. pose proof (prefix_lookup _ _ _ _ HP Hl). congruence.
    + right. intros HP. pose proof (prefix_lookup _ _ _ _ HP Hl). congruence.
  - apply last_None in E. subst. left. apply prefix_nil.
Qed.

Lemma kept_step t v k : t ≤ rterm r v → won r t → (k ≤ length (llog r t))%nat → kept r t k (rlog r v) →
  kept r' t k (rlog r' v) ∨ lost r' t k (rterm r' v + 1).
Proof.
  mono. intros Ht Hw Hk Hkept. rewrite (kept_grows r) by done. unfold kept in *.
  destruct Hst as [| | |x vs Hno| w e' Hw' Ht' He| |v' m Hw' Hm Hno| | |]; simpl in *; try (by left).
  - left. destruct (decide (w_peer w = v)) as [<-|];
      [rewrite fn_lookup_insert|by rewrite fn_lookup_insert_ne]. by apply prefix_app_r.
  - destruct (decide (v' = v)) as [->|]; [rewrite fn_lookup_insert|left; by rewrite fn_lookup_insert_ne].
    assert (take k (llog r t) `prefix_of` llog r (rterm r v) →
            take k (llog r t) `prefix_of` take m (llog r (rterm r v))) as Hcut.
    { intros HP. destruct (prefix_weak_total _ _ _ HP (prefix_take _ m)) as [|Hbad]; [done|].
      destruct Hno. by etrans. }
    destruct (matched_prefix_dec r (take k (llog r t)) (llog r (rterm r v))) as [HP|Hbad].
    + apply (matched_prefix _ _ (llog r t)); [by apply (v_lmatched _ HI)|apply prefix_take].
    + by apply (v_lmatched _ HI).
    + left. by apply Hcut.
    + right. exists (rterm r v). split; [|split; [done|done]].
      destruct (decide (t = rterm r v)) as [->|]; [|lia]. destruct Hbad. apply prefix_take.
Qed.

Lemma lost_mono t k hi hi' : hi ≤ hi' → won r t → (k ≤ length (llog r t))%nat → lost r t k hi → lost r' t k hi'.
Proof.
  mono. intros Hhi Hw Hk Hl. apply (lost_grows r r') in Hl; [|done..].
  destruct Hl as (t' & ? & Hl). exists t'. split; [lia|done].
Qed.

Lemma st_acks t v k : acked r' t v k → t ≤ rterm r' v ∧ won r' t ∧ (k ≤ length (llog r' t))%nat
  ∧ (kept r' t k (rlog r' v) ∨ lost r' t k (rterm r' v + 1)).
Proof.
  mono. intros [Ha|(-> & Hw & Hk & Hkept & E1 & E2 & E3 & _)]%acked_new.
  - destruct (v_acks _ HI t v k Ha) as (Ht & Hw & Hk & Hor). specialize (Htm v).
    split; [lia|]. split; [by apply (won_grows r)|]. split.
    + etrans; [exact Hk|]. by apply prefix_length, llog_grows.
    + destruct Hor as [|Hl]; [by apply kept_step|]. right. by apply (lost_mono _ _ (rterm r v + 1)); [lia|..].
  - unfold won, kept. rewrite E1, E2, E3. split_and!; [lia|done|done|]. left. exact Hkept.
Qed.

Lemma st_open t v k t' x L : acked r' t v k → (t', v, x, L) ∈ votes r' → t < t' → ¬ won r' t' →
  kept r' t k L ∨ lost r' t k t'.
Proof.
  mono. intros [Ha|(-> & Hw & Hk & Hkept & E1 & E2 & E3 & E4)]%acked_new Hin Hlt Hno.
  - destruct (v_acks _ HI t v k Ha) as (_ & Hw & Hk & Hor). rewrite (kept_grows r) by done.
    assert (¬ won r t') as Hno' by (intros ?; by apply Hno, (won_grows r)).
    assert ((t', v, x, L) ∈ votes r → kept r t k L ∨ lost r' t k t') as Hold.
    { intros Hin'. destruct (v_open _ HI _ _ _ _ _ _ Ha Hin' Hlt Hno') as [|Hl]; [by left|right].
      by apply (lost_mono _ _ t'). }
    pose proof (lost_mono t k t' t' (reflexivity _) Hw Hk) as Hlm.
    destruct Hst as [|v' T|v' x' clog Hc Hgood| | | | | | |]; simpl in *; try (by apply Hold);
      (apply elem_of_cons in Hin as [[= -> -> -> ->]|]; [|by apply Hold]);
      (destruct Hor as [|(t'' & ? & Hw'' & ?)]; [by left|right; apply Hlm]).
    + exists t''. split; [lia|done].
    + exists t''. split; [|done]. split; [lia|]. destruct (decide (t'' = rterm r v')) as [->|]; [done|lia].
  - exfalso. rewrite E4 in Hin. destruct (v_votes _ HI _ _ _ _ Hin) as [? _]. lia.
Qed.

Lemma st_closed t v k w L : acked r' t v k → w ∈ wins r' → (v, L) ∈ w_votes w → t < w_term w →
  kept r' t k L ∨ lost r' t k (w_term w).
Proof.
  mono. intros [Ha|(-> & Hw & Hk & Hkept & E1 & E2 & E3 & E4)]%acked_new Hin HvL Hlt.
  - destruct (v_acks _ HI t v k Ha) as (_ & Hw & Hk & _). rewrite (kept_grows r) by done.
    pose proof (lost_mono t k (w_term w) (w_term w) (reflexivity _) Hw Hk) as Hlm.
    assert (w ∈ wins r → kept r t k L ∨ lost r' t k (w_term w)) as Hold.
    { intros Hin'. destruct (v_closed _ HI _ _ _ _ _ Ha Hin' HvL Hlt); auto. }
    destruct Hst as [| | |x vs Hno Hc Hmaj Hvs| | | | | |]; simpl in *; try (by apply Hold).
    apply elem_of_cons in Hin as [->|]; [|by apply Hold]. simpl in *.
    destruct (v_open _ HI _ _ _ _ _ _ Ha (Hvs _ _ HvL) Hlt Hno); auto.
  - exfalso. rewrite E1 in Hin. destruct (v_wins _ HI w Hin) as (_ & _ & _ & _ & Hv).
    destruct (Hv v L HvL) as [? _]. lia.
Qed.

Lemma acked_mono t v k : acked r t v k → acked r' t v k.
Proof. mono. intros (m & ? & ?). exists m. auto. Qed.

Lemma st_committed t k : (t, k) ∈ committed r' → won r' t ∧ (k ≤ length (llog r' t))%nat
  ∧ (∃ e, e ∈ take k (llog r' t) ∧ e_Term e = t)
  ∧ ∃ Q, commit_quorum Q ∧ ∀ v, v ∈ Q → acked r' t v k.
Proof.
  mono. pose proof acked_mono as Hack.
  assert ((t, k) ∈ committed r → won r' t ∧ (k ≤ length (llog r' t))%nat
    ∧ (∃ e, e ∈ take k (llog r' t) ∧ e_Term e = t) ∧ ∃ Q, commit_quorum Q ∧ ∀ v, v ∈ Q → acked r' t v k) as Hold.
  { intros Hin. destruct (v_committed _ HI t k Hin) as (Hw & Hk & He & Q & HQ & Ha).
    pose proof (llog_grows _ _ _ Hgr Hw) as HP. split; [by apply (won_grows r)|]. split.
    - etrans; [exact Hk|by apply prefix_length].
    - split; [by rewrite (take_of_prefix _ _ _ HP)|eauto]. }
  destruct Hst as [| | | | | | |t' k' e Q Hw Hk He HQ Ha| |]; simpl in *; try exact Hold.
  intros [[= -> ->]|?]%elem_of_cons; [|by apply Hold]. split; [done|]. split; [by eapply lookup_lt_Some|].
  split.
  - exists e. split; [|done]. apply (list_elem_of_lookup_2 _ k'). rewrite lookup_take_lt; [done|lia].
  - exists Q. split; [done|]. intros v Hv. destruct (Ha v Hv) as (m & ? & ?). exists m. split; [lia|done].
Qed.

(** what a peer holds committed stays in its log *)
Lemma commit_stable v : take (rcommit r v) (rlog r v) `prefix_of` rlog r' v.
Proof.
  destruct Hst as [| | | | w e Hw Ht He| |v' m Hw Hm Hno| | |]; simpl; try apply prefix_take.
  - destruct (decide (w_peer w = v)) as [<-|]; [rewrite fn_lookup_insert|rewrite fn_lookup_insert_ne by done].
    + apply prefix_app_r, prefix_take.
    + apply prefix_take.
  - destruct (decide (v' = v)) as [->|]; [rewrite fn_lookup_insert|rewrite fn_lookup_insert_ne by done; apply prefix_take].
    destruct (decide (rcommit r v = O)) as [->|]; [apply prefix_nil|].
    destruct (commit_known r v HI ltac:(lia)) as (t & _ & Ht & _ & Hall).
    destruct (prefix_weak_total _ _ _ (Hall _ Hw Ht) (prefix_take _ m)) as [|Hbad]; [done|].
    destruct Hno. etrans; [exact Hbad|apply prefix_take].
Qed.

Lemma st_commit v : rcommit r' v = O ∨ ∃ t k, (t, k) ∈ committed r' ∧ t ≤ rterm r' v ∧ (rcommit r' v ≤ k)%nat
    ∧ (rcommit r' v ≤ length (rlog r' v))%nat ∧ take (rcommit r' v) (rlog r' v) `prefix_of` llog r' t.
Proof.
  mono. pose proof (commit_stable v) as Hs.
  assert (rcommit r' v = rcommit r v → rcommit r' v = O ∨ ∃ t k, (t, k) ∈ committed r' ∧ t ≤ rterm r' v
    ∧ (rcommit r' v ≤ k)%nat ∧ (rcommit r' v ≤ length (rlog r' v))%nat
    ∧ take (rcommit r' v) (rlog r' v) `prefix_of` llog r' t) as Hold.
  { intros ->. destruct (v_commit _ HI v) as [->|(t & k & Hc & Ht & Hk & Hlen & HP)]; [by left|right].
    specialize (Htm v). pose proof (prefix_length _ _ Hs) as Hl. rewrite length_take in Hl.
    pose proof (take_of_prefix (rcommit r v) _ _ Hs) as Heq. rewrite length_take, take_take, Nat.min_id in Heq.
    exists t, k. split; [by apply Hcm|]. split; [lia|]. split; [done|]. split; [lia|].
    rewrite Heq by lia. etrans; [exact HP|]. apply llog_grows; [done|]. by apply (v_committed _ HI t k). }
  destruct Hst as [| | | | | | | |v' c t k Hc Ht Hk Hlen HP Hle|v']; simpl in *; try (by apply Hold).
  - destruct (decide (v' = v)) as [->|]; [rewrite fn_lookup_insert in *|by rewrite fn_lookup_insert_ne in *; auto].
    right. by exists t, k.
  - destruct (decide (v' = v)) as [->|]; [rewrite fn_lookup_insert in *; by left|].
    rewrite fn_lookup_insert_ne in * by done. auto.
Qed.
End preserve.

Lemma r_step_inv r r' : r_inv r → r_step r r' → r_inv r'.
Proof.
  intros HI Hst. split;
    [eapply st_pos|eapply st_matched|eapply st_terms|eapply st_lmatched|eapply st_lterms|eapply st_stands
    |eapply st_once|eapply st_votes|eapply st_unique|eapply st_leader|eapply st_wins|eapply st_acks
    |eapply st_open|eapply st_closed|eapply st_committed|eapply st_commit]; done.
Qed.

Lemma r_init_inv : r_inv r_init.
Proof.
  assert (∀ t, ¬ won r_init t) as Hno by (by intros t (w & ?%not_elem_of_nil & _)).
  assert (∀ t v k, ¬ acked r_init t v k) as Hna by (by intros t v k (m & _ & ?%not_elem_of_nil)).
  split; try (intros; exfalso; by eapply Hno); try (intros; exfalso; by eapply Hna); simpl;
    try done; try set_solver; by left.
Qed.

Lemma r_reachable_inv r : r_reachable r → r_inv r.
Proof. apply invariant_reachable; [intros ? <-; apply r_init_inv|apply r_step_inv]. Qed.
End replication.
