(* ===== verification/RaftReplication.v ===== *)
(** * The peers implement abstract log replication

    A simulation between runs of the cluster of RaftCluster.v without snapshots
    and the abstract replication of Replication.v, for runs in which no term has
    two leaders: every run of an even number of peers is one, and for an odd
    number the runs in which a leader does not vote for a rival.  From it: log
    matching, leader completeness and state machine safety. *)

From stdpp Require Import functions.
From S2P Require Import Prelude RaftNode RaftFacts RaftCluster Election RaftElection RaftLog RaftSafety.
From S2P Require Import RaftParts Replication.
Local Open Scope Z_scope.

(** ** Counting *)

Lemma filter_split_length {A} (P : A → Prop) `{∀ x, Decision (P x)} (l : list A) :
  (length (filter P l) + length (filter (λ x, ¬ P x) l) = length l)%nat.
Proof.
  induction l as [|x l IH]; [done|]. destruct (decide (P x)).
  - rewrite filter_cons_True, filter_cons_False by naive_solver. simpl. lia.
  - rewrite filter_cons_False, filter_cons_True by naive_solver. simpl. lia.
Qed.

(** the peers whose match index reaches the median are enough to commit *)
Lemma median_quorum (l : list Z) m :
  merge_sort Z.le l !! (length l / 2)%nat = Some m →
  ∃ Q, commit_quorum (length l) Q ∧ ∀ j, j ∈ Q → ∃ v, l !! j = Some v ∧ m ≤ v.
Proof.
  intros Hm. set (P := λ j : nat, m ≤ default (m - 1) (l !! j)).
  assert (∀ j, Decision (P j)) by (intros j; unfold P; apply _).
  exists (filter P (seq 0 (length l))). split; [split_and!|].
  - apply NoDup_filter, NoDup_seq.
  - pose proof (filter_split_length P (seq 0 (length l))) as Hs. rewrite length_seq in Hs.
    set (Qc := filter (λ j, ¬ P j) (seq 0 (length l))) in *.
    destruct (decide (length l / 2 < length Qc)%nat) as [Hlt|]; [|lia]. exfalso.
    destruct (median_majority l m Qc Hm) as (j & v & Hj & Hv & Hle); [apply NoDup_filter, NoDup_seq| |done|].
    + intros j [_ Hj]%list_elem_of_filter. apply elem_of_seq in Hj. lia.
    + apply list_elem_of_filter in Hj as [Hj _]. apply Hj. unfold P. by rewrite Hv.
  - intros v [_ Hv]%list_elem_of_filter. apply elem_of_seq in Hv. lia.
  - intros j [HP Hj]%list_elem_of_filter. unfold P in HP. destruct (l !! j) as [v|] eqn:E; simpl in HP; [eauto|].
    lia.
Qed.

Lemma list_choice {A B} (P : A → B → Prop) (l : list A) :
  (∀ a, a ∈ l → ∃ b, P a b) → ∃ ps : list (A * B), ps.*1 = l ∧ ∀ a b, (a, b) ∈ ps → P a b.
Proof.
  induction l as [|a l IH]; intros Hl.
  - exists []. split; [done|]. by intros ?? ?%not_elem_of_nil.
  - destruct (Hl a) as [b Hb]; [by left|]. destruct IH as (ps & <- & Hps); [intros; apply Hl; by right|].
    exists ((a, b) :: ps). split; [done|]. intros a' b' [[= -> ->]|?]%elem_of_cons; auto.
Qed.

Section refinement.
Context {Cmd Snap : Type}.
Implicit Types (rf : Raft Cmd Snap) (c : cluster Cmd Snap) (cl : call Cmd Snap) (r : @rstate Cmd).
Variable n : nat.

(** ** What the steps of one peer leave to the others *)

Lemma grows_trans r1 r2 r3 : grows r1 r2 → grows r2 r3 → grows r1 r3.
Proof.
  intros Hg [Hw2 Hl2]. pose proof Hg as [Hw1 Hl1]. split; [auto|].
  intros t Hw. destruct (Hl1 t Hw) as (E1 & HE1 & Ht1).
  destruct (Hl2 t (won_grows _ _ _ Hg Hw)) as (E2 & HE2 & Ht2).
  exists (E1 ++ E2). rewrite HE2, HE1, app_assoc. split; [done|].
  intros e [?|?]%elem_of_app; auto.
Qed.

(** history only grows, and only peer [i] changes *)
Record only (i : nat) r r' : Prop := {
  o_grows : grows r r';
  o_stands : ∀ a, a ∈ stands r → a ∈ stands r';
  o_votes : ∀ a, a ∈ votes r → a ∈ votes r';
  o_acks : ∀ a, a ∈ acks r → a ∈ acks r';
  o_committed : ∀ a, a ∈ committed r → a ∈ committed r';
  o_others : ∀ j, j ≠ i → rterm r' j = rterm r j ∧ rlog r' j = rlog r j ∧ rcommit r' j = rcommit r j
             ∧ ∀ w, w ∈ wins r' → w_peer w = j → w ∈ wins r
}.

Lemma only_refl i r : only i r r.
Proof. split; try done. by apply grows_same. Qed.

Lemma only_trans i r1 r2 r3 : only i r1 r2 → only i r2 r3 → only i r1 r3.
Proof.
  intros H1 H2. split; try (intros; by apply H2, H1).
  - eapply grows_trans; [apply H1|apply H2].
  - intros j Hj. destruct (o_others _ _ _ H2 j Hj) as (-> & -> & -> & Hw2).
    destruct (o_others _ _ _ H1 j Hj) as (-> & -> & -> & Hw1). split_and!; try done. auto.
Qed.

(** steps of the abstract machine at peer [i] *)
Definition at_peer (i : nat) r r' : Prop := r_step n r r' ∧ only i r r'.

Lemma at_peer_intro i r r' : r_inv n r → r_step n r r' →
  (∀ j, j ≠ i → rterm r' j = rterm r j ∧ rlog r' j = rlog r j ∧ rcommit r' j = rcommit r j
     ∧ ∀ w, w ∈ wins r' → w_peer w = j → w ∈ wins r) → at_peer i r r'.
Proof.
  intros HI Hst Ho. destruct (step_mono n r r' HI Hst) as (? & _ & ? & ? & ? & ?). split; [done|]. by split.
Qed.

Definition moves (i : nat) r r' : Prop := rtc (r_step n) r r' ∧ only i r r'.

Lemma moves_refl i r : moves i r r.
Proof. split; [done|apply only_refl]. Qed.
Lemma moves_l i r1 r2 r3 : at_peer i r1 r2 → moves i r2 r3 → moves i r1 r3.
Proof. intros [? ?] [? ?]. split; [by eapply rtc_l|by eapply only_trans]. Qed.
Lemma moves_once i r1 r2 : at_peer i r1 r2 → moves i r1 r2.
Proof. intros. eapply moves_l; [done|apply moves_refl]. Qed.
Lemma moves_inv i r r' : r_inv n r → moves i r r' → r_inv n r'.
Proof. intros HI [Hst _]. induction Hst; eauto using r_step_inv. Qed.

(** ** The relation *)

(** a peer whose log is [L] and whose snapshot covers the first [s] entries of
    it: the entries behind them are kept, position 0 stands for the last of
    those covered *)
Record holds (L : list (LogEntry Cmd)) (s : nat) rf : Prop := {
  h_index : snapshotIndex rf = Z.of_nat s;
  h_le : (s ≤ length L)%nat;
  h_logs : ∃ h, logs rf = h :: drop s L ∧ e_Term h = last_term (take s L)
}.

Record node_rel r (i : nat) rf : Prop := {
  n_term : currentTerm rf = rterm r i;
  n_held : ∃ s, (s ≤ rcommit r i)%nat ∧ holds (rlog r i) s rf;
  n_commit : commitIndex rf = Z.of_nat (rcommit r i);
  n_applied : snapshotIndex rf ≤ lastApplied rf ≤ commitIndex rf;
  n_vote : ∀ x, voteFor rf = Z.of_nat x → ∃ L, (currentTerm rf, i, x, L) ∈ votes r;
  n_cand : raftState rf = RaftCandidate → won r (currentTerm rf)
    ∨ (currentTerm rf, i, rlog r i) ∈ stands r ∧ (currentTerm rf, i, i, rlog r i) ∈ votes r;
  n_lead : raftState rf = RaftLeader →
    (∃ w, w ∈ wins r ∧ w_term w = currentTerm rf ∧ w_peer w = i) ∧ length (matchIndex rf) = n
    ∧ ∀ j m, matchIndex rf !! j = Some m → j ≠ i → 0 < m → acked r (currentTerm rf) j (Z.to_nat m);
  n_once : ∀ w, w ∈ wins r → w_peer w = i → w_term w = currentTerm rf → raftState rf ≠ RaftCandidate
}.

(** the first [k] entries of the leader of [t] were committed by the term [t] *)
Definition backed r t k : Prop :=
  k = O ∨ ∃ t' k', (t', k') ∈ committed r ∧ t' ≤ t ∧ (k ≤ k')%nat ∧ take k (llog r t) `prefix_of` llog r t'.

(** a request carries a part of the log of the leader of its term, up to length
    [m], and a commit index covered by what was committed *)
Definition carries r t (args : AppendEntriesArgs Cmd) (p m : nat) : Prop :=
  PrevLogIndex args = Z.of_nat p ∧ (p ≤ m)%nat ∧ (m ≤ length (llog r t))%nat
  ∧ Entries args = drop p (take m (llog r t)) ∧ PrevLogTerm args = last_term (take p (llog r t))
  ∧ ∃ lc, LeaderCommit args = Z.of_nat lc ∧ (lc ≤ m)%nat ∧ backed r t lc.

(** a snapshot stands for the first [m] entries of the leader's log, which are
    committed *)
Definition covers r t (args : InstallSnapshotArgs Snap) (m : nat) : Prop :=
  LastIncludedIndex args = Z.of_nat m ∧ (m ≤ length (llog r t))%nat
  ∧ LastIncludedTerm args = last_term (take m (llog r t)) ∧ backed r t m.

Definition call_rel r cl : Prop :=
  match c_rpc cl with
  | RpcVote args _ _ =>
      ∃ L, (rv_Term args, c_from cl, L) ∈ stands r ∧ CandidateId args = Z.of_nat (c_from cl)
        ∧ LastLogIndex args = Z.of_nat (length L) ∧ LastLogTerm args = last_term L
  | RpcAppend args reply =>
      ∃ w p m, w ∈ wins r ∧ w_term w = ae_Term args ∧ w_peer w = c_from cl ∧ carries r (ae_Term args) args p m
        ∧ ∀ rep, reply = Some rep → Success rep = true → acked r (ae_Term args) (c_to cl) m
  | RpcSnap args reply =>
      ∃ w m, w ∈ wins r ∧ w_term w = is_Term args ∧ w_peer w = c_from cl ∧ covers r (is_Term args) args m
        ∧ ∀ rep, reply = Some rep → isr_Term rep ≤ is_Term args → acked r (is_Term args) (c_to cl) m
  end.

(** a command for the service is that of a committed entry *)
Definition msg_rel r (m : ApplyMsg Cmd Snap) : Prop :=
  CommandValid m = false ∨ ∃ t k i e, (t, k) ∈ committed r ∧ CommandIndex m = Z.of_nat i + 1 ∧ (i < k)%nat
    ∧ llog r t !! i = Some e ∧ am_Command m = e_Command e.

Record lsim r c : Prop := {
  l_nodes : ∀ i rf, nodes c !! i = Some rf → node_rel r i rf;
  l_calls : Forall (call_rel r) (calls c);
  l_grants : ∀ t v x, (t, v, x) ∈ grants c → ∃ L, (t, v, x, L) ∈ votes r;
  l_delivered : ∀ i d m, delivered c !! i = Some d → m ∈ d → msg_rel r m;
  l_pending : ∀ i d m, pending c !! i = Some d → m ∈ d → msg_rel r m
}.

(** *** The relation is kept while history grows *)

Lemma acked_only i r r' t v k : only i r r' → acked r t v k → acked r' t v k.
Proof. intros Ho (m & ? & ?). exists m. split; [done|]. by apply Ho. Qed.

Lemma backed_only i r r' t k : r_inv n r → only i r r' → won r t → (k ≤ length (llog r t))%nat →
  backed r t k → backed r' t k.
Proof.
  intros HI Ho Hw Hk [|(t' & k' & Hin & ? & ? & HP')]; [by left|right].
  pose proof (llog_grows _ _ _ (o_grows _ _ _ Ho) Hw) as HP.
  exists t', k'. split; [by apply Ho|]. split; [done|]. split; [done|].
  rewrite (take_of_prefix _ _ _ HP) by lia. etrans; [exact HP'|].
  apply llog_grows; [apply Ho|]. by apply (v_committed _ _ HI t' k').
Qed.

Lemma carries_only i r r' t args p m : r_inv n r → only i r r' → won r t → carries r t args p m → carries r' t args p m.
Proof.
  intros HI Ho Hw (Hp & Hpm & Hm & He & Ht & lc & Hlc & Hlm & Hc).
  pose proof (llog_grows _ _ _ (o_grows _ _ _ Ho) Hw) as HP.
  unfold carries. rewrite !(take_of_prefix _ _ _ HP) by lia. split; [done|]. split; [done|].
  split; [etrans; [exact Hm|by apply prefix_length]|]. split; [done|]. split; [done|].
  exists lc. split; [done|]. split; [done|]. eapply backed_only; try done. lia.
Qed.

Lemma covers_only i r r' t args m : r_inv n r → only i r r' → won r t → covers r t args m → covers r' t args m.
Proof.
  intros HI Ho Hw (Hi & Hm & Ht & Hb). pose proof (llog_grows _ _ _ (o_grows _ _ _ Ho) Hw) as HP.
  unfold covers. rewrite (take_of_prefix _ _ _ HP) by lia. split; [done|].
  split; [etrans; [exact Hm|by apply prefix_length]|]. split; [done|]. by eapply backed_only.
Qed.

Lemma call_only i r r' cl : r_inv n r → only i r r' → call_rel r cl → call_rel r' cl.
Proof.
  intros HI Ho. unfold call_rel. destruct (c_rpc cl) as [args ? ?|args reply|args reply].
  - intros (L & ? & ?). exists L. split; [by apply Ho|done].
  - intros (w & p & m & Hw & Ht & Hf & Hc & Ha). exists w, p, m. split; [by apply (o_grows _ _ _ Ho)|].
    split; [done|]. split; [done|]. split; [eapply carries_only; try done; by exists w|].
    intros. eapply acked_only; [done|]. by eapply Ha.
  - intros (w & m & Hw & Ht & Hf & Hc & Ha). exists w, m. split; [by apply (o_grows _ _ _ Ho)|].
    split; [done|]. split; [done|]. split; [eapply covers_only; try done; by exists w|].
    intros. eapply acked_only; [done|]. by eapply Ha.
Qed.

Lemma msg_only i r r' m : r_inv n r → only i r r' → msg_rel r m → msg_rel r' m.
Proof.
  intros HI Ho [|(t & k & j & e & Hc & ? & ? & He & ?)]; [by left|right]. exists t, k, j, e. split; [by apply Ho|].
  split; [done|]. split; [done|]. split; [|done]. eapply prefix_lookup; [|done].
  apply llog_grows; [apply Ho|]. by apply (v_committed _ _ HI t k).
Qed.

Lemma node_only i j r r' rf : j ≠ i → only i r r' → node_rel r j rf → node_rel r' j rf.
Proof.
  intros Hj Ho []. destruct (o_others _ _ _ Ho j Hj) as (Et & El & Ec & Hw).
  split; rewrite ?Et, ?El, ?Ec; try done.
  - intros x Hx. destruct (n_vote0 x Hx) as [L ?]. exists L. by apply Ho.
  - intros Hc. destruct (n_cand0 Hc) as [Hw'|[? ?]]; [left|right; split; by apply Ho].
    eapply won_grows; [apply Ho|done].
  - intros Hl. destruct (n_lead0 Hl) as ((w & ? & ?) & ? & Hm). split; [|split; [done|]].
    + exists w. split; [by apply (o_grows _ _ _ Ho)|done].
    + intros. eapply acked_only; [done|]. auto.
  - intros w Hin Hp. apply n_once0; auto.
Qed.

Lemma holds_frame L s rf rf' : logs rf' = logs rf → snapshotIndex rf' = snapshotIndex rf →
  holds L s rf → holds L s rf'.
Proof. intros E1 E2 []. split; by rewrite ?E1, ?E2. Qed.

(** [node_rel] looks at nothing but [lpart] *)
Lemma node_lpart r i rf rf' : lpart rf' = lpart rf → node_rel r i rf → node_rel r i rf'.
Proof.
  intros [= E1 E2 E3 E4 E5 E6 E7 E8] []. split; rewrite ?E1, ?E2, ?E3, ?E5, ?E6, ?E7, ?E8; try done.
  destruct n_held0 as (s & ? & ?). exists s. eauto using holds_frame.
Qed.

(** one peer changes *)
Lemma lsim_node r r' c i rf' : r_inv n r → lsim r c → moves i r r' → node_rel r' i rf' → lsim r' (set_node i rf' c).
Proof.
  intros HI [Hn Hc Hg Hd Hp] [_ Ho] Hi. split; simpl.
  - intros j rfj Hj. destruct (decide (i = j)) as [<-|Hne].
    + apply list_lookup_insert_Some in Hj as [(_ & <- & _)|[? _]]; done.
    + rewrite list_lookup_insert_ne in Hj by done. apply (node_only i _ r); [done..|]. by apply Hn.
  - eapply Forall_impl; [exact Hc|]. intros. by eapply call_only.
  - intros t v x Hin. destruct (Hg t v x Hin) as [L ?]. exists L. by apply Ho.
  - intros j d m ??. eapply msg_only; [done..|]. by eapply Hd.
  - intros j d m ??. eapply msg_only; [done..|]. by eapply Hp.
Qed.

Lemma lsim_calls r c cs : lsim r c → Forall (call_rel r) cs → lsim r (set_calls cs c).
Proof. intros [] ?. by split. Qed.
(** ** The operations of a peer *)

(** the abstract machine follows peer [i] to [rf'] without an election won *)
Definition follows r i rf' (P : @rstate Cmd → Prop) : Prop :=
  ∃ r', moves i r r' ∧ node_rel r' i rf' ∧ wins r' = wins r ∧ P r'.

Lemma follows_same r i rf rf' (P : @rstate Cmd → Prop) :
  node_rel r i rf → lpart rf' = lpart rf → P r → follows r i rf' P.
Proof. intros ???. exists r. split; [apply moves_refl|]. split; [by eapply node_lpart|done]. Qed.

(** later moves of the same peer *)
Lemma follows_then r r1 i rf' (P : @rstate Cmd → Prop) :
  moves i r r1 → wins r1 = wins r → follows r1 i rf' P → follows r i rf' P.
Proof.
  intros [Hst Ho] Hw (r' & [Hst' Ho'] & Hn & Hw' & HP). exists r'.
  split; [split; [by etrans|by eapply only_trans]|]. split; [done|]. split; [by rewrite Hw'|done].
Qed.

#[local] Ltac others := intros ? ?; simpl; rewrite ?fn_lookup_insert_ne by done; by split_and!.

Lemma lower_follows r i rf rf' t :
  r_inv n r → node_rel r i rf → lowered t rf rf' → currentTerm rf ≤ t →
  follows r i rf' (λ r', rlog r' = rlog r ∧ rcommit r' = rcommit r ∧ rterm r' i = t).
Proof.
  intros HI [] [= E1 E2 E3 E4 E5 E6 E7 E8] Ht. eexists. split; [apply moves_once, at_peer_intro; [done| |]|].
  - apply (r_term n r i t). lia.
  - others.
  - simpl. rewrite fn_lookup_insert. split; [|done].
    split; simpl; rewrite ?fn_lookup_insert, ?E1, ?E2, ?E3, ?E5, ?E6, ?E7; try done; [|intros; lia].
    destruct n_held0 as (s & ? & ?). exists s. eauto using holds_frame.
Qed.

Lemma enter_follows r i rf rf' t :
  r_inv n r → node_rel r i rf → entered t rf rf' →
  follows r i rf' (λ r', rlog r' = rlog r ∧ rcommit r' = rcommit r ∧ rterm r' i = t).
Proof.
  intros HI Hn [[He <-]|[Hl Ht]]; [|by eapply lower_follows].
  eapply follows_same; [done..|]. split_and!; try done. symmetry. apply Hn.
Qed.

(** *** What a peer keeps of its log *)

Lemma last_term_take (L : list (LogEntry Cmd)) q e : L !! q = Some e → last_term (take (S q) L) = e_Term e.
Proof.
  intros He. unfold last_term. apply lookup_lt_Some in He as Hlt.
  rewrite last_lookup, length_take_le by lia. simpl. rewrite lookup_take_lt by lia. by rewrite He.
Qed.

Lemma holds_last_index L s rf : holds L s rf → GetLastLogIndex rf = Z.of_nat (length L).
Proof.
  intros [Hi Hs (h & Hl & _)]. unfold GetLastLogIndex, zlen. rewrite Hl, Hi. simpl. rewrite length_drop. lia.
Qed.

(** an entry behind the snapshot *)
Lemma holds_entry L s rf k e : holds L s rf → Z.of_nat s < k → log rf k = Ret e → L !! Z.to_nat (k - 1) = Some e.
Proof.
  intros [Hi Hs (h & Hl & _)] Hk He. apply log_Ret in He as [_ He]. rewrite Hi, Hl in He.
  replace (Z.to_nat (k - Z.of_nat s)) with (S (Z.to_nat (k - 1) - s)) in He by lia. simpl in He.
  rewrite lookup_drop in He. by replace (s + (Z.to_nat (k - 1) - s))%nat with (Z.to_nat (k - 1)) in He by lia.
Qed.

(** the term at an index, that of the last entry covered included *)
Lemma holds_term L s rf p e : holds L s rf → log rf (Z.of_nat p) = Ret e →
  (s ≤ p ≤ length L)%nat ∧ e_Term e = last_term (take p L).
Proof.
  intros Hh He. pose proof (holds_last_index _ _ _ Hh) as Hlast. pose proof (log_Ret _ _ _ He) as [Hrange Hl].
  rewrite Hlast, (h_index _ _ _ Hh) in Hrange. split; [lia|].
  destruct (decide (s = p)) as [->|Hne].
  - destruct Hh as [Hi _ (h & E & Ht)]. rewrite E, Hi in Hl. replace (Z.to_nat _) with O in Hl by lia.
    by injection Hl as <-.
  - apply (holds_entry _ _ _ _ _ Hh) in He; [|lia]. destruct p as [|q]; [lia|].
    rewrite (last_term_take L q e); [done|]. by replace (Z.to_nat (Z.of_nat (S q) - 1)) with q in He by lia.
Qed.

Lemma holds_last_term L s rf t : holds L s rf → GetLastLogTerm rf = Ret t → t = last_term L.
Proof.
  intros Hh E. unfold GetLastLogTerm in E. apply outcome_bind_ret in E as (e & He & E). injection E as <-.
  pose proof (holds_last_index _ _ _ Hh) as Hlast. unfold GetLastLogIndex in Hlast.
  assert (log rf (Z.of_nat (length L)) = Ret e) as Hlog.
  { rewrite <-He. unfold log, index. f_equal. lia. }
  apply (holds_term _ _ _ _ _ Hh) in Hlog as [_ ->]. by rewrite take_ge.
Qed.

(** what merging entries, snapshots and new entries leave *)
Lemma holds_merged L s rf rf' p es :
  holds L s rf → (s ≤ p ≤ length L)%nat → logs rf' = merged (logs rf) (S p - s) es →
  snapshotIndex rf' = snapshotIndex rf → holds (merged L p es) s rf'.
Proof.
  intros [Hi Hs (h & Hl & Ht)] Hp E Hi'. split; [congruence| |].
  - destruct (merged_cases L p es) as [->|Hlen]; lia.
  - exists h. rewrite E, Hl. replace (S p - s)%nat with (S (p - s)) by lia. rewrite merged_cons, merged_drop by lia.
    split; [done|]. assert (∀ M : list (LogEntry Cmd), take s M = take s (take p M)) as Htt.
    { intros M. rewrite take_take. f_equal. lia. }
    by rewrite Ht, (Htt L), (Htt (merged L p es)), merged_prefix by lia.
Qed.

Lemma holds_append L s rf rf' e :
  holds L s rf → logs rf' = logs rf ++ [e] → snapshotIndex rf' = snapshotIndex rf → holds (L ++ [e]) s rf'.
Proof.
  intros [Hi Hs (h & Hl & Ht)] E Hi'. split; [congruence|rewrite length_app; simpl; lia|].
  exists h. rewrite E, Hl, drop_app_le, take_app_le by lia. done.
Qed.

Lemma holds_snapshot L s rf rf' k :
  holds L s rf → (s ≤ k ≤ length L)%nat → snapshotIndex rf' = Z.of_nat k → logs rf' = drop (k - s) (logs rf) →
  holds L k rf'.
Proof.
  intros [Hi Hs (h & Hl & Ht)] Hk Hi' E. split; [done|lia|]. destruct (decide (k = s)) as [->|Hne].
  - exists h. by rewrite E, Nat.sub_diag.
  - destruct k as [|q]; [lia|]. destruct (lookup_lt_is_Some_2 L q) as [e He]; [lia|].
    exists e. rewrite (last_term_take L q e He). split; [|done].
    rewrite E, Hl. replace (S q - s)%nat with (S (q - s)) by lia. simpl. rewrite drop_drop.
    replace (s + (q - s))%nat with q by lia. by apply drop_S.
Qed.

Lemma tick_follows clk r i rf rf' eff epoch :
  r_inv n r → node_rel r i rf → me rf = Z.of_nat i → ticker_iteration clk rf = Ret (Some (rf', eff)) →
  follows r i rf' (λ r', Forall (call_rel r') (omap (effect_call i epoch) eff)).
Proof.
  intros HI Hn Hme E. destruct (tick_parts _ _ _ _ E) as [[Hl ->]|(Hl & lastTerm & Ht & ->)].
  { eapply follows_same; [done..|]. constructor. }
  destruct (n_held _ _ _ Hn) as (s & Hs & Hh).
  rewrite (holds_last_index _ _ _ Hh), (holds_last_term _ _ _ _ Hh Ht).
  rewrite Hme in *. destruct Hn. injection Hl as E1 E2 E3 E4 E5 E6 E7 E8.
  eexists. split; [apply moves_once, at_peer_intro; [done|apply (r_stand n r i)|others]|].
  split; [|split; [done|]].
  - split; simpl; rewrite ?fn_lookup_insert, ?E1, ?E2, ?E3, ?E5, ?E6, ?E7; try done.
    + congruence.
    + exists s. eauto using holds_frame.
    + intros x ->%Nat2Z.inj. exists (rlog r x). rewrite n_term0. by left.
    + intros _. right. rewrite n_term0. split; by left.
    + intros w Hw Hp Hterm. destruct (v_leader _ _ HI w Hw) as [Hle _]. rewrite Hp in Hle. lia.
  - apply Forall_forall. intros cl (ef & (j & -> & _)%list_elem_of_fmap & Hcl)%list_elem_of_omap.
    injection Hcl as <-. exists (rlog r i). simpl. rewrite n_term0. split; [by left|done].
Qed.

Lemma vote_follows clk r i cl args tries rf rf' eff reply :
  r_inv n r → node_rel r i rf → call_rel r cl → c_rpc cl = RpcVote args tries None →
  RequestVote clk rf args = Ret (rf', eff, reply) →
  follows r i rf' (λ r', VoteGranted reply = true → ∃ L, (rv_Term args, i, c_from cl, L) ∈ votes r').
Proof.
  intros HI Hn Hcl Hrpc E. unfold call_rel in Hcl. rewrite Hrpc in Hcl. destruct Hcl as (C & HC & Hc & Hli & Hlt).
  destruct (RequestVote_parts _ _ _ _ _ _ E) as [[-> Hg]|(rf1 & Hent & H)].
  { eapply follows_same; [done..|]. congruence. }
  destruct (enter_follows r i rf rf1 _ HI Hn Hent) as (r1 & Hm1 & Hn1 & Hw1 & Hlog & Hcom & Hterm).
  destruct (entered_logs _ _ _ Hent) as (_ & _ & Ht1).
  pose proof (moves_inv _ _ _ HI Hm1) as HI1.
  eapply follows_then; [done..|]. destruct H as [[-> Hsame]|(Hg & Hnew & Hv)].
  - eapply follows_same; [done..|]. intros Hg. rewrite <-Ht1. apply (n_vote _ _ _ Hn1). rewrite <-Hc. auto.
  - destruct Hn1. injection Hv as E1 E2 E3 E4 E5 E6 E7 E8.
    assert (as_good (rlog r1 i) C) as Hgood.
    { destruct Hnew as (t & Ht & Hcmp). destruct n_held0 as (s & _ & Hh).
      rewrite (holds_last_index _ _ _ Hh) in Hcmp.
      rewrite (holds_last_term _ _ _ _ Hh Ht) in Hcmp. unfold as_good. rewrite <-Hlt. lia. }
    eexists. split; [apply moves_once, at_peer_intro; [done|apply (r_vote n r1 i (c_from cl) C)|others]|].
    { rewrite Hterm. by apply Hm1. }
    { done. }
    split; [|split; [done|]].
    + split; simpl; rewrite ?E1, ?E2, ?E3, ?E5, ?E6, ?E7, ?E8; try done.
      * destruct n_held0 as (s & ? & ?). exists s. eauto using holds_frame.
      * rewrite Hc. intros x <-%Nat2Z.inj. exists (rlog r1 i). rewrite n_term0. by left.
      * intros Hcand. destruct (n_cand0 Hcand) as [|[? ?]]; [by left|right]. split; [done|by right].
    + intros _. exists (rlog r1 i). simpl. rewrite Hterm. by left.
Qed.
(** *** AppendEntries *)

Lemma matched_take r L X p : matched r L → matched r X → (p ≤ length L)%nat → (p ≤ length X)%nat →
  (∀ q e e', p = S q → L !! q = Some e → X !! q = Some e' → e_Term e = e_Term e') → take p L = take p X.
Proof.
  intros HL HX H1 H2 Ht. destruct p as [|q]; [done|].
  destruct (lookup_lt_is_Some_2 L q) as [e He]; [lia|]. destruct (lookup_lt_is_Some_2 X q) as [e' He']; [lia|].
  eapply matched_common; eauto.
Qed.

Lemma last_term_common r L X p : matched r L → matched r X → (p ≤ length L)%nat → (p ≤ length X)%nat →
  last_term (take p L) = last_term (take p X) → take p L = take p X.
Proof.
  intros HL HX H1 H2 Ht. apply (matched_take r); [done..|]. intros q e e' -> He He'.
  by rewrite (last_term_take _ _ _ He), (last_term_take _ _ _ He') in Ht.
Qed.

(** merging part of a leader's log: nothing changes if it was there, otherwise
    the log becomes that part *)
Lemma merged_leader r L X p m :
  matched r L → matched r X → (p ≤ m)%nat → (m ≤ length X)%nat → take p L = take p X → (p ≤ length L)%nat →
  let es := drop p (take m X) in
  merged L p es = L ∧ take m X `prefix_of` L ∨ merged L p es = take m X ∧ ¬ take m X `prefix_of` L.
Proof.
  intros HL HX Hpm Hm Hpre HpL es.
  assert (length es = m - p)%nat as Hlen by (unfold es; rewrite length_drop, length_take; lia).
  assert (∀ j, (j < m - p)%nat → es !! j = X !! (p + j)%nat) as Hes.
  { intros j Hj. unfold es. rewrite lookup_drop, lookup_take_lt; [done|lia]. }
  set (k := agree (drop p L) es). destruct (agree_le (drop p L) es) as [Hk1 Hk2]. fold k in Hk1, Hk2.
  rewrite length_drop in Hk1.
  assert (take (p + k) L = take (p + k) X) as Hpk.
  { apply (matched_take r); [done|done|lia|lia|]. intros q e e' Hq He He'.
    destruct (decide (q < p)%nat) as [Hqp|Hqp].
    - rewrite <-(lookup_take_lt L p) in He by done. rewrite <-(lookup_take_lt X p) in He' by done. congruence.
    - pose proof (agree_terms (drop p L) es (q - p) ltac:(lia)) as Ht. unfold term_at in Ht.
      rewrite lookup_drop, Hes in Ht by lia. replace (p + (q - p))%nat with q in Ht by lia.
      rewrite He, He' in Ht. by injection Ht. }
  unfold merged. fold k. destruct (decide (k = length es)) as [Hfull|Hpart].
  - left. split; [done|]. replace m with (p + k)%nat by lia. rewrite <-Hpk. apply prefix_take.
  - right. split.
    + rewrite Hpk. unfold es. rewrite drop_drop. replace (take (p + k) X) with (take (p + k) (take m X)).
      * apply take_drop.
      * rewrite take_take. f_equal. lia.
    + intros HP. apply Hpart. apply agree_full. intros j Hj. unfold term_at. rewrite lookup_drop, Hes by lia.
      f_equal. destruct (lookup_lt_is_Some_2 X (p + j)) as [e He]; [lia|]. rewrite He.
      eapply prefix_lookup; [exact HP|]. rewrite lookup_take_lt; [done|lia].
Qed.

(** a follower that has merged what its leader sent has a prefix of the leader's
    log, and acknowledges it *)
Lemma merge_agrees r i s rf' T p m :
  r_inv n r → rterm r i = T → won r T → (p ≤ length (rlog r i))%nat → (p ≤ m)%nat → (m ≤ length (llog r T))%nat →
  take p (rlog r i) = take p (llog r T) →
  holds (merged (rlog r i) p (drop p (take m (llog r T)))) s rf' →
  ∃ r1, at_peer i r r1 ∧ acked r1 T i m ∧ wins r1 = wins r ∧ rterm r1 = rterm r ∧ rcommit r1 = rcommit r
    ∧ llog r1 = llog r ∧ votes r1 = votes r ∧ committed r1 = committed r
    ∧ holds (rlog r1 i) s rf' ∧ take m (llog r T) `prefix_of` rlog r1 i.
Proof.
  intros HI <- Hw Hpl Hpm Hm Hpre Hh.
  destruct (merged_leader r (rlog r i) (llog r (rterm r i)) p m) as [[Hmg HP]|[Hmg HP]];
    [apply (v_matched _ _ HI)|by apply (v_lmatched _ _ HI)|lia..|done|lia| |]; rewrite Hmg in Hh.
  - eexists. split; [apply at_peer_intro; [done|by apply (r_agree n r i m)|others]|].
    simpl. split_and!; try done. exists m. split; [done|by left].
  - eexists. split; [apply at_peer_intro; [done|by apply (r_replace n r i m)|others]|].
    simpl. rewrite fn_lookup_insert. split_and!; try done. exists m. split; [done|by left].
Qed.

Lemma accept_follows r i rf args rf' eff p m :
  r_inv n r → node_rel r i rf → raftState rf = RaftFollower → currentTerm rf = ae_Term args →
  won r (ae_Term args) → carries r (ae_Term args) args p m → prev_matches rf args →
  AppendEntries_accept rf args = Ret (rf', eff) →
  follows r i rf' (λ r', acked r' (ae_Term args) i m).
Proof.
  intros HI Hn Hf Ht Hw (Hp & Hpm & Hm & He & Hpt & lc & Hlc & Hlm & Hcom) Hprev E.
  destruct (accept_parts _ _ _ _ E Hprev) as (Hv & Hl & Hci & Hla & Hsn).
  destruct Hprev as [Hrange (prev & Hpe & Hpterm)]. pose proof Hn as [].
  destruct n_held0 as (s & Hs & Hh). rewrite Hp in *. destruct (holds_term _ _ _ _ _ Hh Hpe) as [Hsp Hpl].
  set (T := ae_Term args) in *. set (X := llog r T) in *.
  rewrite (h_index _ _ _ Hh) in Hl. replace (Z.to_nat (Z.of_nat p + 1 - Z.of_nat s)) with (S p - s)%nat in Hl by lia.
  assert (take p (rlog r i) = take p X) as Hpre.
  { apply (last_term_common r); [apply (v_matched _ _ HI)|by apply (v_lmatched _ _ HI)|lia|lia|].
    by rewrite <-Hpl, Hpterm, Hpt. }
  pose proof (holds_merged _ _ _ _ _ _ Hh Hsp Hl Hsn) as Hh1. rewrite He in Hh1.
  destruct (merge_agrees r i s rf' T p m) as (r1 & Hat & Hack & Ew & Et & Ec & El & Ev & Eco & Hl1 & HP);
    [done|by rewrite <-n_term0|done|lia|lia|done|done|done|].
  pose proof (moves_inv _ _ _ HI (moves_once _ _ _ Hat)) as HI1.
  injection Hv as Ev1 Ev2 Ev3 _.
  pose proof (holds_last_index _ _ _ Hl1) as Hlast.
  assert (m ≤ length (rlog r1 i))%nat as Hlm1.
  { apply prefix_length in HP. rewrite length_take_le in HP; [done|]. exact Hm. }
  eapply follows_then; [by apply moves_once|done|].
  rewrite Hlast, Hlc, n_commit0 in Hci.
  assert (∀ r2, rterm r2 = rterm r1 → rlog r2 = rlog r1 → votes r2 = votes r1 →
    commitIndex rf' = Z.of_nat (rcommit r2 i) → commitIndex rf ≤ commitIndex rf' → node_rel r2 i rf') as Hnode.
  { intros r2 Et2 El2 Ev2' Ec2 Hle. split; rewrite ?Ev1, ?Ev2, ?Ev3, ?Et2, ?El2, ?Ev2', ?Et, ?Ev; try done.
    - exists s. split; [lia|done].
    - rewrite Hla, Hsn. lia.
    - by rewrite Hf.
    - by rewrite Hf.
    - by rewrite Hf. }
  destruct (decide (Z.of_nat lc > Z.of_nat (rcommit r i))) as [Hgt|].
  - destruct Hcom as [->|(t' & k & Hin & Hle & Hck & HPc)]; [lia|].
    eexists. split; [apply moves_once, at_peer_intro; [done|apply (r_learn n r1 i lc t' k)|others]|].
    + by rewrite Eco.
    + rewrite Et, <-n_term0, Ht. done.
    + done.
    + lia.
    + rewrite El. etrans; [|exact HPc]. fold X.
      rewrite (take_of_prefix lc (take m X) (rlog r1 i)) by (done || (rewrite length_take_le by exact Hm; done)).
      rewrite take_take. by replace (lc `min` m)%nat with lc by lia.
    + rewrite Ec. lia.
    + split; [|split; [done|]].
      * apply Hnode; try done; simpl; rewrite ?fn_lookup_insert; lia.
      * done.
  - eapply (follows_same r1 i rf'); [|done|done]. apply Hnode; try done; [rewrite Ec|]; lia.
Qed.
Lemma append_follows clk r i cl args rf rf' eff reply :
  r_inv n r → node_rel r i rf → call_rel r cl → c_rpc cl = RpcAppend args None → c_to cl = i →
  AppendEntries clk rf args = Ret (rf', eff, reply) →
  follows r i rf' (λ r', call_rel r' (with_rpc cl (RpcAppend args (Some reply)))).
Proof.
  intros HI Hn Hcl Hrpc <- E. unfold call_rel in Hcl. rewrite Hrpc in Hcl.
  destruct Hcl as (w & p & m & Hw & Hwt & Hwp & Hcar & _).
  assert (won r (ae_Term args)) as Hwon by (by exists w).
  assert (∀ r', moves (c_to cl) r r' → Success reply = false ∨ acked r' (ae_Term args) (c_to cl) m →
    call_rel r' (with_rpc cl (RpcAppend args (Some reply)))) as Hback.
  { intros r' [_ Ho] Hor. exists w, p, m. split; [by apply (o_grows _ _ _ Ho)|]. split; [done|]. split; [done|].
    split; [by eapply carries_only|]. intros rep [= <-] Hs. destruct Hor; [congruence|done]. }
  destruct (AppendEntries_parts _ _ _ _ _ _ E) as [[-> Hs]|(rf1 & Hent & Hf & H)].
  { eapply follows_same; [done..|]. apply Hback; [apply moves_refl|by left]. }
  destruct (enter_follows r _ rf rf1 _ HI Hn Hent) as (r1 & Hm1 & Hn1 & Hw1 & Hlog & Hcom & Hterm).
  destruct (entered_logs _ _ _ Hent) as (_ & _ & Ht1).
  pose proof (moves_inv _ _ _ HI Hm1) as HI1.
  destruct H as [[-> Hs]|(Hs & Hprev & eff' & Hacc)].
  - exists r1. split; [done|]. split; [done|]. split; [done|]. apply Hback; [done|by left].
  - destruct (accept_follows r1 (c_to cl) rf1 args rf' eff' p m HI1 Hn1 Hf Ht1) as (r2 & Hm2 & Hn2 & Hw2 & Ha).
    + apply (won_grows r); [apply Hm1|done].
    + by eapply carries_only; [|apply Hm1|..].
    + done.
    + done.
    + exists r2. destruct Hm1, Hm2. assert (moves (c_to cl) r r2) as Hm.
      { split; [by etrans|by eapply only_trans]. }
      split; [done|]. split; [done|]. split; [congruence|]. apply Hback; [done|by right].
Qed.

(** *** The other operations *)

Lemma start_follows r i rf command rf' eff res :
  r_inv n r → node_rel r i rf → Start command rf = (rf', eff, res) → follows r i rf' (λ _, True).
Proof.
  intros HI Hn E. unfold Start in E. destruct (decide _) as [|Hl]; injection E as <- _ _.
  { by eapply follows_same. }
  assert (raftState rf = RaftLeader) as Hlead by (destruct (decide (raftState rf = RaftLeader)); [done|by destruct Hl]).
  destruct Hn. destruct (n_lead0 Hlead) as ((w & Hw & Hwt & <-) & Hlen & Hmatch).
  eexists. split; [apply moves_once, at_peer_intro; [done| |]|].
  - apply (r_start n r w {| e_Term := currentTerm rf; e_Command := command |}); [done|congruence|done].
  - others.
  - split; [|done]. split; simpl; rewrite ?fn_lookup_insert; try done.
    + destruct n_held0 as (s & Hs & Hh). exists s. split; [done|].
      by apply (holds_append _ _ rf).
    + intros. congruence.
Qed.

(** a leader that counts its own log as acknowledged commits an entry of its term
    that a quorum has *)
Lemma commit_commits r i k e Q :
  r_inv n r → won r (rterm r i) → rlog r i = llog r (rterm r i) → rlog r i !! k = Some e → e_Term e = rterm r i →
  commit_quorum n Q → (∀ v, v ∈ Q → v ≠ i → ∃ m, (k < m)%nat ∧ (rterm r i, v, m) ∈ acks r) →
  let r2 := mkR (rterm r) (rlog r) (rcommit r) (llog r) (stands r) (votes r) (wins r)
              ((rterm r i, i, length (rlog r i)) :: acks r) ((rterm r i, S k) :: committed r) in
  moves i r r2 ∧ r_inv n r2.
Proof.
  intros HI Hwon Hll Hk Het HQ Hacks r2. set (L := length (rlog r i)) in *.
  set (r1 := mkR (rterm r) (rlog r) (rcommit r) (llog r) (stands r) (votes r) (wins r)
               ((rterm r i, i, L) :: acks r) (committed r)).
  assert (at_peer i r r1) as H1.
  { apply at_peer_intro; [done|apply (r_agree n r i L)|others].
    - done.
    - by rewrite <-Hll.
    - rewrite <-Hll. apply prefix_take. }
  pose proof (moves_inv _ _ _ HI (moves_once _ _ _ H1)) as HI1.
  assert (at_peer i r1 r2) as H2.
  { apply at_peer_intro; [done| |others].
    apply (r_commit n r1 (rterm r i) k e Q); [done|simpl; by rewrite <-Hll|done|done|].
    intros v Hv. destruct (decide (v = i)) as [->|Hne].
    - exists L. split; [by eapply lookup_lt_Some|]. by left.
    - destruct (Hacks v Hv Hne) as (m & ? & ?). exists m. split; [done|]. by right. }
  assert (moves i r r2) as Hm by (by eapply moves_l, moves_once). split; [done|]. exact (moves_inv _ _ _ HI Hm).
Qed.

Lemma commit_follows r i rf rf' eff :
  r_inv n r → node_rel r i rf → me rf = Z.of_nat i → commit_iteration rf = Ret (Some (rf', eff)) →
  follows r i rf' (λ _, True).
Proof.
  intros HI Hn Hme E. destruct (commit_parts _ _ _ E) as (Hlead & mis & ci & Hmis & Hl & Hci).
  pose proof Hn as []. destruct (n_lead0 Hlead) as ((w & Hw & Hwt & Hwp) & Hlen & Hmatch).
  destruct n_held0 as (s & Hs & Hh). rewrite (holds_last_index _ _ _ Hh), Hme, Nat2Z.id in Hmis.
  assert (length mis = n) as Hlen' by (by rewrite Hmis, length_insert).
  assert (∀ j m, mis !! j = Some m → j ≠ i → matchIndex rf !! j = Some m) as Hmis'.
  { intros j m Hj Hne. rewrite Hmis, list_lookup_insert_ne in Hj by done. done. }
  injection Hl as E1 E2 E3 E4 E5 E6 E7 E8.
  assert (∀ r', rterm r' = rterm r → rlog r' = rlog r → votes r' = votes r → stands r' = stands r → wins r' = wins r →
    (∀ t v k, acked r t v k → acked r' t v k) → ci = Z.of_nat (rcommit r' i) → commitIndex rf ≤ ci → node_rel r' i rf')
    as Hnode.
  { intros r' Et El Ev Es Ew Ha Hc Hle. split; rewrite ?E1, ?E2, ?E3, ?E5, ?E6, ?E7, ?E8, ?Et, ?El, ?Ev, ?Es, ?Ew;
      try done; [exists s; split; [lia|eauto using holds_frame]|lia| |].
    { intros Hc'. congruence. }
    intros _. split; [eauto|]. split; [done|]. intros j m Hj Hne Hpos. eauto. }
  destruct Hci as [Hci|(Hgt & (e & He & Het) & Hmed)].
  { exists r. split; [apply moves_refl|]. split; [|done]. apply Hnode; try done; lia. }
  assert (rlog r i = llog r (currentTerm rf)) as Hll.
  { destruct (v_leader _ _ HI w Hw) as [_ Hl]. rewrite Hwt, Hwp in Hl. apply Hl. congruence. }
  assert (won r (currentTerm rf)) as Hwon by (by exists w).
  pose proof (holds_entry _ _ _ ci e Hh ltac:(lia) He) as Hk. set (k := Z.to_nat (ci - 1)) in *.
  destruct (median_quorum mis ci Hmed) as (Q & HQ & HQm). rewrite Hlen' in HQ.
  destruct (commit_commits r i k e Q) as [Hmoves HI2]; rewrite <-?n_term0; try done.
  { intros v Hv Hne. destruct (HQm v Hv) as (m & Hm & Hle).
    destruct (Hmatch v m (Hmis' v m Hm Hne) Hne ltac:(lia)) as (m' & ? & ?). exists m'. split; [lia|done]. }
  set (r2 := mkR _ _ _ _ _ _ _ _ _) in *.
  eapply follows_then; [exact Hmoves|done|].
  apply lookup_lt_Some in Hk as Hk'.
  eexists. split; [apply moves_once, at_peer_intro; [done|apply (r_learn n r2 i (S k) (currentTerm rf) (S k))|others]|].
  - rewrite n_term0. by left.
  - simpl. lia.
  - done.
  - simpl. lia.
  - simpl. rewrite Hll. apply prefix_take.
  - simpl. lia.
  - split; [|done]. apply Hnode; simpl; rewrite ?fn_lookup_insert; try done; try lia.
    intros t v j (m & ? & ?). exists m. split; [done|]. by right.
Qed.
Lemma win_follows r i rf rf' Q :
  r_inv n r → node_rel r i rf → me rf = Z.of_nat i → peers rf = n → raftState rf = RaftCandidate → elected rf rf' →
  ¬ won r (currentTerm rf) → majority n Q → (∀ v, v ∈ Q → ∃ L, (currentTerm rf, v, i, L) ∈ votes r) →
  ∃ r', moves i r r' ∧ node_rel r' i rf' ∧
    ∀ w, w ∈ wins r' → w ∈ wins r ∨ w_term w = currentTerm rf ∧ w_peer w = i.
Proof.
  intros HI [] Hme Hp Hc (mis & [= E1 E2 E3 E4 E5 E6 E7 E8] & Hlen & Hmis) Hno HQ Hvotes.
  destruct (n_cand0 Hc) as [|[Hst Hself]]; [done|].
  destruct (list_choice (λ v L, (currentTerm rf, v, i, L) ∈ votes r) Q Hvotes) as (vs & <- & Hvs).
  rewrite n_term0 in *.
  eexists. split; [apply moves_once, at_peer_intro; [done|by apply (r_win n r i vs)|]|split].
  - intros j Hj. simpl. split_and!; try done. intros w [->|Hw]%elem_of_cons; done.
  - split; simpl; rewrite ?E1, ?E2, ?E3, ?E5, ?E6, ?E7, ?E8, ?n_term0; try done.
    + destruct n_held0 as (s & ? & ?). exists s. eauto using holds_frame.
    + intros; lia.
    + intros _. split; [eexists; split; [by left|done]|]. split; [congruence|].
      intros j m Hj Hne Hpos. rewrite (Hmis j m Hj) in Hpos; [lia|]. rewrite Hme. lia.
  - simpl. intros w [->|Hw]%elem_of_cons; [by right|by left].
Qed.

Lemma append_reply_follows r i cl args reply rf rf' eff :
  r_inv n r → node_rel r i rf → call_rel r cl → c_rpc cl = RpcAppend args (Some reply) → c_from cl = i →
  sendAppendEntries_reply rf (Z.of_nat (c_to cl)) args reply = Ret (rf', eff) → follows r i rf' (λ _, True).
Proof.
  intros HI Hn Hcl Hrpc Hfrom E. unfold call_rel in Hcl. rewrite Hrpc in Hcl.
  destruct Hcl as (w & p & m & Hw & Hwt & Hwp & Hcar & Hack).
  destruct (append_reply_parts _ _ _ _ _ _ E) as [Hl|[(t & Ht & Hl)|(Ht & Hs & m0 & Hm0 & Hl)]].
  - by eapply follows_same.
  - destruct (lower_follows r i rf rf' t HI Hn Hl) as (r' & ? & ? & ? & _); [lia|]. by exists r'.
  - exists r. split; [apply moves_refl|]. split; [|done]. destruct Hn. injection Hl as E1 E2 E3 E4 E5 E6 E7 E8.
    assert (ae_Term args = currentTerm rf) as Heq.
    { destruct (v_leader _ _ HI w Hw) as [Hle _]. rewrite Hwt, Hwp, Hfrom in Hle. lia. }
    split; rewrite ?E1, ?E2, ?E3, ?E5, ?E6, ?E7, ?E8; try done.
    { destruct n_held0 as (s & ? & ?). exists s. eauto using holds_frame. }
    intros Hlead. destruct (n_lead0 Hlead) as (? & Hlen & Hmatch). split; [done|]. rewrite length_insert.
    split; [done|]. intros j v Hj Hne Hpos. apply list_lookup_insert_Some in Hj as [(<- & Hv & _)|[_ Hj]]; [|eauto].
    destruct (decide (m0 = v)) as [->|Hnv]; [eauto|].
    destruct Hcar as (Hp & Hpm & Hm & He & _). assert (v = Z.of_nat m) as ->.
    { rewrite <-Hv in *. unfold zlen in *. rewrite He, length_drop, length_take, Hp in *. lia. }
    rewrite Nat2Z.id, <-Heq. eauto.
Qed.

Lemma commit_length r i : r_inv n r → (rcommit r i ≤ length (rlog r i))%nat.
Proof. intros HI. destruct (v_commit _ _ HI i) as [->|(t & k & _ & _ & _ & ? & _)]; lia. Qed.

(** what a leader holds committed was committed by its term *)
Lemma own_backed r i k : r_inv n r → rlog r i = llog r (rterm r i) → (k ≤ rcommit r i)%nat → backed r (rterm r i) k.
Proof.
  intros HI Hll Hk. destruct (v_commit _ _ HI i) as [H0|(t & k' & Hc & Ht & Hk' & Hlen & HP)]; [left; lia|right].
  exists t, k'. split; [done|]. split; [done|]. split; [lia|]. rewrite <-Hll. etrans; [|exact HP].
  rewrite (take_of_prefix k (take (rcommit r i) (rlog r i)) (rlog r i));
    [apply prefix_take|apply prefix_take|rewrite length_take; lia].
Qed.

Lemma heartBeat_calls r i epoch rf es :
  r_inv n r → node_rel r i rf → heartBeat_iteration rf = Ret (Some es) →
  Forall (call_rel r) (omap (effect_call i epoch) es).
Proof.
  intros HI Hn E. unfold heartBeat_iteration in E. destruct (decide _) as [|Hl]; [done|].
  apply outcome_bind_ret in E as (es' & Er & E). injection E as <-.
  assert (raftState rf = RaftLeader) as Hlead by (destruct (decide (raftState rf = RaftLeader)); [done|by destruct Hl]).
  apply Forall_forall. intros cl (e & He & Hcl)%list_elem_of_omap.
  destruct (heartBeat_range_send _ _ _ _ _ Er He) as (j & next & Hs). unfold heartBeat_send in Hs.
  pose proof Hn as []. destruct (n_lead0 Hlead) as ((w & Hw & Hwt & Hwp) & _ & _).
  destruct n_held0 as (s & Hsc & Hh). pose proof (commit_length r i HI) as Hcl'.
  assert (rlog r i = llog r (currentTerm rf)) as Hll.
  { destruct (v_leader _ _ HI w Hw) as [_ Hl']. rewrite Hwt, Hwp in Hl'. apply Hl'. congruence. }
  rewrite n_term0 in Hll. destruct (decide _) as [|Hnext].
  - apply outcome_bind_ret in Hs as (e0 & He0 & Hs). injection Hs as <-. injection Hcl as <-.
    exists w, s. simpl. split; [done|]. split; [done|]. split; [done|]. split; [|done].
    unfold covers; simpl. rewrite n_term0, <-Hll. split; [apply Hh|]. split; [apply Hh|]. split.
    + destruct Hh as [_ _ (h & El & <-)]. rewrite El in He0. by injection He0 as <-.
    + by apply own_backed.
  - apply outcome_bind_ret in Hs as (prev & Hprev & Hs). apply outcome_bind_ret in Hs as (entries & Hdrop & Hs).
    injection Hs as <-. injection Hcl as <-. rewrite (h_index _ _ _ Hh) in Hnext.
    set (p := Z.to_nat (next - 1)) in *. replace (next - 1) with (Z.of_nat p) in * by lia.
    destruct (holds_term _ _ _ _ _ Hh Hprev) as [Hp Hpt].
    exists w, p, (length (rlog r i)). simpl. split; [done|]. split; [done|]. split; [done|]. split; [|done].
    unfold carries. simpl. rewrite n_term0, <-Hll. split; [done|]. split; [lia|]. split; [done|].
    rewrite take_ge by done. split; [|split; [done|]].
    + unfold go_drop, index in Hdrop. destruct (decide _); [|done]. injection Hdrop as <-.
      destruct Hh as [Hi _ (h & El & _)]. rewrite El, Hi.
      replace (Z.to_nat (next - Z.of_nat s)) with (S (p - s)) by lia. simpl. rewrite drop_drop. f_equal. lia.
    + exists (rcommit r i). split; [done|]. split; [done|]. by apply own_backed.
Qed.

Lemma apply_messages r i rf rf' ms :
  r_inv n r → node_rel r i rf → apply_iteration rf = Ret (Some (rf', ms)) →
  node_rel r i rf' ∧ ∀ m, m ∈ ms → msg_rel r m.
Proof.
  intros HI Hn E. destruct (apply_parts _ _ _ E) as (Hlt & [= E1 E2 E3 E4 E5 E6 E7 E8] & Hms). split.
  - destruct Hn. split; rewrite ?E1, ?E2, ?E3, ?E5, ?E6, ?E7, ?E8; try done; [|lia].
    destruct n_held0 as (s & ? & ?). exists s. eauto using holds_frame.
  - intros m Hm. right. destruct (Hms m Hm) as (Hidx & e & He & Hcmd).
    destruct (n_applied _ _ _ Hn) as [Hla _]. destruct (n_held _ _ _ Hn) as (s & Hs & Hh).
    rewrite (h_index _ _ _ Hh) in Hla.
    pose proof (holds_entry _ _ _ (CommandIndex m) e Hh ltac:(lia) He) as Hk.
    destruct Hn. destruct (v_commit _ _ HI i) as [H0|(t & k & Hc & Ht & Hck & Hlen & HP)].
    + rewrite H0 in n_commit0. lia.
    + exists t, k, (Z.to_nat (CommandIndex m - 1)), e. split; [done|]. split; [lia|]. split; [lia|].
      split; [|done]. eapply prefix_lookup; [exact HP|]. rewrite lookup_take_lt; [done|lia].
Qed.

(** a restart forgets what was committed, but not the snapshot *)
Lemma restart_follows clk r i rf :
  r_inv n r → recoverable rf → node_rel r i rf →
  follows r i (fst (Make clk (peers rf) (me rf) (persister rf))) (λ _, True).
Proof.
  intros HI Hrec []. destruct n_held0 as (s & Hs & Hh).
  destruct (restart_parts clk rf Hrec) as (E1 & E2 & E3 & E4 & E5 & E6 & E7); [rewrite (h_index _ _ _ Hh); lia|].
  set (rf' := fst _) in *. clearbody rf'. rewrite (h_index _ _ _ Hh) in *.
  assert (holds (rlog r i) s rf') as Hh' by (apply (holds_frame _ _ rf); [done|rewrite (h_index _ _ _ Hh); done|done]).
  set (r1 := mkR (rterm r) (rlog r) (<[i := O]> (rcommit r)) (llog r) (stands r) (votes r) (wins r) (acks r) (committed r)).
  assert (at_peer i r r1) as H1 by (apply at_peer_intro; [done|apply (r_forget n r i)|others]).
  pose proof (moves_inv _ _ _ HI (moves_once _ _ _ H1)) as HI1.
  assert (∀ r', rterm r' = rterm r → rlog r' = rlog r → votes r' = votes r → rcommit r' i = s → node_rel r' i rf') as Hnode.
  { intros r' Et El Ev Ec. split; rewrite ?Et, ?El, ?Ev, ?Ec, ?E1, ?E2, ?E3, ?E5, ?E6, ?E7; try done.
    exists s. split; [lia|done]. }
  eapply follows_then; [by apply moves_once|done|]. destruct (decide (s = O)) as [->|Hpos].
  - exists r1. split; [apply moves_refl|]. split; [|done]. apply Hnode; try done. simpl. by rewrite fn_lookup_insert.
  - destruct (v_commit _ _ HI i) as [H0|(t & k & Hc & Ht & Hk & Hlen & HP)]; [lia|].
    eexists. split; [apply moves_once, at_peer_intro; [done|apply (r_learn n r1 i s t k)|others]|]; simpl; try done.
    + lia.
    + lia.
    + etrans; [|exact HP]. rewrite (take_of_prefix s (take (rcommit r i) (rlog r i)));
        [apply prefix_take|apply prefix_take|rewrite length_take; lia].
    + rewrite fn_lookup_insert. lia.
    + split; [|done]. apply Hnode; try done. simpl. by rewrite fn_lookup_insert.
Qed.

(** *** Snapshots *)

(** the service compacts what it applied *)
Lemma snapshot_related r i rf idx snap rf' :
  node_rel r i rf → Snapshot idx snap rf = Ret rf' → idx ≤ lastApplied rf → node_rel r i rf'.
Proof.
  intros Hn E Hidx. pose proof Hn as []. destruct n_held0 as (s & Hs & Hh).
  rewrite (h_index _ _ _ Hh) in *.
  destruct (Snapshot_parts _ _ _ _ E) as [Hl|(Hr & Hl)]; [rewrite (h_index _ _ _ Hh); lia|by eapply node_lpart|].
  rewrite (holds_last_index _ _ _ Hh), (h_index _ _ _ Hh) in Hr. injection Hl as E1 E2 E3 E4 E5 E6 E7 E8.
  split; rewrite ?E1, ?E2, ?E3, ?E5, ?E6, ?E7, ?E8; try done; [|lia].
  exists (Z.to_nat idx). split; [lia|]. apply (holds_snapshot _ s rf); [done|lia|rewrite E5; lia|].
  rewrite E4, (h_index _ _ _ Hh). f_equal. lia.
Qed.

(** a peer's committed entries are in the log of the leader of its term *)
Lemma committed_agrees r i t m : r_inv n r → won r t → rterm r i ≤ t → (m ≤ rcommit r i)%nat →
  take m (rlog r i) `prefix_of` llog r t.
Proof.
  intros HI Hw Ht Hm. destruct (v_commit _ _ HI i) as [H0|(t' & k & Hc & Ht' & Hk & Hlen & HP)].
  { assert (m = O) as -> by lia. apply prefix_nil. }
  pose proof (committed_kept n r t' k t HI Hc Hw ltac:(lia)) as Hkept.
  etrans; [|exact Hkept]. destruct (v_committed _ _ HI t' k Hc) as (_ & Hkl & _).
  assert (take m (rlog r i) = take m (llog r t')) as ->.
  { rewrite (take_of_prefix m _ _ HP) by (rewrite length_take; lia). rewrite take_take. f_equal. lia. }
  rewrite (take_of_prefix m (take k (llog r t'))); [apply prefix_take|apply prefix_take|rewrite length_take; lia].
Qed.

(** what arrives is not older than what the peer kept, or agrees with it *)
Definition snap_fits (args : InstallSnapshotArgs Snap) rf : bool :=
  bool_decide (LastIncludedIndex args ≤ snapshotIndex rf) || bool_decide (GetLastLogIndex rf ≤ LastIncludedIndex args)
  || match log rf (LastIncludedIndex args) with
     | Ret e => bool_decide (e_Term e = LastIncludedTerm args)
     | _ => false
     end.

(** the log after a fitting snapshot of the leader's first [m] entries *)
Lemma install_log r i rf args m rf' kept :
  r_inv n r → node_rel r i rf → currentTerm rf = is_Term args → won r (is_Term args) →
  covers r (is_Term args) args m → snap_fits args rf = true → snapshotIndex rf < LastIncludedIndex args →
  logs rf' = {| e_Term := LastIncludedTerm args; e_Command := None |} :: kept →
  snapshotIndex rf' = LastIncludedIndex args →
  (GetLastLogIndex rf ≤ LastIncludedIndex args ∧ kept = []
   ∨ LastIncludedIndex args < GetLastLogIndex rf
     ∧ kept = drop (S (Z.to_nat (LastIncludedIndex args - snapshotIndex rf))) (logs rf)) →
  ∃ r1, at_peer i r r1 ∧ acked r1 (is_Term args) i m ∧ wins r1 = wins r ∧ rterm r1 = rterm r ∧ rcommit r1 = rcommit r
    ∧ llog r1 = llog r ∧ votes r1 = votes r ∧ stands r1 = stands r ∧ committed r1 = committed r
    ∧ holds (rlog r1 i) m rf' ∧ take m (llog r (is_Term args)) `prefix_of` rlog r1 i.
Proof.
  intros HI [] Ht Hw (Hi & Hm & Hlt & _) Hfits Hnew El Es Hkept. destruct n_held0 as (s & Hs & Hh).
  rewrite Hi, Hlt, (h_index _ _ _ Hh), (holds_last_index _ _ _ Hh) in *.
  set (T := is_Term args) in *. set (X := llog r T) in *.
  assert (won r (rterm r i)) as Hw' by (by rewrite <-n_term0, Ht).
  assert (take m X `prefix_of` rlog r i → holds (rlog r i) m rf') as Hsame.
  { intros HP. assert (m ≤ length (rlog r i))%nat as Hml by (apply prefix_length in HP; rewrite length_take_le in HP; done).
    split; [done|done|]. exists {| e_Term := last_term (take m X); e_Command := None |}. split.
    - rewrite El. f_equal. destruct Hkept as [[Hle ->]|[Hlt' ->]]; [rewrite drop_ge; [done|lia]|].
      destruct Hh as [_ _ (h & -> & _)]. simpl. rewrite drop_drop. f_equal. lia.
    - simpl. f_equal. rewrite (take_of_prefix m _ _ HP) by (rewrite length_take_le; done). by rewrite take_take, Nat.min_id. }
  assert (take m X `prefix_of` rlog r i ↔ (m ≤ length (rlog r i))%nat ∧ last_term (take m (rlog r i)) = last_term (take m X)) as Hiff.
  { split.
    - intros HP. pose proof (prefix_length _ _ HP) as Hl. rewrite length_take_le in Hl by done. split; [done|].
      by rewrite (take_of_prefix m _ _ HP), take_take, Nat.min_id by (rewrite length_take_le; done).
    - intros [Hl Heq]. rewrite <-(last_term_common r (rlog r i) X m); [apply prefix_take|apply (v_matched _ _ HI)|
        by apply (v_lmatched _ _ HI)|done..]. }
  destruct (decide ((m ≤ length (rlog r i))%nat ∧ last_term (take m (rlog r i)) = last_term (take m X))) as [HP|HP];
    rewrite <-Hiff in HP.
  - eexists. split; [apply at_peer_intro; [done|apply (r_agree n r i m); [done|by rewrite <-n_term0, Ht..]|others]|].
    simpl. rewrite <-n_term0, Ht. split_and!; auto. exists m. split; [done|by left].
  - assert (length (rlog r i) ≤ m)%nat as Hlen.
    { destruct (decide (length (rlog r i) ≤ m)%nat) as [|Hgt]; [done|]. destruct HP. apply Hiff.
      unfold snap_fits in Hfits. rewrite Hi, (h_index _ _ _ Hh), (holds_last_index _ _ _ Hh), Hlt in Hfits.
      rewrite !bool_decide_eq_false_2 in Hfits by lia. simpl in Hfits.
      destruct (log rf (Z.of_nat m)) as [e| |] eqn:Ee; try done. apply bool_decide_eq_true in Hfits.
      destruct (holds_term _ _ _ _ _ Hh Ee) as [_ Het]. split; [lia|congruence]. }
    eexists. split; [apply at_peer_intro; [done|apply (r_replace n r i m); [done|by rewrite <-n_term0, Ht..]|others]|].
    simpl. rewrite fn_lookup_insert, <-n_term0, Ht. fold X. split_and!; try done.
    + exists m. split; [done|by left].
    + split; [done|by rewrite length_take_le|]. exists {| e_Term := last_term (take m X); e_Command := None |}.
      rewrite El, (drop_ge (take m X) m) by (rewrite length_take; lia). rewrite take_take, Nat.min_id.
      destruct Hkept as [[Hle ->]|[Hlt' ->]]; [done|lia].
Qed.

Lemma fits_frame args rf rf1 : logs rf1 = logs rf → snapshotIndex rf1 = snapshotIndex rf →
  snap_fits args rf1 = snap_fits args rf.
Proof.
  intros El Es. destruct (lpart_log rf rf1 El Es) as [Hlog Hlast]. unfold snap_fits. by rewrite Hlog, Hlast, Es.
Qed.

(** the snapshot becomes the start of the log, and its entries are committed *)
Lemma installed_follows r i rf args m rf' kept :
  r_inv n r → node_rel r i rf → currentTerm rf = is_Term args → won r (is_Term args) →
  covers r (is_Term args) args m → snap_fits args rf = true → snapshotIndex rf < LastIncludedIndex args →
  lpart rf' = (currentTerm rf, voteFor rf, raftState rf,
               {| e_Term := LastIncludedTerm args; e_Command := None |} :: kept,
               LastIncludedIndex args, Z.max (commitIndex rf) (LastIncludedIndex args),
               Z.max (lastApplied rf) (LastIncludedIndex args), matchIndex rf) →
  (GetLastLogIndex rf ≤ LastIncludedIndex args ∧ kept = []
   ∨ LastIncludedIndex args < GetLastLogIndex rf
     ∧ kept = drop (S (Z.to_nat (LastIncludedIndex args - snapshotIndex rf))) (logs rf)) →
  follows r i rf' (λ r', acked r' (is_Term args) i m).
Proof.
  intros HI Hn Ht Hw Hcov Hfits Hnew [= E1 E2 E3 E4 E5 E6 E7 E8] Hkept.
  destruct (install_log r i rf args m rf' kept HI Hn Ht Hw Hcov Hfits Hnew E4 E5 Hkept)
    as (r1 & Hat & Hack & Ew & Et & Ec & El & Ev & Est & Eco & Hh & HP).
  pose proof (moves_inv _ _ _ HI (moves_once _ _ _ Hat)) as HI1. pose proof (prefix_length _ _ HP) as Hlen.
  destruct Hcov as (Hi & Hm & Hlt & Hb). rewrite length_take_le in Hlen by done.
  destruct Hn. destruct n_held0 as (s & Hs & Hh0). rewrite (h_index _ _ _ Hh0), Hi in *.
  assert (∀ r2, rterm r2 = rterm r1 → rlog r2 = rlog r1 → votes r2 = votes r1 → wins r2 = wins r1 →
    acks r2 = acks r1 → Z.of_nat (rcommit r2 i) = Z.max (commitIndex rf) (Z.of_nat m) → node_rel r2 i rf') as Hnode.
  { intros r2 Et2 El2 Ev2 Ew2 Ea2 Ec2.
    split; rewrite ?E1, ?E2, ?E3, ?E5, ?E6, ?E7, ?E8, ?Et2, ?El2, ?Ev2, ?Ew2, ?Et, ?Ev, ?Ew; try done; [|lia| |].
    - exists m. split; [lia|done].
    - intros _. left. unfold won. rewrite Ew2, Ew. rewrite Ht. exact Hw.
    - intros Hlead. destruct (n_lead0 Hlead) as (? & ? & Hmatch). split; [done|]. split; [done|].
      intros j v Hj Hne Hpos. unfold acked. rewrite Ea2.
      eapply (acked_only i r r1); [apply Hat|]. by apply Hmatch. }
  eapply follows_then; [by apply moves_once|done|].
  destruct (decide (rcommit r i < m)%nat) as [Hlt'|Hge].
  - destruct Hb as [->|(t' & k & Hin & Hle & Hck & HPc)]; [lia|].
    eexists. split; [apply moves_once, at_peer_intro; [done|apply (r_learn n r1 i m t' k)|others]|].
    + by rewrite Eco.
    + rewrite Et, <-n_term0, Ht. done.
    + done.
    + done.
    + rewrite El. rewrite (take_of_prefix m _ _ HP), take_take, Nat.min_id by (by rewrite length_take_le). done.
    + rewrite Ec. lia.
    + split; [|split; [done|done]]. apply Hnode; try done. simpl. rewrite fn_lookup_insert. lia.
  - exists r1. split; [apply moves_refl|]. split; [|done]. apply Hnode; try done. rewrite Ec. lia.
Qed.

Lemma install_follows clk r i cl args rf rf' eff reply :
  r_inv n r → node_rel r i rf → call_rel r cl → c_rpc cl = RpcSnap args None → c_to cl = i →
  snap_fits args rf = true → InstallSnapshot clk rf args = Ret (rf', eff, reply) →
  follows r i rf' (λ r', call_rel r' (with_rpc cl (RpcSnap args (Some reply))))
  ∧ ∀ m, m ∈ omap effect_msg eff → CommandValid m = false.
Proof.
  intros HI Hn Hcl Hrpc <- Hfits E. unfold call_rel in Hcl. rewrite Hrpc in Hcl.
  destruct Hcl as (w & m & Hw & Hwt & Hwp & Hcov & _). assert (won r (is_Term args)) as Hwon by (by exists w).
  assert (∀ r', moves (c_to cl) r r' → is_Term args < isr_Term reply ∨ acked r' (is_Term args) (c_to cl) m →
    call_rel r' (with_rpc cl (RpcSnap args (Some reply)))) as Hback.
  { intros r' [_ Ho] Hor. exists w, m. split; [by apply (o_grows _ _ _ Ho)|]. split; [done|]. split; [done|].
    split; [by eapply covers_only|]. intros rep [= <-] Hle. destruct Hor; [lia|done]. }
  destruct (InstallSnapshot_parts _ _ _ _ _ _ E) as [(-> & Hlt & ->)|(rf1 & Hent & H)].
  { split; [|by intros ? ?%not_elem_of_nil]. eapply follows_same; [done..|]. apply Hback; [apply moves_refl|by left]. }
  destruct (enter_follows r _ rf rf1 _ HI Hn Hent) as (r1 & Hm1 & Hn1 & Hw1 & Hlog & Hcom & Hterm).
  destruct (entered_logs _ _ _ Hent) as (El1 & Es1 & Ht1). pose proof (moves_inv _ _ _ HI Hm1) as HI1.
  assert (won r1 (is_Term args)) as Hwon1 by (by apply (won_grows r); [apply Hm1|]).
  assert (covers r1 (is_Term args) args m) as Hcov1 by (by eapply covers_only; [|apply Hm1|..]).
  assert (follows r1 (c_to cl) rf' (λ r', acked r' (is_Term args) (c_to cl) m)
    → follows r (c_to cl) rf' (λ r', call_rel r' (with_rpc cl (RpcSnap args (Some reply))))) as Hthen.
  { intros (r2 & Hm2 & Hn2 & Hw2 & Ha). exists r2. destruct Hm1, Hm2.
    assert (moves (c_to cl) r r2) as Hm by (split; [by etrans|by eapply only_trans]).
    split; [done|]. split; [done|]. split; [congruence|]. apply Hback; [done|by right]. }
  destruct H as [(Hl & Hold & ->)|(Hnew & -> & kept & Hl & Hkept)].
  - split; [apply Hthen|by intros ? ?%not_elem_of_nil].
    destruct (n_held _ _ _ Hn1) as (s & Hs & Hh). destruct Hcov1 as (Hi & Hm & _).
    rewrite Hi, (h_index _ _ _ Hh) in Hold. pose proof (n_term _ _ _ Hn1) as Et. rewrite Ht1 in Et.
    assert (take m (llog r1 (is_Term args)) `prefix_of` rlog r1 (c_to cl)) as HP.
    { assert (take m (rlog r1 (c_to cl)) `prefix_of` llog r1 (is_Term args)) as HP'.
      { apply committed_agrees; [done|done|lia|lia]. }
      pose proof (h_le _ _ _ Hh) as Hle.
      rewrite (take_of_prefix m _ _ HP') by (rewrite length_take_le; lia). rewrite take_take, Nat.min_id. apply prefix_take. }
    set (r2 := mkR (rterm r1) (rlog r1) (rcommit r1) (llog r1) (stands r1) (votes r1) (wins r1)
                 ((rterm r1 (c_to cl), c_to cl, m) :: acks r1) (committed r1)).
    assert (at_peer (c_to cl) r1 r2) as H2.
    { apply at_peer_intro; [done|apply (r_agree n r1 (c_to cl) m); by rewrite <-Et|others]. }
    exists r2. split; [by apply moves_once|]. split; [|split; [done|]].
    + eapply node_lpart; [exact Hl|]. destruct Hn1. split; try done.
      intros Hlead. destruct (n_lead0 Hlead) as (? & ? & Hmatch). split; [done|]. split; [done|].
      intros. eapply (acked_only (c_to cl) r1 r2); [apply H2|auto].
    + exists m. split; [done|]. simpl. rewrite Et. by left.
  - split; [apply Hthen|by intros ? ->%list_elem_of_singleton].
    eapply (installed_follows r1 _ rf1 args m rf' kept); try done. by rewrite (fits_frame args rf rf1).
Qed.

Lemma snap_reply_follows r i cl args reply rf rf' eff :
  r_inv n r → node_rel r i rf → call_rel r cl → c_rpc cl = RpcSnap args (Some reply) → c_from cl = i →
  sendInstallSnapshot_reply rf (Z.of_nat (c_to cl)) args reply = Ret (rf', eff) → follows r i rf' (λ _, True).
Proof.
  intros HI Hn Hcl Hrpc Hfrom E. unfold call_rel in Hcl. rewrite Hrpc in Hcl.
  destruct Hcl as (w & m & Hw & Hwt & Hwp & Hcov & Hack).
  destruct (snap_reply_parts _ _ _ _ _ _ E) as [Hl|[(t & Ht & Hl)|(Ht & Hs & m0 & Hm0 & Hl)]].
  - by eapply follows_same.
  - destruct (lower_follows r i rf rf' t HI Hn Hl) as (r' & ? & ? & ? & _); [lia|]. by exists r'.
  - exists r. split; [apply moves_refl|]. split; [|done]. destruct Hn. injection Hl as E1 E2 E3 E4 E5 E6 E7 E8.
    assert (is_Term args = currentTerm rf) as Heq.
    { destruct (v_leader _ _ HI w Hw) as [Hle _]. rewrite Hwt, Hwp, Hfrom in Hle. lia. }
    split; rewrite ?E1, ?E2, ?E3, ?E5, ?E6, ?E7, ?E8; try done.
    { destruct n_held0 as (s & ? & ?). exists s. eauto using holds_frame. }
    intros Hlead. destruct (n_lead0 Hlead) as (? & Hlen & Hmatch). split; [done|]. rewrite length_insert.
    split; [done|]. intros j v Hj Hne Hpos. apply list_lookup_insert_Some in Hj as [(<- & Hv & _)|[_ Hj]]; [|eauto].
    destruct (decide (m0 = v)) as [->|Hnv]; [eauto|]. destruct Hcov as (Hi & _).
    assert (v = Z.of_nat m) as -> by lia. rewrite Nat2Z.id, <-Heq. eauto.
Qed.

(** ** Every action is matched *)

(** an action in order: a service only compacts what its peer applied, and no
    snapshot arrives at a peer whose log is longer and has an entry of another
    term at its index *)
Definition orderly (a : action Cmd Snap) c : bool :=
  match a with
  | ASnapshot i idx _ =>
      match nodes c !! i with Some rf => bool_decide (idx ≤ lastApplied rf) | None => true end
  | ADeliver k _ =>
      match calls c !! k with
      | Some cl =>
          match c_rpc cl, nodes c !! c_to cl with
          | RpcSnap args None, Some rf => snap_fits args rf
          | _, _ => true
          end
      | None => true
      end
  | _ => true
  end.

Fixpoint orderly_run (acts : list (action Cmd Snap)) c : option (cluster Cmd Snap) :=
  match acts with
  | [] => Some c
  | a :: acts' => if orderly a c then c' ← cluster_step a c; orderly_run acts' c' else None
  end.

Lemma log_only_orderly a c : log_only a c = true → orderly a c = true.
Proof.
  destruct a; try done. unfold log_only, orderly. destruct (calls c !! k) as [cl|]; [|done]. simpl.
  by destruct (c_rpc cl).
Qed.

(** in particular runs without snapshots *)
Lemma orderly_run_app acts acts' c : orderly_run (acts ++ acts') c = c' ← orderly_run acts c; orderly_run acts' c'.
Proof.
  revert c. induction acts as [|a acts IH]; intros c; [done|]. simpl. destruct (orderly a c); [|done].
  destruct (cluster_step a c); simpl; [apply IH|done].
Qed.

Lemma log_only_run_orderly acts c c' : log_only_run acts c = Some c' → orderly_run acts c = Some c'.
Proof.
  revert c. induction acts as [|a acts IH]; intros c E; simpl in *; [done|].
  destruct (log_only a c) eqn:Ha; [|done]. rewrite (log_only_orderly _ _ Ha).
  apply bind_Some in E as (c1 & -> & E). simpl. auto.
Qed.

Section step.
(** the pairs (term, leader) of a whole run: one leader per term *)
Context (W : list (Z * nat)) (HW : ∀ t x y, (t, x) ∈ W → (t, y) ∈ W → x = y).

Definition winners r : Prop := ∀ w, w ∈ wins r → (w_term w, w_peer w) ∈ W.

Definition lsimulated r c' : Prop :=
  ∃ r', rtc (r_step n) r r' ∧ lsim r' c' ∧ winners r'.

Lemma simulated_same r c' : lsim r c' → winners r → lsimulated r c'.
Proof. intros ??. by exists r. Qed.

Lemma simulated_node r c i rf' c' (P : @rstate Cmd → Prop) :
  r_inv n r → lsim r c → winners r → follows r i rf' P →
  (∀ r', P r' → only i r r' → lsim r' (set_node i rf' c) → lsim r' c') → lsimulated r c'.
Proof.
  intros HI Hs Hw (r' & Hm & Hn & Hwins & HP) Hc'. exists r'. split; [apply Hm|].
  split; [|unfold winners; by rewrite Hwins].
  apply Hc'; [done|apply Hm|]. by eapply lsim_node.
Qed.

Lemma peer_facts c i rf : cluster_reachable n c → nodes c !! i = Some rf →
  peers rf = n ∧ me rf = Z.of_nat i ∧ recoverable rf.
Proof.
  intros Hc Hi. destruct (cluster_refines n c Hc) as (s & _ & Hs).
  destruct (sim_node _ _ _ Hs i rf Hi) as (? & ? & ? & _). done.
Qed.

Lemma call_at r c k cl : lsim r c → calls c !! k = Some cl → call_rel r cl.
Proof. intros Hs Hk. exact (proj1 (Forall_lookup _ _) (l_calls _ _ Hs) k cl Hk). Qed.

Lemma deliver_simulated k clk c c' r :
  cluster_reachable n c → r_inv n r → lsim r c → winners r →
  orderly (ADeliver k clk) c = true → deliver k clk c = Some c' → lsimulated r c'.
Proof.
  intros Hc HI Hs Hw Hlog E. unfold deliver in E. apply bind_Some in E as (cl & Hk & E).
  apply bind_Some in E as (rf & Hi & E). simpl in Hlog. rewrite Hk, Hi in Hlog.
  pose proof (call_at _ _ _ _ Hs Hk) as Hcl. pose proof (l_nodes _ _ Hs _ _ Hi) as Hn.
  destruct (c_rpc cl) as [args tries [rep|]|args [rep|]|args [rep|]] eqn:Hrpc; try discriminate E; try done.
  - apply bind_Some in E as ([[rf' eff] reply] & E1%of_ret_Some & E).
    pose proof (vote_follows _ _ _ _ _ _ _ _ _ _ HI Hn Hcl Hrpc E1) as Hf.
    eapply (simulated_node _ c); [done..|]. intros r' HP Ho [H1 H2 H3 H4 H5].
    assert (call_rel r' (with_rpc cl (RpcVote args tries (Some reply)))) as Hcl'.
    { pose proof (call_only _ _ _ _ HI Ho Hcl) as H. unfold call_rel in *. by rewrite Hrpc in H. }
    destruct (VoteGranted reply) eqn:Hg; injection E as <-; split; simpl; try done.
    + apply Forall_insert; [exact H2|done].
    + intros t v x [[= -> -> ->]|Hin]%elem_of_cons; [auto|by apply H3].
    + apply Forall_insert; [exact H2|done].
  - apply bind_Some in E as ([[rf' eff] reply] & E1%of_ret_Some & E). injection E as <-.
    pose proof (append_follows _ _ _ _ _ _ _ _ _ HI Hn Hcl Hrpc eq_refl E1) as Hf.
    eapply (simulated_node _ c); [done..|]. intros r' HP Ho [H1 H2 H3 H4 H5]. split; simpl; try done.
    apply Forall_insert; [exact H2|done].
  - apply bind_Some in E as ([[rf' eff] reply] & E1%of_ret_Some & E). injection E as <-.
    destruct (install_follows _ _ _ _ _ _ _ _ _ HI Hn Hcl Hrpc eq_refl Hlog E1) as [Hf Hmsgs].
    eapply (simulated_node _ c); [done..|]. intros r' HP Ho [H1 H2 H3 H4 H5]. split; simpl; try done.
    + apply Forall_insert; [exact H2|done].
    + intros j d m Hd Hm. destruct (decide (c_to cl = j)) as [<-|Hne].
      * rewrite list_lookup_alter_eq in Hd. apply fmap_Some in Hd as (d0 & Hd0 & ->).
        apply elem_of_app in Hm as [Hm|Hm]; [by eapply H4|]. left. by apply Hmsgs.
      * rewrite list_lookup_alter_ne in Hd by done. by eapply H4.
Qed.

Lemma vote_reply_simulated k clk c c' r cl args tries reply rf rf' eff :
  cluster_reachable n c → cluster_reachable n c' → r_inv n r → lsim r c → winners r →
  (∀ i rf, nodes c' !! i = Some rf → raftState rf = RaftLeader → (currentTerm rf, i) ∈ W) →
  calls c !! k = Some cl → c_rpc cl = RpcVote args tries (Some reply) → nodes c !! c_from cl = Some rf →
  sendRequestVote_reply clk rf args reply = Ret (rf', eff) →
  c' = set_node (c_from cl) rf' (set_calls (delete k (calls c)) c) → lsimulated r c'.
Proof.
  intros Hc Hcr' HI Hs Hw Hlead Hk Hrpc Hi E Ec'.
  pose proof (l_nodes _ _ Hs _ _ Hi) as Hn. destruct (peer_facts c _ rf Hc Hi) as (Hp & Hme & _).
  assert (∀ r', lsim r' (set_node (c_from cl) rf' c) → lsim r' c') as Hdel.
  { intros r' H. rewrite Ec'.
    change (lsim r' (set_calls (delete k (calls c)) (set_node (c_from cl) rf' c))).
    apply lsim_calls; [done|]. apply Forall_delete, H. }
  destruct (vote_reply_parts _ _ _ _ _ _ E) as [Hl|[(t & Ht & Hl)|(Hcand & Hel)]].
  - eapply (simulated_node _ c _ rf' _ (λ _, True)); [done..|by eapply follows_same|eauto].
  - eapply (simulated_node _ c); [done..|apply (lower_follows r _ rf rf' t HI Hn Hl); lia|eauto].
  - assert (nodes c' !! c_from cl = Some rf') as Hi'.
    { rewrite Ec'. simpl. apply list_lookup_insert_eq. by eapply lookup_lt_Some. }
    assert (raftState rf' = RaftLeader ∧ currentTerm rf' = currentTerm rf) as [Hl' Ht'].
    { destruct Hel as (mis & Hel & _). by injection Hel. }
    specialize (Hlead _ _ Hi' Hl') as HinW. rewrite Ht' in HinW.
    assert (¬ won r (currentTerm rf)) as Hno.
    { intros (w & Hin & Hwt). specialize (Hw w Hin) as HwW. rewrite Hwt in HwW.
      assert (w_peer w = c_from cl) as Hwp by (by eapply HW).
      by apply (n_once _ _ _ Hn w Hin Hwp Hwt). }
    destruct (cluster_refines n c' Hcr') as (s & Hr & Hsim).
    pose proof (leader_won n c' s _ rf' Hr Hsim Hi' Hl') as Hwon. rewrite Ht' in Hwon.
    destruct (i_wins _ _ (e_reachable_inv n s Hr) _ _ Hwon) as (Q & Hnd & Hlen & _ & HQ).
    destruct (win_follows r (c_from cl) rf rf' Q HI Hn Hme Hp Hcand Hel Hno) as (r' & Hm & Hn' & Hwins).
    + split; [done|]. split; [done|]. intros v Hv. by apply HQ.
    + intros v Hv. destruct (HQ v Hv) as [_ Hin]. destruct (sim_votes _ _ _ Hsim _ _ _ Hin) as [->|Hg].
      * destruct (n_cand _ _ _ Hn Hcand) as [|[_ ?]]; [done|eauto].
      * rewrite Ec' in Hg. by apply (l_grants _ _ Hs).
    + exists r'. split; [apply Hm|]. split.
      * apply Hdel. by eapply lsim_node.
      * intros w Hin. destruct (Hwins w Hin) as [|[-> ->]]; [by apply Hw|done].
Qed.

Lemma reply_simulated k clk c c' r :
  cluster_reachable n c → cluster_reachable n c' → r_inv n r → lsim r c → winners r →
  (∀ i rf, nodes c' !! i = Some rf → raftState rf = RaftLeader → (currentTerm rf, i) ∈ W) →
  handle_reply k clk c = Some c' → lsimulated r c'.
Proof.
  intros Hc Hcr' HI Hs Hw Hlead E. unfold handle_reply in E. apply bind_Some in E as (cl & Hk & E).
  apply bind_Some in E as (rf & Hi & E). apply bind_Some in E as (epoch & _ & E).
  destruct (decide _); [|done]. apply bind_Some in E as ([rf' eff] & E1%of_ret_Some & E). injection E as Ec'.
  pose proof (call_at _ _ _ _ Hs Hk) as Hcl. pose proof (l_nodes _ _ Hs _ _ Hi) as Hn.
  destruct (c_rpc cl) as [args tries [rep|]|args [rep|]|args [rep|]] eqn:Hrpc; try discriminate E1.
  - eapply (vote_reply_simulated k clk c c' r cl args tries rep rf rf' eff); done.
  - pose proof (append_reply_follows _ _ _ _ _ _ _ _ HI Hn Hcl Hrpc eq_refl E1) as Hf.
    eapply (simulated_node _ c); [done..|]. intros r' _ _ H. rewrite <-Ec'.
    change (lsim r' (set_calls (delete k (calls c)) (set_node (c_from cl) rf' c))).
    apply lsim_calls; [done|]. apply Forall_delete, H.
  - pose proof (snap_reply_follows _ _ _ _ _ _ _ _ HI Hn Hcl Hrpc eq_refl E1) as Hf.
    eapply (simulated_node _ c); [done..|]. intros r' _ _ H. rewrite <-Ec'.
    change (lsim r' (set_calls (delete k (calls c)) (set_node (c_from cl) rf' c))).
    apply lsim_calls; [done|]. apply Forall_delete, H.
Qed.

Lemma lsim_step a c c' r :
  cluster_reachable n c → r_inv n r → lsim r c → winners r →
  (∀ i rf, nodes c' !! i = Some rf → raftState rf = RaftLeader → (currentTerm rf, i) ∈ W) →
  orderly a c = true → cluster_step a c = Some c' → lsimulated r c'.
Proof.
  intros Hc HI Hs Hw Hlead Hlog E. pose proof (cluster_reachable_step n a c c' Hc E) as Hcr'.
  destruct a as [i clk|i|i|i|i|i command|i idx snap|k clk|k|k clk|i clk]; simpl in E.
  - act_inv. destruct (peer_facts c i _ Hc ltac:(eassumption)) as (_ & Hme & _).
    eapply (simulated_node _ c); [done..|eapply tick_follows; try done; by apply Hs|].
    intros r' HP Ho Hs'. apply lsim_calls; [done|]. apply Forall_app. split; [apply Hs'|exact HP].
  - act_inv. apply simulated_same; [|done]. apply lsim_calls; [done|]. apply Forall_app. split; [apply Hs|].
    eapply heartBeat_calls; try done. by apply Hs.
  - act_inv. destruct (peer_facts c i _ Hc ltac:(eassumption)) as (_ & Hme & _).
    eapply (simulated_node _ c); [done..|eapply commit_follows; try done; by apply Hs|]. done.
  - act_inv. case_match; [|done]. injection E as <-.
    edestruct apply_messages as [Hn' Hms]; [done|by apply Hs|done|].
    apply simulated_same; [|done].
    match goal with _ : node_rel r i ?rf' |- _ =>
      pose proof (lsim_node r r c i rf' HI Hs (moves_refl i r) Hn') as [Hs1 Hs2 Hs3 Hs4 Hs5] end.
    split; simpl; try done. intros j d m Hd Hm. apply list_lookup_insert_Some in Hd as [(<- & <- & _)|[_ Hd]]; [auto|].
    by eapply Hs5.
  - act_inv. case_match; [done|]. injection E as <-. apply simulated_same; [|done].
    destruct Hs as [Hs1 Hs2 Hs3 Hs4 Hs5]. split; simpl; try done.
    + intros j d m Hd Hm. destruct (decide (i = j)) as [<-|].
      * rewrite list_lookup_alter_eq in Hd. apply fmap_Some in Hd as (d0 & Hd0 & ->).
        apply elem_of_app in Hm as [Hm|Hm]; [by eapply Hs4|]. apply list_elem_of_singleton in Hm as ->.
        eapply Hs5; [done|by left].
      * rewrite list_lookup_alter_ne in Hd by done. by eapply Hs4.
    + intros j d m Hd Hm. apply list_lookup_insert_Some in Hd as [(<- & <- & _)|[_ Hd]]; [|by eapply Hs5].
      eapply Hs5; [done|by right].
  - apply bind_Some in E as (rf & Hi & E). destruct (Start command rf) as [[rf' ?] ?] eqn:E1. injection E as <-.
    eapply (simulated_node _ c); [done..|eapply start_follows; try done; by apply Hs|]. done.
  - apply bind_Some in E as (rf & Hi & E). simpl in Hlog. rewrite Hi in Hlog.
    apply bind_Some in E as (rf' & E1%of_ret_Some & E). injection E as <-. apply simulated_same; [|done].
    eapply (lsim_node r r); [done..|apply moves_refl|]. eapply snapshot_related; [by apply Hs|done|].
    by apply bool_decide_eq_true in Hlog.
  - by eapply (deliver_simulated k clk c c' r).
  - unfold lose in E. apply bind_Some in E as (cl & Hk & E). apply simulated_same; [|done].
    pose proof (call_at _ _ _ _ Hs Hk) as Hcl. unfold call_rel in Hcl.
    destruct (c_rpc cl) as [args [|[|tries]] rep|args rep|args rep] eqn:Hrpc; injection E as <-;
      (apply lsim_calls; [done|]); try (apply Forall_delete, Hs).
    apply Forall_insert; [apply Hs|]. exact Hcl.
  - by eapply (reply_simulated k clk c c' r).
  - act_inv. destruct (peer_facts c i _ Hc ltac:(eassumption)) as (_ & _ & Hrec).
    eapply (simulated_node _ c); [done..|eapply restart_follows; try done; by apply Hs|].
    intros r' _ _ [Hs1 Hs2 Hs3 Hs4 Hs5]. split; simpl; [exact Hs1|exact Hs2|exact Hs3| |].
    + intros j d m Hd Hm. apply list_lookup_insert_Some in Hd as [(_ & <- & _)|[_ Hd]]; [|by eapply Hs4].
      by apply not_elem_of_nil in Hm.
    + intros j d m Hd Hm. apply list_lookup_insert_Some in Hd as [(_ & <- & _)|[_ Hd]]; [|by eapply Hs5].
      by apply not_elem_of_nil in Hm.
Qed.
End step.
(** ** Runs *)

(** the (term, peer) pairs of the leaders in a state, and in all states of a run *)
Definition leaders c : list (Z * nat) :=
  mjoin (imap (λ i rf, if decide (raftState rf = RaftLeader) then [(currentTerm rf, i)] else []) (nodes c)).

Fixpoint led (acts : list (action Cmd Snap)) c : list (Z * nat) :=
  leaders c ++ match acts with
               | [] => []
               | a :: acts' => match cluster_step a c with Some c' => led acts' c' | None => [] end
               end.

Definition one_leader_per_term acts c : Prop := ∀ t x y, (t, x) ∈ led acts c → (t, y) ∈ led acts c → x = y.

Lemma elem_of_leaders c t i : (t, i) ∈ leaders c ↔
  ∃ rf, nodes c !! i = Some rf ∧ raftState rf = RaftLeader ∧ currentTerm rf = t.
Proof.
  unfold leaders. rewrite list_elem_of_join. split.
  - intros (l & Hin & Hl). apply elem_of_lookup_imap in Hl as (j & rf & -> & Hj).
    destruct (decide _); [|by apply not_elem_of_nil in Hin].
    apply list_elem_of_singleton in Hin as [= -> ->]. by exists rf.
  - intros (rf & Hi & Hl & <-). exists [(currentTerm rf, i)]. split; [by left|].
    apply elem_of_lookup_imap. exists i, rf. by rewrite decide_True.
Qed.

(** with an even number of peers, every run has one leader per term *)
Lemma run_winners acts c c' s : e_reachable n s → sim n s c → cluster_run acts c = Some c' →
  ∃ s', e_reachable n s' ∧ sim n s' c' ∧ (∀ p, p ∈ wns s → p ∈ wns s') ∧ ∀ p, p ∈ led acts c → p ∈ wns s'.
Proof.
  revert c s. induction acts as [|a acts IH]; intros c s Hr Hs E; simpl in *.
  all: assert (∀ p, p ∈ leaders c → p ∈ wns s) as Hl by
    (intros [t i] (rf & Hi & Hl & <-)%elem_of_leaders; by eapply leader_won).
  - injection E as <-. exists s. split_and!; try done. intros p. rewrite app_nil_r. apply Hl.
  - apply bind_Some in E as (c1 & E1 & E). rewrite E1.
    destruct (simulated_step n a s c c1 (e_reachable_inv n s Hr) Hs E1) as (s1 & Hst & Hs1).
    assert (e_reachable n s1) as Hr1.
    { destruct Hr as (s0 & H0 & Hr). exists s0. split; [done|]. by etrans. }
    destruct (IH c1 s1 Hr1 Hs1 E) as (s' & ? & ? & Hmono & Hled). exists s'. split_and!; try done.
    all: assert (∀ p, p ∈ wns s → p ∈ wns s1) as Hw by
      (clear -Hst; induction Hst as [|? ? ? Hst1]; [done|]; intros; apply IHHst; by apply (step_history n _ _ Hst1)).
    + auto.
    + intros p [?|?]%elem_of_app; auto.
Qed.

Lemma even_one_leader clk acts c : Nat.Even n → cluster_run acts (cluster_init clk n) = Some c →
  one_leader_per_term acts (cluster_init (Cmd:=Cmd) (Snap:=Snap) clk n).
Proof.
  intros Hev E t x y Hx Hy.
  assert (e_reachable n e_init) as H0 by (by exists e_init).
  destruct (run_winners acts _ c e_init H0 (sim_init n clk) E) as (s & Hr & _ & _ & Hled).
  eapply even_one_winner; [by apply e_reachable_inv|done|by apply Hled|by apply Hled].
Qed.

Lemma orderly_run_run acts c c' : orderly_run acts c = Some c' → cluster_run acts c = Some c'.
Proof.
  revert c. induction acts as [|a acts IH]; intros c E; simpl in *; [done|].
  destruct (orderly a c); [|done]. apply bind_Some in E as (c1 & -> & E). simpl. auto.
Qed.

Lemma led_app acts acts' c c' p : cluster_run acts c = Some c' → p ∈ led acts' c' → p ∈ led (acts ++ acts') c.
Proof.
  revert c. induction acts as [|a acts IH]; intros c E Hp; simpl in *; [by injection E as <-|].
  apply bind_Some in E as (c1 & E1 & E). rewrite E1. apply elem_of_app. right. auto.
Qed.

Lemma led_prefix acts acts' c c' p : cluster_run acts c = Some c' → p ∈ led acts c → p ∈ led (acts ++ acts') c.
Proof.
  revert c. induction acts as [|a acts IH]; intros c E Hp; simpl in *.
  - rewrite app_nil_r in Hp. destruct acts'; simpl; apply elem_of_app; by left.
  - apply bind_Some in E as (c1 & E1 & E). rewrite E1 in *.
    apply elem_of_app in Hp as [Hp|Hp]; apply elem_of_app; [by left|right; auto].
Qed.

Lemma led_here acts c p : p ∈ leaders c → p ∈ led acts c.
Proof. intros. destruct acts; simpl; apply elem_of_app; by left. Qed.

Lemma lsim_run W acts c c' r :
  (∀ t x y, (t, x) ∈ W → (t, y) ∈ W → x = y) → (∀ p, p ∈ led acts c → p ∈ W) →
  cluster_reachable n c → r_reachable n r → lsim r c → winners W r → orderly_run acts c = Some c' →
  ∃ r', rtc (r_step n) r r' ∧ lsim r' c' ∧ winners W r'.
Proof.
  intros HW. revert c r. induction acts as [|a acts IH]; intros c r Hled Hc Hr Hs Hw E; simpl in *.
  - injection E as <-. by exists r.
  - destruct (orderly a c) eqn:Hlog; [|done]. apply bind_Some in E as (c1 & E1 & E). rewrite E1 in Hled.
    destruct (lsim_step W HW a c c1 r) as (r1 & Hst & Hs1 & Hw1); try done.
    + by apply r_reachable_inv.
    + intros i rf Hi Hl. apply Hled, elem_of_app. right. apply led_here, elem_of_leaders. eauto.
    + destruct (IH c1 r1) as (r' & Hst' & ? & ?); try done.
      * intros p Hp. apply Hled, elem_of_app. by right.
      * by eapply cluster_reachable_step.
      * destruct Hr as (r0 & H0 & Hr). exists r0. split; [done|]. by etrans.
      * exists r'. split; [by etrans|done].
Qed.

Lemma lsim_init clk : lsim r_init (cluster_init clk n).
Proof.
  split; simpl.
  - intros i rf Hi. apply list_lookup_fmap_Some in Hi as (j & -> & Hj). split; simpl; try done; [|intros; lia].
    exists O. split; [done|]. split; [done|done|]. by eexists.
  - constructor.
  - intros t v x Hin. by apply not_elem_of_nil in Hin.
  - intros i d m Hd Hm. apply lookup_replicate in Hd as [-> _]. by apply not_elem_of_nil in Hm.
  - intros i d m Hd Hm. apply lookup_replicate in Hd as [-> _]. by apply not_elem_of_nil in Hm.
Qed.

Lemma rtc_mono r r' : r_inv n r → rtc (r_step n) r r' →
  r_inv n r' ∧ grows r r' ∧ ∀ a, a ∈ committed r → a ∈ committed r'.
Proof.
  intros HI Hst. induction Hst as [r|r1 r2 r3 Hst1 Hst IH].
  - split; [done|]. split; [by apply grows_same|done].
  - destruct (step_mono n _ _ HI Hst1) as (Hg & _ & _ & _ & _ & Hc).
    destruct IH as (? & Hg' & Hc'); [by eapply r_step_inv|]. split; [done|].
    split; [by eapply grows_trans|auto].
Qed.
End refinement.
