(* ===== verification/RaftAgreement.v ===== *)
(** * Agreement of the replicated logs

    The guarantees of Raft for runs of a cluster in which no term has two leaders
    (every run of an even number of peers is one): log matching, leader
    completeness and state machine safety.  With two leaders in a term they
    fail: [state_machine_safety_fails].  Peers compact their logs and install
    the snapshots of leaders; the runs are [orderly]: services compact what
    their peers applied, and no snapshot is installed in front of entries that
    contradict it, which InstallSnapshot does not check
    ([stale_tail_survives]). *)

From stdpp Require Import functions.
From S2P Require Import Prelude RaftNode RaftFacts RaftCluster Election RaftElection RaftLog RaftSafety.
From S2P Require Import RaftParts Replication RaftReplication.
Local Open Scope Z_scope.

Section agreement.
Context {Cmd Snap : Type}.
Implicit Types (rf : Raft Cmd Snap) (c : cluster Cmd Snap).

(** a run of [n] peers, seen at two moments *)
Record run_of (n : nat) (clk : clock) (acts1 acts2 : list (action Cmd Snap)) c1 c2 : Prop := {
  run_first : orderly_run acts1 (cluster_init clk n) = Some c1;
  run_then : orderly_run acts2 c1 = Some c2;
  run_single : Nat.Even n ∨ one_leader_per_term (acts1 ++ acts2) (cluster_init clk n)
}.

Lemma runs_related n clk acts1 acts2 c1 c2 : run_of n clk acts1 acts2 c1 c2 →
  ∃ r1 r2, r_inv n r1 ∧ r_inv n r2 ∧ rtc (r_step n) r1 r2 ∧ lsim n r1 c1 ∧ lsim n r2 c2.
Proof.
  intros [E1 E2 Hone].
  pose proof (orderly_run_run _ _ _ E1) as E1'. pose proof (orderly_run_run _ _ _ E2) as E2'.
  set (W := led (acts1 ++ acts2) (cluster_init clk n)).
  assert (∀ t x y, (t, x) ∈ W → (t, y) ∈ W → x = y) as HW.
  { destruct Hone as [Hev|Hone]; [|exact Hone].
    apply (even_one_leader n clk (acts1 ++ acts2) c2 Hev). by rewrite cluster_run_app, E1'. }
  assert (cluster_reachable n (cluster_init (Cmd:=Cmd) (Snap:=Snap) clk n)) as H0 by (by exists clk, []).
  assert (r_reachable n (@r_init Cmd)) as Hr0 by (by exists r_init).
  assert (winners W (@r_init Cmd)) as Hw0 by (by intros w ?%not_elem_of_nil).
  destruct (lsim_run n W acts1 (cluster_init clk n) c1 r_init HW) as (r1 & Hst1 & Hs1 & Hw1); try done.
  { intros p Hp. unfold W. by eapply led_prefix. }
  { apply lsim_init. }
  assert (r_reachable n r1) as Hr1 by (by exists r_init).
  destruct (lsim_run n W acts2 c1 c2 r1 HW) as (r2 & Hst2 & Hs2 & _); try done.
  { intros p Hp. by eapply led_app. }
  { by exists clk, acts1. }
  exists r1, r2. split; [by apply r_reachable_inv|]. split; [|done].
  apply r_reachable_inv. exists r_init. split; [done|]. by etrans.
Qed.

(** the entries a peer still has *)
Lemma log_at n r i rf k : node_rel n r i rf → snapshotIndex rf < k →
  log rf k = match rlog r i !! Z.to_nat (k - 1) with Some e => Ret e | None => Panic end.
Proof.
  intros [] Hk. destruct n_held as (s & Hs & [Hi Hle (h & Hl & _)]). rewrite log_lookup by lia. rewrite Hi, Hl in *.
  replace (Z.to_nat (k - Z.of_nat s)) with (S (Z.to_nat (k - 1) - s)) by lia. simpl. rewrite lookup_drop.
  by replace (s + (Z.to_nat (k - 1) - s))%nat with (Z.to_nat (k - 1)) by lia.
Qed.

(** C18. Log matching: if the logs of two peers have entries of the same term at
    some index, the logs are identical up to that index, as far as both peers
    still have them; their terms also agree at the end of the snapshots.  The
    provisos are those of [state_machine_safety]; without the second
    [stale_tail_survives] shows logs that do not match. *)
Theorem log_matching n clk acts c i j rfi rfj k e e' :
  run_of n clk acts [] c c → nodes c !! i = Some rfi → nodes c !! j = Some rfj → 0 < k →
  log rfi k = Ret e → log rfj k = Ret e' → e_Term e = e_Term e' →
  ∀ k', snapshotIndex rfi ≤ k' ≤ k → snapshotIndex rfj ≤ k' →
  e_Term <$> of_ret (log rfi k') = e_Term <$> of_ret (log rfj k')
  ∧ (snapshotIndex rfi < k' → snapshotIndex rfj < k' → log rfi k' = log rfj k').
Proof.
  intros Hrun Hi Hj Hk He He' Ht k' Hk' Hk''.
  destruct (runs_related _ _ _ _ _ _ Hrun) as (_ & r & _ & HI & _ & _ & Hs).
  pose proof (l_nodes _ _ _ Hs i rfi Hi) as Hni. pose proof (l_nodes _ _ _ Hs j rfj Hj) as Hnj.
  destruct (n_held _ _ _ _ Hni) as (si & _ & Hhi). destruct (n_held _ _ _ _ Hnj) as (sj & _ & Hhj).
  rewrite (h_index _ _ _ Hhi), (h_index _ _ _ Hhj) in *.
  replace k with (Z.of_nat (Z.to_nat k)) in He, He' by lia.
  destruct (holds_term _ _ _ _ _ Hhi He) as [Hki Hti]. destruct (holds_term _ _ _ _ _ Hhj He') as [Hkj Htj].
  assert (take (Z.to_nat k) (rlog r i) = take (Z.to_nat k) (rlog r j)) as Heq.
  { apply (last_term_common r); [apply (v_matched _ _ HI)|apply (v_matched _ _ HI)|lia|lia|congruence]. }
  assert (∀ p, (p ≤ Z.to_nat k)%nat → take p (rlog r i) = take p (rlog r j)) as Htake.
  { intros p Hp. replace p with (p `min` Z.to_nat k)%nat by lia. by rewrite <-!take_take, Heq. }
  split.
  - destruct (log_in_range rfi k') as [x Hx]; [rewrite (holds_last_index _ _ _ Hhi), (h_index _ _ _ Hhi); lia|].
    destruct (log_in_range rfj k') as [y Hy]; [rewrite (holds_last_index _ _ _ Hhj), (h_index _ _ _ Hhj); lia|].
    rewrite Hx, Hy. simpl. f_equal. replace k' with (Z.of_nat (Z.to_nat k')) in Hx, Hy by lia.
    destruct (holds_term _ _ _ _ _ Hhi Hx) as [_ ->]. destruct (holds_term _ _ _ _ _ Hhj Hy) as [_ ->].
    by rewrite Htake by lia.
  - intros Hlt Hlt'. rewrite (log_at n r i rfi k' Hni), (log_at n r j rfj k' Hnj)
      by (by rewrite ?(h_index _ _ _ Hhi), ?(h_index _ _ _ Hhj)).
    rewrite <-(lookup_take_lt (rlog r i) (Z.to_nat k)), Heq, lookup_take_lt by lia. done.
Qed.

(** C7. Leader completeness: an entry that any peer holds committed at one
    moment is in the log, at the same index, of every peer that leads that term
    or a later one from then on, unless the leader's snapshot covers it.  The
    provisos are those of [state_machine_safety]: one leader per term or an even
    number of peers, and an orderly run. *)
Theorem leader_completeness n clk acts1 acts2 c1 c2 i j rfi rfj k :
  run_of n clk acts1 acts2 c1 c2 → nodes c1 !! i = Some rfi → nodes c2 !! j = Some rfj →
  raftState rfj = RaftLeader → currentTerm rfi ≤ currentTerm rfj → snapshotIndex rfi < k ≤ commitIndex rfi →
  k ≤ GetLastLogIndex rfj ∧ ∃ e, log rfi k = Ret e ∧ (snapshotIndex rfj < k → log rfj k = Ret e).
Proof.
  intros Hrun Hi Hj Hlead Hterm Hk.
  destruct (runs_related _ _ _ _ _ _ Hrun) as (r1 & r2 & HI1 & HI2 & Hst & Hs1 & Hs2).
  pose proof (l_nodes _ _ _ Hs1 i rfi Hi) as Hni. pose proof (l_nodes _ _ _ Hs2 j rfj Hj) as Hnj.
  destruct (n_held _ _ _ _ Hni) as (si & _ & Hhi). destruct (n_held _ _ _ _ Hnj) as (sj & _ & Hhj).
  rewrite (log_at n r1 i rfi k Hni) by lia. rewrite (h_index _ _ _ Hhi) in Hk.
  rewrite (n_commit _ _ _ _ Hni), (n_term _ _ _ _ Hni), (n_term _ _ _ _ Hnj) in *.
  destruct (rtc_mono n r1 r2 HI1 Hst) as (_ & Hg & Hc).
  destruct (v_commit _ _ HI1 i) as [Hz|(t & k' & Hin & Ht & Hck & Hlen & HP)]; [lia|].
  destruct (v_committed _ _ HI1 t k' Hin) as (Hw & Hk' & _).
  destruct (n_lead _ _ _ _ Hnj Hlead) as ((w & Hww & Hwt & Hwp) & _ & _).
  rewrite (n_term _ _ _ _ Hnj) in Hwt.
  destruct (v_leader _ _ HI2 w Hww) as [_ Hll]. rewrite Hwp, Hwt in Hll.
  assert (kept r2 t k' (llog r2 (rterm r2 j))) as Hkept.
  { apply (committed_kept n); [done|by apply Hc|by exists w|lia]. }
  unfold kept in Hkept. rewrite (take_of_prefix k' _ _ (llog_grows _ _ _ Hg Hw) Hk') in Hkept.
  destruct (lookup_lt_is_Some_2 (rlog r1 i) (Z.to_nat (k - 1))) as [e He]; [lia|].
  assert (rlog r2 j !! Z.to_nat (k - 1) = Some e) as Hej.
  { rewrite Hll by done. eapply (prefix_lookup (take k' (llog r1 t))); [exact Hkept|].
    rewrite lookup_take_lt by lia. eapply prefix_lookup; [exact HP|]. rewrite lookup_take_lt; [done|lia]. }
  split; [rewrite (holds_last_index _ _ _ Hhj); apply lookup_lt_Some in Hej; lia|].
  exists e. rewrite He. split; [done|]. intros Hlt. by rewrite (log_at n r2 j rfj k Hnj), Hej.
Qed.

(** two services receive the same command at the same index *)
Lemma same_command n clk acts1 acts2 c1 c2 i j d1 d2 m1 m2 :
  run_of n clk acts1 acts2 c1 c2 → delivered c1 !! i = Some d1 → delivered c2 !! j = Some d2 →
  m1 ∈ d1 → m2 ∈ d2 → CommandValid m1 = true → CommandValid m2 = true →
  CommandIndex m1 = CommandIndex m2 → am_Command m1 = am_Command m2.
Proof.
  intros Hrun Hi Hj H1 H2 Hv1 Hv2 Hidx.
  destruct (runs_related _ _ _ _ _ _ Hrun) as (r1 & r2 & HI1 & HI2 & Hst & Hs1 & Hs2).
  destruct (rtc_mono n r1 r2 HI1 Hst) as (_ & Hg & Hc).
  destruct (l_delivered _ _ _ Hs1 i d1 m1 Hi H1) as [|(t1 & k1 & x1 & e1 & Hin1 & Hx1 & Hk1 & He1 & ->)]; [congruence|].
  destruct (l_delivered _ _ _ Hs2 j d2 m2 Hj H2) as [|(t2 & k2 & x2 & e2 & Hin2 & Hx2 & Hk2 & He2 & ->)]; [congruence|].
  assert (x1 = x2) as -> by lia.
  assert (llog r2 t1 !! x2 = Some e1) as He1'.
  { eapply prefix_lookup; [|exact He1]. apply llog_grows; [done|]. by apply (v_committed _ _ HI1 t1 k1). }
  apply Hc in Hin1. destruct (v_committed _ _ HI2 t1 k1 Hin1) as (Hw1 & _).
  destruct (v_committed _ _ HI2 t2 k2 Hin2) as (Hw2 & _).
  assert (∀ t k e t', (t, k) ∈ committed r2 → won r2 t' → t ≤ t' → (x2 < k)%nat → llog r2 t !! x2 = Some e →
    llog r2 t' !! x2 = Some e) as Hkept.
  { intros t k e t' Hin Hw Hle Hlt He. pose proof (committed_kept n r2 t k t' HI2 Hin Hw Hle) as HP.
    eapply prefix_lookup; [exact HP|]. by rewrite lookup_take_lt. }
  assert (e1 = e2) as ->; [|done].
  destruct (decide (t1 ≤ t2)) as [Hle|Hgt].
  - pose proof (Hkept _ _ _ _ Hin1 Hw2 Hle Hk1 He1'). congruence.
  - pose proof (Hkept _ _ _ _ Hin2 Hw1 ltac:(lia) Hk2 He2). congruence.
Qed.

(** C1. State machine safety: whatever commands two services receive at the same
    index, at the same or at different moments of a run, with messages lost,
    repeated and reordered, peers crashing and recovering, are the same command.
    Two provisos, which the code does not ensure by itself: no term has two
    leaders, unless the number of peers is even ([state_machine_safety_fails]
    shows three peers), and the run is orderly: services compact only what their
    peers have applied, and no snapshot is installed in front of entries that
    contradict it ([stale_tail_survives]).  Runs without snapshots are orderly. *)
Theorem state_machine_safety n clk acts1 acts2 c1 c2 i j d1 d2 m1 m2 :
  run_of n clk acts1 acts2 c1 c2 → delivered c1 !! i = Some d1 → delivered c2 !! j = Some d2 →
  m1 ∈ d1 → m2 ∈ d2 → CommandValid m1 = true → CommandValid m2 = true →
  CommandIndex m1 = CommandIndex m2 → am_Command m1 = am_Command m2.
Proof.
  apply same_command.
Qed.

(** *** The commands received in a run *)

Section received.
Variables (n : nat) (clk : clock).

Definition single (acts : list (action Cmd Snap)) : Prop :=
  Nat.Even n ∨ one_leader_per_term acts (cluster_init clk n).

(** a service received the command [v] with index [k] at some moment of the run *)
Definition received_by (acts : list (action Cmd Snap)) c (k : Z) (v : option Cmd) : Prop :=
  ∃ acts1 acts2 c1 j d m, acts = acts1 ++ acts2 ∧ orderly_run acts1 (cluster_init clk n) = Some c1
    ∧ orderly_run acts2 c1 = Some c ∧ delivered c1 !! j = Some d ∧ m ∈ d
    ∧ CommandValid m = true ∧ CommandIndex m = k ∧ am_Command m = v.

Lemma single_prefix acts acts' c : orderly_run acts (cluster_init clk n) = Some c →
  single (acts ++ acts') → single acts.
Proof.
  intros E%orderly_run_run [|H]; [by left|right]. intros t x y Hx Hy. apply (H t); by eapply led_prefix.
Qed.

(** the same command at the same index *)
Lemma received_same acts c k v v' : orderly_run acts (cluster_init clk n) = Some c → single acts →
  received_by acts c k v → received_by acts c k v' → v = v'.
Proof.
  intros E Hs (a1 & a2 & c1 & j & d & m & Ea & E1 & E2 & Hd & Hm & Hv & Hk & <-)
    (a1' & a2' & c1' & j' & d' & m' & Ea' & E1' & E2' & Hd' & Hm' & Hv' & Hk' & <-).
  assert (∀ (b1 b2 : list (action Cmd Snap)) b k1 k2, orderly_run b1 (cluster_init clk n) = Some k1 →
    orderly_run (b1 ++ b) (cluster_init clk n) = Some k2 → acts = b1 ++ b ++ b2 → run_of n clk b1 b k1 k2) as Hrun.
  { intros b1 b2 b k1 k2 H1 H2 ->. rewrite orderly_run_app, H1 in H2. simpl in H2. split; [done..|].
    destruct Hs as [|Hs]; [by left|right]. intros t x y Hx Hy. rewrite app_assoc in Hs.
    apply (Hs t); (eapply led_prefix; [|done]);
      rewrite cluster_run_app, (orderly_run_run _ _ _ H1); simpl; by apply orderly_run_run. }
  subst acts. apply app_eq_app in Ea' as (b & [(-> & ->)|(-> & ->)]).
  - symmetry. eapply (same_command n clk a1' b c1' c1 j' j);
      [eapply (Hrun a1' a2); [done..|by rewrite <-app_assoc]|done..|congruence].
  - eapply (same_command n clk a1 b c1 c1' j j'); [eapply (Hrun a1 a2'); done|done..|congruence].
Qed.

Lemma received_later acts a c a' k v : received_by acts c k v → orderly a c = true → cluster_step a c = Some a' →
  received_by (acts ++ [a]) a' k v.
Proof.
  intros (a1 & a2 & c1 & j & d & m & -> & E1 & E2 & H) Ha E.
  exists a1, (a2 ++ [a]), c1, j, d, m. split; [by rewrite app_assoc|]. split; [done|]. split; [|done].
  rewrite orderly_run_app, E2. simpl. by rewrite Ha, E.
Qed.

Lemma received_now acts c j d m : orderly_run acts (cluster_init clk n) = Some c →
  delivered c !! j = Some d → m ∈ d → CommandValid m = true → received_by acts c (CommandIndex m) (am_Command m).
Proof. intros E Hd Hm Hv. exists acts, [], c, j, d, m. by rewrite app_nil_r. Qed.
End received.
End agreement.

(** *** Concrete runs *)

(** peer 0 leads term 1, commits and sends a command; then it crashes *)
Definition commit_schedule : list (action nat nat) :=
  let late := {| now := 1000; rnd := 0 |} in
  [ATick 0 late; ADeliver 0 late; AReply 0 late; AStart 0 (Some 10%nat); AHeartBeat 0; ADeliver 1 late;
   AReply 1 late; ACommit 0; AApply 0; ASend 0].

(** peer 1 is elected by peer 2, which has nothing yet, brings it up to date and
    commits another command *)
Definition takeover_schedule : list (action nat nat) :=
  let late := {| now := 3000; rnd := 0 |} in
  [ACrash 0 late; ATick 1 late; ADeliver 3 late; AReply 3 late; AStart 1 (Some 20%nat);
   AHeartBeat 1; ADeliver 4 late; AReply 4 late; AHeartBeat 1; ADeliver 5 late; AReply 5 late;
   ACommit 1; AApply 1; ASend 1; ASend 1].

(** peer 1 compacts its log; the recovered peer 0 gets its snapshot and then a
    third command *)
Definition snapshot_schedule : list (action nat nat) :=
  let late := {| now := 4000; rnd := 0 |} in
  [ASnapshot 1 2 (Some 7%nat); AHeartBeat 1; ADeliver 5 late; AReply 5 late; AStart 1 (Some 30%nat);
   AHeartBeat 1; ADeliver 6 late; AReply 6 late; ACommit 1; AApply 1; ASend 1; AHeartBeat 1;
   ADeliver 7 late; AApply 0; ASend 0].

Definition committed_state := default (cluster_init clk0 3) (orderly_run commit_schedule (cluster_init clk0 3)).
Definition takeover_state := default (cluster_init clk0 3) (orderly_run takeover_schedule committed_state).

(** one leader per term, checked on the list of leaders *)
Lemma one_leader_checked {Cmd Snap} (acts : list (action Cmd Snap)) c :
  forallb (λ p, forallb (λ q, negb (p.1 =? q.1) || Nat.eqb p.2 q.2) (led acts c)) (led acts c) = true →
  one_leader_per_term acts c.
Proof.
  intros H t x y Hx%list_elem_of_In Hy%list_elem_of_In. rewrite forallb_forall in H.
  specialize (H _ Hx). rewrite forallb_forall in H. specialize (H _ Hy). simpl in H.
  rewrite Z.eqb_refl in H. by apply Nat.eqb_eq in H.
Qed.

Lemma takeover_run : run_of 3 clk0 commit_schedule takeover_schedule committed_state takeover_state.
Proof.
  split; [vm_compute; reflexivity|vm_compute; reflexivity|].
  right. apply one_leader_checked. vm_compute. reflexivity.
Qed.

Definition snapshot_state := default (cluster_init clk0 3) (orderly_run snapshot_schedule takeover_state).

Lemma snapshot_run :
  run_of 3 clk0 (commit_schedule ++ takeover_schedule ++ snapshot_schedule) [] snapshot_state snapshot_state.
Proof.
  split; [vm_compute; reflexivity|reflexivity|].
  right. apply one_leader_checked. vm_compute. reflexivity.
Qed.

(** peer 0 has a snapshot of the first two entries from peer 1 *)
Lemma log_matching_witness : ∃ rf0 rf1 e, nodes snapshot_state !! 0%nat = Some rf0 ∧
  nodes snapshot_state !! 1%nat = Some rf1 ∧ snapshotIndex rf0 = 2 ∧ log rf0 3 = Ret e ∧ log rf1 3 = Ret e ∧
  e_Command e = Some 30%nat ∧ e_Term <$> of_ret (log rf0 2) = e_Term <$> of_ret (log rf1 2)
  ∧ (snapshotIndex rf0 < 2 → snapshotIndex rf1 < 2 → log rf0 2 = log rf1 2).
Proof.
  do 3 eexists. split; [vm_compute; reflexivity|]. split; [vm_compute; reflexivity|]. split; [reflexivity|].
  split; [vm_compute; reflexivity|]. split; [reflexivity|]. split; [reflexivity|].
  eapply (log_matching 3 clk0 (commit_schedule ++ takeover_schedule ++ snapshot_schedule) snapshot_state 0 1 _ _ 3);
    [exact snapshot_run|vm_compute; reflexivity|vm_compute; reflexivity|reflexivity..|split; discriminate|discriminate].
Defined.

Lemma leader_completeness_witness : ∃ rf0 rf1, nodes committed_state !! 0%nat = Some rf0 ∧
  nodes takeover_state !! 1%nat = Some rf1 ∧ raftState rf1 = RaftLeader ∧ currentTerm rf0 < currentTerm rf1 ∧
  1 ≤ GetLastLogIndex rf1 ∧ ∃ e, log rf0 1 = Ret e ∧ (snapshotIndex rf1 < 1 → log rf1 1 = Ret e).
Proof.
  do 2 eexists. split; [vm_compute; reflexivity|]. split; [vm_compute; reflexivity|].
  split; [reflexivity|]. split; [reflexivity|].
  eapply (leader_completeness 3 clk0 commit_schedule takeover_schedule committed_state takeover_state 0 1);
    [exact takeover_run|vm_compute; reflexivity|vm_compute; reflexivity|reflexivity|discriminate|split; [reflexivity|discriminate]].
Defined.

(** what peer 0 sends after it installed the snapshot, and peer 1 sends *)
Lemma state_machine_safety_witness : ∃ d0 d1 s0 m0 m1 m2 m3, delivered snapshot_state !! 0%nat = Some d0 ∧
  delivered snapshot_state !! 1%nat = Some d1 ∧ d0 = [s0; m0] ∧ d1 = [m1; m2; m3] ∧ SnapshotValid s0 = true ∧
  am_Command m0 = Some 30%nat ∧ CommandIndex m0 = CommandIndex m3 ∧ am_Command m0 = am_Command m3.
Proof.
  do 7 eexists. split; [vm_compute; reflexivity|]. split; [vm_compute; reflexivity|].
  split; [reflexivity|]. split; [reflexivity|]. split; [reflexivity|]. split; [reflexivity|]. split; [reflexivity|].
  eapply (state_machine_safety 3 clk0 (commit_schedule ++ takeover_schedule ++ snapshot_schedule) []
    snapshot_state snapshot_state 0 1);
    [exact snapshot_run|vm_compute; reflexivity|vm_compute; reflexivity|right; by left|right; right; by left|reflexivity..].
Defined.

(** *** What orderly excludes *)

(** peer 0 leads term 1 and sends three entries to peer 3 only; peer 1 leads
    term 2, commits another entry, compacts it and sends its snapshot to peer 0 *)
Definition tail_schedule : list (action nat nat) :=
  let e1 := {| now := 1000; rnd := 0 |} in
  let e2 := {| now := 3000; rnd := 0 |} in
  [ATick 0 e1; ADeliver 0 e1; ADeliver 1 e1; AReply 0 e1; AReply 0 e1;
   AStart 0 (Some 10%nat); AStart 0 (Some 11%nat); AStart 0 (Some 12%nat); AHeartBeat 0; ADeliver 4 e1;
   ATick 1 e2; ADeliver 7 e2; ADeliver 9 e2; AReply 7 e2; AReply 8 e2;
   AStart 1 (Some 20%nat); AHeartBeat 1; ADeliver 9 e2; ADeliver 11 e2; AReply 9 e2; AReply 10 e2;
   ACommit 1; AApply 1; ASnapshot 1 1 (Some 7%nat); AHeartBeat 1; ADeliver 10 e2].

(** InstallSnapshot keeps the entries behind the snapshot without looking at
    the term of the entry they follow.  Then log matching fails, although no
    term has two leaders: peers 0 and 3 have entries of the same term at index
    3, but of different terms at index 1, and the terms in the log of peer 0
    decrease. *)
Theorem stale_tail_survives : ∃ c rf0 rf3 e,
  cluster_run tail_schedule (cluster_init clk0 5) = Some c
  ∧ one_leader_per_term tail_schedule (cluster_init clk0 5)
  ∧ nodes c !! 0%nat = Some rf0 ∧ nodes c !! 3%nat = Some rf3
  ∧ log rf0 3 = Ret e ∧ log rf3 3 = Ret e ∧ e_Term e = 1
  ∧ snapshotIndex rf0 = 1 ∧ e_Term <$> of_ret (log rf0 1) = Some 2 ∧ e_Term <$> of_ret (log rf3 1) = Some 1.
Proof.
  do 4 eexists. split; [vm_compute; reflexivity|].
  split; [apply one_leader_checked; vm_compute; reflexivity|]. split_and!; reflexivity.
Qed.
