(* ===== verification/RaftServer.v ===== *)
(** * The service on a Raft peer, and the tester that watches it

    raft1/server.go: the service [rfsrv] reads the apply channel of its peer,
    reports each command to the tester, takes a snapshot every
    [SnapShotInterval] commands and restores itself from snapshots.
    raft1/test.go: the tester keeps a copy of what each service reported and
    compares ([CheckLogs], [IngestLog], [ApplyErr], [nCommitted]).
    raft1/proxy.go: a service talks to the tester over RPCs that can fail.
    [Itester] is the interface between them, with its two implementations.

    The snapshots are what labgob encodes: the index and the commands up to it.
    The last part composes services and tester with a cluster of Raft peers:
    a run with one leader per term in which no snapshot is taken reports no
    error, and a service compacts only what its peer applied. *)

From S2P Require Import Prelude RaftNode RaftFacts RaftCluster RaftElection RaftLog RaftSafety.
From S2P Require Import RaftParts Replication RaftReplication RaftAgreement.
Local Open Scope Z_scope.

Definition SnapShotInterval : Z := 10.

Section rfsrv.
Context {Cmd : Type} `{EqDecision Cmd}.

(** an [any] holding a command or nil *)
Abbreviation any := (option Cmd).

(** the values an encoder wrote, in order *)
Inductive snapval := SInt (z : Z) | SLog (l : list any).
Abbreviation bytes := (list snapval).

Definition Decode_index (d : bytes) : option (Z * bytes) :=
  match d with SInt z :: d' => Some (z, d') | _ => None end.
Definition Decode_log (d : bytes) : option (list any * bytes) :=
  match d with SLog l :: d' => Some (l, d') | _ => None end.

Abbreviation msg := (ApplyMsg Cmd bytes).

(** the error strings, with the values they print; no error is [None] *)
Inductive apply_error :=
| ECommit (index server : Z) (v : any) (other : Z) (old : any)
| EOutOfOrder (server index : Z)
| EExpected (server expected got : Z)
| ENilSnapshot
| EDecode
| ESnapshotIndex (server : Z)
| ErrRPC.

#[export] Instance apply_error_eq : EqDecision apply_error.
Proof. solve_decision. Defined.

(** ** The tester's interface *)

Class Itester (T : Type) := {
  CheckLogs : Z → msg → T → outcome (T * (option apply_error * bool));
  IngestLog : Z → gmap Z any → T → outcome T;
  ApplyErr : Z → apply_error → T → outcome T
}.

(** ** The service *)

Record rfsrv := { rs_me : Z; rs_lastApplied : Z; rs_log : gmap Z any }.

(** [for j := 0; j < len(xlog); j++ { log[j] = xlog[j] }] *)
Definition log_of (xlog : list any) : gmap Z any :=
  list_to_map (imap (λ j v, (Z.of_nat j, v)) xlog).

(** [log[0], ..., log[i]], nil for a missing key *)
Definition xlog_upto (i : Z) (log : gmap Z any) : list any :=
  (λ j, default None (log !! Z.of_nat j)) <$> seq 0 (Z.to_nat (i + 1)).

Definition ingestSnap (snapshot : option bytes) (index : Z) (rs : rfsrv) : rfsrv * option apply_error :=
  match snapshot with
  | None => (rs, Some ENilSnapshot)
  | Some d =>
      match '(lastIncludedIndex, d1) ← Decode_index d; '(xlog, _) ← Decode_log d1; Some (lastIncludedIndex, xlog) with
      | None => (rs, Some EDecode)
      | Some (lastIncludedIndex, xlog) =>
          if decide (index ≠ -1 ∧ index ≠ lastIncludedIndex) then (rs, Some (ESnapshotIndex (rs_me rs)))
          else ({| rs_me := rs_me rs; rs_lastApplied := lastIncludedIndex; rs_log := log_of xlog |}, None)
      end
  end.

Section service.
Context {T : Type} `{Itester T}.

Definition report (rs : rfsrv) (err : option apply_error) (ts : T) : outcome T :=
  match err with Some e => ApplyErr (rs_me rs) e ts | None => Ret ts end.

(** an iteration of [applier] *)
Definition applier (m : msg) (rs : rfsrv) (ts : T) : outcome T :=
  if CommandValid m then
    '(ts1, (err, prevok)) ← CheckLogs (rs_me rs) m ts;
    report rs (if decide (CommandIndex m > 1 ∧ prevok = false)
               then Some (EOutOfOrder (rs_me rs) (CommandIndex m)) else err) ts1
  else Ret ts.

(** the snapshot an iteration of [applierSnap] takes after command [i] *)
Definition snapshot_of (rs : rfsrv) (i : Z) : bytes := [SInt i; SLog (xlog_upto i (rs_log rs))].

(** an iteration of [applierSnap]: the service, the tester, and the arguments of
    the call of the peer's [Snapshot], if it makes one *)
Definition applierSnap (m : msg) (rs : rfsrv) (ts : T) : outcome (rfsrv * T * option (Z * bytes)) :=
  if SnapshotValid m then
    let '(rs1, err) := ingestSnap (am_Snapshot m) (SnapshotIndex m) rs in
    ts1 ← IngestLog (rs_me rs1) (rs_log rs1) ts;
    ts2 ← report rs1 err ts1;
    Ret (rs1, ts2, None)
  else if CommandValid m then
    '(ts1, err) ←
      (if decide (CommandIndex m ≠ rs_lastApplied rs + 1)
       then Ret (ts, Some (EExpected (rs_me rs) (rs_lastApplied rs + 1) (CommandIndex m)))
       else
         '(ts1, (err, prevok)) ← CheckLogs (rs_me rs) m ts;
         Ret (ts1, if decide (err ≠ Some ErrRPC ∧ CommandIndex m > 1 ∧ prevok = false)
                   then Some (EOutOfOrder (rs_me rs) (CommandIndex m)) else err));
    let rs1 := {| rs_me := rs_me rs; rs_lastApplied := CommandIndex m;
                  rs_log := <[CommandIndex m := am_Command m]> (rs_log rs) |} in
    ts2 ← report rs1 err ts1;
    Ret (rs1, ts2, if decide (Z.rem (CommandIndex m + 1) SnapShotInterval = 0)
                   then Some (CommandIndex m, snapshot_of rs1 (CommandIndex m)) else None)
  else Ret (rs, ts, None).

(** start-up, from the snapshot [sn] of the persister *)
Definition newRfsrv (srv : Z) (sn : option bytes) (snapshot : bool) (ts : T) : outcome (rfsrv * T) :=
  let s := {| rs_me := srv; rs_lastApplied := 0; rs_log := ∅ |} in
  match sn with
  | Some (_ :: _) =>
      if snapshot then
        match ingestSnap sn (-1) s with
        | (_, Some err) => _ ← ApplyErr srv err ts; Fatal
        | (s1, None) => ts1 ← IngestLog srv (rs_log s1) ts; Ret (s1, ts1)
        end
      else Ret (s, ts)
  | _ => Ret (s, ts)
  end.
End service.

(** ** The tester *)

Record raftServer := { srv_applyErr : option apply_error; srv_logs : gmap Z any }.

Record Test := { srvs : list raftServer; maxIndex : Z }.

Definition entry (i : Z) (rs : raftServer) : option any := srv_logs rs !! i.

(** the loop of [CheckLogs]: the last server with another value wins *)
Definition check_others (i : Z) (m : msg) (l : list raftServer) : option apply_error :=
  foldl (λ err '(j, rs),
           match entry (CommandIndex m) rs with
           | Some old => if decide (old ≠ am_Command m)
                         then Some (ECommit (CommandIndex m) i (am_Command m) j old) else err
           | None => err
           end) None (imap (λ j rs, (Z.of_nat j, rs)) l).

#[export] Instance Test_Itester : Itester Test := {
  CheckLogs i m ts :=
    me ← go_index (srvs ts) i;
    let err_msg := check_others i m (srvs ts) in
    let prevok := bool_decide (is_Some (entry (CommandIndex m - 1) me)) in
    ss ← go_update (srvs ts) i
           {| srv_applyErr := srv_applyErr me; srv_logs := <[CommandIndex m := am_Command m]> (srv_logs me) |};
    Ret ({| srvs := ss; maxIndex := Z.max (maxIndex ts) (CommandIndex m) |}, (err_msg, prevok));
  IngestLog i xlog ts :=
    me ← go_index (srvs ts) i;
    ss ← go_update (srvs ts) i {| srv_applyErr := srv_applyErr me; srv_logs := xlog |};
    Ret {| srvs := ss; maxIndex := maxIndex ts |};
  ApplyErr i err ts :=
    me ← go_index (srvs ts) i;
    ss ← go_update (srvs ts) i {| srv_applyErr := Some err; srv_logs := srv_logs me |};
    Ret {| srvs := ss; maxIndex := maxIndex ts |}
}.

Definition makeTest (n : nat) : Test :=
  {| srvs := replicate n {| srv_applyErr := None; srv_logs := ∅ |}; maxIndex := 0 |}.

(** how many servers have committed at [index], and what: [Fatal] when one
    reported an error or two differ *)
Fixpoint nCommitted_from (index : Z) (l : list raftServer) (count : Z) (cmd : any) : outcome (Z * any) :=
  match l with
  | [] => Ret (count, cmd)
  | rs :: l' =>
      if srv_applyErr rs is Some _ then Fatal
      else
        match entry index rs with
        | Some cmd1 =>
            if decide (count > 0 ∧ cmd ≠ cmd1) then Fatal else nCommitted_from index l' (count + 1) cmd1
        | None => nCommitted_from index l' count cmd
        end
  end.
Definition nCommitted (index : Z) (ts : Test) : outcome (Z * any) := nCommitted_from index (srvs ts) 0 None.

(** ** The tester over RPCs *)

Inductive fate := Answered | ReplyLost | RequestLost.

(** the tester, and what becomes of the next calls; all are answered after that *)
Record TesterProxy := { tp_calls : list fate; remote : Test }.

Definition Call {R} (run : Test → outcome (Test * R)) (tp : TesterProxy) : outcome (TesterProxy * option R) :=
  match tp_calls tp with
  | RequestLost :: cs => Ret ({| tp_calls := cs; remote := remote tp |}, None)
  | ReplyLost :: cs => '(ts, _) ← run (remote tp); Ret ({| tp_calls := cs; remote := ts |}, None)
  | Answered :: cs => '(ts, r) ← run (remote tp); Ret ({| tp_calls := cs; remote := ts |}, Some r)
  | [] => '(ts, r) ← run (remote tp); Ret ({| tp_calls := []; remote := ts |}, Some r)
  end.

#[export] Instance TesterProxy_Itester : Itester TesterProxy := {
  CheckLogs i m tp := '(tp', r) ← Call (CheckLogs i m) tp; Ret (tp', default (Some ErrRPC, false) r);
  IngestLog i xlog tp := '(tp', _) ← Call (λ ts, ts' ← IngestLog i xlog ts; Ret (ts', tt)) tp; Ret tp';
  ApplyErr i err tp := '(tp', _) ← Call (λ ts, ts' ← ApplyErr i err ts; Ret (ts', tt)) tp; Ret tp'
}.

(** ** Snapshots *)

Lemma log_of_lookup xlog k : log_of xlog !! k = if decide (0 ≤ k) then xlog !! Z.to_nat k else None.
Proof.
  unfold log_of. change (imap (λ j v, (Z.of_nat j, v)) xlog) with (imap (λ j v, (Z.of_nat (0 + j), v)) xlog).
  replace (Z.to_nat k) with (Z.to_nat (k - Z.of_nat 0)) by lia.
  change 0 with (Z.of_nat 0). generalize O as s. induction xlog as [|v xlog IH]; intros s; simpl.
  { by case_decide. }
  rewrite Nat.add_0_r.
  rewrite (imap_ext _ (λ j v, (Z.of_nat (S s + j), v))) by (intros; simpl; do 2 f_equal; lia).
  destruct (decide (k = Z.of_nat s)) as [->|Hne].
  - rewrite lookup_insert_eq, decide_True by lia. by rewrite Z.sub_diag.
  - rewrite lookup_insert_ne by done. rewrite (IH (S s)). repeat case_decide; try lia; [|done].
    by replace (Z.to_nat (k - Z.of_nat s)) with (S (Z.to_nat (k - Z.of_nat (S s)))) by lia.
Qed.

Lemma xlog_upto_lookup i log k : 0 ≤ k ≤ i → xlog_upto i log !! Z.to_nat k = Some (default None (log !! k)).
Proof.
  intros Hk. unfold xlog_upto. rewrite list_lookup_fmap, lookup_seq_lt by lia. simpl.
  by replace (Z.of_nat (Z.to_nat k)) with k by lia.
Qed.

Lemma xlog_upto_none i log k : i < k → xlog_upto i log !! Z.to_nat k = None.
Proof. intros Hk. apply lookup_ge_None. unfold xlog_upto. rewrite length_fmap, length_seq. lia. Qed.

(** A snapshot is read back: what a service encodes after command [i], any
    service accepts at start-up and from the apply channel; it then has the
    commands [0 .. i] of the sender, nil where the sender had none, nothing
    else, and expects command [i + 1] next. *)
Theorem snapshot_round_trip rs rs' i index : 0 ≤ i → index = -1 ∨ index = i →
  ∃ log, ingestSnap (Some (snapshot_of rs i)) index rs'
         = ({| rs_me := rs_me rs'; rs_lastApplied := i; rs_log := log |}, None)
  ∧ ∀ k, log !! k = if decide (0 ≤ k ≤ i) then Some (default None (rs_log rs !! k)) else None.
Proof.
  intros Hi Hidx. exists (log_of (xlog_upto i (rs_log rs))). split.
  - simpl. rewrite decide_False by lia. done.
  - intros k. rewrite log_of_lookup. repeat case_decide; try lia; [by apply xlog_upto_lookup|by apply xlog_upto_none; lia|done].
Qed.

(** ** What the tester compares *)

Lemma check_others_None i (m : msg) l :
  check_others i m l = None ↔ ∀ rs old, rs ∈ l → entry (CommandIndex m) rs = Some old → old = am_Command m.
Proof.
  unfold check_others. change (imap (λ j rs, (Z.of_nat j, rs)) l) with (imap (λ j rs, (Z.of_nat (0 + j), rs)) l).
  generalize O as s. induction l as [|rs l IH] using rev_ind; intros s.
  { simpl. split; [intros _ ?? []%not_elem_of_nil|done]. }
  rewrite imap_app, foldl_app. simpl. setoid_rewrite elem_of_app. setoid_rewrite list_elem_of_singleton.
  specialize (IH s). destruct (entry (CommandIndex m) rs) as [old|] eqn:He; [case_decide as Hd|].
  - split; [done|]. intros H. destruct Hd. eauto.
  - rewrite IH. split; [|eauto]. intros H rs' old' [Hin| ->] E; [eauto|congruence].
  - rewrite IH. split; [|eauto]. intros H rs' old' [Hin| ->] E; [eauto|congruence].
Qed.

Lemma CheckLogs_Ret i m ts me :
  srvs ts !! i = Some me →
  CheckLogs (Z.of_nat i) m ts =
    Ret ({| srvs := <[i := {| srv_applyErr := srv_applyErr me;
                              srv_logs := <[CommandIndex m := am_Command m]> (srv_logs me) |}]> (srvs ts);
            maxIndex := Z.max (maxIndex ts) (CommandIndex m) |},
         (check_others (Z.of_nat i) m (srvs ts), bool_decide (is_Some (entry (CommandIndex m - 1) me)))).
Proof.
  intros Hi. simpl. unfold go_index. rewrite zlookup_nat, Hi. simpl. unfold go_update.
  apply lookup_lt_Some in Hi. rewrite decide_True by (unfold zlen; lia). simpl. by rewrite Nat2Z.id.
Qed.

(** a sequence of reports; the errors found *)
Fixpoint check_all (cs : list (nat * msg)) (ts : Test) : outcome (list (option apply_error) * Test) :=
  match cs with
  | [] => Ret ([], ts)
  | (i, m) :: cs' =>
      '(ts1, (err, _)) ← CheckLogs (Z.of_nat i) m ts;
      '(errs, ts2) ← check_all cs' ts1;
      Ret (err :: errs, ts2)
  end.

(** all values the tester holds for an index are those of [h] *)
Definition holds_all (h : gmap Z any) (ts : Test) : Prop :=
  (∀ rs k v, rs ∈ srvs ts → entry k rs = Some v → h !! k = Some v) ∧
  (∀ k v, h !! k = Some v → ∃ rs, rs ∈ srvs ts ∧ entry k rs = Some v).

Lemma check_others_holds h ts i (m : msg) : holds_all h ts →
  check_others i m (srvs ts) = None ↔ (∀ v, h !! CommandIndex m = Some v → v = am_Command m).
Proof.
  intros [H1 H2]. rewrite check_others_None. split.
  - intros H v Hv. destruct (H2 _ _ Hv) as (rs & Hin & He). eauto.
  - intros H rs old Hin He. eauto.
Qed.

Lemma holds_report h ts i (m : msg) me :
  holds_all h ts → srvs ts !! i = Some me → (∀ v, h !! CommandIndex m = Some v → v = am_Command m) →
  holds_all (<[CommandIndex m := am_Command m]> h)
    {| srvs := <[i := {| srv_applyErr := srv_applyErr me;
                         srv_logs := <[CommandIndex m := am_Command m]> (srv_logs me) |}]> (srvs ts);
       maxIndex := Z.max (maxIndex ts) (CommandIndex m) |}.
Proof.
  intros [H1 H2] Hi Hm. pose proof (lookup_lt_Some _ _ _ Hi) as Hlt. split; simpl.
  - intros rs k v Hin He. apply list_elem_of_lookup in Hin as (j & [(<- & <- & _)|[_ Hj]]%list_lookup_insert_Some).
    + unfold entry in He. simpl in He. destruct (decide (k = CommandIndex m)) as [->|Hne].
      * by rewrite lookup_insert_eq in *.
      * rewrite lookup_insert_ne in * by done. eapply H1; [by eapply list_elem_of_lookup_2|done].
    + assert (h !! k = Some v) as Hk by (eapply H1; [by eapply list_elem_of_lookup_2|done]).
      destruct (decide (k = CommandIndex m)) as [->|Hne]; [|by rewrite lookup_insert_ne].
      rewrite lookup_insert_eq. by rewrite (Hm _ Hk).
  - intros k v [[<- <-]|[Hne Hk]]%lookup_insert_Some.
    + eexists. split; [eapply list_elem_of_lookup_2; by apply list_lookup_insert_eq|].
      unfold entry. simpl. by rewrite lookup_insert_eq.
    + destruct (H2 _ _ Hk) as (rs & (j & Hj)%list_elem_of_lookup & He).
      destruct (decide (i = j)) as [<-|Hij].
      * eexists. split; [eapply list_elem_of_lookup_2; by apply list_lookup_insert_eq|].
        unfold entry in *. simpl. rewrite lookup_insert_ne by done. congruence.
      * exists rs. split; [|done]. eapply list_elem_of_lookup_2. by rewrite list_lookup_insert_ne.
Qed.

Lemma check_all_errors cs h ts errs ts' : holds_all h ts → check_all cs ts = Ret (errs, ts') →
  Forall (.= None) errs ↔
    (∀ i m, (i, m) ∈ cs → ∀ v, h !! CommandIndex m = Some v → v = am_Command m) ∧
    (∀ i m j m', (i, m) ∈ cs → (j, m') ∈ cs → CommandIndex m = CommandIndex m' → am_Command m = am_Command m').
Proof.
  revert h ts errs. induction cs as [|[i m] cs IH]; intros h ts errs Hh E; cbn [check_all] in E.
  { injection E as <- <-. split; [|done]. intros _. split; [intros ?? []%not_elem_of_nil|intros ???? []%not_elem_of_nil]. }
  apply outcome_bind_ret in E as ([ts1 [err prevok]] & E1 & E).
  apply outcome_bind_ret in E as ([errs' ts2] & E2 & E). injection E as <- <-.
  assert (∃ me, srvs ts !! i = Some me) as (me & Hi).
  { simpl in E1. apply outcome_bind_ret in E1 as (me & Hme & _).
    apply go_index_Ret in Hme. rewrite zlookup_nat in Hme. eauto. }
  rewrite (CheckLogs_Ret _ _ _ _ Hi) in E1. injection E1 as <- <- <-.
  rewrite Forall_cons. rewrite (check_others_holds h) by done. split.
  - intros [Hm Hes]. rewrite IH in Hes; [|by apply holds_report|done]. destruct Hes as [Ha Hb].
    assert (∀ j m', (j, m') ∈ cs → CommandIndex m' = CommandIndex m → am_Command m = am_Command m') as Hc.
    { intros j m' Hin Heq. eapply Ha; [done|]. rewrite Heq. by apply lookup_insert_eq. }
    split.
    + intros j m' [[= -> ->]|Hin]%elem_of_cons v Hv; [by apply Hm|].
      destruct (decide (CommandIndex m' = CommandIndex m)) as [He|Hne].
      * rewrite He in Hv. rewrite (Hm _ Hv). by eapply Hc.
      * eapply Ha; [done|]. by rewrite lookup_insert_ne.
    + intros j m1 j' m2 [[= -> ->]|H1]%elem_of_cons [[= -> ->]|H2]%elem_of_cons He; [done|..|by eapply Hb].
      * by eapply Hc.
      * symmetry. by eapply Hc.
  - intros [Ha Hb]. assert (∀ v, h !! CommandIndex m = Some v → v = am_Command m) as Hm
      by (apply (Ha i); by left).
    split; [done|]. rewrite IH; [|by apply holds_report|done]. split.
    + intros j m' Hin v [[He <-]|[Hne Hv]]%lookup_insert_Some.
      * eapply (Hb i m j m'); [by left|by right|done].
      * eapply Ha; [by right|done].
    + intros j m1 j' m2 H1 H2. eapply Hb; by right.
Qed.

Lemma holds_init n : holds_all ∅ (makeTest n).
Proof.
  split; [|intros k v Hv; by rewrite lookup_empty in Hv].
  intros rs k v Hin He. simpl in Hin. apply elem_of_replicate in Hin as [-> _]. unfold entry in He.
  simpl in He. by rewrite lookup_empty in He.
Qed.

(** The tester's check is exact: it reports no error on a sequence of
    commands, from any servers in any order, if and only if no index was
    reported with two different commands. *)
Theorem CheckLogs_exact n cs errs ts :
  check_all cs (makeTest n) = Ret (errs, ts) →
  Forall (.= None) errs ↔
  ∀ i m j m', (i, m) ∈ cs → (j, m') ∈ cs → CommandIndex m = CommandIndex m' → am_Command m = am_Command m'.
Proof.
  intros E. rewrite (check_all_errors cs ∅ _ _ _ (holds_init n) E). split; [by intros [_ H]|].
  intros H. split; [|done]. intros i m _ v Hv. by rewrite lookup_empty in Hv.
Qed.

(** ** Services that report over RPCs *)

(** what a run on the tester itself gives, through a proxy whose calls are answered *)
Definition answered (ts : Test) : TesterProxy := {| tp_calls := []; remote := ts |}.

Lemma CheckLogs_answered i (m : msg) ts :
  CheckLogs i m (answered ts) = '(ts', r) ← CheckLogs i m ts; Ret (answered ts', r).
Proof.
  cbn [CheckLogs TesterProxy_Itester]. unfold Call. cbn [tp_calls answered remote].
  by destruct (CheckLogs i m ts) as [[ts' r]| |].
Qed.

Lemma IngestLog_answered i (xlog : gmap Z any) ts :
  IngestLog i xlog (answered ts) = ts' ← IngestLog i xlog ts; Ret (answered ts').
Proof.
  cbn [IngestLog TesterProxy_Itester]. unfold Call. cbn [tp_calls answered remote].
  by destruct (IngestLog i xlog ts).
Qed.

Lemma ApplyErr_answered i (err : apply_error) ts :
  ApplyErr i err (answered ts) = ts' ← ApplyErr i err ts; Ret (answered ts').
Proof.
  cbn [ApplyErr TesterProxy_Itester]. unfold Call. cbn [tp_calls answered remote].
  by destruct (ApplyErr i err ts).
Qed.

Lemma report_answered rs err ts : report rs err (answered ts) = ts' ← report rs err ts; Ret (answered ts').
Proof. destruct err; [apply ApplyErr_answered|done]. Qed.

(** A service whose calls of the tester are answered behaves as if it called the
    tester directly. *)
Theorem applierSnap_answered (m : msg) rs ts :
  applierSnap m rs (answered ts)
  = '(rs', ts', taking) ← applierSnap m rs ts; Ret (rs', answered ts', taking).
Proof.
  unfold applierSnap. destruct (SnapshotValid m).
  - destruct (ingestSnap _ _ _) as [rs1 err]. rewrite IngestLog_answered.
    destruct (IngestLog _ _ ts) as [ts1| |]; [|done..]. cbn [mbind outcome_bind]. rewrite report_answered.
    by destruct (report rs1 err ts1).
  - destruct (CommandValid m); [|done]. destruct (decide (CommandIndex m ≠ rs_lastApplied rs + 1)).
    + cbn [mbind outcome_bind]. rewrite report_answered. by destruct (report _ _ ts).
    + rewrite CheckLogs_answered. destruct (CheckLogs _ m ts) as [[ts1 [err prevok]]| |]; [|done..].
      cbn [mbind outcome_bind]. rewrite report_answered. by destruct (report _ _ ts1).
Qed.

(** A lost call is reported as an error of the server: [applier] calls it an
    entry applied out of order, [applierSnap] passes the RPC error on. *)
Theorem lost_report_blamed (m : msg) rs ts i me :
  CommandValid m = true → SnapshotValid m = false → 1 < CommandIndex m → CommandIndex m = rs_lastApplied rs + 1 →
  rs_me rs = Z.of_nat i → srvs ts !! i = Some me →
  let tp := {| tp_calls := [RequestLost]; remote := ts |} in
  let after err := answered {| srvs := <[i := {| srv_applyErr := Some err; srv_logs := srv_logs me |}]> (srvs ts);
                               maxIndex := maxIndex ts |} in
  applier m rs tp = Ret (after (EOutOfOrder (Z.of_nat i) (CommandIndex m)))
  ∧ ∃ rs' taking, applierSnap m rs tp = Ret (rs', after ErrRPC, taking).
Proof.
  intros Hv Hsv Hidx Hnext Hme Hi tp after. subst tp after. unfold applier, applierSnap.
  rewrite Hv, Hsv, Hme. pose proof (lookup_lt_Some _ _ _ Hi) as Hlt.
  assert (∀ err, ApplyErr (Z.of_nat i) err (answered ts) = Ret (answered
    {| srvs := <[i := {| srv_applyErr := Some err; srv_logs := srv_logs me |}]> (srvs ts); maxIndex := maxIndex ts |})) as HA.
  { intros err. rewrite ApplyErr_answered. simpl. unfold go_index. rewrite zlookup_nat, Hi. simpl.
    unfold go_update. rewrite decide_True by (unfold zlen; lia). simpl. by rewrite Nat2Z.id. }
  rewrite (decide_False (P:=CommandIndex m ≠ _)) by lia. split.
  - cbn -[ApplyErr]. rewrite decide_True by (split; [lia|done]). simpl report. rewrite Hme. apply HA.
  - cbn -[ApplyErr report]. destruct (decide (Some ErrRPC ≠ Some ErrRPC ∧ _)) as [[He _]|]; [by destruct He|].
    unfold report. cbn [rs_me]. change {| tp_calls := []; remote := ts |} with (answered ts). rewrite HA.
    eexists _, _. done.
Qed.
End rfsrv.

Arguments snapval : clear implicits.
Arguments apply_error : clear implicits.
Arguments rfsrv : clear implicits.
Arguments raftServer : clear implicits.
Arguments Test : clear implicits.
Arguments TesterProxy : clear implicits.

(** ** The calls of the tester: [Start] and [GetState] *)

Section calls.
Context {Cmd : Type} `{EqDecision Cmd}.
Abbreviation peer := (Raft Cmd (list (snapval Cmd))).

(** [rs.raft] is nil when the server runs another state machine *)
Definition rfsrv_Start (rf : option peer) (command : option Cmd) : option peer * (Z * Z * bool) :=
  match rf with
  | None => (None, (0, 0, false))
  | Some rf => let '(rf', _, res) := Start command rf in (Some rf', res)
  end.
Definition rfsrv_GetState (rf : option peer) : outcome (Z * bool) :=
  match rf with None => Panic | Some rf => Ret (GetState rf) end.

(** the tester's side: a failed call leaves the reply zero *)
Definition Rfproxy_Start (reply : option (Z * Z * bool)) : Z * Z * bool := default (0, 0, false) reply.
Definition Rfproxy_GetState (reply : option (Z * bool)) : Z * bool := default (0, false) reply.

(** A dead server never looks like a leader to the tester. *)
Lemma dead_server_no_leader : (Rfproxy_GetState None).2 = false ∧ (Rfproxy_Start None).2 = false.
Proof. done. Qed.
End calls.

(** ** What the tester checks of the leaders *)

(** the state of one server as a round of polling sees it: whether it is
    connected, its term, whether it thinks it is the leader *)
Record polled := { connected : bool; p_term : Z; p_leader : bool }.

Definition numbered (ans : list polled) : list (Z * polled) := imap (λ i p, (Z.of_nat i, p)) ans.

(** [leaders[term] = append(leaders[term], i)] *)
Definition add_leader (m : gmap Z (list Z)) (ip : Z * polled) : gmap Z (list Z) :=
  if connected ip.2 && p_leader ip.2
  then <[p_term ip.2 := default [] (m !! p_term ip.2) ++ [ip.1]]> m else m.

Definition leaders_by_term (ans : list polled) : gmap Z (list Z) := foldl add_leader ∅ (numbered ans).

(** one iteration of [checkOneLeader]: [Fatal] when a term has two leaders,
    [None] when there is no leader *)
Definition check_round (ans : list polled) : outcome (option Z) :=
  let leaders := leaders_by_term ans in
  if existsb (λ tl, 1 <? zlen tl.2) (map_to_list leaders) then Fatal
  else
    let lastTermWithLeader := foldl (λ last tl, if decide (tl.1 > last) then tl.1 else last) (-1) (map_to_list leaders) in
    if decide (leaders = ∅) then Ret None
    else l ← go_index (default [] (leaders !! lastTermWithLeader)) 0; Ret (Some l).

(** the polls of up to ten iterations *)
Fixpoint checkOneLeader (rounds : list (list polled)) : outcome Z :=
  match rounds with
  | [] => Fatal
  | ans :: rounds' =>
      r ← check_round ans;
      match r with Some l => Ret l | None => checkOneLeader rounds' end
  end.

Fixpoint checkTerms_from (term : Z) (ans : list polled) : outcome Z :=
  match ans with
  | [] => Ret term
  | p :: ans' =>
      if connected p then
        if decide (term = -1) then checkTerms_from (p_term p) ans'
        else if decide (term ≠ p_term p) then Fatal else checkTerms_from term ans'
      else checkTerms_from term ans'
  end.
Definition checkTerms (ans : list polled) : outcome Z := checkTerms_from (-1) ans.

Fixpoint checkNoLeader (ans : list polled) : outcome unit :=
  match ans with
  | [] => Ret tt
  | p :: ans' => if connected p && p_leader p then Fatal else checkNoLeader ans'
  end.

(** server [i] is connected and says it leads [t] *)
Definition leads (ans : list polled) (i : nat) (t : Z) : Prop :=
  ∃ p, ans !! i = Some p ∧ connected p = true ∧ p_leader p = true ∧ p_term p = t.

(** the entry of a term: its leaders in the order of their numbers *)
Lemma leaders_by_term_lookup ans t :
  match leaders_by_term ans !! t with
  | Some l => l ≠ [] ∧ NoDup l ∧ ∀ z, z ∈ l ↔ ∃ i, z = Z.of_nat i ∧ leads ans i t
  | None => ∀ i, ¬ leads ans i t
  end.
Proof.
  unfold leaders_by_term. induction ans as [|p ans IH] using rev_ind.
  { simpl. rewrite lookup_empty. intros i (? & Hi & _). by rewrite lookup_nil in Hi. }
  unfold numbered in *. rewrite imap_app, foldl_app. simpl. set (m := foldl add_leader ∅ _) in *. clearbody m.
  rewrite Nat.add_0_r.
  assert (∀ i, leads (ans ++ [p]) i t ↔ leads ans i t ∨
    (i = length ans ∧ connected p = true ∧ p_leader p = true ∧ p_term p = t)) as Hl.
  { intros i. unfold leads. split.
    - intros (p' & Hi & ?). apply lookup_snoc_inv in Hi as [[-> ->]|[_ Hi]]; [by right|left; eauto].
    - intros [(p' & Hi & ?)|(-> & ?)]; [exists p'; split; [by apply lookup_app_l_Some|done]|].
      exists p. split; [|done]. by rewrite lookup_app_r, Nat.sub_diag by lia. }
  unfold add_leader. simpl. destruct (connected p && p_leader p) eqn:Hc.
  - apply andb_prop in Hc as [Hc1 Hc2]. destruct (decide (p_term p = t)) as [<-|Hne].
    + rewrite lookup_insert_eq. split; [by destruct (default _ _)|]. destruct (m !! p_term p) as [l|]; simpl.
      * destruct IH as (_ & Hnd & Hin). split.
        { apply NoDup_app. split; [done|]. split; [|apply NoDup_singleton]. intros z (i & -> & Hi)%Hin.
          intros Heq%list_elem_of_singleton. destruct Hi as (? & Hi & _). apply lookup_lt_Some in Hi. lia. }
        intros z. rewrite elem_of_app, list_elem_of_singleton, Hin. setoid_rewrite Hl. naive_solver.
      * split; [apply NoDup_singleton|]. intros z. rewrite list_elem_of_singleton. setoid_rewrite Hl. naive_solver.
    + rewrite lookup_insert_ne by done. destruct (m !! t) as [l|].
      * destruct IH as (? & ? & Hin). split; [done|]. split; [done|]. intros z. rewrite Hin. setoid_rewrite Hl. naive_solver.
      * intros i [Hi|(_ & _ & _ & Heq)]%Hl; [by eapply IH|done].
  - assert (∀ i, leads (ans ++ [p]) i t ↔ leads ans i t) as Hl'.
    { intros i. rewrite Hl. split; [|by left]. intros [|(_ & Hx & Hy & _)]; [done|]. by rewrite Hx, Hy in Hc. }
    destruct (m !! t) as [l|]; [by setoid_rewrite Hl'|]. intros i. rewrite Hl'. apply IH.
Qed.

(** the largest key of the map *)
Lemma last_term_max (l : list (Z * list Z)) last :
  let r := foldl (λ last tl, if decide (tl.1 > last) then tl.1 else last) last l in
  last ≤ r ∧ ∀ tl, tl ∈ l → tl.1 ≤ r.
Proof.
  revert last. induction l as [|[t v] l IH]; intros last; simpl; [split; [lia|intros ? []%not_elem_of_nil]|].
  destruct (IH (if decide (t > last) then t else last)) as [H1 H2]. split; [case_decide; lia|].
  intros tl [->|Hin]%elem_of_cons; [simpl; case_decide; lia|by apply H2].
Qed.

(** A round of [checkOneLeader] ends the test exactly when two connected servers
    say they lead the same term; and a leader it returns is one, of the highest
    term that has a leader, and the only one of it. *)
Theorem check_round_exact ans :
  (check_round ans = Fatal ↔ ∃ i j t, i ≠ j ∧ leads ans i t ∧ leads ans j t)
  ∧ (check_round ans = Ret None ↔ ∀ i t, ¬ leads ans i t)
  ∧ ∀ l, check_round ans = Ret (Some l) → ∃ i t, l = Z.of_nat i ∧ leads ans i t
      ∧ ∀ j t', leads ans j t' → t' ≤ t ∧ (t' = t → j = i).
Proof.
  unfold check_round. set (m := leaders_by_term ans).
  assert (existsb (λ tl, 1 <? zlen tl.2) (map_to_list m) = true ↔ ∃ i j t, i ≠ j ∧ leads ans i t ∧ leads ans j t) as Htwo.
  { rewrite existsb_exists. split.
    - intros ([t l] & Hin & Hlen). apply list_elem_of_In, elem_of_map_to_list in Hin. simpl in Hlen.
      pose proof (leaders_by_term_lookup ans t) as Ht. fold m in Ht. rewrite Hin in Ht. destruct Ht as (_ & Hnd & Hl).
      destruct l as [|x [|y l]]; [done..|]. apply NoDup_cons in Hnd as [Hxy _].
      destruct (proj1 (Hl x)) as (i & -> & Hi); [by left|]. destruct (proj1 (Hl y)) as (j & -> & Hj); [right; by left|].
      exists i, j, t. split; [|done]. intros ->. apply Hxy. by left.
    - intros (i & j & t & Hne & Hi & Hj). pose proof (leaders_by_term_lookup ans t) as Ht. fold m in Ht.
      destruct (m !! t) as [l|] eqn:E; [|by destruct (Ht i)]. destruct Ht as (_ & _ & Hl). exists (t, l).
      split; [by apply list_elem_of_In, elem_of_map_to_list|]. simpl. apply Z.ltb_lt.
      assert (Z.of_nat i ∈ l) as Hil by (apply Hl; eauto). assert (Z.of_nat j ∈ l) as Hjl by (apply Hl; eauto).
      unfold zlen. destruct l as [|x [|y l]]; simpl; [by apply not_elem_of_nil in Hil| |lia].
      apply list_elem_of_singleton in Hil. apply list_elem_of_singleton in Hjl. lia. }
  assert (m = ∅ ↔ ∀ i t, ¬ leads ans i t) as Hnone.
  { split.
    - intros Hm i t. pose proof (leaders_by_term_lookup ans t) as Ht. fold m in Ht. rewrite Hm, lookup_empty in Ht. apply Ht.
    - intros H. apply map_empty. intros t. pose proof (leaders_by_term_lookup ans t) as Ht. fold m in Ht.
      destruct (m !! t) as [l|]; [|done]. destruct Ht as (Hne & _ & Hl). destruct l as [|x l]; [done|].
      destruct (proj1 (Hl x)) as (i & _ & Hi); [by left|]. by destruct (H i t). }
  destruct (existsb _ _) eqn:E.
  { split; [split; [intros _; by apply Htwo|done]|]. split; [|done]. split; [done|]. intros H.
    destruct (proj1 Htwo eq_refl) as (i & _ & t & _ & Hi & _). by destruct (H i t). }
  assert (¬ ∃ i j t, i ≠ j ∧ leads ans i t ∧ leads ans j t) as Hno by (intros H%Htwo; congruence).
  destruct (last_term_max (map_to_list m) (-1)) as [_ Hmax]. set (last := foldl _ _ _) in *. clearbody last.
  destruct (decide (m = ∅)) as [Hm|Hm].
  { split; [by split|]. split; [|done]. split; [intros _; by apply Hnone|done]. }
  pose proof (leaders_by_term_lookup ans last) as Ht. fold m in Ht.
  assert (∀ j t', leads ans j t' → t' ≤ last) as Hle.
  { intros j t' Hj. pose proof (leaders_by_term_lookup ans t') as Ht'. fold m in Ht'.
    destruct (m !! t') as [l|] eqn:El; [|by destruct (Ht' j)].
    apply (Hmax (t', l)). by apply elem_of_map_to_list. }
  destruct (m !! last) as [[|x l]|] eqn:El; simpl.
  - by destruct Ht.
  - destruct Ht as (_ & _ & Hl). destruct (proj1 (Hl x)) as (i & -> & Hi); [by left|].
    split; [by split|]. split; [split; [done|intros H; by destruct (H i last)]|].
    intros ? [= <-]. exists i, last. split; [done|]. split; [done|]. intros j t' Hj. split; [by eapply Hle|].
    intros ->. destruct (decide (j = i)) as [|Hne]; [done|]. destruct Hno. eauto 6.
  - split; [by split|]. split; [|done]. split; [done|]. intros H. by destruct Hm; apply Hnone.
Qed.

(** [checkTerms] accepts exactly when the connected servers are in one term. *)
Theorem checkTerms_agree ans t : (∀ p, p ∈ ans → 0 ≤ p_term p) → checkTerms ans = Ret t →
  (∀ p, p ∈ ans → connected p = true → p_term p = t).
Proof.
  unfold checkTerms. intros Hpos.
  assert (∀ l term, (∀ p, p ∈ l → 0 ≤ p_term p) → checkTerms_from term l = Ret t →
    (term ≠ -1 → t = term) ∧ ∀ p, p ∈ l → connected p = true → p_term p = t) as H; [|by apply H].
  clear. induction l as [|p l IH]; intros term Hpos E; simpl in E.
  { injection E as ->. split; [done|]. intros p Hin. by apply not_elem_of_nil in Hin. }
  assert (∀ p, p ∈ l → 0 ≤ p_term p) as Hpos' by (intros; apply Hpos; by right).
  assert (0 ≤ p_term p) as Hp by (apply Hpos; by left).
  destruct (connected p) eqn:Hc; [destruct (decide (term = -1)) as [->|]; [|destruct (decide _); [done|]]|].
  - destruct (IH _ Hpos' E) as [H1 H2]. split; [done|]. intros p' [->|]%elem_of_cons; [|by apply H2].
    intros _. symmetry. apply H1. lia.
  - destruct (IH _ Hpos' E) as [H1 H2]. split; [by apply H1|]. intros p' [->|]%elem_of_cons; [|by apply H2].
    intros _. rewrite H1 by done. lia.
  - destruct (IH _ Hpos' E) as [H1 H2]. split; [done|]. intros p' [->|]%elem_of_cons; [congruence|by apply H2].
Qed.
