(* ===== verification/RaftTest.v ===== *)
(** * Raft peers under test

    A cluster of peers (RaftCluster.v), a service on each (RaftServer.v) and the
    tester, as one transition system.  A service reads what its peer has put on
    the apply channel one message at a time and reports it; an iteration that
    takes a snapshot calls the peer's [Snapshot] later, and reads nothing until
    then.  A crash takes the service with its peer; [newRfsrv] starts another
    one on what the persister holds.  Calls to the tester are answered. *)

From S2P Require Import Prelude RaftNode RaftFacts RaftCluster RaftElection RaftLog RaftSafety.
From S2P Require Import RaftParts Replication RaftReplication RaftAgreement RaftServer.
Local Open Scope Z_scope.

Section tested.
Context {Cmd : Type} `{EqDecision Cmd}.
Abbreviation bytes := (list (snapval Cmd)).
Abbreviation msg := (ApplyMsg Cmd bytes).
Variable snapshot : bool.   (** [tester.MaxRaftState > 0] *)

Record service := {
  sv_srv : rfsrv Cmd;
  sv_read : nat;                        (** messages read since its start *)
  sv_taking : option (Z * bytes)        (** the snapshot it is about to hand to its peer *)
}.

Record tested := {
  t_cluster : cluster Cmd bytes;
  t_services : list service;
  t_test : Test Cmd
}.

Inductive taction :=
| TCluster (a : action Cmd bytes)
| TRead (i : nat)
| TSnapshot (i : nat).

Definition set_service (i : nat) (sv : service) (t : tested) : tested :=
  {| t_cluster := t_cluster t; t_services := <[i := sv]> (t_services t); t_test := t_test t |}.
Definition set_test (ts : Test Cmd) (t : tested) : tested :=
  {| t_cluster := t_cluster t; t_services := t_services t; t_test := ts |}.

(** what the service [i] reads next *)
Definition next_msg (i : nat) (t : tested) : option (service * msg) :=
  sv ← t_services t !! i;
  d ← delivered (t_cluster t) !! i;
  m ← d !! sv_read sv;
  match sv_taking sv with None => Some (sv, m) | Some _ => None end.

(** an iteration of the service's loop; [Fatal] and [Panic] end the run *)
Definition read_msg (m : msg) (sv : service) (ts : Test Cmd) : outcome (service * Test Cmd) :=
  if snapshot then
    '(rs, ts', taking) ← applierSnap m (sv_srv sv) ts;
    Ret ({| sv_srv := rs; sv_read := S (sv_read sv); sv_taking := taking |}, ts')
  else
    ts' ← applier m (sv_srv sv) ts;
    Ret ({| sv_srv := sv_srv sv; sv_read := S (sv_read sv); sv_taking := None |}, ts').

(** the service that starts with its peer *)
Definition start_service (i : nat) (rf : Raft Cmd bytes) (ts : Test Cmd) : outcome (service * Test Cmd) :=
  '(rs, ts') ← newRfsrv (Z.of_nat i) (ReadSnapshot (persister rf)) snapshot ts;
  Ret ({| sv_srv := rs; sv_read := 0; sv_taking := None |}, ts').

Definition tested_step (a : taction) (t : tested) : option tested :=
  match a with
  | TCluster (ASnapshot _ _ _) => None
  | TCluster (ACrash i clk) =>
      rf ← nodes (t_cluster t) !! i;
      '(sv, ts) ← of_ret (start_service i rf (t_test t));
      c ← cluster_step (ACrash i clk) (t_cluster t);
      Some {| t_cluster := c; t_services := <[i := sv]> (t_services t); t_test := ts |}
  | TCluster a =>
      c ← cluster_step a (t_cluster t);
      Some {| t_cluster := c; t_services := t_services t; t_test := t_test t |}
  | TRead i =>
      '(sv, m) ← next_msg i t;
      '(sv', ts) ← of_ret (read_msg m sv (t_test t));
      Some (set_test ts (set_service i sv' t))
  | TSnapshot i =>
      sv ← t_services t !! i;
      '(idx, sn) ← sv_taking sv;
      c ← cluster_step (ASnapshot i idx (Some sn)) (t_cluster t);
      Some {| t_cluster := c;
              t_services := <[i := {| sv_srv := sv_srv sv; sv_read := sv_read sv; sv_taking := None |}]>
                              (t_services t);
              t_test := t_test t |}
  end.

(** the action of the cluster in a step *)
Definition cluster_action (a : taction) (t : tested) : list (action Cmd bytes) :=
  match a with
  | TCluster a => [a]
  | TRead _ => []
  | TSnapshot i =>
      match t_services t !! i ≫= sv_taking with Some (idx, sn) => [ASnapshot i idx (Some sn)] | None => [] end
  end.

(** running a schedule: the actions of the cluster, and the state reached *)
Fixpoint tested_run (acts : list taction) (t : tested) : option (list (action Cmd bytes) * tested) :=
  match acts with
  | [] => Some ([], t)
  | a :: acts' =>
      t' ← tested_step a t;
      '(done, t'') ← tested_run acts' t';
      Some (cluster_action a t ++ done, t'')
  end.

Definition tested_init (clk : clock) (n : nat) : tested :=
  {| t_cluster := cluster_init clk n;
     t_services := (λ i, {| sv_srv := {| rs_me := Z.of_nat i; rs_lastApplied := 0; rs_log := ∅ |};
                            sv_read := 0; sv_taking := None |}) <$> seq 0 n;
     t_test := makeTest n |}.
End tested.

Arguments service : clear implicits.
Arguments tested : clear implicits.
Arguments taction : clear implicits.

(** ** Tests without snapshots *)

Section quiet.
Context {Cmd : Type} `{EqDecision Cmd}.
Abbreviation bytes := (list (snapval Cmd)).
Abbreviation msg := (ApplyMsg Cmd bytes).
Variables (n : nat) (clk : clock).

(** what the tester [ts] knows of what the service [sv] on peer [i] read *)
Definition reported (ts : Test Cmd) i (sv : service Cmd) (d : list msg) : Prop :=
  ∃ rs, srvs ts !! i = Some rs ∧ (sv_read sv ≤ length d)%nat
  ∧ ∀ p m, (p < sv_read sv)%nat → d !! p = Some m → entry (CommandIndex m) rs = Some (am_Command m).

Record quiet (acts : list (action Cmd bytes)) (t : tested Cmd) : Prop := {
  q_run : log_only_run acts (cluster_init clk n) = Some (t_cluster t);
  q_errors : ∀ rs, rs ∈ srvs (t_test t) → srv_applyErr rs = None;
  q_heard : ∀ rs k v, rs ∈ srvs (t_test t) → entry k rs = Some v → received_by n clk acts (t_cluster t) k v;
  q_service : ∀ i sv, t_services t !! i = Some sv →
    rs_me (sv_srv sv) = Z.of_nat i ∧ sv_taking sv = None ∧
    ∃ d, delivered (t_cluster t) !! i = Some d ∧ reported (t_test t) i sv d
}.

(** an action of the cluster; when it is a crash, the service starts again *)
Lemma quiet_cluster acts t t' a : quiet acts t → log_only a (t_cluster t) = true →
  tested_step false (TCluster a) t = Some t' → quiet (acts ++ [a]) t'.
Proof.
  intros HQ Ha E.
  assert (cluster_step a (t_cluster t) = Some (t_cluster t') ∧ t_test t' = t_test t ∧
    ∀ i sv, t_services t' !! i = Some sv →
      (t_services t !! i = Some sv ∧ ∀ clk, a ≠ ACrash i clk) ∨
      (is_Some (t_services t !! i) ∧ sv_read sv = O ∧ rs_me (sv_srv sv) = Z.of_nat i ∧ sv_taking sv = None)) as (Ec & Et & Hsv).
  { destruct a as [i k|i|i|i|i|i command|i idx sn|k ck|k|k ck|i ck];
      try (apply bind_Some in E as (c & Ec & E); injection E as <-; split; [done|]; split; [done|];
           intros ???; by left).
    - done.
    - simpl in E. apply bind_Some in E as (rf & Hrf & E). rewrite Hrf in E. unfold start_service, newRfsrv in E.
      replace (match ReadSnapshot (persister rf) with Some (_ :: _) => _ | _ => _ end)
        with (@Ret (rfsrv Cmd * Test Cmd) ({| rs_me := Z.of_nat i; rs_lastApplied := 0; rs_log := ∅ |}, t_test t)) in E
        by (by destruct (ReadSnapshot _) as [[|??]|]).
      cbn [mbind outcome_bind of_ret option_bind] in E. apply bind_Some in E as (c & Ec & E). injection E as <-.
      split; [simpl; by rewrite Hrf|]. split; [done|]. simpl. intros j sv [(<- & <- & Hlt)|[Hne Hj]]%list_lookup_insert_Some.
      + right. split; [by apply lookup_lt_is_Some|done].
      + left. split; [done|]. congruence. }
  destruct HQ as [Q1 Q2 Q3 Q4]. split.
  - rewrite log_only_run_app, Q1. simpl. by rewrite Ha, Ec.
  - by rewrite Et.
  - rewrite Et. intros rs k v Hin He. eapply received_later; [by eapply Q3|by apply log_only_orderly|done].
  - intros i sv Hi. rewrite Et. destruct (Hsv i sv Hi) as [[Hi0 Hnc]|([sv0 Hi0] & Hr & Hm & Ht)].
    + destruct (Q4 i sv Hi0) as (? & ? & d & Hd & rs & Hrs & Hlen & Hrep). do 2 (split; [done|]).
      destruct (step_delivered _ _ _ i d Ec Hd) as (d' & Hd' & [[k ->]|[[ck ->] _]]); [|by destruct (Hnc ck)].
      exists (d ++ k). split; [done|]. exists rs. split; [done|]. rewrite length_app. split; [lia|].
      intros p m Hp Hl. rewrite lookup_app_l in Hl by lia. eauto.
    + destruct (Q4 i sv0 Hi0) as (_ & _ & d & Hd & rs & Hrs & _). do 2 (split; [done|]).
      destruct (step_delivered _ _ _ i d Ec Hd) as (d' & Hd' & _). exists d'. split; [done|].
      exists rs. rewrite Hr. split; [done|]. split; [lia|]. intros; lia.
Qed.

(** a service reads a message *)
Lemma quiet_read acts t t' i : quiet acts t → single n clk acts → tested_step false (TRead i) t = Some t' → quiet acts t'.
Proof.
  intros HQ Hs E. simpl in E. apply bind_Some in E as ([sv m] & Hnext & E).
  unfold next_msg in Hnext. apply bind_Some in Hnext as (sv0 & Hsv & Hnext).
  apply bind_Some in Hnext as (d & Hd & Hnext). apply bind_Some in Hnext as (m0 & Hm & Hnext).
  destruct (sv_taking sv0) eqn:Ht; [done|]. injection Hnext as -> ->.
  destruct HQ as [Q1 Q2 Q3 Q4]. destruct (Q4 i sv Hsv) as (Hme & _ & d0 & Hd0 & rs & Hrs & Hlen & Hrep).
  assert (d0 = d) as -> by congruence.
  assert (CommandValid m = true ∧ CommandIndex m = Z.of_nat (sv_read sv) + 1 ∧
    ∀ p m', d !! p = Some m' → CommandIndex m' = Z.of_nat p + 1) as (Hv & Hidx & Hall).
  { assert (∃ rf p, nodes (t_cluster t) !! i = Some rf ∧ pending (t_cluster t) !! i = Some p) as (rf & p & Hrf & Hp).
    { destruct (cluster_lengths n (t_cluster t)) as (Ln & Lp & Ld).
      { exists clk, acts. by apply orderly_run_run, log_only_run_orderly. }
      apply lookup_lt_Some in Hd. destruct (lookup_lt_is_Some_2 (nodes (t_cluster t)) i) as [rf ?]; [lia|].
      destruct (lookup_lt_is_Some_2 (pending (t_cluster t)) i) as [p ?]; [lia|]. eauto. }
    destruct (log_only_run_in_order n acts _ _ (ex_intro _ clk (ex_intro _ [] eq_refl)) (init_in_order clk n) Q1
      i rf d p Hrf Hd Hp) as (_ & _ & Ho).
    assert (∀ q m', d !! q = Some m' → CommandValid m' = true ∧ CommandIndex m' = Z.of_nat q + 1) as Ho'
      by (intros q m' Hq; apply Ho; by apply lookup_app_l_Some).
    destruct (Ho' _ _ Hm). split_and!; [done..|]. intros q m' Hq. by apply Ho'. }
  unfold read_msg, applier in E. rewrite Hv, Hme, (CheckLogs_Ret _ _ _ _ Hrs) in E.
  cbn [mbind outcome_bind] in E.
  assert (check_others (Z.of_nat i) m (srvs (t_test t)) = None) as Hno.
  { apply check_others_None. intros rs' old Hin He. eapply received_same; [by apply log_only_run_orderly|done|by eapply (Q3 rs')|].
    eapply received_now; [by apply log_only_run_orderly|done|by eapply list_elem_of_lookup_2|done]. }
  rewrite Hno in E. rewrite decide_False in E; cycle 1.
  { intros [Hgt Hp]. apply bool_decide_eq_false in Hp. apply Hp. rewrite Hidx in Hgt |- *.
    destruct (lookup_lt_is_Some_2 d (sv_read sv - 1)) as [m' Hm']; [lia|].
    exists (am_Command m'). rewrite <-(Hrep (sv_read sv - 1)%nat m' ltac:(lia) Hm'). f_equal. rewrite (Hall _ _ Hm'). lia. }
  cbn -[entry] in E. injection E as <-.
  pose proof (lookup_lt_Some _ _ _ Hrs) as Hlt.
  split; simpl; [done|..].
  - intros rs' Hin. apply list_elem_of_lookup in Hin as (j & [(<- & <- & _)|[_ Hj]]%list_lookup_insert_Some);
      simpl; eapply Q2, list_elem_of_lookup_2; eassumption.
  - intros rs' k v Hin He. apply list_elem_of_lookup in Hin as (j & [(<- & <- & _)|[_ Hj]]%list_lookup_insert_Some).
    + unfold entry in He. simpl in He. apply lookup_insert_Some in He as [[<- <-]|[_ He]].
      * eapply received_now; [by apply log_only_run_orderly|done|by eapply list_elem_of_lookup_2|done].
      * eapply Q3; [by eapply list_elem_of_lookup_2|done].
    + eapply Q3; [by eapply list_elem_of_lookup_2|done].
  - intros j sv' [(<- & <- & _)|[Hne Hj]]%list_lookup_insert_Some; simpl.
    + split; [done|]. split; [done|]. exists d. split; [done|]. unfold reported. simpl. eexists. rewrite list_lookup_insert_eq by done.
      split; [done|]. simpl. split; [by apply lookup_lt_Some in Hm|]. intros p m' Hp Hm'. unfold entry. simpl.
      destruct (decide (p = sv_read sv)) as [->|Hnp]; [replace m' with m by congruence; by rewrite lookup_insert_eq|].
      rewrite lookup_insert_ne; [apply (Hrep p); [lia|done]|]. rewrite Hidx, (Hall _ _ Hm'). lia.
    + destruct (Q4 j sv' Hj) as (? & ? & d' & ? & rs' & ? & ?). do 2 (split; [done|]). exists d'. split; [done|].
      exists rs'. simpl. by rewrite list_lookup_insert_ne.
Qed.

Lemma quiet_run t acts acts0 done t' : quiet acts0 t → tested_run false acts t = Some (done, t') →
  (∃ c, log_only_run done (t_cluster t) = Some c) → single n clk (acts0 ++ done) → quiet (acts0 ++ done) t'.
Proof.
  revert t acts0 done. induction acts as [|a acts IH]; intros t acts0 done HQ E Hlog Hs; simpl in E.
  { injection E as <- <-. by rewrite app_nil_r. }
  apply bind_Some in E as (t1 & E1 & E). apply bind_Some in E as ([done' t2] & E2 & E). injection E as <- <-.
  destruct a as [a|i|i]; cbn [cluster_action app] in *.
  - destruct Hlog as [c Hlog]. simpl in Hlog. destruct (log_only a (t_cluster t)) eqn:Ha; [|done].
    replace (acts0 ++ a :: done') with ((acts0 ++ [a]) ++ done') in * by by rewrite <-app_assoc.
    assert (quiet (acts0 ++ [a]) t1) as HQ1 by by eapply quiet_cluster.
    eapply IH; [done..| |done]. exists c. apply bind_Some in Hlog as (c1 & Ec & Hlog).
    pose proof (q_run _ _ HQ1) as H1. rewrite log_only_run_app, (q_run _ _ HQ) in H1. simpl in H1.
    rewrite Ha, Ec in H1. simpl in H1. by injection H1 as <-.
  - assert (quiet acts0 t1) as HQ1.
    { eapply quiet_read; [done| |done]. eapply single_prefix; [apply log_only_run_orderly, (q_run _ _ HQ)|done]. }
    eapply IH; [done..| |done]. destruct Hlog as [c Hlog]. exists c.
    pose proof (q_run _ _ HQ1) as H1. rewrite (q_run _ _ HQ) in H1. by injection H1 as <-.
  - simpl in E1. apply bind_Some in E1 as (sv & Hsv & E1).
    destruct (q_service _ _ HQ i sv Hsv) as (_ & Ht & _). by rewrite Ht in E1.
Qed.

Lemma quiet_init : quiet [] (tested_init clk n).
Proof.
  split; simpl; [done|..].
  - intros rs [-> _]%elem_of_replicate. done.
  - intros rs k v [-> _]%elem_of_replicate He. unfold entry in He. simpl in He. by rewrite lookup_empty in He.
  - intros i sv Hi. apply list_lookup_fmap_Some in Hi as (j & -> & Hj). simpl.
    apply lookup_seq in Hj as [-> Hlt]. split; [done|]. split; [done|]. exists []. split; [by apply lookup_replicate|].
    eexists. split; [by apply lookup_replicate|]. split; [simpl; lia|]. simpl. intros; lia.
Qed.

Lemma nCommitted_from_Ret index (l : list (raftServer Cmd)) count cmd :
  (∀ rs, rs ∈ l → srv_applyErr rs = None) →
  (∀ rs v rs' v', rs ∈ l → rs' ∈ l → entry index rs = Some v → entry index rs' = Some v' → v = v') →
  (count > 0 → ∀ rs v, rs ∈ l → entry index rs = Some v → v = cmd) → 0 ≤ count →
  ∃ cmd', nCommitted_from index l count cmd
          = Ret (count + zlen (filter (λ rs, is_Some (entry index rs)) l), cmd').
Proof.
  revert count cmd. induction l as [|rs l IH]; intros count cmd He Hsame Hc Hpos; simpl.
  { exists cmd. by rewrite Z.add_0_r. }
  rewrite (He rs) by (by left). rewrite filter_cons. destruct (entry index rs) as [cmd1|] eqn:E.
  - rewrite decide_False by (intros [? Hne]; apply Hne; symmetry; eapply Hc; [done|by left|done]).
    rewrite decide_True by done. destruct (IH (count + 1) cmd1) as [cmd' ->].
    + intros; apply He; by right.
    + intros ???? H1 H2. apply Hsame; by right.
    + intros _ rs' v Hin Hv. eapply Hsame; [by right|by left|done..].
    + lia.
    + exists cmd'. f_equal. unfold zlen. simpl. f_equal. lia.
  - rewrite decide_False by (intros [? ?]; done). apply IH; [|..|done].
    + intros; apply He; by right.
    + intros ???? H1 H2. apply Hsame; by right.
    + intros Hc' rs' v Hin. apply Hc; [done|by right].
Qed.
End quiet.

(** C25. The tests pass: in every run of peers, services and tester without
    snapshots, with one leader per term, crashes and restarts included, whatever
    the order in which the services read and report, no service reports an
    error, [nCommitted] counts the servers that reported an index without
    ending the test, and the tester has exactly what each service read. *)
Theorem tests_pass {Cmd} `{EqDecision Cmd} n clk acts done (t : tested Cmd) :
  tested_run false acts (tested_init clk n) = Some (done, t) →
  log_only_run done (cluster_init clk n) = Some (t_cluster t) →
  Nat.Even n ∨ one_leader_per_term done (cluster_init clk n) →
  (∀ rs, rs ∈ srvs (t_test t) → srv_applyErr rs = None)
  ∧ (∀ index, ∃ cmd, nCommitted index (t_test t)
       = Ret (zlen (filter (λ rs, is_Some (entry index rs)) (srvs (t_test t))), cmd))
  ∧ ∀ i sv, t_services t !! i = Some sv → ∃ d rs, delivered (t_cluster t) !! i = Some d
      ∧ srvs (t_test t) !! i = Some rs ∧ (sv_read sv ≤ length d)%nat
      ∧ ∀ p m, (p < sv_read sv)%nat → d !! p = Some m → entry (CommandIndex m) rs = Some (am_Command m).
Proof.
  intros E Hlog Hs.
  assert (quiet n clk ([] ++ done) t) as [Q1 Q2 Q3 Q4] by (eapply quiet_run; [apply quiet_init|eauto..]).
  simpl in *. split; [done|]. split.
  - intros index. destruct (nCommitted_from_Ret index (srvs (t_test t)) 0 None) as [cmd Hc]; [done| |intros; lia|lia|].
    + intros rs v rs' v' Hin Hin' Hv Hv'. eapply received_same; [by apply log_only_run_orderly|done|by eapply (Q3 rs)|by eapply (Q3 rs')].
    + exists cmd. unfold nCommitted. rewrite Hc, Z.add_0_l. done.
  - intros i sv Hi. destruct (Q4 i sv Hi) as (_ & _ & d & Hd & rs & Hrs & ? & ?). eauto 10.
Qed.

(** *** Concrete runs *)

(** peer 0 leads, commits a command with peer 1, and both services report it;
    peer 1 crashes and its service hears the command again *)
Definition passing_run : list (taction nat) :=
  let late := {| now := 1000; rnd := 0 |} in
  (TCluster <$> [ATick 0 late; ADeliver 0 late; AReply 0 late; AStart 0 (Some 10%nat); AHeartBeat 0;
                 ADeliver 1 late; AReply 1 late; ACommit 0; AApply 0; ASend 0]) ++
  [TRead 0] ++
  (TCluster <$> [AHeartBeat 0; ADeliver 2 late; AApply 1; ASend 1]) ++ [TRead 1] ++
  (TCluster <$> [ACrash 1 late; AHeartBeat 0; ADeliver 4 late; AApply 1; ASend 1]) ++ [TRead 1].

Lemma tests_pass_witness : ∃ done (t : tested nat), tested_run false passing_run (tested_init clk0 3) = Some (done, t) ∧
  nCommitted 1 (t_test t) = Ret (2, Some 10%nat) ∧
  (∀ rs, rs ∈ srvs (t_test t) → srv_applyErr rs = None)
  ∧ (∀ index, ∃ cmd, nCommitted index (t_test t)
       = Ret (zlen (filter (λ rs, is_Some (entry index rs)) (srvs (t_test t))), cmd))
  ∧ ∀ i sv, t_services t !! i = Some sv → ∃ d rs, delivered (t_cluster t) !! i = Some d
      ∧ srvs (t_test t) !! i = Some rs ∧ (sv_read sv ≤ length d)%nat
      ∧ ∀ p m, (p < sv_read sv)%nat → d !! p = Some m → entry (CommandIndex m) rs = Some (am_Command m).
Proof.
  eexists _, _. split; [vm_compute; reflexivity|]. split; [reflexivity|].
  eapply (tests_pass 3 clk0 passing_run); [vm_compute; reflexivity|vm_compute; reflexivity|].
  right. apply one_leader_checked. vm_compute. reflexivity.
Defined.

(** peer 1 has collected command 1 and not sent it when it installs the snapshot
    the service of peer 0 took after command 9 *)
Definition overtaken_run : list (taction nat) :=
  let late := {| now := 1000; rnd := 0 |} in
  (TCluster <$>
     [ATick 0 late; ADeliver 1 late; AReply 1 late; ADeliver 0 late; AReply 0 late;
      AStart 0 (Some 10%nat); AHeartBeat 0; ADeliver 0 late; ALose 0; ADeliver 0 late; AReply 0 late; ACommit 0;
      AHeartBeat 0; ADeliver 0 late; ALose 0; AApply 1] ++
     ((λ x, AStart 0 (Some x)) <$> seq 11 8) ++
     [AHeartBeat 0; ADeliver 2 late; AReply 2 late; ACommit 0; AApply 0] ++ replicate 9 (ASend 0)) ++
  replicate 9 (TRead 0) ++ [TSnapshot 0] ++
  (TCluster <$> [AHeartBeat 0; ADeliver 2 late; ASend 1]) ++ [TRead 1; TRead 1].

(** The tests with snapshots can fail although Raft has one leader and nothing
    crashes: [apply] sends its batch after it released the lock, the snapshot
    overtakes it, and the service reports a command out of order. *)
Theorem overtaken_command_reported : ∃ done (t : tested nat),
  tested_run true overtaken_run (tested_init clk0 3) = Some (done, t)
  ∧ one_leader_per_term done (cluster_init clk0 3)
  ∧ orderly_run done (cluster_init clk0 3) = Some (t_cluster t)
  ∧ srv_applyErr <$> srvs (t_test t) = [None; Some (EExpected 1 10 1); None].
Proof.
  eexists _, _. split; [vm_compute; reflexivity|].
  split; [apply one_leader_checked; vm_compute; reflexivity|].
  split; vm_compute; reflexivity.
Qed.
