(* ===== verification/RaftSnaps.v ===== *)
(** * Where the snapshots of a cluster come from

    What every action of the cluster does to one peer's snapshot, its applied
    index and the messages for its service, and to the snapshots under way: they
    are only what a service handed to its peer, sent and installed unchanged. *)

From S2P Require Import Prelude RaftNode RaftFacts RaftCluster RaftElection RaftLog RaftSafety.
From S2P Require Import RaftParts.
Local Open Scope Z_scope.

Section snaps.
Context {Cmd Snap : Type}.
Implicit Types (rf : Raft Cmd Snap) (c : cluster Cmd Snap).

Definition snap_part rf : Z * option Snap * Z := (snapshotIndex rf, snapshot rf, lastApplied rf).

Lemma snap_fields rf i sn la : snap_part rf = (i, sn, la) → snapshotIndex rf = i ∧ snapshot rf = sn ∧ lastApplied rf = la.
Proof. by intros [=]. Qed.

(** ** The operations *)

Lemma update_snap t rf : snap_part (fst (updateTermAndBecomeFollower t rf)) = snap_part rf.
Proof. done. Qed.

Lemma tick_snap clk rf rf' eff : ticker_iteration clk rf = Ret (Some (rf', eff)) → snap_part rf' = snap_part rf.
Proof.
  unfold ticker_iteration, startAElection. intros E. destruct (decide _); [done|].
  destruct (decide _); [|by injection E as <- _].
  apply outcome_bind_ret in E as ([rf1 e1] & E1 & E). injection E as <- _.
  apply outcome_bind_ret in E1 as (t & _ & E1). by injection E1 as <- _.
Qed.

Lemma commit_snap rf rf' eff : commit_iteration rf = Ret (Some (rf', eff)) → snap_part rf' = snap_part rf.
Proof.
  unfold commit_iteration. intros E. destruct (decide _); [done|].
  apply outcome_bind_ret in E as (? & _ & E). apply outcome_bind_ret in E as (? & _ & E).
  destruct (decide _); [apply outcome_bind_ret in E as (? & _ & E); destruct (decide _)|];
    by injection E as <- _.
Qed.

Lemma Start_snap command rf rf' eff res : Start command rf = (rf', eff, res) → snap_part rf' = snap_part rf.
Proof. unfold Start. intros E. destruct (decide _); by injection E as <- _ _. Qed.

Lemma vote_reply_snap clk rf args reply rf' eff :
  sendRequestVote_reply clk rf args reply = Ret (rf', eff) → snap_part rf' = snap_part rf.
Proof.
  unfold sendRequestVote_reply, becomeLeader. intros E.
  repeat (destruct (decide _); [by injection E as <- _|]).
  destruct (decide _); [|by injection E as <- _]. simpl in E.
  destruct (decide _); [|by injection E as <- _]. repeat (destruct (decide _); [done|]).
  apply outcome_bind_ret in E as (? & _ & E). by injection E as <- _.
Qed.

Lemma append_reply_snap rf srv args reply rf' eff :
  sendAppendEntries_reply rf srv args reply = Ret (rf', eff) → snap_part rf' = snap_part rf.
Proof.
  unfold sendAppendEntries_reply. intros E.
  repeat (destruct (decide _); [by injection E as <- _|]).
  destruct (Success reply); [|destruct (decide _); [|destruct (decide _)]];
    repeat (apply outcome_bind_ret in E as (? & _ & E)); by injection E as <- _.
Qed.

Lemma install_reply_snap rf srv args reply rf' eff :
  sendInstallSnapshot_reply rf srv args reply = Ret (rf', eff) → snap_part rf' = snap_part rf.
Proof.
  unfold sendInstallSnapshot_reply. intros E.
  repeat (destruct (decide _); [by injection E as <- _|]).
  repeat (apply outcome_bind_ret in E as (? & _ & E)); by injection E as <- _.
Qed.

Lemma vote_snap clk rf args rf' eff reply :
  RequestVote clk rf args = Ret (rf', eff, reply) → snap_part rf' = snap_part rf.
Proof. intros E%RequestVote_replica. unfold snap_part. by injection E as _ _ -> -> ->. Qed.

Lemma accept_snap rf args rf' eff : AppendEntries_accept rf args = Ret (rf', eff) → snap_part rf' = snap_part rf.
Proof.
  unfold AppendEntries_accept. intros E. apply outcome_bind_ret in E as ([li es] & _ & E).
  apply outcome_bind_ret in E as (rf1 & E1 & E). simpl in E1.
  assert (snap_part rf1 = snap_part rf) as <-.
  { destruct es as [|e es]; simpl in E1; [by injection E1 as <-|]. apply outcome_bind_ret in E1 as (? & _ & E1). by injection E1 as <-. }
  destruct (decide _); simpl in E; by injection E as <- _.
Qed.

Lemma append_snap clk rf args rf' eff reply :
  AppendEntries clk rf args = Ret (rf', eff, reply) → snap_part rf' = snap_part rf.
Proof.
  unfold AppendEntries. intros E. destruct (decide _); [by injection E as <- _ _|].
  destruct (if decide _ then _ else _) as [rf2 eff2] eqn:E2.
  assert (snap_part rf2 = snap_part rf) as <- by (destruct (decide _); by injection E2 as <- _).
  clear E2.
  destruct (decide _); [by injection E as <- _ _|]. destruct (decide _); [by injection E as <- _ _|].
  apply outcome_bind_ret in E as (prev & _ & E). destruct (decide _).
  - apply outcome_bind_ret in E as (xi & _ & E). destruct (decide _); by injection E as <- _ _.
  - apply outcome_bind_ret in E as ([rf4 eff4] & E4 & E). injection E as <- _ _. by apply accept_snap in E4.
Qed.

Lemma snapshot_snap i sn rf rf' : Snapshot i sn rf = Ret rf' →
  snap_part rf' = snap_part rf ∨ snapshotIndex rf ≤ i ∧ snap_part rf' = (i, sn, lastApplied rf).
Proof.
  unfold Snapshot. intros E. destruct (decide _); [injection E as <-; by left|].
  destruct (decide _); [done|]. apply outcome_bind_ret in E as (? & _ & E). injection E as <-. right. split; [lia|done].
Qed.

Lemma install_snap clk rf args rf' eff reply :
  InstallSnapshot clk rf args = Ret (rf', eff, reply) →
  snap_part rf' = snap_part rf ∧ omap effect_msg eff = []
  ∨ snapshotIndex rf < LastIncludedIndex args ∧ omap effect_msg eff = [snapshot_msg args]
    ∧ snap_part rf' = (LastIncludedIndex args, Data args, Z.max (lastApplied rf) (LastIncludedIndex args)).
Proof.
  unfold InstallSnapshot. intros E. destruct (decide _); [injection E as <- <- _; by left|].
  destruct (if decide _ then _ else _) as [rf1 eff1] eqn:E1.
  assert (snap_part rf1 = snap_part rf ∧ omap effect_msg eff1 = []) as [Hs He].
  { destruct (decide (is_Term args > currentTerm rf)); injection E1 as <- <-; [|done].
    split; [done|]. by destruct (decide (raftState rf = RaftLeader)). }
  injection Hs as Hsi Hsn Hla. clear E1. destruct (decide _) as [|Hnew].
  { injection E as <- <- _. left. unfold snap_part. simpl. by rewrite Hsi, Hsn, Hla. }
  right. apply outcome_bind_ret in E as (ls & _ & E). injection E as <- <- _. simpl in Hnew.
  split; [lia|]. split; [by rewrite omap_app, He|]. unfold snap_part.
  repeat case_decide; simpl in *; repeat f_equal; lia.
Qed.

Lemma restart_snap clk rf : recoverable rf → 0 ≤ snapshotIndex rf →
  snap_part (fst (Make clk (peers rf) (me rf) (persister rf))) = (snapshotIndex rf, snapshot rf, snapshotIndex rf).
Proof.
  intros Hrec Hs. destruct (restart_parts clk rf Hrec Hs) as (_ & _ & _ & _ & Hsi & _ & Hla).
  destruct (stable_fields _ _ (Hrec clk)) as (_ & _ & _ & _ & Hsn). unfold snap_part. congruence.
Qed.

(** the persister holds the snapshot *)
Lemma saved_snapshot rf : recoverable rf → ReadSnapshot (persister rf) = snapshot rf.
Proof.
  intros Hrec. destruct (stable_fields _ _ (Hrec {| now := 0; rnd := 0 |})) as (_ & _ & _ & _ & <-).
  unfold Make. cbv zeta. simpl fst. by destruct (decide _).
Qed.

(** ** The actions *)

(** what action [a] does to peer [i], to what its service has received [d] and
    to what is collected for it [q] *)
Inductive peer_step (a : action Cmd Snap) c (i : nat) rf (d q : list (ApplyMsg Cmd Snap))
    : Raft Cmd Snap → list (ApplyMsg Cmd Snap) → list (ApplyMsg Cmd Snap) → Prop :=
| ps_same rf' : (∀ clk, a ≠ ACrash i clk) → snap_part rf' = snap_part rf → peer_step a c i rf d q rf' d q
| ps_apply rf' ms : q = [] → apply_iteration rf = Ret (Some (rf', ms)) → a = AApply i → peer_step a c i rf d q rf' d ms
| ps_send m q' : q = m :: q' → a = ASend i → peer_step a c i rf d q rf (d ++ [m]) q'
| ps_snapshot idx sn rf' : a = ASnapshot i idx sn → snapshotIndex rf ≤ idx →
    snap_part rf' = (idx, sn, lastApplied rf) → peer_step a c i rf d q rf' d q
| ps_install k clk cl args rf' : a = ADeliver k clk → calls c !! k = Some cl → c_to cl = i →
    c_rpc cl = RpcSnap args None → snapshotIndex rf < LastIncludedIndex args →
    snap_part rf' = (LastIncludedIndex args, Data args, Z.max (lastApplied rf) (LastIncludedIndex args)) →
    peer_step a c i rf d q rf' (d ++ [snapshot_msg args]) q
| ps_crash clk : a = ACrash i clk → peer_step a c i rf d q (fst (Make clk (peers rf) (me rf) (persister rf))) [] [].

Definition peer_at c (i : nat) rf (d q : list (ApplyMsg Cmd Snap)) : Prop :=
  nodes c !! i = Some rf ∧ delivered c !! i = Some d ∧ pending c !! i = Some q.

(** only peer [j] changes, in its node *)
Lemma peer_node a c c' i j rf d q rf0 rf0' :
  peer_at c i rf d q → (∀ clk, a ≠ ACrash i clk) → nodes c !! j = Some rf0 →
  nodes c' = <[j := rf0']> (nodes c) → delivered c' = delivered c → pending c' = pending c →
  snap_part rf0' = snap_part rf0 →
  ∃ rf' d' q', peer_at c' i rf' d' q' ∧ peer_step a c i rf d q rf' d' q'.
Proof.
  intros (Hi & Hd & Hq) Ha Hj En Ed Eq Hs. destruct (decide (j = i)) as [->|Hne].
  - assert (rf0 = rf) as -> by congruence. exists rf0', d, q. unfold peer_at. rewrite En, Ed, Eq.
    rewrite list_lookup_insert_eq by (by eapply lookup_lt_Some). split; [done|]. by constructor.
  - exists rf, d, q. unfold peer_at. rewrite En, Ed, Eq, list_lookup_insert_ne by done. split; [done|]. by constructor.
Qed.

Lemma peer_same a c c' i rf d q : peer_at c i rf d q → (∀ clk, a ≠ ACrash i clk) →
  nodes c' = nodes c → delivered c' = delivered c → pending c' = pending c →
  ∃ rf' d' q', peer_at c' i rf' d' q' ∧ peer_step a c i rf d q rf' d' q'.
Proof.
  intros (Hi & Hd & Hq) Ha En Ed Eq. exists rf, d, q. unfold peer_at. rewrite En, Ed, Eq. split; [done|]. by constructor.
Qed.

Lemma deliver_peer k clk c c' i rf d q : deliver k clk c = Some c' → peer_at c i rf d q →
  ∃ rf' d' q', peer_at c' i rf' d' q' ∧ peer_step (ADeliver k clk) c i rf d q rf' d' q'.
Proof.
  unfold deliver. intros E Hp. apply bind_Some in E as (cl & Hk & E). apply bind_Some in E as (rf0 & Hi & E).
  destruct (c_rpc cl) as [args tries [r|]|args [r|]|args [r|]] eqn:Hrpc; try discriminate E; act_inv.
  - eapply (peer_node _ _ _ _ (c_to cl)); [done|done|exact Hi|by destruct (VoteGranted _)..|by eapply vote_snap].
  - eapply (peer_node _ _ _ _ (c_to cl)); [done|done|exact Hi|done..|by eapply append_snap].
  - destruct (install_snap _ _ _ _ _ _ H) as [[Hs He]|(Hlt & He & Hs)].
    + eapply (peer_node _ _ _ _ (c_to cl)); [done|done|exact Hi|done| |done|done]. simpl. rewrite He.
      apply list_eq. intros j. destruct (decide (c_to cl = j)) as [<-|].
      * rewrite list_lookup_alter_eq. destruct (delivered c !! c_to cl); simpl; by rewrite ?app_nil_r.
      * by rewrite list_lookup_alter_ne.
    + destruct Hp as (Hn & Hd & Hq). destruct (decide (c_to cl = i)) as [<-|Hne].
      * assert (rf0 = rf) as -> by congruence. eexists _, _, _. unfold peer_at. simpl.
        rewrite list_lookup_insert_eq by (by eapply lookup_lt_Some). rewrite list_lookup_alter_eq, Hd, He.
        split; [done|]. by eapply ps_install.
      * exists rf, d, q. unfold peer_at. simpl. rewrite list_lookup_insert_ne, list_lookup_alter_ne by done.
        split; [done|]. by constructor.
Qed.

Lemma reply_peer k clk c c' i rf d q : handle_reply k clk c = Some c' → peer_at c i rf d q →
  ∃ rf' d' q', peer_at c' i rf' d' q' ∧ peer_step (AReply k clk) c i rf d q rf' d' q'.
Proof.
  unfold handle_reply. intros E Hp. apply bind_Some in E as (cl & Hk & E). apply bind_Some in E as (rf0 & Hi & E).
  apply bind_Some in E as (epoch & _ & E). destruct (decide _); [|done].
  apply bind_Some in E as ([rf0' eff] & E1%of_ret_Some & E). injection E as <-.
  eapply (peer_node _ _ _ _ (c_from cl)); [done|done|exact Hi|done..|].
  destruct (c_rpc cl) as [args tries [r|]|args [r|]|args [r|]]; try discriminate E1;
    [by eapply vote_reply_snap|by eapply append_reply_snap|by eapply install_reply_snap].
Qed.

Lemma step_peer a c c' i rf d q : cluster_step a c = Some c' → peer_at c i rf d q →
  ∃ rf' d' q', peer_at c' i rf' d' q' ∧ peer_step a c i rf d q rf' d' q'.
Proof.
  intros E Hp. pose proof Hp as (Hi & Hd & Hq).
  destruct a as [j clk|j|j|j|j|j command|j idx sn|k clk|k|k clk|j clk]; simpl in E.
  - act_inv. eapply (peer_node _ _ _ _ j); [done|done|eassumption|done..|by eapply tick_snap].
  - act_inv. by eapply peer_same.
  - act_inv. eapply (peer_node _ _ _ _ j); [done|done|eassumption|done..|by eapply commit_snap].
  - act_inv. case_match; [|done]. injection E as <-. destruct (decide (j = i)) as [->|Hne].
    + eexists _, _, _. unfold peer_at. simpl. rewrite !list_lookup_insert_eq by (by eapply lookup_lt_Some).
      split; [done|]. eapply ps_apply; [congruence| |done]. simplify_eq. done.
    + eexists _, _, _. unfold peer_at. simpl. rewrite !list_lookup_insert_ne by done. split; [done|]. by constructor.
  - act_inv. case_match; [done|]. injection E as <-. destruct (decide (j = i)) as [->|Hne].
    + eexists _, _, _. unfold peer_at. simpl. rewrite list_lookup_alter_eq, Hd.
      rewrite list_lookup_insert_eq by (by eapply lookup_lt_Some). split; [done|]. apply ps_send; [congruence|done].
    + eexists _, _, _. unfold peer_at. simpl. rewrite list_lookup_alter_ne, list_lookup_insert_ne by done.
      split; [done|]. by constructor.
  - apply bind_Some in E as (rf0 & Hj & E). destruct (Start command rf0) as [[rf0' ?] ?] eqn:E1.
    injection E as <-. eapply (peer_node _ _ _ _ j); [done|done|exact Hj|done..|by eapply Start_snap].
  - apply bind_Some in E as (rf0 & Hj & E). apply bind_Some in E as (rf0' & E1%of_ret_Some & E). injection E as <-.
    destruct (snapshot_snap _ _ _ _ E1) as [Hs|[Hle Hs]]; [by eapply (peer_node _ _ _ _ j)|].
    destruct (decide (j = i)) as [->|Hne].
    + assert (rf0 = rf) as -> by congruence. eexists _, _, _. unfold peer_at. simpl.
      rewrite list_lookup_insert_eq by (by eapply lookup_lt_Some). split; [done|]. by eapply ps_snapshot.
    + eexists _, _, _. unfold peer_at. simpl. rewrite list_lookup_insert_ne by done. split; [done|]. by constructor.
  - by eapply deliver_peer.
  - unfold lose in E. act_inv. eapply peer_same; [done|done|..];
      by destruct (c_rpc _) as [? [|[|?]] ?|? ?|? ?]; injection E as <-.
  - by eapply reply_peer.
  - act_inv. destruct (decide (j = i)) as [->|Hne].
    + eexists _, _, _. unfold peer_at. simpl. rewrite !list_lookup_insert_eq by (by eapply lookup_lt_Some).
      split; [done|]. assert (x = rf) as -> by congruence. by apply ps_crash.
    + eexists _, _, _. unfold peer_at. simpl. rewrite !list_lookup_insert_ne by done. split; [done|].
      constructor; [congruence|done].
Qed.

(** a snapshot under way was the snapshot of a peer *)
Definition snap_calls c (P : Z → option Snap → Prop) : Prop :=
  ∀ cl args rep, cl ∈ calls c → c_rpc cl = RpcSnap args rep → P (LastIncludedIndex args) (Data args).

Lemma call_of_update c (cs : list (call Cmd Snap)) k cl r (P : Z → option Snap → Prop) :
  cs !! k = Some cl →
  (∀ args rep, r = RpcSnap args rep → ∃ rep', c_rpc cl = RpcSnap args rep') →
  (∀ cl args rep, cl ∈ cs → c_rpc cl = RpcSnap args rep → P (LastIncludedIndex args) (Data args)) →
  snap_calls (set_calls (<[k := with_rpc cl r]> cs) c) P.
Proof.
  intros Hk Hr HP cl' args rep Hin Hrpc. simpl in Hin.
  apply list_elem_of_lookup in Hin as (j & [(<- & <- & _)|[_ Hj]]%list_lookup_insert_Some).
  - destruct (Hr _ _ Hrpc) as [rep' Hc]. by eapply HP; [eapply list_elem_of_lookup_2|].
  - by eapply HP; [eapply list_elem_of_lookup_2|].
Qed.

Lemma elem_of_delete {A} (l : list A) k x : x ∈ delete k l → x ∈ l.
Proof.
  rewrite !list_elem_of_lookup. intros [j Hj]. destruct (decide (j < k)%nat).
  - rewrite list_lookup_delete_lt in Hj by done. eauto.
  - rewrite list_lookup_delete_ge in Hj by lia. eauto.
Qed.

Lemma step_snap_calls a c c' (P : Z → option Snap → Prop) : cluster_step a c = Some c' → snap_calls c P →
  (∀ i rf, nodes c !! i = Some rf → P (snapshotIndex rf) (snapshot rf)) → snap_calls c' P.
Proof.
  intros E HP Hn.
  assert (∀ eff i epoch, (∀ srv args, SendInstallSnapshot srv args ∈ eff → P (LastIncludedIndex args) (Data args)) →
    ∀ c1, calls c1 = calls c → snap_calls (add_calls (omap (effect_call i epoch) eff) c1) P) as Hadd.
  { intros eff i epoch He c1 Ec cl args rep Hin Hrpc. simpl in Hin. rewrite Ec in Hin.
    apply elem_of_app in Hin as [Hin|Hin]; [by eapply HP|]. apply list_elem_of_omap in Hin as (e & He1 & He2).
    destruct e; try discriminate He2; injection He2 as <-; try discriminate Hrpc. injection Hrpc as <- _. eauto. }
  destruct a as [j clk|j|j|j|j|j command|j idx sn|k clk|k|k clk|j clk]; simpl in E; try (act_inv; exact HP).
  - act_inv. apply Hadd; [|done]. intros srv args Hin. destruct (tick_parts _ _ _ _ H1) as [[_ ->]|(_ & t & _ & ->)].
    + by apply not_elem_of_nil in Hin.
    + by apply list_elem_of_fmap in Hin as (? & ? & _).
  - act_inv. apply Hadd; [|done]. intros srv args Hin. unfold heartBeat_iteration in H1.
    destruct (decide _); [done|]. apply outcome_bind_ret in H1 as (es & Ees & H1). injection H1 as <-.
    destruct (heartBeat_range_send _ _ _ _ _ Ees Hin) as (i & next & Es). unfold heartBeat_send in Es.
    destruct (decide _); [apply outcome_bind_ret in Es as (e0 & _ & Es); injection Es as _ <-; eauto|].
    apply outcome_bind_ret in Es as (? & _ & Es). by apply outcome_bind_ret in Es as (? & _ & Es).
  - act_inv. case_match; [|done]. injection E as <-. exact HP.
  - act_inv. case_match; [done|]. injection E as <-. exact HP.
  - apply bind_Some in E as (rf0 & _ & E). destruct (Start command rf0) as [[? ?] ?]. injection E as <-. exact HP.
  - unfold deliver in E. apply bind_Some in E as (cl & Hk & E). apply bind_Some in E as (rf0 & Hi & E).
    destruct (c_rpc cl) as [args tries [r|]|args [r|]|args [r|]] eqn:Hrpc; try discriminate E;
      apply bind_Some in E as ([[rf' eff] reply] & _ & E); simpl in E; injection E as <-.
    + assert (snap_calls (set_calls (<[k := with_rpc cl (RpcVote args tries (Some reply))]> (calls c)) c) P) as Hc
        by (eapply call_of_update; done).
      by destruct (VoteGranted reply).
    + by eapply (call_of_update c (calls c) k cl).
    + eapply (call_of_update c (calls c) k cl); [done| |exact HP]. intros ?? [= <- _]. eauto.
  - unfold lose in E. apply bind_Some in E as (cl & Hk & E).
    assert (snap_calls (set_calls (delete k (calls c)) c) P) as Hdel
      by (intros cl' args rep Hin; apply (HP cl' args rep); exact (elem_of_delete _ _ _ Hin)).
    destruct (c_rpc cl) as [args [|[|tries]] rep|args rep|args rep] eqn:Hrpc; injection E as <-; try exact Hdel.
    by eapply call_of_update.
  - unfold handle_reply in E. apply bind_Some in E as (cl & Hk & E). apply bind_Some in E as (rf0 & _ & E).
    apply bind_Some in E as (epoch & _ & E). destruct (decide _); [|done].
    apply bind_Some in E as ([? ?] & _ & E). injection E as <-.
    intros cl' args rep Hin. apply (HP cl' args rep). exact (elem_of_delete _ _ _ Hin).
Qed.
End snaps.
