(* ===== verification/RaftCommands.v ===== *)
(** * Where the commands of a cluster come from

    Every command in a log, in a request under way or on an apply channel was
    once given to [Start]: the peers of raft1/raft.go move commands about and
    drop them, and create none. *)

From S2P Require Import Prelude RaftNode RaftFacts RaftCluster RaftElection RaftLog RaftSafety.
From S2P Require Import RaftParts.
Local Open Scope Z_scope.

Section commands.
Context {Cmd Snap : Type}.
Implicit Types (rf : Raft Cmd Snap) (c : cluster Cmd Snap).
Variable P : option Cmd → Prop.
Hypothesis P_None : P None.   (** the entry in front of a log has no command *)

Definition entries_ok (l : list (LogEntry Cmd)) : Prop := Forall (λ e, P (e_Command e)) l.
Definition msgs_ok (ms : list (ApplyMsg Cmd Snap)) : Prop := Forall (λ m, P (am_Command m)) ms.

Definition call_ok (cl : call Cmd Snap) : Prop :=
  match c_rpc cl with RpcAppend args _ => entries_ok (Entries args) | _ => True end.

Record cmds_ok c : Prop := {
  cm_nodes : ∀ i rf, nodes c !! i = Some rf → entries_ok (logs rf);
  cm_calls : Forall call_ok (calls c);
  cm_pending : ∀ i q, pending c !! i = Some q → msgs_ok q;
  cm_delivered : ∀ i d, delivered c !! i = Some d → msgs_ok d
}.

Lemma merged_ok (l : list (LogEntry Cmd)) p es : entries_ok l → entries_ok es → entries_ok (merged l p es).
Proof.
  intros Hl He. unfold merged. destruct (decide _); [done|]. apply Forall_app. split; [by apply Forall_take|by apply Forall_drop].
Qed.

Lemma lpart_logs rf rf' : lpart rf' = lpart rf → logs rf' = logs rf.
Proof. by intros [=]. Qed.

(** what one action makes of the log of a peer, given good requests *)
Lemma append_cmds clk rf args rf' eff reply : AppendEntries clk rf args = Ret (rf', eff, reply) →
  entries_ok (logs rf) → entries_ok (Entries args) → entries_ok (logs rf').
Proof.
  intros E Hl He. destruct (AppendEntries_parts _ _ _ _ _ _ E) as [[-> _]|(rf1 & Hen & _ & H)]; [done|].
  destruct (entered_logs _ _ _ Hen) as (Hl1 & _). destruct H as [[-> _]|(_ & Hp & eff' & Ea)]; [by rewrite Hl1|].
  destruct (accept_parts _ _ _ _ Ea Hp) as (_ & -> & _). rewrite Hl1. by apply merged_ok.
Qed.

Lemma install_cmds clk rf args rf' eff reply : InstallSnapshot clk rf args = Ret (rf', eff, reply) →
  entries_ok (logs rf) → entries_ok (logs rf') ∧ msgs_ok (omap effect_msg eff).
Proof.
  intros E Hl. destruct (InstallSnapshot_parts _ _ _ _ _ _ E) as [(-> & _ & ->)|(rf1 & Hen & H)]; [by split; [|constructor]|].
  destruct (entered_logs _ _ _ Hen) as (Hl1 & _). rewrite <-Hl1 in Hl.
  destruct H as [(Heq & _ & ->)|(_ & -> & kept & Heq & Hk)].
  - rewrite (lpart_logs _ _ Heq). by split; [|constructor].
  - assert (logs rf' = {| e_Term := LastIncludedTerm args; e_Command := None |} :: kept) as -> by by injection Heq.
    split; [|by repeat constructor]. constructor; [done|].
    destruct Hk as [[_ ->]|[_ ->]]; [constructor|by apply Forall_drop].
Qed.

Lemma vote_logs clk rf args rf' eff reply : RequestVote clk rf args = Ret (rf', eff, reply) → logs rf' = logs rf.
Proof. intros E%RequestVote_replica. by injection E. Qed.

Lemma apply_ok rf rf' ms : apply_iteration rf = Ret (Some (rf', ms)) → entries_ok (logs rf) →
  logs rf' = logs rf ∧ msgs_ok ms.
Proof.
  intros E Hl. destruct (apply_log _ _ _ E) as [-> _]. split; [done|].
  destruct (apply_parts _ _ _ E) as (_ & _ & Hms). apply Forall_forall. intros m Hm.
  destruct (Hms m Hm) as (_ & e & He & ->). destruct (log_Ret _ _ _ He) as [_ Hlk].
  exact (Forall_lookup_1 _ _ _ _ Hl Hlk).
Qed.

Lemma heartBeat_ok rf es srv args : heartBeat_iteration rf = Ret (Some es) → SendAppendEntries srv args ∈ es →
  entries_ok (logs rf) → entries_ok (Entries args).
Proof.
  unfold heartBeat_iteration. intros E Hin Hl. destruct (decide _); [done|].
  apply outcome_bind_ret in E as (es' & Ees & E). injection E as <-.
  destruct (heartBeat_range_send _ _ _ _ _ Ees Hin) as (i & next & Es). unfold heartBeat_send in Es.
  destruct (decide _); [by apply outcome_bind_ret in Es as (? & _ & Es)|].
  apply outcome_bind_ret in Es as (? & _ & Es). apply outcome_bind_ret in Es as (l & Ed & Es). injection Es as _ <-.
  unfold go_drop in Ed. destruct (decide _); [|done]. injection Ed as <-. by apply Forall_drop.
Qed.

(** a peer's log changes, the messages stay *)
Lemma cmds_node c i rf : cmds_ok c → entries_ok (logs rf) → cmds_ok (set_node i rf c).
Proof.
  intros [H1 H2 H3 H4] Hl. split; simpl; [|done..].
  intros j rf' [(<- & <- & _)|[_ Hj]]%list_lookup_insert_Some; [done|by eapply H1].
Qed.

Lemma cmds_calls c cs : cmds_ok c → Forall call_ok cs → cmds_ok (set_calls cs c).
Proof. intros [H1 H2 H3 H4] Hc. by split. Qed.

Lemma cmds_with_rpc c k cl r : cmds_ok c → calls c !! k = Some cl → call_ok (with_rpc cl r) →
  cmds_ok (set_calls (<[k := with_rpc cl r]> (calls c)) c).
Proof. intros H Hk Hr. apply cmds_calls; [done|]. apply Forall_insert; [apply H|done]. Qed.

Lemma cmds_delete c k : cmds_ok c → cmds_ok (set_calls (delete k (calls c)) c).
Proof. intros H. apply cmds_calls; [done|]. apply Forall_delete, H. Qed.

Lemma cmds_deliver_msgs c i ms : cmds_ok c → msgs_ok ms → cmds_ok (deliver_msgs i ms c).
Proof.
  intros [H1 H2 H3 H4] Hms. split; simpl; [done..|]. intros j d Hd. lookup_inv; [|by eapply H4].
  apply Forall_app. split; [by eapply H4|done].
Qed.

Lemma cmds_sent c i epoch eff : cmds_ok c →
  (∀ srv args, SendAppendEntries srv args ∈ eff → entries_ok (Entries args)) →
  cmds_ok (add_calls (omap (effect_call i epoch) eff) c).
Proof.
  intros H He. apply cmds_calls; [done|]. apply Forall_app. split; [apply H|].
  apply Forall_forall. intros cl (e & Hin & Hcl)%list_elem_of_omap. unfold call_ok.
  destruct e; try discriminate Hcl; injection Hcl as <-; simpl; eauto.
Qed.

Lemma cmds_lookup c k cl : cmds_ok c → calls c !! k = Some cl → call_ok cl.
Proof. intros H Hk. by eapply (Forall_lookup_1 _ _ _ _ (cm_calls _ H)). Qed.

Lemma deliver_cmds k clk c c' : deliver k clk c = Some c' → cmds_ok c → cmds_ok c'.
Proof.
  unfold deliver. intros E H. apply bind_Some in E as (cl & Hk & E). apply bind_Some in E as (rf & Hi & E).
  pose proof (cmds_lookup _ _ _ H Hk) as Hcl. unfold call_ok in Hcl. pose proof (cm_nodes _ H _ _ Hi) as Hl.
  destruct (c_rpc cl) as [args tries [r|]|args [r|]|args [r|]]; try discriminate E;
    apply bind_Some in E as ([[rf' eff] reply] & E1%of_ret_Some & E); simpl in E; injection E as <-.
  - assert (cmds_ok (set_node (c_to cl) rf' (set_calls (<[k := with_rpc cl (RpcVote args tries (Some reply))]> (calls c)) c)))
      as [] by (apply cmds_node; [by apply cmds_with_rpc|by rewrite (vote_logs _ _ _ _ _ _ E1)]).
    by destruct (VoteGranted reply).
  - apply cmds_node; [by apply cmds_with_rpc|by eapply append_cmds].
  - destruct (install_cmds _ _ _ _ _ _ E1 Hl). apply cmds_deliver_msgs; [|done].
    apply cmds_node; [by apply cmds_with_rpc|done].
Qed.

Lemma reply_cmds k clk c c' : handle_reply k clk c = Some c' → cmds_ok c → cmds_ok c'.
Proof.
  unfold handle_reply. intros E H. apply bind_Some in E as (cl & Hk & E). apply bind_Some in E as (rf & Hi & E).
  apply bind_Some in E as (epoch & _ & E). destruct (decide _); [|done].
  apply bind_Some in E as ([rf' eff] & E1%of_ret_Some & E). injection E as <-.
  assert (log_part rf' = log_part rf) as Hlp.
  { destruct (c_rpc cl) as [args tries [r|]|args [r|]|args [r|]]; try discriminate E1;
      [by eapply vote_reply_log_part|by eapply append_reply_log_part|by eapply install_reply_log_part]. }
  apply cmds_node; [by apply cmds_delete|]. injection Hlp as -> _ _. by eapply cm_nodes.
Qed.

Lemma Snapshot_cmds idx sn rf rf' : entries_ok (logs rf) → Snapshot idx sn rf = Ret rf' → entries_ok (logs rf').
Proof.
  intros Hl E. unfold Snapshot in E. destruct (decide _); [by injection E as <-|]. destruct (decide _); [done|].
  apply outcome_bind_ret in E as (ls & Ed & E). injection E as <-. unfold go_drop in Ed.
  destruct (decide _); [|done]. injection Ed as <-. by apply Forall_drop.
Qed.

Lemma crash_cmds n j clk c c' : cluster_reachable n c → cmds_ok c → cluster_step (ACrash j clk) c = Some c' → cmds_ok c'.
Proof.
  intros Hc H E. simpl in E.
  apply bind_Some in E as (rf & Hj & E). apply bind_Some in E as (epoch & _ & E). injection E as <-.
  assert (entries_ok (logs (fst (Make clk (peers rf) (me rf) (persister rf))))) as Hl.
  { assert (recoverable rf) as Hrec by (by eapply reachable_recoverable).
    destruct (stable_fields _ _ (Hrec clk)) as (_ & _ & -> & _). by eapply cm_nodes. }
  destruct H as [H1 H2 H3 H4]. split; cbn [nodes calls pending delivered].
  - intros i rf' [(<- & <- & _)|[_ Hi]]%list_lookup_insert_Some; [done|by eapply H1].
  - done.
  - intros i q [(<- & <- & _)|[_ Hi]]%list_lookup_insert_Some; [constructor|by eapply H3].
  - intros i q [(<- & <- & _)|[_ Hi]]%list_lookup_insert_Some; [constructor|by eapply H4].
Qed.

Lemma cmds_step n a c c' : cluster_reachable n c → cmds_ok c → (∀ i cmd, a = AStart i cmd → P cmd) →
  cluster_step a c = Some c' → cmds_ok c'.
Proof.
  intros Hc H Ha E.
  destruct a as [j clk|j|j|j|j|j command|j idx sn|k clk|k|k clk|j clk]; simpl in E.
  - apply bind_Some in E as (rf & Hj & E). apply bind_Some in E as (epoch & _ & E).
    apply bind_Some in E as (res & E1%of_ret_Some & E). apply bind_Some in E as ([rf' eff] & -> & E). injection E as <-.
    pose proof (tick_log_part _ _ _ _ E1) as Hlp. apply cmds_sent.
    + apply cmds_node; [done|]. injection Hlp as -> _ _. by eapply cm_nodes.
    + intros srv args Hin. destruct (tick_parts _ _ _ _ E1) as [[_ ->]|(_ & t & _ & ->)].
      * by apply not_elem_of_nil in Hin.
      * by apply list_elem_of_fmap in Hin as (? & ? & _).
  - apply bind_Some in E as (rf & Hj & E). apply bind_Some in E as (epoch & _ & E).
    apply bind_Some in E as (res & E1%of_ret_Some & E). apply bind_Some in E as (eff & -> & E). injection E as <-.
    apply cmds_sent; [done|]. intros srv args Hin. eapply heartBeat_ok; [done|done|by eapply cm_nodes].
  - apply bind_Some in E as (rf & Hj & E). apply bind_Some in E as (res & E1%of_ret_Some & E).
    apply bind_Some in E as ([rf' eff] & -> & E). injection E as <-.
    pose proof (commit_log_part _ _ _ E1) as Hlp. apply cmds_node; [done|]. injection Hlp as -> _ _. by eapply cm_nodes.
  - apply bind_Some in E as (rf & Hj & E). apply bind_Some in E as (q & Hq & E).
    apply bind_Some in E as (res & E1%of_ret_Some & E). apply bind_Some in E as ([rf' ms] & -> & E).
    destruct q; [|done]. injection E as <-. destruct (apply_ok _ _ _ E1) as [Hl Hms]; [by eapply cm_nodes|].
    destruct (cmds_node c j rf' H) as [H1 H2 H3 H4]; [rewrite Hl; by eapply cm_nodes|]. split; simpl in *; [done..| |done].
    intros i q [(<- & <- & _)|[_ Hi]]%list_lookup_insert_Some; [done|by eapply H3].
  - apply bind_Some in E as (q & Hq & E). destruct q as [|m q]; [done|]. injection E as <-.
    pose proof (cm_pending _ H _ _ Hq) as [Hm Hq']%Forall_cons. apply cmds_deliver_msgs; [|by apply Forall_singleton].
    destruct H as [H1 H2 H3 H4]. split; simpl; [done..| |done].
    intros i q' [(<- & <- & _)|[_ Hi]]%list_lookup_insert_Some; [done|by eapply H3].
  - apply bind_Some in E as (rf & Hj & E). destruct (Start command rf) as [[rf' ?] ?] eqn:E1. injection E as <-.
    apply cmds_node; [done|]. pose proof (cm_nodes _ H _ _ Hj) as Hl.
    unfold Start in E1. destruct (decide _); injection E1 as <- _ _; [done|]. simpl.
    apply Forall_app. split; [done|]. apply Forall_singleton. simpl. by eapply Ha.
  - apply bind_Some in E as (rf & Hj & E). apply bind_Some in E as (rf' & E1%of_ret_Some & E). injection E as <-.
    apply cmds_node; [done|]. eapply Snapshot_cmds; [by eapply cm_nodes|done].
  - by eapply deliver_cmds.
  - unfold lose in E. apply bind_Some in E as (cl & Hk & E).
    destruct (c_rpc cl) as [args [|[|tries]] rep|args rep|args rep]; injection E as <-; try by apply cmds_delete.
    by apply cmds_with_rpc.
  - by eapply reply_cmds.
  - exact (crash_cmds n j clk c c' Hc H E).
Qed.

Lemma cmds_init clk n : cmds_ok (cluster_init clk n).
Proof.
  split; simpl.
  - intros i rf Hi. apply list_lookup_fmap_Some in Hi as (j & -> & _). by repeat constructor.
  - constructor.
  - intros i q [-> _]%lookup_replicate. constructor.
  - intros i q [-> _]%lookup_replicate. constructor.
Qed.

Lemma cmds_run n acts c c' : cluster_reachable n c → cmds_ok c → (∀ i cmd, AStart i cmd ∈ acts → P cmd) →
  cluster_run acts c = Some c' → cmds_ok c'.
Proof.
  revert c. induction acts as [|a acts IH]; intros c Hc H Ha E; simpl in E; [by injection E as <-|].
  apply bind_Some in E as (c1 & E1 & E).
  eapply IH; [by eapply cluster_reachable_step| |intros i cmd Hin; apply (Ha i); by right|done].
  eapply cmds_step; [done|done| |done]. intros i cmd ->. apply (Ha i). by left.
Qed.
End commands.

(** Nothing is made up: whatever the network and crashes do, and however many
    leaders there are, a command that a service receives was given to [Start]
    before. *)
Theorem delivered_was_started {Cmd Snap} clk n acts (c : cluster Cmd Snap) i d m cmd :
  cluster_run acts (cluster_init clk n) = Some c → delivered c !! i = Some d → m ∈ d → am_Command m = Some cmd →
  ∃ j, AStart j (Some cmd) ∈ acts.
Proof.
  intros E Hd Hm Hcmd.
  set (P := λ v : option Cmd, ∀ cmd, v = Some cmd → ∃ j, AStart j (Some cmd) ∈ acts).
  assert (P None) as HN by done.
  assert (cmds_ok P c) as H.
  { eapply (cmds_run P HN n acts (cluster_init clk n)); [by exists clk, []|by apply cmds_init| |done].
    intros j v Hin cmd' ->. by exists j. }
  pose proof (cm_delivered _ _ H i d Hd) as Hall. unfold msgs_ok in Hall. rewrite Forall_forall in Hall.
  by apply (Hall m Hm).
Qed.
