(* ===== verification/Rsm.v ===== *)
(** * The replicated state machine package (kvraft1/rsm/rsm.go)

    [Submit] hands an operation to Raft and waits on a channel; the [reader]
    goroutine executes what Raft delivers and wakes the waiting [Submit].  A
    server's run interleaves any number of calls of [Submit] with messages from
    Raft, timer ticks and arbitrary changes of the Raft peer below. *)

From S2P Require Import Prelude KvRpc RaftNode.
Local Open Scope Z_scope.

(** ** The service above (the Go interface [StateMachine])

    [V] is Go's [any]; [any_nil] its nil value.  [DoOp] may end the process on a
    request of an unknown type, [Restore] on bytes it cannot decode. *)
Class StateMachine (V Snap S : Type) := {
  any_nil : V;
  sm_DoOp : V → S → outcome (S * V);
  sm_Snapshot : S → Snap;
  sm_Restore : option Snap → S → outcome S
}.

Section rsm.
Context {V Snap S : Type} `{SM : StateMachine V Snap S}.

Record Op := { Id : Z; Req : V }.

(** what [Submit] returns: an error with the leader's number, or OK with the
    result *)
Abbreviation answer := (Err * (Z + V))%type.

(** a call of [Submit] past [Start], with the buffer of its channel *)
Record submitter := {
  s_id : Z; s_req : V; s_index : Z; s_term : Z;
  s_ch : list Op;
  s_ret : option answer
}.

(** channels are named by the position of their submitter *)
Record RSM := {
  sm : S;
  notify : gmap Z nat;
  subs : list submitter
}.

Definition set_sm (s : S) (r : RSM) : RSM := {| sm := s; notify := notify r; subs := subs r |}.
Definition set_notify (m : gmap Z nat) (r : RSM) : RSM := {| sm := sm r; notify := m; subs := subs r |}.
Definition set_subs (l : list submitter) (r : RSM) : RSM := {| sm := sm r; notify := notify r; subs := l |}.
Definition set_ch (l : list Op) (s : submitter) : submitter :=
  {| s_id := s_id s; s_req := s_req s; s_index := s_index s; s_term := s_term s; s_ch := l; s_ret := s_ret s |}.
Definition set_ret (a : answer) (s : submitter) : submitter :=
  {| s_id := s_id s; s_req := s_req s; s_index := s_index s; s_term := s_term s; s_ch := s_ch s; s_ret := Some a |}.

(** [make(chan Op, 2)] *)
Definition chan_cap : nat := 2.

(** [ch <- op]: [None] while the buffer is full *)
Definition chan_send (k : nat) (op : Op) (r : RSM) : option RSM :=
  s ← subs r !! k;
  if decide (length (s_ch s) < chan_cap)%nat
  then Some (set_subs (<[k := set_ch (s_ch s ++ [op]) s]> (subs r)) r) else None.

(** [select { case ch <- op: default: }] *)
Definition chan_try_send (k : nat) (op : Op) (r : RSM) : RSM := default r (chan_send k op r).

(** the parameters of [MakeRSM]; [PersistBytes] is the size of the encoded Raft
    state, which the encoder (not modelled) determines *)
Variable maxraftstate : Z.
Variable PersistBytes : Raft Op Snap → Z.

(** [Submit] up to the wait; [id] is the random number it draws *)
Definition Submit_start (id : Z) (req : V) (rf : Raft Op Snap) (r : RSM)
    : Raft Op Snap * RSM * option answer :=
  let op := {| Id := id; Req := req |} in
  let '(rf', _, (logIndex, term, isLeader)) := Start (Some op) rf in
  if isLeader : bool then
    let s := {| s_id := id; s_req := req; s_index := logIndex; s_term := term; s_ch := []; s_ret := None |} in
    (rf', set_subs (subs r ++ [s]) (set_notify (<[logIndex := length (subs r)]> (notify r)) r), None)
  else (rf', r, Some (ErrWrongLeader, inl (GetLeader rf'))).

(** [Submit] after it received [returnOp] from its channel *)
Definition Submit_recv (k : nat) (rf : Raft Op Snap) (r : RSM) : option RSM :=
  s ← subs r !! k;
  match s_ret s, s_ch s with
  | None, returnOp :: ch =>
      let r1 := set_notify (delete (s_index s) (notify r)) r in
      let return_ a r := set_subs (<[k := set_ret a (set_ch ch s)]> (subs r)) r in
      let wrong := (ErrWrongLeader, inl (GetLeader rf)) in
      if decide (Id returnOp = -1) then Some (return_ wrong r1)
      else if decide (Id returnOp ≠ s_id s) then
        let r2 := foldr (λ k' r, chan_try_send k' {| Id := -1; Req := any_nil |} r) r1
                    (snd <$> map_to_list (notify r1)) in
        Some (return_ wrong r2)
      else Some (return_ (OK, inr (Req returnOp)) r1)
  | _, _ => None
  end.

(** [Submit] when its timer fires *)
Definition Submit_timer (k : nat) (rf : Raft Op Snap) (r : RSM) : option RSM :=
  s ← subs r !! k;
  match s_ret s with
  | None =>
      let '(curTerm, stillLeader) := GetState rf in
      if decide (stillLeader = false ∨ curTerm ≠ s_term s) then
        Some (set_subs (<[k := set_ret (ErrWrongLeader, inl (GetLeader rf)) s]> (subs r))
                (set_notify (delete (s_index s) (notify r)) r))
      else Some r
  | Some _ => None
  end.

(** one iteration of [reader]; [Ret None]: still blocked on a full channel (the
    operation's effect on the state machine is seen by nobody before the send
    succeeds, so both are one step) *)
Definition reader_step (msg : ApplyMsg Op Snap) (rf : Raft Op Snap) (r : RSM)
    : outcome (option (Raft Op Snap * RSM)) :=
  if CommandValid msg then
    match am_Command msg with
    | None => Fatal (* the type assertion [msg.Command.(Op)] fails on nil *)
    | Some op =>
        '(s', res) ← sm_DoOp (Req op) (sm r);
        let op' := {| Id := Id op; Req := res |} in
        let r1 := set_sm s' r in
        match (match notify r1 !! CommandIndex msg with
               | Some k => chan_send k op' r1 | None => Some r1 end) with
        | None => Ret None
        | Some r2 =>
            if decide (maxraftstate > 0 ∧ PersistBytes rf > maxraftstate) then
              rf' ← Snapshot (CommandIndex msg) (Some (sm_Snapshot (sm r2))) rf;
              Ret (Some (rf', r2))
            else Ret (Some (rf, r2))
        end
    end
  else if SnapshotValid msg then
    s' ← sm_Restore (am_Snapshot msg) (sm r); Ret (Some (rf, set_sm s' r))
  else Fatal.

(** [MakeRSM]: the restored service, no submitters *)
Definition MakeRSM (ps : Persister Op Snap) (s : S) : outcome RSM :=
  s' ← match ReadSnapshot ps with
       | Some data => sm_Restore (Some data) s
       | None => Ret s
       end;
  Ret {| sm := s'; notify := ∅; subs := [] |}.

(** ** Runs of one server *)

Inductive event :=
| ESubmit (id : Z) (req : V)
| EMsg (msg : ApplyMsg Op Snap)
| ERecv (k : nat)
| ETimer (k : nat)
| ERaft (rf : Raft Op Snap).    (** the Raft peer moves on *)

(** the server, and the history of applied operations: index, operation, result *)
Record server := { s_rf : Raft Op Snap; s_rsm : RSM; applied : list (Z * Op * V) }.

Definition executed (msg : ApplyMsg Op Snap) (s : S) : list (Z * Op * V) :=
  if CommandValid msg then
    match am_Command msg with
    | Some op => match sm_DoOp (Req op) s with Ret (_, res) => [(CommandIndex msg, op, res)] | _ => [] end
    | None => []
    end
  else [].

Definition server_step (ev : event) (sv : server) : option server :=
  let with_rsm r := {| s_rf := s_rf sv; s_rsm := r; applied := applied sv |} in
  match ev with
  | ESubmit id req =>
      let '(rf', r', _) := Submit_start id req (s_rf sv) (s_rsm sv) in
      Some {| s_rf := rf'; s_rsm := r'; applied := applied sv |}
  | EMsg msg =>
      match reader_step msg (s_rf sv) (s_rsm sv) with
      | Ret (Some (rf', r')) =>
          Some {| s_rf := rf'; s_rsm := r'; applied := applied sv ++ executed msg (sm (s_rsm sv)) |}
      | _ => None
      end
  | ERecv k => with_rsm <$> Submit_recv k (s_rf sv) (s_rsm sv)
  | ETimer k => with_rsm <$> Submit_timer k (s_rf sv) (s_rsm sv)
  | ERaft rf' => Some {| s_rf := rf'; s_rsm := s_rsm sv; applied := applied sv |}
  end.

Fixpoint server_run (evs : list event) (sv : server) : option server :=
  match evs with
  | [] => Some sv
  | ev :: evs' => sv' ← server_step ev sv; server_run evs' sv'
  end.

(** ** What [Submit] may answer

    The invariant of a run, submitter by submitter: its channel holds only
    poison pills and results of operations applied at its index, and an OK
    answer is one of those, with its own id. *)
Definition sub_ok (h : list (Z * Op * V)) (s : submitter) : Prop :=
  0 ≤ s_id s
  ∧ (∀ op, op ∈ s_ch s →
       Id op = -1 ∨ ∃ req, (s_index s, {| Id := Id op; Req := req |}, Req op) ∈ h)
  ∧ (∀ v, s_ret s = Some (OK, inr v) →
       ∃ req, (s_index s, {| Id := s_id s; Req := req |}, v) ∈ h).

Definition rsm_ok (h : list (Z * Op * V)) (r : RSM) : Prop :=
  Forall (sub_ok h) (subs r)
  ∧ ∀ idx k, notify r !! idx = Some k → (s_index <$> subs r) !! k = Some idx.

Lemma sub_ok_mono h h' s : sub_ok h s → sub_ok (h ++ h') s.
Proof.
  intros (? & Hch & Hret). split; [done|]. split.
  - intros op Hop. destruct (Hch op Hop) as [|[req ?]]; [by left|right].
    exists req. apply elem_of_app. by left.
  - intros v Hv. destruct (Hret v Hv) as [req ?]. exists req. apply elem_of_app. by left.
Qed.

Lemma rsm_ok_mono h h' r : rsm_ok h r → rsm_ok (h ++ h') r.
Proof.
  intros [Hs Hn]. split; [|done]. eapply Forall_impl; [exact Hs|]. intros s. apply sub_ok_mono.
Qed.

(** updating one submitter in place *)
Lemma rsm_ok_insert h r k s s' :
  rsm_ok h r → subs r !! k = Some s → s_index s' = s_index s → sub_ok h s' →
  rsm_ok h (set_subs (<[k := s']> (subs r)) r).
Proof.
  intros [Hs Hn] Hk Hidx Hok. split; [by apply Forall_insert|]. simpl. intros idx k' Hk'.
  rewrite list_fmap_insert, Hidx, list_insert_id; [by apply Hn|].
  by rewrite list_lookup_fmap, Hk.
Qed.

Lemma rsm_ok_delete h r idx : rsm_ok h r → rsm_ok h (set_notify (delete idx (notify r)) r).
Proof. intros [Hs Hn]. split; [done|]. simpl. intros i k [_ Hk]%lookup_delete_Some. by apply Hn. Qed.

Lemma rsm_ok_sm h r s : rsm_ok h r → rsm_ok h (set_sm s r).
Proof. done. Qed.

Lemma chan_send_ok h k op r r' :
  rsm_ok h r → chan_send k op r = Some r' →
  (Id op = -1 ∨ ∃ s req, subs r !! k = Some s ∧ (s_index s, {| Id := Id op; Req := req |}, Req op) ∈ h) →
  rsm_ok h r' ∧ notify r' = notify r ∧ sm r' = sm r.
Proof.
  intros Hok E Hop. unfold chan_send in E. apply bind_Some in E as (s & Hk & E).
  destruct (decide _); [|done]. injection E as <-. split; [|done].
  destruct (Forall_lookup_1 _ _ _ _ (proj1 Hok) Hk) as (? & Hch & Hret).
  eapply rsm_ok_insert; [done|done|done|]. split; [done|]. split; [|done]. simpl.
  intros op' [Hin| ->%list_elem_of_singleton]%elem_of_app; [by apply Hch|].
  destruct Hop as [|(s0 & req & Hs0 & ?)]; [by left|right]. exists req. by replace s with s0 by congruence.
Qed.

Lemma chan_try_send_ok h k v r : rsm_ok h r → rsm_ok h (chan_try_send k {| Id := -1; Req := v |} r).
Proof.
  intros Hok. unfold chan_try_send. destruct (chan_send k _ r) as [r'|] eqn:E; [simpl|done].
  eapply (chan_send_ok h k {| Id := -1; Req := v |}); [done|done|by left].
Qed.

Lemma poison_ok h v ks r :
  rsm_ok h r → rsm_ok h (foldr (λ k' r, chan_try_send k' {| Id := -1; Req := v |} r) r ks).
Proof. intros Hok. induction ks; simpl; [done|]. by apply chan_try_send_ok. Qed.

(** pills change neither the submitters' identity nor the map *)
Lemma chan_try_send_same k op r :
  notify (chan_try_send k op r) = notify r ∧ sm (chan_try_send k op r) = sm r
  ∧ length (subs (chan_try_send k op r)) = length (subs r)
  ∧ ∀ j s, subs (chan_try_send k op r) !! j = Some s → ∃ s0, subs r !! j = Some s0 ∧ s_id s = s_id s0
      ∧ s_index s = s_index s0.
Proof.
  unfold chan_try_send, chan_send.
  destruct (subs r !! k) as [s0|] eqn:Hk; simpl; [|naive_solver]. destruct (decide _); simpl; [|naive_solver].
  split; [done|]. split; [done|]. split; [by rewrite length_insert|]. intros j s Hj.
  apply list_lookup_insert_Some in Hj as [(-> & <- & _)|[_ Hj]]; eauto.
Qed.

(** the end of a [Submit] *)
Lemma return_ok h r k s0 s a ch :
  rsm_ok h r → subs r !! k = Some s0 → s_index s = s_index s0 → sub_ok h s →
  (∀ op, op ∈ ch → op ∈ s_ch s) →
  (∀ v, a = (OK, inr v) → ∃ req, (s_index s, {| Id := s_id s; Req := req |}, v) ∈ h) →
  rsm_ok h (set_subs (<[k := set_ret a (set_ch ch s)]> (subs r)) r).
Proof.
  intros Hok Hk Hidx (? & Hch & _) Hsub Ha. eapply rsm_ok_insert; [done|done|done|].
  split; [done|]. split; simpl; [intros; apply Hch; auto|]. intros v [= ->]. by apply Ha.
Qed.

Lemma poison_same v ks r :
  length (subs (foldr (λ k' r, chan_try_send k' {| Id := -1; Req := v |} r) r ks)) = length (subs r)
  ∧ ∀ j s, subs (foldr (λ k' r, chan_try_send k' {| Id := -1; Req := v |} r) r ks) !! j = Some s →
      ∃ s0, subs r !! j = Some s0 ∧ s_index s = s_index s0.
Proof.
  induction ks as [|k ks [IHl IH]]; simpl; [naive_solver|].
  destruct (chan_try_send_same k {| Id := -1; Req := v |}
    (foldr (λ k' r, chan_try_send k' {| Id := -1; Req := v |} r) r ks)) as (_ & _ & Hl & Hs).
  split; [congruence|]. intros j s Hj. destruct (Hs j s Hj) as (s0 & Hj0 & _ & ?).
  destruct (IH j s0 Hj0) as (s1 & ? & ?). exists s1. split; [done|congruence].
Qed.

Lemma Submit_recv_ok h k rf r r' : rsm_ok h r → Submit_recv k rf r = Some r' → rsm_ok h r'.
Proof.
  intros Hok E. unfold Submit_recv in E. apply bind_Some in E as (s & Hk & E).
  destruct (s_ret s); [done|]. destruct (s_ch s) as [|returnOp ch] eqn:Hch; [done|].
  assert (sub_ok h s) as Hs by (by apply (Forall_lookup_1 _ _ _ _ (proj1 Hok) Hk)).
  assert (∀ op, op ∈ ch → op ∈ s_ch s) as Hsub by (intros; rewrite Hch; by right).
  pose proof (rsm_ok_delete h r (s_index s) Hok) as Hok1.
  set (r1 := set_notify _ r) in *.
  destruct (decide (Id returnOp = -1)); [injection E as <-; by eapply (return_ok h r1)|].
  destruct (decide (Id returnOp ≠ s_id s)) as [|Heq].
  - injection E as <-.
    set (ks := snd <$> map_to_list (notify r1)) in *.
    destruct (poison_same any_nil ks r1) as [Hl Hsame].
    destruct (lookup_lt_is_Some_2 (subs (foldr (λ k' r, chan_try_send k' {| Id := -1; Req := any_nil |} r) r1 ks)) k)
      as [s1 Hs1]; [rewrite Hl; by eapply lookup_lt_Some|].
    destruct (Hsame k s1 Hs1) as (s0 & Hs0 & Hidx).
    eapply return_ok; [by apply poison_ok|done| |done..]. simpl in Hs0. congruence.
  - injection E as <-. eapply (return_ok h r1); [done|done|done|done|done|].
    intros v [= <-]. destruct Hs as (_ & Hc & _). destruct (Hc returnOp) as [|[req Hin]]; [rewrite Hch; by left|done|].
    exists req. by replace (s_id s) with (Id returnOp) by lia.
Qed.

Lemma Submit_timer_ok h k rf r r' : rsm_ok h r → Submit_timer k rf r = Some r' → rsm_ok h r'.
Proof.
  intros Hok E. unfold Submit_timer in E. apply bind_Some in E as (s & Hk & E).
  destruct (s_ret s); [done|]. unfold GetState in E. destruct (decide _); injection E as <-; [|done].
  destruct (Forall_lookup_1 _ _ _ _ (proj1 Hok) Hk) as (? & Hc & _).
  eapply (rsm_ok_insert h (set_notify (delete (s_index s) (notify r)) r)); [by apply rsm_ok_delete|done|done|].
  by split_and!.
Qed.

Lemma Submit_start_ok h id req rf r rf' r' a :
  rsm_ok h r → 0 ≤ id → Submit_start id req rf r = (rf', r', a) → rsm_ok h r'.
Proof.
  intros [Hs Hn] Hid E. unfold Submit_start in E. destruct (Start _ rf) as [[rf1 eff] [[idx term] lead]].
  destruct lead; injection E as _ <- _; [|done]. split; simpl.
  - apply Forall_app. split; [done|]. apply Forall_singleton. split; [done|]. split; [|done].
    intros op Hop. by apply not_elem_of_nil in Hop.
  - intros i k Hk. rewrite fmap_app. apply lookup_insert_Some in Hk as [[-> <-]|[_ Hk]].
    + rewrite lookup_app_r by (by rewrite length_fmap). rewrite length_fmap, Nat.sub_diag. done.
    + rewrite lookup_app_l; [by apply Hn|]. rewrite length_fmap. specialize (Hn i k Hk).
      apply lookup_lt_Some in Hn. by rewrite length_fmap in Hn.
Qed.

Lemma reader_step_ok h msg rf r rf' r' :
  rsm_ok h r → reader_step msg rf r = Ret (Some (rf', r')) → rsm_ok (h ++ executed msg (sm r)) r'.
Proof.
  intros Hok E. unfold reader_step in E. unfold executed. destruct (CommandValid msg).
  - destruct (am_Command msg) as [op|]; [|done].
    apply outcome_bind_ret in E as ([s' res] & Edo & E). rewrite Edo.
    pose proof (rsm_ok_mono h [(CommandIndex msg, op, res)] r Hok) as Hok'.
    destruct (match _ !! _ with Some k => _ | None => _ end) as [r2|] eqn:Esend; [|done].
    assert (rsm_ok (h ++ [(CommandIndex msg, op, res)]) r2) as Hok2.
    { destruct (notify (set_sm s' r) !! CommandIndex msg) as [k|] eqn:Hk; [|by injection Esend as <-].
      apply (chan_send_ok (h ++ [(CommandIndex msg, op, res)])) in Esend; [by destruct Esend|done|].
      right. simpl in *. apply (proj2 Hok) in Hk. rewrite list_lookup_fmap in Hk.
      destruct (subs r !! k) as [s|]; [|done]. injection Hk as Hidx. exists s, (Req op). split; [done|].
      rewrite Hidx. apply elem_of_app. right. destruct op. by left. }
    destruct (decide _); [apply outcome_bind_ret in E as (rf1 & _ & E)|]; by injection E as _ <-.
  - destruct (SnapshotValid msg); [|done]. apply outcome_bind_ret in E as (s' & _ & E).
    injection E as _ <-. rewrite app_nil_r. done.
Qed.

(** ids are drawn from [rand.Int63], hence not negative *)
Definition ids_ok (evs : list event) : Prop := ∀ id req, ESubmit id req ∈ evs → 0 ≤ id.

Lemma server_run_ok evs sv sv' :
  ids_ok evs → rsm_ok (applied sv) (s_rsm sv) → server_run evs sv = Some sv' → rsm_ok (applied sv') (s_rsm sv').
Proof.
  revert sv. induction evs as [|ev evs IH]; intros sv Hids Hok E; simpl in E; [by injection E as <-|].
  apply bind_Some in E as (sv1 & E1 & E). eapply IH; [|clear IH|exact E].
  { intros id req Hin. apply (Hids id req). by right. }
  destruct ev as [id req|msg|k|k|rf]; simpl in E1.
  - destruct (Submit_start id req _ _) as [[rf' r'] a] eqn:Es. injection E1 as <-. simpl.
    eapply Submit_start_ok; [done| |exact Es]. apply (Hids id req). by left.
  - destruct (reader_step _ _ _) as [[[rf' r']|]| |] eqn:Er; try done. injection E1 as <-. simpl.
    by eapply reader_step_ok.
  - apply fmap_Some in E1 as (r' & Er & ->). simpl. by eapply Submit_recv_ok.
  - apply fmap_Some in E1 as (r' & Er & ->). simpl. by eapply Submit_timer_ok.
  - by injection E1 as <-.
Qed.

(** a server that has just started *)
Definition fresh (rf : Raft Op Snap) (s : S) : server :=
  {| s_rf := rf; s_rsm := {| sm := s; notify := ∅; subs := [] |}; applied := [] |}.

(** an OK answer is a result the reader recorded at the submission's index *)
Lemma Submit_OK_applied evs rf s0 sv k s v :
  ids_ok evs → server_run evs (fresh rf s0) = Some sv →
  subs (s_rsm sv) !! k = Some s → s_ret s = Some (OK, inr v) →
  ∃ req, (s_index s, {| Id := s_id s; Req := req |}, v) ∈ applied sv.
Proof.
  intros Hids E Hk Hret.
  assert (rsm_ok (applied sv) (s_rsm sv)) as [Hs _].
  { eapply server_run_ok; [done| |done]. by split; [constructor|]. }
  destruct (Forall_lookup_1 _ _ _ _ Hs Hk) as (_ & _ & Hr). by apply Hr.
Qed.

(** ** Replicas agree *)

(** the abstract service: one copy executing the log *)
Fixpoint exec_log (L : list V) (s : S) : outcome S :=
  match L with
  | [] => Ret s
  | req :: L' => '(s', _) ← sm_DoOp req s; exec_log L' s'
  end.

(** messages that deliver the log [L] from position [cur] to [cur']: the next
    command, or the snapshot some replica took further on *)
Inductive delivers (L : list V) (s0 : S) : nat → list (ApplyMsg Op Snap) → nat → Prop :=
| del_nil cur : delivers L s0 cur [] cur
| del_command cur m op ms cur' :
    CommandValid m = true → am_Command m = Some op → L !! cur = Some (Req op) →
    CommandIndex m = Z.of_nat (Datatypes.S cur) →
    delivers L s0 (Datatypes.S cur) ms cur' → delivers L s0 cur (m :: ms) cur'
| del_snapshot cur m j s ms cur' :
    CommandValid m = false → SnapshotValid m = true → (cur ≤ j)%nat → exec_log (take j L) s0 = Ret s →
    am_Snapshot m = Some (sm_Snapshot s) → SnapshotIndex m = Z.of_nat j →
    delivers L s0 j ms cur' → delivers L s0 cur (m :: ms) cur'.

Definition messages (evs : list event) : list (ApplyMsg Op Snap) :=
  omap (λ ev, match ev with EMsg m => Some m | _ => None end) evs.

Lemma exec_log_app L1 L2 s : exec_log (L1 ++ L2) s = s' ← exec_log L1 s; exec_log L2 s'.
Proof.
  revert s. induction L1 as [|req L1 IH]; intros s; [done|]. simpl.
  destruct (sm_DoOp req s) as [[s1 r]| |]; simpl; [apply IH|done..].
Qed.

Lemma exec_log_step L cur req s0 s s' v :
  L !! cur = Some req → exec_log (take cur L) s0 = Ret s → sm_DoOp req s = Ret (s', v) →
  exec_log (take (Datatypes.S cur) L) s0 = Ret s'.
Proof. intros HL Hs Hd. rewrite (take_S_r _ _ _ HL), exec_log_app, Hs. simpl. by rewrite Hd. Qed.

(** only messages change the state machine *)
Lemma chan_try_send_sm k op r : sm (chan_try_send k op r) = sm r.
Proof. apply chan_try_send_same. Qed.

Lemma Submit_recv_sm k rf r r' : Submit_recv k rf r = Some r' → sm r' = sm r.
Proof.
  unfold Submit_recv. intros E. apply bind_Some in E as (s & _ & E).
  destruct (s_ret s); [done|]. destruct (s_ch s) as [|op ch]; [done|].
  destruct (decide _); [by injection E as <-|]. destruct (decide _); injection E as <-; [|done]. simpl.
  induction (snd <$> _) as [|k' ks IH]; simpl; [done|]. by rewrite chan_try_send_sm.
Qed.

Lemma server_step_quiet ev sv sv' :
  server_step ev sv = Some sv' →
  match ev with EMsg _ => True | _ => sm (s_rsm sv') = sm (s_rsm sv) ∧ applied sv' = applied sv end.
Proof.
  destruct ev as [id req|msg|k|k|rf]; simpl; intros E; [| done| | |by injection E as <-].
  - unfold Submit_start in E. destruct (Start _ _) as [[rf1 eff] [[idx term] lead]]. by destruct lead; injection E as <-.
  - apply fmap_Some in E as (r' & Er & ->). simpl. split; [by eapply Submit_recv_sm|done].
  - apply fmap_Some in E as (r' & Er & ->). simpl. unfold Submit_timer in Er.
    apply bind_Some in Er as (s & _ & Er). destruct (s_ret s); [done|]. unfold GetState in Er.
    destruct (decide _); by injection Er as <-.
Qed.

Lemma chan_send_sm k op r r' : chan_send k op r = Some r' → sm r' = sm r.
Proof.
  unfold chan_send. intros E. apply bind_Some in E as (s & _ & E). destruct (decide _); [|done]. by injection E as <-.
Qed.

Lemma reader_step_command msg op rf r rf' r' :
  reader_step msg rf r = Ret (Some (rf', r')) → CommandValid msg = true → am_Command msg = Some op →
  ∃ v, sm_DoOp (Req op) (sm r) = Ret (sm r', v).
Proof.
  unfold reader_step. intros E Hv Hop. rewrite Hv, Hop in E.
  apply outcome_bind_ret in E as ([s' res] & Edo & E). exists res. rewrite Edo. do 2 f_equal.
  destruct (match _ !! _ with Some k => _ | None => _ end) as [r2|] eqn:Esend; [|done].
  assert (sm r2 = s') as Hr2.
  { destruct (notify _ !! _); [|by injection Esend as <-]. by apply chan_send_sm in Esend. }
  destruct (decide _); [apply outcome_bind_ret in E as (rf1 & _ & E)|]; injection E as _ <-; congruence.
Qed.

(** one message of the stream: the new position, state and history entry *)
Lemma reader_step_delivers L s0 cur ms cur' msg rf r rf' r' s :
  (∀ a b, sm_Restore (Some (sm_Snapshot a)) b = Ret a) →
  delivers L s0 cur (msg :: ms) cur' → exec_log (take cur L) s0 = Ret s → sm r = s →
  reader_step msg rf r = Ret (Some (rf', r')) →
  ∃ cur1, delivers L s0 cur1 ms cur' ∧ exec_log (take cur1 L) s0 = Ret (sm r')
    ∧ ∀ idx op v, (idx, op, v) ∈ executed msg (sm r) →
        idx = Z.of_nat (Datatypes.S cur) ∧ L !! cur = Some (Req op) ∧ ∃ s', sm_DoOp (Req op) s = Ret (s', v).
Proof.
  intros Hlaw Hdel Hex Hsm Er.
  inversion Hdel as [|? ? op ? ? Hv Hop HL Hidx Hrest|? ? j sj ? ? Hv Hsv Hle Hj Hdata _ Hrest]; subst.
  - destruct (reader_step_command _ _ _ _ _ _ Er Hv Hop) as [v Hdo].
    exists (Datatypes.S cur). split; [done|]. split; [by eapply exec_log_step|].
    intros idx op' v' Hin. unfold executed in Hin. rewrite Hv, Hop, Hdo in Hin.
    apply list_elem_of_singleton in Hin as [= -> -> ->]. eauto.
  - exists j. split; [done|]. unfold reader_step in Er. rewrite Hv, Hsv, Hdata, Hlaw in Er.
    injection Er as _ <-. split; [done|]. intros idx op v Hin. unfold executed in Hin. rewrite Hv in Hin.
    by apply not_elem_of_nil in Hin.
Qed.

Lemma run_delivers evs L s0 sv cur cur' s sv' :
  (∀ a b, sm_Restore (Some (sm_Snapshot a)) b = Ret a) →
  delivers L s0 cur (messages evs) cur' → exec_log (take cur L) s0 = Ret s →
  sm (s_rsm sv) = s → server_run evs sv = Some sv' →
  exec_log (take cur' L) s0 = Ret (sm (s_rsm sv'))
  ∧ ∀ idx op v, (idx, op, v) ∈ applied sv' → (idx, op, v) ∈ applied sv ∨
      ∃ i si s', idx = Z.of_nat (Datatypes.S i) ∧ L !! i = Some (Req op)
        ∧ exec_log (take i L) s0 = Ret si ∧ sm_DoOp (Req op) si = Ret (s', v).
Proof.
  intros Hlaw. revert sv cur s. induction evs as [|ev evs IH]; intros sv cur s Hdel Hex Hsm E; simpl in E.
  { injection E as <-. inversion Hdel; subst. split; [done|]. by left. }
  apply bind_Some in E as (sv1 & E1 & E). pose proof (server_step_quiet _ _ _ E1) as Hq.
  assert ((∃ msg, ev = EMsg msg)
    ∨ sm (s_rsm sv1) = sm (s_rsm sv) ∧ applied sv1 = applied sv ∧ messages (ev :: evs) = messages evs)
    as [[msg ->]|(Hq1 & Hq2 & Hm)] by (destruct ev; naive_solver).
  2: { rewrite <-Hq2. rewrite Hm in Hdel. apply (IH sv1 cur s); [done|done|congruence|done]. }
  simpl in E1. destruct (reader_step msg _ _) as [[[rf' r']|]| |] eqn:Er; try done.
  destruct (reader_step_delivers L s0 cur (messages evs) cur' msg _ _ _ _ s Hlaw Hdel Hex Hsm Er)
    as (cur1 & Hdel1 & Hex1 & Hres).
  injection E1 as <-.
  destruct (fun Heq => IH _ cur1 _ Hdel1 Hex1 Heq E) as [Hfin Happ]. { done. } simpl in Happ. split; [done|].
  intros idx op v Hin. destruct (Happ idx op v Hin) as [[Hold|Hnew]%elem_of_app|]; [by left| |by right].
  right. destruct (Hres idx op v Hnew) as (-> & HL & s' & Hdo). exists cur, s, s'. done.
Qed.

(** Every replica is a copy of one state machine: a server whose Raft
    delivers the log [L], by its commands in order or by snapshots that some
    replica took at later positions, always holds exactly the state that
    executing the delivered prefix of [L] once yields, whatever submissions,
    timers and leader changes happen meanwhile; so replicas at the same position
    are equal.  (The service's [Restore] undoes its [Snapshot].) *)
Theorem replicas_agree evs L s0 sv cur cur' s sv' :
  (∀ a b, sm_Restore (Some (sm_Snapshot a)) b = Ret a) →
  delivers L s0 cur (messages evs) cur' → exec_log (take cur L) s0 = Ret s →
  sm (s_rsm sv) = s → server_run evs sv = Some sv' →
  exec_log (take cur' L) s0 = Ret (sm (s_rsm sv')).
Proof. intros. by eapply run_delivers. Qed.

(** An OK from [Submit] is linearized by the log: in any run of a server,
    with concurrent submissions, leader changes, reuse of log indices, poison
    pills and snapshots, when [Submit] has returned OK with a value, its own
    request is the entry of the log at the index [Start] returned, and the value
    is what [DoOp] returns in the state produced by executing the preceding
    entries once each (ids being unique among the applied operations). *)
Theorem Submit_linearized evs rf s0 L cur' sv k s v :
  (∀ a b, sm_Restore (Some (sm_Snapshot a)) b = Ret a) →
  ids_ok evs → delivers L s0 0 (messages evs) cur' → server_run evs (fresh rf s0) = Some sv →
  subs (s_rsm sv) !! k = Some s → s_ret s = Some (OK, inr v) →
  (∀ idx op res, (idx, op, res) ∈ applied sv → Id op = s_id s → Req op = s_req s) →
  ∃ i si s', s_index s = Z.of_nat (Datatypes.S i) ∧ L !! i = Some (s_req s)
    ∧ exec_log (take i L) s0 = Ret si ∧ sm_DoOp (s_req s) si = Ret (s', v).
Proof.
  intros Hlaw Hids Hdel E Hk Hret Huniq.
  destruct (Submit_OK_applied evs rf s0 sv k s v Hids E Hk Hret) as [req Hin].
  pose proof (Huniq _ _ _ Hin eq_refl) as Hreq. simpl in Hreq. subst req.
  destruct (run_delivers evs L s0 (fresh rf s0) 0 cur' s0 sv Hlaw Hdel eq_refl eq_refl E) as [_ Happ].
  destruct (Happ _ _ _ Hin) as [Hno|(i & si & s' & ? & ? & ? & ?)]; [by apply not_elem_of_nil in Hno|].
  exists i, si, s'. done.
Qed.

(** ** A submission that nobody wakes

    Its channel is empty and no index is registered for it: it stays so as long
    as the process lives, and is never answered OK. *)
Definition forgotten (j : nat) (id : Z) (r : RSM) : Prop :=
  (∃ s, subs r !! j = Some s ∧ s_id s = id ∧ s_ch s = [] ∧ ∀ v, s_ret s ≠ Some (OK, v))
  ∧ ∀ idx, notify r !! idx ≠ Some j.

Lemma chan_send_other k op r r' j : chan_send k op r = Some r' → k ≠ j →
  subs r' !! j = subs r !! j ∧ notify r' = notify r.
Proof.
  unfold chan_send. intros E Hne. apply bind_Some in E as (s & _ & E). destruct (decide _); [|done].
  injection E as <-. simpl. by rewrite list_lookup_insert_ne.
Qed.

Lemma poison_other v ks r j : j ∉ ks →
  subs (foldr (λ k' r, chan_try_send k' {| Id := -1; Req := v |} r) r ks) !! j = subs r !! j
  ∧ notify (foldr (λ k' r, chan_try_send k' {| Id := -1; Req := v |} r) r ks) = notify r.
Proof.
  induction ks as [|k ks IH]; [done|]. intros [Hne Hin]%not_elem_of_cons. destruct (IH Hin) as [IH1 IH2]. simpl.
  set (r1 := foldr _ _ _) in *. unfold chan_try_send. destruct (chan_send k _ r1) as [r'|] eqn:E; [|done]. simpl.
  destruct (chan_send_other _ _ _ _ j E) as [-> ->]; [done|]. by split.
Qed.

Lemma Submit_start_forgotten id' req rf r rf' r' a j id :
  Submit_start id' req rf r = (rf', r', a) → forgotten j id r → forgotten j id r'.
Proof.
  unfold Submit_start. intros E [(s & Hs & H) Hn]. destruct (Start _ rf) as [[rf1 eff] [[idx term] lead]].
  destruct lead; injection E as _ <- _; [|split; [by exists s|done]]. apply lookup_lt_Some in Hs as Hlt. split; simpl.
  - exists s. by rewrite lookup_app_l.
  - intros i [[_ E]|[_ E]]%lookup_insert_Some; [lia|by apply (Hn i)].
Qed.

Lemma Submit_recv_forgotten k rf r r' j id : Submit_recv k rf r = Some r' → forgotten j id r → forgotten j id r'.
Proof.
  unfold Submit_recv. intros E [(s & Hs & Hid & Hch & Hret) Hn]. apply bind_Some in E as (x & Hx & E).
  destruct (s_ret x); [done|]. destruct (s_ch x) as [|op ch] eqn:Hxc; [done|].
  assert (k ≠ j) as Hne by congruence. set (r1 := set_notify _ r) in *.
  assert (∀ idx, notify r1 !! idx ≠ Some j) as Hn1 by (intros idx Hi; unfold r1 in Hi; simpl in Hi; apply lookup_delete_Some in Hi as [_ ?]; by apply (Hn idx)).
  assert (∀ r2 y, subs r2 !! j = subs r !! j → notify r2 = notify r1 →
    forgotten j id (set_subs (<[k := y]> (subs r2)) r2)) as Hset.
  { intros r2 y Hs2 Hn2. split; simpl; [|by rewrite Hn2]. exists s. by rewrite list_lookup_insert_ne, Hs2. }
  destruct (decide _); [injection E as <-; by apply (Hset r1)|]. destruct (decide _); injection E as <-; [|by apply (Hset r1)].
  destruct (poison_other any_nil (snd <$> map_to_list (notify r1)) r1 j) as [H1 H2]; [|by apply Hset].
  intros ([i k'] & -> & Hin)%list_elem_of_fmap. apply elem_of_map_to_list in Hin. by apply (Hn1 i).
Qed.

Lemma Submit_timer_forgotten k rf r r' j id : Submit_timer k rf r = Some r' → forgotten j id r → forgotten j id r'.
Proof.
  unfold Submit_timer. intros E [(s & Hs & Hid & Hch & Hret) Hn]. apply bind_Some in E as (x & Hx & E).
  destruct (s_ret x) eqn:Hr; [done|]. unfold GetState in E. destruct (decide _); injection E as <-; [|split; [by exists s|done]].
  split; simpl; [|intros idx [_ ?]%lookup_delete_Some; by apply (Hn idx)].
  destruct (decide (k = j)) as [->|Hne]; [|exists s; by rewrite list_lookup_insert_ne].
  rewrite Hs in Hx. injection Hx as ->. rewrite list_lookup_insert_eq by (by eapply lookup_lt_Some). by eexists.
Qed.

Lemma reader_step_forgotten msg rf r rf' r' j id :
  reader_step msg rf r = Ret (Some (rf', r')) → forgotten j id r → forgotten j id r'.
Proof.
  unfold reader_step. intros E Hf. destruct (CommandValid msg).
  - destruct (am_Command msg) as [op|]; [|done]. apply outcome_bind_ret in E as ([s' res] & _ & E).
    assert (forgotten j id (set_sm s' r)) as Hf1 by exact Hf.
    destruct (match _ !! _ with Some k => _ | None => _ end) as [r2|] eqn:Es; [|done].
    assert (forgotten j id r2) as Hf2.
    { destruct (notify _ !! _) as [k|] eqn:Hk; [|by injection Es as <-]. destruct Hf1 as [(s & Hs & H) Hn].
      destruct (chan_send_other _ _ _ _ j Es) as [H1 H2]; [intros ->; by apply (Hn _ Hk)|].
      split; [exists s; by rewrite H1|by rewrite H2]. }
    destruct (decide _); [apply outcome_bind_ret in E as (? & _ & E)|]; by injection E as _ <-.
  - destruct (SnapshotValid msg); [|done]. apply outcome_bind_ret in E as (s' & _ & E). by injection E as _ <-.
Qed.
End rsm.

Arguments Op : clear implicits.
Arguments submitter : clear implicits.
Arguments RSM : clear implicits.
Arguments event : clear implicits.
Arguments server : clear implicits.

(** ** Concrete peers and messages for runs *)

(** a leader of [term] whose log holds only the dummy entry *)
Definition leader {Cmd Snap : Type} (term : Z) : Raft Cmd Snap :=
  {| peers := 3; me := 0; persister := MakePersister; raftState := RaftLeader; currentTerm := term;
     voteFor := -1; logs := [{| e_Term := 0; e_Command := None |}]; commitIndex := 0; lastApplied := 0;
     nextIndex := [1; 1; 1]; matchIndex := [0; 0; 0]; electionTimerStart := 0; timeout := 400;
     gotVotes := 0; leaderID := 0; snapshotIndex := 0; snapshot := None |}.

(** the message that delivers a command *)
Definition command {V Snap : Type} (i id : Z) (req : V) : ApplyMsg (Op V) Snap :=
  {| CommandValid := true; am_Command := Some {| Id := id; Req := req |}; CommandIndex := i;
     SnapshotValid := false; am_Snapshot := None; SnapshotTerm := 0; SnapshotIndex := 0 |}.

(** ** The test service of rsm/server.go: a counter *)
Module RsmSrv.

(** the registered types carried by [any]; a counter snapshot is the encoded
    [int], the only value of its stream *)
Inductive any := ANil | Inc | IncRep (N : Z) | Null | NullRep | Dec | AOther.

Record rsmSrv := { counter : Z }.

Definition DoOp (req : any) (rs : rsmSrv) : outcome (rsmSrv * any) :=
  match req with
  | Inc => Ret ({| counter := counter rs + 1 |}, IncRep (counter rs + 1))
  | Null => Ret (rs, NullRep)
  | _ => Fatal
  end.

Definition Snapshot (rs : rsmSrv) : list Z := [counter rs].

Definition Restore (data : option (list Z)) (rs : rsmSrv) : outcome rsmSrv :=
  match data with Some (n :: _) => Ret {| counter := n |} | _ => Fatal end.

Definition GetCounter (rs : rsmSrv) : Z := counter rs.

#[global] Instance rsmSrv_sm : StateMachine any (list Z) rsmSrv :=
  {| any_nil := ANil; sm_DoOp := DoOp; sm_Snapshot := Snapshot; sm_Restore := Restore |}.

Definition newRSMSrv (ps : Persister (Op any) (list Z)) : outcome (RSM any rsmSrv) := MakeRSM ps {| counter := 0 |}.

Lemma counter_Restore_Snapshot a b : Restore (Some (Snapshot a)) b = Ret a.
Proof. by destruct a. Qed.

(** *** Runs *)

Definition run (evs : list (event any (list Z))) : option (server any (list Z) rsmSrv) :=
  server_run (-1) (λ _, 0) evs (fresh (leader 1) {| counter := 0 |}).

(** two submissions, applied in the order of the log *)
Definition good_run : list (event any (list Z)) :=
  [ESubmit 71 Inc; ESubmit 72 Inc; EMsg (command 1 71 Inc); EMsg (command 2 72 Inc); ERecv 1; ERecv 0].

Lemma good_run_delivers : delivers [Inc; Inc] {| counter := 0 |} 0 (messages good_run) 2.
Proof. by repeat (eapply del_command; [reflexivity..|]); constructor. Qed.

Lemma Submit_linearized_witness : ∃ sv s, run good_run = Some sv ∧ subs (s_rsm sv) !! 1%nat = Some s ∧
  s_ret s = Some (OK, inr (IncRep 2)) ∧
  ∃ i si s', s_index s = Z.of_nat (Datatypes.S i) ∧ [Inc; Inc] !! i = Some (s_req s)
    ∧ exec_log (take i [Inc; Inc]) {| counter := 0 |} = Ret si
    ∧ sm_DoOp (s_req s) si = Ret (s', IncRep 2).
Proof.
  eexists _, _. split; [vm_compute; reflexivity|]. split; [reflexivity|]. split; [reflexivity|].
  eapply (Submit_linearized (-1) (λ _, 0) good_run (leader 1) {| counter := 0 |} [Inc; Inc] 2 _ 1);
    [apply counter_Restore_Snapshot| |apply good_run_delivers|vm_compute; reflexivity|reflexivity|reflexivity|].
  - intros id req Hin. unfold good_run in Hin. rewrite !elem_of_cons, elem_of_nil in Hin.
    naive_solver lia.
  - intros idx op res Hin Hid. simpl in *. rewrite !elem_of_cons, elem_of_nil in Hin. naive_solver.
Defined.

(** a log of three operations: one command, then a snapshot at index 3 *)
Definition snapshot_msg : ApplyMsg (Op any) (list Z) :=
  {| CommandValid := false; am_Command := None; CommandIndex := 0; SnapshotValid := true;
     am_Snapshot := Some [2]; SnapshotTerm := 1; SnapshotIndex := 3 |}.

Definition snapshot_run : list (event any (list Z)) := [EMsg (command 1 71 Inc); EMsg snapshot_msg].

Lemma replicas_agree_witness : ∃ sv, run snapshot_run = Some sv ∧
  exec_log (take 3 [Inc; Null; Inc]) {| counter := 0 |} = Ret (sm (s_rsm sv)).
Proof.
  eexists. split; [vm_compute; reflexivity|].
  eapply (replicas_agree (-1) (λ _, 0) snapshot_run [Inc; Null; Inc] {| counter := 0 |}
    (fresh (leader 1) {| counter := 0 |}) 0 3 {| counter := 0 |});
    [apply counter_Restore_Snapshot| |reflexivity|reflexivity|vm_compute; reflexivity].
  eapply del_command; [reflexivity..|].
  eapply (del_snapshot _ _ 1 snapshot_msg 3); [reflexivity|reflexivity|lia|reflexivity..|]. constructor.
Defined.
End RsmSrv.
