(* ===== verification/RsmCluster.v ===== *)
(** * The replicated state machine on a Raft cluster

    kvraft1/rsm/rsm.go on raft1/raft.go: a cluster of peers (RaftCluster.v) with
    an RSM (Rsm.v) on each, as one transition system.  A [Submit] runs its
    [Start] on the peer of its server; the [reader] takes the messages its peer
    has put on the apply channel one by one, executes the command on the service
    and, when the log is too long, hands its peer a snapshot of the service; a
    crash takes both, and [MakeRSM] restores the service from the snapshot the
    persister holds.

    In every run with one leader per term in which snapshots arrive in sequence,
    the state of every service is what executing a prefix of one log yields, its
    snapshots are snapshots of such states, and it compacts only what its peer
    applied.  Snapshots out of sequence, which InstallSnapshot accepts, break
    this: [rolled_back_replica]. *)

From S2P Require Import Prelude KvRpc RaftNode RaftFacts RaftCluster RaftElection RaftLog RaftSafety.
From S2P Require Import RaftParts RaftSnaps RaftCommands Replication RaftReplication RaftAgreement Rsm.
Local Open Scope Z_scope.

Section stack.
Context {V Snap S : Type} `{SM : StateMachine V Snap S}.
Variable maxraftstate : Z.
Variable PersistBytes : Raft (Op V) Snap → Z.
Variable s0 : S.   (** the service as it is constructed *)

Abbreviation op := (Op V).
Abbreviation msg := (ApplyMsg op Snap).

(** a server's RSM and how many messages its reader has taken *)
Record replica := { k_rsm : RSM V S; k_read : nat }.

Record stack := { k_cluster : cluster op Snap; k_replicas : list replica }.

Inductive kaction :=
| KRaft (a : action op Snap)
| KSubmit (i : nat) (id : Z) (req : V)
| KRead (i : nat)                      (** an iteration of [reader] *)
| KRecv (i k : nat)                    (** the [k]-th [Submit] receives from its channel *)
| KTimer (i k : nat).                  (** its timer fires *)

Definition next_msg (i : nat) (k : stack) : option (replica * msg) :=
  r ← k_replicas k !! i;
  d ← delivered (k_cluster k) !! i;
  m ← d !! k_read r;
  Some (r, m).

Definition set_replica (i : nat) (r : replica) (k : stack) : stack :=
  {| k_cluster := k_cluster k; k_replicas := <[i := r]> (k_replicas k) |}.
Definition set_cluster (c : cluster op Snap) (k : stack) : stack :=
  {| k_cluster := c; k_replicas := k_replicas k |}.
Definition with_rsm (r : replica) (rsm : RSM V S) : replica := {| k_rsm := rsm; k_read := k_read r |}.

Definition stack_step (a : kaction) (k : stack) : option stack :=
  match a with
  | KRaft (AStart _ _) | KRaft (ASnapshot _ _ _) => None
  | KRaft (ACrash i clk) =>
      rf ← nodes (k_cluster k) !! i;
      rsm ← of_ret (MakeRSM (persister rf) s0);
      c ← cluster_step (ACrash i clk) (k_cluster k);
      Some (set_replica i {| k_rsm := rsm; k_read := 0 |} (set_cluster c k))
  | KRaft a => c ← cluster_step a (k_cluster k); Some (set_cluster c k)
  | KSubmit i id req =>
      rf ← nodes (k_cluster k) !! i; r ← k_replicas k !! i;
      let '(rf', rsm, _) := Submit_start id req rf (k_rsm r) in
      Some (set_replica i (with_rsm r rsm) (set_cluster (set_node i rf' (k_cluster k)) k))
  | KRead i =>
      '(r, m) ← next_msg i k; rf ← nodes (k_cluster k) !! i;
      res ← of_ret (reader_step maxraftstate PersistBytes m rf (k_rsm r));
      '(rf', rsm) ← res;
      Some (set_replica i {| k_rsm := rsm; k_read := Datatypes.S (k_read r) |}
              (set_cluster (set_node i rf' (k_cluster k)) k))
  | KRecv i j =>
      rf ← nodes (k_cluster k) !! i; r ← k_replicas k !! i;
      rsm ← Submit_recv j rf (k_rsm r); Some (set_replica i (with_rsm r rsm) k)
  | KTimer i j =>
      rf ← nodes (k_cluster k) !! i; r ← k_replicas k !! i;
      rsm ← Submit_timer j rf (k_rsm r); Some (set_replica i (with_rsm r rsm) k)
  end.

(** the actions of the cluster a step consists of *)
Definition cluster_actions (a : kaction) (k : stack) : list (action op Snap) :=
  match a with
  | KRaft a => [a]
  | KSubmit i id req => [AStart i (Some {| Id := id; Req := req |})]
  | KRead i =>
      match next_msg i k, nodes (k_cluster k) !! i with
      | Some (r, m), Some rf =>
          match am_Command m with
          | Some o =>
              match sm_DoOp (Req o) (sm (k_rsm r)) with
              | Ret (s', _) =>
                  if decide (CommandValid m = true ∧ maxraftstate > 0 ∧ PersistBytes rf > maxraftstate)
                  then [ASnapshot i (CommandIndex m) (Some (sm_Snapshot s'))] else []
              | _ => []
              end
          | None => []
          end
      | _, _ => []
      end
  | KRecv _ _ | KTimer _ _ => []
  end.

Fixpoint stack_run (acts : list kaction) (k : stack) : option (list (action op Snap) * stack) :=
  match acts with
  | [] => Some ([], k)
  | a :: acts' =>
      k' ← stack_step a k;
      '(done, k'') ← stack_run acts' k';
      Some (cluster_actions a k ++ done, k'')
  end.

(** the RSMs of empty persisters *)
Definition stack_init (clk : clock) (n : nat) : stack :=
  {| k_cluster := cluster_init clk n;
     k_replicas := replicate n {| k_rsm := {| sm := s0; notify := ∅; subs := [] |}; k_read := 0 |} |}.

(** a step is its actions of the cluster *)
Lemma stack_cluster a k k' : stack_step a k = Some k' →
  cluster_run (cluster_actions a k) (k_cluster k) = Some (k_cluster k').
Proof.
  destruct a as [a|i id req|i|i j|i j]; intros E; cbn [cluster_actions].
  - change (cluster_run [a] (k_cluster k)) with (c ← cluster_step a (k_cluster k); Some c).
    destruct a; try discriminate E; cbn [stack_step] in E; (* the crash is the last *)
      try (apply bind_Some in E as (c & -> & E); by injection E as <-).
    apply bind_Some in E as (rf & Hrf & E). apply bind_Some in E as (rsm & _ & E).
    apply bind_Some in E as (c & -> & E). by injection E as <-.
  - cbn in E |- *. apply bind_Some in E as (rf & -> & E). apply bind_Some in E as (r & _ & E). simpl.
    unfold Submit_start in E. destruct (Start _ rf) as [[rf' eff] [[idx t] lead]]. destruct lead; by injection E as <-.
  - cbn [stack_step] in E. apply bind_Some in E as ([r m] & Hn & E). rewrite Hn.
    apply bind_Some in E as (rf & Hrf & E). rewrite Hrf. apply bind_Some in E as (res & Er%of_ret_Some & E).
    apply bind_Some in E as ([rf' rsm] & -> & E). injection E as <-. simpl.
    assert (set_node i rf (k_cluster k) = k_cluster k) as Hsame.
    { unfold set_node. rewrite list_insert_id by done. by destruct (k_cluster k). }
    unfold reader_step in Er. destruct (CommandValid m) eqn:Hv; cycle 1.
    { assert (rf' = rf) as ->.
      { destruct (SnapshotValid m); [|done]. by apply outcome_bind_ret in Er as (s' & _ & [= -> _]). }
      rewrite Hsame. destruct (am_Command m) as [o|]; [|done]. destruct (sm_DoOp _ _) as [[s' v]| |]; [|done..].
      rewrite decide_False by (intros [? _]; done). done. }
    destruct (am_Command m) as [o|]; [|done]. apply outcome_bind_ret in Er as ([s' v] & Ed & Er). rewrite Ed.
    destruct (match _ !! _ with Some _ => _ | None => _ end) as [r2|] eqn:Es; [|done].
    assert (sm r2 = s') as Hs.
    { destruct (notify _ !! _); [|by injection Es as <-]. by apply chan_send_sm in Es. }
    destruct (decide (maxraftstate > 0 ∧ _)) as [Hd|Hd].
    + apply outcome_bind_ret in Er as (rf1 & Esn & Er). injection Er as <- <-.
      rewrite decide_True by done. simpl. rewrite Hrf. simpl. rewrite Hs in Esn. by rewrite Esn.
    + injection Er as <- <-. rewrite decide_False by (intros [_ ?]; by apply Hd). simpl. by rewrite Hsame.
  - cbn in E. act_inv. done.
  - cbn in E. act_inv. done.
Qed.

(** ** Snapshots in sequence *)

(** a snapshot meets no contradicting entries, nothing is collected and not yet
    sent at the peer it arrives at, and that peer has applied nothing beyond it *)
Definition in_sequence (a : action op Snap) (c : cluster op Snap) : bool :=
  match a with
  | ADeliver k _ =>
      match calls c !! k with
      | Some cl =>
          match c_rpc cl, nodes c !! c_to cl with
          | RpcSnap args None, Some rf =>
              snap_fits args rf &&
              (bool_decide (LastIncludedIndex args ≤ snapshotIndex rf)
               || bool_decide (default [] (pending c !! c_to cl) = [] ∧ lastApplied rf ≤ LastIncludedIndex args))
          | _, _ => true
          end
      | None => true
      end
  | _ => true
  end.

Fixpoint in_sequence_run (acts : list (action op Snap)) (c : cluster op Snap) : option (cluster op Snap) :=
  match acts with
  | [] => Some c
  | a :: acts' => if in_sequence a c then c' ← cluster_step a c; in_sequence_run acts' c' else None
  end.

(** ** The log the services execute *)

Section invariant.
Variables (n : nat) (clk : clock).
Hypothesis Restore_Snapshot : ∀ a b, sm_Restore (Some (sm_Snapshot a)) b = Ret a.

(** the requests of [L] are those of the commands with the indices 1, 2, ... *)
Definition of_log (acts : list (action op Snap)) c (L : list V) : Prop :=
  ∀ x req, L !! x = Some req → ∃ o, Req o = req ∧ received_by n clk acts c (Z.of_nat x + 1) (Some o).

(** [s] is the state after the first [p] requests *)
Definition state_at acts c (p : Z) (s : S) : Prop :=
  ∃ L, zlen L = p ∧ of_log acts c L ∧ exec_log L s0 = Ret s.

Definition snapshot_at acts c (p : Z) (data : option Snap) : Prop :=
  ∃ s, state_at acts c p s ∧ data = Some (sm_Snapshot s).

(** a peer that has no snapshot yet has index 0 *)
Definition snap_ok acts c (p : Z) (data : option Snap) : Prop :=
  p = 0 ∧ data = None ∨ snapshot_at acts c p data.

(** messages that take a service from position [p] to position [p'] *)
Inductive feeds : Z → list msg → Z → Prop :=
| feeds_nil p : feeds p [] p
| feeds_command p m ms p' : CommandValid m = true → CommandIndex m = p + 1 → feeds (p + 1) ms p' → feeds p (m :: ms) p'
| feeds_snapshot p m ms p' : CommandValid m = false → p ≤ SnapshotIndex m → feeds (SnapshotIndex m) ms p' →
    feeds p (m :: ms) p'.

(** the results a reader recorded *)
Definition history_ok acts c (h : list (Z * op * V)) : Prop :=
  ∀ idx o v, (idx, o, v) ∈ h → received_by n clk acts c idx (Some o) ∧
    ∃ s s', state_at acts c (idx - 1) s ∧ sm_DoOp (Req o) s = Ret (s', v).

Definition replica_ok acts c (i : nat) (r : replica) : Prop :=
  ∃ rf d q p, peer_at c i rf d q ∧ (k_read r ≤ length d)%nat ∧ state_at acts c p (sm (k_rsm r))
  ∧ feeds p (drop (k_read r) d ++ q) (lastApplied rf)
  ∧ ∃ h, rsm_ok h (k_rsm r) ∧ history_ok acts c h.

Record cluster_ok (acts : list (action op Snap)) (c : cluster op Snap) : Prop := {
  co_run : orderly_run acts (cluster_init clk n) = Some c;
  co_calls : snap_calls c (snap_ok acts c);
  co_nodes : ∀ i rf, nodes c !! i = Some rf → 0 ≤ snapshotIndex rf ∧ snap_ok acts c (snapshotIndex rf) (snapshot rf);
  co_msgs : ∀ i d m, delivered c !! i = Some d → m ∈ d → CommandValid m = false →
    snapshot_at acts c (SnapshotIndex m) (am_Snapshot m);
  co_pending : ∀ i q m, pending c !! i = Some q → m ∈ q → CommandValid m = true
}.

Definition stack_ok (acts : list (action op Snap)) (k : stack) : Prop :=
  cluster_ok acts (k_cluster k) ∧ length (k_replicas k) = n
  ∧ ∀ i r, k_replicas k !! i = Some r → replica_ok acts (k_cluster k) i r.

(** what holds of the run so far still holds later *)
Section later.
Context (acts : list (action op Snap)) (c : cluster op Snap) (a : action op Snap) (c' : cluster op Snap).
Hypothesis (Ha : orderly a c = true) (E : cluster_step a c = Some c').

Lemma of_log_later L : of_log acts c L → of_log (acts ++ [a]) c' L.
Proof. intros H x req Hx. destruct (H x req Hx) as (o & ? & ?). exists o. eauto using received_later. Qed.

Lemma state_later p s : state_at acts c p s → state_at (acts ++ [a]) c' p s.
Proof. intros (L & ? & ? & ?). exists L. eauto using of_log_later. Qed.

Lemma snapshot_later p data : snapshot_at acts c p data → snapshot_at (acts ++ [a]) c' p data.
Proof. intros (s & ? & ?). exists s. eauto using state_later. Qed.

Lemma snap_later p data : snap_ok acts c p data → snap_ok (acts ++ [a]) c' p data.
Proof. intros [?|?]; [by left|right; by apply snapshot_later]. Qed.

Lemma history_later h : history_ok acts c h → history_ok (acts ++ [a]) c' h.
Proof.
  intros H idx o v Hin. destruct (H idx o v Hin) as (? & s & s' & ? & ?). split; [eauto using received_later|].
  exists s, s'. eauto using state_later.
Qed.
End later.

Lemma feeds_app p ms p' ms' p'' : feeds p ms p' → feeds p' ms' p'' → feeds p (ms ++ ms') p''.
Proof. induction 1; intros; simpl; [done|by constructor; auto|by constructor; auto]. Qed.

Lemma feeds_le p ms p' : feeds p ms p' → p ≤ p'.
Proof. induction 1; lia. Qed.

Lemma feeds_batch (ms : list msg) p :
  (∀ x m, ms !! x = Some m → CommandIndex m = p + 1 + Z.of_nat x ∧ CommandValid m = true) → feeds p ms (p + zlen ms).
Proof.
  revert p. induction ms as [|m ms IH]; intros p H.
  { unfold zlen. simpl. rewrite Z.add_0_r. constructor. }
  destruct (H 0%nat m eq_refl). constructor; [done|lia|].
  replace (p + zlen (m :: ms)) with (p + 1 + zlen ms) by (unfold zlen; simpl; lia).
  apply IH. intros x m' Hx. destruct (H (Datatypes.S x) m' Hx). split; [lia|done].
Qed.

Lemma feeds_apply rf rf' ms : apply_iteration rf = Ret (Some (rf', ms)) →
  snapshotIndex rf' = snapshotIndex rf ∧ snapshot rf' = snapshot rf ∧ feeds (lastApplied rf) ms (lastApplied rf')
  ∧ ∀ m, m ∈ ms → CommandValid m = true.
Proof.
  unfold apply_iteration. intros E. destruct (decide _); [done|]. destruct (decide _); [done|].
  apply outcome_bind_ret in E as (ms' & Ems & E). injection E as <- <-.
  destruct (apply_collect_spec _ _ _ _ Ems) as [Hlen Hms]. simpl. split; [done|]. split; [done|]. split.
  - replace (commitIndex rf) with (lastApplied rf + zlen ms') by (unfold zlen; lia).
    apply feeds_batch. intros x m Hx. by destruct (Hms x m Hx) as (? & ? & _).
  - intros m [x Hx]%list_elem_of_lookup. by destruct (Hms x m Hx) as (_ & ? & _).
Qed.

(** the step of one peer's messages *)
Lemma peer_step_feeds a c i rf d q rf' d' q' read p :
  peer_at c i rf d q → peer_step a c i rf d q rf' d' q' → in_sequence a c = true → (∀ clk, a ≠ ACrash i clk) →
  (read ≤ length d)%nat → feeds p (drop read d ++ q) (lastApplied rf) →
  (read ≤ length d')%nat ∧ feeds p (drop read d' ++ q') (lastApplied rf').
Proof.
  intros (Hi & Hd & Hq) Hst Hseq Hnc Hlen Hf. destruct Hst as [rf' _ Hs|rf' ms -> Eap Ha|m q' -> Ha|idx sn rf' Ha Hle Hs
    |k clk' cl args rf' -> Hk Hto Hrpc Hlt Hs|clk' ->].
  - split; [done|]. by injection Hs as _ _ ->.
  - split; [done|]. rewrite app_nil_r in Hf. eapply feeds_app; [done|]. by apply feeds_apply in Eap as (_ & _ & ? & _).
  - rewrite length_app. split; [lia|]. rewrite drop_app_le by lia. by rewrite <-app_assoc.
  - split; [done|]. by injection Hs as _ _ ->.
  - rewrite length_app. split; [lia|]. rewrite drop_app_le by lia. simpl in Hseq.
    rewrite Hk, Hrpc, Hto, Hi, Hq in Hseq. apply andb_prop in Hseq as [_ Hseq].
    apply orb_prop in Hseq as [?%bool_decide_eq_true|[Hnil Hla]%bool_decide_eq_true]; [lia|]. simpl in Hnil. subst q.
    rewrite app_nil_r in *. eapply feeds_app; [done|]. injection Hs as _ _ ->. rewrite Z.max_r by done.
    constructor; [done|done|]. simpl. constructor.
  - by destruct (Hnc clk').
Qed.

(** a peer and its lists exist together *)
Lemma peer_lookup acts (c : cluster op Snap) i : orderly_run acts (cluster_init clk n) = Some c → (i < n)%nat →
  ∃ rf d q, peer_at c i rf d q.
Proof.
  intros E%orderly_run_run Hi. destruct (cluster_lengths n c) as (Ln & Lp & Ld); [by exists clk, acts|].
  destruct (lookup_lt_is_Some_2 (nodes c) i) as [rf ?]; [lia|].
  destruct (lookup_lt_is_Some_2 (pending c) i) as [q ?]; [lia|].
  destruct (lookup_lt_is_Some_2 (delivered c) i) as [d ?]; [lia|]. by exists rf, d, q.
Qed.

Section action.
Context (acts : list (action op Snap)) (c : cluster op Snap) (a : action op Snap) (c' : cluster op Snap).
Hypothesis (HI : cluster_ok acts c) (E : cluster_step a c = Some c') (Ho : orderly a c = true).

Lemma at_now i : (i < length (nodes c') ∨ i < length (delivered c') ∨ i < length (pending c'))%nat →
  ∃ rf d q rf1 d1 q1, peer_at c i rf d q ∧ peer_at c' i rf1 d1 q1 ∧ peer_step a c i rf d q rf1 d1 q1.
Proof.
  intros Hnow. pose proof (orderly_run_run _ _ _ (co_run _ _ HI)) as E0.
  destruct (cluster_lengths n c) as (Ln & Lp & Ld); [by exists clk, acts|].
  destruct (step_lengths _ _ _ E) as (Ln' & Lp' & Ld').
  destruct (peer_lookup acts c i (co_run _ _ HI)) as (rf & d & q & Hp); [lia|].
  destruct (step_peer _ _ _ _ _ _ _ E Hp) as (rf1 & d1 & q1 & Hp1 & Hst). by exists rf, d, q, rf1, d1, q1.
Qed.

Lemma nodes_later i rf' : (∀ idx sn, a = ASnapshot i idx sn → snap_ok acts c idx sn) → nodes c' !! i = Some rf' →
  0 ≤ snapshotIndex rf' ∧ snap_ok (acts ++ [a]) c' (snapshotIndex rf') (snapshot rf').
Proof.
  intros Hsn Hi'. destruct (at_now i) as (rf & d & q & rf1 & d1 & q1 & Hp & Hp1 & Hst).
  { left. by eapply lookup_lt_Some. }
  assert (rf1 = rf') as -> by (destruct Hp1; congruence).
  destruct (co_nodes _ _ HI i rf (proj1 Hp)) as [Hpos Hs]. pose proof (snap_later _ _ _ _ Ho E _ _ Hs) as Hs'.
  destruct Hst as [rf' _ Heq|rf' ms _ Eap _|m q' _ _|idx sn rf' -> Hle Heq|k' clk' cl args rf' _ Hk _ Hrpc Hlt Heq|clk' ->].
  - by injection Heq as -> -> _.
  - apply feeds_apply in Eap as (-> & -> & _). done.
  - done.
  - injection Heq as -> -> _. split; [lia|]. apply (snap_later _ _ _ _ Ho E). by eapply Hsn.
  - injection Heq as -> -> _. split; [lia|]. apply (snap_later _ _ _ _ Ho E).
    eapply (co_calls _ _ HI); [by eapply list_elem_of_lookup_2|done].
  - assert (recoverable rf) as Hrec.
    { eapply (reachable_recoverable n c); [exists clk, acts; by apply orderly_run_run, co_run|apply Hp]. }
    by destruct (snap_fields _ _ _ _ (restart_snap clk' rf Hrec Hpos)) as (-> & -> & _).
Qed.

Lemma msgs_later i d' m : delivered c' !! i = Some d' → m ∈ d' → CommandValid m = false →
  snapshot_at (acts ++ [a]) c' (SnapshotIndex m) (am_Snapshot m).
Proof.
  intros Hd' Hin Hv. destruct (at_now i) as (rf & d & q & rf1 & d1 & q1 & Hp & Hp1 & Hst).
  { right; left. by eapply lookup_lt_Some. }
  assert (d1 = d') as -> by (destruct Hp1 as (? & ? & ?); congruence).
  assert (∀ m, m ∈ d → CommandValid m = false → snapshot_at (acts ++ [a]) c' (SnapshotIndex m) (am_Snapshot m)) as Hold.
  { intros m0 ??. apply (snapshot_later _ _ _ _ Ho E). eapply (co_msgs _ _ HI); [apply Hp|done..]. }
  destruct Hst as [| |m1 q' -> _| |k' clk' cl args rf' _ Hk _ Hrpc Hlt Heq|]; try by apply Hold.
  - apply elem_of_app in Hin as [Hin| ->%list_elem_of_singleton]; [by apply Hold|].
    rewrite (co_pending _ _ HI i (m1 :: q') m1) in Hv; [done|apply Hp|by left].
  - apply elem_of_app in Hin as [Hin| ->%list_elem_of_singleton]; [by apply Hold|]. simpl.
    destruct (co_nodes _ _ HI i rf (proj1 Hp)) as [Hpos _]. apply (snapshot_later _ _ _ _ Ho E).
    destruct (co_calls _ _ HI cl args None) as [[? _]|]; [by eapply list_elem_of_lookup_2|done|lia|done].
  - by apply not_elem_of_nil in Hin.
Qed.

Lemma pending_later i q' m : pending c' !! i = Some q' → m ∈ q' → CommandValid m = true.
Proof.
  intros Hq' Hin. destruct (at_now i) as (rf & d & q & rf1 & d1 & q1 & Hp & Hp1 & Hst).
  { right; right. by eapply lookup_lt_Some. }
  assert (q1 = q') as -> by (destruct Hp1 as (? & ? & ?); congruence).
  assert (∀ m, m ∈ q → CommandValid m = true) as Hold by (intros ??; eapply (co_pending _ _ HI); [apply Hp|done]).
  destruct Hst as [|rf' ms _ Eap _|m1 q'' -> _| | |]; try by apply Hold.
  - apply feeds_apply in Eap as (_ & _ & _ & Hms). by apply Hms.
  - apply Hold. by right.
  - by apply not_elem_of_nil in Hin.
Qed.

(** the cluster, when a snapshot taken is one of a state of the log *)
Lemma cluster_ok_step : (∀ i idx sn, a = ASnapshot i idx sn → snap_ok acts c idx sn) → cluster_ok (acts ++ [a]) c'.
Proof.
  intros Hsn. split.
  - rewrite orderly_run_app, (co_run _ _ HI). simpl. by rewrite Ho, E.
  - eapply step_snap_calls; [done|intros cl args rep ??; apply (snap_later _ _ _ _ Ho E); by eapply (co_calls _ _ HI)|].
    intros i rf Hi. apply (snap_later _ _ _ _ Ho E). by eapply (co_nodes _ _ HI).
  - intros i rf' Hi'. apply (nodes_later i); [|done]. intros idx sn. apply Hsn.
  - apply msgs_later.
  - apply pending_later.
Qed.

(** a service stays where it is when its peer does not crash *)
Lemma replica_ok_step i r : in_sequence a c = true → (∀ clk, a ≠ ACrash i clk) →
  replica_ok acts c i r → replica_ok (acts ++ [a]) c' i r.
Proof.
  intros Hseq Hnc (rf & d & q & p & Hp & Hlen & Hstate & Hf & h & Hrsm & Hh).
  destruct (step_peer _ _ _ _ _ _ _ E Hp) as (rf' & d' & q' & Hp' & Hst).
  destruct (peer_step_feeds _ _ _ _ _ _ _ _ _ _ _ Hp Hst Hseq Hnc Hlen Hf).
  exists rf', d', q', p. split; [done|]. split; [done|]. split; [by apply (state_later _ _ _ _ Ho E)|]. split; [done|].
  exists h. split; [done|]. by apply (history_later _ _ _ _ Ho E).
Qed.
End action.

(** an action of the cluster in which no peer crashes *)
Lemma ok_action acts k a c' : stack_ok acts k → cluster_step a (k_cluster k) = Some c' →
  orderly a (k_cluster k) = true → in_sequence a (k_cluster k) = true → (∀ i clk, a ≠ ACrash i clk) →
  (∀ i idx sn, a = ASnapshot i idx sn → snap_ok acts (k_cluster k) idx sn) →
  stack_ok (acts ++ [a]) (set_cluster c' k).
Proof.
  intros (HI & Hlen & Hr) E Ho Hseq Hnc Hsn. split; [by eapply cluster_ok_step|]. split; [done|].
  intros i r Hi. by eapply replica_ok_step; eauto.
Qed.

(** a replica changes while the cluster stays *)
Lemma ok_replica acts k i r : stack_ok acts k → replica_ok acts (k_cluster k) i r →
  stack_ok acts (set_replica i r k).
Proof.
  intros (HI & Hlen & Hr) Hok. split; [done|]. cbn [k_replicas set_replica]. split; [by rewrite length_insert|].
  intros j r' [(<- & <- & _)|[_ Hj]]%list_lookup_insert_Some; [done|by apply Hr].
Qed.

(** submissions coming and going: the service and its reader stay *)
Lemma replica_ok_subs acts c i r rsm : replica_ok acts c i r → sm rsm = sm (k_rsm r) →
  (∀ h, rsm_ok h (k_rsm r) → rsm_ok h rsm) → replica_ok acts c i (with_rsm r rsm).
Proof.
  intros (rf & d & q & p & Hp & Hlen & Hstate & Hf & h & Hrsm & Hh) Hsm Hh'. exists rf, d, q, p. simpl. rewrite Hsm.
  eauto 10.
Qed.

Lemma of_log_nil acts c : of_log acts c [].
Proof. intros x req Hx. by rewrite lookup_nil in Hx. Qed.

(** a crash: the service is restored from the peer's snapshot *)
Lemma ok_crash acts k i clk' k' : stack_ok acts k → stack_step (KRaft (ACrash i clk')) k = Some k' →
  stack_ok (acts ++ [ACrash i clk']) k'.
Proof.
  intros (HI & Hlen & Hr) E. cbn [stack_step] in E. apply bind_Some in E as (rf & Hrf & E).
  apply bind_Some in E as (rsm & Em%of_ret_Some & E). apply bind_Some in E as (c' & Ec & E). injection E as <-.
  pose proof (cluster_ok_step acts _ _ c' HI Ec eq_refl ltac:(done)) as HI'.
  split; [done|]. cbn [k_replicas k_cluster set_replica set_cluster]. split; [by rewrite length_insert|].
  intros j r [(<- & <- & Hlt)|[Hne Hj]]%list_lookup_insert_Some; [|eapply replica_ok_step; eauto; congruence].
  destruct (peer_lookup acts _ i (co_run _ _ HI)) as (rf0 & d & q & Hp); [lia|].
  assert (rf0 = rf) as -> by (destruct Hp; congruence).
  destruct (step_peer _ _ _ _ _ _ _ Ec Hp) as (rf' & d' & q' & Hp' & Hst).
  assert (d' = [] ∧ q' = [] ∧ rf' = fst (Make clk' (peers rf) (me rf) (persister rf))) as (-> & -> & ->).
  { destruct Hst as [rf' Hnc|? ? ? ? Ha|? ? ? Ha|? ? ? Ha|? ? ? ? ? Ha|? Ha]; try discriminate Ha; [by destruct (Hnc clk')|].
    by injection Ha as <-. }
  assert (recoverable rf) as Hrec.
  { eapply (reachable_recoverable n (k_cluster k)); [exists clk, acts; by apply orderly_run_run, co_run|done]. }
  destruct (co_nodes _ _ HI i rf Hrf) as [Hpos Hsn]. destruct (snap_fields _ _ _ _ (restart_snap clk' rf Hrec Hpos)) as (Hsi & Hs & Hla).
  unfold MakeRSM in Em. rewrite (saved_snapshot rf Hrec) in Em.
  apply outcome_bind_ret in Em as (s' & Es & Em). injection Em as <-.
  exists (fst (Make clk' (peers rf) (me rf) (persister rf))), [], [], (snapshotIndex rf).
  split; [done|]. split; [done|]. split; [|split].
  - apply (state_later acts (k_cluster k) (ACrash i clk') _ eq_refl Ec). destruct Hsn as [[-> Hnone]|(s & Hat & Hsome)].
    + rewrite Hnone in Es. injection Es as <-. exists []. split; [done|]. split; [apply of_log_nil|done].
    + rewrite Hsome, Restore_Snapshot in Es. by injection Es as <-.
  - rewrite Hla. apply feeds_nil.
  - exists []. split; [by split; [constructor|]|]. intros idx o v Hin. by apply not_elem_of_nil in Hin.
Qed.

(** the message a reader takes *)
Lemma read_ok acts c i r rf d m rf' rsm : cluster_ok acts c → replica_ok acts c i r →
  nodes c !! i = Some rf → delivered c !! i = Some d → d !! k_read r = Some m →
  reader_step maxraftstate PersistBytes m rf (k_rsm r) = Ret (Some (rf', rsm)) →
  replica_ok acts c i {| k_rsm := rsm; k_read := Datatypes.S (k_read r) |}
  ∧ (CommandValid m = true → state_at acts c (CommandIndex m) (sm rsm) ∧ CommandIndex m ≤ lastApplied rf).
Proof.
  intros HI (rf0 & d0 & q & p & Hp & Hlen & (L & HL & Hof & Hex) & Hf & h & Hrsm & Hh) Hrf Hd Hm Er.
  assert (rf0 = rf) as -> by (destruct Hp; congruence). assert (d0 = d) as -> by (destruct Hp as (? & ? & ?); congruence).
  rewrite (drop_S _ _ _ Hm) in Hf. simpl in Hf.
  assert (∃ p', state_at acts c p' (sm rsm) ∧ feeds p' (drop (Datatypes.S (k_read r)) d ++ q) (lastApplied rf)
    ∧ history_ok acts c (h ++ executed m (sm (k_rsm r))) ∧ (CommandValid m = true → p' = CommandIndex m))
    as (p' & Hat & Hf' & Hh' & Hidx).
  { inversion Hf as [|? ? ? ? Hv Hidx Hf'|? ? ? ? Hv Hle Hf']; subst.
    - destruct (am_Command m) as [o|] eqn:Ho; [|unfold reader_step in Er; by rewrite Hv, Ho in Er].
      destruct (reader_step_command _ _ _ _ _ _ _ _ Er Hv Ho) as [v Hdo].
      assert (received_by n clk acts c (CommandIndex m) (Some o)) as Hrec.
      { rewrite <-Ho. eapply received_now; [apply (co_run _ _ HI)|done|by eapply list_elem_of_lookup_2|done]. }
      exists (CommandIndex m). rewrite Hidx in *. split; [|split; [done|split; [|done]]].
      + exists (L ++ [Req o]). split; [unfold zlen; rewrite length_app; simpl; unfold zlen in *; lia|]. split.
        * intros x req [(-> & ->)|(? & Hx)]%lookup_snoc_inv; [|by apply Hof]. exists o. split; [done|].
          unfold zlen in Hrec. exact Hrec.
        * rewrite exec_log_app, Hex. simpl. by rewrite Hdo.
      + intros idx o' v' [Hin|Hin]%elem_of_app; [by apply Hh|]. unfold executed in Hin. rewrite Hv, Ho, Hdo in Hin.
        apply list_elem_of_singleton in Hin as [= -> -> ->]. rewrite Hidx. split; [done|].
        exists (sm (k_rsm r)), (sm rsm). split; [|done]. replace (zlen L + 1 - 1) with (zlen L) by lia.
        exists L. done.
    - assert (SnapshotValid m = true) as Hsv.
      { unfold reader_step in Er. rewrite Hv in Er. by destruct (SnapshotValid m). }
      destruct (co_msgs _ _ HI i d m Hd) as (s & Hat & Hdata); [by eapply list_elem_of_lookup_2|done|].
      unfold reader_step in Er. rewrite Hv, Hsv, Hdata, Restore_Snapshot in Er. injection Er as _ <-.
      exists (SnapshotIndex m). split; [done|]. split; [done|]. split; [|congruence].
      unfold executed. by rewrite Hv, app_nil_r. }
  split.
  - exists rf, d, q, p'. split; [done|]. split; [apply lookup_lt_Some in Hm; simpl; lia|]. split; [done|].
    split; [done|]. eexists. split; [by eapply reader_step_ok|done].
  - intros Hv. rewrite <-(Hidx Hv). split; [done|]. by eapply feeds_le.
Qed.

Lemma orderly_in_sequence a c : in_sequence a c = true → (∀ i idx sn, a ≠ ASnapshot i idx sn) → orderly a c = true.
Proof.
  destruct a; try done; simpl; [intros _ H; by destruct (H i idx snap)|]. intros H _.
  destruct (calls c !! k) as [cl|]; [|done]. destruct (c_rpc cl) as [| |args [|]]; [done..|].
  destruct (nodes c !! c_to cl); [|done]. by apply andb_prop in H as [H _].
Qed.

(** a step keeps the invariant *)
Lemma ok_step acts a k k' : stack_ok acts k → stack_step a k = Some k' →
  (∀ a0, a = KRaft a0 → in_sequence a0 (k_cluster k) = true) → (∀ i id req, a = KSubmit i id req → 0 ≤ id) →
  stack_ok (acts ++ cluster_actions a k) k'.
Proof.
  intros HI E Hseq Hid. pose proof (stack_cluster _ _ _ E) as Ec. destruct a as [a|i id req|i|i j|i j].
  - assert ((∃ i clk, a = ACrash i clk) ∨ ∀ i clk, a ≠ ACrash i clk) as [(i & clk' & ->)|Hnc]
      by (destruct a; eauto; right; congruence); [by eapply ok_crash|].
    assert (k' = set_cluster (k_cluster k') k ∧ ∀ i idx sn, a ≠ ASnapshot i idx sn) as [-> Hns].
    { destruct a; try discriminate E; cbn [stack_step] in E; try (by destruct (Hnc i clk0));
        apply bind_Some in E as (c' & _ & E); by injection E as <-. }
    simpl in Ec. apply bind_Some in Ec as (c' & Ec & [= <-]).
    eapply ok_action; [done|done|by apply orderly_in_sequence; [apply Hseq|]|by apply Hseq|done|].
    intros i idx sn ->. by destruct (Hns i idx sn).
  - simpl in Ec. apply bind_Some in Ec as (c' & Ec & [= ->]).
    assert (stack_ok (acts ++ [AStart i (Some {| Id := id; Req := req |})]) (set_cluster (k_cluster k') k)) as HI'
      by (by eapply ok_action).
    simpl in E. apply bind_Some in E as (rf & Hrf & E). apply bind_Some in E as (r & Hr & E).
    destruct (Submit_start id req rf (k_rsm r)) as [[rf' rsm] ans] eqn:Es. injection E as <-.
    eapply (ok_replica _ (set_cluster _ k)); [exact HI'|]. destruct HI' as (_ & _ & Hrs).
    apply replica_ok_subs; [by apply Hrs| |intros h Hh; eapply Submit_start_ok; [done|by eapply Hid|done]].
    unfold Submit_start in Es. destruct (Start _ rf) as [[? ?] [[? ?] lead]]. by destruct lead; injection Es as _ <- _.
  - cbn [stack_step] in E. apply bind_Some in E as ([r m] & Hn & E). pose proof Hn as Hn'. unfold next_msg in Hn'.
    apply bind_Some in Hn' as (r0 & Hr & Hn'). apply bind_Some in Hn' as (d & Hd & Hn').
    apply bind_Some in Hn' as (m0 & Hm & [= -> ->]). apply bind_Some in E as (rf & Hrf & E).
    apply bind_Some in E as (res & Er%of_ret_Some & E). apply bind_Some in E as ([rf' rsm] & -> & E).
    pose proof HI as (HC & _ & Hrs).
    destruct (read_ok _ _ _ _ _ _ _ _ _ HC (Hrs i r Hr) Hrf Hd Hm Er) as [Hok Hat].
    pose proof (ok_replica acts k i _ HI Hok) as HI'.
    assert (k' = set_cluster (k_cluster k') (set_replica i {| k_rsm := rsm; k_read := Datatypes.S (k_read r) |} k))
      as -> by by injection E as <-. cbn [k_cluster set_cluster] in Ec. clear E.
    unfold cluster_actions in *. rewrite Hn, Hrf in *.
    destruct (am_Command m) as [o|] eqn:Hcmd.
    2: { rewrite app_nil_r. injection Ec as <-. by destruct k. }
    destruct (sm_DoOp _ _) as [[s' v]| |] eqn:Hdo; [|rewrite app_nil_r; injection Ec as <-; by destruct k..].
    destruct (decide _) as [(Hv & _)|]; [|rewrite app_nil_r; injection Ec as <-; by destruct k].
    destruct (Hat Hv) as [Hst Hla]. destruct (reader_step_command _ _ _ _ _ _ _ _ Er Hv Hcmd) as [v' Hdo'].
    assert (s' = sm rsm) as -> by congruence.
    simpl in Ec. apply bind_Some in Ec as (c' & Ec & [= ->]).
    eapply ok_action; [exact HI'|exact Ec| |done|done|].
    + simpl. rewrite Hrf. by apply bool_decide_eq_true.
    + intros ??? [= -> <- <-]. right. exists (sm rsm). by split.
  - rewrite app_nil_r. cbn [stack_step] in E. apply bind_Some in E as (rf & Hrf & E).
    apply bind_Some in E as (r & Hr & E). apply bind_Some in E as (rsm & Es & [= <-]). pose proof HI as (_ & _ & Hrs).
    eapply ok_replica; [done|]. apply replica_ok_subs; [by apply Hrs|by eapply Submit_recv_sm|].
    intros h Hh. by eapply Submit_recv_ok.
  - rewrite app_nil_r. cbn [stack_step] in E. apply bind_Some in E as (rf & Hrf & E).
    apply bind_Some in E as (r & Hr & E). apply bind_Some in E as (rsm & Es & [= <-]). pose proof HI as (_ & _ & Hrs).
    eapply ok_replica; [done|]. apply replica_ok_subs; [by apply Hrs| |intros h Hh; by eapply Submit_timer_ok].
    unfold Submit_timer in Es. apply bind_Some in Es as (s & _ & Es). destruct (s_ret s); [done|].
    destruct (GetState rf). destruct (decide _); by injection Es as <-.
Qed.

Definition ids_drawn (acts : list kaction) : Prop := ∀ i id req, KSubmit i id req ∈ acts → 0 ≤ id.

Lemma in_sequence_run_app acts acts' c :
  in_sequence_run (acts ++ acts') c = c' ← in_sequence_run acts c; in_sequence_run acts' c'.
Proof.
  revert c. induction acts as [|a acts IH]; intros c; [done|]. simpl. destruct (in_sequence a c); [|done].
  destruct (cluster_step a c); simpl; [apply IH|done].
Qed.

Lemma in_sequence_run_run acts c c' : in_sequence_run acts c = Some c' → cluster_run acts c = Some c'.
Proof.
  revert c. induction acts as [|a acts IH]; intros c E; simpl in *; [done|].
  destruct (in_sequence a c); [|done]. apply bind_Some in E as (c1 & -> & E). simpl. auto.
Qed.

Lemma ok_run acts acts0 done k k' : stack_ok acts0 k → stack_run acts k = Some (done, k') →
  is_Some (in_sequence_run done (k_cluster k)) → ids_drawn acts → stack_ok (acts0 ++ done) k'.
Proof.
  revert acts0 done k. induction acts as [|a acts IH]; intros acts0 done k HI E [c Hseq] Hid; simpl in E.
  { injection E as <- <-. by rewrite app_nil_r. }
  apply bind_Some in E as (k1 & E1 & E). apply bind_Some in E as ([done' k2] & E2 & [= <- <-]).
  rewrite in_sequence_run_app in Hseq. apply bind_Some in Hseq as (c1 & Hs1 & Hseq).
  assert (c1 = k_cluster k1) as ->.
  { apply in_sequence_run_run in Hs1. rewrite (stack_cluster _ _ _ E1) in Hs1. congruence. }
  rewrite app_assoc. eapply IH; [|done|by eexists|intros i id req Hin; apply (Hid i id req); by right].
  eapply ok_step; [done|done| |intros i id req ->; apply (Hid i id req); by left].
  intros a0 ->. simpl in Hs1. by destruct (in_sequence a0 (k_cluster k)).
Qed.

Lemma ok_init : stack_ok [] (stack_init clk n).
Proof.
  split; [split|split]; simpl.
  - done.
  - intros cl args rep Hin. by apply not_elem_of_nil in Hin.
  - intros i rf Hi. apply list_lookup_fmap_Some in Hi as (j & -> & _). split; [done|by left].
  - intros i d m Hd Hm. apply lookup_replicate in Hd as [-> _]. by apply not_elem_of_nil in Hm.
  - intros i d m Hd Hm. apply lookup_replicate in Hd as [-> _]. by apply not_elem_of_nil in Hm.
  - apply length_replicate.
  - intros i r [-> Hi]%lookup_replicate. destruct (peer_lookup [] (cluster_init clk n) i eq_refl Hi) as (rf & d & q & Hp).
    pose proof Hp as (Hrf & Hd & Hq). simpl in Hrf, Hd, Hq. apply lookup_replicate in Hd as [-> _].
    apply lookup_replicate in Hq as [-> _]. apply list_lookup_fmap_Some in Hrf as (j & -> & _).
    eexists _, [], [], 0. split; [exact Hp|]. split; [done|]. split; [|split].
    + exists []. split; [done|]. split; [apply of_log_nil|done].
    + apply feeds_nil.
    + exists []. split; [by split; [constructor|]|]. intros idx o v Hin. by apply not_elem_of_nil in Hin.
Qed.

(** two sequences of the log agree *)
Lemma of_log_agree acts c L1 L2 p : orderly_run acts (cluster_init clk n) = Some c → single n clk acts →
  of_log acts c L1 → of_log acts c L2 → (p ≤ length L1)%nat → (p ≤ length L2)%nat → take p L1 = take p L2.
Proof.
  intros E Hs H1 H2 Hp1 Hp2. apply list_eq. intros x. destruct (decide (x < p)%nat) as [Hx|Hx].
  - rewrite !lookup_take_lt by done.
    destruct (lookup_lt_is_Some_2 L1 x) as [r1 Hr1]; [lia|]. destruct (lookup_lt_is_Some_2 L2 x) as [r2 Hr2]; [lia|].
    destruct (H1 _ _ Hr1) as (o1 & <- & Ho1). destruct (H2 _ _ Hr2) as (o2 & <- & Ho2).
    pose proof (received_same _ _ _ _ _ _ _ E Hs Ho1 Ho2). congruence.
  - rewrite !lookup_take_ge by lia. done.
Qed.

(** the reader of replica [r] on peer [i] has taken everything its peer applied *)
Definition caught_up (c : cluster op Snap) (i : nat) (r : replica) rf : Prop :=
  nodes c !! i = Some rf ∧ length <$> delivered c !! i = Some (k_read r) ∧ pending c !! i = Some [].

(** replica [r] holds the state after a prefix of [L], all of what its peer
    applied when it has caught up *)
Definition copy_of (c : cluster op Snap) (L : list V) (i : nat) (r : replica) : Prop :=
  ∃ p, (p ≤ length L)%nat ∧ exec_log (take p L) s0 = Ret (sm (k_rsm r))
  ∧ ∀ rf, caught_up c i r rf → Z.of_nat p = lastApplied rf.

Lemma replica_copy acts c i r : replica_ok acts c i r → ∃ L, of_log acts c L ∧ copy_of c L i r.
Proof.
  intros (rf & d & q & p & Hp & Hlen & (L & HL & Hof & Hex) & Hf & _). exists L. split; [done|].
  exists (length L). split; [done|]. rewrite firstn_all. split; [done|]. intros rf' (Hn & Hd & Hq).
  destruct Hp as (Hn' & Hd' & Hq'). rewrite Hd' in Hd. injection Hd as Hd.
  assert (rf' = rf) as -> by congruence. assert (q = []) as -> by congruence.
  rewrite drop_ge in Hf by lia. assert (p = lastApplied rf) as <- by (by inversion Hf). exact HL.
Qed.

Lemma copy_longer acts c L L' i r : orderly_run acts (cluster_init clk n) = Some c → single n clk acts →
  of_log acts c L → of_log acts c L' → (length L ≤ length L')%nat → copy_of c L i r → copy_of c L' i r.
Proof.
  intros E Hs H H' Hle (p & Hp & Hex & Hc). exists p. split; [lia|]. split; [|done].
  rewrite <-(of_log_agree acts c L L' p); [done..|lia].
Qed.

Lemma copies acts c (rs : list (nat * replica)) : orderly_run acts (cluster_init clk n) = Some c → single n clk acts →
  (∀ i r, (i, r) ∈ rs → replica_ok acts c i r) →
  ∃ L, of_log acts c L ∧ ∀ i r, (i, r) ∈ rs → copy_of c L i r.
Proof.
  intros E Hs. induction rs as [|[i r] rs IH]; intros H.
  { exists []. split; [apply of_log_nil|]. intros i r Hin. by apply not_elem_of_nil in Hin. }
  destruct IH as (L & HL & Hrs); [intros; apply H; by right|].
  destruct (replica_copy acts c i r) as (L' & HL' & Hr); [apply H; by left|].
  destruct (decide (length L ≤ length L')%nat).
  - exists L'. split; [done|]. intros j r' [[= -> ->]|Hin]%elem_of_cons; [done|].
    eapply (copy_longer acts c L); eauto.
  - exists L. split; [done|]. intros j r' [[= -> ->]|Hin]%elem_of_cons; [|by apply Hrs].
    eapply (copy_longer acts c L'); eauto. lia.
Qed.
End invariant.

(** the replicas are copies of one log *)
Lemma replicas_copies n clk acts done k :
  (∀ a b, sm_Restore (Some (sm_Snapshot a)) b = Ret a) →
  stack_run acts (stack_init clk n) = Some (done, k) →
  in_sequence_run done (cluster_init clk n) = Some (k_cluster k) →
  single n clk done → ids_drawn acts →
  ∃ L, of_log n clk done (k_cluster k) L ∧
    ∀ i r, k_replicas k !! i = Some r → copy_of (k_cluster k) L i r.
Proof.
  intros Hlaw E Hseq Hs Hid.
  destruct (ok_run n clk Hlaw acts [] done (stack_init clk n) k (ok_init n clk) E) as (HC & _ & Hr);
    [by exists (k_cluster k)|done|]. simpl in *.
  destruct (copies n clk done (k_cluster k) (imap pair (k_replicas k)) (co_run _ _ _ _ HC) Hs) as (L & HL & Hrs).
  { intros i r (j & r' & [= -> ->] & Hj)%elem_of_lookup_imap. by apply Hr. }
  exists L. split; [done|]. intros i r Hi. apply Hrs, elem_of_lookup_imap. eauto.
Qed.

(** C6. One log for the whole service: in every run of peers and state machines,
    with crashes, restarts, compaction, installed snapshots and concurrent
    submissions, there is one log, made of the commands the peers delivered, such
    that every replica holds the state that executing a prefix of it once yields;
    a replica that has taken all messages of its peer has executed exactly the
    entries its peer applied.  Two provisos, which the code does not ensure: no
    term has two leaders, unless the number of peers is even
    ([state_machine_safety_fails]); and snapshots arrive in sequence
    ([in_sequence]): in front of no contradicting entries, at a peer that has
    collected nothing it has not sent and applied nothing beyond the snapshot
    ([rolled_back_replica]).  ([Restore] undoes [Snapshot]; submissions draw ids
    that are not negative.) *)
Theorem stack_replicas_agree n clk acts done k :
  (∀ a b, sm_Restore (Some (sm_Snapshot a)) b = Ret a) →
  stack_run acts (stack_init clk n) = Some (done, k) →
  in_sequence_run done (cluster_init clk n) = Some (k_cluster k) →
  single n clk done → ids_drawn acts →
  ∃ L, of_log n clk done (k_cluster k) L ∧
    ∀ i r, k_replicas k !! i = Some r → copy_of (k_cluster k) L i r.
Proof.
  apply replicas_copies.
Qed.

(** *** Who submitted what *)

(** what a submission keeps of itself *)
Definition sub_key (s : submitter V) : Z * V := (s_id s, s_req s).
Definition sub_keys (r : RSM V S) : list (Z * V) := sub_key <$> subs r.

Lemma insert_keys (r : RSM V S) k s s' : subs r !! k = Some s → sub_key s' = sub_key s →
  sub_key <$> <[k := s']> (subs r) = sub_keys r.
Proof.
  intros Hk Hs. rewrite list_fmap_insert, Hs. apply list_insert_id. unfold sub_keys. by rewrite list_lookup_fmap, Hk.
Qed.

Lemma chan_send_keys k o (r r' : RSM V S) : chan_send k o r = Some r' → sub_keys r' = sub_keys r.
Proof.
  unfold chan_send. intros E. apply bind_Some in E as (s & Hk & E). destruct (decide _); [|done].
  injection E as <-. by eapply insert_keys.
Qed.

Lemma chan_try_send_keys k o (r : RSM V S) : sub_keys (chan_try_send k o r) = sub_keys r.
Proof. unfold chan_try_send. destruct (chan_send k o r) eqn:E; [by eapply chan_send_keys|done]. Qed.

Lemma poison_keys v ks (r : RSM V S) :
  sub_keys (foldr (λ k' r, chan_try_send k' {| Id := -1; Req := v |} r) r ks) = sub_keys r.
Proof. induction ks; simpl; [done|]. by rewrite chan_try_send_keys. Qed.

Lemma key_at (r r' : RSM V S) k s : sub_keys r' = sub_keys r → subs r !! k = Some s →
  ∃ s', subs r' !! k = Some s' ∧ sub_key s' = sub_key s.
Proof.
  intros Hr Hk. assert (sub_keys r' !! k = Some (sub_key s)) as Hk'.
  { rewrite Hr. unfold sub_keys. by rewrite list_lookup_fmap, Hk. }
  unfold sub_keys in Hk'. apply list_lookup_fmap_Some in Hk' as (s' & -> & ?). eauto.
Qed.

Lemma Submit_recv_keys k (rf : Raft op Snap) (r r' : RSM V S) : Submit_recv k rf r = Some r' → sub_keys r' = sub_keys r.
Proof.
  unfold Submit_recv. intros E. apply bind_Some in E as (s & Hk & E).
  destruct (s_ret s); [done|]. destruct (s_ch s) as [|o ch]; [done|].
  set (r1 := set_notify _ r) in *. assert (sub_keys r1 = sub_keys r) as Hr1 by done.
  destruct (decide (Id o = -1)); [injection E as <-; by eapply (insert_keys r1)|].
  destruct (decide (Id o ≠ s_id s)); injection E as <-; [|by eapply (insert_keys r1)].
  set (ks := snd <$> _). pose proof (poison_keys any_nil ks r1) as Hp.
  destruct (key_at _ _ _ _ Hp Hk) as (s' & Hk' & Hs'). rewrite <-Hr1, <-Hp. unfold sub_keys at 1. simpl.
  eapply (insert_keys (foldr _ r1 ks)); [exact Hk'|by rewrite Hs'].
Qed.

Lemma Submit_timer_keys k (rf : Raft op Snap) (r r' : RSM V S) : Submit_timer k rf r = Some r' → sub_keys r' = sub_keys r.
Proof.
  unfold Submit_timer. intros E. apply bind_Some in E as (s & Hk & E). destruct (s_ret s); [done|].
  destruct (GetState rf). destruct (decide _); injection E as <-; [by eapply insert_keys|done].
Qed.

Lemma Submit_start_keys id req (rf : Raft op Snap) (r : RSM V S) rf' r' a : Submit_start id req rf r = (rf', r', a) →
  sub_keys r' = sub_keys r ∨ sub_keys r' = sub_keys r ++ [(id, req)].
Proof.
  unfold Submit_start. intros E. destruct (Start _ rf) as [[rf1 eff] [[idx term] lead]].
  destruct lead; injection E as _ <- _; [right|by left]. unfold sub_keys. simpl. by rewrite fmap_app.
Qed.

Lemma reader_keys m rf (r : RSM V S) rf' r' :
  reader_step maxraftstate PersistBytes m rf r = Ret (Some (rf', r')) → sub_keys r' = sub_keys r.
Proof.
  unfold reader_step. intros E. destruct (CommandValid m).
  - destruct (am_Command m) as [o|]; [|done]. apply outcome_bind_ret in E as ([s' res] & _ & E).
    destruct (match _ !! _ with Some k => _ | None => _ end) as [r2|] eqn:Es; [|done].
    assert (sub_keys r2 = sub_keys r) as <-.
    { destruct (notify _ !! _); [|by injection Es as <-]. by apply chan_send_keys in Es. }
    destruct (decide _); [apply outcome_bind_ret in E as (rf1 & _ & E)|]; by injection E as _ <-.
  - destruct (SnapshotValid m); [|done]. apply outcome_bind_ret in E as (s' & _ & E). by injection E as _ <-.
Qed.

(** the requests the replicas wait for were submitted *)
Definition submitted (acts : list kaction) (k : stack) : Prop :=
  ∀ i r id req, k_replicas k !! i = Some r → (id, req) ∈ sub_keys (k_rsm r) → KSubmit i id req ∈ acts.

Lemma submitted_step acts a k k' : submitted acts k → stack_step a k = Some k' → submitted (acts ++ [a]) k'.
Proof.
  intros H E.
  assert (∀ j r0 rsm rd, k_replicas k !! j = Some r0 →
    (∀ id req, (id, req) ∈ sub_keys rsm → (id, req) ∈ sub_keys (k_rsm r0) ∨ a = KSubmit j id req) →
    ∀ c, submitted (acts ++ [a]) (set_replica j {| k_rsm := rsm; k_read := rd |} (set_cluster c k))) as Hset.
  { intros j r0 rsm rd Hj Hk c i r id req Hi Hin.
    apply list_lookup_insert_Some in Hi as [(<- & <- & _)|[_ Hi]]; apply elem_of_app; [|left; by eapply H].
    destruct (Hk id req Hin) as [Hin'| ->]; [left; by eapply H|right; by left]. }
  destruct a as [a|i id req|i|i j|i j]; cbn [stack_step] in E.
  - assert ((∃ c, k' = set_cluster c k) ∨
      ∃ i r c rsm, k_replicas k !! i = Some r ∧ subs rsm = [] ∧
        k' = set_replica i {| k_rsm := rsm; k_read := 0 |} (set_cluster c k)
      ∨ k' = set_cluster c k) as [[c ->]|(i & r & c & rsm & [(Hi & Hs & ->)| ->])].
    { destruct a; try discriminate E; try (left; apply bind_Some in E as (c & _ & E); injection E as <-; by exists c).
      apply bind_Some in E as (rf & _ & E). apply bind_Some in E as (rsm & Em%of_ret_Some & E).
      apply bind_Some in E as (c & _ & E). injection E as <-.
      destruct (k_replicas k !! i) as [r|] eqn:Hi.
      - right. exists i, r, c, rsm. left. split; [done|]. split; [|done]. unfold MakeRSM in Em.
        apply outcome_bind_ret in Em as (? & _ & Em). by injection Em as <-.
      - left. exists c. unfold set_replica. simpl. rewrite list_insert_ge; [done|by apply lookup_ge_None]. }
    + intros i r id req Hi Hin. apply elem_of_app. left. by eapply H.
    + eapply Hset; [done|]. intros id req Hin. unfold sub_keys in Hin. rewrite Hs in Hin. by apply not_elem_of_nil in Hin.
    + intros i' r' id req Hi Hin. apply elem_of_app. left. by eapply H.
  - apply bind_Some in E as (rf & _ & E). apply bind_Some in E as (r & Hr & E).
    destruct (Submit_start id req rf (k_rsm r)) as [[rf' rsm] ans] eqn:Es. injection E as <-.
    eapply Hset; [done|]. intros id' req' Hin.
    destruct (Submit_start_keys _ _ _ _ _ _ _ Es) as [Heq|Heq]; rewrite Heq in Hin; [by left|].
    apply elem_of_app in Hin as [Hin|[= -> ->]%list_elem_of_singleton]; [by left|by right].
  - apply bind_Some in E as ([r m] & Hn & E). apply bind_Some in E as (rf & _ & E).
    apply bind_Some in E as (res & Er%of_ret_Some & E). apply bind_Some in E as ([rf' rsm] & -> & E). injection E as <-.
    unfold next_msg in Hn. apply bind_Some in Hn as (r0 & Hr & Hn). apply bind_Some in Hn as (d & _ & Hn).
    apply bind_Some in Hn as (m0 & _ & [= -> ->]). eapply Hset; [done|]. intros id' req' Hin. left.
    by rewrite <-(reader_keys _ _ _ _ _ Er).
  - apply bind_Some in E as (rf & _ & E). apply bind_Some in E as (r & Hr & E).
    apply bind_Some in E as (rsm & Es & [= <-]). refine (Hset i r rsm (k_read r) Hr _ (k_cluster k)).
    intros id' req' Hin. left. by rewrite <-(Submit_recv_keys _ _ _ _ Es).
  - apply bind_Some in E as (rf & _ & E). apply bind_Some in E as (r & Hr & E).
    apply bind_Some in E as (rsm & Es & [= <-]). refine (Hset i r rsm (k_read r) Hr _ (k_cluster k)).
    intros id' req' Hin. left. by rewrite <-(Submit_timer_keys _ _ _ _ Es).
Qed.

Lemma submitted_run acts acts0 done k k' : submitted acts0 k → stack_run acts k = Some (done, k') →
  submitted (acts0 ++ acts) k' ∧ ∀ j cmd, AStart j cmd ∈ done →
    ∃ id req, cmd = Some {| Id := id; Req := req |} ∧ KSubmit j id req ∈ acts.
Proof.
  revert acts0 done k. induction acts as [|a acts IH]; intros acts0 done k H E; simpl in E.
  { injection E as <- <-. rewrite app_nil_r. split; [done|]. intros ?? []%not_elem_of_nil. }
  apply bind_Some in E as (k1 & E1 & E). apply bind_Some in E as ([done' k2] & E2 & [= <- <-]).
  destruct (IH (acts0 ++ [a]) done' k1) as [IH1 IH2]; [by eapply submitted_step|done|].
  rewrite <-app_assoc in IH1. split; [done|]. intros j cmd [Hin|Hin]%elem_of_app.
  - destruct a as [a|i id req|i|i j'|i j'].
    + apply list_elem_of_singleton in Hin as <-. discriminate E1.
    + apply list_elem_of_singleton in Hin as [= -> ->]. exists id, req. split; [done|by left].
    + exfalso. revert Hin. simpl. repeat case_match; intros Hin; try by apply not_elem_of_nil in Hin.
      by apply list_elem_of_singleton in Hin.
    + by apply not_elem_of_nil in Hin.
    + by apply not_elem_of_nil in Hin.
  - destruct (IH2 j cmd Hin) as (id & req & ? & ?). exists id, req. split; [done|by right].
Qed.

(** a command of the log is a submission *)
Lemma received_submitted n clk acts done k idx o :
  stack_run acts (stack_init clk n) = Some (done, k) → received_by n clk done (k_cluster k) idx (Some o) →
  ∃ j, KSubmit j (Id o) (Req o) ∈ acts.
Proof.
  intros E (a1 & a2 & c1 & j & d & m & -> & E1 & _ & Hd & Hm & _ & _ & Hcmd).
  destruct (delivered_was_started clk n a1 c1 j d m o (orderly_run_run _ _ _ E1) Hd Hm Hcmd) as [i Hi].
  destruct (submitted_run acts [] (a1 ++ a2) (stack_init clk n) k) as [_ H]; [|done|].
  { intros i' r id req [-> _]%lookup_replicate Hin. by apply not_elem_of_nil in Hin. }
  destruct (H i (Some o)) as (id & req & [= ->] & Hin); [apply elem_of_app; by left|]. by exists i.
Qed.

(** one request for every id drawn *)
Definition ids_distinct (acts : list kaction) : Prop :=
  ∀ i j id req req', KSubmit i id req ∈ acts → KSubmit j id req' ∈ acts → req = req'.

(** what the answer of a submission is *)
Lemma Submit_result n clk acts done k i r j s v :
  (∀ a b, sm_Restore (Some (sm_Snapshot a)) b = Ret a) →
  stack_run acts (stack_init clk n) = Some (done, k) →
  in_sequence_run done (cluster_init clk n) = Some (k_cluster k) →
  single n clk done → ids_drawn acts → ids_distinct acts →
  k_replicas k !! i = Some r → subs (k_rsm r) !! j = Some s → s_ret s = Some (OK, inr v) →
  ∃ L s1 s2, zlen L = s_index s - 1 ∧ of_log n clk done (k_cluster k) (L ++ [s_req s])
    ∧ (∀ req, req ∈ L → ∃ i' id', KSubmit i' id' req ∈ acts)
    ∧ exec_log L s0 = Ret s1 ∧ sm_DoOp (s_req s) s1 = Ret (s2, v).
Proof.
  intros Hlaw E Hseq Hs Hid Hdis Hi Hj Hret.
  destruct (ok_run n clk Hlaw acts [] done (stack_init clk n) k (ok_init n clk) E) as (HC & _ & Hr);
    [by exists (k_cluster k)|done|]. simpl in *.
  destruct (Hr i r Hi) as (rf & d & q & p & _ & _ & _ & _ & h & [Hsubs _] & Hh).
  destruct (Forall_lookup_1 _ _ _ _ Hsubs Hj) as (_ & _ & Hok). destruct (Hok v Hret) as [req Hin].
  destruct (Hh _ _ _ Hin) as (Hrec & s1 & s2 & (L & HL & Hof & Hex) & Hdo). simpl in Hdo.
  assert (req = s_req s) as ->.
  { destruct (received_submitted n clk acts done k _ _ E Hrec) as [i1 Hin1]. simpl in Hin1.
    destruct (submitted_run acts [] done (stack_init clk n) k) as [Hsub _]; [|done|].
    { intros i' r' id req' [-> _]%lookup_replicate Hin'. by apply not_elem_of_nil in Hin'. }
    eapply (Hdis i1 i (s_id s)); [done|]. eapply (Hsub i r); [done|]. unfold sub_keys.
    change (s_id s, s_req s) with (sub_key s). apply list_elem_of_fmap. exists s. split; [done|].
    by eapply list_elem_of_lookup_2. }
  exists L, s1, s2. split; [done|]. split; [|split; [|done]].
  - intros x req [[-> ->]|[_ Hx]]%lookup_snoc_inv; [|by apply Hof]. eexists. split; [|].
    2: { replace (Z.of_nat (length L) + 1) with (s_index s) by (unfold zlen in HL; lia). exact Hrec. }
    done.
  - intros req [x Hx]%list_elem_of_lookup. destruct (Hof x req Hx) as (o & <- & Ho).
    destruct (received_submitted n clk acts done k _ _ E Ho) as [i' ?]. by exists i', (Id o).
Qed.

(** C29. What [Submit] answers, over the whole stack: in such a run, when a
    [Submit] has returned OK with a value, its own request is the one that the
    log has at the index it got from [Start], and the value is the result of
    that request in the state after the requests with smaller indices, which
    were all submitted.  (The ids drawn are distinct and not negative.) *)
Theorem stack_Submit_linearized n clk acts done k i r j s v :
  (∀ a b, sm_Restore (Some (sm_Snapshot a)) b = Ret a) →
  stack_run acts (stack_init clk n) = Some (done, k) →
  in_sequence_run done (cluster_init clk n) = Some (k_cluster k) →
  single n clk done → ids_drawn acts → ids_distinct acts →
  k_replicas k !! i = Some r → subs (k_rsm r) !! j = Some s → s_ret s = Some (OK, inr v) →
  ∃ L s1 s2, zlen L = s_index s - 1 ∧ of_log n clk done (k_cluster k) (L ++ [s_req s])
    ∧ (∀ req, req ∈ L → ∃ i' id', KSubmit i' id' req ∈ acts)
    ∧ exec_log L s0 = Ret s1 ∧ sm_DoOp (s_req s) s1 = Ret (s2, v).
Proof.
  apply Submit_result.
Qed.

(** *** A submission that nobody wakes stays so until its process ends *)

Definition forgotten_at (i j : nat) (id : Z) (k : stack) : Prop :=
  ∃ r, k_replicas k !! i = Some r ∧ forgotten j id (k_rsm r).

Definition spares_server (i : nat) (a : kaction) : Prop := ∀ clk, a ≠ KRaft (ACrash i clk).

Lemma forgotten_set i j id k i' r rsm read c :
  k_replicas k !! i' = Some r → (forgotten j id (k_rsm r) → forgotten j id rsm) →
  forgotten_at i j id k → forgotten_at i j id (set_replica i' {| k_rsm := rsm; k_read := read |} (set_cluster c k)).
Proof.
  intros Hr Hf (r0 & Hr0 & Hf0). unfold forgotten_at. simpl. destruct (decide (i' = i)) as [->|Hne].
  - rewrite list_lookup_insert_eq by (by eapply lookup_lt_Some). eexists. split; [done|]. apply Hf. congruence.
  - rewrite list_lookup_insert_ne by done. eauto.
Qed.

Lemma forgotten_step a k k' i j id :
  spares_server i a → stack_step a k = Some k' → forgotten_at i j id k → forgotten_at i j id k'.
Proof.
  intros Hsp E Hf. destruct a as [a|i' id' req|i'|i' j'|i' j']; cbn [stack_step] in E.
  - destruct a; try discriminate E; try (apply bind_Some in E as (c & _ & E); by injection E as <-).
    apply bind_Some in E as (rf & _ & E). apply bind_Some in E as (rsm & _ & E).
    apply bind_Some in E as (c & _ & E). injection E as <-. destruct Hf as (r & Hr & Hf).
    exists r. simpl. rewrite list_lookup_insert_ne; [done|]. intros ->. by eapply Hsp.
  - apply bind_Some in E as (rf & _ & E). apply bind_Some in E as (r & Hr & E).
    destruct (Submit_start id' req rf (k_rsm r)) as [[rf' rsm] ans] eqn:Es. injection E as <-.
    eapply forgotten_set; [done|by eapply Submit_start_forgotten|done].
  - apply bind_Some in E as ([r m] & Hn & E). apply bind_Some in E as (rf & _ & E).
    apply bind_Some in E as (res & Er%of_ret_Some & E). apply bind_Some in E as ([rf' rsm] & -> & E). injection E as <-.
    unfold next_msg in Hn. apply bind_Some in Hn as (r0 & Hr & Hn). apply bind_Some in Hn as (d & _ & Hn).
    apply bind_Some in Hn as (m0 & _ & [= -> ->]).
    eapply forgotten_set; [done|by eapply reader_step_forgotten|done].
  - apply bind_Some in E as (rf & _ & E). apply bind_Some in E as (r & Hr & E).
    apply bind_Some in E as (rsm & Es & [= <-]).
    refine (forgotten_set i j id k i' r rsm (k_read r) (k_cluster k) Hr _ Hf). by eapply Submit_recv_forgotten.
  - apply bind_Some in E as (rf & _ & E). apply bind_Some in E as (r & Hr & E).
    apply bind_Some in E as (rsm & Es & [= <-]).
    refine (forgotten_set i j id k i' r rsm (k_read r) (k_cluster k) Hr _ Hf). by eapply Submit_timer_forgotten.
Qed.

Lemma forgotten_run acts done k k' i j id :
  Forall (spares_server i) acts → stack_run acts k = Some (done, k') → forgotten_at i j id k → forgotten_at i j id k'.
Proof.
  intros Hsp. revert done k. induction Hsp as [|a acts Ha _ IH]; intros done k E Hf; simpl in E; [by injection E as _ <-|].
  apply bind_Some in E as (k1 & E1 & E). apply bind_Some in E as ([done' k2] & E2 & [= _ <-]).
  eapply IH; [done|by eapply forgotten_step].
Qed.
End stack.

Arguments replica : clear implicits.
Arguments stack : clear implicits.
Arguments kaction : clear implicits.

(** *** Concrete runs of the counter service *)

Import RsmSrv.

(** the size of the state, in log entries *)
Definition entries_size (rf : Raft (Op any) (list Z)) : Z := zlen (logs rf).

Definition zero : rsmSrv := {| counter := 0 |}.

Abbreviation counter_run acts :=
  (stack_run 3 entries_size zero acts (stack_init zero clk0 3)).

(** peer 0 is elected by peer 1 and submits twice; peer 2 lags behind.  The
    service of peer 0 compacts after command 1, and peer 2 gets the snapshot. *)
Definition in_step_run : list (kaction any (list Z)) :=
  let late := {| now := 1000; rnd := 0 |} in
  (KRaft <$> [ATick 0 late; ADeliver 0 late; AReply 0 late]) ++
  [KSubmit 0 71 Inc; KSubmit 0 72 Inc; KSubmit 0 73 Null] ++
  (KRaft <$> [AHeartBeat 0; ADeliver 1 late; AReply 1 late; ACommit 0; AApply 0; ASend 0; ASend 0; ASend 0]) ++
  [KRead 0; KRecv 0 0] ++
  (KRaft <$> [AHeartBeat 0; ADeliver 3 late; AReply 3 late; AHeartBeat 0; ADeliver 4 late; AApply 2; ASend 2]) ++
  [KRead 2; KRead 2; KRead 0; KRecv 0 1; KRead 0; KRaft (ASend 2); KRead 2; KRaft (ACrash 2 late)].

Lemma ids_checked {V Snap} (acts : list (kaction V Snap)) :
  forallb (λ a, match a with KSubmit _ id _ => 0 <=? id | _ => true end) acts = true → ids_drawn acts.
Proof.
  rewrite forallb_forall. intros H i id req Hin%list_elem_of_In. specialize (H _ Hin). simpl in H. lia.
Qed.

Definition ids_of {V Snap} (acts : list (kaction V Snap)) : list Z :=
  omap (λ a, match a with KSubmit _ id _ => Some id | _ => None end) acts.

Lemma ids_distinct_checked {V Snap} (acts : list (kaction V Snap)) :
  bool_decide (NoDup (ids_of acts)) = true → ids_distinct acts.
Proof.
  intros Hnd%bool_decide_eq_true i j id req req'.
  assert (∀ l i id req, KSubmit i id req ∈ l → id ∈ ids_of (V:=V) (Snap:=Snap) l) as Hids.
  { intros l i0 id0 req0 Hin. apply list_elem_of_omap. by exists (KSubmit i0 id0 req0). }
  revert Hnd. induction acts as [|a acts IH]; [intros _ []%not_elem_of_nil|]. intros Hnd H1 H2.
  apply elem_of_cons in H1 as [<-|H1]; apply elem_of_cons in H2 as [H2|H2].
  - by injection H2 as _ <-.
  - apply NoDup_cons in Hnd as [Hnd _]. by destruct Hnd; eapply Hids.
  - subst a. apply NoDup_cons in Hnd as [Hnd _]. by destruct Hnd; eapply Hids.
  - eapply IH; [|done..]. unfold ids_of in *. simpl in Hnd. destruct (match a with KSubmit _ _ _ => _ | _ => _ end); [|done].
    by apply NoDup_cons in Hnd as [_ ?].
Qed.

Lemma stack_replicas_agree_witness : ∃ done k L r0 r2, counter_run in_step_run = Some (done, k) ∧
  k_replicas k !! 0%nat = Some r0 ∧ counter (sm (k_rsm r0)) = 2 ∧
  k_replicas k !! 2%nat = Some r2 ∧ counter (sm (k_rsm r2)) = 1 ∧
  of_log 3 clk0 done (k_cluster k) L ∧
  ∀ i r, k_replicas k !! i = Some r → copy_of zero (k_cluster k) L i r.
Proof.
  destruct (counter_run in_step_run) as [[done k]|] eqn:E; [|vm_compute in E; discriminate E].
  destruct (stack_replicas_agree 3 entries_size zero 3 clk0 in_step_run done k) as (L & HL & Hr).
  - apply counter_Restore_Snapshot.
  - exact E.
  - vm_compute in E. injection E as <- <-. vm_compute. reflexivity.
  - right. vm_compute in E. injection E as <- <-. apply one_leader_checked. vm_compute. reflexivity.
  - by apply ids_checked.
  - vm_compute in E. injection E as <- <-. eexists _, _, L, _, _. do 5 (split; [reflexivity|]). done.
Defined.

Lemma stack_Submit_linearized_witness : ∃ done k r s L s1 s2, counter_run in_step_run = Some (done, k) ∧
  k_replicas k !! 0%nat = Some r ∧ subs (k_rsm r) !! 1%nat = Some s ∧ s_ret s = Some (OK, inr (IncRep 2)) ∧
  zlen L = s_index s - 1 ∧ of_log 3 clk0 done (k_cluster k) (L ++ [s_req s])
    ∧ (∀ req, req ∈ L → ∃ i' id', KSubmit i' id' req ∈ in_step_run)
    ∧ exec_log L zero = Ret s1 ∧ sm_DoOp (s_req s) s1 = Ret (s2, IncRep 2).
Proof.
  destruct (counter_run in_step_run) as [[done k]|] eqn:E; [|vm_compute in E; discriminate E].
  assert (∃ r s, k_replicas k !! 0%nat = Some r ∧ subs (k_rsm r) !! 1%nat = Some s
    ∧ s_ret s = Some (OK, inr (IncRep 2))) as (r & s & Hr & Hs & Hret).
  { vm_compute in E. injection E as _ <-. eexists _, _. split_and!; reflexivity. }
  destruct (stack_Submit_linearized 3 entries_size zero 3 clk0 in_step_run done k 0 r 1 s (IncRep 2))
    as (L & s1 & s2 & H); [..|].
  - apply counter_Restore_Snapshot.
  - exact E.
  - vm_compute in E. injection E as <- <-. vm_compute. reflexivity.
  - right. vm_compute in E. injection E as <- <-. apply one_leader_checked. vm_compute. reflexivity.
  - by apply ids_checked.
  - apply ids_distinct_checked. vm_compute. reflexivity.
  - exact Hr.
  - exact Hs.
  - exact Hret.
  - exists done, k, r, s, L, s1, s2. split; [reflexivity|]. split; [exact Hr|]. split; [exact Hs|].
    split; [exact Hret|exact H].
Defined.

(** Peer 1 applies two commands while the leader, whose replies are lost, still
    counts it at index 1; the leader's service compacts after command 1, and the
    leader sends peer 1 that snapshot. *)
Definition rolled_back_run : list (kaction any (list Z)) :=
  let late := {| now := 1000; rnd := 0 |} in
  (KRaft <$> [ATick 0 late; ADeliver 0 late; ADeliver 1 late; AReply 0 late; AReply 0 late]) ++
  [KSubmit 0 71 Inc; KSubmit 0 72 Inc] ++
  (KRaft <$> [AHeartBeat 0; ADeliver 0 late; ALose 0; ADeliver 0 late; AReply 0 late; ACommit 0;
              AHeartBeat 0; ADeliver 0 late; ALose 0; AApply 1; ASend 1; ASend 1]) ++
  [KRead 1; KRead 1; KSubmit 0 73 Inc] ++
  (KRaft <$> [AApply 0; ASend 0; ASend 0]) ++ [KRead 0; KRead 0] ++
  (KRaft <$> [AHeartBeat 0; ADeliver 1 late; AReply 1 late]) ++ [KRead 1] ++
  (KRaft <$> [AHeartBeat 0; ADeliver 2 late; AReply 2 late; ACommit 0; AApply 0; ASend 0;
              AHeartBeat 0; ADeliver 3 late; AApply 1; ASend 1]) ++ [KRead 0; KRead 1].

(** C39. A replica can be rolled back: InstallSnapshot compares the snapshot only
    with the last one, not with what the peer has applied, so it hands its
    service an older state, and the commands applied in between never return.
    With one leader, no crash and an orderly run, two replicas that have both
    taken all commands up to index 3 hold different states. *)
Theorem rolled_back_replica : ∃ done k r0 r1 rf0 rf1,
  counter_run rolled_back_run = Some (done, k)
  ∧ orderly_run done (cluster_init clk0 3) = Some (k_cluster k)
  ∧ one_leader_per_term done (cluster_init clk0 3)
  ∧ k_replicas k !! 0%nat = Some r0 ∧ caught_up (k_cluster k) 0 r0 rf0
  ∧ k_replicas k !! 1%nat = Some r1 ∧ caught_up (k_cluster k) 1 r1 rf1
  ∧ lastApplied rf0 = 3 ∧ lastApplied rf1 = 3
  ∧ counter (sm (k_rsm r0)) = 3 ∧ counter (sm (k_rsm r1)) = 2.
Proof.
  do 6 eexists. split; [vm_compute; reflexivity|]. split; [vm_compute; reflexivity|].
  split; [apply one_leader_checked; vm_compute; reflexivity|].
  split; [reflexivity|]. split; [split_and!; reflexivity|]. split; [reflexivity|].
  split; [split_and!; reflexivity|]. split_and!; reflexivity.
Qed.

(** Peer 0 leads term 1 and logs two operations, of the submissions 70 and 71,
    which reach nobody.  Peer 1 leads term 2; its entry at index 1 makes peer 0
    drop both.  Peer 0 leads term 3, and submission 72 gets index 2, which
    submission 71 had.  The timer of submission 71 fires; then the log is
    replicated, committed, applied and read. *)
Definition lost_run : list (kaction any (list Z)) :=
  let at_ t := {| now := t; rnd := 0 |} in
  (KRaft <$> [ATick 0 (at_ 1000); ADeliver 0 (at_ 1000); ADeliver 1 (at_ 1000); AReply 0 (at_ 1000); AReply 0 (at_ 1000)]) ++
  [KSubmit 0 70 Inc; KSubmit 0 71 Inc] ++
  (KRaft <$> [ATick 1 (at_ 3000); ADeliver 1 (at_ 3000); AReply 1 (at_ 3000)]) ++
  [KSubmit 1 80 Inc] ++
  (KRaft <$> [AHeartBeat 1; ADeliver 1 (at_ 3000); ALose 1; ALose 1;
              ATick 0 (at_ 6000); ADeliver 2 (at_ 6000); AReply 2 (at_ 6000)]) ++
  [KSubmit 0 72 Inc; KTimer 0 1] ++
  (KRaft <$> [AHeartBeat 0; ADeliver 3 (at_ 6000); AReply 3 (at_ 6000); ALose 2;
              AHeartBeat 0; ADeliver 3 (at_ 6000); AReply 3 (at_ 6000); ACommit 0; AApply 0; ASend 0; ASend 0]) ++
  [KRead 0; KRead 0; KRecv 0 0; KTimer 0 2].

(** C40. A lost wake-up.  When its term has passed, a [Submit] deletes the channel
    that is registered at its index, even when a later submission has registered
    its own there.  In a run of three peers and their services, with one leader
    per term, no crash and no snapshot, the leader of the current term has
    executed the operation that the waiting submission 72 logged, and in no
    continuation in which its process lives is that submission ever woken or
    answered OK; while the peer leads the term its timer leaves it waiting. *)
Theorem Submit_lost_wakeup : ∃ done k r s rf,
  counter_run lost_run = Some (done, k)
  ∧ orderly_run done (cluster_init clk0 3) = Some (k_cluster k)
  ∧ one_leader_per_term done (cluster_init clk0 3)
  ∧ k_replicas k !! 0%nat = Some r ∧ caught_up (k_cluster k) 0 r rf
  ∧ subs (k_rsm r) !! 2%nat = Some s ∧ s_id s = 72 ∧ s_ret s = None
  ∧ raftState rf = RaftLeader ∧ currentTerm rf = s_term s
  ∧ log rf (s_index s) = Ret {| e_Term := s_term s; e_Command := Some {| Id := 72; Req := Inc |} |}
  ∧ lastApplied rf = s_index s ∧ counter (sm (k_rsm r)) = 2
  ∧ Submit_timer 2 rf (k_rsm r) = Some (k_rsm r)
  ∧ ∀ acts done' k', Forall (spares_server 0) acts → stack_run 3 entries_size zero acts k = Some (done', k') →
      ∃ r' s', k_replicas k' !! 0%nat = Some r' ∧ subs (k_rsm r') !! 2%nat = Some s' ∧ s_id s' = 72
        ∧ s_ch s' = [] ∧ ∀ v, s_ret s' ≠ Some (OK, v).
Proof.
  do 5 eexists. split; [vm_compute; reflexivity|]. split; [vm_compute; reflexivity|].
  split; [apply one_leader_checked; vm_compute; reflexivity|].
  split; [reflexivity|]. split; [split_and!; reflexivity|]. do 9 (split; [reflexivity|]).
  intros acts done' k' Hsp E. eapply (forgotten_run _ _ _ _ _ _ _ 0 2 72 Hsp) in E.
  - destruct E as (r' & Hr' & (s' & H) & _). exists r', s'. by split.
  - eexists. split; [reflexivity|]. split; [eexists; split; [reflexivity|by split_and!]|]. by intros idx.
Qed.
