(* ===== verification/KvRaft.v ===== *)
(** * The replicated key/value server (kvraft1/server.go)

    The service above the replicated state machine of Rsm.v: the operation it
    executes from the log, its snapshots, and the RPC handlers around [Submit]. *)

From S2P Require Import Prelude KvRpc KvSrv RaftNode Rsm.
Local Open Scope Z_scope.

Module KvRaft.

(** the types registered with labgob that travel as [any] *)
Inductive any :=
| ANil
| AGetArgs (a : GetArgs)
| APutArgs (a : PutArgs)
| AGetReply (r : GetReply)
| APutReply (r : PutReply)
| AOther.

Record KVServer := { tbl : gmap string VersionedValue }.

Definition DoOp (req : any) (kv : KVServer) : outcome (KVServer * any) :=
  match req with
  | AGetArgs args =>
      Ret (kv, AGetReply
        match tbl kv !! get_Key args with
        | Some vv => {| get_Value := Value vv; get_Version := Version vv; get_Err := OK; get_LeaderHint := 0 |}
        | None => {| get_Value := ""; get_Version := 0; get_Err := ErrNoKey; get_LeaderHint := 0 |}
        end)
  | APutArgs args =>
      let key := put_Key args in
      let answer e := APutReply {| put_Err := e; put_LeaderHint := 0 |} in
      Ret match tbl kv !! key with
          | Some versionedValue =>
              if decide (Version versionedValue = put_Version args) then
                ({| tbl := <[key := {| Value := put_Value args; Version := next_version (put_Version args) |}]>
                             (tbl kv) |}, answer OK)
              else (kv, answer ErrVersion)
          | None =>
              if decide (put_Version args = 0) then
                ({| tbl := <[key := {| Value := put_Value args; Version := 1 |}]> (tbl kv) |}, answer OK)
              else (kv, answer ErrNoKey)
          end
  | _ => Fatal
  end.

(** a gob stream whose first value should be the table *)
Inductive gobval := GTable (t : gmap string VersionedValue) | GOther.
Abbreviation bytes := (list gobval).

Definition Snapshot (kv : KVServer) : bytes := [GTable (tbl kv)].

(** a decoding error leaves the table as it is *)
Definition Restore (data : option bytes) (kv : KVServer) : outcome KVServer :=
  match data with
  | Some (GTable t :: _) => Ret {| tbl := t |}
  | _ => Ret kv
  end.

#[global] Instance KVServer_sm : StateMachine any bytes KVServer :=
  {| any_nil := ANil; sm_DoOp := DoOp; sm_Snapshot := Snapshot; sm_Restore := Restore |}.

(** ** The RPC handlers, given the answer of [Submit] *)

Definition Get (submitted : Err * (Z + any)) (reply : GetReply) : outcome GetReply :=
  let '(err, res) := submitted in
  if decide (err = ErrWrongLeader) then
    Ret {| get_Value := get_Value reply; get_Version := get_Version reply; get_Err := err;
           get_LeaderHint := match res with inl hint => hint | inr _ => -1 end |}
  else match res with inr (AGetReply r) => Ret r | _ => Fatal end.

Definition Put (submitted : Err * (Z + any)) (reply : PutReply) : outcome PutReply :=
  let '(err, res) := submitted in
  if decide (err = ErrWrongLeader) then
    Ret {| put_Err := err; put_LeaderHint := match res with inl hint => hint | inr _ => -1 end |}
  else match res with inr (APutReply r) => Ret r | _ => Fatal end.

Definition StartKVServer (ps : Persister (Op any) bytes) : outcome (RSM any KVServer) :=
  MakeRSM ps {| tbl := ∅ |}.

(** ** The operations meet the contract of KvRpc.v *)

Definition op_any (op : kv_op) : any :=
  match op with OpGet a => AGetArgs a | OpPut a => APutArgs a end.

(** [DoOp] seen as a store *)
Definition do_get (kv : KVServer) (a : GetArgs) : GetReply :=
  match DoOp (AGetArgs a) kv with Ret (_, AGetReply r) => r | _ => GetReply0 end.
Definition do_put (kv : KVServer) (a : PutArgs) : KVServer * PutReply :=
  match DoOp (APutArgs a) kv with Ret (kv', APutReply r) => (kv', r) | _ => (kv, PutReply0) end.

Lemma DoOp_get kv a : DoOp (AGetArgs a) kv = Ret (kv, AGetReply (do_get kv a)).
Proof. done. Qed.

Lemma DoOp_put kv a : DoOp (APutArgs a) kv = Ret (fst (do_put kv a), APutReply (snd (do_put kv a))).
Proof. unfold do_put. simpl. by repeat case_match; simplify_eq/=. Qed.

Lemma do_put_spec kv a :
  (tbl (fst (do_put kv a)), put_Err (snd (do_put kv a))) = spec_put (tbl kv) a.
Proof.
  destruct a as [k v n]. unfold do_put, spec_put, version_at; simpl.
  destruct (tbl kv !! k) as [[v0 n0]|] eqn:E; simpl; repeat case_decide; subst; simpl; done.
Qed.

Lemma do_get_spec kv a :
  (get_Value (do_get kv a), get_Version (do_get kv a), get_Err (do_get kv a)) = spec_get (tbl kv) a.
Proof. unfold do_get, spec_get, version_at, value_at. simpl. by destruct (tbl kv !! get_Key a). Qed.

#[global] Instance KVServer_store : KVStore KVServer := {|
  kv_table := tbl; kv_Get := do_get; kv_Put := do_put;
  kv_Get_spec := do_get_spec; kv_Put_spec := do_put_spec |}.

Lemma Restore_Snapshot a b : Restore (Some (Snapshot a)) b = Ret a.
Proof. by destruct a. Qed.

(** ** Executing a log of key/value requests is executing them on one store *)

Lemma DoOp_exec op kv : ∃ v, DoOp (op_any op) kv = Ret (fst (exec kv op), v).
Proof.
  destruct op as [a|a]; cbn [op_any]; [rewrite DoOp_get; eauto|].
  rewrite DoOp_put. cbn [exec]. change (kv_Put kv a) with (do_put kv a). destruct (do_put kv a). eauto.
Qed.

Lemma exec_log_ops ops kv : exec_log (op_any <$> ops) kv = Ret (fst (exec_all kv ops)).
Proof.
  revert kv. induction ops as [|op ops IH]; intros kv; [done|]. simpl.
  change (sm_DoOp (op_any op) kv) with (DoOp (op_any op) kv).
  destruct (DoOp_exec op kv) as [v ->]. simpl. rewrite IH.
  destruct (exec kv op) as [kv1 o]. simpl. by destruct (exec_all kv1 ops).
Qed.

Section linearized.
Variable maxraftstate : Z.
Variable PersistBytes : Raft (Op any) bytes → Z.

(** The replicated service is linearizable: when the log holds key/value
    requests, the reply that [Put] hands a client after [Submit] returned OK is
    exactly what the contract gives for its request in the table that all
    requests before it in the log, executed once each and in order on one
    store, have built; whatever leader changes, snapshots and concurrent
    submissions the server has seen. *)
Theorem kvraft_put_linearized evs rf ops cur' sv k s v args :
  ids_ok evs → delivers (op_any <$> ops) {| tbl := ∅ |} 0 (messages evs) cur' →
  server_run maxraftstate PersistBytes evs (fresh rf {| tbl := ∅ |}) = Some sv →
  subs (s_rsm sv) !! k = Some s → s_ret s = Some (OK, inr v) → s_req s = APutArgs args →
  (∀ idx op res, (idx, op, res) ∈ applied sv → Id op = s_id s → Req op = s_req s) →
  ∃ i reply, s_index s = Z.of_nat (S i) ∧ ops !! i = Some (OpPut args)
    ∧ (∀ reply0, Put (OK, inr v) reply0 = Ret reply)
    ∧ put_Err reply = snd (spec_put (tbl (fst (exec_all {| tbl := ∅ |} (take i ops)))) args).
Proof.
  intros Hids Hdel E Hk Hret Hreq Huniq.
  pose proof (run_delivers maxraftstate PersistBytes evs (op_any <$> ops) {| tbl := ∅ |} (fresh rf {| tbl := ∅ |})
    0 cur' {| tbl := ∅ |} sv) as Hrun.
  destruct Hrun as [_ Happ]; [apply Restore_Snapshot|exact Hdel|reflexivity|reflexivity|exact E|].
  destruct (Submit_OK_applied _ _ evs rf _ sv k s v Hids E Hk Hret) as [req Hin].
  pose proof (Huniq _ _ _ Hin eq_refl) as Heq. simpl in Heq. subst req.
  destruct (Happ _ _ _ Hin) as [Hno|(i & si & s' & Hi & HL & Hex & Hdo)]; [by apply not_elem_of_nil in Hno|].
  simpl in HL. rewrite list_lookup_fmap in HL. destruct (ops !! i) as [op|] eqn:Hop; [|done].
  injection HL as HL. rewrite Hreq in HL. destruct op as [a|a]; [done|]. injection HL as ->.
  rewrite <-fmap_take, exec_log_ops in Hex. injection Hex as <-.
  simpl in Hdo. rewrite Hreq in Hdo. rewrite DoOp_put in Hdo. injection Hdo as _ <-.
  exists i, (snd (do_put (fst (exec_all {| tbl := ∅ |} (take i ops))) args)).
  split_and!; [done|done|done|]. by rewrite <-do_put_spec.
Qed.
End linearized.

(** two puts of version 0 on one key: the second is refused *)
Definition put_k (v : string) : PutArgs := {| put_Key := "k"; put_Value := v; put_Version := 0 |}.

Definition two_puts : list (event any bytes) :=
  [ESubmit 71 (APutArgs (put_k "a")); ESubmit 72 (APutArgs (put_k "b"));
   EMsg (command 1 71 (APutArgs (put_k "a"))); EMsg (command 2 72 (APutArgs (put_k "b"))); ERecv 0; ERecv 1].

Lemma kvraft_put_linearized_witness : ∃ sv s v,
  server_run (-1) (λ _, 0) two_puts (fresh (leader 1) {| tbl := ∅ |}) = Some sv
  ∧ subs (s_rsm sv) !! 1%nat = Some s ∧ s_ret s = Some (OK, inr v) ∧
  ∃ i reply, s_index s = Z.of_nat (S i) ∧ [OpPut (put_k "a"); OpPut (put_k "b")] !! i = Some (OpPut (put_k "b"))
    ∧ (∀ reply0, Put (OK, inr v) reply0 = Ret reply)
    ∧ put_Err reply
      = snd (spec_put (tbl (fst (exec_all {| tbl := ∅ |} (take i [OpPut (put_k "a"); OpPut (put_k "b")])))) (put_k "b")).
Proof.
  eexists _, _, _. split; [vm_compute; reflexivity|]. split; [reflexivity|]. split; [reflexivity|].
  eapply (kvraft_put_linearized (-1) (λ _, 0) two_puts (leader 1) [OpPut (put_k "a"); OpPut (put_k "b")] 2 _ 1);
    [| |vm_compute; reflexivity|reflexivity|reflexivity|reflexivity|].
  - intros id req Hin. unfold two_puts in Hin. rewrite !elem_of_cons, elem_of_nil in Hin. naive_solver lia.
  - eapply del_command; [reflexivity..|]. eapply del_command; [reflexivity..|]. constructor.
  - intros idx op res Hin Hid. simpl in *. rewrite !elem_of_cons, elem_of_nil in Hin. naive_solver.
Defined.
End KvRaft.
