(* ===== verification/KvRaftCluster.v ===== *)
(** * The replicated key/value service on its cluster

    kvraft1/server.go on the whole stack below it: the servers of KvRaft.v as
    the state machines of RsmCluster.v.  What a client is told is what one
    table, on which the requests of the log were executed one after the other,
    answers; and every replica holds such a table. *)

From S2P Require Import Prelude KvRpc KvSrv RaftNode RaftCluster RaftElection RaftReplication RaftAgreement Rsm RsmCluster KvRaft.
Local Open Scope Z_scope.
Import KvRaft.

Definition empty_kv : KVServer := {| tbl := ∅ |}.

(** the requests [DoOp] understands: those the RPC handlers submit *)
Definition kv_requests (acts : list (kaction any bytes)) : Prop :=
  ∀ i id req, KSubmit i id req ∈ acts → ∃ o, req = op_any o.

(** the reply to [o] that [answered] stands for is that of the table after [ops] *)
Definition replies_as_one (o : kv_op) (answered : Err * (Z + any)) (ops : list kv_op) : Prop :=
  let t := tbl (fst (exec_all empty_kv ops)) in
  match o with
  | OpGet a => ∃ reply, (∀ reply0, Get answered reply0 = Ret reply)
      ∧ (get_Value reply, get_Version reply, get_Err reply) = spec_get t a
  | OpPut a => ∃ reply, (∀ reply0, Put answered reply0 = Ret reply) ∧ put_Err reply = snd (spec_put t a)
  end.

Lemma kv_ops (L : list any) acts : kv_requests acts → (∀ req, req ∈ L → ∃ i id, KSubmit i id req ∈ acts) →
  ∃ ops : list kv_op, L = op_any <$> ops.
Proof.
  intros Hkv. induction L as [|req L IH]; intros H; [by exists []|].
  destruct (H req) as (i & id & Hin); [by left|]. destruct (Hkv i id req Hin) as [o ->].
  destruct IH as [ops ->]; [intros; apply H; by right|]. by exists (o :: ops).
Qed.

Lemma DoOp_replies o ops kv v : DoOp (op_any o) (fst (exec_all empty_kv ops)) = Ret (kv, v) →
  replies_as_one o (OK, inr v) ops.
Proof.
  destruct o as [a|a]; unfold replies_as_one; cbn [op_any]; intros E.
  - rewrite DoOp_get in E. injection E as _ <-. eexists. split; [done|]. apply do_get_spec.
  - rewrite DoOp_put in E. injection E as _ <-. eexists. split; [done|]. by rewrite <-do_put_spec.
Qed.

Section cluster.
Variable maxraftstate : Z.
Variable PersistBytes : Raft (Op any) bytes → Z.
Abbreviation run acts n clk := (stack_run maxraftstate PersistBytes empty_kv acts (stack_init empty_kv clk n)).

(** C12. The replicated store is linearizable over its cluster: in every run of
    servers and peers, whatever crashes, compaction, leader changes and concurrent
    requests it has, when a server's [Submit] of a Get or Put has returned OK, the
    RPC handler answers what the contract gives in the table built by the requests
    the log has before it, each executed once.  The provisos are those of
    [stack_replicas_agree]: one leader per term or an even number of peers, and
    snapshots in sequence; the code ensures neither. *)
Theorem kvraft_cluster_linearized n clk acts done k i r j s v o :
  run acts n clk = Some (done, k) → in_sequence_run done (cluster_init clk n) = Some (k_cluster k) →
  single n clk done → ids_drawn acts → ids_distinct acts → kv_requests acts →
  k_replicas k !! i = Some r → subs (k_rsm r) !! j = Some s → s_ret s = Some (OK, inr v) → s_req s = op_any o →
  ∃ ops, zlen ops = s_index s - 1 ∧ of_log n clk done (k_cluster k) (op_any <$> ops ++ [o])
    ∧ replies_as_one o (OK, inr v) ops.
Proof.
  intros E Hseq Hs Hid Hdis Hkv Hi Hj Hret Hreq.
  destruct (Submit_result maxraftstate PersistBytes empty_kv n clk acts done k i r j s v)
    as (L & s1 & s2 & HL & Hof & Hsub & Hex & Hdo); [apply Restore_Snapshot|done..|].
  destruct (kv_ops L acts Hkv Hsub) as [ops ->]. exists ops. unfold zlen in *. rewrite length_fmap in HL.
  split; [done|]. rewrite Hreq in Hof, Hdo. split; [by rewrite fmap_app|].
  rewrite exec_log_ops in Hex. injection Hex as <-. by eapply DoOp_replies.
Qed.

(** The tables of the replicas are those of one sequence of requests. *)
Theorem kvraft_cluster_tables n clk acts done k :
  run acts n clk = Some (done, k) → in_sequence_run done (cluster_init clk n) = Some (k_cluster k) →
  single n clk done → ids_drawn acts → kv_requests acts →
  ∃ ops, of_log n clk done (k_cluster k) (op_any <$> ops) ∧
    ∀ i r, k_replicas k !! i = Some r → ∃ p, (p ≤ length ops)%nat
      ∧ tbl (sm (k_rsm r)) = tbl (fst (exec_all empty_kv (take p ops)))
      ∧ ∀ rf, caught_up (k_cluster k) i r rf → Z.of_nat p = lastApplied rf.
Proof.
  intros E Hseq Hs Hid Hkv.
  destruct (replicas_copies maxraftstate PersistBytes empty_kv n clk acts done k) as (L & HL & Hr);
    [apply Restore_Snapshot|done..|].
  destruct (kv_ops L acts Hkv) as [ops ->].
  { intros req [x Hx]%list_elem_of_lookup. destruct (HL x req Hx) as (o & <- & Ho).
    destruct (received_submitted _ _ _ _ _ _ _ _ _ _ E Ho) as [i' ?]. by exists i', (Id o). }
  exists ops. split; [done|]. intros i r Hi. destruct (Hr i r Hi) as (p & Hp & Hex & Hc). rewrite length_fmap in Hp.
  exists p. split; [done|]. split; [|done]. rewrite <-fmap_take, exec_log_ops in Hex. by injection Hex as <-.
Qed.
End cluster.

(** *** A concrete run *)

(** the state is never compacted *)
Abbreviation kv_run acts := (stack_run (-1) (λ _, 0) empty_kv acts (stack_init empty_kv clk0 3)).

(** two puts of version 0 on one key and a get, at a leader that peer 1 elected;
    then the leader crashes *)
Definition kv_acts : list (kaction any bytes) :=
  let late := {| now := 1000; rnd := 0 |} in
  (KRaft <$> [ATick 0 late; ADeliver 0 late; AReply 0 late]) ++
  [KSubmit 0 71 (APutArgs (put_k "a")); KSubmit 0 72 (APutArgs (put_k "b")); KSubmit 0 73 (AGetArgs {| get_Key := "k" |})] ++
  (KRaft <$> [AHeartBeat 0; ADeliver 1 late; AReply 1 late; ACommit 0; AApply 0; ASend 0; ASend 0; ASend 0]) ++
  [KRead 0; KRead 0; KRead 0; KRecv 0 1; KRecv 0 2; KRaft (ACrash 2 late)].

Lemma kv_checked (acts : list (kaction any bytes)) :
  forallb (λ a, match a with
                | KSubmit _ _ (AGetArgs _ | APutArgs _) => true
                | KSubmit _ _ _ => false
                | _ => true
                end) acts = true → kv_requests acts.
Proof.
  rewrite forallb_forall. intros H i id req Hin%list_elem_of_In. specialize (H _ Hin). simpl in H.
  destruct req as [|a|a| | |]; try done; [by exists (OpGet a)|by exists (OpPut a)].
Qed.

Lemma kvraft_cluster_linearized_witness : ∃ done k r s v ops, kv_run kv_acts = Some (done, k) ∧
  k_replicas k !! 0%nat = Some r ∧ subs (k_rsm r) !! 1%nat = Some s ∧ s_ret s = Some (OK, inr v) ∧
  zlen ops = s_index s - 1 ∧ of_log 3 clk0 done (k_cluster k) (op_any <$> ops ++ [OpPut (put_k "b")])
    ∧ replies_as_one (OpPut (put_k "b")) (OK, inr v) ops.
Proof.
  destruct (kv_run kv_acts) as [[done k]|] eqn:E; [|vm_compute in E; discriminate E].
  assert (∃ r s v, k_replicas k !! 0%nat = Some r ∧ subs (k_rsm r) !! 1%nat = Some s
    ∧ s_ret s = Some (OK, inr v) ∧ s_req s = op_any (OpPut (put_k "b"))) as (r & s & v & Hr & Hs & Hret & Hreq).
  { vm_compute in E. injection E as _ <-. eexists _, _, _. split_and!; reflexivity. }
  destruct (kvraft_cluster_linearized (-1) (λ _, 0) 3 clk0 kv_acts done k 0 r 1 s v (OpPut (put_k "b"))) as (ops & H).
  - exact E.
  - vm_compute in E. injection E as <- <-. vm_compute. reflexivity.
  - right. vm_compute in E. injection E as <- <-. apply one_leader_checked. vm_compute. reflexivity.
  - by apply ids_checked.
  - apply ids_distinct_checked. vm_compute. reflexivity.
  - by apply kv_checked.
  - exact Hr.
  - exact Hs.
  - exact Hret.
  - exact Hreq.
  - exists done, k, r, s, v, ops. split; [reflexivity|]. split; [exact Hr|]. split; [exact Hs|].
    split; [exact Hret|exact H].
Defined.
