(* ===== verification/KvRaftClerk.v ===== *)
(** * The clerk of the replicated service (kvraft1/client.go)

    The clerk knows several servers, of which one leads.  A server that does not
    lead answers [ErrWrongLeader] with a hint; a leader that loses its place
    answers so too, after it has put the request in the log.  A logged request
    whose answer did not come back is executed later or never.  A [script]
    fixes, per attempt, what runs before it (others' operations and earlier
    copies of our own request), what each server would do with it, and the
    random number the clerk draws. *)

From S2P Require Import Prelude KvRpc KvSrv KvClerk.
Local Open Scope Z_scope.

(** what becomes of a request sent to a server *)
Inductive fate :=
| Lost                       (** no answer; not in the log *)
| Logged                     (** no answer; in the log *)
| NotLeader (hint : Z)       (** [ErrWrongLeader]; not in the log *)
| Deposed (hint : Z)         (** [ErrWrongLeader]; in the log *)
| Answered.                  (** executed, and its answer arrives *)

(** an operation executed between two attempts *)
Inductive bystander := Other (op : kv_op) | Own.

Record event := { ev_before : list bystander; ev_fate : Z → fate; ev_rand : Z }.

Section clerk.
Context {St : Type} `{KVStore St}.

(** the parts of the world a [Put] sees: the replicated store, the copies of
    its request in the log and not yet executed, the answers of its executions *)
Record world := { store : St; outstanding : nat; answers : list Err }.

Definition step_bystander (args : PutArgs) (w : world) (b : bystander) : world :=
  match b with
  | Other op => {| store := fst (exec (store w) op); outstanding := outstanding w; answers := answers w |}
  | Own =>
      match outstanding w with
      | O => w
      | S n => let '(s', r) := kv_Put (store w) args in
               {| store := s'; outstanding := n; answers := answers w ++ [put_Err r] |}
      end
  end.

Definition log_one (w : world) : world :=
  {| store := store w; outstanding := S (outstanding w); answers := answers w |}.

(** [ck.clnt.Call(ck.servers[ck.leader], "KVServer.Put", &args, &reply)] *)
Definition Call_Put (args : PutArgs) (ev : event) (leader : Z) (reply : PutReply) (w : world)
    : world * option PutReply :=
  let w1 := foldl (step_bystander args) w (ev_before ev) in
  let wrong hint := Some (PutReply_decode reply {| put_Err := ErrWrongLeader; put_LeaderHint := hint |}) in
  match ev_fate ev leader with
  | Lost => (w1, None)
  | Logged => (log_one w1, None)
  | NotLeader hint => (w1, wrong hint)
  | Deposed hint => (log_one w1, wrong hint)
  | Answered =>
      let '(s', r) := kv_Put (store w1) args in
      ({| store := s'; outstanding := outstanding w1; answers := answers w1 ++ [put_Err r] |},
       Some (PutReply_decode reply r))
  end.

(** [rand.Intn(len(ck.servers))] *)
Definition pick (nservers : Z) (ev : event) : Z := ev_rand ev `mod` nservers.

(** The loop of [Put]; [reply] and [rpcTimes] live across attempts.  Returns the
    leader it believes in and the result ([None]: still looping). *)
Fixpoint Put_loop (nservers : Z) (args : PutArgs) (script : list event) (leader : Z) (reply : PutReply)
    (rpcTimes : Z) (w : world) : world * Z * option (outcome Err) :=
  match script with
  | [] => (w, leader, None)
  | ev :: script' =>
      let '(w1, rep) := Call_Put args ev leader reply w in
      match rep with
      | Some reply' =>
          match put_Err reply' with
          | ErrWrongLeader =>
              let leader' := if decide (put_LeaderHint reply' < 0) then pick nservers ev
                             else put_LeaderHint reply' in
              Put_loop nservers args script' leader' reply' rpcTimes w1
          | OK => (w1, leader, Some (Ret OK))
          | ErrVersion =>
              (w1, leader, Some (Ret (if decide (rpcTimes = 0) then ErrVersion else ErrMaybe)))
          | ErrNoKey => (w1, leader, Some (Ret ErrNoKey))
          | _ => (w1, leader, Some Fatal)
          end
      | None => Put_loop nservers args script' (pick nservers ev) reply (rpcTimes + 1) w1
      end
  end.

Definition Put (nservers : Z) (script : list event) (leader : Z) (key value : string) (version : Tversion) (s : St)
    : world * Z * option (outcome Err) :=
  Put_loop nservers {| put_Key := key; put_Value := value; put_Version := version |} script leader PutReply0 0
    {| store := s; outstanding := 0; answers := [] |}.

(** [Get]: a fresh reply per attempt; logged copies of a read change nothing *)
Definition Call_Get (key : string) (ev : event) (leader : Z) (s : St) : St * option GetReply :=
  let s1 := foldl (λ s b, match b with Other op => fst (exec s op) | Own => s end) s (ev_before ev) in
  match ev_fate ev leader with
  | Lost | Logged => (s1, None)
  | NotLeader hint | Deposed hint =>
      (s1, Some {| get_Value := ""; get_Version := 0; get_Err := ErrWrongLeader; get_LeaderHint := hint |})
  | Answered => (s1, Some (kv_Get s1 {| get_Key := key |}))
  end.

Fixpoint Get (nservers : Z) (script : list event) (leader : Z) (key : string) (s : St)
    : St * Z * option (string * Tversion * Err) :=
  match script with
  | [] => (s, leader, None)
  | ev :: script' =>
      let '(s1, rep) := Call_Get key ev leader s in
      match rep with
      | Some reply =>
          match get_Err reply with
          | ErrWrongLeader =>
              let leader' := if decide (get_LeaderHint reply < 0) then pick nservers ev
                             else get_LeaderHint reply in
              Get nservers script' leader' key s1
          | OK => (s1, leader, Some (get_Value reply, get_Version reply, OK))
          | ErrNoKey => (s1, leader, Some ("", 0, ErrNoKey))
          | _ => Get nservers script' leader key s1
          end
      | None => Get nservers script' (pick nservers ev) key s1
      end
  end.

(** ** What the result says *)

(** operations an event may run *)
Definition ev_size (ev : event) : Z := zlen (ev_before ev) + 1.
Definition script_size (script : list event) : Z := foldr (λ ev z, ev_size ev + z) 0 script.

Definition known (e : Err) : Prop := e = OK ∨ e = ErrVersion ∨ e = ErrNoKey.

(** at most one execution succeeded, and then the version is past ours *)
Definition world_ok (args : PutArgs) (w : world) : Prop :=
  performed (answers w) = 0%nat ∨ performed (answers w) = 1%nat ∧ overtaken (store w) args.

Lemma performed_snoc h e : performed (h ++ [e]) = (performed h + if decide (e = OK) then 1 else 0)%nat.
Proof. rewrite performed_app. unfold performed. rewrite filter_cons. by case_decide. Qed.

(** one execution of our own request *)
Lemma own_put_ok args w out :
  let v := version_at (kv_table (store w)) (put_Key args) in
  world_ok args w → 0 ≤ v → v + 1 < u64_mod →
  let '(s', r) := kv_Put (store w) args in
  world_ok args {| store := s'; outstanding := out; answers := answers w ++ [put_Err r] |}
  ∧ v ≤ version_at (kv_table s') (put_Key args) ≤ v + 1
  ∧ known (put_Err r)
  ∧ (put_Err r = ErrNoKey → performed (answers w) = 0%nat).
Proof.
  intros v Hok H0 Hb. pose proof (kv_Put_once (store w) args) as Ho.
  destruct (kv_Put (store w) args) as [s' r]. destruct Ho as (Hv & _ & Hcase & Hov); [lia..|].
  split; [|split; [done|split]].
  - unfold world_ok in *. cbn [answers store]. rewrite performed_snoc.
    destruct Hok as [->|[-> Hover]].
    + destruct Hcase as [[-> ?]|[->| ->]]; [right; by split|by left..].
    + destruct (Hov Hover) as [? ->]. right. by split.
  - unfold known. destruct Hcase as [[-> ?]|[->| ->]]; auto.
  - intros Hn. destruct Hok as [|[_ Hover]]; [done|]. destruct (Hov Hover). congruence.
Qed.

Lemma step_bystander_ok args w b :
  let v := version_at (kv_table (store w)) (put_Key args) in
  world_ok args w → 0 ≤ v → v + 1 < u64_mod →
  world_ok args (step_bystander args w b)
  ∧ v ≤ version_at (kv_table (store (step_bystander args w b))) (put_Key args) ≤ v + 1
  ∧ (outstanding w = 0%nat → outstanding (step_bystander args w b) = 0%nat
       ∧ answers (step_bystander args w b) = answers w).
Proof.
  intros v Hok H0 Hb. destruct b as [op|]; simpl.
  - destruct (exec_version (store w) op (put_Key args)) as [Hv Hs]; [lia|].
    split; [|split; [done|auto]]. destruct Hok as [|[Hp [Hsome Hlt]]]; [by left|right].
    split; [done|]. split; simpl; [by apply Hs|lia].
  - destruct (outstanding w) as [|n] eqn:Hout.
    + split; [done|]. split; [lia|auto].
    + pose proof (own_put_ok args w n Hok H0 Hb) as Ho.
      destruct (kv_Put (store w) args) as [s' r]. destruct Ho as (Ho1 & Ho2 & _). split; [exact Ho1|]. split; [exact Ho2|done].
Qed.

Lemma bystanders_ok args bs w :
  let v := version_at (kv_table (store w)) (put_Key args) in
  world_ok args w → 0 ≤ v → v + zlen bs < u64_mod →
  let w1 := foldl (step_bystander args) w bs in
  world_ok args w1 ∧ v ≤ version_at (kv_table (store w1)) (put_Key args) ≤ v + zlen bs
  ∧ (outstanding w = 0%nat → outstanding w1 = 0%nat ∧ answers w1 = answers w).
Proof.
  unfold zlen. revert w. induction bs as [|b bs IH]; intros w Hok H0 Hb; simpl in *.
  { split; [done|]. split; [lia|auto]. }
  destruct (step_bystander_ok args w b Hok) as (Hok1 & Hv1 & Hout1); [lia..|].
  destruct (IH (step_bystander args w b) Hok1) as (Hok2 & Hv2 & Hout2); [lia..|].
  split; [done|]. split; [lia|]. intros Ho. destruct (Hout1 Ho) as [Ho1 Ha1].
  destruct (Hout2 Ho1) as [? ?]. split; congruence.
Qed.

(** one attempt *)
Lemma Call_Put_ok args ev leader reply w w1 rep :
  let v := version_at (kv_table (store w)) (put_Key args) in
  world_ok args w → 0 ≤ v → v + ev_size ev < u64_mod →
  Call_Put args ev leader reply w = (w1, rep) →
  world_ok args w1 ∧ v ≤ version_at (kv_table (store w1)) (put_Key args) ≤ v + ev_size ev
  ∧ match rep with
    | None => outstanding w = 0%nat → answers w1 = answers w
    | Some r =>
        put_Err r = ErrWrongLeader
          ∧ (outstanding w = 0%nat → answers w1 = answers w
             ∧ ((∀ h, ev_fate ev leader ≠ Deposed h) → outstanding w1 = 0%nat))
        ∨ known (put_Err r)
          ∧ (put_Err r = OK → performed (answers w1) = 1%nat)
          ∧ (put_Err r = ErrNoKey → performed (answers w1) = 0%nat)
          ∧ (outstanding w = 0%nat → outstanding w1 = 0%nat ∧ answers w1 = answers w ++ [put_Err r])
    end.
Proof.
  intros v Hok H0 Hb E. unfold Call_Put, ev_size in *.
  destruct (bystanders_ok args (ev_before ev) w Hok) as (Hok1 & Hv1 & Hout1); [unfold zlen in *; lia..|].
  fold v in Hv1. set (w' := foldl _ _ _) in *.
  destruct (ev_fate ev leader) as [| |hint|hint|].
  - injection E as <- <-. split; [done|]. split; [lia|]. intros Ho. by apply Hout1.
  - injection E as <- <-. split; [done|]. split; [simpl; lia|]. intros Ho. by apply Hout1.
  - injection E as <- <-. split; [done|]. split; [lia|]. left. split; [done|].
    intros Ho. destruct (Hout1 Ho). by split.
  - injection E as <- <-. split; [done|]. split; [simpl; lia|]. left. split; [done|].
    intros Ho. destruct (Hout1 Ho). split; [done|]. intros Hd. by destruct (Hd hint).
  - pose proof (own_put_ok args w' (outstanding w') Hok1) as Ho.
    destruct (kv_Put (store w') args) as [s' r]. destruct Ho as (Hok2 & Hv2 & Hk & Hn); [lia..|].
    injection E as <- <-. split; [done|]. split; [simpl; lia|]. right.
    assert (put_Err (PutReply_decode reply r) = put_Err r) as ->.
    { unfold PutReply_decode. simpl. destruct Hk as [->|[->| ->]]; done. }
    cbn [answers outstanding]. split; [done|]. rewrite performed_snoc. split_and!.
    + intros Hr. rewrite Hr. destruct Hok2 as [Hp|[Hp _]]; cbn [answers] in Hp; rewrite performed_snoc in Hp;
        rewrite Hr in Hp; simpl in *; lia.
    + intros Hr. rewrite (Hn Hr), Hr. done.
    + intros Hz. destruct (Hout1 Hz) as [-> ->]. done.
Qed.

(** no server answered [ErrWrongLeader] after logging the request *)
Definition no_deposed (script : list event) : Prop :=
  ∀ ev leader h, ev ∈ script → ev_fate ev leader ≠ Deposed h.

Definition result_ok (quiet : Prop) (w : world) (res : option (outcome Err)) : Prop :=
  (performed (answers w) ≤ 1)%nat ∧
  match res with
  | None | Some (Ret ErrMaybe) => True
  | Some (Ret OK) => performed (answers w) = 1%nat
  | Some (Ret ErrNoKey) => performed (answers w) = 0%nat
  | Some (Ret ErrVersion) => quiet → performed (answers w) = 0%nat ∧ outstanding w = 0%nat
  | Some _ => False
  end.

Lemma Put_loop_ok (quiet : Prop) nservers args script leader reply rpcTimes w w' leader' res :
  let v := version_at (kv_table (store w)) (put_Key args) in
  world_ok args w → 0 ≤ rpcTimes → 0 ≤ v → v + script_size script < u64_mod →
  (quiet → no_deposed script) →
  (rpcTimes = 0 → quiet → outstanding w = 0%nat ∧ answers w = []) →
  Put_loop nservers args script leader reply rpcTimes w = (w', leader', res) →
  result_ok quiet w' res.
Proof.
  revert leader reply rpcTimes w. induction script as [|ev script IH];
    intros leader reply rpcTimes w v Hok Hr H0 Hb Hnd Hq E; simpl in E.
  { injection E as <- _ <-. split; [|done]. destruct Hok as [->|[-> _]]; lia. }
  destruct (Call_Put args ev leader reply w) as [w1 rep] eqn:EC.
  assert (0 ≤ script_size script) as Hss.
  { clear. induction script as [|e sc IH]; simpl; unfold ev_size, zlen in *; lia. }
  change (script_size (ev :: script)) with (ev_size ev + script_size script) in Hb.
  destruct (Call_Put_ok args ev leader reply w w1 rep Hok H0 ltac:(lia) EC) as (Hok1 & Hv1 & Hrep).
  fold v in Hv1.
  assert (quiet → no_deposed script) as Hnd' by (intros Hqu ??? ?; apply (Hnd Hqu); by right).
  assert (performed (answers w1) ≤ 1)%nat as Hle by (destruct Hok1 as [->|[-> _]]; lia).
  destruct rep as [r|].
  - destruct Hrep as [[Hw Hrep]|(Hk & HrOK & HrNo & Hrep)].
    + rewrite Hw in E. eapply (IH _ r rpcTimes w1); [done|done|lia|lia|done| |exact E].
      intros Hr0 Hqu. destruct (Hq Hr0 Hqu) as [Ho Ha]. destruct (Hrep Ho) as [Ha1 Ho1].
      split; [|congruence]. apply Ho1. intros h. apply (Hnd Hqu). by left.
    + destruct Hk as [He|[He|He]]; rewrite He in *; injection E as <- _ <-; (split; [done|]); auto.
      destruct (decide (rpcTimes = 0)) as [Hr0|]; [|done]. intros Hqu.
      destruct (Hq Hr0 Hqu) as [Ho Ha]. destruct (Hrep Ho) as [Ho1 Ha1]. rewrite Ha1, Ha. by split.
  - eapply (IH _ reply (rpcTimes + 1) w1); [done|lia|lia|lia|done| |exact E]. lia.
Qed.
End clerk.
Arguments world : clear implicits.

(** C29. The replicated clerk, over servers that lose messages, redirect it, or
    are deposed after logging its request, with logged copies executed later in
    any order among others' operations (versions staying below the wrap-around):
    the request of one [Put] takes effect at most once; [OK] means it did,
    [ErrNoKey] means it had not; [ErrVersion] means it did not and never will,
    provided no server answered [ErrWrongLeader] after logging it; and
    [log.Fatalf] is not reached. *)
Theorem replicated_put_sound {St : Type} `{KVStore St} nservers script leader key value version (s : St)
    w leader' res :
  0 ≤ version_at (kv_table s) key → version_at (kv_table s) key + script_size script < u64_mod →
  Put nservers script leader key value version s = (w, leader', res) →
  (performed (answers w) ≤ 1)%nat
  ∧ (res = Some (Ret OK) → performed (answers w) = 1%nat)
  ∧ (res = Some (Ret ErrNoKey) → performed (answers w) = 0%nat)
  ∧ (res = Some (Ret ErrVersion) → no_deposed script →
     performed (answers w) = 0%nat ∧ outstanding w = 0%nat)
  ∧ (∀ o, res = Some o → o ∈ [Ret OK; Ret ErrVersion; Ret ErrNoKey; Ret ErrMaybe]).
Proof.
  intros H0 Hb E. unfold Put in E.
  assert (result_ok (no_deposed script) w res) as [Hp Hres].
  { eapply Put_loop_ok; [..|exact E]; [by left|lia|exact H0|exact Hb|done|done]. }
  split_and!; [done| | | |].
  - intros ->. exact Hres.
  - intros ->. exact Hres.
  - intros ->. exact Hres.
  - intros o ->. destruct o as [[]| |]; set_solver.
Qed.

(** *** Runs *)

Definition ev (bs : list bystander) (f : Z → fate) : event := {| ev_before := bs; ev_fate := f; ev_rand := 0 |}.

(** redirected once, then a lost reply, then answered *)
Definition resend_script : list event :=
  [ev [] (λ _, NotLeader 2); ev [] (λ _, Logged); ev [Own] (λ _, Answered)].

Lemma replicated_put_sound_witness : ∃ w leader',
  Put 3 resend_script 0 "k" "v" 0 KvSrv.MakeKVServer = (w, leader', Some (Ret ErrMaybe))
  ∧ (performed (answers w) ≤ 1)%nat.
Proof.
  do 2 eexists. split; [vm_compute; reflexivity|].
  refine (proj1 (replicated_put_sound 3 resend_script 0 "k" "v" 0 KvSrv.MakeKVServer _ _ (Some (Ret ErrMaybe)) _ _ _)).
  - vm_compute. discriminate.
  - vm_compute. reflexivity.
  - vm_compute. reflexivity.
Defined.

(** The proviso of the soundness of [Put] is needed: a leader logs the request, loses its place and
    answers [ErrWrongLeader]; the request is executed; the next leader answers
    [ErrVersion], and since no call has failed the clerk reports that the put,
    which took effect, did not. *)
Theorem deposed_put_denied :
  ∃ w leader', Put 3 [ev [] (λ _, Deposed 1); ev [Own] (λ _, Answered)] 0 "k" "v" 0 KvSrv.MakeKVServer
               = (w, leader', Some (Ret ErrVersion))
  ∧ performed (answers w) = 1%nat ∧ value_at (kv_table (store w)) "k" = "v".
Proof. do 2 eexists. split; [vm_compute; reflexivity|]. split; reflexivity. Qed.

(** servers 1 and 2 do not lead and know who does; server 0 leads *)
Definition settled (i : Z) : fate :=
  if decide (i = 0) then Answered else if decide (i = 2) then NotLeader 0 else NotLeader 2.

(** A stale hint: [Put] decodes every reply into the same variable, and gob
    does not transmit a zero [LeaderHint], so once another hint has been received
    the hint 0 is never seen.  A clerk that starts at server 1 asks server 2 for
    ever, although every call succeeds and server 0 would answer. *)
Theorem stale_hint_loops n : ∃ w,
  Put 3 (replicate (S (S n)) (ev [] settled)) 1 "k" "v" 0 KvSrv.MakeKVServer = (w, 2, None)
  ∧ answers w = [].
Proof.
  unfold Put. simpl.
  enough (∀ w, ∃ w', Put_loop 3 {| put_Key := "k"; put_Value := "v"; put_Version := 0 |}
    (replicate n (ev [] settled)) 2 {| put_Err := ErrWrongLeader; put_LeaderHint := 2 |} 0 w = (w', 2, None)
    ∧ answers w' = answers w) as Hloop.
  { destruct (Hloop {| store := KvSrv.MakeKVServer; outstanding := 0; answers := [] |}) as (w' & E & Ha).
    exists w'. by split. }
  induction n as [|n IH]; intros w; simpl; [by exists w|]. apply IH.
Qed.
