(* ===== verification/GoText.v ===== *)
(** * Text of the Go standard library

    What the programs use of unicode/utf8, strconv and strings, on strings as
    lists of bytes: decoding runes, [range] over a string, [FieldsFunc],
    decimal numbers.  Nothing here belongs to the repository; ShardJson and
    MrApps are about its uses. *)

From Stdlib Require Import DecimalN DecimalNat.
From S2P Require Import Prelude.
Local Open Scope Z_scope.

Abbreviation chars := (list ascii).

Definition to_chars (s : string) : chars := String.list_ascii_of_string s.
Definition of_chars (l : chars) : string := String.string_of_list_ascii l.

Lemma of_to_chars s : of_chars (to_chars s) = s.
Proof. apply String.string_of_list_ascii_of_string. Qed.
Lemma to_of_chars l : to_chars (of_chars l) = l.
Proof. apply String.list_ascii_of_string_of_list_ascii. Qed.

Definition byte (c : ascii) : Z := Z.of_N (N_of_ascii c).
Definition char (b : Z) : ascii := ascii_of_N (Z.to_N b).

Definition is_ascii (c : ascii) : bool := bool_decide (byte c < 128).

(** ** unicode/utf8 *)

Definition RuneError : Z := 65533.

(** what may follow a leading byte: the size of the sequence and the bounds of
    its second byte *)
Definition lead (b : Z) : option (nat * Z * Z) :=
  if decide (194 ≤ b ≤ 223) then Some (2%nat, 128, 191)
  else if decide (b = 224) then Some (3%nat, 160, 191)
  else if decide (b = 237) then Some (3%nat, 128, 159)
  else if decide (225 ≤ b ≤ 239) then Some (3%nat, 128, 191)
  else if decide (b = 240) then Some (4%nat, 144, 191)
  else if decide (241 ≤ b ≤ 243) then Some (4%nat, 128, 191)
  else if decide (b = 244) then Some (4%nat, 128, 143)
  else None.

Definition continues (b : Z) : bool := bool_decide (128 ≤ b ≤ 191).

(** the first rune and its size; an ill-formed sequence is [RuneError] of size
    one *)
Definition DecodeRune (s : chars) : Z * nat :=
  match s with
  | [] => (RuneError, 0%nat)
  | c0 :: s1 =>
      let b0 := byte c0 in
      if decide (b0 < 128) then (b0, 1%nat)
      else match lead b0, s1 with
           | Some (n, lo, hi), c1 :: s2 =>
               let b1 := byte c1 in
               if decide (lo ≤ b1 ≤ hi) then
                 match n, s2 with
                 | 2%nat, _ => ((b0 - 192) * 64 + (b1 - 128), 2%nat)
                 | 3%nat, c2 :: _ =>
                     if continues (byte c2)
                     then ((b0 - 224) * 4096 + (b1 - 128) * 64 + (byte c2 - 128), 3%nat)
                     else (RuneError, 1%nat)
                 | 4%nat, c2 :: c3 :: _ =>
                     if continues (byte c2) && continues (byte c3)
                     then ((b0 - 240) * 262144 + (b1 - 128) * 4096 + (byte c2 - 128) * 64
                           + (byte c3 - 128), 4%nat)
                     else (RuneError, 1%nat)
                 | _, _ => (RuneError, 1%nat)
                 end
               else (RuneError, 1%nat)
           | _, _ => (RuneError, 1%nat)
           end
  end.

(** [AppendRune]: surrogates and values out of range become [RuneError] *)
Definition EncodeRune (r : Z) : chars :=
  let r := if decide (r < 0 ∨ 1114111 < r ∨ 55296 ≤ r ≤ 57343) then RuneError else r in
  if decide (r < 128) then [char r]
  else if decide (r < 2048) then [char (192 + r `div` 64); char (128 + r `mod` 64)]
  else if decide (r < 65536) then
    [char (224 + r `div` 4096); char (128 + (r `div` 64) `mod` 64); char (128 + r `mod` 64)]
  else [char (240 + r `div` 262144); char (128 + (r `div` 4096) `mod` 64);
        char (128 + (r `div` 64) `mod` 64); char (128 + r `mod` 64)].

(** [for _, r := range s]: the runes, with the bytes each stands for *)
Fixpoint range_fuel (fuel : nat) (s : chars) : list (Z * chars) :=
  match fuel, s with
  | S fuel', _ :: _ =>
      let '(r, n) := DecodeRune s in (r, take n s) :: range_fuel fuel' (drop n s)
  | _, _ => []
  end.
Definition range (s : chars) : list (Z * chars) := range_fuel (length s) s.

Lemma DecodeRune_size s : s ≠ [] → (1 ≤ snd (DecodeRune s) ≤ length s)%nat.
Proof.
  destruct s as [|c0 s1]; [done|]. intros _. unfold DecodeRune.
  repeat (case_match; simplify_eq/=); lia.
Qed.

Lemma DecodeRune_ascii c s : is_ascii c = true → DecodeRune (c :: s) = (byte c, 1%nat).
Proof. intros Hc%bool_decide_eq_true. unfold DecodeRune. by rewrite decide_True. Qed.

(** the fuel is enough: nothing of the string is lost *)
Lemma range_fuel_concat fuel s : (length s ≤ fuel)%nat → concat (snd <$> range_fuel fuel s) = s.
Proof.
  revert s. induction fuel as [|fuel IH]; intros [|c s] Hl; simpl in Hl; try done; [lia|].
  pose proof (DecodeRune_size (c :: s) ltac:(done)) as Hs. cbn [range_fuel].
  destruct (DecodeRune (c :: s)) as [r n] eqn:E. cbn [fst snd] in Hs.
  rewrite fmap_cons. cbn [concat snd]. rewrite IH; [apply take_drop|].
  rewrite length_drop. simpl in *. lia.
Qed.

Lemma range_concat s : concat (snd <$> range s) = s.
Proof. by apply range_fuel_concat. Qed.

Lemma range_fuel_nonempty fuel s rb : rb ∈ range_fuel fuel s → snd rb ≠ [].
Proof.
  revert s. induction fuel as [|fuel IH]; intros [|c s] Hin; [by inv Hin..|].
  pose proof (DecodeRune_size (c :: s) ltac:(done)) as Hs. cbn [range_fuel] in Hin.
  destruct (DecodeRune (c :: s)) as [r n] eqn:E. cbn [fst snd] in Hs.
  apply elem_of_cons in Hin as [->|Hin]; [|by eapply IH].
  cbn [snd]. destruct n; [lia|done].
Qed.

Lemma range_ascii s : forallb is_ascii s = true → range s = (λ c, (byte c, [c])) <$> s.
Proof.
  unfold range. induction s as [|c s IH]; [done|]. simpl length. cbn [range_fuel forallb].
  intros [Hc Hs]%andb_true_iff. rewrite DecodeRune_ascii by done. cbn [take drop].
  rewrite fmap_cons. f_equal. by apply IH.
Qed.

(** ** Well-formed text *)

Lemma range_fuel_enough fuel s : (length s ≤ fuel)%nat → range_fuel fuel s = range s.
Proof.
  unfold range. remember (length s) as m eqn:E. revert fuel s E.
  induction m as [m IH] using lt_wf_ind. intros fuel s -> Hf.
  destruct s as [|c s]; [by destruct fuel|]. destruct fuel as [|fuel]; [simpl in Hf; lia|].
  pose proof (DecodeRune_size (c :: s) ltac:(done)) as Hs. simpl length. cbn [range_fuel].
  destruct (DecodeRune (c :: s)) as [r n]. cbn [snd] in Hs. f_equal.
  assert (length (drop n (c :: s)) ≤ length s)%nat as Hd by (rewrite length_drop; simpl in *; lia).
  rewrite (IH (length (drop n (c :: s))) ltac:(simpl; lia) fuel _ eq_refl) by (simpl in Hf; lia).
  symmetry. by apply (IH (length (drop n (c :: s))) ltac:(simpl; lia) (length s) _ eq_refl).
Qed.

Lemma range_cons c s :
  range (c :: s) = (fst (DecodeRune (c :: s)), take (snd (DecodeRune (c :: s))) (c :: s))
                     :: range (drop (snd (DecodeRune (c :: s))) (c :: s)).
Proof.
  unfold range at 1. simpl length. cbn [range_fuel].
  pose proof (DecodeRune_size (c :: s) ltac:(done)) as Hs.
  destruct (DecodeRune (c :: s)) as [r n]. cbn [fst snd] in *. f_equal.
  apply range_fuel_enough. rewrite length_drop. simpl in *. lia.
Qed.

Lemma char_byte c : char (byte c) = c.
Proof. unfold char, byte. by rewrite N2Z.id, ascii_N_embedding. Qed.

(** a multi-byte rune is recognised from its bytes alone, and [EncodeRune]
    gives these bytes back *)
Lemma DecodeRune_app s t r n : DecodeRune s = (r, n) → (2 ≤ n)%nat → DecodeRune (take n s ++ t) = (r, n).
Proof.
  unfold DecodeRune. intros E Hn.
  repeat (case_match; simplify_eq/=; try lia); cbn [take app];
    repeat (first [rewrite decide_False by lia | rewrite decide_True by lia]; simplify_eq/=);
    repeat match goal with H : lead _ = _ |- _ => rewrite H | H : _ = true |- _ => rewrite H end;
    rewrite ?decide_True by lia; done.
Qed.

Lemma byte_range c : 0 ≤ byte c < 256.
Proof. unfold byte. pose proof (N_ascii_bounded c). lia. Qed.

Lemma char_eq c z : z = byte c → char z = c.
Proof. intros ->. apply char_byte. Qed.

Lemma lead_spec b n lo hi : lead b = Some (n, lo, hi) →
  (n = 2%nat ∧ 194 ≤ b ≤ 223 ∧ lo = 128 ∧ hi = 191)
  ∨ (n = 3%nat ∧ 224 ≤ b ≤ 239 ∧ 128 ≤ lo ∧ hi ≤ 191 ∧ (b = 224 → lo = 160) ∧ (b = 237 → hi = 159))
  ∨ (n = 4%nat ∧ 240 ≤ b ≤ 244 ∧ 128 ≤ lo ∧ hi ≤ 191 ∧ (b = 240 → lo = 144) ∧ (b = 244 → hi = 143)).
Proof. unfold lead. intros E. repeat (case_decide; simplify_eq; try lia). Qed.

Lemma EncodeRune_DecodeRune s r n :
  DecodeRune s = (r, n) → (2 ≤ n)%nat → EncodeRune r = take n s ∧ 128 ≤ r.
Proof.
  unfold DecodeRune, continues. intros E Hn.
  repeat (case_match; simplify_eq/=; try lia);
    repeat match goal with
           | H : bool_decide _ && _ = true |- _ => apply andb_true_iff in H as [? ?]
           | H : bool_decide _ = true |- _ => apply bool_decide_eq_true in H
           | H : lead _ = _ |- _ => apply lead_spec in H
           end; (split; [|lia]); unfold EncodeRune;
    rewrite (decide_False (P := _ ∨ _)) by lia;
    repeat (first [rewrite decide_False by lia | rewrite decide_True by lia]);
    repeat (f_equal; try (apply char_eq; Z.to_euclidean_division_equations; lia)).
Qed.

(** [utf8.ValidString] *)
Definition valid_utf8 (s : chars) : bool :=
  forallb (λ rb, match snd rb with [c] => is_ascii c | _ => true end) (range s).

Lemma valid_utf8_ascii s : forallb is_ascii s = true → valid_utf8 s = true.
Proof.
  intros Hs. unfold valid_utf8. rewrite range_ascii by done.
  induction s as [|c s IH]; [done|]. simpl in *. apply andb_true_iff in Hs as [-> Hs]. by apply IH.
Qed.

(** by the first rune *)
Lemma valid_utf8_cons c s :
  valid_utf8 (c :: s) = true →
  let '(r, n) := DecodeRune (c :: s) in
  ((n = 1%nat ∧ is_ascii c = true) ∨ (2 ≤ n)%nat) ∧ valid_utf8 (drop n (c :: s)) = true.
Proof.
  unfold valid_utf8. rewrite range_cons. cbn [forallb].
  pose proof (DecodeRune_size (c :: s) ltac:(done)) as Hs.
  destruct (DecodeRune (c :: s)) as [r n]. cbn [fst snd] in *. intros [Hc Hv]%andb_true_iff.
  split; [|done]. destruct n as [|[|n]]; [lia|left|right; lia]. done.
Qed.

(** a rune whose bytes are decoded the same wherever they stand *)
Definition rune_ok (rb : Z * chars) : Prop :=
  snd rb ≠ [] ∧ ∀ t, DecodeRune (snd rb ++ t) = (fst rb, length (snd rb)).

(** a decoding is [RuneError], or sound *)
Lemma DecodeRune_ok s r n : s ≠ [] → DecodeRune s = (r, n) → r ≠ RuneError → rune_ok (r, take n s).
Proof.
  intros Hs E Hr. pose proof (DecodeRune_size s Hs) as Hsize. rewrite E in Hsize. cbn [snd] in Hsize.
  assert (length (take n s) = n) as Hlen by (rewrite length_take; lia).
  split; cbn [fst snd]; [intros H0; rewrite H0 in Hlen; simpl in Hlen; lia|]. intros t. rewrite Hlen.
  destruct (decide (2 ≤ n)%nat) as [Hn|Hn]; [by apply DecodeRune_app|].
  assert (n = 1%nat) as -> by lia. destruct s as [|c s]; [done|].
  destruct (is_ascii c) eqn:Hc.
  - rewrite DecodeRune_ascii in E by done. simplify_eq. simpl. by apply DecodeRune_ascii.
  - exfalso. apply bool_decide_eq_false in Hc. unfold DecodeRune in E. rewrite decide_False in E by done.
    repeat (case_match; simplify_eq/=; try lia).
Qed.

Lemma range_ok s rb : rb ∈ range s → fst rb ≠ RuneError → rune_ok rb.
Proof.
  remember (length s) as m eqn:Em. revert s Em. induction m as [m IH] using lt_wf_ind. intros s -> Hin Hr.
  destruct s as [|c s]; [by apply not_elem_of_nil in Hin|]. rewrite range_cons in Hin.
  pose proof (DecodeRune_size (c :: s) ltac:(done)) as Hs. apply elem_of_cons in Hin as [->|Hin].
  - by apply (DecodeRune_ok (c :: s)); [|by destruct (DecodeRune _)|].
  - refine (IH _ _ _ eq_refl Hin Hr). rewrite length_drop. simpl in *. lia.
Qed.

Lemma range_pieces l : Forall rune_ok l → range (concat (snd <$> l)) = l.
Proof.
  induction 1 as [|[r b] l [Hb Hd] Hl IH]; [done|]. cbn [fmap list_fmap concat fst snd] in *.
  destruct b as [|c b]; [done|]. specialize (Hd (concat (snd <$> l))). cbn [app] in *.
  rewrite range_cons, Hd. cbn [fst snd]. change (c :: b ++ ?u) with ((c :: b) ++ u).
  rewrite take_app_length, drop_app_length. by rewrite IH.
Qed.

(** ** strings.FieldsFunc *)

(** the field being collected, and the runes to come *)
Fixpoint fields_loop (f : Z → bool) (cur : option chars) (rs : list (Z * chars)) : list chars :=
  match rs with
  | [] => match cur with Some w => [w] | None => [] end
  | (r, b) :: rs' =>
      if f r then
        match cur with
        | Some w => w :: fields_loop f None rs'
        | None => fields_loop f None rs'
        end
      else fields_loop f (Some (default [] cur ++ b)) rs'
  end.
Definition FieldsFunc (s : chars) (f : Z → bool) : list chars := fields_loop f None (range s).

Lemma fields_loop_words f (cur : option (list (Z * chars))) rs w :
  w ∈ fields_loop f ((λ l, concat (snd <$> l)) <$> cur) rs →
  Forall (λ rb, f (fst rb) = false) (default [] cur) → cur ≠ Some [] →
  ∃ l, l ≠ [] ∧ w = concat (snd <$> l) ∧ Forall (λ rb, f (fst rb) = false) l
    ∧ ∀ rb, rb ∈ l → rb ∈ default [] cur ++ rs.
Proof.
  revert cur. induction rs as [|[r b] rs IH]; intros cur Hw Hcur Hne; cbn [fields_loop] in Hw.
  - destruct cur as [l|]; cbn [fmap option_fmap option_map] in Hw; [|by apply not_elem_of_nil in Hw].
    apply list_elem_of_singleton in Hw as ->. exists l. split_and!; [congruence|done|done|]. simpl. set_solver.
  - destruct (f r) eqn:Hf.
    + assert (w ∈ fields_loop f None rs → ∃ l, l ≠ [] ∧ w = concat (snd <$> l)
                ∧ Forall (λ rb, f (fst rb) = false) l ∧ ∀ rb, rb ∈ l → rb ∈ default [] cur ++ (r, b) :: rs) as Hrest.
      { intros Hin. destruct (IH None Hin) as (l & ? & ? & ? & Hl); [constructor|done|].
        exists l. split_and!; try done. intros rb Hrb. specialize (Hl rb Hrb). simpl in Hl. set_solver. }
      destruct cur as [l|]; [|by apply Hrest]. cbn [fmap option_fmap option_map] in Hw.
      apply elem_of_cons in Hw as [->|Hw]; [|by apply Hrest].
      exists l. split_and!; [congruence|done|done|]. simpl. set_solver.
    + destruct (IH (Some (default [] cur ++ [(r, b)]))) as (l & ? & ? & ? & Hl).
      * cbn [fmap option_fmap option_map]. rewrite fmap_app, concat_app. cbn [fmap list_fmap concat snd].
        rewrite app_nil_r. by destruct cur.
      * simpl. apply Forall_app. split; [done|]. by constructor.
      * by destruct cur as [[]|].
      * exists l. split_and!; try done. intros rb Hrb. specialize (Hl rb Hrb). simpl in Hl. set_solver.
Qed.

(** a field is a non-empty run of runes of the text that are no separators *)
Lemma FieldsFunc_words f s w :
  w ∈ FieldsFunc s f →
  ∃ l, l ≠ [] ∧ w = concat (snd <$> l) ∧ Forall (λ rb, f (fst rb) = false ∧ rb ∈ range s) l.
Proof.
  intros Hw. destruct (fields_loop_words f None (range s) w Hw) as (l & Hne & Hl & Hf & Hin); [constructor|done|].
  exists l. split_and!; [done|done|]. rewrite Forall_forall in *. eauto.
Qed.

(** ** strconv *)

Fixpoint uint_chars (d : Decimal.uint) : chars :=
  match d with
  | Decimal.Nil => []
  | Decimal.D0 d => "0"%char :: uint_chars d
  | Decimal.D1 d => "1"%char :: uint_chars d
  | Decimal.D2 d => "2"%char :: uint_chars d
  | Decimal.D3 d => "3"%char :: uint_chars d
  | Decimal.D4 d => "4"%char :: uint_chars d
  | Decimal.D5 d => "5"%char :: uint_chars d
  | Decimal.D6 d => "6"%char :: uint_chars d
  | Decimal.D7 d => "7"%char :: uint_chars d
  | Decimal.D8 d => "8"%char :: uint_chars d
  | Decimal.D9 d => "9"%char :: uint_chars d
  end.

Definition digit (c : ascii) : option (Decimal.uint → Decimal.uint) :=
  match c with
  | "0"%char => Some Decimal.D0 | "1"%char => Some Decimal.D1 | "2"%char => Some Decimal.D2
  | "3"%char => Some Decimal.D3 | "4"%char => Some Decimal.D4 | "5"%char => Some Decimal.D5
  | "6"%char => Some Decimal.D6 | "7"%char => Some Decimal.D7 | "8"%char => Some Decimal.D8
  | "9"%char => Some Decimal.D9
  | _ => None
  end.
Definition is_digit (c : ascii) : bool := bool_decide (is_Some (digit c)).

Fixpoint chars_uint (l : chars) : option Decimal.uint :=
  match l with
  | [] => Some Decimal.Nil
  | c :: l' => D ← digit c; D <$> chars_uint l'
  end.

Definition nat_chars (n : N) : chars := uint_chars (N.to_uint n).

(** [strconv.Itoa] *)
Definition Itoa (z : Z) : chars :=
  if decide (z < 0) then "-"%char :: nat_chars (Z.to_N (- z)) else nat_chars (Z.to_N z).

(** [strconv.ParseInt(s, 10, 64)] *)
Definition ParseInt (l : chars) : option Z :=
  let '(neg, ds) := match l with
                    | "-"%char :: r => (true, r)
                    | "+"%char :: r => (false, r)
                    | _ => (false, l)
                    end in
  match ds with
  | [] => None
  | _ =>
      d ← chars_uint ds;
      let v := Z.of_N (N.of_uint d) in
      if neg : bool then if decide (v ≤ 2 ^ 63) then Some (- v) else None
      else if decide (v < 2 ^ 63) then Some v else None
  end.

(** [strconv.ParseUint(s, 10, 64)] *)
Definition ParseUint (l : chars) : option Z :=
  match l with
  | [] => None
  | _ =>
      d ← chars_uint l;
      let v := Z.of_N (N.of_uint d) in
      if decide (v < u64_mod) then Some v else None
  end.

(** the values of an [int] *)
Definition int_ok (z : Z) : bool := bool_decide (- 2 ^ 63 ≤ z < 2 ^ 63).

Lemma chars_uint_chars d : chars_uint (uint_chars d) = Some d.
Proof. induction d; simpl; by rewrite ?IHd. Qed.

Lemma uint_chars_digits d : forallb is_digit (uint_chars d) = true.
Proof. induction d; simpl; by rewrite ?IHd. Qed.

Lemma nat_chars_nonempty n : nat_chars n ≠ [].
Proof.
  unfold nat_chars. pose proof (DecimalN.Unsigned.to_of (N.to_uint n)) as E.
  rewrite DecimalN.Unsigned.of_to in E.
  pose proof (DecimalFacts.unorm_nonnil (N.to_uint n)) as Hn. rewrite <-E in Hn.
  by destruct (N.to_uint n).
Qed.

(** no leading zero *)
Lemma nat_chars_leading n l : nat_chars n = "0"%char :: l → l = [].
Proof.
  unfold nat_chars. pose proof (DecimalN.Unsigned.to_of (N.to_uint n)) as E.
  rewrite DecimalN.Unsigned.of_to in E. destruct (N.to_uint n) as [|d| | | | | | | | |]; try done.
  intros [= <-].
  assert (Decimal.nzhead (Decimal.D0 d) = Decimal.Nil ∨ Decimal.nzhead (Decimal.D0 d) ≠ Decimal.Nil) as [Hz|Hz]
    by (destruct (Decimal.nzhead (Decimal.D0 d)); auto).
  - apply DecimalFacts.unorm_0 in Hz. rewrite Hz in E. by injection E as ->.
  - rewrite DecimalFacts.unorm_nzhead in E by done.
    by destruct (DecimalFacts.nzhead_nonzero (Decimal.D0 d) d).
Qed.

Lemma chars_uint_nat n : chars_uint (nat_chars n) = Some (N.to_uint n).
Proof. apply chars_uint_chars. Qed.

Lemma nat_chars_no_sign n c l : nat_chars n = c :: l → is_digit c = true.
Proof.
  intros E. pose proof (uint_chars_digits (N.to_uint n)) as Hd. fold (nat_chars n) in Hd.
  rewrite E in Hd. simpl in Hd. by apply andb_true_iff in Hd as [? _].
Qed.

Lemma ParseUint_Itoa z : 0 ≤ z < u64_mod → ParseUint (Itoa z) = Some z.
Proof.
  intros Hz. unfold ParseUint, Itoa. rewrite decide_False by lia.
  destruct (nat_chars (Z.to_N z)) as [|c l] eqn:E; [by apply nat_chars_nonempty in E|].
  rewrite <-E, chars_uint_nat. simpl. rewrite DecimalN.Unsigned.of_to, Z2N.id by lia.
  by rewrite decide_True by lia.
Qed.

Lemma ParseInt_Itoa z : int_ok z = true → ParseInt (Itoa z) = Some z.
Proof.
  intros Hz%bool_decide_eq_true. unfold ParseInt, Itoa. case_decide as Hneg.
  - destruct (nat_chars (Z.to_N (- z))) as [|c l] eqn:E; [by apply nat_chars_nonempty in E|].
    rewrite <-E, chars_uint_nat. simpl. rewrite DecimalN.Unsigned.of_to, Z2N.id by lia.
    rewrite decide_True by lia. f_equal. lia.
  - destruct (nat_chars (Z.to_N z)) as [|c l] eqn:E; [by apply nat_chars_nonempty in E|].
    pose proof (nat_chars_no_sign _ _ _ E) as Hc.
    assert ((match c :: l with "-"%char :: r => (true, r) | "+"%char :: r => (false, r)
             | _ => (false, c :: l) end) = (false, c :: l)) as ->.
    { destruct c as [[] [] [] [] [] [] [] []]; done || (vm_compute in Hc; done). }
    rewrite <-E, chars_uint_nat. simpl. rewrite DecimalN.Unsigned.of_to, Z2N.id by lia.
    by rewrite decide_True by lia.
Qed.
