(* ===== verification/Labgob.v ===== *)
(** * labgob: checks around encoding/gob (labgob/labgob.go)

    The encoder and decoder of the repository warn about what gob does
    silently: fields it leaves out because their names are not capitalized
    ([checkType], a walk over the graph of types that is shared by all
    goroutines), and variables that hold something before a value is decoded
    into them ([checkDefault], a walk over the value).  gob itself is a
    parameter.

    Types and values are what package reflect tells about them.  A type is
    known by its number in the table [types]; recursive types are cycles of
    the table, recursive values are cycles of the heap. *)

From S2P Require Import Prelude GoText.
Local Open Scope Z_scope.

(** ** unicode.IsUpper

    Go's table of Latin-1 properties, and a parameter above it. *)
Class UpperTable := Upper : Z → bool.

Definition IsUpper `{UpperTable} (r : Z) : bool :=
  if decide (r ≤ 255) then bool_decide (65 ≤ r ≤ 90 ∨ 192 ≤ r ≤ 214 ∨ 216 ≤ r ≤ 222) else Upper r.

(** ** Types *)

Abbreviation rtype := nat.

Record StructField := {
  f_Name : string;
  f_Type : rtype;
  Anonymous : bool   (** an embedded field *)
}.

Inductive Kind :=
| Struct (fields : list StructField)
| Slice (elem : rtype)
| Array (elem : rtype)
| Ptr (elem : rtype)
| Map (elem key : rtype)
| Other.             (** numbers, strings, interfaces, functions, ... *)

Record type_info := { t_Name : string; t_Kind : Kind }.

(** [rune, _ := utf8.DecodeRuneInString(f.Name)]; [unicode.IsUpper(rune)],
    which is also when the compiler exports the field *)
Definition capitalized `{UpperTable} (f : StructField) : bool :=
  IsUpper (fst (DecodeRune (to_chars (f_Name f)))).

(** ** The package's state, and what it prints *)

Inductive warning :=
| LowerCase (fname tname : string)
| NonDefault (what : string).
#[export] Instance warning_eq_dec : EqDecision warning.
Proof. solve_decision. Defined.

(** [checked] is [None] before the map is made; it maps to [true] only *)
Record labgob := {
  errorCount : Z;
  checked : option (gset rtype);
  printed : list warning
}.

Definition init_labgob : labgob := {| errorCount := 0; checked := None; printed := [] |}.

Definition seen (g : labgob) : gset rtype := default ∅ (checked g).

Definition mark (t : rtype) (g : labgob) : labgob :=
  {| errorCount := errorCount g; checked := Some ({[t]} ∪ seen g); printed := printed g |}.

Definition complain (w : warning) (g : labgob) : labgob :=
  {| errorCount := errorCount g + 1; checked := checked g; printed := printed g ++ [w] |}.

(** the map is made when it is nil, and then not replaced *)
Definition make_checked (g : labgob) : labgob :=
  {| errorCount := errorCount g; checked := Some (seen g); printed := printed g |}.

Section types.
Context `{UpperTable} (types : gmap rtype type_info).

(** ** checkType

    The critical section that reads and sets [checked[t]] is one step; [None]
    is a walk that ran out of fuel or met a type that is not in the table. *)

Definition check_field (visit : rtype → labgob → option labgob) (tname : string)
    (og : option labgob) (f : StructField) : option labgob :=
  g ← og;
  visit (f_Type f) (if capitalized f then g else complain (LowerCase (f_Name f) tname) g).

Fixpoint checkType (fuel : nat) (t : rtype) (g : labgob) : option labgob :=
  match fuel, types !! t with
  | S fuel', Some i =>
      let g := make_checked g in
      if decide (t ∈ seen g) then Some g
      else
        let g := mark t g in
        match t_Kind i with
        | Struct fields => fold_left (check_field (checkType fuel') (t_Name i)) fields (Some g)
        | Slice e | Array e | Ptr e => checkType fuel' e g
        | Map e k => g ← checkType fuel' e g; checkType fuel' k g
        | Other => Some g
        end
  | _, _ => None
  end.

(** the fuel that is always enough: the types, and one for a type seen *)
Definition checkType_all (t : rtype) (g : labgob) : option labgob := checkType (S (size types)) t g.

(** ** The same walk by several goroutines

    A goroutine is the list of the calls and reports it has still to make. *)

Inductive work :=
| Visit (t : rtype)
| Report (w : warning).

Definition field_work (tname : string) (f : StructField) : list work :=
  (if capitalized f then [] else [Report (LowerCase (f_Name f) tname)]) ++ [Visit (f_Type f)].

Definition kind_work (i : type_info) : list work :=
  match t_Kind i with
  | Struct fields => fields ≫= field_work (t_Name i)
  | Slice e | Array e | Ptr e => [Visit e]
  | Map e k => [Visit e; Visit k]
  | Other => []
  end.

(** what is to be done for a type that was not seen *)
Definition work_of (t : rtype) : list work := from_option kind_work [] (types !! t).

Definition exec (w : work) (g : labgob) : list work * labgob :=
  match w with
  | Visit t =>
      let g := make_checked g in
      if decide (t ∈ seen g) then ([], g) else (work_of t, mark t g)
  | Report m => ([], complain m g)
  end.

(** goroutine [i] makes its next step *)
Definition go_step (i : nat) (s : list (list work) * labgob) : option (list (list work) * labgob) :=
  match s.1 !! i with
  | Some (w :: k) => let '(p, g) := exec w s.2 in Some (<[i := p ++ k]> s.1, g)
  | _ => None
  end.

Fixpoint go_run (sched : list nat) (s : list (list work) * labgob) : option (list (list work) * labgob) :=
  match sched with [] => Some s | i :: sched' => s' ← go_step i s; go_run sched' s' end.

(** ** Which types a walk reaches, and what it says *)

Definition child (t u : rtype) : Prop := Visit u ∈ work_of t.

Definition report_of (w : work) : option warning := match w with Report m => Some m | _ => None end.
(** the lower-case fields of a type *)
Definition lower_fields (t : rtype) : list warning := omap report_of (work_of t).

(** every type that is mentioned is in the table *)
Definition closed : Prop := ∀ t u, child t u → is_Some (types !! u).

(** ** One goroutine does what [checkType] does *)

Inductive work_step : list work * labgob → list work * labgob → Prop :=
| one_work w k g : work_step (w :: k, g) ((exec w g).1 ++ k, (exec w g).2).

Lemma fold_none visit tname fs : fold_left (check_field visit tname) fs None = None.
Proof. by induction fs. Qed.

Lemma fields_steps fuel tname fs k g g' :
  (∀ t k g g', checkType fuel t g = Some g' → rtc work_step (Visit t :: k, g) (k, g')) →
  fold_left (check_field (checkType fuel) tname) fs (Some g) = Some g' →
  rtc work_step ((fs ≫= field_work tname) ++ k, g) (k, g').
Proof.
  intros IH. revert g. induction fs as [|f fs IHf]; intros g; simpl; [by intros [= ->]|].
  destruct (checkType fuel (f_Type f) _) as [g1|] eqn:E; [|by rewrite fold_none].
  intros Hf%IHf. etrans; [|exact Hf]. clear Hf. unfold field_work. rewrite <-!app_assoc. simpl.
  destruct (capitalized f); simpl; [by apply IH|].
  eapply rtc_l; [apply one_work|]. by apply IH.
Qed.

Lemma checkType_steps fuel t k g g' : checkType fuel t g = Some g' → rtc work_step (Visit t :: k, g) (k, g').
Proof.
  revert t k g g'. induction fuel as [|fuel IH]; intros t k g g'; simpl; [done|].
  destruct (types !! t) as [i|] eqn:Ht; [|done]. intros E.
  eapply rtc_l; [apply one_work|]. simpl. unfold work_of. rewrite Ht. simpl.
  destruct (decide (t ∈ seen (make_checked g))); [by injection E as <-|]. unfold kind_work.
  destruct (t_Kind i) as [fs|e|e|e|e key|]; simpl in *; try by apply IH.
  - by eapply fields_steps.
  - destruct (checkType fuel e _) as [g1|] eqn:E1; [|done]. etrans; by apply IH.
  - by injection E as <-.
Qed.

Lemma seen_make g : seen (make_checked g) = seen g.
Proof. done. Qed.

Lemma exec_grows w g : seen g ⊆ seen (exec w g).2.
Proof.
  destruct w as [t|m]; [|done]. unfold exec. destruct (decide _); [done|]. unfold seen. simpl. set_solver.
Qed.

Lemma steps_grow s s' : rtc work_step s s' → seen s.2 ⊆ seen s'.2.
Proof. induction 1 as [|? ? ? [w k g] _ IH]; [done|]. pose proof (exec_grows w g). set_solver. Qed.

(** ** The walk ends *)

Lemma fields_total fuel tname fs g (T : gset rtype) :
  (∀ t g, is_Some (types !! t) → T ⊆ seen g → ∃ g', checkType fuel t g = Some g') →
  (∀ f, f ∈ fs → is_Some (types !! f_Type f)) → T ⊆ seen g →
  ∃ g', fold_left (check_field (checkType fuel) tname) fs (Some g) = Some g'.
Proof.
  intros IH. revert g. induction fs as [|f fs IHf]; intros g Hfs HT; simpl; [eauto|].
  destruct (IH (f_Type f) (if capitalized f then g else complain (LowerCase (f_Name f) tname) g)) as [g1 E];
    [apply Hfs; by left|by destruct (capitalized f)|]. rewrite E.
  apply IHf; [intros; apply Hfs; by right|]. pose proof (steps_grow _ _ (checkType_steps _ _ [] _ _ E)) as Hg.
  simpl in Hg. destruct (capitalized f); set_solver.
Qed.

Definition unseen (g : labgob) : nat := size (dom types ∖ seen g).

Lemma checkType_enough fuel t g : closed → is_Some (types !! t) → (unseen g < fuel)%nat →
  ∃ g', checkType fuel t g = Some g'.
Proof.
  intros Hc. revert t g. induction fuel as [|fuel IH]; intros t g Ht Hf; [lia|]. simpl.
  destruct Ht as [i Ht]. rewrite Ht. rewrite seen_make. case_decide as Hs; [eauto|].
  set (g1 := mark t (make_checked g)).
  assert (∀ t' g', is_Some (types !! t') → seen g1 ⊆ seen g' → ∃ g'', checkType fuel t' g' = Some g'') as Hrec.
  { intros t' g' Ht' Hsub. apply IH; [done|]. unfold unseen in *.
    assert (dom types ∖ seen g' ⊂ dom types ∖ seen g) as Hlt%subset_size; [|lia].
    apply elem_of_dom_2 in Ht. unfold g1, seen in Hsub. simpl in Hsub. unfold seen in *. split; [set_solver|].
    intros Hd. specialize (Hd t). set_solver. }
  assert (∀ u, Visit u ∈ kind_work i → is_Some (types !! u)) as Hch.
  { intros u Hu. apply (Hc t u). unfold child, work_of. by rewrite Ht. }
  unfold kind_work in Hch. destruct (t_Kind i) as [fs|e|e|e|e key|]; try (apply Hrec; [apply Hch; left|done]).
  - eapply fields_total; [exact Hrec| |done]. intros f Hin. apply Hch.
    apply list_elem_of_bind. exists f. split; [|done]. unfold field_work. apply elem_of_app. right. by left.
  - destruct (Hrec e g1) as [g2 E]; [apply Hch; by left|done|]. rewrite E. simpl.
    apply Hrec; [apply Hch; right; by left|]. by apply (steps_grow _ _ (checkType_steps _ _ [] _ _ E)).
  - eauto.
Qed.

(** ** Any number of goroutines *)

(** what is left to do, in no order *)
Definition pending (ths : list (list work)) : list work := mjoin ths.

Lemma pending_insert ths i w k p : ths !! i = Some (w :: k) → ∃ rest,
  pending ths ≡ₚ w :: rest ∧ pending (<[i := p ++ k]> ths) ≡ₚ p ++ rest.
Proof.
  intros Hi. exists (k ++ mjoin (take i ths) ++ mjoin (drop (S i) ths)). unfold pending.
  split.
  - rewrite <-(take_drop_middle ths i (w :: k)) at 1 by done. rewrite join_app. simpl. solve_Permutation.
  - rewrite insert_take_drop by (by eapply lookup_lt_Some). rewrite join_app. simpl. solve_Permutation.
Qed.

Lemma go_step_inv i s s' : go_step i s = Some s' → ∃ w rest,
  pending s.1 ≡ₚ w :: rest ∧ pending s'.1 ≡ₚ (exec w s.2).1 ++ rest ∧ s'.2 = (exec w s.2).2.
Proof.
  destruct s as [ths g]. unfold go_step. cbn [fst snd].
  destruct (ths !! i) as [[|w k]|] eqn:Hi; try done. destruct (exec w g) as [p g'] eqn:E. intros [= <-]. simpl.
  destruct (pending_insert ths i w k p Hi) as (rest & H1 & H2). exists w, rest. by rewrite E.
Qed.

Lemma go_run_ind (P : list (list work) * labgob → Prop) sched s s' :
  (∀ i s s', P s → go_step i s = Some s' → P s') → P s → go_run sched s = Some s' → P s'.
Proof.
  intros Hstep. revert s. induction sched as [|i sched IH]; intros s Hs; simpl; [by intros [= <-]|].
  intros (s1 & E & Hr)%bind_Some. eapply IH; [by eapply Hstep|done].
Qed.

(** every goroutine checks some types one after the other *)
Definition calls (roots : list (list rtype)) : list (list work) := fmap (M:=list) Visit <$> roots.

Record walk_inv (roots : list rtype) (s : list (list work) * labgob) : Prop := {
  w_closed : ∀ u v, u ∈ seen s.2 → child u v → v ∈ seen s.2 ∨ Visit v ∈ pending s.1;
  w_reach : ∀ v, v ∈ seen s.2 ∨ Visit v ∈ pending s.1 → ∃ t, t ∈ roots ∧ rtc child t v;
  w_roots : ∀ t, t ∈ roots → t ∈ seen s.2 ∨ Visit t ∈ pending s.1;
  w_reports : printed s.2 ++ omap report_of (pending s.1) ≡ₚ (elements (seen s.2) ≫= lower_fields);
  w_count : errorCount s.2 = zlen (printed s.2)
}.

Lemma pending_calls roots : pending (calls roots) = Visit <$> mjoin roots.
Proof.
  unfold pending, calls. induction roots as [|ts roots IH]; [done|].
  change ((Visit <$> ts) ++ mjoin (fmap (M:=list) Visit <$> roots) = Visit <$> ts ++ mjoin roots).
  by rewrite IH, fmap_app.
Qed.

Lemma walk_start roots : walk_inv (mjoin roots) (calls roots, init_labgob).
Proof.
  assert (∀ v, Visit v ∈ pending (calls roots) ↔ v ∈ mjoin roots) as Hv.
  { intros v. rewrite pending_calls, list_elem_of_fmap. naive_solver. }
  split; simpl; unfold seen; simpl; [set_solver| | | |done].
  - intros v [|Hin%Hv]; [set_solver|]. by exists v.
  - intros t Ht. right. by apply Hv.
  - rewrite pending_calls, elements_empty. clear Hv. by induction (mjoin roots).
Qed.

Lemma walk_step roots i s s' : walk_inv roots s → go_step i s = Some s' → walk_inv roots s'.
Proof.
  destruct s as [ths g], s' as [ths' g']. intros [H1 H2 H3 H4 H5] (w & rest & Hp & Hp' & Hg)%go_step_inv.
  cbn [fst snd] in *.
  assert (∀ v, Visit v ∈ pending ths ↔ Visit v = w ∨ Visit v ∈ rest) as Hpe by (intros v; by rewrite Hp, elem_of_cons).
  assert (∀ v, Visit v ∈ pending ths' ↔ Visit v ∈ (exec w g).1 ∨ Visit v ∈ rest) as Hpe'
    by (intros v; by rewrite Hp', elem_of_app).
  rewrite Hp in H4. destruct w as [t|m]; unfold exec in *.
  - destruct (decide (t ∈ seen (make_checked g))) as [Hs|Hs]; rewrite seen_make in Hs; cbn [fst snd] in *; subst g'.
    + split; cbn [fst snd]; rewrite ?seen_make; try setoid_rewrite Hpe'.
      * intros u v Hu Hc. destruct (H1 u v Hu Hc) as [|[[= ->]|]%Hpe]; auto.
      * intros v Hv. apply H2. rewrite Hpe. destruct Hv as [|[[]%not_elem_of_nil|]]; auto.
      * intros t' Ht'. destruct (H3 t' Ht') as [|[[= ->]|]%Hpe]; auto.
      * by rewrite Hp'.
      * done.
    + assert (seen (mark t (make_checked g)) = {[t]} ∪ seen g) as Hseen by done.
      split; cbn [fst snd]; rewrite ?Hseen; try setoid_rewrite Hpe'.
      * intros u v [->%elem_of_singleton|Hu]%elem_of_union Hc; [right; by left|].
        destruct (H1 u v Hu Hc) as [|[[= ->]|]%Hpe]; set_solver.
      * destruct (H2 t) as (r & Hr & Hrt); [right; rewrite Hpe; by left|].
        intros v [[->%elem_of_singleton|Hv]%elem_of_union|[Hv|Hv]]; [by exists r| |exists r; split; [done|]; by eapply rtc_r|];
          apply H2; [by left|right; rewrite Hpe; by right].
      * intros t' Ht'. destruct (H3 t' Ht') as [|[[= ->]|]%Hpe]; set_solver.
      * rewrite Hp', omap_app, elements_union_singleton by done. simpl. rewrite <-H4. simpl. unfold lower_fields. solve_Permutation.
      * done.
  - cbn [fst snd] in *. subst g'. split; cbn [fst snd]; try setoid_rewrite Hpe'.
    + intros u v Hu Hc. destruct (H1 u v Hu Hc) as [|[|]%Hpe]; auto; done.
    + intros v Hv. apply H2. rewrite Hpe. destruct Hv as [|[[]%not_elem_of_nil|]]; auto.
    + intros t' Ht'. destruct (H3 t' Ht') as [|[|]%Hpe]; auto; done.
    + change (seen (complain m g)) with (seen g). rewrite Hp', <-H4. simpl. solve_Permutation.
    + simpl. rewrite H5. unfold zlen. rewrite length_app. simpl. lia.
Qed.

(** every type is visited once: a run is as long as this at most *)
Definition unseen_work (g : labgob) : nat :=
  sum_list_with (λ t, length (work_of t)) (elements (dom types ∖ seen g)).
Definition potential (s : list (list work) * labgob) : nat := (length (pending s.1) + unseen_work s.2)%nat.

Lemma go_step_potential i s s' : go_step i s = Some s' → (potential s' + 1 ≤ potential s)%nat.
Proof.
  destruct s as [ths g], s' as [ths' g']. intros (w & rest & Hp & Hp' & Hg)%go_step_inv.
  unfold potential. cbn [fst snd] in *. rewrite Hp, Hp', length_app. simpl length.
  destruct w as [t|m]; unfold exec in *;
    [|subst g'; cbn [fst snd]; change (unseen_work (complain m g)) with (unseen_work g); simpl; lia].
  destruct (decide (t ∈ seen (make_checked g))) as [Hs|Hs]; rewrite seen_make in Hs; cbn [fst snd] in *; subst g';
    [change (unseen_work (make_checked g)) with (unseen_work g); simpl; lia|].
  unfold unseen_work. change (seen (mark t (make_checked g))) with ({[t]} ∪ seen g).
  destruct (decide (t ∈ dom types)) as [Hd|Hd].
  - assert (dom types ∖ seen g = {[t]} ∪ dom types ∖ ({[t]} ∪ seen g)) as ->.
    { apply set_eq. intros x. destruct (decide (x = t)); set_solver. }
    rewrite elements_union_singleton by set_solver. simpl. lia.
  - replace (dom types ∖ ({[t]} ∪ seen g)) with (dom types ∖ seen g) by set_solver.
    assert (work_of t = []) as -> by (unfold work_of; by rewrite (not_elem_of_dom_1 _ _ Hd)). simpl. lia.
Qed.

(** The walks of all goroutines end. *)
Lemma go_run_bounded sched s s' : go_run sched s = Some s' → (length sched + potential s' ≤ potential s)%nat.
Proof.
  revert s. induction sched as [|i sched IH]; intros s; simpl; [by intros [= ->]|].
  intros (s1 & E%go_step_potential & Hr%IH)%bind_Some. lia.
Qed.

(** the lower-case fields of the types reachable from [roots], each once *)
Definition reported (roots : list rtype) (l : list warning) : Prop :=
  ∃ ts : gset rtype, (∀ t, t ∈ ts ↔ ∃ r, r ∈ roots ∧ rtc child r t) ∧ l ≡ₚ (elements ts ≫= lower_fields).

Lemma walks_report roots s : walk_inv roots s → pending s.1 = [] → reported roots (printed s.2).
Proof.
  intros [H1 H2 H3 H4 _] Hp. rewrite Hp in *. simpl in H4. rewrite app_nil_r in H4.
  exists (seen s.2). split; [|done]. intros t. split; [intros Ht; apply H2; by left|].
  assert (∀ a b, rtc child a b → a ∈ seen s.2 → b ∈ seen s.2) as Hcl.
  { induction 1 as [|a c b Hc _ IH]; [done|]. intros Ha. apply IH.
    destruct (H1 a c Ha Hc) as [|[]%not_elem_of_nil]; done. }
  intros (r & Hr & Hrt). eapply Hcl; [done|]. by destruct (H3 r Hr) as [|[]%not_elem_of_nil].
Qed.

(** one goroutine, as a schedule *)
Lemma steps_run k g k' g' : rtc work_step (k, g) (k', g') → ∃ sched, go_run sched ([k], g) = Some ([k'], g').
Proof.
  intros Hr. change k' with ((k', g').1). change g' with ((k', g').2) at 2.
  change k with ((k, g).1). change g with ((k, g).2) at 2. generalize dependent (k', g'). generalize (k, g).
  clear. intros s s'. induction 1 as [s|? ? s' [w k g] _ [sched IH]]; [by exists []|].
  exists (0%nat :: sched). simpl. unfold go_step. simpl. destruct (exec w g) as [p g1]. exact IH.
Qed.

(** the values encoded by one goroutine, one after the other *)
Fixpoint checkTypes (ts : list rtype) (g : labgob) : option labgob :=
  match ts with [] => Some g | t :: ts' => g' ← checkType_all t g; checkTypes ts' g' end.

Lemma checkTypes_steps ts k g g' : checkTypes ts g = Some g' → rtc work_step ((Visit <$> ts) ++ k, g) (k, g').
Proof.
  revert g. induction ts as [|t ts IH]; intros g; simpl; [by intros [= ->]|].
  intros (g1 & E & Hr)%bind_Some. etrans; [by eapply checkType_steps|by apply IH].
Qed.

Lemma checkType_all_total t g : closed → is_Some (types !! t) → ∃ g', checkType_all t g = Some g'.
Proof.
  intros Hc Ht. apply checkType_enough; [done..|]. unfold unseen.
  assert (size (dom types ∖ seen g) ≤ size (dom types))%nat by (apply subseteq_size; set_solver).
  rewrite size_dom in *. lia.
Qed.

Lemma checkTypes_total ts g : closed → Forall (λ t, is_Some (types !! t)) ts → ∃ g', checkTypes ts g = Some g'.
Proof.
  intros Hc. revert g. induction ts as [|t ts IH]; intros g Hts; simpl; [eauto|].
  apply Forall_cons in Hts as [Ht Hts]. destruct (checkType_all_total t g Hc Ht) as [g1 ->]. by apply IH.
Qed.

Lemma run_reports roots sched s : go_run sched (calls roots, init_labgob) = Some s → pending s.1 = [] →
  reported (mjoin roots) (printed s.2) ∧ errorCount s.2 = zlen (printed s.2).
Proof.
  intros Hrun Hp. assert (walk_inv (mjoin roots) s) as HI.
  { eapply (go_run_ind (walk_inv (mjoin roots))); [|apply walk_start|exact Hrun]. intros. by eapply walk_step. }
  split; [by apply walks_report|]. by destruct HI.
Qed.

(** C32. The check of capital letters ends, and every field that is not
    capitalized is reported exactly once: one goroutine that encodes any
    values, and any number of them at the same time, in whatever order they
    take their steps, print one line for each lower-case field of the types
    that can be reached from those of the values, and count the lines;
    recursive types and types seen before make no difference. *)
Theorem lower_case_reported_once roots :
  closed → Forall (λ t, is_Some (types !! t)) (mjoin roots) →
  (∃ g, checkTypes (mjoin roots) init_labgob = Some g ∧ reported (mjoin roots) (printed g)
        ∧ errorCount g = zlen (printed g))
  ∧ ∀ sched s, go_run sched (calls roots, init_labgob) = Some s →
      (length sched ≤ potential (calls roots, init_labgob))%nat ∧
      (Forall (.= []) s.1 → reported (mjoin roots) (printed s.2) ∧ errorCount s.2 = zlen (printed s.2)).
Proof.
  intros Hc Hts. split.
  - destruct (checkTypes_total (mjoin roots) init_labgob Hc Hts) as [g E]. exists g. split; [done|].
    apply (checkTypes_steps _ []) in E. rewrite app_nil_r in E. apply steps_run in E as [sched E].
    destruct (run_reports [mjoin roots] sched ([[]], g)) as [H1 H2]; [done..|].
    simpl in H1. rewrite app_nil_r in H1. by split.
  - intros sched s E. split; [apply go_run_bounded in E; lia|]. intros Hd. eapply run_reports; [done|].
    unfold pending. clear E. induction Hd as [|? ? -> _ IH]; [done|]. simpl. exact IH.
Qed.

(** checkValue: the type of a nil interface has no kind *)
Definition checkValue (t : option rtype) (g : labgob) : option (outcome labgob) :=
  match t with None => Some Panic | Some t => Ret <$> checkType_all t g end.

End types.

(** ** Values *)

Inductive basic :=
| Bool (b : bool)
| Int (z : Z)             (** all integer types *)
| Float (is_zero : bool)  (** all [reflect] compares is whether it is zero *)
| Text (s : string).

(** [reflect.DeepEqual(reflect.Zero(t).Interface(), value.Interface())] *)
Definition is_default (b : basic) : bool :=
  match b with
  | Bool b => negb b
  | Int z => bool_decide (z = 0)
  | Float z => z
  | Text s => bool_decide (s = "")
  end.

Abbreviation loc := nat.

Inductive value :=
| VStruct (fields : list (StructField * value))
| VPtr (p : option loc)
| VBasic (tname : string) (b : basic)
| VOther.                 (** slices, arrays, maps, interfaces, ... *)

(** how a [reflect.Value] was reached: through an unexported field that is
    embedded, or through one that is not *)
Record RO := { embedRO : bool; stickyRO : bool }.
Definition readable : RO := {| embedRO := false; stickyRO := false |}.
Definition hidden (ro : RO) : bool := embedRO ro || stickyRO ro.

Section values.
Context `{UpperTable} (heap : loc → value).

(** [value.Field(i)] *)
Definition field_RO (ro : RO) (f : StructField) : RO :=
  if capitalized f then {| embedRO := false; stickyRO := stickyRO ro |}
  else if Anonymous f then {| embedRO := true; stickyRO := stickyRO ro |}
  else {| embedRO := false; stickyRO := true |}.

Definition field_name (name : string) (f : StructField) : string :=
  if decide (name = "") then f_Name f else (name ++ "." ++ f_Name f)%string.

(** the critical section *)
Definition warn (what : string) (g : labgob) : labgob :=
  {| errorCount := errorCount g + 1; checked := checked g;
     printed := if decide (errorCount g < 1) then printed g ++ [NonDefault what] else printed g |}.

(** ** checkDefault

    [value.Interface()] panics for a hidden value.  The depth bounds the
    recursion: the fuel [4 - depth] is enough. *)
Fixpoint checkDefault1 (fuel : nat) (ro : RO) (v : value) (depth : Z) (name : string) (g : labgob) : outcome labgob :=
  if decide (depth > 3) then Ret g
  else match fuel with
  | O => Ret g
  | S fuel' =>
      match v with
      | VStruct fields =>
          fold_left (λ og '(f, vv), g ← og;
                       checkDefault1 fuel' (field_RO ro f) vv (depth + 1) (field_name name f) g)
            fields (Ret g)
      | VPtr None => Ret g
      | VPtr (Some l) => checkDefault1 fuel' ro (heap l) (depth + 1) name g
      | VBasic tname b =>
          if hidden ro then Panic
          else if is_default b then Ret g
          else Ret (warn (if decide (name = "") then tname else name) g)
      | VOther => Ret g
      end
  end.

Definition checkDefault (value : option value) (g : labgob) : outcome labgob :=
  match value with None => Ret g | Some v => checkDefault1 3 readable v 1 "" g end.

(** the walk does not depend on the fuel *)
Lemma checkDefault1_fuel n m ro v depth name g : (Z.to_nat (4 - depth) ≤ n)%nat → (Z.to_nat (4 - depth) ≤ m)%nat →
  checkDefault1 n ro v depth name g = checkDefault1 m ro v depth name g.
Proof.
  revert m ro v depth name g. induction n as [|n IH]; intros [|m] ro v depth name g Hn Hm; simpl; [done|..];
    destruct (decide (depth > 3)); try done; try lia.
  destruct v as [fs|[l|]|tn b|]; [|apply IH; lia|done..]. generalize (Ret g) as o. clear g.
  induction fs as [|[f vv] fs IHf]; intros o; simpl; [done|]. rewrite IHf. f_equal.
  destruct o; simpl; [apply IH; lia|done..].
Qed.

(** ** What it looks at

    [leaf n ro name v ro' what b]: the basic value [b] is fewer than [n] fields
    and pointers away from [v]. *)
Inductive leaf : nat → RO → string → value → RO → string → basic → Prop :=
| leaf_here n ro name tn b :
    leaf (S n) ro name (VBasic tn b) ro (if decide (name = "") then tn else name) b
| leaf_field n ro name fs f vv ro' w b :
    (f, vv) ∈ fs → leaf n (field_RO ro f) (field_name name f) vv ro' w b →
    leaf (S n) ro name (VStruct fs) ro' w b
| leaf_ptr n ro name l ro' w b :
    leaf n ro name (heap l) ro' w b → leaf (S n) ro name (VPtr (Some l)) ro' w b.

(** what a walk over the values of [L] does *)
Definition walk_ok (L : RO → string → basic → Prop) (g : labgob) (o : outcome labgob) : Prop :=
  match o with
  | Fatal => False
  | Panic => ∃ ro w b, L ro w b ∧ hidden ro = true
  | Ret g' =>
      (∀ ro w b, L ro w b → hidden ro = false) ∧ checked g' = checked g ∧
      ((g' = g ∧ ∀ ro w b, L ro w b → is_default b = true)
       ∨ errorCount g < errorCount g' ∧ ∃ ro w b, L ro w b ∧ is_default b = false
           ∧ printed g' = printed g ++ if decide (errorCount g < 1) then [NonDefault w] else [])
  end.

Lemma walk_none (L : RO → string → basic → Prop) g : (∀ ro w b, ¬ L ro w b) → walk_ok L g (Ret g).
Proof. intros HL. split; [|split; [done|left; split; [done|]]]; intros; exfalso; naive_solver. Qed.

Lemma walk_iff (L L' : RO → string → basic → Prop) g o :
  (∀ ro w b, L ro w b ↔ L' ro w b) → walk_ok L g o → walk_ok L' g o.
Proof.
  intros HL. destruct o as [g'| |]; simpl; [|done|naive_solver].
  intros (H1 & H2 & [[-> H3]|(H3 & ro & w & b & H4)]); (split; [naive_solver|split; [done|]]).
  - left. naive_solver.
  - right. split; [done|]. exists ro, w, b. naive_solver.
Qed.

Lemma walk_seq (L1 L2 : RO → string → basic → Prop) g o f : 0 ≤ errorCount g →
  walk_ok L1 g o → (∀ g', errorCount g ≤ errorCount g' → walk_ok L2 g' (f g')) →
  walk_ok (λ ro w b, L1 ro w b ∨ L2 ro w b) g (o ≫= f).
Proof.
  intros Hg Ho Hf. destruct o as [g1| |]; simpl in *; [|done|naive_solver].
  destruct Ho as (H1 & Hc1 & Hn1).
  assert (errorCount g ≤ errorCount g1) as Hle by (destruct Hn1 as [[-> _]|[? _]]; lia).
  specialize (Hf g1 Hle). destruct (f g1) as [g2| |]; simpl in *; [|done|naive_solver].
  destruct Hf as (H2 & Hc2 & Hn2). split; [naive_solver|]. split; [congruence|].
  destruct Hn1 as [[-> D1]|(Hlt1 & ro & w & b & HL & Hd & Hp)].
  - destruct Hn2 as [[-> D2]|(Hlt2 & ro & w & b & HL & Hd & Hp)]; [left; naive_solver|right].
    split; [done|]. exists ro, w, b. naive_solver.
  - right. assert (printed g2 = printed g1 ∧ errorCount g1 ≤ errorCount g2) as [-> ?].
    { destruct Hn2 as [[-> _]|(? & ? & ? & ? & _ & _ & ->)]; [done|].
      rewrite decide_False by lia. rewrite app_nil_r. split; [done|lia]. }
    split; [lia|]. exists ro, w, b. naive_solver.
Qed.

(** the loop over the fields *)
Lemma fields_ok n ro name depth fs (L : RO → string → basic → Prop) g o :
  (∀ ro v name g, 0 ≤ errorCount g → walk_ok (leaf n ro name v) g (checkDefault1 n ro v depth name g)) →
  0 ≤ errorCount g → walk_ok L g o →
  walk_ok (λ ro' w b, L ro' w b ∨ ∃ f vv, (f, vv) ∈ fs ∧ leaf n (field_RO ro f) (field_name name f) vv ro' w b) g
    (fold_left (λ og '(f, vv), g ← og; checkDefault1 n (field_RO ro f) vv depth (field_name name f) g) fs o).
Proof.
  intros IH Hg. revert L o. induction fs as [|[f vv] fs IHf]; intros L o Ho; simpl.
  { eapply walk_iff; [|exact Ho]. intros. split; [by left|intros [|(? & ? & []%not_elem_of_nil & _)]; done]. }
  eapply walk_iff; [|apply IHf, (walk_seq L (leaf n (field_RO ro f) (field_name name f) vv)); [done|exact Ho|]].
  - intros ro' w b. simpl. setoid_rewrite elem_of_cons. split; [|naive_solver].
    intros [[|]|]; [by left|right; by exists f, vv; auto|naive_solver].
  - intros g' Hg'. apply IH. lia.
Qed.

Lemma checkDefault1_ok n ro v name g : 0 ≤ errorCount g →
  walk_ok (leaf n ro name v) g (checkDefault1 n ro v (4 - Z.of_nat n) name g).
Proof.
  revert ro v name g. induction n as [|n IH]; intros ro v name g Hg.
  { simpl. apply walk_none. intros ? ? ? Hl. inversion Hl. }
  cbn [checkDefault1]. destruct (decide (4 - Z.of_nat (S n) > 3)); [lia|].
  replace (4 - Z.of_nat (S n) + 1) with (4 - Z.of_nat n) by lia. destruct v as [fs|[l|]|tn b|].
  - eapply walk_iff; [|apply (fields_ok n ro name _ fs (λ _ _ _, False)); [intros; by apply IH|done|apply walk_none; by intros ? ? ? []]].
    intros ro' w b. simpl. split; [intros [[]|(f & vv & Hin & Hl)]; by eapply leaf_field|].
    inversion 1; subst. right. eauto.
  - eapply walk_iff; [|by apply IH]. intros. split; [apply leaf_ptr|by inversion 1].
  - apply walk_none. intros ? ? ? Hl. inversion Hl.
  - destruct (hidden ro) eqn:Hro; [exists ro, (if decide (name = "") then tn else name), b; by split; [constructor|]|].
    destruct (is_default b) eqn:Hb; simpl;
      (split; [intros ? ? ? Hl; by inversion Hl; subst|split; [done|]]).
    + left. split; [done|]. intros ? ? ? Hl. by inversion Hl; subst.
    + right. split; [lia|]. exists ro, (if decide (name = "") then tn else name), b. split; [constructor|]. split; [done|].
      destruct (decide _); [done|by rewrite app_nil_r].
  - apply walk_none. intros ? ? ? Hl. inversion Hl.
Qed.

(** Decoding into a variable: with the value [v] the check looks at the
    numbers, strings and booleans fewer than three fields and pointers away,
    and at no others.  It panics exactly when one of them is in a field that is
    not exported; otherwise it counts something exactly when one of them is not
    the zero value, and prints the first warning of the process only. *)
Theorem checkDefault_exact v g : 0 ≤ errorCount g → walk_ok (leaf 3 readable "" v) g (checkDefault (Some v) g).
Proof. apply (checkDefault1_ok 3). Qed.

End values.

(** ** The encoder and the decoder

    gob itself, its state [Enc], [Dec] and [Reg], and its errors are not under
    src/.  A value is nil or comes with its type. *)

Definition any : Type := option (rtype * value).

Section coders.
Context `{UpperTable} (types : gmap rtype type_info).
Context {Enc Dec Reg error : Type}.
Variable gob_Encode : Enc → any → Enc * error.
Variable gob_Decode : Dec → any → (loc → value) → Dec * (loc → value) * error.
Variable gob_Register : Reg → string → any → outcome Reg.
(** the name under which gob registers the type of a value *)
Variable gob_name : any → string.

Definition checked_then {A} (e : any) (g : labgob) (f : labgob → outcome A) : option (outcome A) :=
  (λ o, o ≫= f) <$> checkValue types (fst <$> e) g.

Definition Encode (enc : Enc) (e : any) (g : labgob) : option (outcome (labgob * (Enc * error))) :=
  checked_then e g (λ g, Ret (g, gob_Encode enc e)).

(** [value.Interface()], then the same *)
Definition EncodeValue (enc : Enc) (ro : RO) (e : any) (g : labgob) : option (outcome (labgob * (Enc * error))) :=
  if hidden ro then Some Panic else checked_then e g (λ g, Ret (g, gob_Encode enc e)).

Definition Decode (dec : Dec) (e : any) (heap : loc → value) (g : labgob)
    : option (outcome (labgob * (Dec * (loc → value) * error))) :=
  checked_then e g (λ g, g ← checkDefault heap (snd <$> e) g; Ret (g, gob_Decode dec e heap)).

Definition RegisterName (reg : Reg) (name : string) (e : any) (g : labgob) : option (outcome (labgob * Reg)) :=
  checked_then e g (λ g, reg ← gob_Register reg name e; Ret (g, reg)).

Definition Register (reg : Reg) (e : any) (g : labgob) : option (outcome (labgob * Reg)) :=
  RegisterName reg (gob_name e) e g.

(** A lower-case field does not only break the value on its way: decoding
    into a pointer to a struct that has one of a number, string or boolean type
    panics in the check for default values, before gob is called. *)
Theorem decode_lower_case_panics dec heap g t l fields f tname b :
  closed types → is_Some (types !! t) → 0 ≤ errorCount g →
  heap l = VStruct fields → (f, VBasic tname b) ∈ fields → capitalized f = false →
  Decode dec (Some (t, VPtr (Some l))) heap g = Some Panic.
Proof.
  intros Hc Ht Hg Hl Hin Hf. unfold Decode, checked_then, checkValue. cbn -[checkDefault checkType_all].
  destruct (checkType_all_total types t g Hc Ht) as [g1 E]. rewrite E. cbn -[checkDefault checkType_all].
  pose proof (checkType_steps types _ _ [] _ _ E) as [sched Hs]%steps_run.
  assert (0 ≤ errorCount g1) as Hg1.
  { eapply (go_run_ind types (λ s, 0 ≤ errorCount s.2) sched (_, g) (_, g1)); [|done|exact Hs].
    intros i s s' Hp (w & rest & _ & _ & ->)%go_step_inv.
    destruct w; unfold exec; [destruct (decide _)|]; simpl; lia. }
  pose proof (checkDefault1_ok heap 3 readable (VPtr (Some l)) "" g1 Hg1) as Hok.
  change (checkDefault1 heap 3 readable (VPtr (Some l)) (4 - Z.of_nat 3) "" g1)
    with (checkDefault heap (Some (VPtr (Some l))) g1) in Hok.
  destruct (checkDefault heap (Some (VPtr (Some l))) g1) as [g2| |]; [|done|done].
  destruct Hok as [Hro _]. assert (hidden (field_RO readable f) = false) as Hh.
  { eapply Hro, leaf_ptr. rewrite Hl. eapply leaf_field; [exact Hin|]. apply leaf_here. }
  unfold field_RO in Hh. rewrite Hf in Hh. by destruct (Anonymous f).
Qed.
End coders.

(** ** Concrete types: those of the package's tests, and a linked list *)

#[local] Instance latin : UpperTable := λ _, false.

Definition field0 (name : string) (t : rtype) : StructField := {| f_Name := name; f_Type := t; Anonymous := false |}.

Definition test_types : gmap rtype type_info :=
  list_to_map (imap (λ i k, (i, k)) [
    {| t_Name := ""; t_Kind := Slice 1 |};
    {| t_Name := ""; t_Kind := Map 2 3 |};
    {| t_Name := "int"; t_Kind := Other |};
    {| t_Name := ""; t_Kind := Ptr 4 |};
    {| t_Name := "T4"; t_Kind := Struct [field0 "Yes" 2; field0 "no" 2] |};
    {| t_Name := ""; t_Kind := Ptr 6 |};
    {| t_Name := ""; t_Kind := Slice 7 |};
    {| t_Name := ""; t_Kind := Map 2 4 |};
    {| t_Name := "node"; t_Kind := Struct [field0 "Next" 9; field0 "val" 2] |};
    {| t_Name := ""; t_Kind := Ptr 8 |} ])%nat.

Definition visits (l : list work) : list rtype := omap (λ w, match w with Visit t => Some t | _ => None end) l.

Lemma closed_checked `{UpperTable} (types : gmap rtype type_info) :
  bool_decide (map_Forall (λ _ i, Forall (.∈ dom types) (visits (kind_work i))) types) = true → closed types.
Proof.
  intros Hc%bool_decide_eq_true t u Hu. unfold child, work_of in Hu.
  destruct (types !! t) as [i|] eqn:Ht; [|by apply not_elem_of_nil in Hu]. simpl in Hu.
  apply elem_of_dom. specialize (Hc t i Ht). rewrite Forall_forall in Hc. apply Hc.
  apply list_elem_of_omap. by exists (Visit u).
Qed.

(** TestCapital: encoding and decoding report one field; so does everything
    afterwards *)
Example TestCapital : printed <$> checkTypes test_types [0%nat; 5%nat; 0%nat] init_labgob = Some [LowerCase "no" "T4"].
Proof. vm_compute. reflexivity. Qed.

(** two goroutines with the types of TestCapital, and one with the list *)
Lemma lower_case_reported_once_witness :
  (∃ g, checkTypes test_types [0; 5; 4; 9]%nat init_labgob = Some g
     ∧ printed g = [LowerCase "no" "T4"; LowerCase "val" "node"]
     ∧ reported test_types [0; 5; 4; 9]%nat (printed g) ∧ errorCount g = zlen (printed g)).
Proof.
  destruct (lower_case_reported_once test_types [[0; 5]; [4; 9]]%nat) as [(g & E & H) _].
  - apply closed_checked. vm_compute. reflexivity.
  - repeat constructor; vm_compute; eauto.
  - exists g. split; [exact E|]. vm_compute in E. injection E as <-. split; [reflexivity|exact H].
Defined.

(** TestDefault: a variable that holds 99 *)
Definition dd_heap : loc → value := λ _, VStruct [(field0 "X" 2%nat, VBasic "int" (Int 99))].

Lemma checkDefault_exact_witness : ∃ g', checkDefault dd_heap (Some (VPtr (Some 0%nat))) init_labgob = Ret g' ∧
  errorCount g' = 1 ∧ printed g' = [NonDefault "X"] ∧
  walk_ok (leaf dd_heap 3 readable "" (VPtr (Some 0%nat))) init_labgob (Ret g').
Proof.
  pose proof (checkDefault_exact dd_heap (VPtr (Some 0%nat)) init_labgob) as H.
  destruct (checkDefault dd_heap (Some (VPtr (Some 0%nat))) init_labgob) as [g'| |] eqn:E;
    vm_compute in E; [|discriminate E..].
  exists g'. split; [reflexivity|]. specialize (H ltac:(done)). injection E as <-. by split_and!.
Defined.

(** a value one struct deeper is not looked at *)
Example nested_value_missed :
  checkDefault (λ _, VStruct [(field0 "A" 0%nat, VStruct [(field0 "X" 2%nat, VBasic "int" (Int 99))])])
    (Some (VPtr (Some 0%nat))) init_labgob = Ret init_labgob.
Proof. reflexivity. Qed.

(** nor is what a recursive value holds behind its second pointer; the walk ends *)
Example cyclic_value_ends :
  checkDefault (λ _, VStruct [(field0 "Next" 9%nat, VPtr (Some 0%nat)); (field0 "Val" 2%nat, VBasic "int" (Int 0))])
    (Some (VPtr (Some 0%nat))) init_labgob = Ret init_labgob.
Proof. reflexivity. Qed.

(** decoding a value of T4 *)
Definition t4_heap : loc → value :=
  λ _, VStruct [(field0 "Yes" 2%nat, VBasic "int" (Int 0)); (field0 "no" 2%nat, VBasic "int" (Int 0))].

Lemma decode_lower_case_panics_witness :
  Decode test_types (λ (dec : unit) _ heap, (dec, heap, tt)) tt (Some (3%nat, VPtr (Some 0%nat))) t4_heap init_labgob = Some Panic.
Proof.
  apply (decode_lower_case_panics test_types _ tt t4_heap init_labgob 3 0
           [(field0 "Yes" 2%nat, VBasic "int" (Int 0)); (field0 "no" 2%nat, VBasic "int" (Int 0))]
           (field0 "no" 2%nat) "int" (Int 0)).
  - apply closed_checked. vm_compute. reflexivity.
  - vm_compute. eauto.
  - done.
  - reflexivity.
  - right. left.
  - reflexivity.
Defined.
