(* ===== verification/TestGroup.v ===== *)
(** * Groups of servers and clients of the tester (tester1)

    srv.go, group.go and clnts.go: the tester starts and stops the servers of
    a group, connects and disconnects them, partitions them, and gives clerks
    their own ends.  All of it is done to the simulated network (LabRpc).

    A server runs in a process of its own, which keeps a persister; the
    tester's side of it is the persister at the last shutdown ([saved]) and the
    process ([dc]), modelled as the persister inside.  [Randstring] is an
    argument: the names it returned.  The tester calls these functions from one
    goroutine. *)

From S2P Require Import Prelude RaftNode LabRpc GoText.
Local Open Scope Z_scope.

(** a Go loop over a slice *)
Fixpoint for_each {A S} (f : A → S → outcome S) (l : list A) (s : S) : outcome S :=
  match l with [] => Ret s | a :: l' => s ← f a s; for_each f l' s end.

(** [0, ..., n-1] *)
Definition indices (n : nat) : list Z := Z.of_nat <$> seq 0 n.

Definition ServerName (gid i : Z) : string :=
  ("server-" ++ of_chars (Itoa gid) ++ "-" ++ of_chars (Itoa i))%string.

Section tester.
Context {W T Cmd Snap : Type}.

Abbreviation Network := (Network (W:=W) (T:=T)).
Abbreviation Persister := (Persister Cmd Snap).

(** ** srv.go *)

(** [Server] *)
Record TestServer := {
  saved : option Persister;
  endNames : list string;
  clntEnds : list nat;
  dc : option Persister        (** the process, if one runs *)
}.

(** the ends to the servers of the group, from number [j] on *)
Fixpoint make_ends (gid j : Z) (names : list string) (net : Network) : outcome (Network * list nat) :=
  match names with
  | [] => Ret (net, [])
  | name :: names' =>
      '(net, e) ← MakeEnd name net;
      '(net, es) ← make_ends gid (j + 1) names' (Connect name (ServerName gid j) net);
      Ret (net, e :: es)
  end.

Definition makeServer (gid : Z) (names : list string) (net : Network) : outcome (Network * TestServer) :=
  '(net, es) ← make_ends gid 0 names net;
  Ret (net, {| saved := None; endNames := names; clntEnds := es; dc := None |}).

Definition startServer (gid : Z) (names : list string) (s : TestServer) (net : Network) : outcome (Network * TestServer) :=
  '(net, srv) ← makeServer gid names net;
  Ret (net, {| saved := Some (default MakePersister (saved s)); endNames := endNames srv;
               clntEnds := clntEnds srv; dc := dc srv |}).

(** the process returns a checkpoint of its persister, and is killed *)
Definition shutdownServer (s : TestServer) : TestServer :=
  match dc s with
  | Some p => {| saved := Some (Checkpoint p); endNames := endNames s; clntEnds := clntEnds s; dc := None |}
  | None => s
  end.

Definition with_dc (p : option Persister) (s : TestServer) : TestServer :=
  {| saved := saved s; endNames := endNames s; clntEnds := clntEnds s; dc := p |}.

(** ** group.go *)

Record ServerGrp := {
  gid : Z;
  srvs : list TestServer;
  servernames : list string;
  connected : list bool
}.

Definition set_srvs (l : list TestServer) (sg : ServerGrp) : ServerGrp :=
  {| gid := gid sg; srvs := l; servernames := servernames sg; connected := connected sg |}.
Definition set_connected (l : list bool) (sg : ServerGrp) : ServerGrp :=
  {| gid := gid sg; srvs := srvs sg; servernames := servernames sg; connected := l |}.

(** the network and the group *)
Abbreviation state := (Network * ServerGrp)%type.

Definition N (sg : ServerGrp) : Z := zlen (srvs sg).
Definition all (sg : ServerGrp) : list Z := indices (length (srvs sg)).
Definition SrvNames (sg : ServerGrp) : list string := servernames sg.
Definition SrvName (i : Z) (sg : ServerGrp) : outcome string := go_index (servernames sg) i.
Fixpoint SrvNamesTo (to : list Z) (sg : ServerGrp) : outcome (list string) :=
  match to with
  | [] => Ret []
  | i :: to' => n ← go_index (servernames sg) i; ns ← SrvNamesTo to' sg; Ret (n :: ns)
  end.
Definition IsConnected (i : Z) (sg : ServerGrp) : outcome bool := go_index (connected sg) i.
Definition GetConnected (sg : ServerGrp) : list bool := connected sg.

(** [makeSrvGrp] with the names of the ends of each server *)
Fixpoint make_servers (gid : Z) (names : list (list string)) (net : Network) : outcome (Network * list TestServer) :=
  match names with
  | [] => Ret (net, [])
  | ns :: names' =>
      '(net, s) ← makeServer gid ns net; '(net, ss) ← make_servers gid names' net; Ret (net, s :: ss)
  end.

Definition makeSrvGrp (g : Z) (names : list (list string)) (net : Network) : outcome state :=
  '(net, ss) ← make_servers g names net;
  Ret (net, {| gid := g; srvs := ss; servernames := ServerName g <$> indices (length names);
               connected := replicate (length names) false |}).

(** the end from server [i] to server [j] *)
Definition endname (i j : Z) (sg : ServerGrp) : outcome string :=
  s ← go_index (srvs sg) i; go_index (endNames s) j.

(** *** Connecting *)

(** [Server.connect] *)
Definition srv_connect (i : Z) (to : list Z) (sg : ServerGrp) (net : Network) : outcome Network :=
  for_each (λ j net, b ← IsConnected j sg;
              if b : bool then e ← endname i j sg; Ret (Enable e true net) else Ret net) to net.

(** [Server.disconnect] ([endNames] is never nil) *)
Definition srv_disconnect (i : Z) (from : list Z) (sg : ServerGrp) (net : Network) : outcome Network :=
  for_each (λ j net, e ← endname i j sg; Ret (Enable e false net)) from net.

Definition connect (i : Z) (to : list Z) (st : state) : outcome state :=
  let '(net, sg) := st in
  c ← go_update (connected sg) i true;
  let sg := set_connected c sg in
  _ ← go_index (srvs sg) i;
  net ← srv_connect i to sg net;
  net ← for_each (λ j net, b ← IsConnected j sg;
                    if b : bool then e ← endname j i sg; Ret (Enable e true net) else Ret net) to net;
  Ret (net, sg).

Definition disconnect (i : Z) (from : list Z) (st : state) : outcome state :=
  let '(net, sg) := st in
  c ← go_update (connected sg) i false;
  let sg := set_connected c sg in
  _ ← go_index (srvs sg) i;
  net ← srv_disconnect i from sg net;
  net ← for_each (λ j net, e ← endname j i sg; Ret (Enable e false net)) from net;
  Ret (net, sg).

Definition ConnectOne (i : Z) (st : state) : outcome state := connect i (all st.2) st.
Definition ConnectAll (st : state) : outcome state := for_each ConnectOne (all st.2) st.
Definition DisconnectAll (i : Z) (st : state) : outcome state := disconnect i (all st.2) st.

Definition Partition (p1 p2 : list Z) (st : state) : outcome state :=
  st ← for_each (λ i st, st ← disconnect i p2 st; connect i p1 st) p1 st;
  for_each (λ i st, st ← disconnect i p1 st; connect i p2 st) p2 st.

(** Partition servers into 2 groups and put current leader in minority *)
Definition MakePartition (l : Z) (sg : ServerGrp) : outcome (list Z * list Z) :=
  let n := length (srvs sg) in
  let len1 := Z.of_nat (n / 2) + 1 in
  '(p1, p2, _) ← for_each (λ i '(p1, p2, j),
      if decide (i = l) then Ret (p1, p2, j)
      else if decide (j < len1) then p1 ← go_update p1 j i; Ret (p1, p2, j + 1)
      else p2 ← go_update p2 (j - len1) i; Ret (p1, p2, j + 1))
    (indices n) (replicate (n / 2 + 1) 0, replicate (n / 2) 0, 0);
  p2 ← go_update p2 (zlen p2 - 1) l;
  Ret (p1, p2).

(** *** Starting and stopping *)

(** [false] is an error: the process did not start *)
Definition StartServer (i : Z) (names : list string) (started : bool) (st : state) : outcome (bool * state) :=
  let '(net, sg) := st in
  s ← go_index (srvs sg) i;
  '(net, srv) ← startServer (gid sg) names s net;
  l ← go_update (srvs sg) i srv;
  let sg := set_srvs l sg in
  if started then
    (* dc.init hands [saved] to the process *)
    l ← go_update (srvs sg) i (with_dc (saved srv) srv);
    let rs := length (LabRpc.srvs net) in
    let net := with_objects net (clients net) (LabRpc.srvs net ++ [SetDispatch MakeServer]) in
    Ret (true, (AddServer (ServerName (gid sg) i) rs net, set_srvs l sg))
  else Ret (false, (net, sg)).

Definition ShutdownServer (i : Z) (st : state) : outcome state :=
  '(net, sg) ← disconnect i (all st.2) st;
  let net := DeleteServer (ServerName (gid sg) i) net in
  s ← go_index (srvs sg) i;
  l ← go_update (srvs sg) i (shutdownServer s);
  Ret (net, set_srvs l sg).

Definition Kill (srvs : list Z) (st : state) : outcome state := for_each ShutdownServer srvs st.
Definition Shutdown (st : state) : outcome state := Kill (all st.2) st.

(** [StartSrvs] ignores errors; the names of the ends of each server *)
Definition StartSrvs (srvs : list (Z * list string * bool)) (st : state) : outcome state :=
  for_each (λ '(i, names, started) st, '(_, st) ← StartServer i names started st; Ret st) srvs st.
Definition StartServers (names : list (list string * bool)) (st : state) : outcome state :=
  st ← StartSrvs (imap (λ i '(ns, b), (Z.of_nat i, ns, b)) names) st;
  ConnectAll st.

(** the process saves *)
Definition daemon_saves (i : Z) (p : Persister) (st : state) : outcome state :=
  s ← go_index (srvs st.2) i;
  l ← go_update (srvs st.2) i (with_dc (match dc s with Some _ => Some p | None => None end) s);
  Ret (st.1, set_srvs l st.2).

Definition RpcCount (server : Z) (st : state) : outcome Z := GetCount (ServerName (gid st.2) server) st.1.

(** ** What is connected *)

(** the end from [i] to [j] is enabled *)
Definition linked (st : state) (i j : Z) : bool :=
  match endname i j st.2 with Ret e => is_enabled st.1 e | _ => false end.

(** a server's process runs *)
Definition running (sg : ServerGrp) (j : Z) : bool :=
  match zlookup (srvs sg) j with Some s => bool_decide (is_Some (dc s)) | None => false end.

(** what [processReq] finds when [i] calls [j]: a server registered under [j]'s name *)
Definition reaches (st : state) (i j : Z) : bool :=
  match endname i j st.2 with
  | Ret e => match readEndnameInfo st.1 e with
             | Some inf => bool_decide (i_servername inf = ServerName (gid st.2) j)
             | None => false
             end
  | _ => false
  end.

(** ** Well-formed groups *)

Definition in_group (sg : ServerGrp) (i : Z) : Prop := 0 ≤ i < N sg.
Definition conn (sg : ServerGrp) (i : Z) : bool := default false (zlookup (connected sg) i).

(** every server has one end to every server, and they are all different *)
Record wf (st : state) : Prop := {
  wf_connected : length (connected st.2) = length (srvs st.2);
  wf_ends : ∀ i s, srvs st.2 !! i = Some s → length (endNames s) = length (srvs st.2);
  wf_names : ∀ i j i' j' e, endname i j st.2 = Ret e → endname i' j' st.2 = Ret e → i = i' ∧ j = j';
  wf_net : ∀ i j e, endname i j st.2 = Ret e → is_Some (ends st.1 !! e)
}.

Lemma for_each_inv {A S} (Inv : list A → S → Prop) (f : A → S → outcome S) l s :
  Inv [] s → (∀ l1 a l2 s, l = l1 ++ a :: l2 → Inv l1 s → ∃ s', f a s = Ret s' ∧ Inv (l1 ++ [a]) s') →
  ∃ s', for_each f l s = Ret s' ∧ Inv l s'.
Proof.
  intros H0 Hf. assert (∀ l2 l1 s, l = l1 ++ l2 → Inv l1 s → ∃ s', for_each f l2 s = Ret s' ∧ Inv l s') as Hgen.
  { clear s H0. induction l2 as [|a l2 IH]; intros l1 s Hl Hs; simpl.
    - rewrite app_nil_r in Hl. subst. eauto.
    - destruct (Hf l1 a l2 s Hl Hs) as (s' & -> & Hs'). simpl. apply (IH (l1 ++ [a])); [by rewrite <-app_assoc|done]. }
  by apply (Hgen l []).
Qed.

Lemma endname_ok st i j : wf st → in_group st.2 i → in_group st.2 j → ∃ e, endname i j st.2 = Ret e.
Proof.
  intros [_ H2 _ _] Hi Hj. unfold in_group, N in *. destruct (zlookup_is_Some (srvs st.2) i Hi) as [s Hs].
  apply zlookup_Some in Hs as Hs'. destruct Hs' as [_ Hl]. pose proof (H2 _ _ Hl) as Hlen.
  destruct (zlookup_is_Some (endNames s) j) as [e He]; [unfold zlen in *; lia|].
  exists e. unfold endname, go_index. rewrite Hs. simpl. by rewrite He.
Qed.

Lemma endname_in st i j e : wf st → endname i j st.2 = Ret e → in_group st.2 i ∧ in_group st.2 j.
Proof.
  intros [_ H2 _ _] E. unfold endname, go_index in E. destruct (zlookup (srvs st.2) i) as [s|] eqn:Hs; [|done].
  simpl in E. destruct (zlookup (endNames s) j) as [e'|] eqn:He; [|done].
  apply zlookup_Some in Hs as [Hi Hl], He as [Hj _]. pose proof (H2 _ _ Hl). unfold in_group, N, zlen in *. lia.
Qed.

(** *** One end is switched *)

Lemma linked_Enable st e v i j a b : wf st → endname i j st.2 = Ret e →
  linked (Enable e v st.1, st.2) a b = if decide ((a, b) = (i, j)) then v else linked st a b.
Proof.
  intros Hwf He. unfold linked, is_enabled. simpl. destruct (endname a b st.2) as [e'| |] eqn:He'.
  - destruct (decide (e = e')) as [<-|Hne].
    + destruct (wf_names st Hwf a b i j e He' He) as [-> ->]. rewrite lookup_insert_eq. by rewrite decide_True.
    + rewrite lookup_insert_ne by done. rewrite decide_False; [done|]. intros [= -> ->]. congruence.
  - rewrite decide_False; [done|]. intros [= -> ->]. congruence.
  - rewrite decide_False; [done|]. intros [= -> ->]. congruence.
Qed.

(** the network but for what is enabled *)
Definition same_ends (n n' : Network) : Prop :=
  ∃ en, n' = with_maps n (ends n) en (servers n) (connections n).

Lemma same_ends_refl n : same_ends n n.
Proof. exists (enabled n). by destruct n. Qed.

Lemma same_ends_Enable n n' e v : same_ends n n' → same_ends n (Enable e v n').
Proof. intros [en ->]. by exists (<[e := v]> en). Qed.

Lemma wf_same net net' sg sg' : wf (net, sg) → same_ends net net' → srvs sg' = srvs sg →
  length (connected sg') = length (connected sg) → wf (net', sg').
Proof.
  intros [H1 H2 H3 H4] [en ->] Hs Hc. simpl in *.
  assert (∀ i j, endname i j sg' = endname i j sg) as He by (intros; unfold endname; by rewrite Hs).
  split; simpl; rewrite ?Hs, ?Hc; try done.
  - intros i j i' j' e. rewrite !He. apply H3.
  - intros i j e. rewrite He. apply H4.
Qed.

(** a loop that switches some of the ends [pr j] *)
Lemma switch_loop sg (F : Z → Network → outcome Network) (on : Z → bool) (pr : Z → Z * Z) v to net :
  wf (net, sg) → (∀ j net, j ∈ to → F j net =
     if on j then (e ← endname (pr j).1 (pr j).2 sg; Ret (Enable e v net)) else Ret net) →
  (∀ j, j ∈ to → in_group sg (pr j).1 ∧ in_group sg (pr j).2) →
  ∃ net', for_each F to net = Ret net' ∧ same_ends net net' ∧
    ∀ a b, linked (net', sg) a b = if decide ((a, b) ∈ pr <$> filter (λ j, on j = true) to) then v
                                   else linked (net, sg) a b.
Proof.
  intros Hwf HF Hin. set (Inv := λ (l : list Z) (net' : Network), same_ends net net' ∧ ∀ a b, linked (net', sg) a b =
    if decide ((a, b) ∈ pr <$> filter (λ j, on j = true) l) then v else linked (net, sg) a b).
  apply (for_each_inv Inv).
  { split; [apply same_ends_refl|]. intros a b. by rewrite decide_False by (simpl; apply not_elem_of_nil). }
  intros l1 j l2 net1 Hl [Hs Hlk]. assert (j ∈ to) as Hj by (subst; apply elem_of_app; right; by left).
  unfold Inv. rewrite (HF j net1 Hj), filter_app. destruct (on j) eqn:Hon.
  - assert (wf (net1, sg)) as Hwf1 by (by eapply wf_same). destruct (Hin j Hj) as [Hi1 Hi2].
    destruct (endname_ok (net1, sg) (pr j).1 (pr j).2 Hwf1 Hi1 Hi2) as [e He]. simpl in He. rewrite He. simpl.
    exists (Enable e v net1). split; [done|]. split; [by apply same_ends_Enable|]. intros a b.
    pose proof (linked_Enable (net1, sg) e v (pr j).1 (pr j).2 a b Hwf1 He) as HE. simpl fst in HE. simpl snd in HE.
    rewrite HE, Hlk, filter_cons_True, fmap_app by done. simpl. rewrite <-surjective_pairing.
    repeat case_decide; try done; exfalso; set_solver.
  - exists net1. split; [done|]. split; [done|]. intros a b. rewrite filter_cons_False by congruence.
    by rewrite app_nil_r.
Qed.

(** *** connect and disconnect *)

Lemma go_update_Ret {A} (l : list A) i x : 0 ≤ i < zlen l → go_update l i x = Ret (<[Z.to_nat i := x]> l).
Proof. intros. unfold go_update. by rewrite decide_True. Qed.

Lemma conn_set sg i v j : in_group sg i → length (connected sg) = length (srvs sg) →
  conn (set_connected (<[Z.to_nat i := v]> (connected sg)) sg) j = if decide (j = i) then v else conn sg j.
Proof.
  intros Hi Hl. unfold in_group, N, zlen, conn, zlookup in *. simpl. case_decide; [by rewrite decide_False by lia|].
  destruct (decide (j = i)) as [->|]; [by rewrite list_lookup_insert_eq by lia|by rewrite list_lookup_insert_ne by lia].
Qed.

Lemma IsConnected_Ret sg j : in_group sg j → length (connected sg) = length (srvs sg) → IsConnected j sg = Ret (conn sg j).
Proof.
  intros Hj Hl. unfold in_group, N, zlen, IsConnected, go_index, conn in *.
  destruct (zlookup_is_Some (connected sg) j) as [b ->]; [unfold zlen; lia|done].
Qed.

(** both directions between [i] and some servers *)
Definition touches (i : Z) (P : Z → Prop) (a b : Z) : Prop := (a = i ∧ P b) ∨ (b = i ∧ P a).

Lemma switch_both sg i to on F G net v : wf (net, sg) → in_group sg i → Forall (in_group sg) to →
  (∀ j net, j ∈ to → F j net = if on j : bool then (e ← endname i j sg; Ret (Enable e v net)) else Ret net) →
  (∀ j net, j ∈ to → G j net = if on j then (e ← endname j i sg; Ret (Enable e v net)) else Ret net) →
  ∃ net1 net2, for_each F to net = Ret net1 ∧ for_each G to net1 = Ret net2 ∧ same_ends net net2 ∧
    ∀ a b, linked (net2, sg) a b = v ∧ touches i (λ j, j ∈ to ∧ on j = true) a b
         ∨ linked (net2, sg) a b = linked (net, sg) a b ∧ ¬ touches i (λ j, j ∈ to ∧ on j = true) a b.
Proof.
  intros Hwf Hi Hto HF HG. rewrite Forall_forall in Hto.
  destruct (switch_loop sg F on (λ j, (i, j)) v to net) as (net1 & E1 & Hs1 & H1); [done|done|simpl; auto|].
  destruct (switch_loop sg G on (λ j, (j, i)) v to net1) as (net2 & E2 & Hs2 & H2); [by eapply wf_same|done|simpl; auto|].
  exists net1, net2. split; [done|]. split; [done|]. split.
  { destruct Hs1 as [en1 ->], Hs2 as [en2 ->]. by exists en2. }
  intros a b. rewrite H2, H1. unfold touches.
  assert ((a, b) ∈ (λ j, (j, i)) <$> filter (λ j, on j = true) to ↔ b = i ∧ a ∈ to ∧ on a = true) as Hb.
  { rewrite list_elem_of_fmap. setoid_rewrite list_elem_of_filter. naive_solver. }
  assert ((a, b) ∈ (λ j, (i, j)) <$> filter (λ j, on j = true) to ↔ a = i ∧ b ∈ to ∧ on b = true) as Ha.
  { rewrite list_elem_of_fmap. setoid_rewrite list_elem_of_filter. naive_solver. }
  repeat case_decide; [left|left|right]; split; try done; tauto.
Qed.

Lemma connect_ok net sg i to : wf (net, sg) → in_group sg i → Forall (in_group sg) to → ∃ net' sg',
  connect i to (net, sg) = Ret (net', sg') ∧ wf (net', sg') ∧ same_ends net net' ∧ srvs sg' = srvs sg ∧ gid sg' = gid sg ∧
  (∀ j, conn sg' j = if decide (j = i) then true else conn sg j) ∧
  ∀ a b, linked (net', sg') a b = true ∧ touches i (λ j, j ∈ to ∧ conn sg' j = true) a b
       ∨ linked (net', sg') a b = linked (net, sg) a b ∧ ¬ touches i (λ j, j ∈ to ∧ conn sg' j = true) a b.
Proof.
  intros Hwf Hi Hto. pose proof (wf_connected _ Hwf) as Hl. simpl in Hl. unfold connect.
  rewrite go_update_Ret by (unfold in_group, N, zlen in *; lia). simpl.
  set (sg' := set_connected (<[Z.to_nat i := true]> (connected sg)) sg).
  assert (length (connected sg') = length (connected sg)) as Hl' by (unfold sg'; simpl; by rewrite length_insert).
  assert (wf (net, sg')) as Hwf' by (eapply wf_same; [done|apply same_ends_refl|done|done]).
  assert (∃ s, go_index (srvs sg) i = Ret s) as [s ->].
  { destruct (zlookup_is_Some (srvs sg) i Hi) as [s Hs]. exists s. by apply go_index_Ret. }
  rewrite Forall_forall in Hto.
  destruct (switch_both sg' i to (conn sg')
    (λ j net, b ← IsConnected j sg'; if b : bool then e ← endname i j sg'; Ret (Enable e true net) else Ret net)
    (λ j net, b ← IsConnected j sg'; if b : bool then e ← endname j i sg'; Ret (Enable e true net) else Ret net) net true)
    as (net1 & net2 & E1 & E2 & Hs & Hlk); [done|done|by apply Forall_forall| | |].
  1,2: intros j net0 Hj; rewrite IsConnected_Ret; [done|by apply Hto|unfold sg'; simpl; rewrite length_insert; congruence].
  simpl. unfold srv_connect. rewrite E1. simpl. rewrite E2. simpl. exists net2, sg'.
  split; [done|]. split; [by eapply wf_same|]. split; [done|]. split; [done|]. split; [done|]. split; [|done].
  intros j. by apply conn_set.
Qed.

Lemma disconnect_ok net sg i from : wf (net, sg) → in_group sg i → Forall (in_group sg) from → ∃ net' sg',
  disconnect i from (net, sg) = Ret (net', sg') ∧ wf (net', sg') ∧ same_ends net net' ∧ srvs sg' = srvs sg ∧ gid sg' = gid sg ∧
  (∀ j, conn sg' j = if decide (j = i) then false else conn sg j) ∧
  ∀ a b, linked (net', sg') a b = false ∧ touches i (.∈ from) a b
       ∨ linked (net', sg') a b = linked (net, sg) a b ∧ ¬ touches i (.∈ from) a b.
Proof.
  intros Hwf Hi Hfrom. pose proof (wf_connected _ Hwf) as Hl. simpl in Hl. unfold disconnect.
  rewrite go_update_Ret by (unfold in_group, N, zlen in *; lia). simpl.
  set (sg' := set_connected (<[Z.to_nat i := false]> (connected sg)) sg).
  assert (length (connected sg') = length (connected sg)) as Hl' by (unfold sg'; simpl; by rewrite length_insert).
  assert (wf (net, sg')) as Hwf' by (eapply wf_same; [done|apply same_ends_refl|done|done]).
  assert (∃ s, go_index (srvs sg) i = Ret s) as [s ->].
  { destruct (zlookup_is_Some (srvs sg) i Hi) as [s Hs]. exists s. by apply go_index_Ret. }
  destruct (switch_both sg' i from (λ _, true) (λ j net, e ← endname i j sg'; Ret (Enable e false net))
    (λ j net, e ← endname j i sg'; Ret (Enable e false net)) net false)
    as (net1 & net2 & E1 & E2 & Hs & Hlk); [done|done|done|done|done|].
  simpl. unfold srv_disconnect. rewrite E1. simpl. rewrite E2. simpl. exists net2, sg'.
  split; [done|]. split; [by eapply wf_same|]. split; [done|]. split; [done|]. split; [done|].
  split; [intros j; by apply conn_set|]. intros a b. destruct (Hlk a b) as [[? Ht]|[? Ht]]; [left|right];
    (split; [done|]); unfold touches in *; naive_solver.
Qed.

(** ** Partitions *)

(** what the loop over one part establishes *)
Record parted (st0 : state) (o l : list Z) (st : state) : Prop := {
  pt_wf : wf st;
  pt_srvs : srvs st.2 = srvs st0.2;
  pt_conn : ∀ a, conn st.2 a = if decide (a ∈ l) then true else conn st0.2 a;
  pt_in : ∀ a b, a ∈ l → b ∈ l → linked st a b = true;
  pt_out : ∀ a b, a ∈ l → b ∈ o → linked st a b = false ∧ linked st b a = false
}.

Lemma in_group_ext sg sg' i : srvs sg' = srvs sg → in_group sg i → in_group sg' i.
Proof. unfold in_group, N. by intros ->. Qed.

(** one part is cut off from [o]; links that do not touch it stay *)
Lemma part_loop st p o : wf st → Forall (in_group st.2) p → Forall (in_group st.2) o → (∀ a, a ∈ p → a ∉ o) →
  ∃ st', for_each (λ i st, st ← disconnect i o st; connect i p st) p st = Ret st' ∧ parted st o p st' ∧
    ∀ a b, a ∉ p → b ∉ p → linked st' a b = linked st a b.
Proof.
  intros Hwf Hp Ho Hdis.
  apply (for_each_inv (λ l st', parted st o l st' ∧ ∀ a b, a ∉ p → b ∉ p → linked st' a b = linked st a b)).
  { split; [|done]. split; try done; try (by intros ? ? []%not_elem_of_nil). }
  intros l1 i l2 [net1 sg1] Hl [[H1 H2 H3 H4 H5] H6]. cbn beta. cbn [fst snd] in *.
  assert (i ∈ p) as Hip by (subst p; apply elem_of_app; right; by left).
  assert (Forall (in_group sg1) p ∧ Forall (in_group sg1) o) as [Hp1 Ho1].
  { split; eapply Forall_impl; [exact Hp| |exact Ho|]; intros; by eapply in_group_ext. }
  assert (in_group sg1 i) as Hi by (by eapply Forall_forall in Hp1).
  destruct (disconnect_ok net1 sg1 i o H1 Hi Ho1) as (net2 & sg2 & E2 & W2 & _ & S2 & _ & C2 & L2).
  assert (in_group sg2 i) as Hi2 by (by eapply in_group_ext).
  assert (Forall (in_group sg2) p) as Hp2 by (eapply Forall_impl; [exact Hp1|]; intros; by eapply in_group_ext).
  destruct (connect_ok net2 sg2 i p W2 Hi2 Hp2) as (net3 & sg3 & E3 & W3 & _ & S3 & _ & C3 & L3).
  rewrite E2. cbn [mbind outcome_bind]. rewrite E3. exists (net3, sg3). split; [done|].
  assert (∀ a, a ∈ l1 → a ∈ p) as Hlp by (intros a Ha; subst p; apply elem_of_app; by left).
  assert (∀ a, a ∈ l1 ++ [i] → conn sg3 a = true) as Hc3.
  { intros a Ha. rewrite C3, C2, H3. destruct (decide (a = i)); [done|].
    apply elem_of_app in Ha as [Ha|Ha%list_elem_of_singleton]; [by rewrite decide_True|done]. }
  split; [split; simpl; [done|congruence|..]|].
  - intros a. rewrite C3, C2, H3. destruct (decide (a = i)) as [->|].
    + rewrite decide_True; [done|]. apply elem_of_app. right. by left.
    + destruct (decide (a ∈ l1)); [rewrite decide_True; [done|apply elem_of_app; by left]|].
      rewrite decide_False; [done|]. rewrite elem_of_app, list_elem_of_singleton. naive_solver.
  - intros a b Ha Hb. destruct (L3 a b) as [[? _]|[-> Hn3]]; [done|].
    assert (a ≠ i ∧ b ≠ i) as [Hai Hbi].
    { split; intros ->; apply Hn3; [left|right]; (split; [done|]); (split; [|by apply Hc3]).
      - apply elem_of_app in Hb as [?| ->%list_elem_of_singleton]; auto.
      - apply elem_of_app in Ha as [?| ->%list_elem_of_singleton]; auto. }
    assert (a ∈ l1 ∧ b ∈ l1) as [? ?].
    { apply elem_of_app in Ha as [?|?%list_elem_of_singleton], Hb as [?|?%list_elem_of_singleton]; done. }
    destruct (L2 a b) as [[_ [[? _]|[? _]]]|[-> _]]; try done. by apply H4.
  - intros a b Ha Hb.
    assert (∀ c d, (c ∈ l1 ++ [i] ∧ d ∈ o ∨ c ∈ o ∧ d ∈ l1 ++ [i]) → linked (net3, sg3) c d = false) as Hcut;
      [|split; apply Hcut; auto].
    intros c d Hcd. assert (¬ (c ∈ p ∧ d ∈ p)) as Hnp by (destruct Hcd as [[_ ?]|[? _]]; naive_solver).
    destruct (L3 c d) as [[_ [[-> [? _]]|[-> [? _]]]]|[-> _]]; [by destruct Hnp|by destruct Hnp|].
    destruct (L2 c d) as [[-> _]|[-> Hn2]]; [done|].
    destruct Hcd as [[Hc Hd]|[Hc Hd]].
    + apply elem_of_app in Hc as [Hc| ->%list_elem_of_singleton]; [by apply (H5 c d)|]. destruct Hn2. by left.
    + apply elem_of_app in Hd as [Hd| ->%list_elem_of_singleton]; [by apply (H5 d c)|]. destruct Hn2. by right.
  - intros a b Ha Hb. destruct (L3 a b) as [[_ [[-> _]|[-> _]]]|[-> _]]; [done..|].
    destruct (L2 a b) as [[_ [[-> _]|[-> _]]]|[-> _]]; [done..|]. by apply H6.
Qed.

(** C27. Partitioning: whatever was connected before, after [Partition] of a
    group into two disjoint parts the end from one server of the parts to another
    is enabled exactly when they are in the same part, and all count as
    connected. *)
Theorem partition_exact st p1 p2 : wf st → Forall (in_group st.2) p1 → Forall (in_group st.2) p2 →
  (∀ a, a ∈ p1 → a ∉ p2) →
  ∃ st', Partition p1 p2 st = Ret st' ∧ wf st' ∧
    ∀ a b, a ∈ p1 ++ p2 → b ∈ p1 ++ p2 →
      conn st'.2 a = true ∧ linked st' a b = bool_decide (a ∈ p1 ∧ b ∈ p1 ∨ a ∈ p2 ∧ b ∈ p2).
Proof.
  intros Hwf H1 H2 Hdis. unfold Partition.
  destruct (part_loop st p1 p2 Hwf H1 H2 Hdis) as (st1 & E1 & [W1 S1 C1 L1 X1] & F1). rewrite E1. simpl.
  assert (∀ l, Forall (in_group st.2) l → Forall (in_group st1.2) l) as Hin.
  { intros l Hl. eapply Forall_impl; [exact Hl|]. intros; by eapply in_group_ext. }
  destruct (part_loop st1 p2 p1 W1 (Hin _ H2) (Hin _ H1)) as (st2 & E2 & [W2 S2 C2 L2 X2] & F2); [naive_solver|].
  exists st2. split; [exact E2|]. split; [done|]. intros a b Ha Hb. rewrite elem_of_app in Ha, Hb. split.
  { rewrite C2, C1. repeat case_decide; naive_solver. }
  destruct Ha as [Ha|Ha], Hb as [Hb|Hb].
  - rewrite F2, L1 by auto. symmetry. apply bool_decide_eq_true. by left.
  - destruct (X2 b a Hb Ha) as [_ ->]. symmetry. apply bool_decide_eq_false. naive_solver.
  - destruct (X2 a b Ha Hb) as [-> _]. symmetry. apply bool_decide_eq_false. naive_solver.
  - rewrite L2 by auto. symmetry. apply bool_decide_eq_true. by right.
Qed.

(** ** One server at a time *)

Inductive op :=
| OConnect (i : Z)
| ODisconnect (i : Z)
| OShutdown (i : Z)
| OStart (i : Z) (names : list string) (started : bool)
| OSave (i : Z) (p : Persister).      (** the server's process saves *)

Definition op_step (o : op) (st : state) : outcome state :=
  match o with
  | OConnect i => ConnectOne i st
  | ODisconnect i => DisconnectAll i st
  | OShutdown i => ShutdownServer i st
  | OStart i names started => '(_, st) ← StartServer i names started st; Ret st
  | OSave i p => daemon_saves i p st
  end.

Definition run_ops (os : list op) (st : state) : outcome state := for_each op_step os st.

(** "If restart servers, first call ShutdownServer": the server that is started
    was shut down or never started, and is not connected; there are as many names
    as the code draws. *)
Definition ready (o : op) (st : state) : bool :=
  match o with
  | OStart i names _ => negb (conn st.2 i) && negb (running st.2 i) && bool_decide (length names = length (srvs st.2))
  | _ => true
  end.
Fixpoint careful (os : list op) (st : state) : bool :=
  match os with
  | [] => true
  | o :: os' => ready o st && match op_step o st with Ret st' => careful os' st' | _ => true end
  end.

(** two servers are linked when both are connected *)
Definition mesh (st : state) : Prop := ∀ a b, in_group st.2 a → in_group st.2 b →
  linked st a b = conn st.2 a && conn st.2 b.

Lemma all_in sg j : j ∈ all sg ↔ in_group sg j.
Proof.
  unfold all, indices, in_group, N, zlen. rewrite list_elem_of_fmap. setoid_rewrite elem_of_seq. split.
  - intros (k & -> & ?). lia.
  - intros ?. exists (Z.to_nat j). lia.
Qed.

Lemma all_forall sg : Forall (in_group sg) (all sg).
Proof. apply Forall_forall. intros j. by apply all_in. Qed.

Lemma go_index_in {A} (l : list A) i x : go_index l i = Ret x → 0 ≤ i < zlen l ∧ l !! Z.to_nat i = Some x.
Proof. intros E%go_index_Ret. by apply zlookup_Some in E. Qed.

Lemma go_update_in {A} (l l' : list A) i x : go_update l i x = Ret l' → 0 ≤ i < zlen l ∧ l' = <[Z.to_nat i := x]> l.
Proof. unfold go_update. case_decide; [|done]. by intros [= <-]. Qed.

Lemma connect_in i to net sg st' : wf (net, sg) → connect i to (net, sg) = Ret st' → in_group sg i.
Proof.
  intros Hwf E. apply outcome_bind_ret in E as (c & Hc%go_update_in & _). pose proof (wf_connected _ Hwf) as Hl.
  unfold in_group, N, zlen in *. simpl in Hl. lia.
Qed.

Lemma disconnect_in i from net sg st' : wf (net, sg) → disconnect i from (net, sg) = Ret st' → in_group sg i.
Proof.
  intros Hwf E. apply outcome_bind_ret in E as (c & Hc%go_update_in & _). pose proof (wf_connected _ Hwf) as Hl.
  unfold in_group, N, zlen in *. simpl in Hl. lia.
Qed.

Lemma connect_inv i st st' : wf st → mesh st → ConnectOne i st = Ret st' → wf st' ∧ mesh st'.
Proof.
  destruct st as [net sg]. intros Hwf Hm E. change (connect i (all sg) (net, sg) = Ret st') in E.
  pose proof (connect_in _ _ _ _ _ Hwf E) as Hi.
  destruct (connect_ok net sg i (all sg) Hwf Hi (all_forall sg)) as (net' & sg' & E' & Hwf' & _ & Hs & _ & Hc & Hlk).
  rewrite E' in E. injection E as <-. split; [done|]. intros a b Ha Hb. cbn [fst snd] in *.
  apply (in_group_ext sg' sg) in Ha, Hb; [|done..]. apply (all_in sg) in Ha as Ha', Hb as Hb'.
  destruct (Hlk a b) as [[-> Ht]|[-> Ht]].
  - assert (conn sg' i = true) as Hci by (by rewrite Hc, decide_True).
    destruct Ht as [[-> [_ Hj]]|[-> [_ Hj]]]; by rewrite ?Hci, ?Hj.
  - rewrite (Hm a b Ha Hb). cbn [snd]. unfold touches in Ht. rewrite !Hc in *.
    destruct (decide (a = i)) as [->|]; destruct (decide (b = i)) as [->|]; simpl in *; try done.
    + destruct Ht. by left.
    + destruct (conn sg b); [|by rewrite andb_false_r]. destruct Ht. by left.
    + destruct (conn sg a); [|done]. destruct Ht. by right.
Qed.

Lemma disconnect_inv i st st' : wf st → mesh st → DisconnectAll i st = Ret st' →
  wf st' ∧ mesh st' ∧ in_group st.2 i ∧ conn st'.2 i = false ∧ srvs st'.2 = srvs st.2.
Proof.
  destruct st as [net sg]. intros Hwf Hm E. change (disconnect i (all sg) (net, sg) = Ret st') in E.
  pose proof (disconnect_in _ _ _ _ _ Hwf E) as Hi.
  destruct (disconnect_ok net sg i (all sg) Hwf Hi (all_forall sg)) as (net' & sg' & E' & Hwf' & _ & Hs & _ & Hc & Hlk).
  rewrite E' in E. injection E as <-. split; [done|]. split; [|by rewrite Hc, decide_True].
  intros a b Ha Hb. cbn [fst snd] in *. apply (in_group_ext sg' sg) in Ha, Hb; [|done..].
  apply (all_in sg) in Ha as Ha', Hb as Hb'. rewrite !Hc. destruct (Hlk a b) as [[-> Ht]|[-> Ht]].
  - destruct Ht as [[-> _]|[-> _]]; rewrite (decide_True (P:=i = i)) by done; [done|by rewrite andb_false_r].
  - rewrite (Hm a b Ha Hb). unfold touches in Ht. rewrite !decide_False; [done|naive_solver..].
Qed.

Lemma endname_eq i j sg : endname i j sg = match zlookup (srvs sg) i with Some s => go_index (endNames s) j | None => Panic end.
Proof. unfold endname, go_index. by destruct (zlookup (srvs sg) i). Qed.

Lemma zlookup_insert {A} (l : list A) i a x : 0 ≤ i → (Z.to_nat i < length l)%nat →
  zlookup (<[Z.to_nat i := x]> l) a = if decide (a = i) then Some x else zlookup l a.
Proof.
  intros Hi Hl. unfold zlookup. destruct (decide (a < 0)); [by rewrite decide_False by lia|].
  destruct (decide (a = i)) as [->|]; [by apply list_lookup_insert_eq|rewrite list_lookup_insert_ne by lia; done].
Qed.

(** a server keeps its ends *)
Lemma same_names net net' sg i s s' : wf (net, sg) → mesh (net, sg) → srvs sg !! Z.to_nat i = Some s → 0 ≤ i →
  endNames s' = endNames s → ends net' = ends net → enabled net' = enabled net →
  wf (net', set_srvs (<[Z.to_nat i := s']> (srvs sg)) sg) ∧ mesh (net', set_srvs (<[Z.to_nat i := s']> (srvs sg)) sg).
Proof.
  intros [H1 H2 H3 H4] Hm Hi Hpos Hn Hends Hen. cbn [fst snd] in *.
  set (sg' := set_srvs (<[Z.to_nat i := s']> (srvs sg)) sg).
  assert (length (srvs sg') = length (srvs sg)) as Hl by (unfold sg'; simpl; by rewrite length_insert).
  assert (∀ a b, endname a b sg' = endname a b sg) as He.
  { intros a b. rewrite !endname_eq. unfold sg'. cbn [srvs set_srvs]. rewrite zlookup_insert by (done || by eapply lookup_lt_Some).
    destruct (decide (a = i)) as [->|]; [|done]. unfold zlookup. rewrite decide_False by lia. by rewrite Hi, Hn. }
  split; [split; cbn [fst snd]|]; rewrite ?Hl.
  - done.
  - intros j x Hx. unfold sg' in Hx. simpl in Hx. destruct (decide (Z.to_nat i = j)) as [<-|].
    + rewrite list_lookup_insert_eq in Hx by (by eapply lookup_lt_Some). injection Hx as <-. rewrite Hn. by eapply H2.
    + rewrite list_lookup_insert_ne in Hx by done. by eapply H2.
  - intros a b a' b' e. rewrite !He. apply H3.
  - intros a b e. rewrite He, Hends. apply H4.
  - intros a b Ha Hb. unfold in_group, N, zlen in *. cbn [fst snd] in *. rewrite Hl in *.
    specialize (Hm a b Ha Hb). unfold linked, is_enabled in *. cbn [fst snd] in *. by rewrite He, Hen.
Qed.

(** *** New ends *)

(** [net'] has the ends of [net] and new ones with these names, which are off *)
Definition new_ends (net net' : Network) (names : list string) : Prop :=
  NoDup names ∧ (∀ e, e ∈ names → ends net !! e = None) ∧
  (∀ e, is_Some (ends net' !! e) ↔ is_Some (ends net !! e) ∨ e ∈ names) ∧
  (∀ e, is_enabled net' e = if decide (e ∈ names) then false else is_enabled net e).

Lemma new_ends_nil net : new_ends net net [].
Proof.
  split_and!; [apply NoDup_nil_2|by intros ? []%not_elem_of_nil| |].
  - intros e. rewrite elem_of_nil. tauto.
  - intros e. by rewrite decide_False by apply not_elem_of_nil.
Qed.

Lemma new_ends_app net net1 net2 l1 l2 : new_ends net net1 l1 → new_ends net1 net2 l2 → new_ends net net2 (l1 ++ l2).
Proof.
  intros (N1 & F1 & E1 & L1) (N2 & F2 & E2 & L2).
  assert (∀ e, e ∈ l2 → ends net !! e = None ∧ e ∉ l1) as Hl2.
  { intros e He. specialize (F2 e He). split.
    - apply eq_None_not_Some. intros Hs. by destruct (proj2 (E1 e) (or_introl Hs)); congruence.
    - intros Hl. by destruct (proj2 (E1 e) (or_intror Hl)); congruence. }
  split_and!.
  - apply NoDup_app. split; [done|]. split; [|done]. intros e Ha Hb. by apply (Hl2 e).
  - intros e [He|He]%elem_of_app; [by apply F1|by apply Hl2].
  - intros e. rewrite E2, E1, elem_of_app. tauto.
  - intros e. rewrite L2, L1. repeat case_decide; try done; rewrite elem_of_app in *; tauto.
Qed.

Lemma make_ends_new g j names net net' es : make_ends g j names net = Ret (net', es) → new_ends net net' names.
Proof.
  revert j net net' es. induction names as [|nm names IH]; intros j net net' es; simpl.
  { intros [= <- <-]. apply new_ends_nil. }
  unfold MakeEnd. destruct (ends net !! nm) as [?|] eqn:Hn; [done|]. simpl.
  intros E. apply outcome_bind_ret in E as ([net2 es2] & E & [= <- <-]). apply IH in E.
  eapply (new_ends_app _ _ _ [nm]); [|exact E]. split_and!.
  - apply NoDup_singleton.
  - by intros e ->%list_elem_of_singleton.
  - intros e. simpl. rewrite lookup_insert_is_Some, list_elem_of_singleton. destruct (decide (nm = e)); naive_solver.
  - intros e. unfold is_enabled. simpl. destruct (decide (e = nm)) as [->|].
    + rewrite lookup_insert_eq, decide_True by (by apply list_elem_of_singleton). done.
    + rewrite lookup_insert_ne, decide_False by (done || by rewrite list_elem_of_singleton). done.
Qed.

(** what [StartServer] leaves: the new server, with or without its process *)
Lemma StartServer_ret i names started net sg b st' : StartServer i names started (net, sg) = Ret (b, st') →
  ∃ s srv net1, 0 ≤ i ∧ srvs sg !! Z.to_nat i = Some s ∧ endNames srv = names ∧ gid st'.2 = gid sg
    ∧ (∃ es, make_ends (gid sg) 0 names net = Ret (net1, es))
    ∧ connected st'.2 = connected sg ∧ srvs st'.2 = <[Z.to_nat i := srv]> (srvs sg)
    ∧ dc srv = (if started then Some (default MakePersister (saved s)) else None)
    ∧ ends st'.1 = ends net1 ∧ enabled st'.1 = enabled net1 ∧ connections st'.1 = connections net1
    ∧ servers st'.1 = (if started then <[ServerName (gid sg) i := Some (length (LabRpc.srvs net1))]> (servers net1) else servers net1).
Proof.
  unfold StartServer. intros (s & [Hi Hs]%go_index_in & E)%outcome_bind_ret.
  apply outcome_bind_ret in E as ([net1 srv] & E1 & E). unfold startServer, makeServer in E1.
  apply outcome_bind_ret in E1 as ([net2 srv2] & E1 & [= <- <-]).
  apply outcome_bind_ret in E1 as ([net3 es] & E1 & [= <- <-]).
  rewrite go_update_Ret in E by done. destruct started; simpl in E.
  - rewrite go_update_Ret in E by (unfold zlen in *; by rewrite length_insert).
    simpl in E. rewrite list_insert_insert_eq in E. injection E as <- <-.
    eexists s, _, net3. split; [lia|]. split; [done|]. split; [|split; [done|split; [by eexists|split; [done|split; [reflexivity|]]]]]; done.
  - injection E as <- <-.
    eexists s, _, net3. split; [lia|]. split; [done|]. split; [|split; [done|split; [by eexists|split; [done|split; [reflexivity|]]]]]; done.
Qed.

Lemma start_inv i names started b st st' : wf st → mesh st → conn st.2 i = false → length names = length (srvs st.2) →
  StartServer i names started st = Ret (b, st') → wf st' ∧ mesh st'.
Proof.
  destruct st as [net sg], st' as [net' sg']. intros [H1 H2 H3 H4] Hm Hc Hlen E. cbn [fst snd] in *.
  apply StartServer_ret in E as (s & srv & net3 & Hi & Hs & Hsn & _ & (es & (Hnd & Hfr & Hends & Hen)%make_ends_new)
    & Hcd & Hsrvs & _ & Hends' & Hen' & _).
  cbn [fst snd] in *.
  assert (length (srvs sg') = length (srvs sg)) as Hl by (by rewrite Hsrvs, length_insert).
  assert (∀ a b, endname a b sg' = if decide (a = i) then go_index names b else endname a b sg) as He.
  { intros a c. rewrite !endname_eq, Hsrvs.
    rewrite zlookup_insert by (lia || by eapply lookup_lt_Some). destruct (decide (a = i)); [by rewrite Hsn|done]. }
  assert (∀ a c e, endname a c sg = Ret e → e ∉ names) as Hold.
  { intros a c e Ha Hin. destruct (H4 a c e Ha) as [? Hse]. by rewrite Hfr in Hse. }
  assert (∀ c e, go_index names c = Ret e → e ∈ names) as Hnew.
  { intros c e [_ Hx]%go_index_in. by eapply list_elem_of_lookup_2. }
  split; [split; cbn [fst snd]|]; rewrite ?Hl, ?Hcd; try done.
  - intros j y Hy. rewrite Hsrvs in Hy. destruct (decide (Z.to_nat i = j)) as [<-|].
    + rewrite list_lookup_insert_eq in Hy by (by eapply lookup_lt_Some). injection Hy as <-. by rewrite Hsn.
    + rewrite list_lookup_insert_ne in Hy by done. by eapply H2.
  - intros a c a' c' e. rewrite !He. destruct (decide (a = i)) as [->|], (decide (a' = i)) as [->|]; intros Ha Ha'.
    + split; [done|]. apply go_index_in in Ha as [? Ha], Ha' as [? Ha']. pose proof (NoDup_lookup _ _ _ _ Hnd Ha Ha'). lia.
    + exfalso. eapply Hold; [exact Ha'|]. by eapply Hnew.
    + exfalso. eapply Hold; [exact Ha|]. by eapply Hnew.
    + by eapply H3.
  - intros a c e. rewrite He, Hends', Hends. destruct (decide (a = i)); intros Ha; [right; by eapply Hnew|left; by eapply H4].
  - intros a c Ha Hb. unfold in_group, N, zlen in *. cbn [fst snd] in *. rewrite Hl in *.
    assert (∀ j, conn sg' j = conn sg j) as Hconn by (intros; unfold conn; by rewrite Hcd). rewrite !Hconn.
    specialize (Hm a c Ha Hb). unfold linked in *. cbn [fst snd] in *. rewrite He.
    assert (∀ e, is_enabled net' e = is_enabled net3 e) as Hen2 by (intros; unfold is_enabled; by rewrite Hen').
    destruct (decide (a = i)) as [->|].
    + rewrite Hc. simpl. destruct (go_index names c) as [e| |] eqn:Hg; try done.
      rewrite Hen2, Hen, decide_True; [done|by eapply Hnew].
    + rewrite <-Hm. destruct (endname a c sg) as [e| |] eqn:Hg; try done. rewrite Hen2, Hen, decide_False; [done|by eapply Hold].
Qed.

(** *** Where the ends lead *)

(** every end is connected to the name of its server, and a server is registered
    exactly while its process runs *)
Record wired (st : state) : Prop := {
  wd_size : N st.2 ≤ 2 ^ 63;
  wd_conns : ∀ i j e, endname i j st.2 = Ret e → connections st.1 !! e = Some (Some (ServerName (gid st.2) j));
  wd_servers : ∀ j, in_group st.2 j → is_Some (server_of st.1 (ServerName (gid st.2) j)) ↔ running st.2 j = true
}.

Lemma app_inj_l (s a b : string) : (s ++ a = s ++ b → a = b)%string.
Proof. induction s as [|x s IH]; simpl; [done|]. intros [= E]. by apply IH. Qed.

Lemma ServerName_inj g i j : 0 ≤ i < 2 ^ 63 → 0 ≤ j < 2 ^ 63 → ServerName g i = ServerName g j → i = j.
Proof.
  unfold ServerName. intros Hi Hj E. do 3 apply app_inj_l in E.
  apply (f_equal to_chars) in E. rewrite !to_of_chars in E. apply (f_equal ParseInt) in E.
  rewrite !ParseInt_Itoa in E by (apply bool_decide_eq_true; lia). by injection E.
Qed.

Lemma reaches_eq st a b : wired st → in_group st.2 b → reaches st a b = linked st a b && running st.2 b.
Proof.
  intros [_ Hc Hs] Hb. unfold reaches, linked. destruct (endname a b st.2) as [e| |] eqn:He; try done.
  unfold readEndnameInfo. destruct (is_enabled st.1 e); [|done]. rewrite (Hc a b e He). simpl.
  specialize (Hs b Hb). destruct (server_of st.1 _) as [s|]; simpl.
  - rewrite (proj1 Hs) by (by eexists). by apply bool_decide_eq_true.
  - destruct (running st.2 b); [|done]. by destruct (proj2 Hs eq_refl).
Qed.

Lemma wired_same net net' sg sg' : wired (net, sg) → same_ends net net' → srvs sg' = srvs sg → gid sg' = gid sg → wired (net', sg').
Proof.
  intros [H1 H2 H3] [en ->] Hs Hg. cbn [fst snd] in *.
  split; cbn [fst snd]; unfold in_group, N, endname, running in *; rewrite ?Hs, ?Hg; done.
Qed.

Lemma connect_wired i st st' : wf st → wired st → ConnectOne i st = Ret st' → wired st'.
Proof.
  destruct st as [net sg]. intros Hwf Hw E. change (connect i (all sg) (net, sg) = Ret st') in E.
  pose proof (connect_in _ _ _ _ _ Hwf E) as Hi.
  destruct (connect_ok net sg i (all sg) Hwf Hi (all_forall sg)) as (net' & sg' & E' & _ & Hn & Hs & Hg & _).
  rewrite E' in E. injection E as <-. by eapply wired_same.
Qed.

Lemma disconnect_wired i st st' : wf st → wired st → DisconnectAll i st = Ret st' → wired st'.
Proof.
  destruct st as [net sg]. intros Hwf Hw E. change (disconnect i (all sg) (net, sg) = Ret st') in E.
  pose proof (disconnect_in _ _ _ _ _ Hwf E) as Hi.
  destruct (disconnect_ok net sg i (all sg) Hwf Hi (all_forall sg)) as (net' & sg' & E' & _ & Hn & Hs & Hg & _).
  rewrite E' in E. injection E as <-. by eapply wired_same.
Qed.

(** server [i] is replaced *)
Lemma wired_update net net' sg sg' i srv : wired (net, sg) → in_group sg i →
  srvs sg' = <[Z.to_nat i := srv]> (srvs sg) → gid sg' = gid sg →
  (∀ a c e, endname a c sg' = Ret e → connections net' !! e = Some (Some (ServerName (gid sg) c))) →
  (∀ nm, nm ≠ ServerName (gid sg) i → server_of net' nm = server_of net nm) →
  (is_Some (server_of net' (ServerName (gid sg) i)) ↔ is_Some (dc srv)) → wired (net', sg').
Proof.
  intros [H1 H2 H3] Hi Hs Hg Hc Ho Hd. cbn [fst snd] in *. unfold in_group, N, zlen in *.
  assert (length (srvs sg') = length (srvs sg)) as Hl by (by rewrite Hs, length_insert).
  split; cbn [fst snd]; rewrite ?Hg; [unfold N, zlen; by rewrite Hl|done|].
  intros j Hj. unfold in_group, N, zlen in Hj. rewrite Hl in Hj. unfold running. rewrite Hs, zlookup_insert by lia.
  destruct (decide (j = i)) as [->|Hne]; [by rewrite bool_decide_eq_true|].
  rewrite Ho; [by apply H3|]. intros E%ServerName_inj; lia.
Qed.

Lemma endname_update sg sg' i s srv a c : 0 ≤ i → srvs sg !! Z.to_nat i = Some s →
  srvs sg' = <[Z.to_nat i := srv]> (srvs sg) → endname a c sg' = if decide (a = i) then go_index (endNames srv) c else endname a c sg.
Proof.
  intros Hi Hs Hs'. rewrite !endname_eq, Hs', zlookup_insert by (done || by eapply lookup_lt_Some).
  by destruct (decide (a = i)).
Qed.

Lemma endname_kept sg sg' i s srv a c : 0 ≤ i → srvs sg !! Z.to_nat i = Some s → endNames srv = endNames s →
  srvs sg' = <[Z.to_nat i := srv]> (srvs sg) → endname a c sg' = endname a c sg.
Proof.
  intros Hi Hs Hn Hs'. rewrite (endname_update sg sg' i s srv) by done. destruct (decide (a = i)) as [->|]; [|done].
  rewrite endname_eq. unfold zlookup. rewrite decide_False by lia. by rewrite Hs, Hn.
Qed.

Lemma make_ends_conns g j names net net' es : make_ends g j names net = Ret (net', es) →
  servers net' = servers net
  ∧ (∀ e, e ∉ names → connections net' !! e = connections net !! e)
  ∧ (∀ k e, names !! k = Some e → connections net' !! e = Some (Some (ServerName g (j + Z.of_nat k)))).
Proof.
  revert j net net' es. induction names as [|nm names IH]; intros j net net' es Em; simpl in Em; [by injection Em as <- <-|].
  assert (NoDup (nm :: names)) as Hnd by (by eapply make_ends_new).
  apply NoDup_cons in Hnd as [Hnm _].
  unfold MakeEnd in Em. destruct (ends net !! nm); [done|]. simpl in Em.
  apply outcome_bind_ret in Em as ([net2 es2] & Em & [= <- <-]). apply IH in Em as (Hs & Ho & Hn). cbn in Hs, Ho.
  split; [done|]. split.
  - intros e [? ?]%not_elem_of_cons. rewrite Ho by done. by rewrite !lookup_insert_ne.
  - intros [|k] e He; simpl in He.
    + injection He as <-. rewrite Ho by done. rewrite lookup_insert_eq. by rewrite Z.add_0_r.
    + rewrite (Hn k e He). do 3 f_equal. lia.
Qed.

Lemma start_wired i names started b st st' : wf st → wired st → running st.2 i = false →
  StartServer i names started st = Ret (b, st') → wired st'.
Proof.
  destruct st as [net sg], st' as [net' sg']. intros [_ _ _ H4] Hw Hr E. cbn [fst snd] in *.
  apply StartServer_ret in E as (s & srv & net3 & Hi & Hs & Hsn & Hg & (es & Em) & _ & Hsrvs & Hdc & _ & _ & Hcn & Hsv).
  cbn [fst snd] in *. pose proof (make_ends_new _ _ _ _ _ _ Em) as (_ & Hfr & _).
  apply make_ends_conns in Em as (Hs3 & Ho3 & Hn3).
  assert (in_group sg i) as Hin by (apply lookup_lt_Some in Hs; unfold in_group, N, zlen; lia).
  pose proof Hw as [_ Hw2 Hw3]. cbn [fst snd] in *.
  eapply (wired_update net net' sg sg' i srv); try done.
  - intros a c e. rewrite (endname_update sg sg' i s srv) by done. rewrite Hsn, Hcn.
    destruct (decide (a = i)) as [->|]; intros He.
    + apply go_index_in in He as [? He]. rewrite (Hn3 _ _ He). do 3 f_equal. lia.
    + rewrite Ho3; [by eapply Hw2|]. intros ?. destruct (H4 _ _ _ He) as [? ?]. by rewrite Hfr in *.
  - intros nm Hne. unfold server_of. rewrite Hsv, Hs3. destruct started; [by rewrite lookup_insert_ne|done].
  - unfold server_of. rewrite Hsv, Hdc, Hs3. destruct started; [rewrite lookup_insert_eq; simpl; split; by eexists|].
    change (is_Some (server_of net (ServerName (gid sg) i)) ↔ is_Some (None : option Persister)).
    rewrite (Hw3 i Hin), Hr. split; [done|by intros [? ?]].
Qed.

Definition group_ok (st : state) : Prop := wf st ∧ mesh st ∧ wired st.

Lemma op_inv o st st' : group_ok st → ready o st = true → op_step o st = Ret st' → group_ok st'.
Proof.
  intros (Hwf & Hm & Hw) Hr E. unfold group_ok. destruct o as [i|i|i|i names started|i p]; cbn [op_step] in E.
  - destruct (connect_inv i st st' Hwf Hm E) as [? ?]. split_and!; try done. by apply (connect_wired i st).
  - destruct (disconnect_inv i st st' Hwf Hm E) as (? & ? & _). split_and!; try done. by apply (disconnect_wired i st).
  - unfold ShutdownServer in E. apply outcome_bind_ret in E as ([net sg] & E1 & E).
    destruct (disconnect_inv i st _ Hwf Hm E1) as (Hwf1 & Hm1 & _). pose proof (disconnect_wired _ _ _ Hwf Hw E1) as Hw1.
    apply outcome_bind_ret in E as (s & [Hi Hs]%go_index_in & E).
    rewrite go_update_Ret in E by done. injection E as <-.
    assert (endNames (shutdownServer s) = endNames s) as Hn by (unfold shutdownServer; by destruct (dc s)).
    destruct (same_names net (DeleteServer (ServerName (gid sg) i) net) sg i s (shutdownServer s)) as [? ?]; try done; [lia|].
    split_and!; [done..|]. eapply (wired_update net _ sg _ i (shutdownServer s)); try done.
    + intros a c e. rewrite (endname_kept sg _ i s (shutdownServer s)) by (done || lia). apply Hw1.
    + intros nm Hne. unfold server_of. simpl. by rewrite lookup_insert_ne.
    + unfold server_of. simpl. rewrite lookup_insert_eq. simpl. unfold shutdownServer. destruct (dc s) eqn:Hd; simpl; rewrite ?Hd; split; by intros [? ?].
  - cbn [ready] in Hr. apply andb_true_iff in Hr as [[Hc%negb_true_iff Hrn%negb_true_iff]%andb_true_iff Hl%bool_decide_eq_true].
    apply outcome_bind_ret in E as ([b st1] & E & [= <-]).
    destruct (start_inv _ _ _ _ _ _ Hwf Hm Hc Hl E) as [? ?]. split_and!; try done. by apply (start_wired i names started b st).
  - destruct st as [net sg]. unfold daemon_saves in E. apply outcome_bind_ret in E as (s & [Hi Hs]%go_index_in & E).
    rewrite go_update_Ret in E by done. injection E as <-. cbn [fst snd] in *.
    set (s' := with_dc _ s). destruct (same_names net net sg i s s') as [? ?]; try done; [lia|].
    split_and!; try done. eapply (wired_update net _ sg _ i s'); try done.
    + intros a c e. rewrite (endname_kept sg _ i s s') by (done || lia). apply Hw.
    + rewrite (wd_servers _ Hw i) by done. cbn [snd]. unfold running, zlookup. rewrite decide_False, Hs by lia.
      rewrite bool_decide_eq_true. simpl. by destruct (dc s).
Qed.

Lemma for_each_ret {A S} (P : S → Prop) (f : A → S → outcome S) l s s' :
  (∀ a s s', P s → f a s = Ret s' → P s') → P s → for_each f l s = Ret s' → P s'.
Proof.
  intros Hf. revert s. induction l as [|a l IH]; intros s Hs; simpl; [by intros [= <-]|].
  intros (s1 & E & Hr)%outcome_bind_ret. eapply IH; [by eapply Hf|done].
Qed.

Lemma names_position (names : list (list string)) a c a' c' e : NoDup (mjoin names) →
  names !! a ≫= (.!! c) = Some e → names !! a' ≫= (.!! c') = Some e → a = a' ∧ c = c'.
Proof.
  revert a a'. induction names as [|ns names IH]; intros a a' Hall Ha Ha'; [done|].
  apply NoDup_app in Hall as (Hnd & Hdis & Hnd'). destruct a as [|a], a' as [|a']; simpl in Ha, Ha'.
  - split; [done|]. exact (NoDup_lookup _ _ _ _ Hnd Ha Ha').
  - destruct (Hdis e); [by eapply list_elem_of_lookup_2|]. apply bind_Some in Ha' as (l & Hl & He).
    apply list_elem_of_join. exists l. split; by eapply list_elem_of_lookup_2.
  - destruct (Hdis e); [by eapply list_elem_of_lookup_2|]. apply bind_Some in Ha as (l & Hl & He).
    apply list_elem_of_join. exists l. split; by eapply list_elem_of_lookup_2.
  - destruct (IH a a' Hnd' Ha Ha'). by subst.
Qed.

Lemma make_servers_new g names net net' ss : make_servers g names net = Ret (net', ss) →
  endNames <$> ss = names ∧ new_ends net net' (mjoin names).
Proof.
  revert net net' ss. induction names as [|ns names IH]; intros net net' ss; simpl.
  { intros [= <- <-]. split; [done|apply new_ends_nil]. }
  intros ([net1 s] & E1 & E)%outcome_bind_ret. apply outcome_bind_ret in E as ([net2 ss2] & E2 & [= <- <-]).
  unfold makeServer in E1. apply outcome_bind_ret in E1 as ([net3 es] & E1%make_ends_new & [= <- <-]).
  destruct (IH _ _ _ E2) as [<- H2]. split; [done|]. by eapply new_ends_app.
Qed.

Lemma makeSrvGrp_inv g names net st : Forall (λ ns, length ns = length names) names →
  makeSrvGrp g names net = Ret st → wf st ∧ mesh st.
Proof.
  intros Hsq E. unfold makeSrvGrp in E. apply outcome_bind_ret in E as ([net' ss] & E & [= <-]).
  apply make_servers_new in E as (Hss & Hnd & Hfr & Hends & Hen).
  set (sg := {| gid := g; srvs := ss; servernames := _; connected := _ |}).
  assert (length ss = length names) as Hl by (by rewrite <-Hss, length_fmap).
  assert (∀ a c e, endname a c sg = Ret e → 0 ≤ a ∧ 0 ≤ c ∧ names !! Z.to_nat a ≫= (.!! Z.to_nat c) = Some e) as He.
  { intros a c e. unfold endname. simpl. intros (s & [? Hs]%go_index_in & [? Hx]%go_index_in)%outcome_bind_ret.
    split; [lia|]. split; [lia|]. rewrite <-Hss, list_lookup_fmap, Hs. exact Hx. }
  split; [split; cbn [fst snd]|].
  - simpl. by rewrite length_replicate.
  - intros i s Hs. simpl in *. rewrite Hl. rewrite Forall_lookup in Hsq. apply (Hsq i).
    by rewrite <-Hss, list_lookup_fmap, Hs.
  - intros a c a' c' e (? & ? & Ha)%He (? & ? & Ha')%He. destruct (names_position _ _ _ _ _ _ Hnd Ha Ha'). lia.
  - intros a c e (_ & _ & (l & Hx & Hy)%bind_Some)%He. apply Hends. right. apply list_elem_of_join.
    exists l. split; by eapply list_elem_of_lookup_2.
  - intros a c Ha _. unfold linked, conn. cbn [fst snd]. unfold zlookup. simpl.
    assert ((if decide (a < 0) then None else replicate (length names) false !! Z.to_nat a) = Some false) as ->.
    { unfold in_group in Ha. rewrite decide_False by lia. apply lookup_replicate. split; [done|].
      unfold N, zlen in Ha. simpl in Ha. lia. }
    simpl. destruct (endname a c sg) as [e| |] eqn:Hx; try done. apply He in Hx as (_ & _ & (l & Hx & Hy)%bind_Some).
    rewrite Hen, decide_True; [done|]. apply list_elem_of_join. exists l. split; by eapply list_elem_of_lookup_2.
Qed.

(** several servers' ends *)
Lemma make_servers_conns g names net net' ss : make_servers g names net = Ret (net', ss) →
  servers net' = servers net ∧ Forall (λ s, dc s = None) ss
  ∧ (∀ e, e ∉ mjoin names → connections net' !! e = connections net !! e)
  ∧ (∀ i c ns e, names !! i = Some ns → ns !! c = Some e →
       connections net' !! e = Some (Some (ServerName g (Z.of_nat c)))).
Proof.
  revert net net' ss. induction names as [|ns names IH]; intros net net' ss; simpl.
  { intros [= <- <-]. split_and!; [done|apply Forall_nil; done|done|by intros [|i] c ns e]. }
  intros ([net1 s] & E1 & E)%outcome_bind_ret. apply outcome_bind_ret in E as ([net2 ss2] & E2 & [= <- <-]).
  unfold makeServer in E1. apply outcome_bind_ret in E1 as ([net3 es] & E1 & [= <- <-]).
  pose proof (make_ends_new _ _ _ _ _ _ E1) as Hn1. destruct (make_servers_new _ _ _ _ _ E2) as [_ Hn2].
  destruct (new_ends_app _ _ _ _ _ Hn1 Hn2) as (Hnd & _). apply NoDup_app in Hnd as (_ & Hdis & _).
  apply make_ends_conns in E1 as (S1 & O1 & C1). destruct (IH _ _ _ E2) as (S2 & D2 & O2 & C2).
  split_and!.
  - congruence.
  - by constructor.
  - intros e [? ?]%not_elem_of_app. by rewrite O2, O1.
  - intros [|i] c ns' e Hi He; simpl in Hi; [|by eapply C2].
    injection Hi as <-. rewrite O2; [|apply Hdis; by eapply list_elem_of_lookup_2]. by apply (C1 c e).
Qed.

Lemma makeSrvGrp_wired g names net st : zlen names < 2 ^ 63 →
  (∀ j, 0 ≤ j < zlen names → server_of net (ServerName g j) = None) → makeSrvGrp g names net = Ret st → wired st.
Proof.
  intros Hsz Hno E. unfold makeSrvGrp in E. apply outcome_bind_ret in E as ([net' ss] & E & [= <-]).
  pose proof (make_servers_new _ _ _ _ _ E) as [Hss _]. apply make_servers_conns in E as (S1 & D1 & _ & C1).
  set (sg := {| gid := g; srvs := ss; servernames := _; connected := _ |}).
  assert (length ss = length names) as Hl by (by rewrite <-Hss, length_fmap).
  split; cbn [fst snd].
  - unfold N, zlen in *. simpl. rewrite Hl. lia.
  - intros i j e. unfold endname. simpl. intros (s & [? Hs]%go_index_in & [? Hx]%go_index_in)%outcome_bind_ret.
    rewrite (C1 (Z.to_nat i) (Z.to_nat j) (endNames s)); [by rewrite Z2Nat.id by lia| |done].
    by rewrite <-Hss, list_lookup_fmap, Hs.
  - intros j Hj. unfold in_group, N in Hj. simpl in Hj. unfold server_of. simpl. rewrite S1.
    change (is_Some (server_of net (ServerName g j)) ↔ running sg j = true).
    rewrite Hno by (unfold zlen in *; lia). unfold running. simpl.
    destruct (zlookup_is_Some ss j Hj) as [s Hs]. rewrite Hs. apply zlookup_Some in Hs as [_ Hs].
    rewrite Forall_lookup in D1. rewrite (D1 _ _ Hs). simpl. split; [by intros [? ?]|done].
Qed.

Lemma ops_inv os st st' : group_ok st → careful os st = true → run_ops os st = Ret st' → group_ok st'.
Proof.
  revert st. induction os as [|o os IH]; intros st Hst Hc E; simpl in E, Hc; [by injection E as <-|].
  apply outcome_bind_ret in E as (st1 & E1 & E). rewrite E1 in Hc. apply andb_true_iff in Hc as [Hr Hc].
  eapply IH; [by eapply op_inv|done|done].
Qed.

(** C19. Connections of a group.  A group was made in a network that has no
    servers of its names, and its servers were started (some processes may fail
    to start), stopped, connected and disconnected, and saved, in any order but
    for what the code's comment asks: a server is shut down, or was never
    started, and is not connected, when it is started.  Then the end from one
    server to another is enabled exactly when both count as connected, and a call
    on it finds the other server registered exactly when also that server's
    process runs. *)
Theorem links_follow_connected g names net st os st' a b :
  Forall (λ ns, length ns = length names) names → zlen names < 2 ^ 63 →
  (∀ j, 0 ≤ j < zlen names → server_of net (ServerName g j) = None) →
  makeSrvGrp g names net = Ret st → careful os st = true → run_ops os st = Ret st' →
  in_group st'.2 a → in_group st'.2 b →
  linked st' a b = conn st'.2 a && conn st'.2 b
  ∧ reaches st' a b = conn st'.2 a && conn st'.2 b && running st'.2 b.
Proof.
  intros Hsq Hsz Hno E Hc Hr Ha Hb. destruct (ops_inv os st st') as (_ & Hm & Hw); [|done|done|].
  - destruct (makeSrvGrp_inv g names net st Hsq E). split_and!; [done..|by eapply makeSrvGrp_wired].
  - rewrite (reaches_eq st' a b Hw Hb), (Hm a b Ha Hb). done.
Qed.

(** ** Restarts *)

Lemma connect_srvs i to st st' : connect i to st = Ret st' → srvs st'.2 = srvs st.2 ∧ gid st'.2 = gid st.2.
Proof.
  destruct st as [net sg]. unfold connect. intros (c & _ & E)%outcome_bind_ret.
  apply outcome_bind_ret in E as (s & _ & E). apply outcome_bind_ret in E as (net1 & _ & E).
  by apply outcome_bind_ret in E as (net2 & _ & [= <-]).
Qed.

Lemma disconnect_srvs i from st st' : disconnect i from st = Ret st' → srvs st'.2 = srvs st.2 ∧ gid st'.2 = gid st.2.
Proof.
  destruct st as [net sg]. unfold disconnect. intros (c & _ & E)%outcome_bind_ret.
  apply outcome_bind_ret in E as (s & _ & E). apply outcome_bind_ret in E as (net1 & _ & E).
  by apply outcome_bind_ret in E as (net2 & _ & [= <-]).
Qed.

Lemma start_srvs i names started st st' b : StartServer i names started st = Ret (b, st') →
  ∃ s s', 0 ≤ i ∧ srvs st.2 !! Z.to_nat i = Some s ∧ srvs st'.2 = <[Z.to_nat i := s']> (srvs st.2)
    ∧ dc s' = if started then Some (default MakePersister (saved s)) else None.
Proof.
  destruct st as [net sg]. intros (s & srv & net1 & Hi & Hs & _ & _ & _ & _ & Hsrvs & Hd & _)%StartServer_ret.
  by exists s, srv.
Qed.

(** what an operation does to other servers: nothing *)
Definition spares (i : Z) (o : op) : Prop :=
  match o with
  | OConnect _ | ODisconnect _ => True
  | OShutdown j | OStart j _ _ | OSave j _ => Z.to_nat j ≠ Z.to_nat i
  end.

Lemma op_spares i o st st' : spares i o → op_step o st = Ret st' → srvs st'.2 !! Z.to_nat i = srvs st.2 !! Z.to_nat i.
Proof.
  intros Hsp E. destruct o as [j|j|j|j names started|j p]; cbn [op_step spares] in *.
  - by destruct (connect_srvs _ _ _ _ E) as [-> _].
  - by destruct (disconnect_srvs _ _ _ _ E) as [-> _].
  - unfold ShutdownServer in E. apply outcome_bind_ret in E as ([net sg] & [E1 _]%disconnect_srvs & E).
    apply outcome_bind_ret in E as (s & [Hj Hs]%go_index_in & E). rewrite go_update_Ret in E by done. injection E as <-.
    simpl in *. rewrite list_lookup_insert_ne by done. by rewrite E1.
  - apply outcome_bind_ret in E as ([b st1] & E & [= <-]).
    destruct (start_srvs _ _ _ _ _ _ E) as (s & s' & _ & _ & -> & _). by rewrite list_lookup_insert_ne.
  - unfold daemon_saves in E. apply outcome_bind_ret in E as (s & [Hj Hs]%go_index_in & E).
    rewrite go_update_Ret in E by done. injection E as <-. simpl. by rewrite list_lookup_insert_ne.
Qed.

(** Stable storage survives a restart: what the process of a server has
    saved when the server is shut down is what its next process starts with,
    whatever is connected and whatever happens to other servers in between. *)
Theorem restart_keeps_state i names st st1 st2 st3 b s p os :
  srvs st.2 !! Z.to_nat i = Some s → dc s = Some p → ShutdownServer i st = Ret st1 →
  Forall (spares i) os → run_ops os st1 = Ret st2 → StartServer i names true st2 = Ret (b, st3) →
  ∃ s', srvs st3.2 !! Z.to_nat i = Some s' ∧ dc s' = Some p.
Proof.
  intros Hs Hd E1 Hsp E2 E3.
  assert (srvs st1.2 !! Z.to_nat i = Some (shutdownServer s)) as H1.
  { unfold ShutdownServer in E1. apply outcome_bind_ret in E1 as ([net sg] & [Es _]%disconnect_srvs & E1).
    apply outcome_bind_ret in E1 as (s' & [Hi Hs']%go_index_in & E1). rewrite go_update_Ret in E1 by done. injection E1 as <-.
    cbn [fst snd srvs set_srvs] in *. rewrite list_lookup_insert_eq by (by eapply lookup_lt_Some). congruence. }
  assert (srvs st2.2 !! Z.to_nat i = Some (shutdownServer s)) as H2.
  { clear E1 E3 Hs. revert st1 H1 E2. induction Hsp as [|o os Ho _ IH]; intros st1 H1 E2; simpl in E2; [by injection E2 as <-|].
    apply outcome_bind_ret in E2 as (st' & Eo & E2). apply (IH st'); [|done]. by rewrite (op_spares i o st1 st'). }
  destruct (start_srvs _ _ _ _ _ _ E3) as (s2 & s' & _ & Hs2 & Hs3 & Hd3). rewrite H2 in Hs2. injection Hs2 as <-.
  exists s'. rewrite Hs3, list_lookup_insert_eq by (by eapply lookup_lt_Some). split; [done|].
  rewrite Hd3. unfold shutdownServer. rewrite Hd. simpl. by destruct p.
Qed.

(** ** MakePartition *)

Lemma filter_others (l : Z) (L : list Z) : NoDup L → l ∈ L → filter (.≠ l) L ++ [l] ≡ₚ L.
Proof.
  intros Hnd Hl. apply NoDup_Permutation; [|done|].
  - apply NoDup_app. split; [by apply NoDup_filter|]. split; [|apply NoDup_singleton].
    intros x [? _]%list_elem_of_filter ->%list_elem_of_singleton. done.
  - intros x. rewrite elem_of_app, list_elem_of_filter, list_elem_of_singleton. destruct (decide (x = l)); naive_solver.
Qed.

(** filling a slice of zeros from the left *)
Lemma fill_step (k : nat) (l : list Z) x : (length l < k)%nat →
  go_update (l ++ replicate (k - length l) 0) (zlen l) x
  = Ret ((l ++ [x]) ++ replicate (k - length (l ++ [x])) 0).
Proof.
  intros Hl. rewrite go_update_Ret by (unfold zlen; rewrite length_app, length_replicate; lia). f_equal.
  unfold zlen. rewrite Nat2Z.id, insert_app_r_alt, Nat.sub_diag, <-app_assoc, length_app by done. f_equal.
  replace (k - length l)%nat with (S (k - (length l + length [x]))) by (simpl; lia). done.
Qed.

(** the loop has put the servers [os] into the two parts *)
Definition parts_of (len1 len2 : nat) (os : list Z) : list Z * list Z * Z :=
  (take len1 os ++ replicate (len1 - length (take len1 os)) 0,
   drop len1 os ++ replicate (len2 - length (drop len1 os)) 0, zlen os).

Lemma parts_step len1 len2 os i : (length os < len1 + len2)%nat →
  (let '(p1, p2, j) := parts_of len1 len2 os in
   if decide (j < Z.of_nat len1) then p1 ← go_update p1 j i; Ret (p1, p2, j + 1)
   else p2 ← go_update p2 (j - Z.of_nat len1) i; Ret (p1, p2, j + 1)) = Ret (parts_of len1 len2 (os ++ [i])).
Proof.
  intros Hlt. unfold parts_of. assert (zlen os + 1 = zlen (os ++ [i])) as ->
    by (unfold zlen; rewrite length_app; simpl; lia).
  destruct (decide (zlen os < Z.of_nat len1)) as [Hc|Hc]; unfold zlen in Hc.
  - rewrite (take_ge os), (drop_ge os), (take_ge (os ++ [i])), (drop_ge (os ++ [i])) by (rewrite ?length_app; simpl; lia).
    by rewrite fill_step by lia.
  - replace (zlen os - Z.of_nat len1) with (zlen (drop len1 os)) by (unfold zlen; rewrite length_drop; lia).
    rewrite (take_app_le os), (drop_app_le os) by lia. by rewrite fill_step by (rewrite length_drop; lia).
Qed.

(** [MakePartition] of a group with an odd number of servers, at least
    three: the two parts hold every server once, the leader is in the second,
    and the first has one server more. *)
Theorem MakePartition_exact l sg m : N sg = 2 * Z.of_nat m + 1 → (1 ≤ m)%nat → 0 ≤ l < N sg →
  ∃ p1 p2, MakePartition l sg = Ret (p1, p2) ∧ p1 ++ p2 ≡ₚ all sg ∧ l ∈ p2 ∧ length p1 = S (length p2).
Proof.
  intros Hn Hm Hl. unfold MakePartition. unfold N, zlen in *.
  assert (length (srvs sg) `div` 2 = m)%nat as ->.
  { symmetry. apply (Nat.div_unique _ _ _ 1); lia. }
  replace (Z.of_nat m + 1) with (Z.of_nat (S m)) by lia. replace (m + 1)%nat with (S m) by lia.
  set (L := indices (length (srvs sg))). assert (NoDup L) as HL by (apply NoDup_fmap; [apply _|apply NoDup_seq]).
  assert (length L = 2 * m + 1)%nat as HlL by (unfold L, indices; rewrite length_fmap, length_seq; lia).
  assert (l ∈ L) as HlL' by (apply (all_in sg); unfold in_group, N, zlen; lia).
  pose proof (filter_others l L HL HlL') as Hperm.
  assert (length (filter (.≠ l) L) = 2 * m)%nat as Hos.
  { apply Permutation_length in Hperm. rewrite length_app in Hperm. simpl in Hperm. lia. }
  edestruct (for_each_inv (λ done s, s = parts_of (S m) m (filter (.≠ l) done))) as (s' & E & ->);
    [| |rewrite E; clear E].
  { unfold parts_of. rewrite filter_nil, take_nil, drop_nil, !Nat.sub_0_r. reflexivity. }
  { intros l1 i l2 s Hi ->. rewrite filter_app, filter_cons. destruct (decide (i = l)) as [->|Hne].
    - rewrite decide_False by naive_solver. rewrite app_nil_r. eexists. split; [|reflexivity]. reflexivity.
    - rewrite decide_True by done. eexists. split; [|reflexivity]. apply parts_step.
      rewrite Hi, filter_app, filter_cons, decide_True, length_app in Hos by done. simpl in Hos. lia. }
  unfold parts_of. cbn [mbind outcome_bind]. set (os := filter (.≠ l) L) in *.
  assert (length (take (S m) os) = S m) as H1 by (rewrite length_take; lia).
  assert (length (drop (S m) os) = m - 1)%nat as H2 by (rewrite length_drop; lia).
  rewrite H1, H2, Nat.sub_diag, app_nil_r. replace (m - (m - 1))%nat with 1%nat by lia.
  rewrite go_update_Ret by (unfold zlen; rewrite length_app, H2; simpl; lia). cbn [mbind outcome_bind].
  eexists _, _. split; [reflexivity|].
  replace (Z.to_nat (Z.of_nat (length (drop (S m) os ++ replicate 1 0)) - 1)) with (length (drop (S m) os) + 0)%nat
    by (rewrite length_app, H2; simpl; lia).
  rewrite insert_app_r. change (<[0%nat := l]> (replicate 1 0)) with [l]. split; [|split].
  - by rewrite app_assoc, take_drop.
  - apply elem_of_app. right. by left.
  - rewrite length_app, H1, H2. simpl. lia.
Qed.

(** ** clnts.go

    A clerk makes an end to a server when it first calls it. *)

(** [end]: its name and the object *)
Record Clnt := {
  c_ends : gmap string (string * nat);    (** by server *)
  c_srvs : option (list string)           (** [None]: it can connect to all *)
}.

Definition makeClntTo (srvs : option (list string)) : Clnt := {| c_ends := ∅; c_srvs := srvs |}.
Definition set_c_srvs (l : option (list string)) (c : Clnt) : Clnt := {| c_ends := c_ends c; c_srvs := l |}.

Definition allowedL (c : Clnt) (server : string) : bool :=
  match c_srvs c with None => true | Some l => bool_decide (server ∈ l) end.

(** [name] is what [Randstring] returned *)
Definition clnt_makeEnd (server name : string) (c : Clnt) (net : Network) : outcome (Clnt * Network * nat) :=
  match c_ends c !! server with
  | Some (_, e) => Ret (c, net, e)
  | None =>
      '(net, e) ← MakeEnd name net;
      let net := Enable name (allowedL c server) (Connect name server net) in
      Ret ({| c_ends := <[server := (name, e)]> (c_ends c); c_srvs := c_srvs c |}, net, e)
  end.

(** [Call] starts *)
Definition clnt_Call (server name meth : string) (args : bytes) (c : Clnt) (net : Network)
    : outcome (Clnt * option Network) :=
  '(c, net, e) ← clnt_makeEnd server name c net; Ret (c, Call e meth args net).

(** [range] over the ends, in some order *)
Definition range_ends (f : string → string → Network → Network) (c : Clnt) (net : Network) : Network :=
  fold_left (λ net '(srv, (name, _)), f srv name net) (map_to_list (c_ends c)) net.

Definition clnt_ConnectAll (c : Clnt) (net : Network) : Clnt * Network :=
  (set_c_srvs None c, range_ends (λ _ name, Enable name true) c net).

Definition ConnectTo (srvs : list string) (c : Clnt) (net : Network) : Clnt * Network :=
  let c := set_c_srvs (Some srvs) c in
  (c, range_ends (λ srv name net, if allowedL c srv then Enable name true net else net) c net).

Definition Disconnect (server : string) (c : Clnt) (net : Network) : Clnt * Network :=
  (c, range_ends (λ srv name net, if decide (srv = server) then Enable name false net else net) c net).

Definition clnt_DisconnectAll (c : Clnt) (net : Network) : Clnt * Network :=
  (set_c_srvs (Some []) c, range_ends (λ _ name, Enable name false) c net).

Definition clnt_remove (c : Clnt) (net : Network) : outcome Network :=
  for_each (λ '(_, (name, _)) net, DeleteEnd name net) (map_to_list (c_ends c)) net.

(** [Clnts]: the clerks by identity; [None] is not in the map *)
Definition Clnts : Type := list (option Clnt).

Definition MakeClientTo (srvs : option (list string)) (cs : Clnts) : Clnts := cs ++ [Some (makeClntTo srvs)].
Definition MakeClient (cs : Clnts) : Clnts := MakeClientTo None cs.
Definition DeleteClient (k : nat) (cs : Clnts) (net : Network) : outcome (Clnts * Network) :=
  match cs !! k with
  | Some (Some c) => net ← clnt_remove c net; Ret (<[k := None]> cs, net)
  | _ => Ret (cs, net)
  end.
(** (afterwards the map is nil) *)
Definition clnts_cleanup (cs : Clnts) (net : Network) : outcome Network :=
  for_each (λ o net, match o with Some c => clnt_remove c net | None => Ret net end) cs net.

(** what a clerk does with its ends, without [ConnectTo] and [Disconnect] *)
Inductive clerk_op :=
| KMakeEnd (server name : string)
| KConnectAll
| KDisconnectAll.

Definition clerk_step (o : clerk_op) (s : Clnt * Network) : outcome (Clnt * Network) :=
  match o with
  | KMakeEnd server name => '(c, net, _) ← clnt_makeEnd server name s.1 s.2; Ret (c, net)
  | KConnectAll => Ret (clnt_ConnectAll s.1 s.2)
  | KDisconnectAll => Ret (clnt_DisconnectAll s.1 s.2)
  end.

(** the ends have names of their own, and are enabled as the clerk's servers say *)
Record clerk_ok (s : Clnt * Network) : Prop := {
  ck_names : ∀ s1 s2 n e1 e2, c_ends s.1 !! s1 = Some (n, e1) → c_ends s.1 !! s2 = Some (n, e2) → s1 = s2;
  ck_ends : ∀ srv n e, c_ends s.1 !! srv = Some (n, e) → is_Some (ends s.2 !! n);
  ck_enabled : ∀ srv n e, c_ends s.1 !! srv = Some (n, e) → is_enabled s.2 n = allowedL s.1 srv
}.

Lemma range_all v c (net : Network) : let net' := range_ends (λ _ name, Enable name v) c net in
  ends net' = ends net ∧ ∀ srv n e, c_ends c !! srv = Some (n, e) → is_enabled net' n = v.
Proof.
  unfold range_ends.
  assert (∀ (l : list (string * (string * nat))) (net0 : Network),
    let net' := fold_left (λ (net : Network) '(srv, (name, _)), Enable name v net) l net0 in
    ends net' = ends net0 ∧ ∀ n, (is_enabled net0 n = v ∨ ∃ srv e, (srv, (n, e)) ∈ l) → is_enabled net' n = v) as Hl.
  { induction l as [|[srv [name e]] l IH]; intros net0; simpl.
    - split; [done|]. intros n [|(? & ? & []%not_elem_of_nil)]. done.
    - destruct (IH (Enable name v net0)) as [He Hn]. split; [done|]. intros n Hc. apply Hn.
      destruct (decide (n = name)) as [->|Hne].
      + left. unfold is_enabled. simpl. by rewrite lookup_insert_eq.
      + destruct Hc as [Hv|(srv' & e' & [[= -> -> ->]|Hin]%elem_of_cons)]; [left| |right; eauto].
        * unfold is_enabled in *. simpl. by rewrite lookup_insert_ne.
        * done. }
  destruct (Hl (map_to_list (c_ends c)) net) as [He Hn]. split; [done|]. intros srv n e Hs. apply Hn. right.
  exists srv, e. by apply elem_of_map_to_list.
Qed.

Lemma clerk_step_ok o s s' : clerk_ok s → clerk_step o s = Ret s' → clerk_ok s'.
Proof.
  destruct s as [c net]. intros [H1 H2 H3] E. destruct o as [server name| |]; cbn [clerk_step fst snd] in *.
  - unfold clnt_makeEnd in E. destruct (c_ends c !! server) as [[n0 e0]|] eqn:Hs; [by injection E as <-|].
    unfold MakeEnd in E. destruct (ends net !! name) eqn:Hn; [done|]. simpl in E. injection E as <-.
    assert (∀ srv n e, c_ends c !! srv = Some (n, e) → n ≠ name) as Hnew.
    { intros srv n e Hc ->. destruct (H2 _ _ _ Hc). congruence. }
    split; cbn [fst snd c_ends c_srvs].
    + intros s1 s2 n e1 e2 Hs1 Hs2. apply lookup_insert_Some in Hs1 as [[<- Hq1]|[? Hs1]], Hs2 as [[<- Hq2]|[? Hs2]].
      * done.
      * injection Hq1 as <- _. by destruct (Hnew _ _ _ Hs2).
      * injection Hq2 as <- _. by destruct (Hnew _ _ _ Hs1).
      * by eapply H1.
    + intros srv n e [[<- [= <- _]]|[? Hc]]%lookup_insert_Some; simpl.
      * rewrite lookup_insert_eq. eauto.
      * rewrite lookup_insert_ne; [by eapply H2|]. by apply not_eq_sym, (Hnew srv n e).
    + intros srv n e [[<- [= <- _]]|[? Hc]]%lookup_insert_Some; unfold is_enabled; simpl.
      * by rewrite lookup_insert_eq.
      * pose proof (Hnew _ _ _ Hc). rewrite !lookup_insert_ne by done. by eapply H3.
  - injection E as <-. unfold clnt_ConnectAll. destruct (range_all true c net) as [He Hen].
    split; cbn [fst snd]; [done| |]; intros srv n e Hc; [rewrite He; by eapply H2|by eapply Hen].
  - injection E as <-. unfold clnt_DisconnectAll. destruct (range_all false c net) as [He Hen].
    split; cbn [fst snd]; [done| |]; intros srv n e Hc; [rewrite He; by eapply H2|by eapply Hen].
Qed.

(** A clerk reaches the servers it may reach: whatever ends it made before and
    after [ConnectAll] and [DisconnectAll], each is enabled exactly when the
    clerk's list of servers allows it. *)
Theorem clerk_ends_allowed os srvs net c net' srv n e :
  for_each clerk_step os (makeClntTo srvs, net) = Ret (c, net') → c_ends c !! srv = Some (n, e) →
  is_enabled net' n = allowedL c srv.
Proof.
  intros Hr Hc. apply (for_each_ret clerk_ok _ _ _ _ clerk_step_ok) in Hr as [_ _ H3]; [by eapply H3|].
  split; simpl; intros *; by rewrite lookup_empty.
Qed.

(** [ConnectAll] links everything *)
Lemma ConnectAll_links_all st : wf st → mesh st → ∃ st', ConnectAll st = Ret st' ∧ wf st' ∧
  srvs st'.2 = srvs st.2 ∧ ∀ a b, in_group st.2 a → in_group st.2 b → linked st' a b = true.
Proof.
  intros Hwf Hm. unfold ConnectAll.
  destruct (for_each_inv (λ l s, wf s ∧ mesh s ∧ srvs s.2 = srvs st.2 ∧ ∀ a, a ∈ l → conn s.2 a = true)
    ConnectOne (all st.2) st) as (st' & E & Hwf' & Hm' & Hs & Hc).
  - split_and!; try done. by intros a []%not_elem_of_nil.
  - intros l1 i l2 [net sg] Hl (Hw & Hms & HS & HC). cbn [fst snd] in *.
    assert (in_group sg i) as Hi.
    { apply (in_group_ext st.2); [done|]. apply all_in. rewrite Hl. apply elem_of_app. right. by left. }
    destruct (connect_ok net sg i (all sg) Hw Hi (all_forall sg)) as (net' & sg' & E & _ & _ & _ & _ & Hc & _).
    assert (ConnectOne i (net, sg) = Ret (net', sg')) as E' by exact E. rewrite E'.
    destruct (connect_inv i _ _ Hw Hms E') as [Hw' Hms']. destruct (connect_srvs i _ _ _ E) as [HS' _].
    eexists. split; [done|]. split; [done|]. split; [done|]. cbn [fst snd] in *. split; [congruence|].
    intros a Ha. rewrite Hc. case_decide; [done|]. apply elem_of_app in Ha as [Ha|Ha%list_elem_of_singleton]; [auto|done].
  - exists st'. split; [exact E|]. split; [done|]. split; [done|]. intros a b Ha Hb.
    rewrite Hm' by (by eapply in_group_ext). rewrite !Hc; [done|by apply all_in..].
Qed.

(** ** config.go *)

Record Config := {
  cfg_net : Network;
  grps : gmap Z ServerGrp;
  clnts : Clnts;
  rpcs0 : Z;
  ops : Z                       (** int32 *)
}.

Definition GRP0 : Z := 0.

Definition set_net (net : Network) (cfg : Config) : Config :=
  {| cfg_net := net; grps := grps cfg; clnts := clnts cfg; rpcs0 := rpcs0 cfg; ops := ops cfg |}.
Definition set_grps (gs : gmap Z ServerGrp) (cfg : Config) : Config :=
  {| cfg_net := cfg_net cfg; grps := gs; clnts := clnts cfg; rpcs0 := rpcs0 cfg; ops := ops cfg |}.

(** the group of [gid]; a nil one panics when it is used *)
Definition with_group (g : Z) (f : state → outcome state) (cfg : Config) : outcome Config :=
  match grps cfg !! g with
  | Some sg => '(net, sg) ← f (cfg_net cfg, sg); Ret (set_grps (<[g := sg]> (grps cfg)) (set_net net cfg))
  | None => Panic
  end.

Definition MakeGroup (g : Z) (names : list (list string)) (cfg : Config) : outcome Config :=
  '(net, sg) ← makeSrvGrp g names (cfg_net cfg); Ret (set_grps (<[g := sg]> (grps cfg)) (set_net net cfg)).
(** the names of the ends, when the group is made and when its servers start *)
Definition MakeGroupStart (g : Z) (names : list (list string)) (starts : list (list string * bool)) (cfg : Config)
    : outcome Config :=
  cfg ← MakeGroup g names cfg; with_group g (StartServers starts) cfg.
Definition delete_group (g : Z) (cfg : Config) : Config := set_grps (delete g (grps cfg)) cfg.
Definition ExitGroup (g : Z) (cfg : Config) : outcome Config :=
  cfg ← with_group g Shutdown cfg; Ret (delete_group g cfg).

Definition MakeConfig (w : W) (reliable : bool) (names : list (list string)) (starts : list (list string * bool))
    : outcome Config :=
  cfg ← MakeGroupStart GRP0 names starts
          {| cfg_net := MakeNetwork w; grps := ∅; clnts := []; rpcs0 := 0; ops := 0 |};
  Ret (set_net (Reliable reliable (cfg_net cfg)) cfg).

(** the clerks, the groups in some order, the network *)
Definition groups_cleanup (cfg : Config) : outcome Config :=
  for_each (λ '(g, _), with_group g Shutdown) (map_to_list (grps cfg)) cfg.
Definition Config_Cleanup (cfg : Config) : outcome Config :=
  net ← clnts_cleanup (clnts cfg) (cfg_net cfg);
  cfg ← groups_cleanup (set_net net cfg);
  net ← LabRpc.Cleanup (cfg_net cfg);
  Ret (set_net net cfg).

Definition RpcTotal (cfg : Config) : Z := GetTotalCount (cfg_net cfg).
Definition BytesTotal (cfg : Config) : Z := GetTotalBytes (cfg_net cfg).
Definition Begin (cfg : Config) : Config :=
  {| cfg_net := cfg_net cfg; grps := grps cfg; clnts := clnts cfg; rpcs0 := RpcTotal cfg; ops := 0 |}.
Definition OpInc (cfg : Config) : Config :=
  {| cfg_net := cfg_net cfg; grps := grps cfg; clnts := clnts cfg; rpcs0 := rpcs0 cfg; ops := i32 (ops cfg + 1) |}.
(** what [End] prints: peers, RPCs, operations *)
Definition End_report (cfg : Config) : outcome (Z * Z * Z) :=
  match grps cfg !! GRP0 with
  | Some sg => Ret (N sg, RpcTotal cfg - rpcs0 cfg, ops cfg)
  | None => Panic
  end.

End tester.

Arguments TestServer : clear implicits.
Arguments ServerGrp : clear implicits.

(** ** Concrete groups *)

(** a group with distinct names for its ends *)
Definition names_for (pre : string) (n : nat) : list (list string) :=
  (λ i, (λ j, (pre ++ of_chars (Itoa (Z.of_nat i)) ++ "-" ++ of_chars (Itoa (Z.of_nat j)))%string) <$> seq 0 n) <$> seq 0 n.

Abbreviation net0 := (MakeNetwork (W:=unit) (T:=unit) tt).
Abbreviation made n := (makeSrvGrp (Cmd:=unit) (Snap:=unit) 7 (names_for "a" n) net0).

Definition saved_p (t : Z) : Persister unit unit := {| ps_raftstate := [GInt t]; ps_snapshot := None |}.

(** three servers; two are connected, one of them is restarted meanwhile *)
Definition some_ops : list (op (Cmd:=unit) (Snap:=unit)) :=
  [OStart 0 ["b0"; "b1"; "b2"] true; OStart 2 ["c0"; "c1"; "c2"] true; OConnect 0; OConnect 2; OConnect 1;
   OSave 0 (saved_p 4); OShutdown 0; ODisconnect 1; OStart 0 ["d0"; "d1"; "d2"] true; OConnect 0;
   OStart 1 ["e0"; "e1"; "e2"] false].

(** server 0 is started again while it runs and is connected *)
Definition careless_ops : list (op (Cmd:=unit) (Snap:=unit)) :=
  [OStart 0 ["b0"; "b1"; "b2"] true; OStart 2 ["c0"; "c1"; "c2"] true; OConnect 0; OConnect 2;
   OStart 0 ["d0"; "d1"; "d2"] true].

(** a check of a result, which is not looked at otherwise *)
Definition checks {A} (f : A → bool) (o : outcome A) : bool := match o with Ret a => f a | _ => false end.

Lemma checks_Ret {A} (f : A → bool) o : checks f o = true → ∃ a, o = Ret a ∧ f a = true.
Proof. destruct o; try done. eauto. Qed.

(** The condition is needed: a connected server that is started again still
    counts as connected, but its new ends are off (the others' ends to it work). *)
Lemma restart_while_connected :
  checks (λ st, checks (λ st', negb (careful careless_ops st) && conn st'.2 0 && conn st'.2 2
            && negb (reaches st' 0 2) && reaches st' 2 0) (run_ops careless_ops st)) (made 3) = true.
Proof. vm_compute. reflexivity. Qed.

(** server 1 is disconnected, and its process did not start *)
Lemma links_follow_connected_witness : ∃ st st', made 3 = Ret st ∧ run_ops some_ops st = Ret st' ∧
  reaches st' 0 2 = conn st'.2 0 && conn st'.2 2 && running st'.2 2 ∧
  linked st' 0 1 = conn st'.2 0 && conn st'.2 1 ∧
  conn st'.2 0 && conn st'.2 2 && running st'.2 2 && negb (conn st'.2 1) = true.
Proof.
  destruct (checks_Ret (λ st, careful some_ops st && checks (λ st', bool_decide (N st'.2 = 3) &&
      (conn st'.2 0 && conn st'.2 2 && running st'.2 2 && negb (conn st'.2 1)))
    (run_ops some_ops st)) (made 3)) as (st & E & [Hcar (st' & Er & Hc)%checks_Ret]%andb_true_iff); [vm_compute; reflexivity|].
  apply andb_true_iff in Hc as [HN%bool_decide_eq_true Hc].
  assert (∀ a b, 0 ≤ a < 3 → 0 ≤ b < 3 → linked st' a b = conn st'.2 a && conn st'.2 b
            ∧ reaches st' a b = conn st'.2 a && conn st'.2 b && running st'.2 b) as Hl.
  { intros a b Ha Hb. apply (links_follow_connected 7 (names_for "a" 3) net0 st some_ops st' a b);
      [repeat constructor|reflexivity|done|exact E|exact Hcar|exact Er|unfold in_group; rewrite HN; exact Ha|unfold in_group; rewrite HN; exact Hb]. }
  exists st, st'. split; [exact E|]. split; [exact Er|]. split; [apply Hl; lia|]. split; [apply Hl; lia|exact Hc].
Defined.

Lemma disjoint_checked (l1 l2 : list Z) : forallb (λ a, negb (bool_decide (a ∈ l2))) l1 = true → ∀ a, a ∈ l1 → a ∉ l2.
Proof.
  rewrite forallb_forall. intros Hf a Ha%list_elem_of_In. specialize (Hf a Ha).
  apply negb_true_iff in Hf. by apply bool_decide_eq_false in Hf.
Qed.

(** a partition of three servers, of which only server 2 was connected *)
Lemma partition_exact_witness : ∃ st st', (st ← made 3; ConnectOne 2 st) = Ret st ∧
  Partition [0; 2] [1] st = Ret st' ∧
  (∀ a b, a ∈ [0; 2; 1] → b ∈ [0; 2; 1] → conn st'.2 a = true ∧
     linked st' a b = bool_decide (a ∈ [0; 2] ∧ b ∈ [0; 2] ∨ a ∈ [1] ∧ b ∈ [1])).
Proof.
  destruct (checks_Ret (λ st, checks (λ st', bool_decide (N st'.2 = 3)) (ConnectOne 2 st)) (made 3))
    as (st0 & E0 & (st & E & HN%bool_decide_eq_true)%checks_Ret); [vm_compute; reflexivity|].
  destruct (makeSrvGrp_inv 7 (names_for "a" 3) net0 st0) as [Hw0 Hm0]; [repeat constructor|exact E0|].
  destruct (connect_inv 2 st0 st Hw0 Hm0 E) as [Hw _].
  destruct (partition_exact st [0; 2] [1] Hw) as (st' & Ep & _ & Hp).
  - unfold in_group. rewrite HN. repeat constructor; done.
  - unfold in_group. rewrite HN. repeat constructor; done.
  - apply disjoint_checked. reflexivity.
  - exists st, st'. rewrite E0. split; [exact E|]. split; [exact Ep|exact Hp].
Defined.

(** server 1 saves and is restarted; server 2 starts in between *)
Definition ops_before : list (op (Cmd:=unit) (Snap:=unit)) :=
  [OStart 1 ["b0"; "b1"; "b2"] true; OConnect 1; OSave 1 (saved_p 4)].
Definition ops_between : list (op (Cmd:=unit) (Snap:=unit)) := [OStart 2 ["c0"; "c1"; "c2"] true; OConnect 2].

Definition holds_p4 (s : TestServer unit unit) : bool :=
  match dc s with
  | Some {| ps_raftstate := [GInt z]; ps_snapshot := None |} => bool_decide (z = 4)
  | _ => false
  end.

Lemma holds_p4_ok s : holds_p4 s = true → dc s = Some (saved_p 4).
Proof. unfold holds_p4. intros E. repeat case_match; try done. apply bool_decide_eq_true in E. by subst. Qed.

Lemma restart_keeps_state_witness : ∃ st st1 st2 st3 b s', (st ← made 3; run_ops ops_before st) = Ret st ∧
  ShutdownServer 1 st = Ret st1 ∧ run_ops ops_between st1 = Ret st2 ∧
  StartServer 1 ["d0"; "d1"; "d2"] true st2 = Ret (b, st3) ∧
  srvs st3.2 !! 1%nat = Some s' ∧ dc s' = Some (saved_p 4).
Proof.
  destruct (checks_Ret (λ st, from_option holds_p4 false (srvs st.2 !! 1%nat) &&
      checks (λ st1, checks (λ st2, checks (λ _, true) (StartServer 1 ["d0"; "d1"; "d2"] true st2))
        (run_ops ops_between st1)) (ShutdownServer 1 st)) (st ← made 3; run_ops ops_before st))
    as (st & E & [Hs (st1 & E1 & (st2 & E2 & ([b st3] & E3 & _)%checks_Ret)%checks_Ret)%checks_Ret]%andb_true_iff);
    [vm_compute; reflexivity|].
  destruct (srvs st.2 !! 1%nat) as [s|] eqn:H1; [|discriminate Hs].
  pose proof (holds_p4_ok s Hs) as Hd.
  destruct (restart_keeps_state 1 ["d0"; "d1"; "d2"] st st1 st2 st3 b s (saved_p 4) ops_between) as (s' & Hs' & Hd');
    [exact H1|exact Hd|exact E1|repeat constructor; discriminate|exact E2|exact E3|].
  exists st, st1, st2, st3, b, s'. split; [exact E|]. split; [exact E1|]. split; [exact E2|]. split; [exact E3|]. by split.
Defined.

(** with a leader of five servers *)
Lemma MakePartition_exact_witness : ∃ st p1 p2, made 5 = Ret st ∧ MakePartition 1 st.2 = Ret (p1, p2) ∧
  p1 ++ p2 ≡ₚ all st.2 ∧ 1 ∈ p2 ∧ length p1 = S (length p2).
Proof.
  destruct (checks_Ret (λ st, bool_decide (N st.2 = 5)) (made 5)) as (st & E & HN%bool_decide_eq_true); [vm_compute; reflexivity|].
  destruct (MakePartition_exact 1 st.2 2) as (p1 & p2 & Ep & Hp & Hl & Hn); [exact HN|lia|rewrite HN; lia|].
  exists st, p1, p2. split; [exact E|]. split; [exact Ep|]. split; [exact Hp|]. split; [exact Hl|exact Hn].
Defined.

(** With four servers, server 0 is in both parts; without a leader (-1) of
    five, server 4 is in none. *)
Theorem MakePartition_even : (st ← made 4; MakePartition 1 st.2) = Ret ([0; 2; 3], [0; 1])
  ∧ (st ← made 5; MakePartition (-1) st.2) = Ret ([0; 1; 2], [3; -1]).
Proof. vm_compute. split; reflexivity. Qed.

(** After [ConnectAll], [ConnectTo] takes nothing away: the clerk still reaches
    a server that is not in its list. *)
Theorem ConnectTo_keeps_links : ∃ c net c' net' n e,
  for_each clerk_step [KMakeEnd "s0" "e0"; KMakeEnd "s1" "e1"] (makeClntTo None, net0) = Ret (c, net) ∧
  ConnectTo ["s1"] c net = (c', net') ∧ c_ends c' !! "s0" = Some (n, e) ∧
  allowedL c' "s0" = false ∧ is_enabled net' n = true.
Proof. eexists _, _, _, _, _, _. split; [vm_compute; reflexivity|]. by split_and!. Qed.
