(* ===== verification/Annotation.v ===== *)
(** * Annotations of tests (tester1/annotation.go)

    What a test did, for the display of its history: points, intervals and, per
    tag, one interval that is still open.  The framework uses an open interval
    to show which servers are disconnected or crashed.

    [timestamp()] is read under the lock: it is an argument [now], and a run
    passes times that do not decrease.  Go does not fix the order in which
    [finalize] visits the open intervals: the order is an argument. *)

From S2P Require Import Prelude GoText.
Local Open Scope Z_scope.

(* ------------------------------------------------------------------ *)
(** ** Data *)

(** [porcupine.Annotation]; a point has no [End] *)
Record PAnnotation := {
  Tag : string; Start : Z; End_ : Z; Description : string; Details : string; BackgroundColor : string
}.

Record Continuous := { start : Z; desp : string; details : string; bgcolor : string }.

Record Annotation := {
  annotations : list PAnnotation;
  continuous : gmap string Continuous;
  finalized : bool
}.

Record CheckerBegin := { ts : Z; cb_details : string }.

Record FrameworkInfo := { nservers : nat; connected : list bool; crashed : list bool; ckbegin : CheckerBegin }.

(** the package's variables; [finfo] is nil before the first test *)
Record state := { annotation : Annotation; finfo : option FrameworkInfo }.

Definition COLOR_INFO : string := "#FAFAFA".
Definition COLOR_NEUTRAL : string := "#FFECB3".
Definition COLOR_SUCCESS : string := "#C8E6C9".
Definition COLOR_FAILURE : string := "#FFCDD2".
Definition COLOR_FAULT : string := "#B3E5FC".
Definition COLOR_USER : string := "#FFF176".
Definition TAG_CHECKER : string := "$ Checker".
Definition TAG_PARTITION : string := "$ Failure".
Definition TAG_INFO : string := "$ Test Info".

Definition mkAnnotation : Annotation := {| annotations := []; continuous := ∅; finalized := false |}.

Definition mkFrameworkInfo (n : nat) : FrameworkInfo :=
  {| nservers := n; connected := replicate n true; crashed := replicate n false; ckbegin := {| ts := 0; cb_details := "" |} |}.

Definition init : state := {| annotation := mkAnnotation; finfo := None |}.

(* ------------------------------------------------------------------ *)
(** ** The methods of [Annotation] *)

Definition add (a : PAnnotation) (an : Annotation) : Annotation :=
  {| annotations := annotations an ++ [a]; continuous := continuous an; finalized := finalized an |}.

Definition set_open (m : gmap string Continuous) (an : Annotation) : Annotation :=
  {| annotations := annotations an; continuous := m; finalized := finalized an |}.

Definition clear (an : Annotation) : Annotation := mkAnnotation.

Definition annotatePointColor (now : Z) (tag d det color : string) (an : Annotation) : Annotation :=
  add {| Tag := tag; Start := now; End_ := 0; Description := d; Details := det; BackgroundColor := color |} an.

Definition annotateIntervalColor (now : Z) (tag : string) (from : Z) (d det color : string) (an : Annotation) : Annotation :=
  add {| Tag := tag; Start := from; End_ := now; Description := d; Details := det; BackgroundColor := color |} an.

(** the interval that an open one has become at [now] *)
Definition closed (tag : string) (now : Z) (c : Continuous) : PAnnotation :=
  {| Tag := tag; Start := start c; End_ := now; Description := desp c; Details := details c; BackgroundColor := bgcolor c |}.

Definition annotateContinuousColor (now : Z) (tag d det color : string) (an : Annotation) : Annotation :=
  let new := {| start := now; desp := d; details := det; bgcolor := color |} in
  match continuous an !! tag with
  | None => set_open (<[tag := new]> (continuous an)) an
  | Some cont => set_open (<[tag := new]> (continuous an)) (add (closed tag now cont) an)
  end.

(** [cont, ok := an.continuous[tag]]: without an open interval [cont] is the
    zero value, and the code goes on with it *)
Definition zero_continuous : Continuous := {| start := 0; desp := ""; details := ""; bgcolor := "" |}.

Definition annotateContinuousEnd (now : Z) (tag : string) (an : Annotation) : Annotation :=
  let cont := default zero_continuous (continuous an !! tag) in
  set_open (delete tag (continuous an)) (add (closed tag now cont) an).

(** [finalize]: [order] is the order of the range over the map *)
Definition finalize (now : Z) (order : list (string * Continuous)) (an : Annotation) : list PAnnotation * Annotation :=
  (annotations an ++ ((λ tc, closed (fst tc) now (snd tc)) <$> order),
   {| annotations := annotations an; continuous := continuous an; finalized := true |}).

Definition info_point (now : Z) (s : string) : PAnnotation :=
  {| Tag := TAG_INFO; Start := now; End_ := 0; Description := s; Details := s; BackgroundColor := COLOR_INFO |}.

Definition FinalizeAnnotations (now : Z) (order : list (string * Continuous)) (end_ : string) (an : Annotation)
    : list PAnnotation * Annotation :=
  let '(l, an) := finalize now order an in (l ++ [info_point now end_], an).

(** [cleanup], with the environment's VIS_ENABLE; the annotations that are
    written to a file, if any *)
Definition cleanup (enabled : string) (failed : bool) (now : Z) (order : list (string * Continuous)) (end_ : string)
    (an : Annotation) : option (list PAnnotation) * Annotation :=
  if bool_decide (enabled = "never") || (negb failed && bool_decide (enabled ≠ "always")) || finalized an then
    (None, clear an)
  else
    let '(l, an) := finalize now order an in
    match l with [] => (None, an) | _ => (Some (l ++ [info_point now end_]), an) end.

(* ------------------------------------------------------------------ *)
(** ** What users of the package annotate *)

Definition on_annotation (f : Annotation → Annotation) (s : state) : state :=
  {| annotation := f (annotation s); finfo := finfo s |}.

Definition AnnotatePoint (now : Z) (tag d det : string) : state → state :=
  on_annotation (annotatePointColor now tag d det COLOR_USER).
Definition AnnotateInterval (now : Z) (tag : string) (from : Z) (d det : string) : state → state :=
  on_annotation (annotateIntervalColor now tag from d det COLOR_USER).
Definition AnnotateContinuous (now : Z) (tag d det : string) : state → state :=
  on_annotation (annotateContinuousColor now tag d det COLOR_USER).
Definition AnnotateContinuousEnd (now : Z) (tag : string) : state → state :=
  on_annotation (annotateContinuousEnd now tag).

(* ------------------------------------------------------------------ *)
(** ** What the test framework annotates *)

Definition set_finfo (f : FrameworkInfo) (s : state) : state := {| annotation := annotation s; finfo := Some f |}.

Definition get_finfo (s : state) : outcome FrameworkInfo := match finfo s with Some f => Ret f | None => Panic end.

Definition AnnotateInfo (now : Z) (d det : string) : state → state :=
  on_annotation (annotatePointColor now TAG_INFO d det COLOR_INFO).

Definition AnnotateInfoInterval (now from : Z) (d det : string) : state → state :=
  on_annotation (annotateIntervalColor now TAG_INFO from d det COLOR_INFO).

Definition AnnotateTest (now : Z) (title : string) (n : nat) (s : state) : state :=
  let s := on_annotation clear {| annotation := annotation s; finfo := Some (mkFrameworkInfo n) |} in
  let text := (title +:+ " (" +:+ of_chars (Itoa (Z.of_nat n)) +:+ " servers)")%string in
  AnnotateInfo now text text s.

Definition set_ckbegin (c : CheckerBegin) (f : FrameworkInfo) : FrameworkInfo :=
  {| nservers := nservers f; connected := connected f; crashed := crashed f; ckbegin := c |}.

Definition AnnotateCheckerBegin (now : Z) (det : string) (s : state) : outcome state :=
  f ← get_finfo s;
  Ret (set_finfo (set_ckbegin {| ts := now; cb_details := det |} f) s).

(** the last statement resets a copy of [finfo.ckbegin]: nothing changes *)
Definition AnnotateCheckerEnd (now : Z) (d det color : string) (s : state) : outcome state :=
  f ← get_finfo s;
  let cb := ckbegin f in
  if decide (ts cb = 0) then Ret (on_annotation (annotatePointColor now TAG_CHECKER d det color) s)
  else Ret (on_annotation (annotateIntervalColor now TAG_CHECKER (ts cb) d (cb_details cb +:+ ": " +:+ det) color) s).

Definition AnnotateCheckerSuccess (now : Z) (d det : string) : state → outcome state := AnnotateCheckerEnd now d det COLOR_SUCCESS.
Definition AnnotateCheckerFailure (now : Z) (d det : string) : state → outcome state := AnnotateCheckerEnd now d det COLOR_FAILURE.
Definition AnnotateCheckerNeutral (now : Z) (d det : string) : state → outcome state := AnnotateCheckerEnd now d det COLOR_NEUTRAL.

Definition SetAnnotationFinalized : state → state :=
  on_annotation (λ an, {| annotations := annotations an; continuous := continuous an; finalized := true |}).
Definition GetAnnotationFinalized (s : state) : bool := finalized (annotation s).

(** [annotation.cleanup(failed, end)] on the package's variable *)
Definition cleanup_state (enabled : string) (failed : bool) (now : Z) (order : list (string * Continuous)) (end_ : string)
    (s : state) : option (list PAnnotation) * state :=
  let '(w, an) := cleanup enabled failed now order end_ (annotation s) in (w, on_annotation (λ _, an) s).

Definition AnnotateCheckerFailureBeforeExit (enabled : string) (now : Z) (order : list (string * Continuous)) (d det : string)
    (s : state) : outcome (option (list PAnnotation) * state) :=
  s ← AnnotateCheckerFailure now d det s; Ret (cleanup_state enabled true now order "test failed" s).

(** *** Disconnected and crashed servers *)

(** [fmt.Sprintf("%v", ids)] *)
Fixpoint spaced (l : list Z) : chars :=
  match l with [] => [] | [x] => Itoa x | x :: l' => Itoa x ++ " "%char :: spaced l' end.
Definition show_ints (l : list Z) : chars := "["%char :: spaced l ++ ["]"%char].

(** the loop of [annotateFault]: what is written of servers that stand alone, the
    connected servers and the crashed ones *)
Fixpoint fault_loop (id : Z) (conns cr : list bool) (alone : chars) (conn crashes : list Z) : outcome (chars * list Z * list Z) :=
  match conns with
  | [] => Ret (alone, conn, crashes)
  | c :: conns' =>
      b ← go_index cr id;
      if b : bool then fault_loop (id + 1) conns' cr alone conn (crashes ++ [id])
      else if c then fault_loop (id + 1) conns' cr alone (conn ++ [id]) crashes
      else fault_loop (id + 1) conns' cr (alone ++ "["%char :: Itoa id ++ ["]"; " "]%char) conn crashes
  end.

Definition fault_text (f : FrameworkInfo) : outcome string :=
  '(alone, conn, crashes) ← fault_loop 0 (connected f) (crashed f) [] [] [];
  Ret (of_chars (to_chars "partition = " ++ alone
    ++ (if decide (0 < zlen conn) then show_ints conn else [])
    ++ (if decide (0 < zlen crashes) then to_chars " / crash = " ++ show_ints crashes else []))).

Definition faultless (f : FrameworkInfo) : bool :=
  bool_decide (replicate (nservers f) true = connected f) && bool_decide (replicate (nservers f) false = crashed f).

Definition annotateFault (now : Z) (s : state) : outcome state :=
  f ← get_finfo s;
  if faultless f then Ret (on_annotation (annotateContinuousEnd now TAG_PARTITION) s)
  else
    text ← fault_text f;
    Ret (on_annotation (annotateContinuousColor now TAG_PARTITION text text COLOR_FAULT) s).

(** Go's [copy]: as many elements as both have *)
Definition go_copy {A} (dst src : list A) : list A := take (length dst) src ++ drop (length src) dst.

Definition set_faults (conn cr : list bool) (f : FrameworkInfo) : FrameworkInfo :=
  {| nservers := nservers f; connected := conn; crashed := cr; ckbegin := ckbegin f |}.

Definition AnnotateConnection (now : Z) (connection : list bool) (s : state) : outcome state :=
  f ← get_finfo s;
  if decide (connected f = connection) then Ret s
  else annotateFault now (set_finfo (set_faults (go_copy (connected f) connection) (crashed f) f) s).

(** [fmt.Sprintf("partition = %v %v", p1, p2)] *)
Definition AnnotateTwoPartitions (now : Z) (p1 p2 : list Z) (s : state) : state :=
  let text := of_chars (to_chars "partition = " ++ show_ints p1 ++ " "%char :: show_ints p2) in
  on_annotation (annotateContinuousColor now TAG_PARTITION text text COLOR_FAULT) s.

Definition AnnotateClearFailure (now : Z) (s : state) : outcome state :=
  f ← get_finfo s;
  let f := set_faults ((λ _, true) <$> connected f) ((λ _, false) <$> crashed f) f in
  Ret (on_annotation (annotateContinuousEnd now TAG_PARTITION) (set_finfo f s)).

(** the loop of [AnnotateShutdown] and of [AnnotateRestart]: mark servers as
    [down]; whether one was not *)
Fixpoint mark (down : bool) (servers : list Z) (cr : list bool) (changed : bool) : outcome (list bool * bool) :=
  match servers with
  | [] => Ret (cr, changed)
  | id :: servers' =>
      b ← go_index cr id;
      cr ← go_update cr id down;
      mark down servers' cr (changed || negb (Bool.eqb b down))
  end.

Definition annotate_mark (down : bool) (now : Z) (servers : list Z) (s : state) : outcome state :=
  f ← get_finfo s;
  '(cr, changed) ← mark down servers (crashed f) false;
  let s := set_finfo (set_faults (connected f) cr f) s in
  if changed : bool then annotateFault now s else Ret s.

Definition AnnotateShutdown : Z → list Z → state → outcome state := annotate_mark true.
Definition AnnotateRestart : Z → list Z → state → outcome state := annotate_mark false.

Definition all_servers (s : state) : outcome (list Z) := f ← get_finfo s; Ret (Z.of_nat <$> seq 0 (nservers f)).
Definition AnnotateShutdownAll (now : Z) (s : state) : outcome state := l ← all_servers s; AnnotateShutdown now l s.
Definition AnnotateRestartAll (now : Z) (s : state) : outcome state := l ← all_servers s; AnnotateRestart now l s.

(* ------------------------------------------------------------------ *)
(** ** Runs of the framework's annotations *)

Inductive op :=
| OTest (title : string) (n : nat)
| OInfo (d det : string)
| OCheckerBegin (det : string)
| OCheckerEnd (d det color : string)
| OUser (tag d det : string) (from : option Z)
| OConnection (connection : list bool)
| OClearFailure
| OShutdown (servers : list Z)
| ORestart (servers : list Z)
| OShutdownAll
| ORestartAll.

Definition do_op (now : Z) (o : op) (s : state) : outcome state :=
  match o with
  | OTest title n => Ret (AnnotateTest now title n s)
  | OInfo d det => Ret (AnnotateInfo now d det s)
  | OCheckerBegin det => AnnotateCheckerBegin now det s
  | OCheckerEnd d det color => AnnotateCheckerEnd now d det color s
  | OUser tag d det None => Ret (AnnotatePoint now tag d det s)
  | OUser tag d det (Some from) => Ret (AnnotateInterval now tag from d det s)
  | OConnection connection => AnnotateConnection now connection s
  | OClearFailure => AnnotateClearFailure now s
  | OShutdown servers => AnnotateShutdown now servers s
  | ORestart servers => AnnotateRestart now servers s
  | OShutdownAll => AnnotateShutdownAll now s
  | ORestartAll => AnnotateRestartAll now s
  end.

(** a user's annotation has a tag of its own *)
Definition own_tag (o : op) : Prop := match o with OUser tag _ _ _ => tag ≠ TAG_PARTITION | _ => True end.

(** each step is the time that passes and what is done then *)
Fixpoint run (l : list (Z * op)) (now : Z) (s : state) : outcome (Z * state) :=
  match l with
  | [] => Ret (now, s)
  | (d, o) :: l' => s' ← do_op (now + d) o s; run l' (now + d) s'
  end.

(** *** What is displayed *)

Definition wf (f : FrameworkInfo) : Prop := length (connected f) = nservers f ∧ length (crashed f) = nservers f.

(** the open interval of the failures describes the servers as they are, and there
    is none when there is no failure *)
Definition shows_faults (s : state) : Prop :=
  match finfo s with
  | None => continuous (annotation s) !! TAG_PARTITION = None
  | Some f => wf f ∧
      match continuous (annotation s) !! TAG_PARTITION with
      | None => faultless f = true
      | Some c => faultless f = false ∧ fault_text f = Ret (desp c)
      end
  end.

(** the failures that are over; those without a description come from
    [annotateContinuousEnd] without an open interval *)
Definition past_faults (an : Annotation) : list PAnnotation :=
  filter (λ a, Tag a = TAG_PARTITION ∧ Description a ≠ "") (annotations an).

(** one after the other, between two times *)
Fixpoint in_turn (from : Z) (l : list PAnnotation) (upto : Z) : Prop :=
  match l with
  | [] => from ≤ upto
  | a :: l' => from ≤ Start a ≤ End_ a ∧ in_turn (End_ a) l' upto
  end.

Definition turns (now : Z) (an : Annotation) : Prop :=
  match continuous an !! TAG_PARTITION with
  | None => in_turn 0 (past_faults an) now
  | Some c => in_turn 0 (past_faults an) (start c) ∧ start c ≤ now
  end.

Lemma in_turn_le l from upto upto' : in_turn from l upto → upto ≤ upto' → in_turn from l upto'.
Proof. revert from. induction l as [|a l IH]; simpl; [lia|]. intros from [? ?] ?. eauto. Qed.

Lemma in_turn_snoc l from upto a : in_turn from l upto → upto ≤ Start a → Start a ≤ End_ a → in_turn from (l ++ [a]) (End_ a).
Proof. revert from. induction l as [|b l IH]; simpl; intros from; [lia|]. intros [? ?] ??. eauto. Qed.

Lemma past_faults_add a an : past_faults (add a an)
  = past_faults an ++ (if decide (Tag a = TAG_PARTITION ∧ Description a ≠ "") then [a] else []).
Proof. unfold past_faults, add. simpl. rewrite filter_app, filter_cons. by case_decide. Qed.

Lemma turns_later now now' an : turns now an → now ≤ now' → turns now' an.
Proof.
  unfold turns. destruct (continuous an !! TAG_PARTITION); [intros [? ?] ?; split; [done|lia]|].
  intros. by eapply in_turn_le.
Qed.

(** an annotation of another tag does not count *)
Lemma turns_add now a an : Tag a ≠ TAG_PARTITION → turns now an → turns now (add a an).
Proof.
  intros Ht. unfold turns. change (continuous (add a an)) with (continuous an).
  rewrite past_faults_add, decide_False by naive_solver. by rewrite app_nil_r.
Qed.

Lemma turns_color now d det color an : turns now an → d ≠ "" →
  turns now (annotateContinuousColor now TAG_PARTITION d det color an).
Proof.
  intros Ht Hd. unfold annotateContinuousColor, turns in *. destruct (continuous an !! TAG_PARTITION) as [c|] eqn:Hc; simpl.
  - rewrite lookup_insert_eq. simpl. split; [|lia]. destruct Ht as [Ht1 Ht2].
    change (past_faults (set_open ?m ?x)) with (past_faults x). rewrite past_faults_add.
    case_decide; [|rewrite app_nil_r; by eapply in_turn_le].
    by apply (in_turn_snoc _ _ (start c) (closed TAG_PARTITION now c)).
  - rewrite lookup_insert_eq. simpl. split; [exact Ht|lia].
Qed.

Lemma turns_end now an : turns now an → turns now (annotateContinuousEnd now TAG_PARTITION an).
Proof.
  unfold annotateContinuousEnd, turns. simpl. rewrite lookup_delete_eq.
  change (past_faults (set_open ?m ?x)) with (past_faults x). rewrite past_faults_add.
  destruct (continuous an !! TAG_PARTITION) as [c|]; simpl.
  - intros [H1 H2]. case_decide; [|rewrite app_nil_r; by eapply in_turn_le].
    by apply (in_turn_snoc _ _ (start c) (closed TAG_PARTITION now c)).
  - by rewrite app_nil_r.
Qed.

(** ** Every operation keeps the display *)

Lemma go_index_length {A} (l : list A) i x : go_index l i = Ret x → 0 ≤ i < zlen l.
Proof. intros E%go_index_Ret%zlookup_Some. by destruct E. Qed.

Lemma fault_text_nonempty f t : fault_text f = Ret t → t ≠ "".
Proof.
  unfold fault_text. intros E%outcome_bind_ret. destruct E as ([[alone conn] crashes] & _ & [= <-]). done.
Qed.

Lemma annotateFault_shows now s s' f : finfo s = Some f → wf f → turns now (annotation s) →
  annotateFault now s = Ret s' → finfo s' = Some f ∧ shows_faults s' ∧ turns now (annotation s').
Proof.
  intros Hf Hwf Ht E. unfold annotateFault, get_finfo in E. rewrite Hf in E. cbn [mbind outcome_bind] in E.
  destruct (faultless f) eqn:Hl.
  - injection E as <-. simpl. split; [done|]. split; [|by apply turns_end]. unfold shows_faults. simpl. rewrite Hf.
    by rewrite lookup_delete_eq.
  - apply outcome_bind_ret in E as (text & Et & [= <-]). simpl. split; [done|].
    split; [|apply turns_color; [done|by eapply fault_text_nonempty]].
    unfold shows_faults, annotateContinuousColor. simpl. rewrite Hf. split; [done|].
    destruct (continuous (annotation s) !! TAG_PARTITION); simpl; by rewrite lookup_insert_eq.
Qed.

Lemma go_update_length {A} (l l' : list A) i x : go_update l i x = Ret l' → length l' = length l.
Proof. unfold go_update. case_decide; [|done]. intros [= <-]. by rewrite length_insert. Qed.

Lemma mark_spec down servers cr changed cr' changed' : mark down servers cr changed = Ret (cr', changed') →
  length cr' = length cr ∧ (changed = true → changed' = true) ∧ (changed' = false → cr' = cr).
Proof.
  revert cr changed. induction servers as [|id servers IH]; intros cr changed E; simpl in E; [by injection E as <- <-|].
  apply outcome_bind_ret in E as (b & Eb & E). apply outcome_bind_ret in E as (cr1 & Eu & E).
  destruct (IH _ _ E) as (H1 & H2 & H3). split; [rewrite H1; by eapply go_update_length|].
  split; [intros ->; by apply H2|]. intros Hc. rewrite (H3 Hc).
  destruct (changed || negb (Bool.eqb b down)) eqn:Hcb; [by rewrite H2 in Hc|].
  apply orb_false_iff in Hcb as [_ Hb%negb_false_iff%eqb_prop]. subst b.
  unfold go_update in Eu. case_decide; [|done]. injection Eu as <-. apply go_index_Ret, zlookup_Some in Eb as [_ Eb].
  by apply list_insert_id.
Qed.

Lemma annotate_mark_shows down now servers s s' : shows_faults s → turns now (annotation s) →
  annotate_mark down now servers s = Ret s' → shows_faults s' ∧ turns now (annotation s').
Proof.
  intros Hs Ht E. unfold annotate_mark, get_finfo in E. destruct (finfo s) as [f|] eqn:Hf; [|done].
  cbn [mbind outcome_bind] in E. apply outcome_bind_ret in E as ([cr changed] & Em & E).
  destruct (mark_spec _ _ _ _ _ _ Em) as (Hlen & _ & Hsame).
  pose proof Hs as Hs'. unfold shows_faults in Hs'. rewrite Hf in Hs'. destruct Hs' as [[Hw1 Hw2] Hopen].
  destruct changed.
  - eapply annotateFault_shows in E as (_ & ? & ?); [done|done|split; simpl; congruence|done].
  - injection E as <-. rewrite (Hsame eq_refl). split; [|done]. unfold shows_faults, set_finfo. simpl.
    by destruct f.
Qed.

Lemma go_copy_length {A} (dst src : list A) : length (go_copy dst src) = length dst.
Proof. unfold go_copy. rewrite length_app, length_take, length_drop. lia. Qed.

Lemma do_op_shows now now' o s s' : now ≤ now' → own_tag o → shows_faults s → turns now (annotation s) → 0 ≤ now →
  do_op now' o s = Ret s' → shows_faults s' ∧ turns now' (annotation s').
Proof.
  intros Hn Hown Hs Ht H0 E. apply (turns_later now now') in Ht; [|done].
  destruct o as [title n|d det|det|d det color|tag d det [from|]|connection| |servers|servers| |]; simpl in E.
  - injection E as <-. split; [|unfold turns, past_faults; simpl; rewrite lookup_empty; simpl; lia]. unfold shows_faults. simpl.
    split; [by split; apply length_replicate|]. unfold faultless. simpl. by rewrite !bool_decide_true.
  - injection E as <-. split; [exact Hs|]. by apply turns_add.
  - unfold AnnotateCheckerBegin, get_finfo in E. destruct (finfo s) as [f|] eqn:Hf; [|done]. injection E as <-.
    split; [|done]. unfold shows_faults in *. simpl. by rewrite Hf in Hs.
  - unfold AnnotateCheckerEnd, get_finfo in E. destruct (finfo s) as [f|] eqn:Hf; [|done]. simpl in E.
    case_decide; injection E as <-; (split; [by unfold shows_faults in *|by apply turns_add]).
  - injection E as <-. split; [exact Hs|]. by apply turns_add.
  - injection E as <-. split; [exact Hs|]. by apply turns_add.
  - unfold AnnotateConnection, get_finfo in E. destruct (finfo s) as [f|] eqn:Hf; [|done]. simpl in E.
    unfold shows_faults in Hs. rewrite Hf in Hs. destruct Hs as [[Hw1 Hw2] Hopen]. case_decide.
    + injection E as <-. split; [|done]. unfold shows_faults. by rewrite Hf.
    + eapply annotateFault_shows in E as (_ & ? & ?); [done|done|split; simpl; [by rewrite go_copy_length|done]|done].
  - unfold AnnotateClearFailure, get_finfo in E. destruct (finfo s) as [f|] eqn:Hf; [|done]. injection E as <-.
    unfold shows_faults in Hs. rewrite Hf in Hs. destruct Hs as [[Hw1 Hw2] _].
    split; [|by apply turns_end]. unfold shows_faults. simpl. rewrite lookup_delete_eq.
    split; [split; simpl; by rewrite length_fmap|]. unfold faultless. simpl.
    rewrite (const_fmap _ _ true), (const_fmap _ _ false) by done. by rewrite Hw1, Hw2, !bool_decide_true.
  - by eapply annotate_mark_shows.
  - by eapply annotate_mark_shows.
  - apply outcome_bind_ret in E as (l & _ & E). by eapply annotate_mark_shows.
  - apply outcome_bind_ret in E as (l & _ & E). by eapply annotate_mark_shows.
Qed.

(** The display of failures is right: after any annotations of the framework and of
    users with tags of their own, at times that do not go back, an open interval shows exactly the servers that
    are disconnected or crashed now, there is none when all are well, and the
    intervals before it, each with a beginning before its end, follow one another
    without overlap. *)
Theorem faults_displayed l now s : Forall (λ x, 0 ≤ fst x ∧ own_tag (snd x)) l → run l 0 init = Ret (now, s) →
  shows_faults s ∧ turns now (annotation s).
Proof.
  intros Hl E. assert (∀ t0 s0, 0 ≤ t0 → shows_faults s0 → turns t0 (annotation s0) → run l t0 s0 = Ret (now, s) →
    shows_faults s ∧ turns now (annotation s)) as Hgen; [|by apply (Hgen 0 init); [|vm_compute..|]].
  clear E. induction Hl as [|[d o] l [Hd Ho] _ IH]; intros t0 s0 H0 Hs Ht E; simpl in E; [by injection E as <- <-|].
  apply outcome_bind_ret in E as (s1 & E1 & E). simpl in Hd.
  destruct (do_op_shows t0 (t0 + d) o s0 s1) as [Hs1 Ht1]; [lia|done..|]. apply (IH (t0 + d) s1); [lia|done..].
Qed.

(* ------------------------------------------------------------------ *)
(** ** Concrete runs *)

Definition failures : list (Z * op) :=
  [(10, OTest "crash" 3); (5, OShutdown [1]); (5, OConnection [false; true; true]); (5, ORestart [1]);
   (5, OConnection [true; true; true]); (0, OUser "client" "put" "x" (Some 20)); (5, OShutdownAll)].

Lemma faults_displayed_witness : ∃ s, run failures 0 init = Ret (35, s)
  ∧ (λ a, (Description a, Start a, End_ a)) <$> past_faults (annotation s)
    = [("partition = [0 2] / crash = [1]", 15, 20); ("partition = [0] [2] / crash = [1]", 20, 25); ("partition = [0] [1 2]", 25, 30)]%string
  ∧ desp <$> continuous (annotation s) !! TAG_PARTITION = Some "partition =  / crash = [0 1 2]"%string
  ∧ shows_faults s ∧ turns 35 (annotation s).
Proof.
  eexists. split; [vm_compute; reflexivity|]. split; [vm_compute; reflexivity|]. split; [vm_compute; reflexivity|].
  apply (faults_displayed failures); [|vm_compute; reflexivity]. by repeat constructor.
Defined.

(** Ending a failure when none is displayed adds an interval from time 0 without
    a description. *)
Theorem end_without_failure : ∃ s, run [(10, OTest "t" 3); (90, OClearFailure)] 0 init = Ret (100, s)
  ∧ last (annotations (annotation s)) = Some (closed TAG_PARTITION 100 zero_continuous).
Proof. eexists. split; vm_compute; reflexivity. Qed.

(** A second check without a beginning of its own is shown as an interval that
    starts at the first one's. *)
Theorem stale_checker_begin : ∃ s,
  run [(10, OTest "t" 3); (10, OCheckerBegin "first"); (10, OCheckerEnd "ok" "" COLOR_SUCCESS);
       (70, OCheckerEnd "other" "" COLOR_SUCCESS)] 0 init = Ret (100, s)
  ∧ last (annotations (annotation s))
    = Some {| Tag := TAG_CHECKER; Start := 20; End_ := 100; Description := "other"; Details := "first: ";
              BackgroundColor := COLOR_SUCCESS |}.
Proof. eexists. split; vm_compute; reflexivity. Qed.
