(* ===== verification/Json.v ===== *)
(** * encoding/json, as far as the programs use it

    Printing of strings, arrays and objects, and a parser for JSON texts of any
    shape; that the parser's fuel is enough, and that it reads back what was
    printed.  Which Go value a text gives is in ShardJson (configurations) and
    MrApps (key/value pairs). *)

From S2P Require Import Prelude GoText.
Local Open Scope Z_scope.

(** ** Printing *)

Definition dquote : ascii := "034"%char.

Definition hex (n : Z) : ascii :=
  if decide (n < 10) then char (48 + n) else char (87 + n).

(** one byte below [RuneSelf] in a string; [<], [>] and [&] are escaped for
    HTML *)
Definition quote_char (c : ascii) : chars :=
  let b := byte c in
  if decide (c = dquote ∨ b = 92) then ["\"%char; c]
  else if decide (b = 8) then to_chars "\b"
  else if decide (b = 12) then to_chars "\f"
  else if decide (b = 10) then to_chars "\n"
  else if decide (b = 13) then to_chars "\r"
  else if decide (b = 9) then to_chars "\t"
  else if decide (b < 32 ∨ b = 60 ∨ b = 62 ∨ b = 38) then
    to_chars "\u00" ++ [hex (b `div` 16); hex (b `mod` 16)]
  else [c].

(** one rune: an ill-formed byte becomes the replacement character, the line
    and paragraph separators are escaped *)
Definition quote_rune (rb : Z * chars) : chars :=
  match snd rb with
  | [c] => if is_ascii c then quote_char c else to_chars "\ufffd"
  | b => if decide (fst rb = 8232 ∨ fst rb = 8233) then to_chars "\u202" ++ [hex (fst rb - 8224)] else b
  end.

Definition quote (s : chars) : chars :=
  dquote :: concat (quote_rune <$> range s) ++ [dquote].

Fixpoint join (sep : chars) (l : list chars) : chars :=
  match l with
  | [] => []
  | [x] => x
  | x :: l' => x ++ sep ++ join sep l'
  end.

Definition member (k v : chars) : chars := quote k ++ ":"%char :: v.
Definition array (l : list chars) : chars := "["%char :: join [","%char] l ++ ["]"%char].
Definition object (l : list chars) : chars := "{"%char :: join [","%char] l ++ ["}"%char].

(** ** Parsing *)

#[local] Set Warnings "-register-all".
Inductive json :=
| JNull
| JBool (b : bool)
| JNum (lit : chars)
| JStr (s : chars)
| JArr (l : list json)
| JObj (l : list (chars * json)).

(** the rest of [s] after the prefix [p] *)
Fixpoint strip (p s : chars) : option chars :=
  match p, s with
  | [], _ => Some s
  | c :: p', d :: s' => if decide (c = d) then strip p' s' else None
  | _, [] => None
  end.
Definition strip1 (c : ascii) (s : chars) : option chars := strip [c] s.

Fixpoint span (f : ascii → bool) (s : chars) : chars * chars :=
  match s with
  | c :: s' => if f c then let '(a, b) := span f s' in (c :: a, b) else ([], s)
  | [] => ([], [])
  end.

Definition is_space (c : ascii) : bool :=
  bool_decide (byte c = 32 ∨ byte c = 9 ∨ byte c = 13 ∨ byte c = 10).
Definition skip_ws (s : chars) : chars := snd (span is_space s).

Definition unhex (c : ascii) : option Z :=
  let b := byte c in
  if decide (48 ≤ b ≤ 57) then Some (b - 48)
  else if decide (97 ≤ b ≤ 102) then Some (b - 87)
  else if decide (65 ≤ b ≤ 70) then Some (b - 55)
  else None.

Definition hex4 (s : chars) : option (Z * chars) :=
  match s with
  | a :: b :: c :: d :: r =>
      a ← unhex a; b ← unhex b; c ← unhex c; d ← unhex d;
      Some (a * 4096 + b * 256 + c * 16 + d, r)
  | _ => None
  end.

Definition surrogate (r : Z) : bool := bool_decide (55296 ≤ r ≤ 57343).
(** [utf16.DecodeRune] *)
Definition utf16 (r1 r2 : Z) : option Z :=
  if decide (55296 ≤ r1 ≤ 56319 ∧ 56320 ≤ r2 ≤ 57343)
  then Some ((r1 - 55296) * 1024 + (r2 - 56320) + 65536) else None.

(** the character after a backslash *)
Definition unescape (c : ascii) : option ascii :=
  let b := byte c in
  if decide (c = dquote ∨ b = 92 ∨ b = 47) then Some c
  else if decide (b = 98) then Some (char 8)
  else if decide (b = 102) then Some (char 12)
  else if decide (b = 110) then Some (char 10)
  else if decide (b = 114) then Some (char 13)
  else if decide (b = 116) then Some (char 9)
  else None.

(** one item of a string: what it stands for and the rest *)
Definition string_item (s : chars) : option (chars * chars) :=
  match s with
  | [] => None
  | c :: r =>
      if decide (c = "\"%char) then
        match r with
        | [] => None
        | e :: r1 =>
            if decide (e = "u"%char) then
              '(rr, r2) ← hex4 r1;
              if surrogate rr then
                match strip (to_chars "\u") r2 ≫= hex4 with
                | Some (rr1, r3) =>
                    match utf16 rr rr1 with
                    | Some x => Some (EncodeRune x, r3)
                    | None => Some (EncodeRune RuneError, r2)
                    end
                | None => Some (EncodeRune RuneError, r2)
                end
              else Some (EncodeRune rr, r2)
            else x ← unescape e; Some ([x], r1)
        end
      else if decide (byte c < 32) then None
      else let '(rr, n) := DecodeRune s in Some (EncodeRune rr, drop n s)
  end.

(** a string after its opening quote *)
Fixpoint string_body (fuel : nat) (s : chars) : option (chars * chars) :=
  match fuel with
  | O => None
  | S fuel' =>
      match strip1 dquote s with
      | Some r => Some ([], r)
      | None =>
          '(x, r) ← string_item s;
          '(t, r') ← string_body fuel' r;
          Some (x ++ t, r')
      end
  end.
Definition parse_string (s : chars) : option (chars * chars) := string_body (S (length s)) s.

(** numbers: the characters a number is made of, and the grammar *)
Definition num_char (c : ascii) : bool :=
  is_digit c || bool_decide (c ∈ ["-"; "+"; "."; "e"; "E"]%char).

Definition all_digits (s : chars) : bool := negb (bool_decide (s = [])) && forallb is_digit s.

Definition exp_ok (s : chars) : bool :=
  match s with
  | [] => true
  | e :: r =>
      bool_decide (e = "e"%char ∨ e = "E"%char)
      && all_digits (match strip1 "-" r with
                     | Some r' => r'
                     | None => default r (strip1 "+" r)
                     end)
  end.

Definition frac_ok (s : chars) : bool :=
  match strip1 "." s with
  | Some r => let '(ds, r') := span is_digit r in negb (bool_decide (ds = [])) && exp_ok r'
  | None => exp_ok s
  end.

Definition valid_number (s : chars) : bool :=
  let s := default s (strip1 "-" s) in
  match strip1 "0" s with
  | Some r => frac_ok r
  | None => let '(ds, r) := span is_digit s in negb (bool_decide (ds = [])) && frac_ok r
  end.

(** what is being parsed: a value, or what follows [[] or [{] when there is an
    element *)
Inductive mode := AtValue | AtElems | AtMembers.

Definition maxNestingDepth : Z := 10000.

Definition words : list (chars * json) :=
  [(to_chars "null", JNull); (to_chars "true", JBool true); (to_chars "false", JBool false)].

(** literals and numbers *)
Definition parse_scalar (s : chars) : option (json * chars) :=
  match omap (λ w, (λ r, (snd w, r)) <$> strip (fst w) s) words with
  | x :: _ => Some x
  | [] => let '(lit, r) := span num_char s in
          if valid_number lit then Some (JNum lit, r) else None
  end.

(** one level of the grammar; [parse] is what it calls for the levels below *)
Section body.
Variable parse : Z → mode → chars → option (json * chars).

Definition parse_value (depth : Z) (s : chars) : option (json * chars) :=
  let s := skip_ws s in
  match strip1 "{" s with
  | Some r =>
      if decide (maxNestingDepth < depth + 1) then None
      else match strip1 "}" (skip_ws r) with
           | Some r' => Some (JObj [], r')
           | None => parse (depth + 1) AtMembers r
           end
  | None =>
      match strip1 "[" s with
      | Some r =>
          if decide (maxNestingDepth < depth + 1) then None
          else match strip1 "]" (skip_ws r) with
               | Some r' => Some (JArr [], r')
               | None => parse (depth + 1) AtElems r
               end
      | None =>
          match strip1 dquote s with
          | Some r => '(x, r') ← parse_string r; Some (JStr x, r')
          | None => parse_scalar s
          end
      end
  end.

Definition parse_elems (depth : Z) (s : chars) : option (json * chars) :=
  '(v, r) ← parse depth AtValue s;
  match strip1 "," (skip_ws r) with
  | Some r' =>
      '(vs, r'') ← parse depth AtElems r';
      match vs with JArr vs => Some (JArr (v :: vs), r'') | _ => None end
  | None => (λ r', (JArr [v], r')) <$> strip1 "]" (skip_ws r)
  end.

Definition parse_members (depth : Z) (s : chars) : option (json * chars) :=
  r0 ← strip1 dquote (skip_ws s);
  '(k, r1) ← parse_string r0;
  r2 ← strip1 ":" (skip_ws r1);
  '(v, r3) ← parse depth AtValue r2;
  match strip1 "," (skip_ws r3) with
  | Some r' =>
      '(vs, r'') ← parse depth AtMembers r';
      match vs with JObj vs => Some (JObj ((k, v) :: vs), r'') | _ => None end
  | None => (λ r', (JObj [(k, v)], r')) <$> strip1 "}" (skip_ws r3)
  end.

Definition parse_body (depth : Z) (m : mode) : chars → option (json * chars) :=
  match m with AtValue => parse_value depth | AtElems => parse_elems depth | AtMembers => parse_members depth end.
End body.

Fixpoint parse (fuel : nat) (depth : Z) (m : mode) (s : chars) : option (json * chars) :=
  match fuel with
  | O => None
  | S fuel' => parse_body (parse fuel') depth m s
  end.

(** a whole text; see [parse_fuel_enough] *)
Definition parse_fuel (s : chars) : nat := 2 * length s + 2.
Definition parse_json (s : chars) : option json :=
  '(v, r) ← parse (parse_fuel s) 0 AtValue s;
  if decide (skip_ws r = []) then Some v else None.

(** ** Assigning to strings, numbers and fields *)

(** into an [int] and a [uint64] *)
Definition dec_int (old : Z) (v : json) : option Z :=
  match v with JNull => Some old | JNum lit => ParseInt lit | _ => None end.
Definition dec_uint64 (old : Z) (v : json) : option Z :=
  match v with JNull => Some old | JNum lit => ParseUint lit | _ => None end.

Definition dec_string (old : chars) (v : json) : option chars :=
  match v with JNull => Some old | JStr s => Some s | _ => None end.

(** names of fields are compared without case: the least rune of each class *)
Definition fold_rune (r : Z) : Z :=
  if decide (97 ≤ r ≤ 122) then r - 32
  else if decide (r = 383) then 83
  else if decide (r = 8490) then 75
  else r.
Definition same_name (k : chars) (name : string) : bool :=
  bool_decide ((fold_rune ∘ fst) <$> range k = (fold_rune ∘ fst) <$> range (to_chars name)).

(** ** The fuel of the parser is enough *)

Lemma strip1_cons c s : strip1 c (c :: s) = Some s.
Proof. unfold strip1. simpl. by rewrite decide_True. Qed.

Lemma strip_length p s r : strip p s = Some r → length s = (length p + length r)%nat.
Proof.
  revert s. induction p as [|c p IH]; intros s E; [by simplify_eq/=|].
  destruct s as [|d s]; simpl in *; [done|]. case_decide; [|done]. simpl. f_equal. eauto.
Qed.
Lemma strip1_length c s r : strip1 c s = Some r → length s = Datatypes.S (length r).
Proof. apply strip_length. Qed.

#[local] Arguments strip : simpl never.

Lemma span_length f s : length s = (length (fst (span f s)) + length (snd (span f s)))%nat.
Proof.
  induction s as [|c s IH]; [done|]. simpl. destruct (f c); [|done].
  destruct (span f s) as [a b]; simpl in *. lia.
Qed.
Lemma skip_ws_length s : (length (skip_ws s) ≤ length s)%nat.
Proof. unfold skip_ws. pose proof (span_length is_space s). lia. Qed.

Lemma hex4_length s x r : hex4 s = Some (x, r) → (length r < length s)%nat.
Proof.
  unfold hex4. destruct s as [|a [|b [|c [|d s]]]]; intros E; simplify_option_eq. simpl. lia.
Qed.

Lemma string_item_length s x r : string_item s = Some (x, r) → (length r < length s)%nat.
Proof.
  unfold string_item. intros E. destruct s as [|c s]; [done|].
  case_decide; [|case_decide; [done|]].
  - destruct s as [|e s]; [done|]. case_decide; [|simplify_option_eq; lia].
    destruct (hex4 s) as [[rr r2]|] eqn:E4; [|done]. apply hex4_length in E4. simpl in *.
    destruct (surrogate rr); [|simplify_eq; lia].
    destruct (strip _ r2 ≫= hex4) as [[rr1 r3]|] eqn:E5; [|simplify_eq; lia].
    apply bind_Some in E5 as (r4 & E6 & E7%hex4_length). apply strip_length in E6.
    destruct (utf16 rr rr1); simplify_eq; lia.
  - pose proof (DecodeRune_size (c :: s) ltac:(done)) as Hs.
    destruct (DecodeRune (c :: s)) as [rr n]. simplify_eq. rewrite length_drop. simpl in *. lia.
Qed.

Lemma string_body_length f s x r : string_body f s = Some (x, r) → (length r < length s)%nat.
Proof.
  revert s x. induction f as [|f IH]; intros s x E; [done|]. simpl in E.
  destruct (strip1 dquote s) as [r0|] eqn:E0.
  - apply strip1_length in E0. simplify_eq. lia.
  - destruct (string_item s) as [[y r1]|] eqn:E1; simplify_eq/=. apply string_item_length in E1.
    destruct (string_body f r1) as [[t r2]|] eqn:E2; simplify_eq/=. apply IH in E2. lia.
Qed.

Lemma parse_string_length s x r : parse_string s = Some (x, r) → (length r < length s)%nat.
Proof. apply string_body_length. Qed.

Lemma parse_scalar_length s v r : parse_scalar s = Some (v, r) → (length r < length s)%nat.
Proof.
  unfold parse_scalar. destruct (omap _ words) as [|[w r0] l] eqn:E.
  - pose proof (span_length num_char s). destruct (span num_char s) as [lit r1]; simpl in *.
    destruct (valid_number lit) eqn:Hv; intros; simplify_eq. destruct lit; [done|]. simpl in *. lia.
  - intros [= -> ->]. assert ((v, r) ∈ omap (λ w, (λ r, (snd w, r)) <$> strip (fst w) s) words) as Hin
      by (rewrite E; by left).
    apply list_elem_of_omap in Hin as ([p j] & Hw & Hs). simpl in Hs.
    destruct (strip p s) as [r1|] eqn:Ep; simplify_eq/=. apply strip_length in Ep.
    assert (length p ≠ 0)%nat; [|lia]. unfold words in Hw. set_unfold in Hw.
    destruct Hw as [?|[?|[?|?]]]; simplify_eq; done.
Qed.

(** what the levels below do: consume, and agree on shorter texts *)
Definition shrinks (p : Z → mode → chars → option (json * chars)) : Prop :=
  ∀ d m s v r, p d m s = Some (v, r) → (length r < length s)%nat.

Lemma parse_body_shrinks p : shrinks p → shrinks (parse_body p).
Proof.
  intros Hp d m s v r. destruct m; simpl.
  - unfold parse_value. pose proof (skip_ws_length s).
    destruct (strip1 "{" _) as [r1|] eqn:E1; [apply strip1_length in E1|].
    { case_decide; [done|]. destruct (strip1 "}" _) as [r2|] eqn:E2; [|intros E%Hp; lia].
      apply strip1_length in E2. pose proof (skip_ws_length r1). intros [= <- <-]. lia. }
    destruct (strip1 "[" _) as [r1|] eqn:E2; [apply strip1_length in E2|].
    { case_decide; [done|]. destruct (strip1 "]" _) as [r2|] eqn:E3; [|intros E%Hp; lia].
      apply strip1_length in E3. pose proof (skip_ws_length r1). intros [= <- <-]. lia. }
    destruct (strip1 dquote _) as [r1|] eqn:E3; [apply strip1_length in E3|intros E%parse_scalar_length; lia].
    destruct (parse_string r1) as [[x r2]|] eqn:E4; [|done]. apply parse_string_length in E4.
    intros [= <- <-]. lia.
  - unfold parse_elems. destruct (p d AtValue s) as [[v1 r1]|] eqn:E1; [|done]. apply Hp in E1. simpl.
    pose proof (skip_ws_length r1). destruct (strip1 "," _) as [r2|] eqn:E2.
    + apply strip1_length in E2. destruct (p d AtElems r2) as [[vs r3]|] eqn:E3; [|done]. apply Hp in E3.
      simpl. destruct vs; intros; simplify_eq. lia.
    + destruct (strip1 "]" _) as [r3|] eqn:E3; [|done]. apply strip1_length in E3. intros [= <- <-]. lia.
  - unfold parse_members. pose proof (skip_ws_length s).
    destruct (strip1 dquote _) as [r0|] eqn:E0; [|done]. apply strip1_length in E0. simpl.
    destruct (parse_string r0) as [[k r1]|] eqn:E1; [|done]. apply parse_string_length in E1. simpl.
    pose proof (skip_ws_length r1). destruct (strip1 ":" _) as [r2|] eqn:E2; [|done]. apply strip1_length in E2. simpl.
    destruct (p d AtValue r2) as [[v3 r3]|] eqn:E3; [|done]. apply Hp in E3. simpl.
    pose proof (skip_ws_length r3). destruct (strip1 "," _) as [r4|] eqn:E4.
    + apply strip1_length in E4. destruct (p d AtMembers r4) as [[vs r5]|] eqn:E5; [|done]. apply Hp in E5.
      simpl. destruct vs; intros; simplify_eq. lia.
    + destruct (strip1 "}" _) as [r4|] eqn:E5; [|done]. apply strip1_length in E5. intros [= <- <-]. lia.
Qed.

Lemma parse_shrinks f : shrinks (parse f).
Proof. induction f as [|f IH]; [done|]. by apply parse_body_shrinks. Qed.

(** levels below that a text may need *)
Definition need (m : mode) (s : chars) : nat :=
  match m with AtValue => 2 * length s + 1 | _ => 2 * length s + 2 end.

Lemma parse_body_ext p q d m s :
  shrinks p → (∀ d' m' s', (need m' s' < need m s)%nat → p d' m' s' = q d' m' s') →
  parse_body p d m s = parse_body q d m s.
Proof.
  intros Hp Hpq. destruct m; simpl.
  - unfold parse_value. pose proof (skip_ws_length s).
    destruct (strip1 "{" _) as [r1|] eqn:E1; [apply strip1_length in E1|].
    { rewrite (Hpq _ AtMembers r1) by (simpl; lia). done. }
    destruct (strip1 "[" _) as [r1|] eqn:E2; [apply strip1_length in E2|done].
    rewrite (Hpq _ AtElems r1) by (simpl; lia). done.
  - unfold parse_elems. rewrite <-(Hpq d AtValue s) by (simpl; lia).
    destruct (p d AtValue s) as [[v1 r1]|] eqn:E1; [|done]. apply Hp in E1. simpl.
    pose proof (skip_ws_length r1). destruct (strip1 "," _) as [r2|] eqn:E2; [|done].
    apply strip1_length in E2. rewrite (Hpq _ AtElems r2) by (simpl; lia). done.
  - unfold parse_members. pose proof (skip_ws_length s).
    destruct (strip1 dquote _) as [r0|] eqn:E0; [|done]. apply strip1_length in E0. simpl.
    destruct (parse_string r0) as [[k r1]|] eqn:E1; [|done]. apply parse_string_length in E1. simpl.
    pose proof (skip_ws_length r1). destruct (strip1 ":" _) as [r2|] eqn:E2; [|done]. apply strip1_length in E2. simpl.
    rewrite <-(Hpq d AtValue r2) by (simpl; lia).
    destruct (p d AtValue r2) as [[v3 r3]|] eqn:E3; [|done]. apply Hp in E3. simpl.
    pose proof (skip_ws_length r3). destruct (strip1 "," _) as [r4|] eqn:E4; [|done].
    apply strip1_length in E4. rewrite (Hpq _ AtMembers r4) by (simpl; lia). done.
Qed.

Lemma parse_fuel_enough f f' d m s : (need m s ≤ f)%nat → (f ≤ f')%nat → parse f' d m s = parse f d m s.
Proof.
  revert f' d m s. induction f as [|f IH]; intros f' d m s Hn Hf; [destruct m; simpl in Hn; lia|].
  destruct f' as [|f']; [lia|]. cbn [parse]. apply parse_body_ext; [apply parse_shrinks|].
  intros d' m' s' Hlt. apply IH; lia.
Qed.

(** the parser, with as much fuel as it needs *)
Definition parses (d : Z) (m : mode) (s : chars) : option (json * chars) := parse (need m s) d m s.

Lemma parses_eq d m s : parses d m s = parse_body parses d m s.
Proof.
  unfold parses at 1. destruct (need m s) as [|n] eqn:E; [destruct m; simpl in E; lia|].
  cbn [parse]. apply parse_body_ext; [apply parse_shrinks|].
  intros d' m' s' Hlt. unfold parses. apply parse_fuel_enough; lia.
Qed.

Lemma parse_json_eq s :
  parse_json s = '(v, r) ← parses 0 AtValue s; if decide (skip_ws r = []) then Some v else None.
Proof.
  unfold parse_json. rewrite (parse_fuel_enough (need AtValue s)); [done|done|]. unfold parse_fuel; simpl. lia.
Qed.

(** ** Reading back strings *)

Lemma quote_char_item c t :
  is_ascii c = true →
  string_item (quote_char c ++ t) = Some ([c], t) ∧ strip1 dquote (quote_char c ++ t) = None
  ∧ quote_char c ≠ [].
Proof.
  destruct c as [[] [] [] [] [] [] [] []]; intros Hc; try (vm_compute in Hc; discriminate Hc);
    (split; [vm_compute; reflexivity|split; [vm_compute; reflexivity|vm_compute; discriminate]]).
Qed.

Definition quoted (s : chars) : chars := concat (quote_rune <$> range s).

(** what a well-formed rune is printed as is one item, read back as the rune *)
Lemma quote_rune_item c s t :
  valid_utf8 (c :: s) = true →
  let '(r, n) := DecodeRune (c :: s) in
  let q := quote_rune (r, take n (c :: s)) in
  string_item (q ++ t) = Some (take n (c :: s), t) ∧ strip1 dquote (q ++ t) = None ∧ q ≠ [].
Proof.
  intros Hv%valid_utf8_cons. pose proof (DecodeRune_size (c :: s) ltac:(done)) as Hsize.
  destruct (DecodeRune (c :: s)) as [r n] eqn:E. cbn [snd] in Hsize.
  destruct Hv as [[[-> Hc]|Hn] _].
  { unfold quote_rune. cbn [take snd]. rewrite Hc. by apply quote_char_item. }
  destruct (EncodeRune_DecodeRune _ _ _ E Hn) as [He Hr].
  assert (is_ascii c = false) as Hc.
  { destruct (is_ascii c) eqn:Hc; [|done]. rewrite DecodeRune_ascii in E by done. simplify_eq. lia. }
  assert (quote_rune (r, take n (c :: s))
          = if decide (r = 8232 ∨ r = 8233) then to_chars "\u202" ++ [hex (r - 8224)] else take n (c :: s)) as ->.
  { unfold quote_rune. cbn [fst snd]. destruct n as [|[|n]]; [lia|lia|]. destruct s as [|c' s]; [simpl in Hsize; lia|done]. }
  case_decide as Hsep.
  - rewrite <-He. destruct Hsep as [-> | ->];
      (split; [vm_compute; reflexivity|split; [vm_compute; reflexivity|vm_compute; discriminate]]).
  - destruct n as [|n]; [lia|]. change (take (S n) (c :: s)) with (c :: take n s) in *. split_and!; [| |done].
    + unfold string_item. cbn [app].
      assert (¬ (byte c < 128)) as Hb by (by apply bool_decide_eq_false in Hc).
      rewrite decide_False by (intros ->; vm_compute in Hc; done). rewrite decide_False by lia.
      change (c :: take n s ++ t) with (take (S n) (c :: s) ++ t). rewrite (DecodeRune_app _ _ _ _ E Hn).
      rewrite He. do 2 f_equal. rewrite drop_app_length'; [done|]. rewrite length_take. simpl in *; lia.
    + cbn [app]. unfold strip1, strip. rewrite decide_False; [done|]. intros <-. vm_compute in Hc. done.
Qed.

Lemma quoted_cons c s :
  quoted (c :: s) = (let '(r, n) := DecodeRune (c :: s) in quote_rune (r, take n (c :: s)) ++ quoted (drop n (c :: s))).
Proof. unfold quoted. rewrite range_cons. by destruct (DecodeRune (c :: s)). Qed.

Lemma string_body_quoted s f r :
  valid_utf8 s = true → (length (quoted s) < f)%nat →
  string_body f (quoted s ++ dquote :: r) = Some (s, r).
Proof.
  revert s. induction f as [|f IH]; intros s Hs Hf; [lia|]. destruct s as [|c s].
  - cbn. by rewrite strip1_cons.
  - rewrite quoted_cons in *. pose proof (valid_utf8_cons _ _ Hs) as Hv.
    pose proof (quote_rune_item c s (quoted (drop (snd (DecodeRune (c :: s))) (c :: s)) ++ dquote :: r) Hs) as Hi.
    destruct (DecodeRune (c :: s)) as [rr n]. cbn [snd] in Hi. destruct Hi as (Hi & Hq & Hne).
    rewrite length_app in Hf. rewrite <-app_assoc. cbn [string_body]. rewrite Hq, Hi. cbn [mbind option_bind].
    rewrite IH; [cbn [mbind option_bind]; by rewrite take_drop|by apply Hv|].
    destruct (quote_rune (rr, take n (c :: s))); [done|]. simpl in Hf. lia.
Qed.

Lemma parse_string_quoted s r : valid_utf8 s = true → parse_string (quoted s ++ dquote :: r) = Some (s, r).
Proof. intros Hs. apply string_body_quoted; [done|]. rewrite length_app. lia. Qed.

Lemma quote_quoted s r : quote s ++ r = dquote :: quoted s ++ dquote :: r.
Proof. unfold quote, quoted. cbn. by rewrite <-app_assoc. Qed.

(** ** Reading back numbers *)

Lemma span_app f a b :
  forallb f a = true → match b with c :: _ => f c = false | [] => True end → span f (a ++ b) = (a, b).
Proof.
  intros Ha Hb. induction a as [|c a IH]; simpl in *.
  - destruct b as [|c b]; [done|]. simpl. by rewrite Hb.
  - apply andb_true_iff in Ha as [-> Ha]. by rewrite IH.
Qed.

Lemma Itoa_num_char z : forallb num_char (Itoa z) = true.
Proof.
  assert (∀ n, forallb num_char (nat_chars n) = true) as Hn.
  { intros n. pose proof (uint_chars_digits (N.to_uint n)) as Hd. fold (nat_chars n) in Hd.
    induction (nat_chars n) as [|c l IH]; [done|]. simpl in *. apply andb_true_iff in Hd as [Hc Hl].
    unfold num_char at 1. rewrite Hc. by apply IH. }
  unfold Itoa. case_decide; simpl; apply Hn.
Qed.

Lemma Itoa_ascii z : forallb is_ascii (Itoa z) = true.
Proof.
  pose proof (Itoa_num_char z) as Hn. induction (Itoa z) as [|c l IH]; [done|]. simpl in *.
  apply andb_true_iff in Hn as [Hc Hl]. rewrite (IH Hl), andb_true_r. revert Hc. clear.
  destruct c as [[] [] [] [] [] [] [] []]; intros Hc; done || (vm_compute in Hc; discriminate Hc).
Qed.

Lemma digit_not c d : is_digit c = true → is_digit d = false → c ≠ d.
Proof. congruence. Qed.

Lemma valid_number_nat n :
  strip1 "-" (nat_chars n) = None ∧
  match strip1 "0" (nat_chars n) with
  | Some r => frac_ok r
  | None => let '(ds, r) := span is_digit (nat_chars n) in negb (bool_decide (ds = [])) && frac_ok r
  end = true.
Proof.
  pose proof (nat_chars_nonempty n) as Hne. pose proof (nat_chars_leading n) as Hz.
  pose proof (nat_chars_no_sign n) as Hd. pose proof (uint_chars_digits (N.to_uint n)) as Hds.
  fold (nat_chars n) in Hds. destruct (nat_chars n) as [|c l]; [done|].
  specialize (Hd c l eq_refl). split.
  - unfold strip1, strip. rewrite decide_False; [done|]. intros <-. done.
  - destruct (decide (c = "0"%char)) as [->|Hc].
    + rewrite strip1_cons. rewrite (Hz l eq_refl). reflexivity.
    + assert (strip1 "0" (c :: l) = None) as -> by (unfold strip1, strip; by rewrite decide_False).
      rewrite <-(app_nil_r (c :: l)), span_app by done. reflexivity.
Qed.

Lemma valid_number_Itoa z : valid_number (Itoa z) = true.
Proof.
  unfold valid_number, Itoa. case_decide.
  - rewrite strip1_cons. simpl. apply valid_number_nat.
  - destruct (valid_number_nat (Z.to_N z)) as [-> Hv]. done.
Qed.

(** ** Reading back values *)

#[local] Arguments skip_ws : simpl never.
#[local] Arguments strip1 : simpl never.
#[local] Arguments quote : simpl never.
#[local] Arguments member : simpl never.
#[local] Arguments parse_string : simpl never.

(** what comes after a value that was printed *)
Definition delimited (r : chars) : Prop :=
  match r with [] => True | c :: _ => c ∈ [","; "]"; "}"]%char end.

(** text [t], [k] levels deep, is read as [v] *)
Definition reads (k : Z) (t : chars) (v : json) : Prop :=
  (∃ c l, t = c :: l ∧ is_space c = false ∧ c ≠ "]"%char ∧ c ≠ "}"%char)
  ∧ ∀ d r, d + k ≤ maxNestingDepth → delimited r → parses d AtValue (t ++ r) = Some (v, r).

Lemma skip_ws_cons c s : is_space c = false → skip_ws (c :: s) = c :: s.
Proof. intros Hc. unfold skip_ws. simpl. by rewrite Hc. Qed.

Lemma strip_ne c p d s : c ≠ d → strip (c :: p) (d :: s) = None.
Proof. intros Hne. unfold strip. by rewrite decide_False. Qed.
Lemma strip1_ne c d s : c ≠ d → strip1 c (d :: s) = None.
Proof. intros Hne. unfold strip1, strip. by rewrite decide_False. Qed.

Lemma delimited_skip r : delimited r → skip_ws r = r.
Proof.
  destruct r as [|c r]; [done|]. intros Hc. apply skip_ws_cons. simpl in Hc. set_unfold in Hc.
  destruct Hc as [->|[->|[->|[]]]]; reflexivity.
Qed.

(** the first character of a number *)
Lemma Itoa_first z : ∃ c l, Itoa z = c :: l ∧ (is_digit c = true ∨ c = "-"%char).
Proof.
  unfold Itoa. case_decide; [eauto|].
  destruct (nat_chars (Z.to_N z)) as [|c l] eqn:E; [by apply nat_chars_nonempty in E|].
  apply nat_chars_no_sign in E. eauto.
Qed.

Lemma number_first c :
  is_digit c = true ∨ c = "-"%char →
  is_space c = false ∧ c ∉ ["{"; "["; "]"; "}"; dquote; "n"; "t"; "f"]%char.
Proof.
  intros Hc. assert (is_digit c || bool_decide (c = "-"%char) = true) as Hb.
  { destruct Hc as [->|Hc]; [done|]. by rewrite (bool_decide_eq_true_2 _ Hc), orb_true_r. }
  clear Hc. destruct c as [[] [] [] [] [] [] [] []]; try (vm_compute in Hb; discriminate Hb);
    (split; [reflexivity|apply (bool_decide_unpack _); vm_compute; exact I]).
Qed.

Lemma reads_int k z : reads k (Itoa z) (JNum (Itoa z)).
Proof.
  destruct (Itoa_first z) as (c & l & E & Hc). destruct (number_first c Hc) as [Hsp Hne].
  set_unfold in Hne. split; [exists c, l; split_and!; [done|done|tauto|tauto]|].
  intros d r _ Hr. rewrite parses_eq. cbn [parse_body]. unfold parse_value.
  rewrite E. cbn [app]. rewrite skip_ws_cons by done. rewrite !strip1_ne by (intros <-; tauto).
  unfold parse_scalar.
  assert (omap (λ w, (λ r, (snd w, r)) <$> strip (fst w) (c :: l ++ r)) words = []) as ->.
  { unfold words. simpl. by rewrite !strip_ne by (intros <-; tauto). }
  change (c :: l ++ r) with ((c :: l) ++ r). rewrite <-E, span_app.
  - by rewrite valid_number_Itoa.
  - apply Itoa_num_char.
  - destruct r as [|e r]; [done|]. simpl in Hr. set_unfold in Hr.
    destruct Hr as [->|[->|[->|[]]]]; reflexivity.
Qed.

Lemma reads_string k s : valid_utf8 s = true → reads k (quote s) (JStr s).
Proof.
  intros Hs. split.
  { exists dquote, (concat (quote_rune <$> range s) ++ [dquote]). done. }
  intros d r _ Hr. rewrite parses_eq. cbn [parse_body]. unfold parse_value. rewrite quote_quoted.
  rewrite skip_ws_cons by reflexivity. rewrite !strip1_ne by done. rewrite strip1_cons.
  by rewrite parse_string_quoted.
Qed.

Lemma join_cons sep x l : l ≠ [] → join sep (x :: l) = x ++ sep ++ join sep l.
Proof. by destruct l. Qed.

Lemma elems_read k l vs d r :
  Forall2 (reads k) l vs → l ≠ [] → d + k ≤ maxNestingDepth →
  parses d AtElems (join [","%char] l ++ "]"%char :: r) = Some (JArr vs, r).
Proof.
  intros Hl. revert d. induction Hl as [|t v l vs Ht Hl IH]; intros d Hne Hd; [done|].
  rewrite parses_eq. cbn [parse_body]. unfold parse_elems.
  destruct (decide (l = [])) as [->|Hl0].
  - inversion Hl; subst. simpl join. destruct Ht as [_ Ht].
    rewrite Ht by (done || (simpl; set_solver)). simpl.
    done.
  - rewrite join_cons by done. rewrite <-!app_assoc. destruct Ht as [_ Ht].
    rewrite Ht by (done || (simpl; set_solver)). simpl. by rewrite IH.
Qed.

Lemma reads_array k l vs : 0 ≤ k → Forall2 (reads k) l vs → reads (k + 1) (array l) (JArr vs).
Proof.
  intros Hk Hl. split; [by eexists _, _|]. intros d r Hd Hr. rewrite parses_eq. cbn [parse_body]. unfold parse_value.
  unfold array. cbn [app]. rewrite skip_ws_cons by reflexivity. rewrite strip1_ne by done.
  rewrite strip1_cons, decide_False by lia. rewrite <-app_assoc. cbn [app].
  destruct (decide (l = [])) as [->|Hne].
  - inversion Hl; subst. done.
  - assert (strip1 "]" (skip_ws (join [","%char] l ++ "]"%char :: r)) = None) as ->.
    { inversion Hl as [|t v l' vs' Ht Hl']; subst; [done|]. destruct Ht as ((c & t' & -> & Hsp & Hc & _) & _).
      assert (∃ u, join [","%char] ((c :: t') :: l') = c :: u) as [u ->] by (destruct l'; by eexists).
      cbn [app]. rewrite skip_ws_cons by done. by apply strip1_ne. }
    by rewrite (elems_read k l vs) by (done || lia).
Qed.

Lemma members_read k (ks ts : list chars) vs d r :
  Forall2 (reads k) ts vs → length ks = length ts → forallb valid_utf8 ks = true →
  ts ≠ [] → d + k ≤ maxNestingDepth →
  parses d AtMembers (join [","%char] (zip_with member ks ts) ++ "}"%char :: r) = Some (JObj (zip ks vs), r).
Proof.
  intros Hts. revert ks d. induction Hts as [|t v ts vs Ht Hts IH]; intros [|key ks] d Hlen Hks Hne Hd; try done.
  simpl in Hlen, Hks. apply andb_true_iff in Hks as [Hkey Hks]. destruct Ht as [_ Ht].
  rewrite parses_eq. cbn [parse_body]. unfold parse_members.
  assert (∀ u, skip_ws (member key t ++ u) = dquote :: quoted key ++ dquote :: ":"%char :: t ++ u) as Hm.
  { intros u. unfold member. rewrite <-app_assoc, quote_quoted. by rewrite skip_ws_cons. }
  destruct (decide (ts = [])) as [->|Hne'].
  - inversion Hts; subst. destruct ks; [|done]. simpl join. rewrite Hm, strip1_cons. simpl.
    rewrite parse_string_quoted by done. simpl. by rewrite Ht by (done || (simpl; set_solver)).
  - change (zip_with member (key :: ks) (t :: ts)) with (member key t :: zip_with member ks ts).
    rewrite join_cons by (by destruct ks, ts). rewrite <-!app_assoc, Hm, strip1_cons. simpl.
    rewrite parse_string_quoted by done. simpl. rewrite Ht by (done || (simpl; set_solver)). simpl.
    by rewrite IH by (done || lia).
Qed.

(** nothing is asked of what follows an object *)
Lemma object_read k ks ts vs d r :
  0 ≤ k → Forall2 (reads k) ts vs → length ks = length ts → forallb valid_utf8 ks = true →
  d + (k + 1) ≤ maxNestingDepth →
  parses d AtValue (object (zip_with member ks ts) ++ r) = Some (JObj (zip ks vs), r).
Proof.
  intros Hk Hts Hlen Hks Hd. rewrite parses_eq. cbn [parse_body]. unfold parse_value.
  unfold object. cbn [app]. rewrite skip_ws_cons by reflexivity. rewrite strip1_cons, decide_False by lia.
  rewrite <-app_assoc. cbn [app]. destruct (decide (ts = [])) as [->|Hne].
  - inversion Hts; subst. destruct ks; [|done]. done.
  - assert (strip1 "}" (skip_ws (join [","%char] (zip_with member ks ts) ++ "}"%char :: r)) = None) as ->.
    { destruct ts as [|t ts], ks as [|key ks]; try done.
      assert (∃ u, join [","%char] (zip_with member (key :: ks) (t :: ts)) = dquote :: u) as [u ->].
      { simpl. destruct (zip_with member ks ts); by eexists. }
      cbn [app]. rewrite skip_ws_cons by reflexivity. by apply strip1_ne. }
    by rewrite (members_read k ks ts vs) by (done || lia).
Qed.

Lemma reads_object k ks ts vs :
  0 ≤ k → Forall2 (reads k) ts vs → length ks = length ts → forallb valid_utf8 ks = true →
  reads (k + 1) (object (zip_with member ks ts)) (JObj (zip ks vs)).
Proof. intros. split; [by eexists _, _|]. intros d r Hd _. by eapply object_read. Qed.
