(* ===== verification/KvTest.v ===== *)
(** * The tests' clients and checks (kvtest1/kvtest.go)

    The test of many clients that put to one key: goroutines run [OneClientPut]
    over clerks, and when all have returned the main goroutine compares the
    version at the server with what the clients counted ([CheckPutConcurrent])
    and has the history checked ([CheckPorcupine]).  Clerks, network and server
    are those of KvHistory; a goroutine is cut where it calls a clerk. *)

From S2P Require Import Prelude KvRpc KvSrv KvClerk GoText Json KvHistory.
Local Open Scope Z_scope.

(* ------------------------------------------------------------------ *)
(** ** The values that clients put *)

Record EntryV := { Id : Z; V : Tversion }.

(** [json.Marshal(EntryV{...})] *)
Definition entry_json (e : EntryV) : chars :=
  object [member (to_chars "Id") (Itoa (Id e)); member (to_chars "V") (Itoa (V e))].

Definition dec_entry_field (e : EntryV) (kv : chars * json) : option EntryV :=
  let '(k, v) := kv in
  if same_name k "Id" then x ← dec_int (Id e) v; Some {| Id := x; V := V e |}
  else if same_name k "V" then x ← dec_uint64 (V e) v; Some {| Id := Id e; V := x |}
  else Some e.

Definition dec_entry (e : EntryV) (v : json) : option EntryV :=
  match v with
  | JNull => Some e
  | JObj ms => foldl (λ oe kv, e ← oe; dec_entry_field e kv) (Some e) ms
  | _ => None
  end.

Definition entry0 : EntryV := {| Id := 0; V := 0 |}.

(** [PutJson] of an entry: the call it makes *)
Definition PutJson (key : string) (e : EntryV) (ver : Tversion) : kv_op :=
  put_op key (of_chars (entry_json e)) ver.

(** [GetJson] into a fresh entry, from the clerk's answer on; [ts.Fatalf] ends
    the test *)
Definition GetJson (a : answer) : outcome (Tversion * EntryV) :=
  match a with
  | GotValue val ver OK =>
      match parse_json (to_chars val) ≫= dec_entry entry0 with
      | Some e => Ret (ver, e)
      | None => Fatal
      end
  | _ => Fatal
  end.

Definition entry_ok (e : EntryV) : Prop := int_ok (Id e) = true ∧ 0 ≤ V e < u64_mod.

Lemma GetJson_entry e ver : entry_ok e → GetJson (GotValue (of_chars (entry_json e)) ver OK) = Ret (ver, e).
Proof.
  intros [Hi Hv]. unfold GetJson. rewrite to_of_chars, parse_json_eq.
  assert (reads 1 (entry_json e) (JObj [(to_chars "Id", JNum (Itoa (Id e))); (to_chars "V", JNum (Itoa (V e)))])) as [_ Hr].
  { change 1 with (0 + 1).
    apply (reads_object 0 [to_chars "Id"; to_chars "V"] [Itoa (Id e); Itoa (V e)] [JNum (Itoa (Id e)); JNum (Itoa (V e))]);
      [done| |done|reflexivity].
    constructor; [apply reads_int|]. constructor; [apply reads_int|constructor]. }
  rewrite <-(app_nil_r (entry_json e)), (Hr 0 []) by done. cbn [mbind option_bind]. rewrite decide_True by done.
  cbn [mbind option_bind dec_entry foldl].
  unfold dec_entry_field. change (same_name (to_chars "Id") "Id") with true.
  change (same_name (to_chars "V") "Id") with false. change (same_name (to_chars "V") "V") with true.
  cbn [dec_int dec_uint64]. rewrite ParseInt_Itoa, ParseUint_Itoa by done. simpl. by destruct e.
Qed.

(* ------------------------------------------------------------------ *)
(** ** The clients *)

Record ClntRes := { Nok : Z; Nmaybe : Z }.

(** [OnePut] after [PutJson] and after [GetJson]: [ver] is the version it put
    with; the second result is empty when the loop goes on *)
Definition OnePut_after_put (err : Err) : outcome () :=
  if decide (err = OK ∨ err = ErrVersion ∨ err = ErrMaybe) then Ret tt else Fatal.

Definition OnePut_after_get (me : Z) (ver : Tversion) (err : Err) (ver0 : Tversion) (e : EntryV)
    : outcome (Tversion * option bool) :=
  if decide ((err = OK ∧ ver0 = next_version ver) ∧ Id e ≠ me ∧ V e ≠ ver) then Fatal
  else if decide (err = OK ∨ err = ErrMaybe) then Ret (ver0, Some (bool_decide (err = OK)))
  else Ret (ver0, None).

(** where a client is: at the [select] of [OneClientPut], or in [OnePut],
    waiting for one of its calls, or back in [runClient] *)
Inductive cpc :=
| Loop
| InPut (k : string) (ver : Tversion) (c : nat)
| InGet (k : string) (ver : Tversion) (err : Err) (c : nat)
| Returned.

Record client := { verm : gmap string Tversion; res : ClntRes; pc : cpc }.

Definition set_pc (p : cpc) (cl : client) : client := {| verm := verm cl; res := res cl; pc := p |}.

(** [OneClientPut] when [OnePut] has returned *)
Definition OnePut_returned (k : string) (ver : Tversion) (ok : bool) (cl : client) : client :=
  {| verm := <[k := ver]> (verm cl);
     res := if ok then {| Nok := Nok (res cl) + 1; Nmaybe := Nmaybe (res cl) |}
            else {| Nok := Nok (res cl); Nmaybe := Nmaybe (res cl) + 1 |};
     pc := Loop |}.

(** the test's comparison of the version at the server with the clients' counts *)
Definition add_res (r s : ClntRes) : ClntRes := {| Nok := Nok r + Nok s; Nmaybe := Nmaybe r + Nmaybe s |}.

Definition CheckPutConcurrent (ver0 : Tversion) (rs : list ClntRes) (res : ClntRes) (reliable : bool) : outcome ClntRes :=
  let res := foldl add_res res rs in
  if reliable then
    if decide (ver0 ≠ u64 (Nok res)) then Fatal else Ret res
  else if decide (u64 (Nok res + Nmaybe res) < ver0) then Fatal
  else Ret res.

(* ------------------------------------------------------------------ *)
(** ** The test *)

Section test.
Context {S : Type} `{KVStore S}.
Context (key : string) (ka : list string) (randomkeys reliable : bool).
Context (CheckOperationsVerbose : list Operation → Z → CheckResult) (nsec : Z).

(** the main goroutine: waiting for the clients, waiting for its read, done *)
Inductive mpc := Spawned | Checking (c : nat) | Passed.

Record tstate := { w : world S; clients : list client; main : mpc }.

Definition OneClientPut_start : client :=
  {| verm := list_to_map ((λ k, (k, 0)) <$> ka); res := {| Nok := 0; Nmaybe := 0 |}; pc := Loop |}.

Definition SpawnClients (s : S) (nclnt : nat) : tstate :=
  {| w := init s; clients := replicate nclnt OneClientPut_start; main := Spawned |}.

(** a goroutine calls its clerk; the call is the last of [calls] *)
Definition call_clerk (me : Z) (op : kv_op) (t : tstate) : option (outcome (tstate * nat)) :=
  match act (Begin me op) (w t) with
  | Some (Ret w') => Some (Ret ({| w := w'; clients := clients t; main := main t |}, length (calls (w t))))
  | _ => None
  end.

Definition set_client (i : nat) (cl : client) (t : tstate) : tstate :=
  {| w := w t; clients := <[i := cl]> (clients t); main := main t |}.

(** the answer that a call has brought back to its caller *)
Definition answer_of (c : nat) (w : world S) : option answer :=
  call ← calls w !! c;
  match k_phase call with Done a _ => Some a | _ => None end.

Inductive taction :=
| TNet (a : action)          (* clerks, network, server and clock *)
| TDone (i : nat)            (* a client takes a [done] token *)
| TPut (i : nat) (k : string)  (* a client picks a key and enters [OnePut] *)
| TNext (i : nat)            (* a client's call has returned *)
| TCheck                     (* all clients have returned: [CheckPutConcurrent] *)
| TVerdict.                  (* its read has returned; [CheckPorcupine] *)

(** [PutJson] of [OnePut] *)
Definition enter_put (i : nat) (k : string) (ver : Tversion) (cl : client) (t : tstate) : option (outcome tstate) :=
  match call_clerk (Z.of_nat i) (PutJson k {| Id := Z.of_nat i; V := ver |} ver) t with
  | Some (Ret (t, c)) => Some (Ret (set_client i (set_pc (InPut k ver c) cl) t))
  | _ => None
  end.

Definition client_next (i : nat) (cl : client) (t : tstate) : option (outcome tstate) :=
  match pc cl with
  | InPut k ver c =>
      a ← answer_of c (w t);
      match a with
      | GotErr err =>
          match OnePut_after_put err with
          | Ret _ =>
              match call_clerk (Z.of_nat i) (get_op k) t with
              | Some (Ret (t, c)) => Some (Ret (set_client i (set_pc (InGet k ver err c) cl) t))
              | _ => None
              end
          | Fatal => Some Fatal
          | Panic => Some Panic
          end
      | GotValue _ _ _ => None
      end
  | InGet k ver err c =>
      a ← answer_of c (w t);
      match ('(ver0, e) ← GetJson a; OnePut_after_get (Z.of_nat i) ver err ver0 e) with
      | Ret (ver0, Some ok) => Some (Ret (set_client i (OnePut_returned k ver0 ok cl) t))
      | Ret (ver0, None) => enter_put i k ver0 cl t
      | Fatal => Some Fatal
      | Panic => Some Panic
      end
  | _ => None
  end.

Definition verdict (a : answer) (t : tstate) : outcome tstate :=
  '(ver0, _) ← GetJson a;
  _ ← CheckPutConcurrent ver0 (res <$> clients t) {| Nok := 0; Nmaybe := 0 |} reliable;
  _ ← checkPorcupine CheckOperationsVerbose (oplog (w t)) nsec;
  Ret {| w := w t; clients := clients t; main := Passed |}.

Definition returned (cl : client) : bool := match pc cl with Returned => true | _ => false end.

(** what the world does by itself; with a reliable network no call gives up *)
Definition allowed (a : action) : bool :=
  match a with
  | Begin _ _ => false
  | GiveUp _ => negb reliable
  | _ => true
  end.

Definition net_step (a : action) (t : tstate) : option (outcome tstate) :=
  match act a (w t) with
  | Some (Ret w') => Some (Ret {| w := w'; clients := clients t; main := main t |})
  | Some Fatal => Some Fatal
  | Some Panic => Some Panic
  | None => None
  end.

Definition tact (a : taction) (t : tstate) : option (outcome tstate) :=
  match a with
  | TNet a => if allowed a then net_step a t else None
  | TDone i =>
      cl ← clients t !! i;
      match pc cl with Loop => Some (Ret (set_client i (set_pc Returned cl) t)) | _ => None end
  | TPut i k =>
      cl ← clients t !! i;
      match pc cl, ka with
      | Loop, [] => Some Panic
      | Loop, k0 :: _ =>
          if decide (k = k0 ∨ (randomkeys = true ∧ k ∈ ka)) then enter_put i k (default 0 (verm cl !! k)) cl t else None
      | _, _ => None
      end
  | TNext i =>
      cl ← clients t !! i;
      client_next i cl t
  | TCheck =>
      match main t with
      | Spawned =>
          if forallb returned (clients t) then
            match call_clerk (-1) (get_op key) t with
            | Some (Ret (t, c)) => Some (Ret {| w := w t; clients := clients t; main := Checking c |})
            | _ => None
            end
          else None
      | _ => None
      end
  | TVerdict =>
      match main t with
      | Checking c => a ← answer_of c (w t); Some (verdict a t)
      | _ => None
      end
  end.

Fixpoint trun (acts : list taction) (t : tstate) : option (outcome tstate) :=
  match acts with
  | [] => Some (Ret t)
  | a :: acts' =>
      match tact a t with
      | Some (Ret t') => trun acts' t'
      | o => o
      end
  end.
End test.
Arguments tstate : clear implicits.
