(* ===== verification/KvTestRuns.v ===== *)
(** * Runs of the concurrent put test (kvtest1/kvtest.go, kvsrv1/kvsrv_test.go)

    KvTest has the clients and checks of the test, KvHistory the clerks, the
    network and the server below.  Here: the invariant of every run of the test
    on one key, from which it follows that the test passes. *)

From S2P Require Import Prelude KvRpc KvSrv KvClerk GoText Json KvHistory KvTest.
Local Open Scope Z_scope.

(* ------------------------------------------------------------------ *)
(** ** Counting answers *)

(** summing over the values of [f] counts every element once *)
Lemma sum_list_with_pred {A} (f : A → Z) (P : A → Prop) `{!∀ x, Decision (P x)} (l : list A) n :
  (∀ x, x ∈ l → P x → 0 ≤ f x < Z.of_nat n) →
  sum_list_with (λ i, length (filter (λ x, f x = Z.of_nat i ∧ P x) l)) (seq 0 n) = length (filter P l).
Proof.
  assert (∀ z m k, Z.of_nat k ≤ z → sum_list_with (λ i, if decide (z = Z.of_nat i) then 1 else 0)%nat (seq k m)
            = if decide (z < Z.of_nat k + Z.of_nat m) then 1%nat else 0%nat) as Hone.
  { intros z m. induction m as [|m IH]; intros k Hk; simpl; [rewrite decide_False by lia; done|].
    destruct (decide (z = Z.of_nat k)) as [->|Hne].
    - rewrite decide_True by lia. f_equal.
      assert (∀ l : list nat, (∀ i, i ∈ l → Z.of_nat k ≠ Z.of_nat i) →
        sum_list_with (λ i, if decide (Z.of_nat k = Z.of_nat i) then 1 else 0)%nat l = 0%nat) as Hz.
      { clear. intros l. induction l as [|i l' IHl]; intros Hl; [done|]. simpl. pose proof (Hl i (list_elem_of_here i l')).
        rewrite decide_False by done. apply IHl. intros j Hj. apply Hl. by right. }
      apply Hz. intros i Hi%elem_of_seq. lia.
    - rewrite IH by lia. repeat case_decide; lia. }
  induction l as [|x l IH]; intros Hl.
  - simpl. clear. generalize (seq 0 n). induction l; simpl; auto.
  - specialize (IH ltac:(intros; apply Hl; [by right|done])). rewrite filter_cons.
    assert (∀ k : list nat, sum_list_with (λ i, length (filter (λ x, f x = Z.of_nat i ∧ P x) (x :: l))) k
      = ((if decide (P x) then sum_list_with (λ i, if decide (f x = Z.of_nat i) then 1 else 0) k else 0)
         + sum_list_with (λ i, length (filter (λ x, f x = Z.of_nat i ∧ P x) l)) k)%nat) as Hsplit.
    { induction k as [|i k IHk]; simpl; [by case_decide|]. rewrite IHk, filter_cons.
      destruct (decide (P x)), (decide (f x = Z.of_nat i)); repeat case_decide; simpl; try tauto; lia. }
    rewrite Hsplit, IH. case_decide as HP; [|done]. rewrite Hone by (specialize (Hl x ltac:(by left) HP); lia).
    rewrite decide_True by (specialize (Hl x ltac:(by left) HP); lia). done.
Qed.

(** what a call of [Put] has answered *)
Definition put_answer (c : kcall) : option Err := match k_phase c with Done (GotErr e) _ => Some e | _ => None end.

Definition count (P : kcall → Prop) `{!∀ c, Decision (P c)} (cs : list kcall) : Z := Z.of_nat (length (filter P cs)).

Section facts.
Context {S : Type} `{KVStore S} (s0 : S).
Hypothesis Hempty : kv_table s0 = ∅.
Implicit Types (w : world S).

Abbreviation vers s k := (version_at (kv_table s) k).

(** ** Steps of the world *)

(** a step of the world changes one call of a clerk, or handles one attempt *)
Lemma act_cases a w w' : act a w = Some (Ret w') → (∀ cli op, a ≠ Begin cli op) →
  (server w' = server w ∧ handled w' = handled w ∧
    (calls w' = calls w ∨ ∃ c call call', calls w !! c = Some call ∧ calls w' = <[c := call']> (calls w)
      ∧ k_cli call' = k_cli call ∧ k_op call' = k_op call ∧ is_done call = false
      ∧ (is_done call' = false ∨ ∃ x t, k_phase call = Answered x ∧ k_phase call' = Done x t)))
  ∨ (calls w' = calls w ∧ ∃ c n call e, calls w !! c = Some call ∧ (n < k_sent call)%nat
      ∧ handled w' = handled w ++ [e] ∧ ev_call e = c ∧ ev_op e = k_op call
      ∧ serve (server w) (k_op call) = (server w', ev_rep e)).
Proof.
  intros E Hb. destruct a as [d|cli op|c|c n|c|c|c]; simpl in E.
  - case_decide; simplify_eq/=. left. auto.
  - by destruct (Hb cli op).
  - apply bind_Some in E as (call & Hc & E). destruct (k_phase call) eqn:Hp; simplify_eq/=.
    left. split_and!; [done..|]. right. exists c, call. eexists. unfold is_done. rewrite Hp. split_and!; try done. by left.
  - apply bind_Some in E as (call & Hc & E). case_decide; [|done]. destruct (event_of c n w); [done|].
    destruct (serve (server w) (k_op call)) as [s' r] eqn:Es. simplify_eq/=. right. split; [done|].
    by eexists c, n, call, _.
  - apply bind_Some in E as (call & Hc & E). destruct (k_phase call) eqn:Hp; try done.
    apply bind_Some in E as (e & _ & E). left.
    destruct (clerk_reply _ _) as [[| |]|]; simplify_eq/=; split_and!; try done; right;
      exists c, call; eexists; unfold is_done; rewrite Hp; split_and!; try done; by left.
  - apply bind_Some in E as (call & Hc & E). destruct (k_phase call) eqn:Hp; simplify_eq/=.
    left. split_and!; [done..|]. right. exists c, call. eexists. unfold is_done. rewrite Hp. split_and!; try done. by left.
  - apply bind_Some in E as (call & Hc & E). destruct (k_phase call) eqn:Hp; simplify_eq/=.
    left. split_and!; [done..|]. right. exists c, call. eexists. unfold is_done. rewrite Hp.
    split_and!; try done. right. by eexists _, _.
Qed.

(** ** Versions count the performed puts *)

Definition writes (k : string) (l : list event) : Z :=
  Z.of_nat (length (filter (λ e, wrote e = true ∧ op_key (ev_op e) = k) l)).

Lemma writes_snoc k l e :
  writes k (l ++ [e]) = writes k l + (if decide (wrote e = true ∧ op_key (ev_op e) = k) then 1 else 0).
Proof. unfold writes. rewrite filter_app, length_app, filter_cons. case_decide; simpl; lia. Qed.

Lemma serve_version s op s' e k : serve s op = (s', ev_rep e) → ev_op e = op → 0 ≤ vers s k < u64_mod - 1 →
  vers s' k = vers s k + (if decide (wrote e = true ∧ op_key (ev_op e) = k) then 1 else 0).
Proof.
  intros E Ho Hb. unfold wrote. rewrite Ho. destruct op as [a|a].
  - rewrite serve_get in E. injection E as <- <-. case_decide as Hd; [by destruct Hd|lia].
  - apply serve_put in E as (rep & -> & -> & He). rewrite spec_put_version, <-He by done.
    unfold op_key. simpl. repeat case_decide; rewrite ?bool_decide_eq_true in *; naive_solver lia.
Qed.

Lemma replays_version k l s' : replays s0 l s' → zlen l < u64_mod - 1 →
  vers s' k = writes k l ∧ 0 ≤ writes k l ≤ zlen l.
Proof.
  revert s'. induction l as [|e l IH] using rev_ind; intros s' Hr Hz.
  - simpl in Hr. subst. unfold version_at. by rewrite Hempty.
  - apply replays_snoc in Hr as (s1 & Hr & He & ->). unfold zlen in *. rewrite length_app in *. simpl in *.
    destruct (IH s1 Hr) as [IHv IHb]; [lia|]. rewrite writes_snoc, <-IHv.
    rewrite (serve_version s1 (ev_op e) _ e); [| |done|lia].
    + split; [done|]. case_decide; lia.
    + destruct (serve s1 (ev_op e)). simpl in *. by rewrite He.
Qed.

(** ** The performed puts and the answers *)

Lemma put_answer_done w c call e : good s0 w → calls w !! c = Some call → put_answer call = Some e →
  (∃ a, k_op call = OpPut a) ∧ (e = ErrMaybe → (2 ≤ k_sent call)%nat)
  ∧ (e = OK ∨ e = ErrVersion ∨ e = ErrMaybe) ∧ (e = OK → written w c = true) ∧ (written w c = true → e = OK ∨ e = ErrMaybe).
Proof.
  intros HG Hc Ha. unfold put_answer in Ha. destruct (k_phase call) as [| | |[|e'] t] eqn:Hp; try done.
  injection Ha as ->. pose proof (g_calls _ _ HG c call Hc) as Hk. unfold call_ok in Hk. rewrite Hp in Hk.
  destruct Hk as (Hs & i & d & Hi & Hdc & Hda & Hr & _).
  assert (d ∈ handled w) as Hd by (by eapply list_elem_of_lookup_2).
  destruct (g_event _ _ HG d Hd) as (call' & Hc' & Ho & _). rewrite Hdc, Hc in Hc'. injection Hc' as <-.
  pose proof (g_proper _ _ HG d Hd) as Hpr. rewrite Ho in Hpr.
  destruct (ev_rep d) as [rep|rep] eqn:Hrep; simpl in Hr.
  { destruct (get_Err rep); simplify_eq/=. }
  destruct (k_op call) as [a|a] eqn:Hop; [done|]. simpl in Hpr. split; [by exists a|].
  assert (wrote d = bool_decide (put_Err rep = OK)) as Hwd by (unfold wrote; by rewrite Hrep).
  assert (∀ f, f ∈ handled w → ev_call f = c → wrote f = true → ∃ j, handled w !! j = Some f ∧ (j ≤ i)%nat) as Hfirst.
  { intros f [j Hj]%list_elem_of_lookup Hf Hwf. exists j. split; [done|]. eapply wrote_first; [done|exact Hj|exact Hi| |done].
    congruence. }
  unfold Put_first_reply, Put_resend_reply in Hr.
  destruct (decide (k_sent call = 1%nat)) as [Hsent|Hsent];
    [rewrite bool_decide_true in Hr by done|rewrite bool_decide_false in Hr by done]; destruct Hpr as [He|He]; rewrite He in Hr;
    simplify_eq/=; split_and!; try done; auto.
  - intros _. apply written_true. exists d. rewrite Hwd, He. by rewrite bool_decide_true.
  - intros (f & Hf & Hfc & Hwf)%written_true. destruct (Hfirst f Hf Hfc Hwf) as (j & Hj & _).
    destruct (g_event _ _ HG f Hf) as (call' & Hc' & _ & Hn & _). rewrite Hfc, Hc in Hc'. injection Hc' as <-.
    assert (i = j) as <- by (apply (g_once _ _ HG i j d f); [done..|congruence|lia]).
    rewrite Hi in Hj. injection Hj as <-. rewrite Hwd, He in Hwf. done.
  - intros _. apply written_true. exists d. rewrite Hwd, He. by rewrite bool_decide_true.
  - intros _. lia.
Qed.

(* ------------------------------------------------------------------ *)
(** ** The invariant of the test of one key *)

Context (key : string) (n : nat) (randomkeys reliable : bool).
Hypothesis Hn : Z.of_nat n < 2 ^ 63.

Definition is_entry (s : string) (v : Tversion) : Prop :=
  ∃ e, entry_ok e ∧ s = of_chars (entry_json e) ∧ V e = v.

(** the two calls that clients make *)
Definition put_by (i : nat) (ver : Tversion) : kv_op := PutJson key {| Id := Z.of_nat i; V := ver |} ver.

Definition op_ok (call : kcall) : Prop :=
  (∃ i ver, (i < n)%nat ∧ k_cli call = Z.of_nat i ∧ k_op call = put_by i ver) ∨ k_op call = get_op key.

Definition present w : Prop := is_Some (kv_table (server w) !! key).

Definition reply_ok w (rep : GetReply) : Prop :=
  (get_Err rep = OK ∧ 1 ≤ get_Version rep ≤ vers (server w) key ∧ is_entry (get_Value rep) (get_Version rep - 1))
  ∨ (get_Err rep = ErrNoKey ∧ get_Version rep = 0).

Record world_ok w : Prop := {
  wo_good : good s0 w;
  wo_small : zlen (handled w) < u64_mod - 1;
  wo_ops call : call ∈ calls w → op_ok call;
  wo_table vv : kv_table (server w) !! key = Some vv → 1 ≤ Version vv ∧ is_entry (Value vv) (Version vv - 1);
  wo_gets e rep : e ∈ handled w → ev_rep e = inl rep → reply_ok w rep;
  wo_reliable call : reliable = true → call ∈ calls w →
    (k_sent call ≤ 1)%nat ∧ (k_phase call = Sending → k_sent call = 0%nat)
}.

Lemma world_init : world_ok (init s0).
Proof.
  split; simpl; [by apply good_init|done|set_solver| |set_solver|set_solver]. intros vv. by rewrite Hempty.
Qed.

Lemma present_vers w : 1 ≤ vers (server w) key → present w.
Proof. unfold present, version_at. destruct (kv_table (server w) !! key); [by eexists|lia]. Qed.

Lemma put_informed w call i ver : good s0 w → call ∈ calls w → k_op call = put_by i ver → 0 ≤ ver ≤ vers (server w) key.
Proof. intros HG Hin Ho. by apply (g_informed _ _ HG call _ Hin Ho). Qed.

Lemma put_entry_ok w call i ver : world_ok w → (i < n)%nat → call ∈ calls w → k_op call = put_by i ver →
  entry_ok {| Id := Z.of_nat i; V := ver |}.
Proof.
  intros HW Hi Hin Ho. destruct (put_informed w call i ver) as [? Hb]; [apply HW|done|done|].
  pose proof (g_version _ _ (wo_good _ HW) key). pose proof (wo_small _ HW).
  split; simpl; [|lia]. apply bool_decide_eq_true. lia.
Qed.

(** what a handled operation does to the key *)
Lemma handle_key w call s' r : world_ok w → call ∈ calls w → serve (server w) (k_op call) = (s', r) →
  vers (server w) key ≤ vers s' key
  ∧ (∀ vv, kv_table s' !! key = Some vv → 1 ≤ Version vv ∧ is_entry (Value vv) (Version vv - 1))
  ∧ (present w → is_Some (kv_table s' !! key)).
Proof.
  intros HW Hin E. pose proof (g_version _ _ (wo_good _ HW) key) as Hv. pose proof (wo_small _ HW) as Hz.
  split; [eapply serve_versions; [exact E|lia]|].
  destruct (wo_ops _ HW call Hin) as [(i & ver & Hi & _ & Ho)|Ho].
  - destruct (put_informed w call i ver) as [Hv0 Hvb]; [apply HW|done|done|].
    pose proof (put_entry_ok w call i ver HW Hi Hin Ho) as He. rewrite Ho in E.
    apply serve_put in E as (rep & _ & Et & _). rewrite Et. split.
    + intros vv. set (a := {| put_Key := key |}). change (fst (spec_put (kv_table (server w)) a) !! key) with
        (fst (spec_put (kv_table (server w)) a) !! put_Key a).
      destruct (decide (snd (spec_put (kv_table (server w)) a) = OK)) as [Hok|Hno].
      * rewrite spec_put_lookup_ok by done. intros [= <-]. cbn [Version Value put_Value put_Version a].
        rewrite next_version_small by lia. split; [lia|]. eexists. split; [exact He|]. split; [done|cbn [V]; lia].
      * rewrite spec_put_fail by done. by apply HW.
    + intros Hp. by apply spec_put_keeps.
  - rewrite Ho in E. unfold get_op in E. rewrite serve_get in E. injection E as <- _. split; [by apply HW|done].
Qed.

Lemma reply_ok_mono w w' rep : vers (server w) key ≤ vers (server w') key → reply_ok w rep → reply_ok w' rep.
Proof. intros Hv [(? & ? & ?)|?]; [left|by right]. split_and!; try done; lia. Qed.

Lemma serve_reply_ok w call s' rep : world_ok w → call ∈ calls w →
  serve (server w) (k_op call) = (s', inl rep) → reply_ok w rep ∧ (present w → get_Err rep = OK).
Proof.
  intros HW Hin E. destruct (wo_ops _ HW call Hin) as [(i & ver & _ & _ & Ho)|Ho]; rewrite Ho in E.
  { apply serve_put in E as (? & ? & _). done. }
  unfold get_op in E. rewrite serve_get in E. injection E as _ <-.
  pose proof (kv_Get_spec (server w) {| get_Key := key |}) as Eg. unfold spec_get in Eg. injection Eg as Ev En Ee.
  simpl in *. unfold reply_ok, present. rewrite Ev, En, Ee. unfold value_at, version_at.
  destruct (kv_table (server w) !! key) as [vv|] eqn:Ek; simpl.
  - destruct (wo_table _ HW vv Ek) as [? ?]. split; [|done]. left. by split_and!.
  - split; [by right|]. by intros [? ?].
Qed.

(** with a reliable network no attempt is made twice *)
Lemma act_reliable a w w' : good s0 w → allowed reliable a = true → reliable = true →
  act a w = Some (Ret w') →
  (∀ call, call ∈ calls w → (k_sent call ≤ 1)%nat ∧ (k_phase call = Sending → k_sent call = 0%nat)) →
  ∀ call, call ∈ calls w' → (k_sent call ≤ 1)%nat ∧ (k_phase call = Sending → k_sent call = 0%nat).
Proof.
  intros HG Ha Hr E Hcs. 
  assert (∀ c call call', calls w !! c = Some call → (k_sent call' ≤ 1)%nat ∧ (k_phase call' = Sending → k_sent call' = 0%nat) →
    ∀ call0, call0 ∈ <[c := call']> (calls w) → (k_sent call0 ≤ 1)%nat ∧ (k_phase call0 = Sending → k_sent call0 = 0%nat)) as Hset.
  { intros c call call' Hc Hok call0 [j Hj]%list_elem_of_lookup.
    apply list_lookup_insert_Some in Hj as [(<- & <- & _)|[_ Hj]]; [done|]. apply Hcs. by eapply list_elem_of_lookup_2. }
  destruct a as [d|cli op|c|c m|c|c|c]; simpl in E, Ha; try done.
  - case_decide; simplify_eq/=. done.
  - apply bind_Some in E as (call & Hc & E). destruct (k_phase call) eqn:Hp; simplify_eq/=.
    destruct (Hcs call (list_elem_of_lookup_2 _ _ _ Hc)) as [_ Hs]. eapply Hset; [done|]. simpl. rewrite (Hs Hp). split; [lia|done].
  - apply bind_Some in E as (call & Hc & E). case_decide; [|done]. destruct (event_of c m w); [done|].
    destruct (serve (server w) (k_op call)). simplify_eq/=. done.
  - apply bind_Some in E as (call & Hc & E). destruct (k_phase call) eqn:Hp; try done.
    apply bind_Some in E as (e & (i & He & _ & _)%event_of_Some & E).
    destruct (clerk_reply_ends (bool_decide (k_sent call = 1%nat)) (ev_op e) (ev_rep e)) as (x & Ex).
    { apply (g_proper _ _ HG). by eapply list_elem_of_lookup_2. }
    rewrite Ex in E. injection E as <-. destruct (Hcs call (list_elem_of_lookup_2 _ _ _ Hc)) as [Hs _].
    eapply Hset; [done|]. simpl. done.
  - by rewrite Hr in Ha.
  - apply bind_Some in E as (call & Hc & E). destruct (k_phase call) eqn:Hp; simplify_eq/=.
    destruct (Hcs call (list_elem_of_lookup_2 _ _ _ Hc)) as [Hs _]. eapply Hset; [done|]. simpl. done.
Qed.

Lemma allowed_not_begin a : allowed reliable a = true → ∀ cli op, a ≠ Begin cli op.
Proof. by destruct a. Qed.

Lemma world_act a w o : world_ok w → allowed reliable a = true → zlen (handled w) + 1 < u64_mod - 1 →
  act a w = Some o → ∃ w', o = Ret w' ∧ world_ok w'.
Proof.
  intros HW Ha Hz E. destruct (good_act s0 a w o) as (w' & -> & HG'); [apply HW| |lia|done|].
  { by destruct a. }
  exists w'. split; [done|]. pose proof (act_handled a w w' E) as Hz'.
  destruct (act_cases a w w' E (allowed_not_begin a Ha)) as [(Es & Eh & Hcs)|(Ec & c & m & call & e & Hc & Hm & Eh & Hec & Heo & Es)].
  - split; try done; [lia| | | |].
    + intros call Hin. destruct Hcs as [Ec|(c & call0 & call' & Hc & Ec & Hcli & Hop & _)]; rewrite Ec in Hin; [by apply HW|].
      apply list_elem_of_lookup in Hin as [j Hj]. apply list_lookup_insert_Some in Hj as [(<- & <- & _)|[_ Hj]].
      * pose proof (wo_ops _ HW call0 (list_elem_of_lookup_2 _ _ _ Hc)) as Ho. unfold op_ok in *. by rewrite Hcli, Hop.
      * apply HW. by eapply list_elem_of_lookup_2.
    + rewrite Es. by apply HW.
    + intros x rep Hx Hr. rewrite Eh in Hx. apply (reply_ok_mono w); [by rewrite Es|]. by eapply wo_gets.
    + intros call Hr. eapply act_reliable; [apply HW|done..|]. intros. by apply HW.
  - assert (call ∈ calls w) as Hin by (by eapply list_elem_of_lookup_2).
    destruct (handle_key w call _ _ HW Hin Es) as (Hv & Ht & _). split; try done; [lia| | |].
    + intros call0 H0. rewrite Ec in H0. by apply HW.
    + intros x rep Hx Hr. apply (reply_ok_mono w); [done|]. rewrite Eh in Hx.
      apply elem_of_app in Hx as [Hx| ->%list_elem_of_singleton]; [by eapply wo_gets|].
      rewrite Hr in Es. by eapply serve_reply_ok.
    + intros call0 Hr. rewrite Ec. intros. by apply HW.
Qed.

Lemma world_begin w cli op w' : world_ok w → informed w op →
  op_ok {| k_cli := cli; k_op := op; k_start := clock w; k_sent := 0; k_phase := Sending |} →
  act (Begin cli op) w = Some (Ret w') → world_ok w'.
Proof.
  intros HW Hi Ho E. pose proof (good_begin s0 w cli op (wo_good _ HW) Hi). injection E as <-.
  split; try apply HW; try done.
  - intros call [Hin| ->%list_elem_of_singleton]%elem_of_app; [by apply HW|done].
  - intros call Hr [Hin| ->%list_elem_of_singleton]%elem_of_app; [by apply HW|simpl]. split; [lia|done].
Qed.

(* ------------------------------------------------------------------ *)
(** ** The clients' part of the invariant *)

Definition reads_present w (c : nat) : Prop :=
  present w ∧ ∀ e rep, e ∈ handled w → ev_call e = c → ev_rep e = inl rep → get_Err rep = OK.

Definition pc_ok w (i : nat) (p : cpc) : Prop :=
  match p with
  | InPut k ver c => k = key ∧ ∃ call, calls w !! c = Some call ∧ k_cli call = Z.of_nat i ∧ k_op call = put_by i ver
  | InGet k ver err c =>
      k = key ∧ (err = OK ∨ err = ErrVersion ∨ err = ErrMaybe) ∧ 0 ≤ ver ≤ vers (server w) key
      ∧ (∃ call, calls w !! c = Some call ∧ k_cli call = Z.of_nat i ∧ k_op call = get_op key) ∧ reads_present w c
  | _ => True
  end.

(** an answer that the client has not counted yet *)
Definition pend (e : Err) w (cl : client) : Z :=
  match pc cl with
  | InPut _ _ c => if decide (calls w !! c ≫= put_answer = Some e) then 1 else 0
  | InGet _ _ err _ => if decide (err = e) then 1 else 0
  | _ => 0
  end.

Definition mine (i : nat) (e : Err) (call : kcall) : Prop := k_cli call = Z.of_nat i ∧ put_answer call = Some e.
#[local] Instance mine_dec i e call : Decision (mine i e call).
Proof. unfold mine. apply _. Defined.

Record client_ok w (i : nat) (cl : client) : Prop := {
  co_ver : 0 ≤ default 0 (verm cl !! key) ≤ vers (server w) key;
  co_ok : Nok (res cl) + pend OK w cl = count (mine i OK) (calls w);
  co_maybe : Nmaybe (res cl) + pend ErrMaybe w cl = count (mine i ErrMaybe) (calls w);
  co_pc : pc_ok w i (pc cl)
}.

Definition waits (cl : client) : option nat :=
  match pc cl with InPut _ _ c | InGet _ _ _ c => Some c | _ => None end.

Lemma not_done_answer call : is_done call = false → put_answer call = None.
Proof. unfold is_done, put_answer. by destruct (k_phase call). Qed.

Lemma pc_ok_mono w w' i p : world_ok w → vers (server w) key ≤ vers (server w') key → (present w → present w') →
  (∀ c call, calls w !! c = Some call → ∃ call', calls w' !! c = Some call' ∧ k_cli call' = k_cli call ∧ k_op call' = k_op call) →
  (∀ e, e ∈ handled w' → e ∈ handled w ∨ ∀ rep, ev_rep e = inl rep → present w → get_Err rep = OK) →
  pc_ok w i p → pc_ok w' i p.
Proof.
  intros HW Hv Hp Hc He. destruct p as [|k ver c|k ver err c|]; simpl; try done.
  - intros (-> & call & H1 & H2 & H3). split; [done|]. destruct (Hc c call H1) as (call' & ? & ? & ?).
    exists call'. split_and!; congruence.
  - intros (-> & Herr & Hver & (call & H1 & H2 & H3) & Hpr & Hreads). split; [done|]. split; [done|]. split; [lia|]. split.
    + destruct (Hc c call H1) as (call' & ? & ? & ?). exists call'. split_and!; congruence.
    + split; [by apply Hp|]. intros e rep Hin Hec Hrep. destruct (He e Hin) as [Hin'|Hnew]; [by eapply Hreads|by eapply Hnew].
Qed.

Lemma world_vers w a w' : world_ok w → world_ok w' → act a w = Some (Ret w') →
  vers (server w) key ≤ vers (server w') key ∧ (present w → present w').
Proof.
  intros HW HW' E. assert (vers (server w) key ≤ vers (server w') key) as Hv.
  { destruct (replays_version key _ _ (g_replay _ _ (wo_good _ HW)) (wo_small _ HW)) as [-> _].
    destruct (replays_version key _ _ (g_replay _ _ (wo_good _ HW')) (wo_small _ HW')) as [-> _].
    destruct a as [d|cli op|c|c m|c|c|c]; simpl in E.
    - case_decide; simplify_eq/=. done.
    - by simplify_eq/=.
    - apply bind_Some in E as (call & _ & E). destruct (k_phase call); by simplify_eq/=.
    - apply bind_Some in E as (call & _ & E). case_decide; [|done]. destruct (event_of c m w); [done|].
      destruct (serve (server w) (k_op call)). simplify_eq/=. rewrite writes_snoc. case_decide; lia.
    - apply bind_Some in E as (call & _ & E). destruct (k_phase call); try done. apply bind_Some in E as (e & _ & E).
      destruct (clerk_reply _ _) as [[| |]|]; by simplify_eq/=.
    - apply bind_Some in E as (call & _ & E). destruct (k_phase call); by simplify_eq/=.
    - apply bind_Some in E as (call & _ & E). destruct (k_phase call); by simplify_eq/=. }
  split; [done|]. intros [vv Hp]. apply present_vers. destruct (wo_table _ HW vv Hp) as [H1 _].
  unfold version_at in Hv at 1. rewrite Hp in Hv. lia.
Qed.

Lemma client_act w a w' i cl : world_ok w → world_ok w' → allowed reliable a = true → act a w = Some (Ret w') →
  (∀ c call, calls w !! c = Some call → is_done call = false → k_cli call = Z.of_nat i → waits cl = Some c) →
  client_ok w i cl → client_ok w' i cl.
Proof.
  intros HW HW' Ha E Hwait [Hver Hok Hmay Hpc]. destruct (world_vers w a w' HW HW' E) as [Hv Hp].
  destruct (act_cases a w w' E (allowed_not_begin a Ha)) as [(Es & Eh & [Ec|Hcall])|(Ec & c & m & call & e & Hc & Hm & Eh & Hec & Heo & Es)].
  - split; [lia|unfold pend; by rewrite Ec..|]. apply (pc_ok_mono w); try done; rewrite ?Ec, ?Eh; eauto.
  - destruct Hcall as (c & call & call' & Hc & Ec & Hcli & Hop & Hnd & Hd).
    assert (∀ x, Z.of_nat (length (filter (mine i x) (calls w'))) + 0
        = Z.of_nat (length (filter (mine i x) (calls w))) + (if decide (mine i x call') then 1 else 0)) as Hcount.
    { intros x. rewrite Ec, <-(length_filter_insert (mine i x) _ c call call' Hc). f_equal.
      rewrite decide_False; [done|]. intros [_ Hx]. by rewrite not_done_answer in Hx. }
    assert (∀ x, pend x w' cl = pend x w cl + (if decide (mine i x call') then 1 else 0)) as Hpend.
    { intros x. destruct (decide (mine i x call')) as [[Hm1 Hm2]|Hno].
      - assert (waits cl = Some c) as Hwc by (apply (Hwait c call); [done..|congruence]).
        unfold waits in Hwc. unfold pend. destruct (pc cl) as [|k ver c1|k ver err c1|] eqn:Hpcl; try done; injection Hwc as ->.
        + rewrite Hc, Ec, list_lookup_insert_eq by (by eapply lookup_lt_Some). simpl.
          rewrite (not_done_answer call) by done. rewrite decide_True, decide_False by done. lia.
        + destruct Hpc as (_ & _ & _ & (call1 & H1 & _ & H2) & _). rewrite Hc in H1. injection H1 as <-.
          destruct (put_answer_done w' c call' x) as [[p Hput] _]; [apply HW'| |done|].
          * rewrite Ec. apply list_lookup_insert_eq. by eapply lookup_lt_Some.
          * rewrite Hop, H2 in Hput. done.
      - rewrite Z.add_0_r. unfold pend. destruct (pc cl) as [|k ver c1|k ver err c1|] eqn:Hpcl; try done.
        destruct Hpc as (_ & call1 & H1 & H2 & _). rewrite Ec. destruct (decide (c1 = c)) as [->|Hne].
        + rewrite Hc in H1. injection H1 as <-. rewrite Hc, list_lookup_insert_eq by (by eapply lookup_lt_Some). simpl.
          rewrite (not_done_answer call) by done. rewrite !decide_False; [done..|]. intros Hx. apply Hno. split; congruence.
        + by rewrite list_lookup_insert_ne by done. }
    split; [lia|rewrite Hpend; unfold count in *; specialize (Hcount OK); lia
      |rewrite Hpend; unfold count in *; specialize (Hcount ErrMaybe); lia|].
    apply (pc_ok_mono w); try done; [|rewrite Eh; by left].
    intros c1 call1 H1. rewrite Ec. destruct (decide (c1 = c)) as [->|Hne].
    + rewrite list_lookup_insert_eq by (by eapply lookup_lt_Some). exists call'. rewrite Hc in H1. injection H1 as <-. done.
    + rewrite list_lookup_insert_ne by done. eauto.
  - split; [lia|unfold pend; by rewrite Ec..|]. apply (pc_ok_mono w); try done; [rewrite Ec; eauto|].
    intros x Hx. rewrite Eh in Hx. apply elem_of_app in Hx as [Hx| ->%list_elem_of_singleton]; [by left|right].
    intros rep Hrep. rewrite Hrep in Es. eapply serve_reply_ok; [done|by eapply list_elem_of_lookup_2|done].
Qed.

Lemma client_begin w cli op w' i cl : world_ok w → act (Begin cli op) w = Some (Ret w') →
  client_ok w i cl → client_ok w' i cl.
Proof.
  intros HW E [Hver Hok Hmay Hpc]. injection E as <-.
  assert (∀ x c, count (mine i x) (calls w ++ [{| k_cli := cli; k_op := op; k_start := c; k_sent := 0; k_phase := Sending |}])
    = count (mine i x) (calls w)) as Hcount.
  { intros x c. unfold count. rewrite filter_app, length_app, filter_cons, decide_False by (by intros [_ ?]). simpl. lia. }
  assert (∀ x, pend x (set_calls (calls w ++ [{| k_cli := cli; k_op := op; k_start := clock w; k_sent := 0; k_phase := Sending |}]) w) cl
    = pend x w cl) as Hpend.
  { intros x. unfold pend. destruct (pc cl) as [|k ver c| |] eqn:Hpcl; try done.
    destruct Hpc as (_ & call & Hc & _). simpl. rewrite Hc. by rewrite (lookup_app_l_Some _ _ _ _ Hc). }
  split; [done|rewrite Hpend; simpl; by rewrite Hcount..|]. apply (pc_ok_mono w); try done; simpl.
  - intros c call Hc. exists call. split; [|done]. by apply lookup_app_l_Some.
  - by left.
Qed.

(* ------------------------------------------------------------------ *)
(** ** The whole test *)

Implicit Types (t : tstate S).

Definition pending_ok t : Prop := ∀ c call, calls (w t) !! c = Some call → is_done call = false →
  main t = Checking c ∨ ∃ i cl, clients t !! i = Some cl ∧ k_cli call = Z.of_nat i ∧ waits cl = Some c.

Definition reads_current w (c : nat) : Prop :=
  (∃ call, calls w !! c = Some call ∧ k_cli call = -1 ∧ k_op call = get_op key)
  ∧ ∀ e rep, e ∈ handled w → ev_call e = c → ev_rep e = inl rep → get_Version rep = vers (server w) key.

Definition main_ok t : Prop :=
  match main t with
  | Checking c => Forall (λ cl, returned cl = true) (clients t) ∧ reads_current (w t) c
  | _ => True
  end.

Record test_ok t : Prop := {
  to_world : world_ok (w t);
  to_len : length (clients t) = n;
  to_client i cl : clients t !! i = Some cl → client_ok (w t) i cl;
  to_pending : pending_ok t;
  to_main : main_ok t
}.

Lemma test_init : test_ok (SpawnClients [key] s0 n).
Proof.
  split; simpl.
  - apply world_init.
  - apply length_replicate.
  - assert (verm (OneClientPut_start [key]) !! key = Some 0) as Hv by apply lookup_insert_eq.
    intros i cl [-> _]%lookup_replicate. split; [|done..]. rewrite Hv. simpl. unfold version_at. by rewrite Hempty.
  - intros c call Hc. done.
  - done.
Qed.

(** a client's move: its call is begun, or nothing in the world changes *)
Lemma test_client t i cl cl' w' : test_ok t → clients t !! i = Some cl → world_ok w' →
  (w' = w t ∨ ∃ op, act (Begin (Z.of_nat i) op) (w t) = Some (Ret w') ∧ waits cl' = Some (length (calls (w t)))) →
  returned cl = false → client_ok w' i cl' →
  (∀ c, waits cl = Some c → ∀ call, calls (w t) !! c = Some call → is_done call = true) →
  test_ok {| w := w'; clients := <[i := cl']> (clients t); main := main t |}.
Proof.
  intros HT Hi HW' Hw Hret Hcl Hfree. assert (i < length (clients t))%nat as Hlt by (by eapply lookup_lt_Some).
  split; simpl; [done|by rewrite length_insert; apply HT| | |].
  - intros j cl1 Hj. apply list_lookup_insert_Some in Hj as [(<- & <- & _)|[Hne Hj]]; [done|].
    destruct Hw as [->|(op & E & _)]; [by apply HT|]. eapply client_begin; [apply HT|exact E|by apply HT].
  - assert (∀ c call, calls (w t) !! c = Some call → is_done call = false →
      main t = Checking c ∨ ∃ i0 cl0, <[i:=cl']> (clients t) !! i0 = Some cl0 ∧ k_cli call = Z.of_nat i0 ∧ waits cl0 = Some c) as Hold.
    { intros c call Hc Hnd. destruct (to_pending _ HT c call Hc Hnd) as [?|(j & cl1 & Hj & Hcli & Hwt)]; [by left|right].
      destruct (decide (j = i)) as [->|Hne].
      - rewrite Hi in Hj. injection Hj as <-. by rewrite (Hfree c Hwt call Hc) in Hnd.
      - exists j, cl1. by rewrite list_lookup_insert_ne. }
    destruct Hw as [->|(op & E & Hwt)]; [done|]. injection E as <-. intros c call Hc Hnd. simpl in Hc.
    apply lookup_snoc_inv in Hc as [[-> ->]|[_ Hc]]; [right|by apply Hold].
    exists i, cl'. split; [by apply list_lookup_insert_eq|done].
  - pose proof (to_main _ HT) as Hm. unfold main_ok in *. simpl. destruct (main t) as [|c|]; try done.
    destruct Hm as [Hall _]. rewrite Forall_lookup in Hall. by rewrite (Hall i cl Hi) in Hret.
Qed.

Lemma put_done_event w c call a : good s0 w → calls w !! c = Some call → k_op call = OpPut a → is_done call = true →
  put_Version a < vers (server w) (put_Key a).
Proof.
  intros HG Hc Ho Hd. pose proof (g_calls _ _ HG c call Hc) as Hk. unfold is_done, call_ok in *.
  destruct (k_phase call) as [| | |x tt]; try done. destruct Hk as (_ & i & d & Hi & Hdc & _).
  assert (d ∈ handled w) as Hin by (by eapply list_elem_of_lookup_2).
  destruct (g_event _ _ HG d Hin) as (call' & Hc' & Hop & _). rewrite Hdc, Hc in Hc'. injection Hc' as <-.
  eapply (g_behind _ _ HG); [exact Hin|congruence].
Qed.

Lemma net_main t a w' : test_ok t → world_ok w' → allowed reliable a = true → act a (w t) = Some (Ret w') →
  main_ok {| w := w'; clients := clients t; main := main t |}.
Proof.
  intros HT HW' Ha E. pose proof (to_main _ HT) as Hm. unfold main_ok in *. simpl. destruct (main t) as [|c|] eqn:Hmt; try done.
  destruct Hm as [Hall [(call & Hc & Hmc & Ho) Hcur]]. split; [done|]. pose proof (wo_good _ (to_world _ HT)) as HG.
  destruct (act_cases a (w t) w' E (allowed_not_begin a Ha)) as [(Es & Eh & Hcs)|(Ec & c1 & m & call1 & e & Hc1 & Hm & Eh & Hec & Heo & Es)].
  - split; [|rewrite Es, Eh; exact Hcur].
    destruct Hcs as [->|(c1 & call1 & call' & Hc1 & -> & Hcli & Hop & _)]; [by exists call|].
    destruct (decide (c = c1)) as [->|Hne].
    + rewrite Hc in Hc1. injection Hc1 as <-. exists call'. rewrite list_lookup_insert_eq by (by eapply lookup_lt_Some).
      split; [done|]. split; congruence.
    + exists call. by rewrite list_lookup_insert_ne.
  - assert (vers (server w') key = vers (server (w t)) key) as Ev.
    { pose proof (g_version _ _ HG key). pose proof (wo_small _ (to_world _ HT)).
      assert (call1 ∈ calls (w t)) as Hin by (by eapply list_elem_of_lookup_2).
      rewrite (serve_version _ _ _ e key Es Heo) by lia. rewrite decide_False; [lia|]. intros [Hw _].
      unfold wrote in Hw. destruct (ev_rep e) as [|rep]; [done|]. apply bool_decide_eq_true in Hw.
      destruct (wo_ops _ (to_world _ HT) call1 Hin) as [(i & ver & Hi & Hcli & Hop)|Hop]; [|by rewrite Hop in Es].
      rewrite Hop in Es. apply (serve_overtaken _ _ _ _ Es); [|done]. eapply (put_done_event _ c1 call1); [done..|].
      destruct (is_done call1) eqn:Hd; [done|].
      destruct (to_pending _ HT c1 call1 Hc1 Hd) as [Hmain|(j & cl & Hj & _ & Hwt)].
      { rewrite Hmt in Hmain. injection Hmain as <-. rewrite Hc in Hc1. injection Hc1 as <-. by rewrite Ho in Hop. }
      rewrite Forall_lookup in Hall. specialize (Hall j cl Hj). unfold returned, waits in *. by destruct (pc cl). }
    split; [rewrite Ec; by exists call|]. intros x rep Hx Hxc Hrep. rewrite Eh in Hx. rewrite Ev.
    apply elem_of_app in Hx as [Hx| ->%list_elem_of_singleton]; [by eapply Hcur|].
    rewrite <-Hec, Hxc, Hc in Hc1. injection Hc1 as <-. rewrite Hrep, Ho in Es. unfold get_op in Es.
    rewrite serve_get in Es. injection Es as _ <-.
    pose proof (kv_Get_spec (server (w t)) {| get_Key := key |}) as Eg. unfold spec_get in Eg. by injection Eg.
Qed.

Lemma test_net t a o : test_ok t → allowed reliable a = true → zlen (handled (w t)) + 1 < u64_mod - 1 →
  net_step a t = Some o → ∃ t', o = Ret t' ∧ test_ok t'.
Proof.
  intros HT Ha Hz E. unfold net_step in E. destruct (act a (w t)) as [o1|] eqn:Ea; [|done].
  destruct (world_act a (w t) o1 (to_world _ HT) Ha Hz Ea) as (w' & -> & HW'). injection E as <-.
  eexists. split; [done|]. split; simpl; [done|apply HT| | |by eapply net_main].
  - intros i cl Hi. eapply client_act; [apply HT|done..| |by apply HT].
    intros c call Hc Hnd Hcli. destruct (to_pending _ HT c call Hc Hnd) as [Hmain|(j & cl1 & Hj & Hcli' & Hwt)].
    { pose proof (to_main _ HT) as Hm. unfold main_ok in Hm. rewrite Hmain in Hm.
      destruct Hm as [_ [(call' & Hc' & Hmc & _) _]]. rewrite Hc in Hc'. injection Hc' as <-. lia. }
    assert (j = i) as -> by lia. congruence.
  - intros c call Hc Hnd. simpl in Hc.
    destruct (act_cases a (w t) w' Ea (allowed_not_begin a Ha)) as [(Es & Eh & [Ec|Hcall])|(Ec & _)].
    + apply (to_pending _ HT); [by rewrite <-Ec|done].
    + destruct Hcall as (c1 & call1 & call' & Hc1 & Ec & Hcli & _ & Hd1 & Hd). rewrite Ec in Hc.
      apply list_lookup_insert_Some in Hc as [(<- & <- & _)|[_ Hc]]; [|by apply (to_pending _ HT)].
      rewrite Hcli. by apply (to_pending _ HT).
    + apply (to_pending _ HT); [by rewrite <-Ec|done].
Qed.

(** ** The clients' moves *)

Lemma answer_of_done w c a : answer_of c w = Some a → ∃ call tm, calls w !! c = Some call ∧ k_phase call = Done a tm.
Proof.
  unfold answer_of. intros (call & Hc & E)%bind_Some. destruct (k_phase call) eqn:Hp; simplify_eq/=. eauto.
Qed.

(** the answer of a read *)
Lemma get_answer w c call a : world_ok w → calls w !! c = Some call → k_op call = get_op key → answer_of c w = Some a →
  ∃ e rep, e ∈ handled w ∧ ev_call e = c ∧ ev_rep e = inl rep ∧ reply_ok w rep
    ∧ (get_Err rep = OK → a = GotValue (get_Value rep) (get_Version rep) OK).
Proof.
  intros HW Hc Ho (call' & t & Hc' & Hp)%answer_of_done. rewrite Hc in Hc'. injection Hc' as <-.
  pose proof (g_calls _ _ (wo_good _ HW) c call Hc) as Hk. unfold call_ok in Hk. rewrite Hp in Hk.
  destruct Hk as (_ & i & d & Hi & Hdc & _ & Hr & _).
  assert (d ∈ handled w) as Hd by (by eapply list_elem_of_lookup_2).
  destruct (g_event _ _ (wo_good _ HW) d Hd) as (call' & Hc' & Hop & _). rewrite Hdc, Hc in Hc'. injection Hc' as <-.
  pose proof (g_proper _ _ (wo_good _ HW) d Hd) as Hpr. rewrite Hop, Ho in Hpr.
  destruct (ev_rep d) as [rep|rep] eqn:Hrep; [|done]. exists d, rep. split_and!; try done; [by eapply wo_gets|].
  intros He. simpl in Hr. rewrite He in Hr. by injection Hr as <-.
Qed.

Lemma test_enter_put t i cl ver : test_ok t → clients t !! i = Some cl → returned cl = false →
  client_ok (w t) i (set_pc Loop cl) → 0 ≤ ver ≤ vers (server (w t)) key →
  (∀ c, waits cl = Some c → ∀ call, calls (w t) !! c = Some call → is_done call = true) →
  ∃ t', enter_put i key ver cl t = Some (Ret t') ∧ test_ok t'.
Proof.
  intros HT Hi Hret Hcl Hver Hfree. unfold enter_put, call_clerk.
  set (op := PutJson key {| Id := Z.of_nat i; V := ver |} ver).
  destruct (act (Begin (Z.of_nat i) op) (w t)) as [[w'| |]|] eqn:Ea; try done.
  assert (i < n)%nat as Hlt by (rewrite <-(to_len _ HT); by eapply lookup_lt_Some).
  assert (world_ok w') as HW'.
  { eapply world_begin; [apply HT| | |exact Ea]; [exact Hver|]. left. by exists i, ver. }
  eexists. split; [done|]. apply (test_client t i cl); try done.
  - right. exists op. done.
  - destruct (client_begin _ _ _ _ _ _ (to_world _ HT) Ea Hcl) as [H1 H2 H3 _]. injection Ea as <-.
    assert (∀ l (x : kcall), (l ++ [x]) !! length l = Some x) as Hlast.
    { intros l x. rewrite lookup_app_r, Nat.sub_diag by done. done. }
    split; try done.
    + etransitivity; [|exact H2]. unfold pend. simpl. by rewrite Hlast.
    + etransitivity; [|exact H3]. unfold pend. simpl. by rewrite Hlast.
    + simpl. split; [done|]. eexists. split; [apply Hlast|done].
Qed.

Lemma test_next_put t i cl k ver c o : test_ok t → clients t !! i = Some cl → pc cl = InPut k ver c →
  client_next i cl t = Some o → ∃ t', o = Ret t' ∧ test_ok t'.
Proof.
  intros HT Hi Hpc E. pose proof (to_client _ HT i cl Hi) as Hcl. pose proof (co_pc _ _ _ Hcl) as Hp.
  rewrite Hpc in Hp. destruct Hp as (-> & call & Hc & Hcli & Hop).
  unfold client_next in E. rewrite Hpc in E. apply bind_Some in E as (a & Ha & E).
  destruct a as [|err]; [done|]. pose proof (answer_of_done _ _ _ Ha) as (call' & tt & Hc' & Hph).
  rewrite Hc in Hc'. injection Hc' as <-.
  assert (put_answer call = Some err) as Hans by (unfold put_answer; by rewrite Hph).
  assert (is_done call = true) as Hdone by (unfold is_done; by rewrite Hph).
  pose proof (wo_good _ (to_world _ HT)) as HG.
  destruct (put_answer_done _ c call err HG Hc Hans) as (_ & _ & Herr & _ & _).
  unfold OnePut_after_put in E. rewrite decide_True in E by done.
  unfold call_clerk in E. destruct (act (Begin (Z.of_nat i) (get_op key)) (w t)) as [[w'| |]|] eqn:Ea; try done.
  injection E as <-. eexists. split; [done|].
  pose proof (put_done_event _ c call _ HG Hc Hop Hdone) as Hpast. simpl in Hpast.
  destruct (put_informed _ call i ver HG (list_elem_of_lookup_2 _ _ _ Hc) Hop) as [Hv0 _].
  assert (world_ok w') as HW'.
  { eapply world_begin; [apply HT| | |exact Ea]; [done|by right]. }
  apply (test_client t i cl); try done.
  - right. exists (get_op key). done.
  - unfold returned. by rewrite Hpc.
  - destruct (client_begin _ _ _ _ _ _ (to_world _ HT) Ea Hcl) as [H1 H2 H3 _].
    assert (∀ e, pend e w' cl = if decide (err = e) then 1 else 0) as Hpend.
    { intros e. unfold pend. rewrite Hpc. injection Ea as <-. simpl. rewrite (lookup_app_l_Some _ _ _ _ Hc). simpl.
      rewrite Hans. repeat case_decide; congruence. }
    rewrite Hpend in H2, H3. split; [done|exact H2|exact H3|]. injection Ea as <-. simpl.
    split; [done|]. split; [done|]. split; [lia|]. split.
    + eexists. rewrite lookup_app_r, Nat.sub_diag by done. done.
    + split; [by apply present_vers; simpl; lia|]. intros e rep He Hec. simpl in He.
      destruct (g_event _ _ HG e He) as (call' & Hc' & _). apply lookup_lt_Some in Hc'. lia.
  - intros c1 Hwt call1 Hc1. unfold waits in Hwt. rewrite Hpc in Hwt. injection Hwt as <-. congruence.
Qed.

Lemma test_next_get t i cl k ver err c o : test_ok t → clients t !! i = Some cl → pc cl = InGet k ver err c →
  client_next i cl t = Some o → ∃ t', o = Ret t' ∧ test_ok t'.
Proof.
  intros HT Hi Hpc E. pose proof (to_client _ HT i cl Hi) as Hcl. destruct Hcl as [Hver Hok Hmay Hp].
  rewrite Hpc in Hp. destruct Hp as (-> & Herr & Hv & (call & Hc & Hcli & Hop) & _ & Hreads).
  unfold client_next in E. rewrite Hpc in E. apply bind_Some in E as (a & Ha & E).
  destruct (get_answer _ c call a (to_world _ HT) Hc Hop Ha) as (e & rep & He & Hec & Hrep & Hrok & Hans).
  pose proof (Hreads e rep He Hec Hrep) as Hrerr. rewrite (Hans Hrerr) in E.
  destruct Hrok as [(_ & Hrv & (x & Hx & Hval & Hxv))|[Hno _]]; [|congruence].
  rewrite Hval, (GetJson_entry x) in E by done. cbn [mbind outcome_bind] in E.
  pose proof (g_version _ _ (wo_good _ (to_world _ HT)) key) as Hz. pose proof (wo_small _ (to_world _ HT)).
  assert (∀ e, pend e (w t) cl = if decide (err = e) then 1 else 0) as Hpend by (intros e'; unfold pend; by rewrite Hpc).
  rewrite Hpend in Hok, Hmay.
  assert (returned cl = false) as Hret by (unfold returned; by rewrite Hpc).
  assert (∀ c, waits cl = Some c → ∀ call, calls (w t) !! c = Some call → is_done call = true) as Hfree.
  { intros c1 Hwt call1 Hc1. unfold waits in Hwt. rewrite Hpc in Hwt. injection Hwt as <-.
    apply answer_of_done in Ha as (call2 & tt & Hc2 & Hph). rewrite Hc1 in Hc2. injection Hc2 as <-.
    unfold is_done. by rewrite Hph. }
  unfold OnePut_after_get in E. rewrite decide_False in E.
  2: { intros ([_ E1] & _ & E2). rewrite next_version_small in E1 by lia. lia. }
  destruct (decide (err = OK ∨ err = ErrMaybe)) as [Hyes|Hno].
  - injection E as <-. eexists. split; [done|]. apply (test_client t i cl); try done; [apply HT|by left|].
    split; simpl.
    + rewrite lookup_insert_eq. simpl. lia.
    + unfold pend. simpl. destruct Hyes as [-> | ->]; simpl in *; lia.
    + unfold pend. simpl. destruct Hyes as [-> | ->]; simpl in *; lia.
    + done.
  - assert (err = ErrVersion) as -> by naive_solver.
    destruct (test_enter_put t i cl (get_Version rep) HT Hi Hret) as (t' & E' & HT'); [|lia|done|].
    + split; [done|unfold pend; simpl in *; lia|unfold pend; simpl in *; lia|done].
    + rewrite E' in E. injection E as <-. eauto.
Qed.

(** every move but the verdict *)
Lemma test_move check nsec a t o : test_ok t → zlen (handled (w t)) + 1 < u64_mod - 1 → a ≠ TVerdict →
  tact key [key] randomkeys reliable check nsec a t = Some o → ∃ t', o = Ret t' ∧ test_ok t'.
Proof.
  intros HT Hz Hnv E. destruct a as [a|i|i k|i| |]; simpl in E; try done.
  - destruct (allowed reliable a) eqn:Ha; [|done]. by eapply test_net.
  - apply bind_Some in E as (cl & Hi & E). destruct (pc cl) eqn:Hpc; try done. injection E as <-.
    eexists. split; [done|]. apply (test_client t i cl); try done; [apply HT|by left|unfold returned; by rewrite Hpc| |].
    + destruct (to_client _ HT i cl Hi) as [H1 H2 H3 _]. unfold pend in H2, H3. rewrite Hpc in H2, H3. split; [done|exact H2|exact H3|exact I].
    + intros c Hwt. unfold waits in Hwt. by rewrite Hpc in Hwt.
  - apply bind_Some in E as (cl & Hi & E). destruct (pc cl) eqn:Hpc; try done. case_decide as Hk; [|done].
    assert (k = key) as -> by set_solver. destruct (to_client _ HT i cl Hi) as [H1 H2 H3 _].
    destruct (test_enter_put t i cl (default 0 (verm cl !! key)) HT Hi) as (t' & E' & HT').
    + unfold returned. by rewrite Hpc.
    + unfold pend in H2, H3. rewrite Hpc in H2, H3. split; [done|exact H2|exact H3|exact I].
    + done.
    + intros c Hwt. unfold waits in Hwt. by rewrite Hpc in Hwt.
    + rewrite E' in E. injection E as <-. eauto.
  - apply bind_Some in E as (cl & Hi & E). destruct (pc cl) as [|k ver c|k ver err c|] eqn:Hpc.
    + unfold client_next in E. by rewrite Hpc in E.
    + by eapply test_next_put.
    + by eapply test_next_get.
    + unfold client_next in E. by rewrite Hpc in E.
  - destruct (main t) eqn:Hm; try done. destruct (forallb returned (clients t)) eqn:Hall; [|done].
    unfold call_clerk in E. destruct (act (Begin (-1) (get_op key)) (w t)) as [[w'| |]|] eqn:Ea; try done.
    injection E as <-. eexists. split; [done|].
    assert (world_ok w') as HW' by (eapply world_begin; [apply HT| | |exact Ea]; [done|by right]).
    pose proof Ea as Ew. injection Ew as <-. split; simpl; [exact HW'|apply HT| | |].
    + intros i cl Hi. eapply client_begin; [apply HT|exact Ea|by apply HT].
    + intros c call Hc Hnd. simpl in *. apply lookup_snoc_inv in Hc as [[-> ->]|[_ Hc]]; [by left|].
      destruct (to_pending _ HT c call Hc Hnd) as [?|?]; [congruence|by right].
    + split.
      * apply Forall_forall. intros cl Hcl. rewrite forallb_forall in Hall. by apply Hall, list_elem_of_In.
      * split; simpl.
        -- eexists. rewrite lookup_app_r, Nat.sub_diag by done. done.
        -- intros e rep He Hec. destruct (g_event _ _ (wo_good _ (to_world _ HT)) e He) as (call' & Hc' & _).
           apply lookup_lt_Some in Hc'. lia.
Qed.

(** ** The verdict *)

Definition answered_with (e : Err) (call : kcall) : Prop := put_answer call = Some e.
#[local] Instance answered_with_dec e call : Decision (answered_with e call).
Proof. unfold answered_with. apply _. Defined.

(** positions in a list whose element satisfies [Q] *)
Definition positions (Q : kcall → Prop) `{!∀ c, Decision (Q c)} (cs : list kcall) : list nat :=
  filter (λ c, from_option (λ call, bool_decide (Q call)) false (cs !! c) = true) (seq 0 (length cs)).

Lemma positions_length (Q : kcall → Prop) `{!∀ c, Decision (Q c)} cs : length (positions Q cs) = length (filter Q cs).
Proof.
  unfold positions. induction cs as [|x cs IH]; [done|]. rewrite length_cons, <-cons_seq, <-fmap_S_seq, !filter_cons.
  assert (length (filter (λ c, from_option (λ call, bool_decide (Q call)) false ((x :: cs) !! c) = true)
    (Datatypes.S <$> seq 0 (length cs))) = length (filter Q cs)) as E by (rewrite length_filter_fmap; exact IH).
  destruct (decide (Q x)) as [HQ|HQ].
  - rewrite decide_True by (simpl; by rewrite bool_decide_true). simpl. by rewrite E.
  - rewrite decide_False by (simpl; by rewrite bool_decide_false). exact E.
Qed.

Lemma elem_of_positions (Q : kcall → Prop) `{!∀ c, Decision (Q c)} cs c :
  c ∈ positions Q cs ↔ ∃ call, cs !! c = Some call ∧ Q call.
Proof.
  unfold positions. rewrite list_elem_of_filter, elem_of_seq. split.
  - intros [HQ _]. destruct (cs !! c) as [call|]; [|done]. simpl in HQ. apply bool_decide_eq_true in HQ. eauto.
  - intros (call & Hc & HQ). rewrite Hc. simpl. rewrite bool_decide_true by done. apply lookup_lt_Some in Hc.
    split; [done|lia].
Qed.

Lemma put_done_answer w c call a : good s0 w → calls w !! c = Some call → k_op call = OpPut a → is_done call = true →
  ∃ e, put_answer call = Some e.
Proof.
  intros HG Hc Ho Hd. pose proof (g_calls _ _ HG c call Hc) as Hk. unfold is_done, call_ok, put_answer in *.
  destruct (k_phase call) as [| | |x tm]; try done. destruct Hk as (_ & i & d & Hi & Hdc & _ & Hr & _).
  assert (d ∈ handled w) as Hin by (by eapply list_elem_of_lookup_2).
  destruct (g_event _ _ HG d Hin) as (call' & Hc' & Hop & _). rewrite Hdc, Hc in Hc'. injection Hc' as <-.
  pose proof (g_proper _ _ HG d Hin) as Hpr. rewrite Hop, Ho in Hpr. destruct (ev_rep d) as [rep|rep]; [done|].
  simpl in Hr. destruct (if bool_decide _ then _ else _) as [e| |]; simplify_eq/=. eauto.
Qed.

(** the version of the key lies between what was answered OK and what may have
    been performed *)
Lemma version_between w : world_ok w → Forall (λ call, is_done call = true) (calls w) →
  count (answered_with OK) (calls w) ≤ vers (server w) key
    ≤ count (answered_with OK) (calls w) + count (answered_with ErrMaybe) (calls w)
  ∧ (reliable = true → count (answered_with ErrMaybe) (calls w) = 0).
Proof.
  intros HW Hdone. pose proof (wo_good _ HW) as HG. rewrite Forall_lookup in Hdone.
  destruct (replays_version key _ _ (g_replay _ _ HG) (wo_small _ HW)) as [-> _].
  unfold count. rewrite <-!positions_length. unfold writes.
  set (W := filter (λ e, wrote e = true ∧ op_key (ev_op e) = key) (handled w)).
  rewrite <-(length_fmap ev_call W).
  assert (∀ e, e ∈ W ↔ e ∈ handled w ∧ wrote e = true) as HWin.
  { intros e. unfold W. rewrite list_elem_of_filter. split; [naive_solver|]. intros [He Hw]. split_and!; try done.
    destruct (g_event _ _ HG e He) as (call & Hc & Ho & _). rewrite Ho.
    by destruct (wo_ops _ HW call (list_elem_of_lookup_2 _ _ _ Hc)) as [(i & ver & _ & _ & ->)| ->]. }
  split; [split|].
  - apply inj_le, NoDup_incl_le; [apply NoDup_filter, NoDup_seq|]. intros c (call & Hc & Ha)%elem_of_positions.
    destruct (put_answer_done _ c call OK HG Hc Ha) as (_ & _ & _ & Hwr & _).
    apply written_true in Hwr as (f & Hf & Hfc & Hwf); [|done]. apply list_elem_of_fmap. exists f. rewrite HWin. done.
  - rewrite <-Nat2Z.inj_add, <-length_app. apply inj_le, NoDup_incl_le.
    + apply NoDup_fmap_2_strong.
      * intros x y Hx Hy Hxy. apply HWin in Hx as [Hx Hwx], Hy as [Hy Hwy].
        pose proof Hx as [i Hi]%list_elem_of_lookup. pose proof Hy as [j Hj]%list_elem_of_lookup.
        assert (i = j) by (apply Nat.le_antisymm; by eapply wrote_first). congruence.
      * apply NoDup_filter, NoDup_alt. intros i j e Hi Hj. by apply (g_once _ _ HG i j e e).
    + intros c (e & -> & [He Hwe]%HWin)%list_elem_of_fmap.
      destruct (g_event _ _ HG e He) as (call & Hc & Ho & _).
      assert (∃ a, k_op call = OpPut a) as [a Hop].
      { pose proof (g_proper _ _ HG e He) as Hpr. rewrite Ho in Hpr. unfold wrote in Hwe.
        destruct (k_op call), (ev_rep e); naive_solver. }
      destruct (put_done_answer _ _ call a HG Hc Hop (Hdone _ _ Hc)) as [x Hx].
      destruct (put_answer_done _ _ call x HG Hc Hx) as (_ & _ & _ & _ & Hwr).
      rewrite elem_of_app, !elem_of_positions. unfold answered_with.
      destruct Hwr as [-> | ->]; [apply written_true; by exists e|left|right]; eauto.
  - intros Hr. destruct (positions (answered_with ErrMaybe) (calls w)) as [|c l] eqn:E; [done|].
    assert (c ∈ positions (answered_with ErrMaybe) (calls w)) as (call & Hc & Ha)%elem_of_positions by (rewrite E; by left).
    destruct (put_answer_done _ c call ErrMaybe HG Hc Ha) as (_ & H2 & _).
    destruct (wo_reliable _ HW call Hr (list_elem_of_lookup_2 _ _ _ Hc)). specialize (H2 eq_refl). lia.
Qed.

Lemma foldl_add_res rs r : foldl add_res r rs
  = {| Nok := Nok r + foldr Z.add 0 (Nok <$> rs); Nmaybe := Nmaybe r + foldr Z.add 0 (Nmaybe <$> rs) |}.
Proof.
  revert r. induction rs as [|x rs IH]; intros r; simpl.
  - rewrite !Z.add_0_r. by destruct r.
  - rewrite IH. simpl. by rewrite !Z.add_assoc.
Qed.

Lemma sum_clients (f : client → Z) (g : nat → nat) (cls : list client) k :
  (∀ i cl, cls !! i = Some cl → f cl = Z.of_nat (g (k + i)%nat)) →
  foldr Z.add 0 (f <$> cls) = Z.of_nat (sum_list_with g (seq k (length cls))).
Proof.
  revert k. induction cls as [|cl cls IH]; intros k Hf; [done|].
  rewrite fmap_cons, length_cons, <-cons_seq. cbn [foldr sum_list_with]. rewrite (Hf 0%nat cl eq_refl), Nat.add_0_r.
  rewrite (IH (Datatypes.S k)); [lia|]. intros i x Hx. rewrite (Hf (Datatypes.S i) x Hx). do 2 f_equal. lia.
Qed.

(** the clients' counts are the answers *)
Lemma client_counts t e (f : ClntRes → Z) : test_ok t →
  (∀ i cl, clients t !! i = Some cl → f (res cl) = count (mine i e) (calls (w t))) →
  foldr Z.add 0 (f <$> (res <$> clients t)) = count (answered_with e) (calls (w t)).
Proof.
  intros HT Hf. rewrite <-list_fmap_compose. unfold count, answered_with.
  rewrite (sum_clients (f ∘ res) (λ i, length (filter (mine i e) (calls (w t)))) _ 0); [|intros i cl Hi; by apply Hf].
  rewrite (to_len _ HT), <-(sum_list_with_pred k_cli (λ call, put_answer call = Some e) _ n).
  - done.
  - intros call Hin Ha. pose proof Hin as [c Hc]%list_elem_of_lookup.
    destruct (put_answer_done _ c call e (wo_good _ (to_world _ HT)) Hc Ha) as [[a Ho] _].
    destruct (wo_ops _ (to_world _ HT) call Hin) as [(i & ver & Hi & -> & _)|Hg]; [lia|by rewrite Hg in Ho].
Qed.

(** a client has finished an [OnePut] *)
Definition some_put t : Prop := ∃ cl, cl ∈ clients t ∧ Nok (res cl) + Nmaybe (res cl) ≠ 0.

(** when the main goroutine has its answer, every call has returned *)
Lemma checking_done t c a : test_ok t → main t = Checking c → answer_of c (w t) = Some a →
  Forall (λ call, is_done call = true) (calls (w t)).
Proof.
  intros HT Hmt Ha. pose proof (to_main _ HT) as Hm. unfold main_ok in Hm. rewrite Hmt in Hm. destruct Hm as [Hret _].
  rewrite Forall_lookup in Hret. apply Forall_lookup. intros c1 call1 Hc1. destruct (is_done call1) eqn:Hd; [done|].
  destruct (to_pending _ HT c1 call1 Hc1 Hd) as [Hmain|(j & cl & Hj & _ & Hwt)].
  - rewrite Hmt in Hmain. injection Hmain as <-. apply answer_of_done in Ha as (call2 & tm & Hc2 & Hph).
    rewrite Hc1 in Hc2. injection Hc2 as <-. unfold is_done in Hd. by rewrite Hph in Hd.
  - specialize (Hret j cl Hj). unfold returned, waits in *. by destruct (pc cl).
Qed.

(** an answered put has left a version behind *)
Lemma some_put_version t : test_ok t → some_put t → Forall (λ call, is_done call = true) (calls (w t)) →
  (∀ i cl, clients t !! i = Some cl → ∀ e, pend e (w t) cl = 0) → 1 ≤ vers (server (w t)) key.
Proof.
  intros HT (cl & [i Hi]%list_elem_of_lookup & Hnz) Hdone Hpend. pose proof (to_world _ HT) as HW.
  pose proof (co_ok _ _ _ (to_client _ HT i cl Hi)) as Hc1. pose proof (co_maybe _ _ _ (to_client _ HT i cl Hi)) as Hc2.
  rewrite (Hpend i cl Hi) in Hc1, Hc2. unfold count in Hc1, Hc2.
  assert (∃ e call, call ∈ filter (mine i e) (calls (w t))) as (e & call & [[_ He] Hin]%list_elem_of_filter).
  { destruct (filter (mine i OK) (calls (w t))) as [|x l] eqn:E1; [|exists OK, x; rewrite E1; by left].
    destruct (filter (mine i ErrMaybe) (calls (w t))) as [|x l] eqn:E2; [|exists ErrMaybe, x; rewrite E2; by left].
    simpl in *. lia. }
  pose proof Hin as [c Hc]%list_elem_of_lookup. rewrite Forall_lookup in Hdone.
  destruct (wo_ops _ HW call Hin) as [(j & ver & _ & _ & Ho)|Ho].
  - pose proof (put_done_event _ c call _ (wo_good _ HW) Hc Ho (Hdone _ _ Hc)) as Hb.
    destruct (put_informed _ call j ver (wo_good _ HW) Hin Ho) as [? _]. simpl in Hb. lia.
  - destruct (put_answer_done _ c call e (wo_good _ HW) Hc He) as [[x Hx] _]. by rewrite Ho in Hx.
Qed.

Lemma test_verdict check nsec t o : test_ok t → some_put t → zlen (calls (w t)) < u64_mod →
  porcupine_sound check → tact key [key] randomkeys reliable check nsec TVerdict t = Some o → ∃ t', o = Ret t'.
Proof.
  intros HT Hput Hlen Hsound E. simpl in E. pose proof (to_main _ HT) as Hm. unfold main_ok in Hm.
  destruct (main t) as [|c|] eqn:Hmt; try done. apply bind_Some in E as (a & Ha & E). injection E as <-.
  destruct Hm as [Hret [(call & Hc & Hcli & Hop) Hcur]]. rewrite Forall_lookup in Hret.
  pose proof (to_world _ HT) as HW.
  pose proof (checking_done t c a HT Hmt Ha) as Hdone.
  destruct (version_between _ HW Hdone) as [[Hlo Hhi] Hrel].
  assert (∀ i cl, clients t !! i = Some cl → ∀ e, pend e (w t) cl = 0) as Hpend.
  { intros i cl Hi e. specialize (Hret i cl Hi). unfold returned, pend in *. by destruct (pc cl). }
  assert (foldr Z.add 0 (Nok <$> (res <$> clients t)) = count (answered_with OK) (calls (w t))) as Hnok.
  { apply client_counts; [done|]. intros i cl Hi. rewrite <-(co_ok _ _ _ (to_client _ HT i cl Hi)), (Hpend i cl Hi). lia. }
  assert (foldr Z.add 0 (Nmaybe <$> (res <$> clients t)) = count (answered_with ErrMaybe) (calls (w t))) as Hnmay.
  { apply client_counts; [done|]. intros i cl Hi. rewrite <-(co_maybe _ _ _ (to_client _ HT i cl Hi)), (Hpend i cl Hi). lia. }
  pose proof (some_put_version t HT Hput Hdone Hpend) as Hpos.
  destruct (get_answer _ c call a HW Hc Hop Ha) as (e & rep & He & Hec & Hrep & Hrok & Hans).
  pose proof (Hcur e rep He Hec Hrep) as Hver. destruct Hrok as [(Hok & _ & (x & Hx & Hval & _))|[_ Hzero]]; [|lia].
  exists {| w := w t; clients := clients t; main := Passed |}.
  unfold verdict. rewrite (Hans Hok), Hval, (GetJson_entry x) by done. cbn [mbind outcome_bind].
  unfold CheckPutConcurrent. rewrite foldl_add_res, Hnok, Hnmay. cbn [Nok Nmaybe]. rewrite Hver.
  assert (0 ≤ count (answered_with OK) (calls (w t)) ∧ 0 ≤ count (answered_with ErrMaybe) (calls (w t))
    ∧ count (answered_with OK) (calls (w t)) + count (answered_with ErrMaybe) (calls (w t)) ≤ zlen (calls (w t))) as (? & ? & ?).
  { unfold count, zlen. clear. split_and!; [lia|lia|]. induction (calls (w t)) as [|x l IH]; [done|].
    rewrite !filter_cons. unfold answered_with at 1 3. repeat case_decide; simpl in *; try lia. congruence. }
  rewrite (checkPorcupine_Ret check) by (done || by eapply good_parts; [done|apply HW|done]).
  rewrite !u64_small by lia. destruct reliable.
  - rewrite decide_False by (specialize (Hrel eq_refl); lia). done.
  - rewrite decide_False by lia. done.
Qed.

(** ** Runs of the test *)

Lemma act_calls a w w' : act a w = Some (Ret w') → zlen (calls w') ≤ zlen (calls w) + 1.
Proof.
  intros E. destruct (match a with Begin _ _ => true | _ => false end) eqn:Hb.
  - destruct a; try done. injection E as <-. unfold zlen. simpl. rewrite length_app. simpl. lia.
  - assert (∀ cli op, a ≠ Begin cli op) as Hno by (by intros cli op ->).
    destruct (act_cases a w w' E Hno) as [(_ & _ & [->|(c & call & call' & _ & -> & _)])|[-> _]];
      [lia|unfold zlen; rewrite length_insert; lia|lia].
Qed.

(** how far one step takes the world *)
Definition near w w' : Prop := zlen (handled w') ≤ zlen (handled w) + 1 ∧ zlen (calls w') ≤ zlen (calls w) + 1.

Lemma act_near a w w' : act a w = Some (Ret w') → near w w'.
Proof. split; [by eapply act_handled|by eapply act_calls]. Qed.

Lemma near_refl w : near w w.
Proof. split; lia. Qed.

Lemma call_clerk_near me op t t' c : call_clerk me op t = Some (Ret (t', c)) → near (w t) (w t').
Proof.
  unfold call_clerk. intros E. destruct (act (Begin me op) (w t)) as [[w'| |]|] eqn:Ea; try done.
  injection E as <- _. by eapply act_near.
Qed.

Lemma enter_put_near i k ver cl t t' : enter_put i k ver cl t = Some (Ret t') → near (w t) (w t').
Proof.
  unfold enter_put. intros E. destruct (call_clerk _ _ t) as [[[t1 c]| |]|] eqn:Ec; try done. injection E as <-.
  exact (call_clerk_near _ _ _ _ _ Ec).
Qed.

Lemma tact_near check nsec a t t' : tact key [key] randomkeys reliable check nsec a t = Some (Ret t') → near (w t) (w t').
Proof.
  intros E. destruct a as [a|i|i k|i| |]; cbn [tact] in E.
  - destruct (allowed reliable a); [|done]. unfold net_step in E.
    destruct (act a (w t)) as [[w'| |]|] eqn:Ea; try done. injection E as <-. by eapply act_near.
  - apply bind_Some in E as (cl & _ & E). destruct (pc cl); try done. injection E as <-. apply near_refl.
  - apply bind_Some in E as (cl & _ & E). destruct (pc cl); try done. case_decide; [|done]. by eapply enter_put_near.
  - apply bind_Some in E as (cl & _ & E). unfold client_next in E. destruct (pc cl) as [|k ver c|k ver err c|]; try done.
    + apply bind_Some in E as (x & _ & E). destruct x as [|err]; [done|]. destruct (OnePut_after_put err); try done.
      destruct (call_clerk _ _ t) as [[[t1 c1]| |]|] eqn:Ec; try done. injection E as <-. exact (call_clerk_near _ _ _ _ _ Ec).
    + apply bind_Some in E as (x & _ & E).
      destruct ('(ver0, e) ← GetJson x; _) as [[ver0 [ok|]]| |]; try done; [injection E as <-; apply near_refl|].
      by eapply enter_put_near.
  - destruct (main t); try done. destruct (forallb returned (clients t)); [|done].
    destruct (call_clerk _ _ t) as [[[t1 c1]| |]|] eqn:Ec; try done. injection E as <-. exact (call_clerk_near _ _ _ _ _ Ec).
  - destruct (main t); try done. apply bind_Some in E as (x & _ & [= E]). unfold verdict in E.
    apply outcome_bind_ret in E as ([ver0 e] & _ & E). apply outcome_bind_ret in E as (r & _ & E).
    apply outcome_bind_ret in E as (u & _ & [= <-]). apply near_refl.
Qed.

Lemma verdict_or_not (a : taction) : a = TVerdict ∨ a ≠ TVerdict.
Proof. destruct a; by (left + right). Qed.

Lemma test_step check nsec a t t' : test_ok t → zlen (handled (w t)) + 1 < u64_mod - 1 →
  tact key [key] randomkeys reliable check nsec a t = Some (Ret t') → test_ok t'.
Proof.
  intros HT Hz E. destruct (verdict_or_not a) as [->|Hne].
  - simpl in E. destruct (main t) as [|c|] eqn:Hmt; try done. apply bind_Some in E as (x & Hx & [= E]).
    pose proof (checking_done t c x HT Hmt Hx) as Hdone. unfold verdict in E.
    apply outcome_bind_ret in E as ([ver0 e] & _ & E). apply outcome_bind_ret in E as (r & _ & E).
    apply outcome_bind_ret in E as (u & _ & [= <-]). split; simpl; try apply HT; [|done].
    intros c1 call1 Hc1 Hnd. rewrite Forall_lookup in Hdone. simpl in Hc1. by rewrite (Hdone c1 call1 Hc1) in Hnd.
  - destruct (test_move check nsec a t (Ret t') HT Hz Hne E) as (t1 & [= <-] & HT'). done.
Qed.

Lemma test_run check nsec acts t t' : test_ok t → zlen (handled (w t)) + zlen acts < u64_mod - 1 →
  trun key [key] randomkeys reliable check nsec acts t = Some (Ret t') →
  test_ok t' ∧ zlen (handled (w t')) ≤ zlen (handled (w t)) + zlen acts ∧ zlen (calls (w t')) ≤ zlen (calls (w t)) + zlen acts.
Proof.
  revert t. induction acts as [|a acts IH]; intros t HT Hz E.
  - injection E as <-. unfold zlen. simpl. split; [done|lia].
  - cbn [trun] in E. destruct (tact _ _ _ _ _ _ a t) as [[t1| |]|] eqn:Ea; try done.
    unfold zlen in Hz |- *. rewrite length_cons in Hz |- *. destruct (tact_near _ _ _ _ _ Ea) as [Hn1 Hn2]. unfold zlen in Hn1, Hn2.
    destruct (IH t1) as (HT' & Hh & Hc); [eapply test_step; [done|unfold zlen; lia|exact Ea]|unfold zlen; lia|exact E|].
    unfold zlen in Hh, Hc. split; [done|]. lia.
Qed.
End facts.

(** C9. The test of concurrent puts (TestPutConcurrentReliable and its unreliable
    kin) passes once at least one client has finished a put: whatever the clients,
    the clerks, the network and the server do, no client and no check ends the
    test: every answer is one the clients expect, every value read is the one put
    at that version, the version at the server agrees with the clients' counts,
    and the history is accepted.  (Before any put the check of the count is
    reached only if no client gets through in the test's time: it then ends the
    test, [idle_clients_fail].) *)
Theorem concurrent_puts_pass {S : Type} `{KVStore S} (s0 : S) key n randomkeys reliable check nsec acts t a o :
  kv_table s0 = ∅ → Z.of_nat n < 2 ^ 63 → zlen acts + 1 < u64_mod - 1 → porcupine_sound check →
  trun key [key] randomkeys reliable check nsec acts (SpawnClients [key] s0 n) = Some (Ret t) →
  tact key [key] randomkeys reliable check nsec a t = Some o → (a = TVerdict → some_put t) →
  ∃ t', o = Ret t'.
Proof.
  intros Hempty Hn Hz Hsound Hrun E Hput.
  destruct (test_run s0 Hempty key n randomkeys reliable Hn check nsec acts (SpawnClients [key] s0 n) t) as (HT & Hh & Hc);
    [by apply test_init|unfold zlen in *; simpl; lia|done|].
  unfold zlen in Hh, Hc, Hz. simpl in Hh, Hc. destruct (verdict_or_not a) as [->|Hne].
  - eapply (test_verdict s0 Hempty key n randomkeys reliable check nsec); eauto. unfold zlen. lia.
  - destruct (test_move s0 Hempty key n randomkeys reliable Hn check nsec a t o HT) as (t' & -> & _); eauto.
    unfold zlen. lia.
Qed.

(* ------------------------------------------------------------------ *)
(** ** A concrete run *)

(** a call that goes through, and one whose first reply is lost *)
Definition one_try (c : nat) : list taction :=
  [TNet (Send c); TNet (Handle c 0); TNet (Tick 1); TNet (Reply c); TNet (Log c)].
Definition two_tries (c : nat) : list taction :=
  [TNet (Send c); TNet (Handle c 0); TNet (GiveUp c); TNet (Send c); TNet (Handle c 1); TNet (Tick 1); TNet (Reply c);
   TNet (Log c)].

(** Two clients: the first put of client 0 is answered ErrMaybe, that of client 1
    ErrVersion, whose second try succeeds. *)
Definition two_clients : list taction :=
  [TPut 0 "k"; TPut 1 "k"] ++ two_tries 0 ++ one_try 1 ++ [TNext 0; TNext 1] ++ one_try 2 ++ one_try 3
    ++ [TNext 0; TNext 1] ++ one_try 4 ++ [TNext 1] ++ one_try 5 ++ [TNext 1; TDone 1; TDone 0; TCheck] ++ one_try 6.

Abbreviation two_clients_run :=
  (trun "k" ["k"] false false try_orders 1 two_clients (SpawnClients ["k"] KvSrv.MakeKVServer 2)).

Definition verdict_counts (o : outcome (tstate KvSrv.KVServer)) : list (Z * Z) :=
  match o with Ret t => (λ cl, (Nok (res cl), Nmaybe (res cl))) <$> clients t | _ => [] end.

Lemma concurrent_puts_pass_witness : ∃ t o, two_clients_run = Some (Ret t)
  ∧ tact "k" ["k"] false false try_orders 1 TVerdict t = Some o
  ∧ verdict_counts o = [(0, 1); (1, 0)] ∧ ∃ t', o = Ret t'.
Proof.
  destruct two_clients_run as [[t| |]|] eqn:E; [|exfalso; vm_compute in E; discriminate E..].
  exists t. destruct (tact "k" ["k"] false false try_orders 1 TVerdict t) as [o|] eqn:Eo.
  2: { exfalso. revert Eo. vm_compute in E. injection E as <-. vm_compute. discriminate. }
  exists o. split; [reflexivity|]. split; [reflexivity|]. split.
  - revert Eo. vm_compute in E. injection E as <-. vm_compute. by intros [= <-].
  - apply (concurrent_puts_pass KvSrv.MakeKVServer "k" 2 false false try_orders 1 two_clients t TVerdict o);
      [reflexivity|lia|vm_compute; reflexivity|exact try_orders_sound|exact E|exact Eo|].
    intros _. revert E. clear. intros E. vm_compute in E. injection E as <-.
    eexists. split; [apply list_elem_of_here|]. simpl. lia.
Defined.

(** If no client has put anything, the test fails: the key it reads is absent. *)
Theorem idle_clients_fail : ∃ t,
  trun "k" ["k"] false true try_orders 1 ([TDone 0; TCheck] ++ one_try 0) (SpawnClients ["k"] KvSrv.MakeKVServer 1) = Some (Ret t)
  ∧ tact "k" ["k"] false true try_orders 1 TVerdict t = Some Fatal.
Proof. eexists. split; [vm_compute; reflexivity|vm_compute; reflexivity]. Qed.
