(* ===== verification/KvTestLib.v ===== *)
(** * Sequential clients of the tests (kvtest1/kvtest.go)

    What the tests of one client do with a clerk of kvsrv1/client.go:
    [PutAtLeastOnce], [CheckGet] and [SpreadPutsSize].  A call of the clerk
    takes a script (see KvClerk) for its attempts, and the times at which the
    call began and ended; a run that exhausts its scripts is still looping
    ([None]).  [ts.Fatalf] ends the test: [Fatal]. *)

From S2P Require Import Prelude KvRpc KvSrv KvClerk GoText KvHistory.
Local Open Scope Z_scope.

(** one call of a clerk *)
Record call_run := { started : Z; attempts : list (list kv_op * fate); ended : Z }.

(** [MakeKeys] *)
Definition make_key (i : nat) : string := of_chars ("k"%char :: Itoa (Z.of_nat i)).
Definition MakeKeys (n : nat) : list string := make_key <$> seq 0 n.

Section lib.
Context {S : Type} `{KVStore S}.
Implicit Types (s : S) (keys : list string).

(** the service and the test's log *)
Record test := { srv : S; log : OpLog }.

Definition ts_Put (t : test) (r : call_run) (key value : string) (version : Tversion) (cli : Z)
    : test * option (outcome Err) :=
  let '(s, _, res) := KvClerk.Put (srv t) (attempts r) key value version in
  match res with
  | Some (Ret err) =>
      ({| srv := s;
          log := Append (log t) (record_of cli (put_op key value version) (started r) (GotErr err) (ended r)) |},
       Some (Ret err))
  | res => ({| srv := s; log := log t |}, res)
  end.

Definition ts_Get (t : test) (r : call_run) (key : string) (cli : Z) : test * option (string * Tversion * Err) :=
  let '(s, res) := KvClerk.Get (srv t) (attempts r) key in
  match res with
  | Some (val, ver, err) =>
      ({| srv := s;
          log := Append (log t) (record_of cli (get_op key) (started r) (GotValue val ver err) (ended r)) |},
       Some (val, ver, err))
  | None => ({| srv := s; log := log t |}, None)
  end.

(** [PutAtLeastOnce], a call of the clerk per turn of its loop *)
Fixpoint PutAtLeastOnce (t : test) (runs : list call_run) (key value : string) (ver : Tversion) (me : Z)
    : test * option (outcome Tversion) :=
  match runs with
  | [] => (t, None)
  | r :: runs' =>
      match ts_Put t r key value ver me with
      | (t, Some (Ret OK)) => (t, Some (Ret (next_version ver)))
      | (t, Some (Ret ErrMaybe)) | (t, Some (Ret ErrVersion)) => PutAtLeastOnce t runs' key value (next_version ver) me
      | (t, Some (Ret _)) => if decide (ver = 0) then PutAtLeastOnce t runs' key value ver me else (t, Some Fatal)
      | (t, Some Fatal) => (t, Some Fatal)
      | (t, Some Panic) => (t, Some Panic)
      | (t, None) => (t, None)
      end
  end.

Definition CheckGet (t : test) (r : call_run) (key value : string) (version : Tversion) : test * option (outcome ()) :=
  match ts_Get t r key 0 with
  | (t, Some (val, ver, err)) =>
      if decide (err ≠ OK) then (t, Some Fatal)
      else if decide (val ≠ value ∨ ver ≠ version) then (t, Some Fatal)
      else (t, Some (Ret tt))
  | (t, None) => (t, None)
  end.

(** the two loops of [SpreadPutsSize]; the first calls the clerk itself *)
Fixpoint spread_puts (t : test) (kvs : list (string * string)) (scripts : list (list (list kv_op * fate)))
    : test * option (outcome ()) :=
  match kvs, scripts with
  | [], _ => (t, Some (Ret tt))
  | _, [] => (t, None)
  | (k, v) :: kvs', sc :: scripts' =>
      let '(s, _, res) := KvClerk.Put (srv t) sc k v 0 in
      let t := {| srv := s; log := log t |} in
      match res with
      | Some (Ret _) => spread_puts t kvs' scripts'
      | Some Fatal => (t, Some Fatal)
      | Some Panic => (t, Some Panic)
      | None => (t, None)
      end
  end.

Fixpoint spread_checks (t : test) (kvs : list (string * string)) (runs : list call_run) : test * option (outcome ()) :=
  match kvs, runs with
  | [], _ => (t, Some (Ret tt))
  | _, [] => (t, None)
  | (k, v) :: kvs', r :: runs' =>
      match CheckGet t r k v 1 with
      | (t, Some (Ret _)) => spread_checks t kvs' runs'
      | o => o
      end
  end.

(** [va] are the random strings that are drawn *)
Definition SpreadPutsSize (t : test) (n : nat) (va : list string) (scripts : list (list (list kv_op * fate)))
    (runs : list call_run) : test * option (outcome (list string * list string)) :=
  let ka := MakeKeys n in
  match spread_puts t (zip ka va) scripts with
  | (t, Some (Ret _)) =>
      match spread_checks t (zip ka va) runs with
      | (t, Some (Ret _)) => (t, Some (Ret (ka, va)))
      | (t, Some Fatal) => (t, Some Fatal)
      | (t, Some Panic) => (t, Some Panic)
      | (t, None) => (t, None)
      end
  | (t, Some Fatal) => (t, Some Fatal)
  | (t, Some Panic) => (t, Some Panic)
  | (t, None) => (t, None)
  end.

(* ------------------------------------------------------------------ *)
(** ** A clerk that is the only one to use a key *)

(** others leave these keys alone *)
Definition elsewhere (keys : list string) (sc : list (list kv_op * fate)) : Prop :=
  Forall (λ ev, Forall (λ op, op_key op ∉ keys) (fst ev)) sc.

Definition delivers (sc : list (list kv_op * fate)) : Prop := Exists (λ ev, snd ev = Delivered) sc.
Definition delivers_first (sc : list (list kv_op * fate)) : Prop :=
  match sc with ev :: _ => snd ev = Delivered | [] => False end.

#[export] Instance delivers_first_dec sc : Decision (delivers_first sc).
Proof. destruct sc; apply _. Defined.

Lemma delivers_first_delivers sc : delivers_first sc → delivers sc.
Proof. destruct sc; [done|]. simpl. by left. Qed.

Lemma exec_all_elsewhere ops s k : Forall (λ op, op_key op ≠ k) ops →
  kv_table (fst (exec_all s ops)) !! k = kv_table s !! k.
Proof.
  revert s. induction ops as [|op ops IH]; intros s Hf; [done|]. inv Hf as [|? ? Hop Hops]. simpl.
  destruct (exec s op) as [s1 o] eqn:E. destruct (exec_all s1 ops) as [s2 h] eqn:E2. specialize (IH s1 Hops). rewrite E2 in IH.
  simpl in *. rewrite IH. destruct op as [a|a]; simpl in E; [by injection E as <- _|].
  pose proof (kv_Put_spec s a) as Es. destruct (kv_Put s a) as [s' r]. injection E as <- _. simpl in Es.
  replace (kv_table s') with (fst (spec_put (kv_table s) a)) by (by rewrite <-Es).
  apply spec_put_other. unfold op_key in Hop. simpl in Hop. congruence.
Qed.

(** what is at a request's key after the request was executed once *)
Definition landed (t : table) (args : PutArgs) : option VersionedValue :=
  if decide (version_at t (put_Key args) = put_Version args)
  then Some {| Value := put_Value args; Version := next_version (put_Version args) |}
  else t !! put_Key args.

Definition others_same (keys : list string) (args : PutArgs) (s s' : S) : Prop :=
  ∀ k, k ∈ keys → k ≠ put_Key args → kv_table s' !! k = kv_table s !! k.

(** a request that is not ahead of its key *)
Definition not_ahead (s : S) (args : PutArgs) : Prop :=
  0 ≤ put_Version args ≤ version_at (kv_table s) (put_Key args) ∧ put_Version args < u64_mod - 1.

Lemma spec_put_landed t a : fst (spec_put t a) !! put_Key a = landed t a.
Proof. unfold spec_put, landed. case_decide; simpl; [by rewrite lookup_insert_eq|done]. Qed.

(** of a request that is not ahead, an attempt answers [OK] or [ErrVersion] *)
Lemma spec_put_answer s args : not_ahead s args →
  snd (spec_put (kv_table s) args)
  = if decide (version_at (kv_table s) (put_Key args) = put_Version args) then OK else ErrVersion.
Proof.
  intros [[H0 Hle] _]. unfold spec_put. case_decide as Hv; [done|]. simpl. rewrite decide_False; [done|].
  intros Hn. unfold version_at in *. rewrite Hn in *. lia.
Qed.

Lemma landed_again s s' args : not_ahead s args → kv_table s' !! put_Key args = landed (kv_table s) args →
  not_ahead s' args ∧ landed (kv_table s') args = landed (kv_table s) args
  ∧ version_at (kv_table s') (put_Key args) ≠ put_Version args.
Proof.
  intros [[H0 Hle] Hb] E. assert (put_Version args < version_at (kv_table s') (put_Key args)) as Hlt.
  { unfold version_at at 1. rewrite E. unfold landed. case_decide as Hv; [simpl; rewrite next_version_small by lia; lia|].
    fold (version_at (kv_table s) (put_Key args)). lia. }
  split; [split; lia|]. split; [|lia]. unfold landed at 1. by rewrite decide_False by lia.
Qed.

(** An attempt leaves the other keys alone; it is lost on the way, or the
    request is executed and its reply lost or delivered. *)
Lemma Call_Put_alone s ev args s1 h rep keys : Forall (λ op, op_key op ∉ keys) (fst ev) → put_Key args ∈ keys →
  not_ahead s args → Call_Put s ev args = (s1, h, rep) →
  others_same keys args s s1
  ∧ match rep with
    | Some r => kv_table s1 !! put_Key args = landed (kv_table s) args ∧ put_Err r =
        (if decide (version_at (kv_table s) (put_Key args) = put_Version args) then OK else ErrVersion)
    | None => snd ev ≠ Delivered ∧ (kv_table s1 !! put_Key args = kv_table s !! put_Key args
        ∨ kv_table s1 !! put_Key args = landed (kv_table s) args)
    end.
Proof.
  intros He Hk Ha E. unfold Call_Put in E. set (s' := fst (exec_all s (fst ev))) in *.
  assert (∀ k, k ∈ keys → kv_table s' !! k = kv_table s !! k) as Hs'.
  { intros k Hin. apply exec_all_elsewhere. eapply Forall_impl; [exact He|]. by intros op Hop <-. }
  assert (version_at (kv_table s') (put_Key args) = version_at (kv_table s) (put_Key args)) as Hv.
  { unfold version_at. by rewrite Hs'. }
  assert (not_ahead s' args) as Ha' by (unfold not_ahead; by rewrite Hv).
  assert (landed (kv_table s') args = landed (kv_table s) args) as Hl by (unfold landed; by rewrite Hv, Hs').
  pose proof (kv_Put_spec s' args) as Es. destruct (kv_Put s' args) as [s2 r]. simpl in Es.
  assert (kv_table s2 = fst (spec_put (kv_table s') args)) as Et by (by rewrite <-Es).
  assert (put_Err r = snd (spec_put (kv_table s') args)) as Ee by (by rewrite <-Es). clear Es.
  assert (others_same keys args s s2) as Hother.
  { intros k Hin Hne. rewrite Et, spec_put_other by done. by apply Hs'. }
  assert (kv_table s2 !! put_Key args = landed (kv_table s) args) as Hown by (by rewrite Et, spec_put_landed).
  destruct (snd ev); injection E as <- <- <-; split; auto; try (intros k Hin _; by apply Hs').
  rewrite PutReply_decode_fresh. split; [done|]. by rewrite Ee, spec_put_answer, Hv.
Qed.

(** The resend loop executes the request once, now ([OK]) or never again. *)
Lemma Put_resend_alone script s args keys s' h o : elsewhere keys script → put_Key args ∈ keys → not_ahead s args →
  Put_resend s script args = (s', h, Some o) →
  others_same keys args s s' ∧ kv_table s' !! put_Key args = landed (kv_table s) args
  ∧ (o = Ret ErrMaybe ∨ o = Ret OK ∧ version_at (kv_table s) (put_Key args) = put_Version args).
Proof.
  revert s h. induction script as [|ev script IH]; intros s h He Hk Ha E; [done|]. inv He as [|? ? Hev Hsc]. simpl in E.
  destruct (Call_Put s ev args) as [[s1 h1] rep] eqn:EC.
  destruct (Call_Put_alone s ev args s1 h1 rep keys Hev Hk Ha EC) as [Ho Hr]. destruct rep as [r|].
  - destruct Hr as [Hl Hr]. injection E as <- <- <-. split_and!; [done|done|]. unfold Put_resend_reply. rewrite Hr.
    case_decide; [by right|by left].
  - destruct (Put_resend s1 script args) as [[s2 h2] res] eqn:ER. injection E as <- <- ->. destruct Hr as [_ [Hsame|Hl]].
    + assert (version_at (kv_table s1) (put_Key args) = version_at (kv_table s) (put_Key args)) as Hv
        by (unfold version_at; by rewrite Hsame).
      apply IH in ER as (Ho2 & Hl2 & Hres); [|done|done|unfold not_ahead; by rewrite Hv].
      rewrite Hv in Hres. split_and!; [|by rewrite Hl2; unfold landed; rewrite Hv, Hsame|done].
      intros k Hin Hne. rewrite Ho2 by done. by apply Ho.
    + destruct (landed_again s s1 args Ha Hl) as (Ha1 & Hl1 & Hne1).
      apply IH in ER as (Ho2 & Hl2 & Hres); [|done..]. split_and!; [|congruence|naive_solver].
      intros k Hin Hne. rewrite Ho2 by done. by apply Ho.
Qed.

(** [Put] of the only clerk of a key: the request is executed once. *)
Lemma Put_alone script s key value version keys s' h o : elsewhere keys script → key ∈ keys →
  0 ≤ version ≤ version_at (kv_table s) key → version < u64_mod - 1 →
  KvClerk.Put s script key value version = (s', h, Some o) →
  (∀ k, k ∈ keys → k ≠ key → kv_table s' !! k = kv_table s !! k)
  ∧ (if decide (version_at (kv_table s) key = version)
     then kv_table s' !! key = Some {| Value := value; Version := next_version version |}
          ∧ (o = Ret OK ∨ o = Ret ErrMaybe ∧ ¬ delivers_first script)
     else kv_table s' !! key = kv_table s !! key ∧ (o = Ret ErrVersion ∨ o = Ret ErrMaybe)).
Proof.
  intros He Hk Hv Hb E. destruct script as [|ev script]; [done|]. inv He as [|? ? Hev Hsc]. unfold KvClerk.Put in E.
  set (args := {| put_Key := key; put_Value := value; put_Version := version |}) in *.
  assert (not_ahead s args) as Ha by done.
  destruct (Call_Put s ev args) as [[s1 h1] rep] eqn:EC.
  destruct (Call_Put_alone s ev args s1 h1 rep keys Hev Hk Ha EC) as [Ho Hr].
  assert (landed (kv_table s) args = if decide (version_at (kv_table s) key = version)
    then Some {| Value := value; Version := next_version version |} else kv_table s !! key) as Hland by done.
  destruct rep as [r|].
  - destruct Hr as [Hl Hr]. injection E as <- <- <-. split; [done|]. unfold Put_first_reply. rewrite Hr.
    simpl in *. rewrite Hl, Hland. case_decide; auto.
  - destruct (Put_resend s1 script args) as [[s2 h2] res] eqn:ER. injection E as <- <- ->. destruct Hr as [Hnd Hr].
    assert (not_ahead s1 args ∧ landed (kv_table s1) args = landed (kv_table s) args
      ∧ (version_at (kv_table s) key ≠ version → version_at (kv_table s1) key ≠ version)) as (Ha1 & Hl1 & Hne1).
    { destruct Hr as [Hsame|Hl].
      - assert (version_at (kv_table s1) key = version_at (kv_table s) key) as Hv1
          by (unfold version_at; simpl in Hsame; by rewrite Hsame).
        simpl in Hsame. unfold not_ahead, landed. simpl. rewrite Hv1, Hsame. split; [exact Ha|]. done.
      - destruct (landed_again s s1 args Ha Hl) as (? & ? & Hx). split; [done|]. split; [done|]. intros _. exact Hx. }
    apply Put_resend_alone with (keys := keys) in ER as (Ho2 & Hl2 & Hres); [|done..]. split.
    + intros k Hin Hne. rewrite Ho2 by done. by apply Ho.
    + rewrite Hl1, Hland in Hl2. simpl in *. case_decide as Hc; (split; [done|]).
      * destruct Hres as [-> |[-> _]]; auto.
      * destruct Hres as [-> |[-> Hx]]; [by right|]. by destruct (Hne1 Hc).
Qed.

Lemma Call_Get_alone s ev key s1 rep keys : Forall (λ op, op_key op ∉ keys) (fst ev) → key ∈ keys →
  Call_Get s ev {| get_Key := key |} = (s1, rep) →
  (∀ k, k ∈ keys → kv_table s1 !! k = kv_table s !! k)
  ∧ match rep with
    | Some r => (get_Value r, get_Version r, get_Err r) = spec_get (kv_table s) {| get_Key := key |}
    | None => snd ev ≠ Delivered
    end.
Proof.
  intros He Hk E. unfold Call_Get in E. set (s' := fst (exec_all s (fst ev))) in *.
  assert (∀ k, k ∈ keys → kv_table s' !! k = kv_table s !! k) as Hs'.
  { intros k Hin. apply exec_all_elsewhere. eapply Forall_impl; [exact He|]. by intros op Hop <-. }
  destruct (snd ev); injection E as <- <-; split; try done.
  rewrite kv_Get_spec. unfold spec_get, value_at, version_at. simpl. by rewrite Hs'.
Qed.

(** [Get] of the only clerk of a key returns what is there. *)
Lemma Get_alone script s key keys : elsewhere keys script → key ∈ keys → delivers script →
  ∃ s', KvClerk.Get s script key = (s', Some (match kv_table s !! key with
                                              | Some vv => (Value vv, Version vv, OK)
                                              | None => (""%string, 0, ErrNoKey) end))
  ∧ ∀ k, k ∈ keys → kv_table s' !! k = kv_table s !! k.
Proof.
  revert s. induction script as [|ev script IH]; intros s He Hk Hd; [by inv Hd|]. inv He as [|? ? Hev Hsc]. simpl.
  destruct (Call_Get s ev {| get_Key := key |}) as [s1 rep] eqn:EC.
  destruct (Call_Get_alone s ev key s1 rep keys Hev Hk EC) as [Hs1 Hr]. destruct rep as [r|].
  - unfold spec_get, value_at, version_at in Hr. simpl in Hr. injection Hr as Hv Hn Her. rewrite Her.
    case_decide as Hnone.
    + rewrite Hnone. eauto.
    + destruct (kv_table s !! key) as [vv|]; [|done]. rewrite Hv, Hn. eauto.
  - destruct (IH s1 Hsc Hk) as (s2 & E2 & Hs2); [by inv Hd|]. exists s2. rewrite E2, Hs1 by done. split; [done|].
    intros k Hin. rewrite Hs2 by done. by apply Hs1.
Qed.

(* ------------------------------------------------------------------ *)
(** ** [PutAtLeastOnce] *)

(** a put of the log's only clerk of the key *)
Lemma ts_Put_alone t r key value ver cli keys : elsewhere keys (attempts r) → key ∈ keys → delivers (attempts r) →
  0 ≤ ver ≤ version_at (kv_table (srv t)) key → ver < u64_mod - 1 →
  ∃ t' e, ts_Put t r key value ver cli = (t', Some (Ret e))
  ∧ (∀ k, k ∈ keys → k ≠ key → kv_table (srv t') !! k = kv_table (srv t) !! k)
  ∧ (if decide (version_at (kv_table (srv t)) key = ver)
     then kv_table (srv t') !! key = Some {| Value := value; Version := ver + 1 |}
          ∧ (e = OK ∨ e = ErrMaybe ∧ ¬ delivers_first (attempts r))
     else kv_table (srv t') !! key = kv_table (srv t) !! key ∧ (e = ErrVersion ∨ e = ErrMaybe)).
Proof.
  intros He Hk Hd Hv Hb. unfold ts_Put. destruct (Put_returns (srv t) (attempts r) key value ver Hd) as (s' & h & e & E).
  rewrite E. destruct (Put_alone (attempts r) (srv t) key value ver keys s' h (Ret e) He Hk Hv Hb E) as [Ho Hown].
  eexists _, e. split; [reflexivity|]. split; [done|]. simpl. rewrite next_version_small in Hown by lia.
  case_decide; naive_solver.
Qed.

Definition lossless (runs : list call_run) : list call_run := filter (λ r, delivers_first (attempts r)) runs.

(** A client that puts until it gets OK ends with its value in place: from the
    key's version or an older one, while others put to other keys, whatever
    attempts the network loses, provided that more of its puts get through at once than
    it is versions behind.  The version that is returned is the one at which the
    value is; it may be higher than one more than before, because a put whose
    reply was lost is put again. *)
Theorem put_at_least_once_lands t runs key value ver me :
  Forall (λ r, elsewhere [key] (attempts r) ∧ delivers (attempts r)) runs →
  0 ≤ ver ≤ version_at (kv_table (srv t)) key → version_at (kv_table (srv t)) key + zlen runs < u64_mod - 1 →
  version_at (kv_table (srv t)) key - ver < zlen (lossless runs) →
  ∃ t' ver', PutAtLeastOnce t runs key value ver me = (t', Some (Ret ver'))
  ∧ kv_table (srv t') !! key = Some {| Value := value; Version := ver' |}
  ∧ version_at (kv_table (srv t)) key < ver' ≤ version_at (kv_table (srv t)) key + zlen runs.
Proof.
  intros Hr. revert t ver. induction Hr as [|r runs [He Hd] Hr IH]; intros t ver Hv Hb Hf; [unfold zlen in Hf; simpl in Hf; lia|].
  unfold zlen in *. rewrite length_cons in *.
  destruct (ts_Put_alone t r key value ver me [key] He) as (t1 & e & E & _ & Hown); [by left|done|lia|lia|].
  cbn [PutAtLeastOnce]. rewrite E. unfold lossless in Hf. rewrite filter_cons in Hf.
  case_decide as Hver.
  - destruct Hown as [Hown Hres].
    assert (version_at (kv_table (srv t1)) key = ver + 1) as Hv1 by (unfold version_at; by rewrite Hown).
    destruct Hres as [-> |[-> Hnd]].
    + eexists t1, _. rewrite next_version_small by lia. split_and!; [done|done|lia..].
    + rewrite next_version_small by lia. rewrite decide_False in Hf by done.
      destruct (IH t1 (ver + 1)) as (t' & ver' & E' & ? & ?); [lia|lia|unfold lossless; lia|]. exists t', ver'. split_and!; [done|done|lia..].
  - destruct Hown as [Hown Hres].
    assert (version_at (kv_table (srv t1)) key = version_at (kv_table (srv t)) key) as Hv1 by (unfold version_at; by rewrite Hown).
    rewrite next_version_small by lia.
    destruct (IH t1 (ver + 1)) as (t' & ver' & E' & ? & ?); [lia|lia| |].
    { unfold lossless. case_decide; simpl in Hf; lia. }
    exists t', ver'. split_and!; [|done|lia..]. by destruct Hres as [-> | ->].
Qed.

(* ------------------------------------------------------------------ *)
(** ** [SpreadPuts] *)

Lemma CheckGet_alone t r key vv keys : elsewhere keys (attempts r) → key ∈ keys → delivers (attempts r) →
  kv_table (srv t) !! key = Some vv →
  ∃ t', CheckGet t r key (Value vv) (Version vv) = (t', Some (Ret tt))
  ∧ ∀ k, k ∈ keys → kv_table (srv t') !! k = kv_table (srv t) !! k.
Proof.
  intros He Hk Hd Hkey. destruct (Get_alone (attempts r) (srv t) key keys He Hk Hd) as (s' & E & Hs').
  rewrite Hkey in E. unfold CheckGet, ts_Get. rewrite E. simpl. eexists. split; [by rewrite decide_False by naive_solver|done].
Qed.

Lemma spread_puts_alone kvs keys : (fst <$> kvs) ⊆ keys → NoDup (fst <$> kvs) → ∀ scripts t,
  (length kvs ≤ length scripts)%nat → Forall (λ sc, elsewhere keys sc ∧ delivers sc) scripts →
  (∀ k, k ∈ fst <$> kvs → kv_table (srv t) !! k = None) →
  ∃ t', spread_puts t kvs scripts = (t', Some (Ret tt))
  ∧ (∀ k, k ∈ keys → k ∉ fst <$> kvs → kv_table (srv t') !! k = kv_table (srv t) !! k)
  ∧ (∀ k v, (k, v) ∈ kvs → kv_table (srv t') !! k = Some {| Value := v; Version := 1 |}).
Proof.
  induction kvs as [|[k v] kvs IH]; intros Hin Hnd scripts t Hlen Hsc Hempty.
  - exists t. destruct scripts; (split; [done|]; split; [done|]; set_solver).
  - rewrite fmap_cons in *. simpl in *. apply NoDup_cons in Hnd as [Hk Hnd].
    destruct scripts as [|sc scripts]; [simpl in Hlen; lia|]. inv Hsc as [|? ? [He Hd] Hsc'].
    destruct (Put_returns (srv t) sc k v 0 Hd) as (s' & h & e & E).
    assert (version_at (kv_table (srv t)) k = 0) as Hv0 by (unfold version_at; by rewrite Hempty by (by left)).
    apply (Put_alone sc (srv t) k v 0 keys) in E as HP; [|done|set_solver|lia|done]. destruct HP as [Ho Hown].
    rewrite Hv0, decide_True in Hown by done. destruct Hown as [Hown _].
    cbn [spread_puts]. rewrite E.
    destruct (IH ltac:(set_solver) Hnd scripts {| srv := s'; log := log t |}) as (t' & E' & Hsame & Hall).
    + simpl in Hlen. lia.
    + done.
    + intros k' Hk'. simpl. rewrite Ho; [apply Hempty; by right|set_solver|congruence].
    + exists t'. split; [done|]. simpl in *. split.
      * intros k' Hin' Hk'. apply not_elem_of_cons in Hk' as [Hne Hk']. rewrite Hsame by done. by apply Ho.
      * intros k' v' [[= -> ->]|Hkv]%elem_of_cons; [|by apply Hall]. rewrite Hsame by set_solver. by rewrite Hown.
Qed.

Lemma spread_checks_alone kvs keys : (fst <$> kvs) ⊆ keys → ∀ runs t,
  (length kvs ≤ length runs)%nat → Forall (λ r, elsewhere keys (attempts r) ∧ delivers (attempts r)) runs →
  (∀ k v, (k, v) ∈ kvs → kv_table (srv t) !! k = Some {| Value := v; Version := 1 |}) →
  ∃ t', spread_checks t kvs runs = (t', Some (Ret tt))
  ∧ ∀ k, k ∈ keys → kv_table (srv t') !! k = kv_table (srv t) !! k.
Proof.
  induction kvs as [|[k v] kvs IH]; intros Hin runs t Hlen Hr Hall.
  - exists t. by destruct runs.
  - rewrite fmap_cons in Hin. simpl in *. destruct runs as [|r runs]; [simpl in Hlen; lia|]. inv Hr as [|? ? [He Hd] Hr'].
    destruct (CheckGet_alone t r k {| Value := v; Version := 1 |} keys He) as (t1 & E1 & Hs1);
      [set_solver|done|apply Hall; by left|].
    cbn [spread_checks]. simpl in E1. rewrite E1.
    destruct (IH ltac:(set_solver) runs t1) as (t' & E' & Hs'); [simpl in Hlen; lia|done| |].
    + intros k' v' Hkv. rewrite Hs1; [apply Hall; by right|].
      apply Hin. right. apply list_elem_of_fmap. by exists (k', v').
    + exists t'. split; [done|]. intros k' Hk'. rewrite Hs' by done. by apply Hs1.
Qed.
End lib.
Arguments test : clear implicits.

(** the keys differ *)
Lemma MakeKeys_NoDup n : Z.of_nat n < 2 ^ 63 → NoDup (MakeKeys n).
Proof.
  intros Hn. apply NoDup_fmap_2_strong; [|apply NoDup_seq]. intros i j Hi%elem_of_seq Hj%elem_of_seq E.
  unfold make_key in E. apply (f_equal to_chars) in E. rewrite !to_of_chars in E. injection E as E.
  apply (f_equal ParseInt) in E. rewrite !ParseInt_Itoa in E by (apply bool_decide_eq_true; lia). injection E as E. lia.
Qed.

(** [SpreadPuts] on fresh keys passes over any network that lets one attempt
    of every call through, while others use other keys: no check ends the test,
    and every key has its value, at version 1. *)
Theorem spread_puts_pass {S : Type} `{KVStore S} (t : test S) n va scripts runs :
  Z.of_nat n < 2 ^ 63 → length va = n → (n ≤ length scripts)%nat → (n ≤ length runs)%nat →
  Forall (λ sc, elsewhere (MakeKeys n) sc ∧ delivers sc) scripts →
  Forall (λ r, elsewhere (MakeKeys n) (attempts r) ∧ delivers (attempts r)) runs →
  (∀ k, k ∈ MakeKeys n → kv_table (srv t) !! k = None) →
  ∃ t', SpreadPutsSize t n va scripts runs = (t', Some (Ret (MakeKeys n, va)))
  ∧ ∀ i k v, MakeKeys n !! i = Some k → va !! i = Some v → kv_table (srv t') !! k = Some {| Value := v; Version := 1 |}.
Proof.
  intros Hn Hva Hsc Hr Hes Her Hempty. assert (length (MakeKeys n) = n) as Hlen by (unfold MakeKeys; by rewrite length_fmap, length_seq).
  assert (fst <$> zip (MakeKeys n) va = MakeKeys n) as Hfst by (apply fst_zip; lia).
  assert (length (zip (MakeKeys n) va) = n) as Hz by (rewrite length_zip_with; lia).
  destruct (spread_puts_alone (zip (MakeKeys n) va) (MakeKeys n)) with (scripts := scripts) (t := t)
    as (t1 & E1 & _ & Hall); [by rewrite Hfst|rewrite Hfst; by apply MakeKeys_NoDup|lia|done|by rewrite Hfst|].
  destruct (spread_checks_alone (zip (MakeKeys n) va) (MakeKeys n)) with (runs := runs) (t := t1)
    as (t2 & E2 & Hsame); [by rewrite Hfst|lia|done|done|].
  exists t2. split; [unfold SpreadPutsSize; by rewrite E1, E2|]. intros i k v Hk Hv.
  rewrite Hsame by (by eapply list_elem_of_lookup_2). apply Hall. eapply list_elem_of_lookup_2.
  rewrite lookup_zip_with. rewrite Hk. simpl. by rewrite Hv.
Qed.

(* ------------------------------------------------------------------ *)
(** ** Concrete runs *)

Definition fresh_test : test KvSrv.KVServer := {| srv := KvSrv.MakeKVServer; log := {| operations := [] |} |}.

Definition other_put : kv_op := put_op "other" "x" 0.

(** the reply of the first put is lost, so the value is put twice *)
Definition lossy_runs : list call_run :=
  [{| started := 1; attempts := [([], RepLost); ([other_put], Delivered)]; ended := 3 |};
   {| started := 4; attempts := [([], Delivered)]; ended := 5 |}].

Lemma put_at_least_once_lands_witness : ∃ t' ver',
  PutAtLeastOnce fresh_test lossy_runs "1" "13" 0 (-1) = (t', Some (Ret ver'))
  ∧ kv_table (srv t') !! "1"%string = Some {| Value := "13"; Version := ver' |} ∧ ver' = 2
  ∧ zlen (operations (log t')) = 2.
Proof.
  destruct (put_at_least_once_lands fresh_test lossy_runs "1" "13" 0 (-1)) as (t' & ver' & E & Hk & Hv).
  - repeat constructor; try done; unfold op_key; simpl; set_solver.
  - done.
  - done.
  - done.
  - exists t', ver'. split; [exact E|]. split; [exact Hk|]. vm_compute in E. injection E as <- <-. done.
Defined.

Definition lossy_scripts : list (list (list kv_op * fate)) :=
  [[([], RepLost); ([other_put], ReqLost); ([], Delivered)]; [([], ReqLost); ([], Delivered)]].

Lemma spread_puts_pass_witness : ∃ t',
  SpreadPutsSize fresh_test 2 ["a"; "b"]%string lossy_scripts lossy_runs = (t', Some (Ret (["k0"; "k1"], ["a"; "b"])))%string
  ∧ kv_table (srv t') !! "k1"%string = Some {| Value := "b"; Version := 1 |}.
Proof.
  destruct (spread_puts_pass fresh_test 2 ["a"; "b"]%string lossy_scripts lossy_runs) as (t' & E & Hall); try done; try lia.
  - repeat constructor; try done; unfold op_key; simpl; set_solver.
  - repeat constructor; try done; unfold op_key; simpl; set_solver.
  - exists t'. split; [exact E|]. by apply (Hall 1%nat).
Defined.
