(* ===== verification/ShardCfg.v ===== *)
(** * Shard configurations (shardkv1/shardcfg/shardcfg.go)

    Which shard a key belongs to, which group serves a shard, and how shards are
    redistributed when groups join and leave. *)

From S2P Require Import Prelude.
Local Open Scope Z_scope.

Definition NShards : Z := 12.
Definition NumFirst : Z := 1.
Definition Gid1 : Z := 1.

Definition Key2Shard (key : string) : Z := fnv32a 2166136261 key `mod` NShards.

Lemma Key2Shard_range key : 0 ≤ Key2Shard key < NShards.
Proof. by apply Z.mod_pos_bound. Qed.

(** [Shards] is the array of [NShards] group ids, [Groups] the servers of each
    group *)
Record ShardConfig := { Num : Z; Shards : list Z; Groups : gmap Z (list string) }.

Definition MakeShardConfig : ShardConfig :=
  {| Num := 0; Shards := replicate (Z.to_nat NShards) 0; Groups := ∅ |}.

Definition Copy (cfg : ShardConfig) : ShardConfig :=
  {| Num := Num cfg; Shards := Shards cfg; Groups := Groups cfg |}.

Definition set_Shards (l : list Z) (c : ShardConfig) : ShardConfig :=
  {| Num := Num c; Shards := l; Groups := Groups c |}.

(** number of shards of a group *)
Definition count (g : Z) (shards : list Z) : Z := zlen (filter (λ x, x = g) shards).

(** the group ids in increasing order *)
Definition gids (c : ShardConfig) : list Z := merge_sort Z.le (elements (dom (Groups c))).

(** the loop over the sorted ids: most group, its count, least group, its count *)
Definition analyze_step (shards : list Z) (acc : Z * Z * Z * Z) (gid : Z) : Z * Z * Z * Z :=
  let '(mostGroup, mostShardsNum, leastGroup, leastShardsNum) := acc in
  let '(leastGroup, leastShardsNum) :=
    if decide (count gid shards < leastShardsNum) then (gid, count gid shards)
    else (leastGroup, leastShardsNum) in
  if decide (count gid shards > mostShardsNum)
  then (gid, count gid shards, leastGroup, leastShardsNum)
  else (mostGroup, mostShardsNum, leastGroup, leastShardsNum).

Definition analyze (c : ShardConfig) : Z * Z * Z * Z :=
  foldl (analyze_step (Shards c)) (-1, -1, -1, 257) (gids c).

Definition least (c : ShardConfig) : Z := let '(_, _, leastGroup, _) := analyze c in leastGroup.

(** assign the shards, from index [s] on, whose group is gone *)
Fixpoint assign_from (s n : nat) (c : ShardConfig) : ShardConfig :=
  match n with
  | O => c
  | S n' =>
      let c' := match Shards c !! s with
                | Some gid =>
                    if decide (gid ∈ dom (Groups c)) then c
                    else set_Shards (<[s := least c]> (Shards c)) c
                | None => c
                end in
      assign_from (S s) n' c'
  end.

(** the first shard of [from] goes to [to] *)
Fixpoint move_first (from to : Z) (shards : list Z) : list Z :=
  match shards with
  | [] => []
  | g :: shards' => if decide (g = from) then to :: shards' else g :: move_first from to shards'
  end.

(** the balancing loop; [fuel] bounds its iterations *)
Fixpoint balance_loop (fuel : nat) (c : ShardConfig) : ShardConfig :=
  match fuel with
  | O => c
  | S fuel' =>
      let '(mostGroup, mostShardsNum, leastGroup, leastShardsNum) := analyze c in
      if decide (mostShardsNum < leastShardsNum + 2) then c
      else balance_loop fuel' (set_Shards (move_first mostGroup leastGroup (Shards c)) c)
  end.

(** each iteration lowers the sum of the squared counts, at most
    [NShards * NShards] *)
Definition balance_fuel : nat := Z.to_nat (NShards * NShards).

Definition Rebalance (c : ShardConfig) : ShardConfig :=
  if decide (Groups c = ∅) then set_Shards ((λ _, 0) <$> Shards c) c
  else balance_loop balance_fuel (assign_from 0 (length (Shards c)) c).

(** [Join]: the map of new groups in the order Go iterates it; [false] as soon
    as a group exists already (groups added before it stay) *)
Fixpoint join_loop (servers : list (Z * list string)) (changed : bool) (c : ShardConfig)
    : outcome (bool * bool * ShardConfig) :=
  match servers with
  | [] => Ret (true, changed, c)
  | (gid, srvs) :: servers' =>
      if decide (gid ∈ dom (Groups c)) then Ret (false, changed, c)
      else if decide (Exists (λ s, s ∈ srvs) (concat (snd <$> map_to_list (Groups c)))) then Fatal
      else join_loop servers' true {| Num := Num c; Shards := Shards c; Groups := <[gid := srvs]> (Groups c) |}
  end.

Definition Join (servers : list (Z * list string)) (c : ShardConfig) : outcome (bool * ShardConfig) :=
  '(ok, changed, c') ← join_loop servers false c;
  if negb ok then Ret (false, c')
  else if negb changed then Fatal
  else Ret (true, {| Num := Num c' + 1; Shards := Shards c'; Groups := Groups c' |}).

Fixpoint leave_loop (gs : list Z) (changed : bool) (c : ShardConfig) : bool * bool * ShardConfig :=
  match gs with
  | [] => (true, changed, c)
  | gid :: gs' =>
      if decide (gid ∈ dom (Groups c))
      then leave_loop gs' true {| Num := Num c; Shards := Shards c; Groups := delete gid (Groups c) |}
      else (false, changed, c)
  end.

Definition Leave (gs : list Z) (c : ShardConfig) : outcome (bool * ShardConfig) :=
  let '(ok, changed, c') := leave_loop gs false c in
  if negb ok then Ret (false, c')
  else if negb changed then Fatal
  else Ret (true, {| Num := Num c' + 1; Shards := Shards c'; Groups := Groups c' |}).

Definition JoinBalance (servers : list (Z * list string)) (c : ShardConfig) : outcome (bool * ShardConfig) :=
  '(ok, c') ← Join servers c;
  if ok : bool then Ret (true, Rebalance c') else Ret (false, c').

Definition LeaveBalance (gs : list Z) (c : ShardConfig) : outcome (bool * ShardConfig) :=
  '(ok, c') ← Leave gs c;
  if ok : bool then Ret (true, Rebalance c') else Ret (false, c').

(** [cfg.Shards[sh]] panics outside the array *)
Definition GidServers (sh : Z) (c : ShardConfig) : outcome (Z * option (list string)) :=
  gid ← go_index (Shards c) sh; Ret (gid, Groups c !! gid).

Definition IsMember (gid : Z) (c : ShardConfig) : bool := bool_decide (gid ∈ Shards c).

(** [CheckConfig]: [false] where it calls [t.Fatalf] *)
Definition count_max (c : ShardConfig) : Z :=
  foldr (λ g m, Z.max (count g (Shards c)) m) 0 (elements (dom (Groups c))).
Definition count_min (c : ShardConfig) : Z :=
  foldr (λ g m, Z.min (count g (Shards c)) m) 257 (elements (dom (Groups c))).

Definition CheckConfig (groups : list Z) (c : ShardConfig) : bool :=
  bool_decide (size (Groups c) = length groups)
  && forallb (λ gid, bool_decide (gid ∈ dom (Groups c))) groups
  && (bool_decide (groups = []) || forallb (λ gid, bool_decide (gid ∈ dom (Groups c))) (Shards c))
  && bool_decide (count_max c ≤ count_min c + 1).

(** ** [analyze] finds the extremes *)

(** the accumulator after the groups [gs] *)
Definition extremes (shards : list Z) (gs : list Z) (acc : Z * Z * Z * Z) : Prop :=
  let '(mg, mn, lg, ln) := acc in
  (gs = [] ∧ acc = (-1, -1, -1, 257))
  ∨ (mg ∈ gs ∧ mn = count mg shards ∧ lg ∈ gs ∧ ln = count lg shards
     ∧ ∀ g, g ∈ gs → ln ≤ count g shards ≤ mn).

Lemma count_range g shards : 0 ≤ count g shards ≤ zlen shards.
Proof.
  unfold count, zlen. pose proof (length_filter (λ x, x = g) shards). lia.
Qed.

Lemma analyze_step_extremes shards gs acc g :
  zlen shards < 257 → extremes shards gs acc → extremes shards (gs ++ [g]) (analyze_step shards acc g).
Proof.
  intros Hlen. pose proof (count_range g shards). destruct acc as [[[mg mn] lg] ln].
  unfold extremes at 1. intros [[-> [= -> -> -> ->]]|(Hmg & Hmn & Hlg & Hln & Hall)]; unfold analyze_step.
  - rewrite decide_True by lia. rewrite decide_True by lia. right. simpl.
    split_and!; try done; try (by left). intros g' ->%list_elem_of_singleton. lia.
  - pose proof (Hall mg Hmg) as Hm. pose proof (Hall lg Hlg) as Hl.
    destruct (decide (count g shards < ln)); destruct (decide (count g shards > mn)); right;
      setoid_rewrite elem_of_app; setoid_rewrite list_elem_of_singleton;
      (split_and!; [tauto|done|tauto|done|]); intros g' [Hg'| ->];
      try (specialize (Hall g' Hg')); lia.
Qed.

Lemma foldl_extremes shards gs gs0 acc :
  zlen shards < 257 → extremes shards gs0 acc →
  extremes shards (gs0 ++ gs) (foldl (analyze_step shards) acc gs).
Proof.
  intros Hlen. revert gs0 acc. induction gs as [|g gs IH]; intros gs0 acc H0; simpl; [by rewrite app_nil_r|].
  replace (gs0 ++ g :: gs) with ((gs0 ++ [g]) ++ gs) by (by rewrite <-app_assoc).
  apply IH. by apply analyze_step_extremes.
Qed.

Lemma gids_elem c g : g ∈ gids c ↔ g ∈ dom (Groups c).
Proof. unfold gids. rewrite merge_sort_Permutation. by rewrite elem_of_elements. Qed.

Lemma gids_NoDup c : NoDup (gids c).
Proof. unfold gids. rewrite merge_sort_Permutation. apply NoDup_elements. Qed.

Lemma analyze_spec c :
  zlen (Shards c) < 257 → Groups c ≠ ∅ →
  let '(mg, mn, lg, ln) := analyze c in
  mg ∈ dom (Groups c) ∧ mn = count mg (Shards c) ∧ lg ∈ dom (Groups c) ∧ ln = count lg (Shards c)
  ∧ ∀ g, g ∈ dom (Groups c) → ln ≤ count g (Shards c) ≤ mn.
Proof.
  intros Hlen Hne.
  assert (extremes (Shards c) (gids c) (analyze c)) as He.
  { apply (foldl_extremes _ _ []); [done|by left]. }
  destruct (analyze c) as [[[mg mn] lg] ln].
  destruct He as [[Hnil _]|(Hmg & Hmn & Hlg & Hln & Hall)].
  - exfalso. apply Hne. apply map_eq. intros g. rewrite lookup_empty.
    apply not_elem_of_dom. rewrite <-gids_elem, Hnil. apply not_elem_of_nil.
  - rewrite <-!gids_elem. split_and!; try done. intros g Hg. apply Hall. by apply gids_elem.
Qed.

(** ** Assigning the orphaned shards *)

Lemma set_Shards_frame l c : Groups (set_Shards l c) = Groups c ∧ Num (set_Shards l c) = Num c.
Proof. done. Qed.

Lemma assign_from_spec s n c :
  zlen (Shards c) < 257 → Groups c ≠ ∅ → (s + n)%nat = length (Shards c) →
  (∀ i g, (i < s)%nat → Shards c !! i = Some g → g ∈ dom (Groups c)) →
  let c' := assign_from s n c in
  Groups c' = Groups c ∧ Num c' = Num c ∧ length (Shards c') = length (Shards c)
  ∧ (∀ g, g ∈ Shards c' → g ∈ dom (Groups c))
  ∧ (∀ i g, Shards c !! i = Some g → g ∈ dom (Groups c) → Shards c' !! i = Some g).
Proof.
  intros Hlen Hne. revert s c Hlen Hne. induction n as [|n IH]; intros s c Hlen Hne Hn Hpre; simpl.
  { split_and!; try done. intros g [i Hi]%list_elem_of_lookup_1. apply (Hpre i g); [|done].
    apply lookup_lt_Some in Hi. lia. }
  destruct (lookup_lt_is_Some_2 (Shards c) s) as [gid Hs]; [lia|]. rewrite Hs.
  destruct (decide (gid ∈ dom (Groups c))) as [Hin|Hout].
  - apply IH; [done|done|lia|]. intros i g Hi Hg. destruct (decide (i = s)) as [->|]; [congruence|].
    apply (Hpre i g); [lia|done].
  - assert (least c ∈ dom (Groups c)) as Hleast.
    { unfold least. pose proof (analyze_spec c Hlen Hne) as Ha. destruct (analyze c) as [[[mg mn] lg] ln].
      by destruct Ha as (_ & _ & ? & _). }
    destruct (IH (S s) (set_Shards (<[s := least c]> (Shards c)) c)) as (HG & HN & HL & Hall & Hkeep).
    + simpl. unfold zlen in *. by rewrite length_insert.
    + done.
    + simpl. rewrite length_insert. lia.
    + simpl. intros i g Hi Hg. apply list_lookup_insert_Some in Hg as [(-> & <- & _)|[Hne' Hg]]; [done|].
      apply (Hpre i g); [lia|done].
    + simpl in *. split_and!; try done.
      * by rewrite HL, length_insert.
      * intros i g Hi Hg. apply Hkeep; [|done]. rewrite list_lookup_insert_ne; [done|].
        intros ->. congruence.
Qed.

(** ** Balancing *)

Lemma count_cons g x l : count g (x :: l) = (if decide (x = g) then 1 else 0) + count g l.
Proof. unfold count, zlen. rewrite filter_cons. case_decide; simpl; lia. Qed.

Lemma count_pos g l : 0 < count g l → g ∈ l.
Proof.
  induction l as [|x l IH]; [done|]. rewrite count_cons. case_decide as Hx; [subst; by left|].
  intros. right. apply IH. lia.
Qed.

Lemma move_first_spec from to l :
  from ∈ l → from ≠ to →
  length (move_first from to l) = length l
  ∧ (∀ g, g ∈ move_first from to l → g ∈ l ∨ g = to)
  ∧ ∀ g, count g (move_first from to l)
         = count g l + (if decide (g = from) then -1 else 0) + (if decide (g = to) then 1 else 0).
Proof.
  intros Hin Hne. induction l as [|x l IH]; [by apply not_elem_of_nil in Hin|]. simpl.
  destruct (decide (x = from)) as [->|Hx].
  - split_and!; [done| |].
    + intros g [->|?]%elem_of_cons; [by right|left; by right].
    + intros g. rewrite !count_cons. repeat case_decide; simplify_eq; lia.
  - apply elem_of_cons in Hin as [?|Hin]; [done|]. destruct (IH Hin) as (Hl & Hm & Hc). split_and!.
    + simpl. by rewrite Hl.
    + intros g [->|Hg]%elem_of_cons; [left; by left|]. destruct (Hm g Hg); [left; by right|by right].
    + intros g. rewrite !count_cons, Hc. lia.
Qed.

Definition sum_over (f : Z → Z) (gs : list Z) : Z := foldr (λ g z, f g + z) 0 gs.

Lemma sum_over_add f h gs : sum_over (λ g, f g + h g) gs = sum_over f gs + sum_over h gs.
Proof. induction gs as [|g gs IH]; simpl; [done|]. rewrite IH. lia. Qed.

Lemma sum_over_mul a f gs : sum_over (λ g, a * f g) gs = a * sum_over f gs.
Proof. induction gs as [|g gs IH]; simpl; [lia|]. rewrite IH. lia. Qed.

Lemma sum_over_ext f h gs : (∀ g, g ∈ gs → f g = h g) → sum_over f gs = sum_over h gs.
Proof.
  induction gs as [|g gs IH]; intros He; simpl; [done|].
  rewrite (He g) by (by left). rewrite IH; [done|]. intros; apply He. by right.
Qed.

Lemma sum_over_le f h gs : (∀ g, g ∈ gs → f g ≤ h g) → sum_over f gs ≤ sum_over h gs.
Proof.
  induction gs as [|g gs IH]; intros He; simpl; [done|].
  pose proof (He g ltac:(by left)). assert (sum_over f gs ≤ sum_over h gs); [|lia].
  apply IH. intros; apply He. by right.
Qed.

Lemma sum_over_at a d gs :
  NoDup gs → sum_over (λ g, if decide (g = a) then d else 0) gs = if decide (a ∈ gs) then d else 0.
Proof.
  intros Hnd. induction Hnd as [|g gs Hg Hnd IH]; simpl; [done|]. rewrite IH.
  destruct (decide (g = a)) as [->|Hne].
  - rewrite decide_False by done. rewrite decide_True by (by left). lia.
  - destruct (decide (a ∈ gs)) as [Ha|Ha]; [rewrite decide_True by (by right); lia|].
    rewrite decide_False; [lia|]. by intros [->|?]%elem_of_cons.
Qed.

(** every shard is counted for at most one group *)
Lemma sum_count_le gs l : NoDup gs → sum_over (λ g, count g l) gs ≤ zlen l.
Proof.
  intros Hnd. induction l as [|x l IH].
  - assert (sum_over (λ g, count g []) gs = 0) as ->; [|done]. clear. induction gs; simpl; [done|]. by rewrite IHgs.
  - rewrite (sum_over_ext _ (λ g, (if decide (g = x) then 1 else 0) + count g l)).
    + rewrite sum_over_add, sum_over_at by done. unfold zlen in *. simpl length. case_decide; lia.
    + intros g _. rewrite count_cons. repeat case_decide; congruence || lia.
Qed.

(** the measure of the balancing loop *)
Definition spread (c : ShardConfig) : Z := sum_over (λ g, count g (Shards c) * count g (Shards c)) (gids c).

Lemma spread_bound c : 0 ≤ spread c ≤ zlen (Shards c) * zlen (Shards c).
Proof.
  unfold spread. split.
  - induction (gids c); simpl; [done|]. nia.
  - transitivity (sum_over (λ g, zlen (Shards c) * count g (Shards c)) (gids c)).
    + apply sum_over_le. intros g _. pose proof (count_range g (Shards c)). nia.
    + pose proof (sum_count_le (gids c) (Shards c) (gids_NoDup c)) as Hs.
      assert (sum_over (λ g, zlen (Shards c) * count g (Shards c)) (gids c)
              = zlen (Shards c) * sum_over (λ g, count g (Shards c)) (gids c)) as ->.
      { apply sum_over_mul. }
      unfold zlen in *. nia.
Qed.

Lemma spread_decreases c mg lg :
  mg ∈ dom (Groups c) → lg ∈ dom (Groups c) → count lg (Shards c) + 2 ≤ count mg (Shards c) →
  spread (set_Shards (move_first mg lg (Shards c)) c) ≤ spread c - 2.
Proof.
  intros Hmg Hlg Hgap. assert (mg ≠ lg) as Hne by (intros ->; lia).
  pose proof (count_range lg (Shards c)).
  destruct (move_first_spec mg lg (Shards c)) as (_ & _ & Hc); [apply count_pos; lia|done|].
  unfold spread. change (gids (set_Shards _ c)) with (gids c). simpl.
  set (m := count mg (Shards c)) in *. set (l := count lg (Shards c)) in *.
  rewrite (sum_over_ext _ (λ g, count g (Shards c) * count g (Shards c)
    + ((if decide (g = mg) then 1 - 2 * m else 0) + (if decide (g = lg) then 1 + 2 * l else 0)))).
  - rewrite !sum_over_add, !sum_over_at by apply gids_NoDup.
    rewrite !decide_True by (by apply gids_elem). lia.
  - intros g _. rewrite Hc. repeat case_decide; simplify_eq; subst m l; lia.
Qed.

Definition balanced (c : ShardConfig) : Prop :=
  ∀ g1 g2, g1 ∈ dom (Groups c) → g2 ∈ dom (Groups c) → count g1 (Shards c) ≤ count g2 (Shards c) + 1.

Lemma balance_loop_spec fuel c :
  zlen (Shards c) < 257 → Groups c ≠ ∅ → (∀ g, g ∈ Shards c → g ∈ dom (Groups c)) →
  spread c + 2 ≤ 2 * Z.of_nat fuel →
  let c' := balance_loop fuel c in
  Groups c' = Groups c ∧ Num c' = Num c ∧ length (Shards c') = length (Shards c)
  ∧ (∀ g, g ∈ Shards c' → g ∈ dom (Groups c)) ∧ balanced c'.
Proof.
  revert c. induction fuel as [|fuel IH]; intros c Hlen Hne Hall Hfuel; simpl.
  { pose proof (spread_bound c). lia. }
  pose proof (analyze_spec c Hlen Hne) as Ha. destruct (analyze c) as [[[mg mn] lg] ln].
  destruct Ha as (Hmg & -> & Hlg & -> & Hext).
  destruct (decide (count mg (Shards c) < count lg (Shards c) + 2)) as [Hdone|Hmore].
  - split_and!; try done. intros g1 g2 H1 H2. pose proof (Hext g1 H1). pose proof (Hext g2 H2). lia.
  - pose proof (count_range lg (Shards c)).
    assert (mg ≠ lg) as Hml by (intros ->; lia).
    destruct (move_first_spec mg lg (Shards c)) as (HL & Hm & _); [apply count_pos; lia|done|].
    pose proof (spread_decreases c mg lg Hmg Hlg ltac:(lia)) as Hdec.
    destruct (IH (set_Shards (move_first mg lg (Shards c)) c)) as (HG & HN & HL' & Hall' & Hb).
    + simpl. unfold zlen in *. by rewrite HL.
    + done.
    + simpl. intros g Hg. destruct (Hm g Hg) as [| ->]; auto.
    + lia.
    + simpl in *. split_and!; [done|done|by rewrite HL', HL|done|done].
Qed.

Lemma Rebalance_spec c :
  zlen (Shards c) = NShards → Groups c ≠ ∅ →
  let c' := Rebalance c in
  Groups c' = Groups c ∧ Num c' = Num c ∧ length (Shards c') = length (Shards c)
  ∧ (∀ g, g ∈ Shards c' → g ∈ dom (Groups c)) ∧ balanced c'.
Proof.
  unfold NShards. intros Hlen Hne. unfold Rebalance. rewrite decide_False by done.
  destruct (assign_from_spec 0 (length (Shards c)) c) as (HG & HN & HL & Hall & _); [lia|done|done|lia|].
  set (c1 := assign_from _ _ c) in *.
  assert (zlen (Shards c1) = 12) as Hlen1 by (unfold zlen in *; by rewrite HL).
  destruct (balance_loop_spec balance_fuel c1) as (HG' & HN' & HL' & Hall' & Hb).
  - lia.
  - by rewrite HG.
  - by rewrite HG.
  - pose proof (spread_bound c1). rewrite Hlen1 in *. change (Z.of_nat balance_fuel) with 144. lia.
  - split_and!; [congruence..|by rewrite <-HG|done].
Qed.

(** ** [CheckConfig] *)

Lemma count_max_le c m :
  0 ≤ m → (∀ g, g ∈ dom (Groups c) → count g (Shards c) ≤ m) → count_max c ≤ m.
Proof.
  intros H0 Hm. unfold count_max.
  assert (∀ g, g ∈ elements (dom (Groups c)) → count g (Shards c) ≤ m) as Hall.
  { intros g Hg%elem_of_elements. by apply Hm. }
  revert Hall. induction (elements (dom (Groups c))) as [|g gs IH]; intros Hall; simpl; [done|].
  pose proof (Hall g ltac:(by left)). assert (foldr (λ g m, Z.max (count g (Shards c)) m) 0 gs ≤ m); [|lia].
  apply IH. intros; apply Hall. by right.
Qed.

Lemma count_min_ge c m :
  m ≤ 257 → (∀ g, g ∈ dom (Groups c) → m ≤ count g (Shards c)) → m ≤ count_min c.
Proof.
  intros H0 Hm. unfold count_min.
  assert (∀ g, g ∈ elements (dom (Groups c)) → m ≤ count g (Shards c)) as Hall.
  { intros g Hg%elem_of_elements. by apply Hm. }
  revert Hall. induction (elements (dom (Groups c))) as [|g gs IH]; intros Hall; simpl; [done|].
  pose proof (Hall g ltac:(by left)). assert (m ≤ foldr (λ g m, Z.min (count g (Shards c)) m) 257 gs); [|lia].
  apply IH. intros; apply Hall. by right.
Qed.

Lemma balanced_max_min c :
  zlen (Shards c) = NShards → balanced c → count_max c ≤ count_min c + 1.
Proof.
  unfold NShards. intros Hlen Hb. apply count_max_le.
  - assert (-1 ≤ count_min c); [|lia]. apply count_min_ge; [lia|]. intros g _.
    pose proof (count_range g (Shards c)). lia.
  - intros g Hg. assert (count g (Shards c) - 1 ≤ count_min c); [|lia].
    pose proof (count_range g (Shards c)). apply count_min_ge; [lia|].
    intros g' Hg'. pose proof (Hb g g' Hg Hg'). lia.
Qed.

Lemma CheckConfig_balanced c :
  zlen (Shards c) = NShards → balanced c →
  (∀ g, g ∈ Shards c → g ∈ dom (Groups c)) → CheckConfig (elements (dom (Groups c))) c = true.
Proof.
  intros Hlen Hb Hall. unfold CheckConfig.
  rewrite bool_decide_true by (by rewrite <-size_dom).
  rewrite (bool_decide_true (_ ≤ _)) by (by apply balanced_max_min).
  rewrite andb_true_r. simpl. apply andb_true_iff. split.
  - apply forallb_forall. intros g Hg%list_elem_of_In%elem_of_elements. by apply bool_decide_true.
  - apply orb_true_iff. right. apply forallb_forall. intros g Hg%list_elem_of_In.
    apply bool_decide_true. auto.
Qed.

(** C34. Rebalancing always ends with a valid, balanced configuration: with at
    least one group, every shard is served by a member group, the groups' loads
    differ by at most one (so the loop has stopped by its own test, within its
    fuel), and the groups and the number are unchanged; without groups every
    shard is unassigned. *)
Theorem Rebalance_valid c :
  zlen (Shards c) = NShards →
  let c' := Rebalance c in
  Groups c' = Groups c ∧ Num c' = Num c ∧ zlen (Shards c') = NShards
  ∧ if decide (Groups c = ∅) then ∀ g, g ∈ Shards c' → g = 0
    else (∀ g, g ∈ Shards c' → g ∈ dom (Groups c)) ∧ balanced c'
         ∧ (let '(_, mostShardsNum, _, leastShardsNum) := analyze c' in mostShardsNum < leastShardsNum + 2).
Proof.
  intros Hlen c'. subst c'. destruct (decide (Groups c = ∅)) as [He|Hne].
  - unfold Rebalance. rewrite decide_True by done. simpl. split_and!; [done..| |].
    + unfold zlen in *. by rewrite length_fmap.
    + intros g (x & -> & _)%list_elem_of_fmap. done.
  - destruct (Rebalance_spec c Hlen Hne) as (HG & HN & HL & Hall & Hb).
    assert (zlen (Shards (Rebalance c)) = NShards) as Hlen' by (unfold zlen in *; congruence).
    split_and!; [done..|]. pose proof (analyze_spec (Rebalance c)) as Ha.
    destruct (analyze (Rebalance c)) as [[[mg mn] lg] ln].
    destruct Ha as (Hmg & -> & Hlg & -> & _); [unfold NShards in *; lia|by rewrite HG|].
    pose proof (Hb mg lg Hmg Hlg). lia.
Qed.

Lemma join_loop_spec servers ch c ok ch' c' :
  join_loop servers ch c = Ret (ok, ch', c') →
  Num c' = Num c ∧ Shards c' = Shards c
  ∧ (ok = true → ∀ g, g ∈ dom (Groups c') ↔ g ∈ dom (Groups c) ∨ g ∈ fst <$> servers)
  ∧ (ok = true → ch' = ch || bool_decide (servers ≠ [])).
Proof.
  revert ch c. induction servers as [|[gid srvs] servers IH]; intros ch c E; simpl in E.
  { injection E as <- <- <-. split_and!; try done.
    - intros _ g. set_solver.
    - intros _. by rewrite orb_false_r. }
  destruct (decide _); [injection E as <- <- <-; done|]. destruct (decide _); [done|].
  destruct (IH _ _ E) as (HN & HS & HG & Hch). simpl in *. split_and!; [done|done| |].
  - intros Hok g. rewrite (HG Hok g). set_solver.
  - intros Hok. rewrite (Hch Hok). by rewrite orb_true_r.
Qed.

Lemma leave_loop_spec gs ch c ok ch' c' :
  leave_loop gs ch c = (ok, ch', c') →
  Num c' = Num c ∧ Shards c' = Shards c
  ∧ (ok = true → ∀ g, g ∈ dom (Groups c') ↔ g ∈ dom (Groups c) ∧ g ∉ gs)
  ∧ (ok = true → ch' = ch || bool_decide (gs ≠ [])).
Proof.
  revert ch c. induction gs as [|gid gs IH]; intros ch c E; simpl in E.
  { injection E as <- <- <-. split_and!; try done.
    - intros _ g. set_solver.
    - intros _. by rewrite orb_false_r. }
  destruct (decide _); [|injection E as <- <- <-; done].
  destruct (IH _ _ E) as (HN & HS & HG & Hch). simpl in *. split_and!; [done|done| |].
  - intros Hok g. rewrite (HG Hok g). set_solver.
  - intros Hok. rewrite (Hch Hok). by rewrite orb_true_r.
Qed.

Lemma Rebalance_checks c :
  zlen (Shards c) = NShards → Groups c ≠ ∅ →
  CheckConfig (elements (dom (Groups c))) (Rebalance c) = true.
Proof.
  intros Hlen Hne. destruct (Rebalance_spec c Hlen Hne) as (HG & _ & HL & Hall & Hb).
  rewrite <-HG. apply CheckConfig_balanced; [unfold zlen in *; congruence|done|by rewrite HG].
Qed.

(** C35. [JoinBalance] and [LeaveBalance] produce configurations that pass
    [CheckConfig]: when they report a change, the number has grown by one, the
    groups are the old ones with the new ones added or the given ones removed,
    and if any group is left the check of the new configuration succeeds. *)
Theorem JoinLeaveBalance_checked c :
  zlen (Shards c) = NShards →
  (∀ servers c', JoinBalance servers c = Ret (true, c') →
     Num c' = Num c + 1 ∧ (∀ g, g ∈ dom (Groups c') ↔ g ∈ dom (Groups c) ∨ g ∈ fst <$> servers)
     ∧ CheckConfig (elements (dom (Groups c'))) c' = true)
  ∧ (∀ gs c', LeaveBalance gs c = Ret (true, c') →
     Num c' = Num c + 1 ∧ (∀ g, g ∈ dom (Groups c') ↔ g ∈ dom (Groups c) ∧ g ∉ gs)
     ∧ (Groups c' ≠ ∅ → CheckConfig (elements (dom (Groups c'))) c' = true)).
Proof.
  intros Hlen. split.
  - intros servers c' E. unfold JoinBalance, Join in E.
    apply outcome_bind_ret in E as ([ok c1] & E1 & E).
    apply outcome_bind_ret in E1 as ([[ok1 ch1] c2] & Hloop & E1).
    destruct ok1; simpl in E1; [|by injection E1 as <- <-].
    destruct ch1; simpl in E1; [|done]. injection E1 as <- <-. injection E as <-.
    destruct (join_loop_spec _ _ _ _ _ _ Hloop) as (HN & HS & HG & Hch).
    set (c3 := {| Num := Num c2 + 1 |}).
    assert (Groups c3 ≠ ∅) as Hne.
    { intros He. specialize (Hch eq_refl). simpl in Hch. symmetry in Hch. apply bool_decide_eq_true in Hch.
      destruct servers as [|[g srvs] servers]; [done|].
      assert (g ∈ dom (Groups c2)) as Hg by (apply HG; [done|]; set_solver).
      simpl in He. rewrite He, dom_empty_L in Hg. set_solver. }
    assert (zlen (Shards c3) = NShards) as Hlen3 by (simpl; by rewrite HS).
    destruct (Rebalance_spec c3 Hlen3 Hne) as (HG' & HN' & _).
    rewrite HG', HN'. simpl. split_and!; [by rewrite HN|by apply HG|]. by apply (Rebalance_checks c3).
  - intros gs c' E. unfold LeaveBalance, Leave in E.
    apply outcome_bind_ret in E as ([ok c1] & E1 & E).
    destruct (leave_loop gs false c) as [[ok1 ch1] c2] eqn:Hloop.
    destruct ok1; simpl in E1; [|by injection E1 as <- <-].
    destruct ch1; simpl in E1; [|done]. injection E1 as <- <-. injection E as <-.
    destruct (leave_loop_spec _ _ _ _ _ _ Hloop) as (HN & HS & HG & _).
    set (c3 := {| Num := Num c2 + 1 |}).
    assert (zlen (Shards c3) = NShards) as Hlen3 by (simpl; by rewrite HS).
    assert (Groups (Rebalance c3) = Groups c3 ∧ Num (Rebalance c3) = Num c3) as [HG' HN'].
    { destruct (decide (Groups c3 = ∅)) as [He|Hne].
      - unfold Rebalance. by rewrite decide_True by done.
      - by destruct (Rebalance_spec c3 Hlen3 Hne) as (? & ? & _). }
    rewrite HG', HN'. simpl. split_and!; [by rewrite HN|by apply HG|]. intros Hne. by apply (Rebalance_checks c3).
Qed.

(** *** A concrete configuration: group 1 serves everything, groups 2 and 3 join *)
Definition cfg1 : ShardConfig :=
  {| Num := 1; Shards := replicate 12 1; Groups := {[1 := ["a1"; "a2"]]} |}.

Lemma Rebalance_valid_witness :
  let c' := Rebalance cfg1 in
  Groups c' = Groups cfg1 ∧ Num c' = Num cfg1 ∧ zlen (Shards c') = NShards
  ∧ if decide (Groups cfg1 = ∅) then ∀ g, g ∈ Shards c' → g = 0
    else (∀ g, g ∈ Shards c' → g ∈ dom (Groups cfg1)) ∧ balanced c'
         ∧ (let '(_, mostShardsNum, _, leastShardsNum) := analyze c' in mostShardsNum < leastShardsNum + 2).
Proof. apply (Rebalance_valid cfg1). reflexivity. Defined.

Lemma JoinLeaveBalance_checked_witness :
  ∃ c', JoinBalance [(2, ["b1"]); (3, ["c1"])] cfg1 = Ret (true, c') ∧
  Shards c' = [2; 3; 2; 3; 2; 3; 2; 3; 1; 1; 1; 1] ∧ CheckConfig (elements (dom (Groups c'))) c' = true.
Proof.
  eexists. split; [vm_compute; reflexivity|]. split; [reflexivity|].
  refine (proj2 (proj2 (proj1 (JoinLeaveBalance_checked cfg1 _) [(2, ["b1"]); (3, ["c1"])] _ _))).
  - reflexivity.
  - vm_compute. reflexivity.
Defined.
