(* ===== verification/ShardJson.v ===== *)
(** * The JSON form of configurations (shardkv1/shardcfg/shardcfg.go)

    [String] and [FromString] go through encoding/json (Json.v).  This file has
    what that package does for the type [ShardConfig], and that reading back
    what was printed gives the configuration, the law that the controller's
    proofs ask of a [ConfigCodec].

    Not printed differently here: a nil slice of servers ([null] in Go, [[]]
    here) and a nil map of groups; the code makes neither. *)

From S2P Require Import Prelude GoText Json ShardCfg.
Local Open Scope Z_scope.

(** ** Printing *)

(** maps are printed in the order of their keys as strings *)
Definition key_le (a b : Z * list string) : Prop :=
  String.leb (of_chars (Itoa (fst a))) (of_chars (Itoa (fst b))) = true.
#[export] Instance key_le_dec a b : Decision (key_le a b).
Proof. unfold key_le. apply _. Defined.

Definition groups_list (m : gmap Z (list string)) : list (Z * list string) :=
  merge_sort key_le (map_to_list m).

Definition servers_json (srvs : list string) : chars := array ((λ s, quote (to_chars s)) <$> srvs).

Definition Marshal (c : ShardConfig) : chars :=
  object [member (to_chars "Num") (Itoa (Num c));
          member (to_chars "Shards") (array (Itoa <$> Shards c));
          member (to_chars "Groups")
            (object ((λ g, member (Itoa (fst g)) (servers_json (snd g))) <$> groups_list (Groups c)))].

(** [json.Marshal] does not fail on this type *)
Definition cfg_String (c : ShardConfig) : string := of_chars (Marshal c).

(** ** Assigning to Go values; every mismatch makes [Unmarshal] fail in the end *)

(** into an array: surplus elements are skipped, missing ones become zero *)
Fixpoint dec_array (old : list Z) (vs : list json) : option (list Z) :=
  match old, vs with
  | [], _ => Some []
  | o :: old', v :: vs' => x ← dec_int o v; l ← dec_array old' vs'; Some (x :: l)
  | _, [] => Some ((λ _, 0) <$> old)
  end.

Definition dec_servers (v : json) : option (list string) :=
  match v with
  | JNull => Some []
  | JArr vs => mapM (λ v, of_chars <$> dec_string [] v) vs
  | _ => None
  end.

Fixpoint dec_groups (old : gmap Z (list string)) (ms : list (chars * json)) : option (gmap Z (list string)) :=
  match ms with
  | [] => Some old
  | (k, v) :: ms' =>
      g ← ParseInt k;
      srvs ← dec_servers v;
      dec_groups (<[g := srvs]> old) ms'
  end.

Definition dec_field (c : ShardConfig) (kv : chars * json) : option ShardConfig :=
  let '(k, v) := kv in
  if same_name k "Num" then
    n ← dec_int (Num c) v; Some {| Num := n; Shards := Shards c; Groups := Groups c |}
  else if same_name k "Shards" then
    l ← (match v with JNull => Some (Shards c) | JArr vs => dec_array (Shards c) vs | _ => None end);
    Some {| Num := Num c; Shards := l; Groups := Groups c |}
  else if same_name k "Groups" then
    m ← (match v with JNull => Some ∅ | JObj ms => dec_groups (Groups c) ms | _ => None end);
    Some {| Num := Num c; Shards := Shards c; Groups := m |}
  else Some c.

Definition dec_config (c : ShardConfig) (v : json) : option ShardConfig :=
  match v with
  | JNull => Some c
  | JObj ms => foldl (λ oc kv, c ← oc; dec_field c kv) (Some c) ms
  | _ => None
  end.

Definition FromString (s : string) : outcome ShardConfig :=
  match parse_json (to_chars s) ≫= dec_config MakeShardConfig with
  | Some c => Ret c
  | None => Fatal
  end.

(** ** The round trip *)

(** what configurations look like: an array of [NShards], [int]s of 64 bits,
    server names in UTF-8 *)
Definition plain_config (c : ShardConfig) : Prop :=
  zlen (Shards c) = NShards
  ∧ int_ok (Num c) = true ∧ Forall (λ g, int_ok g = true) (Shards c)
  ∧ map_Forall (λ g srvs, int_ok g = true ∧ Forall (λ s, valid_utf8 (to_chars s) = true) srvs) (Groups c).

(** what the controller asks of the JSON form *)
Class ConfigCodec := {
  codec_String : ShardConfig → string;
  codec_FromString : string → outcome ShardConfig;
  codec_law : ∀ c, plain_config c → codec_FromString (codec_String c) = Ret c
}.

Definition servers_value (srvs : list string) : json := JArr ((λ s, JStr (to_chars s)) <$> srvs).

(** what a configuration is read as *)
Definition config_value (c : ShardConfig) : json :=
  JObj [(to_chars "Num", JNum (Itoa (Num c)));
        (to_chars "Shards", JArr ((λ g, JNum (Itoa g)) <$> Shards c));
        (to_chars "Groups", JObj ((λ g, (Itoa (fst g), servers_value (snd g))) <$> groups_list (Groups c)))].

Lemma reads_servers k srvs :
  0 ≤ k → Forall (λ s, valid_utf8 (to_chars s) = true) srvs →
  reads (k + 1) (servers_json srvs) (servers_value srvs).
Proof.
  intros Hk Hs. apply reads_array; [done|]. induction Hs; constructor; auto using reads_string.
Qed.

Lemma groups_list_perm m : groups_list m ≡ₚ map_to_list m.
Proof. apply merge_sort_Permutation. Qed.

Lemma reads_config c : plain_config c → reads 3 (Marshal c) (config_value c).
Proof.
  intros (_ & _ & _ & Hg). unfold Marshal, config_value.
  change 3 with (2 + 1).
  apply (reads_object 2 [to_chars "Num"; to_chars "Shards"; to_chars "Groups"]
    [Itoa (Num c); array (Itoa <$> Shards c);
     object ((λ g, member (Itoa (fst g)) (servers_json (snd g))) <$> groups_list (Groups c))]
    [JNum (Itoa (Num c)); JArr ((λ g, JNum (Itoa g)) <$> Shards c);
     JObj ((λ g, (Itoa (fst g), servers_value (snd g))) <$> groups_list (Groups c))]);
    [lia| |done|reflexivity].
  constructor; [apply reads_int|constructor; [|constructor; [|constructor]]].
  - change 2 with (1 + 1). apply reads_array; [lia|]. induction (Shards c); constructor; auto using reads_int.
  - assert (∀ g, g ∈ groups_list (Groups c) → Forall (λ s, valid_utf8 (to_chars s) = true) (snd g)) as Hl.
    { intros [g srvs]. rewrite groups_list_perm, elem_of_map_to_list. intros Hin. by apply (Hg g srvs Hin). }
    assert (Forall2 (reads 1) (servers_json <$> (snd <$> groups_list (Groups c)))
              (servers_value <$> (snd <$> groups_list (Groups c)))) as Hts.
    { induction (groups_list (Groups c)) as [|g l IH]; constructor.
      - change 1 with (0 + 1). apply reads_servers; [lia|]. apply Hl. by left.
      - apply IH. intros g' ?. apply Hl. by right. }
    change 2 with (1 + 1).
    assert ((λ g, member (Itoa (fst g)) (servers_json (snd g))) <$> groups_list (Groups c)
            = zip_with member (Itoa <$> (fst <$> groups_list (Groups c)))
                (servers_json <$> (snd <$> groups_list (Groups c)))) as ->.
    { clear. induction (groups_list (Groups c)) as [|g l IH]; [done|]. simpl. by f_equal. }
    assert ((λ g, (Itoa (fst g), servers_value (snd g))) <$> groups_list (Groups c)
            = zip (Itoa <$> (fst <$> groups_list (Groups c)))
                (servers_value <$> (snd <$> groups_list (Groups c)))) as ->.
    { clear. induction (groups_list (Groups c)) as [|g l IH]; [done|]. simpl. by f_equal. }
    apply reads_object; [lia|done|by rewrite !length_fmap|].
    clear. induction (groups_list (Groups c)) as [|g l IH]; [done|]. simpl. by rewrite (valid_utf8_ascii (Itoa _)) by apply Itoa_ascii.
Qed.

Lemma dec_array_ints old l :
  length old = length l → Forall (λ g, int_ok g = true) l →
  dec_array old ((λ g, JNum (Itoa g)) <$> l) = Some l.
Proof.
  intros Hlen Hl. revert old Hlen. induction Hl as [|g l Hg Hl IH]; intros [|o old] Hlen; try done.
  simpl in *. rewrite ParseInt_Itoa by done. simpl. by rewrite IH by lia.
Qed.

Lemma dec_servers_value srvs : dec_servers (servers_value srvs) = Some srvs.
Proof.
  unfold dec_servers, servers_value.
  induction srvs as [|s srvs IH]; [done|]. rewrite fmap_cons. cbn [mapM]. rewrite IH. simpl.
  by rewrite of_to_chars.
Qed.

Lemma dec_groups_list m l :
  NoDup (fst <$> l) → Forall (λ g, int_ok (fst g) = true) l →
  dec_groups m ((λ g, (Itoa (fst g), servers_value (snd g))) <$> l) = Some (list_to_map l ∪ m).
Proof.
  intros Hnd Hl. revert m Hnd. induction Hl as [|[g srvs] l Hg Hl IH]; intros m Hnd.
  - simpl. by rewrite map_empty_union.
  - simpl in Hnd, Hg. rewrite fmap_cons. apply NoDup_cons in Hnd as [Hg' Hnd]. cbn [dec_groups fst snd].
    rewrite ParseInt_Itoa by done. cbn [mbind option_bind]. rewrite dec_servers_value.
    cbn [mbind option_bind]. rewrite IH by done.
    f_equal. simpl. rewrite <-insert_union_l, <-insert_union_r; [done|]. by apply not_elem_of_list_to_map_1.
Qed.

Lemma dec_config_value c : plain_config c → dec_config MakeShardConfig (config_value c) = Some c.
Proof.
  intros (Hlen & Hn & Hs & Hg). unfold config_value. cbn [dec_config foldl].
  change (c0 ← Some MakeShardConfig; dec_field c0 (to_chars "Num", JNum (Itoa (Num c))))
    with (n ← ParseInt (Itoa (Num c)); Some {| Num := n; Shards := Shards MakeShardConfig; Groups := ∅ |}).
  rewrite ParseInt_Itoa by done. cbn [mbind option_bind].
  unfold dec_field at 2. change (same_name (to_chars "Shards") "Num") with false.
  change (same_name (to_chars "Shards") "Shards") with true. cbn [Num Shards Groups].
  rewrite dec_array_ints; [|change (length (Shards MakeShardConfig)) with 12%nat; unfold zlen, NShards in Hlen; lia|done]. cbn [mbind option_bind].
  unfold dec_field. change (same_name (to_chars "Groups") "Num") with false.
  change (same_name (to_chars "Groups") "Shards") with false.
  change (same_name (to_chars "Groups") "Groups") with true. cbn [Num Shards Groups].
  rewrite dec_groups_list.
  - simpl. rewrite map_union_empty. destruct c as [n l m]. simpl in *. repeat f_equal.
    rewrite (list_to_map_proper _ (map_to_list m)).
    + apply list_to_map_to_list.
    + rewrite groups_list_perm. apply NoDup_fst_map_to_list.
    + apply groups_list_perm.
  - rewrite groups_list_perm. apply NoDup_fst_map_to_list.
  - rewrite groups_list_perm. apply Forall_forall. intros [g srvs] Hin%elem_of_map_to_list. by apply (Hg g srvs Hin).
Qed.

Lemma FromString_cfg_String c : plain_config c → FromString (cfg_String c) = Ret c.
Proof.
  intros Hc. unfold FromString, cfg_String. rewrite to_of_chars, parse_json_eq.
  destruct (reads_config c Hc) as [_ Hr].
  rewrite <-(app_nil_r (Marshal c)), (Hr 0 []) by done.
  cbn [mbind option_bind]. rewrite decide_True by done. cbn [mbind option_bind].
  by rewrite dec_config_value.
Qed.

#[export] Instance json_codec : ConfigCodec :=
  {| codec_String := cfg_String; codec_FromString := FromString; codec_law := FromString_cfg_String |}.

(** C30. [FromString] undoes [String]: a configuration of [NShards] shards, with
    numbers that fit an [int] and server names in UTF-8, is read back exactly
    from the JSON text that is printed for it. *)
Theorem config_round_trip c : plain_config c → FromString (cfg_String c) = Ret c.
Proof. apply FromString_cfg_String. Qed.

Definition example_config : ShardConfig :=
  {| Num := 7; Shards := replicate 6 1 ++ replicate 6 10;
     Groups := {[ 1 := ["server-1-0"; "server-1-1"]; 10 := ["<a&b>"] ]} |}.

Lemma config_round_trip_witness : FromString (cfg_String example_config) = Ret example_config.
Proof. apply config_round_trip. apply (bool_decide_unpack _). vm_compute. exact I. Defined.
