(* ===== verification/ShardGrp.v ===== *)
(** * A shard group's server (shardkv1/shardgrp/server.go)

    The state machine a shard group replicates: a key/value table restricted to
    the shards the group holds, and the operations that move shards between
    groups. *)

From S2P Require Import Prelude KvRpc KvSrv RaftNode Rsm ShardCfg.
Local Open Scope Z_scope.

(** ** shardkv1/shardgrp/shardrpc/shardrpc.go *)

(** a gob stream; [[]byte(nil)] is [None] *)
Inductive gobval :=
| GTable (t : gmap string VersionedValue)
| GShards (m : gmap Z Z)
| GNums (m : gmap Z Z)
| GOther.
Abbreviation bytes := (list gobval).

Record FreezeShardArgs := { fr_Shard : Z; fr_Num : Z }.
Record FreezeShardReply := { frr_State : option bytes; frr_Num : Z; frr_Err : Err; frr_LeaderHint : Z }.
Record InstallShardArgs := { in_Shard : Z; in_State : option bytes; in_Num : Z }.
Record InstallShardReply := { inr_Err : Err; inr_LeaderHint : Z }.
Record DeleteShardArgs := { de_Shard : Z; de_Num : Z }.
Record DeleteShardReply := { der_Err : Err; der_LeaderHint : Z }.

Module ShardGrp.

(** the values of [ShardState] *)
Definition Noshard : Z := 0.
Definition ValidShard : Z := 1.
Definition FrozenShard : Z := 2.

Record KVServer := {
  tbl : gmap string VersionedValue;
  shards : gmap Z Z;
  shardsNums : gmap Z Z
}.

Definition set_tbl (t : gmap string VersionedValue) (kv : KVServer) : KVServer :=
  {| tbl := t; shards := shards kv; shardsNums := shardsNums kv |}.
Definition set_shard (shid st : Z) (kv : KVServer) : KVServer :=
  {| tbl := tbl kv; shards := <[shid := st]> (shards kv); shardsNums := shardsNums kv |}.
Definition set_num (shid num : Z) (kv : KVServer) : KVServer :=
  {| tbl := tbl kv; shards := shards kv; shardsNums := <[shid := num]> (shardsNums kv) |}.

(** [kv.shardsNums[shid]] and [kv.shards[shid]], zero when absent *)
Definition num_of (kv : KVServer) (shid : Z) : Z := default 0 (shardsNums kv !! shid).
Definition state_of (kv : KVServer) (shid : Z) : Z := default Noshard (shards kv !! shid).

Definition containShardAndNoFrozen (kv : KVServer) (shid : Z) : bool :=
  match shards kv !! shid with
  | Some st => negb (bool_decide (st = Noshard) || bool_decide (st = FrozenShard))
  | None => false
  end.

Definition containShard (kv : KVServer) (shid : Z) : bool :=
  match shards kv !! shid with
  | Some st => negb (bool_decide (st = Noshard))
  | None => false
  end.

Definition doGet (kv : KVServer) (args : GetArgs) : GetReply :=
  if containShardAndNoFrozen kv (Key2Shard (get_Key args)) then
    match tbl kv !! get_Key args with
    | Some vv => {| get_Value := Value vv; get_Version := Version vv; get_Err := OK; get_LeaderHint := 0 |}
    | None => {| get_Value := ""; get_Version := 0; get_Err := ErrNoKey; get_LeaderHint := 0 |}
    end
  else {| get_Value := ""; get_Version := 0; get_Err := ErrWrongGroup; get_LeaderHint := 0 |}.

Definition doPut (kv : KVServer) (args : PutArgs) : KVServer * PutReply :=
  let answer e := {| put_Err := e; put_LeaderHint := 0 |} in
  if containShardAndNoFrozen kv (Key2Shard (put_Key args)) then
    let key := put_Key args in
    match tbl kv !! key with
    | Some versionedValue =>
        if decide (Version versionedValue = put_Version args) then
          (set_tbl (<[key := {| Value := put_Value args; Version := next_version (put_Version args) |}]>
                     (tbl kv)) kv, answer OK)
        else (kv, answer ErrVersion)
    | None =>
        if decide (put_Version args = 0) then
          (set_tbl (<[key := {| Value := put_Value args; Version := 1 |}]> (tbl kv)) kv, answer OK)
        else (kv, answer ErrNoKey)
    end
  else (kv, answer ErrWrongGroup).

(** the keys of one shard *)
Definition part (shid : Z) (t : gmap string VersionedValue) : gmap string VersionedValue :=
  filter (λ kv, Key2Shard (fst kv) = shid) t.

Definition packShardData (kv : KVServer) (shard : Z) : bytes := [GTable (part shard (tbl kv))].

(** merging a decoded map into the table: its entries win *)
Definition unpackShardData (data : option bytes) (kv : KVServer) : outcome KVServer :=
  match data with
  | None | Some [] => Ret kv
  | Some (GTable kvmap :: _) => Ret (set_tbl (kvmap ∪ tbl kv) kv)
  | Some _ => Fatal
  end.

Definition doFreezeShard (kv : KVServer) (args : FreezeShardArgs) : KVServer * FreezeShardReply :=
  let shid := fr_Shard args in
  let reply st num e := {| frr_State := st; frr_Num := num; frr_Err := e; frr_LeaderHint := 0 |} in
  if decide (fr_Num args < num_of kv shid) then (kv, reply None (num_of kv shid) OK)
  else
    let kv1 := set_num shid (fr_Num args) kv in
    if decide (state_of kv1 shid = Noshard) then (kv1, reply None (fr_Num args) ErrWrongGroup)
    else
      let kv2 := if decide (state_of kv1 shid ≠ FrozenShard) then set_shard shid FrozenShard kv1 else kv1 in
      (kv2, reply (Some (packShardData kv2 shid)) (fr_Num args) OK).

Definition doInstallShard (kv : KVServer) (args : InstallShardArgs) : outcome (KVServer * InstallShardReply) :=
  let shid := in_Shard args in
  let reply := {| inr_Err := OK; inr_LeaderHint := 0 |} in
  if decide (in_Num args ≤ num_of kv shid) then Ret (kv, reply)
  else
    let kv1 := set_num shid (in_Num args) kv in
    if decide (state_of kv1 shid = FrozenShard) then Fatal
    else
      kv2 ← unpackShardData (in_State args) kv1;
      Ret (set_shard shid ValidShard kv2, reply).

Definition deleteShard (shid : Z) (kv : KVServer) : KVServer :=
  set_tbl (filter (λ e, Key2Shard (fst e) ≠ shid) (tbl kv)) kv.

Definition doDeleteShard (kv : KVServer) (args : DeleteShardArgs) : outcome (KVServer * DeleteShardReply) :=
  let shid := de_Shard args in
  let reply := {| der_Err := OK; der_LeaderHint := 0 |} in
  if decide (de_Num args < num_of kv shid) then Ret (kv, reply)
  else
    let kv1 := set_num shid (de_Num args) kv in
    if decide (state_of kv1 shid = Noshard) then Ret (kv1, reply)
    else if decide (state_of kv1 shid = ValidShard) then Fatal
    else Ret (set_shard shid Noshard (deleteShard shid kv1), reply).

(** ** The replicated state machine *)

Inductive any :=
| ANil
| AGetArgs (a : GetArgs) | APutArgs (a : PutArgs)
| AInstall (a : InstallShardArgs) | AFreeze (a : FreezeShardArgs) | ADelete (a : DeleteShardArgs)
| AGetReply (r : GetReply) | APutReply (r : PutReply)
| AInstallReply (r : InstallShardReply) | AFreezeReply (r : FreezeShardReply) | ADeleteReply (r : DeleteShardReply)
| AOther.

Definition DoOp (req : any) (kv : KVServer) : outcome (KVServer * any) :=
  match req with
  | AGetArgs args => Ret (kv, AGetReply (doGet kv args))
  | APutArgs args => let '(kv', r) := doPut kv args in Ret (kv', APutReply r)
  | AInstall args => '(kv', r) ← doInstallShard kv args; Ret (kv', AInstallReply r)
  | AFreeze args => let '(kv', r) := doFreezeShard kv args in Ret (kv', AFreezeReply r)
  | ADelete args => '(kv', r) ← doDeleteShard kv args; Ret (kv', ADeleteReply r)
  | _ => Fatal
  end.

Definition Snapshot (kv : KVServer) : bytes := [GTable (tbl kv); GShards (shards kv); GNums (shardsNums kv)].

Definition Restore (data : option bytes) (kv : KVServer) : outcome KVServer :=
  match data with
  | Some (GTable t :: GShards s :: GNums n :: _) => Ret {| tbl := t; shards := s; shardsNums := n |}
  | _ => Fatal
  end.

#[global] Instance KVServer_sm : StateMachine any bytes KVServer :=
  {| any_nil := ANil; sm_DoOp := DoOp; sm_Snapshot := Snapshot; sm_Restore := Restore |}.

(** ** The RPC handlers, given the answer of [Submit]: [wrong] builds the reply
    to [ErrWrongLeader], [proj] is the type assertion on the result *)
Definition handler {R : Type} (wrong : Err → Z → R) (proj : any → option R) (submitted : Err * (Z + any))
    : outcome R :=
  let '(err, res) := submitted in
  if decide (err = ErrWrongLeader) then
    Ret (wrong err match res with inl hint => hint | inr _ => -1 end)
  else match res with
       | inr v => match proj v with Some r => Ret r | None => Fatal end
       | inl _ => Fatal
       end.

Definition Get (submitted : Err * (Z + any)) (reply : GetReply) : outcome GetReply :=
  handler (λ e h, {| get_Value := get_Value reply; get_Version := get_Version reply; get_Err := e;
                     get_LeaderHint := h |})
    (λ v, match v with AGetReply r => Some r | _ => None end) submitted.
Definition Put (submitted : Err * (Z + any)) : outcome PutReply :=
  handler (λ e h, {| put_Err := e; put_LeaderHint := h |})
    (λ v, match v with APutReply r => Some r | _ => None end) submitted.
Definition FreezeShard (submitted : Err * (Z + any)) (reply : FreezeShardReply) : outcome FreezeShardReply :=
  handler (λ e h, {| frr_State := frr_State reply; frr_Num := frr_Num reply; frr_Err := e; frr_LeaderHint := h |})
    (λ v, match v with AFreezeReply r => Some r | _ => None end) submitted.
Definition InstallShard (submitted : Err * (Z + any)) : outcome InstallShardReply :=
  handler (λ e h, {| inr_Err := e; inr_LeaderHint := h |})
    (λ v, match v with AInstallReply r => Some r | _ => None end) submitted.
Definition DeleteShard (submitted : Err * (Z + any)) : outcome DeleteShardReply :=
  handler (λ e h, {| der_Err := e; der_LeaderHint := h |})
    (λ v, match v with ADeleteReply r => Some r | _ => None end) submitted.

(** [StartServerShardGrp]: the state once [MakeRSM] (which restores a snapshot)
    and the initialisation loops are done *)
Definition all_shards : list Z := Z.of_nat <$> seq 0 (Z.to_nat NShards).

Definition StartServerShardGrp (gid : Z) (ps : Persister (Op any) bytes) : outcome KVServer :=
  r ← MakeRSM ps {| tbl := ∅; shards := ∅; shardsNums := ∅ |};
  let kv := sm r in
  let kv1 := if decide (gid = Gid1) then foldl (λ kv i, set_shard i ValidShard kv) kv all_shards else kv in
  Ret (foldl (λ kv i, set_num i 0 kv) kv1 all_shards).
End ShardGrp.

(** A restarted server restores its snapshot in [MakeRSM], but
    [StartServerShardGrp] then resets the shard numbers, and for [Gid1] the shard
    states: a group that had given shard 0 away serves it again, and does not
    know the configuration number any more. *)
Definition gave_away : ShardGrp.KVServer :=
  {| ShardGrp.tbl := ∅; ShardGrp.shards := {[ 0 := ShardGrp.Noshard ]}; ShardGrp.shardsNums := {[ 0 := 2 ]} |}.

Theorem restart_forgets_shards :
  ∃ kv, ShardGrp.StartServerShardGrp Gid1
          {| ps_raftstate := []; ps_snapshot := Some (ShardGrp.Snapshot gave_away) |} = Ret kv
  ∧ ShardGrp.containShardAndNoFrozen gave_away 0 = false
  ∧ ShardGrp.containShardAndNoFrozen kv 0 = true ∧ ShardGrp.num_of kv 0 = 0.
Proof. eexists. split; [vm_compute; reflexivity|]. split_and!; vm_compute; reflexivity. Qed.
