(* ===== verification/ShardCluster.v ===== *)
(** * A shard group on its cluster

    shardkv1/shardgrp/server.go on the whole stack below it: the servers of
    ShardGrp.v as the state machines of RsmCluster.v.  ShardSystem takes a group
    for one server that executes requests one after the other; here is why it
    may: what a client or controller is told is what one such server answers,
    and data that a group hands out when a shard is frozen stays the shard's
    data.

    A server that restarts from a snapshot loses what [MakeRSM] has restored
    ([restart_forgets_shards]), so the groups here do not compact their logs:
    their servers start from [group_init] and the log. *)

From S2P Require Import Prelude KvRpc KvSrv RaftNode RaftCluster RaftElection RaftReplication RaftAgreement Rsm RsmCluster ShardCfg ShardGrp.
Local Open Scope Z_scope.
Import ShardGrp.

Lemma Restore_Snapshot_shard a b : Restore (Some (Snapshot a)) b = Ret a.
Proof. by destruct a. Qed.

(** the state of a server of group [gid] that starts without a snapshot *)
Definition group_init (gid : Z) : KVServer :=
  let kv := {| tbl := ∅; shards := ∅; shardsNums := ∅ |} in
  let kv1 := if decide (gid = Gid1) then foldl (λ kv i, set_shard i ValidShard kv) kv all_shards else kv in
  foldl (λ kv i, set_num i 0 kv) kv1 all_shards.

Lemma group_init_started gid log : StartServerShardGrp gid {| ps_raftstate := log; ps_snapshot := None |} = Ret (group_init gid).
Proof. reflexivity. Qed.

(** ** What one server does with a frozen shard *)

Definition frozen (shid : Z) (kv : KVServer) : Prop := state_of kv shid = FrozenShard.

(** the requests that may follow without ending the freeze at configuration
    [num]: no deletion of the shard by this or a later configuration; and
    installed data holds keys of its own shard *)
Definition keeps_frozen (shid num : Z) (req : any) : Prop :=
  match req with
  | ADelete a => de_Shard a = shid → de_Num a < num
  | AInstall a =>
      match in_State a with
      | Some (GTable t :: _) => map_Forall (λ k _, Key2Shard k = in_Shard a) t
      | _ => True
      end
  | _ => True
  end.

Lemma part_set k vv shid t : Key2Shard k ≠ shid → part shid (<[k := vv]> t) = part shid t.
Proof. intros Hk. unfold part. rewrite map_filter_insert_False; [|done]. by apply map_filter_delete_not. Qed.

Lemma part_union_skip shid (t1 t2 : table) : map_Forall (λ k _, Key2Shard k ≠ shid) t1 → part shid (t1 ∪ t2) = part shid t2.
Proof.
  intros Ht. apply map_eq. intros k. unfold part. rewrite !map_lookup_filter, lookup_union.
  destruct (t1 !! k) as [vv|] eqn:Hk; [|by rewrite (left_id_L None _)].
  specialize (Ht k vv Hk). simpl in Ht. destruct (t2 !! k); simpl; unfold guard; repeat case_decide; done.
Qed.

Lemma part_delete shid shid' (t : table) : shid' ≠ shid →
  part shid (filter (λ e, Key2Shard (fst e) ≠ shid') t) = part shid t.
Proof.
  intros Hne. apply map_eq. intros k. unfold part. rewrite !map_lookup_filter.
  destruct (t !! k); simpl; [|done]. unfold guard. repeat case_decide; simpl in *; congruence || done.
Qed.

(** the freeze: nothing but [num_of] moves *)
Definition still_frozen (shid num : Z) (kv kv' : KVServer) : Prop :=
  state_of kv' shid = FrozenShard ∧ num ≤ num_of kv' shid ∧ part shid (tbl kv') = part shid (tbl kv).

Lemma num_of_set shid shid' n kv : num_of (set_num shid' n kv) shid = if decide (shid' = shid) then n else num_of kv shid.
Proof. unfold num_of, set_num. simpl. case_decide; [subst; by rewrite lookup_insert_eq|by rewrite lookup_insert_ne]. Qed.

Lemma state_of_set shid shid' st kv : state_of (set_shard shid' st kv) shid = if decide (shid' = shid) then st else state_of kv shid.
Proof. unfold state_of, set_shard. simpl. case_decide; [subst; by rewrite lookup_insert_eq|by rewrite lookup_insert_ne]. Qed.

Lemma frozen_not_served shid kv : state_of kv shid = FrozenShard → containShardAndNoFrozen kv shid = false.
Proof. unfold state_of, containShardAndNoFrozen. destruct (shards kv !! shid) as [st|]; [|done]. simpl. by intros ->. Qed.

Lemma frozen_put shid num kv a : state_of kv shid = FrozenShard → num ≤ num_of kv shid → still_frozen shid num kv (fst (doPut kv a)).
Proof.
  intros Hf Hn. unfold doPut. destruct (containShardAndNoFrozen kv (Key2Shard (put_Key a))) eqn:Hc; [|done].
  assert (Key2Shard (put_Key a) ≠ shid) as Hne by (intros E; by rewrite E, (frozen_not_served shid kv Hf) in Hc).
  destruct (tbl kv !! put_Key a); case_decide; simpl; try done; split_and!; try done; by apply part_set.
Qed.

Lemma frozen_freeze shid num kv a : state_of kv shid = FrozenShard → num ≤ num_of kv shid →
  still_frozen shid num kv (fst (doFreezeShard kv a)).
Proof.
  intros Hf Hn. unfold doFreezeShard. case_decide as Hlt; [done|].
  assert (num ≤ num_of (set_num (fr_Shard a) (fr_Num a) kv) shid) as Hnum.
  { rewrite num_of_set. case_decide; [subst; lia|done]. }
  case_decide; [done|]. cbn [fst]. case_decide as Hs; [|done]. split_and!; [|done|done].
  rewrite state_of_set. case_decide; done.
Qed.

Lemma frozen_step shid num kv req kv' v : state_of kv shid = FrozenShard → num ≤ num_of kv shid →
  keeps_frozen shid num req → DoOp req kv = Ret (kv', v) → still_frozen shid num kv kv'.
Proof.
  intros Hf Hn Hk E. destruct req as [|a|a|a|a|a|r|r|r|r|r|]; simpl in E; try done.
  - by injection E as <- _.
  - pose proof (frozen_put shid num kv a Hf Hn). destruct (doPut kv a). by injection E as <- _.
  - apply outcome_bind_ret in E as ([kv1 r] & E & [= <- <-]). unfold doInstallShard in E.
    case_decide as Hlt; [by injection E as <- _|]. case_decide as Hst; [done|].
    apply outcome_bind_ret in E as (kv2 & Eu & [= <- _]).
    assert (in_Shard a ≠ shid) as Hne by (intros <-; done).
    unfold still_frozen. rewrite state_of_set, decide_False by done. unfold unpackShardData in Eu.
    assert (num ≤ num_of (set_num (in_Shard a) (in_Num a) kv) shid) as Hnum by (rewrite num_of_set, decide_False by done; done).
    simpl in Hk. destruct (in_State a) as [[|[t|m|m|] l]|]; try done; injection Eu as <-; split_and!; try done.
    simpl. apply part_union_skip. intros k vv Hkv. specialize (Hk k vv Hkv). simpl in *. congruence.
  - pose proof (frozen_freeze shid num kv a Hf Hn). destruct (doFreezeShard kv a). by injection E as <- _.
  - apply outcome_bind_ret in E as ([kv1 r] & E & [= <- <-]). unfold doDeleteShard in E.
    simpl in Hk. case_decide as Hlt; [by injection E as <- _|].
    assert (de_Shard a ≠ shid) as Hne by (intros <-; specialize (Hk eq_refl); lia).
    assert (num ≤ num_of (set_num (de_Shard a) (de_Num a) kv) shid) as Hnum by (rewrite num_of_set, decide_False by done; done).
    case_decide; [by injection E as <- _|]. case_decide; [done|]. injection E as <- _.
    unfold still_frozen. rewrite state_of_set, decide_False by done. split_and!; try done. simpl. by apply part_delete.
Qed.

Lemma frozen_log shid num L kv kv' : state_of kv shid = FrozenShard → num ≤ num_of kv shid →
  Forall (keeps_frozen shid num) L → exec_log L kv = Ret kv' → still_frozen shid num kv kv'.
Proof.
  intros Hf Hn HL. revert kv Hf Hn. induction HL as [|req L Hreq _ IH]; intros kv Hf Hn E; [by injection E as <-|].
  cbn [exec_log] in E. apply outcome_bind_ret in E as ([kv1 v] & E1 & E).
  destruct (frozen_step shid num kv req kv1 v Hf Hn Hreq E1) as (Hf1 & Hn1 & Hp1).
  destruct (IH kv1 Hf1 Hn1 E) as (Hf2 & Hn2 & Hp2). split_and!; try done. congruence.
Qed.

(** the answer to a freeze that hands out data *)
Lemma freeze_answer a kv kv' r data : DoOp (AFreeze a) kv = Ret (kv', AFreezeReply r) → frr_State r = Some data →
  state_of kv' (fr_Shard a) = FrozenShard ∧ num_of kv' (fr_Shard a) = fr_Num a
  ∧ data = [GTable (part (fr_Shard a) (tbl kv'))] ∧ tbl kv' = tbl kv.
Proof.
  simpl. unfold doFreezeShard. case_decide as Hlt; [by intros [= <- <-]|]. case_decide as Hno; [by intros [= <- <-]|].
  intros [= <- <-]. simpl. intros [= <-]. unfold packShardData. case_decide as Hf.
  - rewrite state_of_set, decide_True by done. split; [done|]. split; [|done].
    change (num_of (set_shard ?x ?y ?z)) with (num_of z). by rewrite num_of_set, decide_True.
  - split; [destruct (decide (state_of (set_num (fr_Shard a) (fr_Num a) kv) (fr_Shard a) = FrozenShard)); [done|by destruct Hf]|].
    split; [|done]. by rewrite num_of_set, decide_True.
Qed.

(** ** The group over its cluster *)

Section cluster.
Variable gid : Z.
Abbreviation run acts n clk := (stack_run (-1) (λ _, 0) (group_init gid) acts (stack_init (group_init gid) clk n)).

(** C13. A shard group over its cluster: in every run of servers and peers with one
    leader per term, whatever crashes, leader changes and concurrent requests it
    has, what [Submit] answers to a client's or controller's request is what one
    server answers that has executed the requests before it in the log, each
    once; and when the request was FreezeShard and the answer has data, the data
    is the shard's part of that server's table, and stays it for every longer
    log, until a DeleteShard of this or a later configuration: the shard is frozen
    and its part of the table unchanged. *)
Theorem shard_group_linearized n clk acts done k i r j s v :
  run acts n clk = Some (done, k) → in_sequence_run done (cluster_init clk n) = Some (k_cluster k) →
  single n clk done → ids_drawn acts → ids_distinct acts →
  k_replicas k !! i = Some r → subs (k_rsm r) !! j = Some s → s_ret s = Some (OK, inr v) →
  ∃ L kv kv', zlen L = s_index s - 1 ∧ of_log n clk done (k_cluster k) (L ++ [s_req s])
    ∧ exec_log L (group_init gid) = Ret kv ∧ DoOp (s_req s) kv = Ret (kv', v)
    ∧ ∀ a rep data, s_req s = AFreeze a → v = AFreezeReply rep → frr_State rep = Some data →
        data = [GTable (part (fr_Shard a) (tbl kv))]
        ∧ ∀ L' kv'', Forall (keeps_frozen (fr_Shard a) (fr_Num a)) L' →
            exec_log (L ++ [s_req s] ++ L') (group_init gid) = Ret kv'' →
            containShardAndNoFrozen kv'' (fr_Shard a) = false ∧ data = packShardData kv'' (fr_Shard a).
Proof.
  intros E Hseq Hs Hid Hdis Hi Hj Hret.
  destruct (Submit_result (-1) (λ _, 0) (group_init gid) n clk acts done k i r j s v)
    as (L & kv & kv' & HL & Hof & _ & Hex & Hdo); [apply Restore_Snapshot_shard|done..|].
  exists L, kv, kv'. split_and!; try done. intros a rep data Hreq -> Hdata. rewrite Hreq in *.
  destruct (freeze_answer a kv kv' rep data Hdo Hdata) as (Hf & Hn & -> & Ht). split; [by rewrite Ht|].
  intros L' kv'' Hkeep Hex'. rewrite exec_log_app, Hex in Hex'. cbn [mbind outcome_bind app exec_log] in Hex'.
  rewrite Hdo in Hex'. cbn [mbind outcome_bind] in Hex'.
  destruct (frozen_log (fr_Shard a) (fr_Num a) L' kv' kv'') as (Hf' & _ & Hp); [done|lia|done|done|].
  split; [by apply frozen_not_served|]. unfold packShardData. by rewrite Hp.
Qed.
End cluster.

(** *** A concrete run *)

Abbreviation group_run acts := (stack_run (-1) (λ _, 0) (group_init Gid1) acts (stack_init (group_init Gid1) clk0 3)).

Definition freeze_k : FreezeShardArgs := {| fr_Shard := Key2Shard "k"; fr_Num := 2 |}.

(** a put, the freeze of its shard and another put, which is refused, at a leader
    that peer 1 elected; then the leader crashes *)
Definition group_acts : list (kaction any bytes) :=
  let late := {| now := 1000; rnd := 0 |} in
  (KRaft <$> [ATick 0 late; ADeliver 0 late; AReply 0 late]) ++
  [KSubmit 0 71 (APutArgs {| put_Key := "k"; put_Value := "a"; put_Version := 0 |}); KSubmit 0 72 (AFreeze freeze_k);
   KSubmit 0 73 (APutArgs {| put_Key := "k"; put_Value := "b"; put_Version := 1 |})] ++
  (KRaft <$> [AHeartBeat 0; ADeliver 1 late; AReply 1 late; ACommit 0; AApply 0; ASend 0; ASend 0; ASend 0]) ++
  [KRead 0; KRead 0; KRead 0; KRecv 0 1; KRecv 0 2; KRaft (ACrash 2 late)].

Definition k_data : bytes := [GTable {[ "k" := {| Value := "a"; Version := 1 |} ]}].

Lemma shard_group_linearized_witness : ∃ done k r s rep L kv,
  group_run group_acts = Some (done, k) ∧ k_replicas k !! 0%nat = Some r ∧ subs (k_rsm r) !! 1%nat = Some s
  ∧ s_ret s = Some (OK, inr (AFreezeReply rep)) ∧ frr_State rep = Some k_data
  ∧ of_log 3 clk0 done (k_cluster k) (L ++ [AFreeze freeze_k]) ∧ exec_log L (group_init Gid1) = Ret kv
  ∧ k_data = [GTable (part (Key2Shard "k") (tbl kv))]
  ∧ ∀ L' kv'', Forall (keeps_frozen (Key2Shard "k") 2) L' →
      exec_log (L ++ [AFreeze freeze_k] ++ L') (group_init Gid1) = Ret kv'' →
      containShardAndNoFrozen kv'' (Key2Shard "k") = false ∧ k_data = packShardData kv'' (Key2Shard "k").
Proof.
  destruct (group_run group_acts) as [[done k]|] eqn:E; [|vm_compute in E; discriminate E].
  assert (∃ r s rep, k_replicas k !! 0%nat = Some r ∧ subs (k_rsm r) !! 1%nat = Some s
    ∧ s_ret s = Some (OK, inr (AFreezeReply rep)) ∧ frr_State rep = Some k_data ∧ s_req s = AFreeze freeze_k)
    as (r & s & rep & Hr & Hs & Hret & Hdata & Hreq).
  { vm_compute in E. injection E as _ <-. eexists _, _, _. split_and!; vm_compute; reflexivity. }
  destruct (shard_group_linearized Gid1 3 clk0 group_acts done k 0 r 1 s (AFreezeReply rep))
    as (L & kv & kv' & _ & Hof & Hex & _ & Hfr).
  - exact E.
  - vm_compute in E. injection E as <- <-. vm_compute. reflexivity.
  - right. vm_compute in E. injection E as <- <-. apply one_leader_checked. vm_compute. reflexivity.
  - by apply ids_checked.
  - apply ids_distinct_checked. vm_compute. reflexivity.
  - exact Hr.
  - exact Hs.
  - exact Hret.
  - rewrite Hreq in Hof, Hfr. destruct (Hfr freeze_k rep k_data eq_refl eq_refl Hdata) as [H1 H2].
    exists done, k, r, s, rep, L, kv. split; [reflexivity|]. split; [exact Hr|]. split; [exact Hs|].
    split; [exact Hret|]. split; [exact Hdata|]. split; [exact Hof|]. split; [exact Hex|]. split; [exact H1|exact H2].
Defined.
