(* ===== verification/ShardCtrler.v ===== *)
(** * The shard controller (shardkv1/shardctrler/shardctrler.go)

    A controller keeps two keys in a kvsrv1 service: the current configuration
    and the one being installed.  Its methods are threads of steps, one per RPC:
    [pc] is where a thread stands, and each function below is the code between
    the answer of one call and the next call.  ShardSystem runs the threads
    against the services they call. *)

From S2P Require Import Prelude KvRpc KvSrv KvClerk ShardCfg ShardJson ShardGrp.
Local Open Scope Z_scope.

Section ctrler.
Context `{ConfigCodec}.

Definition CurConfigKey : string := "CurConfig".
Definition NewConfigKey : string := "NewConfig".

(** the calls [changConfig] makes for one shard *)
Inductive call := CFreeze | CInstall (data : option bytes) | CDelete.

(** Where a thread stands: before the first [Get] of [doRecovery] or of
    [ChangeConfigTo]; before [doRecovery]'s second [Get]; inside one of the two
    calls of [putOnce] ([Put*]: its [Put], [first] until the clerk has made an
    attempt; [Check*]: its [Get] after [ErrMaybe]); in [changConfig]'s loop. *)
Inductive pc :=
| RecGetCur
| RecGetNew (curConfig : ShardConfig) (curVer : Tversion)
| ChgGetCur (newConfig : ShardConfig)
| PutNew (curConfig newConfig : ShardConfig) (curVer : Tversion) (first : bool)
| CheckNew (curConfig newConfig : ShardConfig) (curVer : Tversion)
| Moving (curConfig newConfig : ShardConfig) (newStr : string) (curVer : Tversion) (shid : Z) (c : call)
| PutCur (newStr : string) (curVer : Tversion) (first : bool)
| CheckCur (newStr : string) (curVer : Tversion)
| Returned
| Exited.  (** [log.Fatalf] or a panic ended the process *)

Definition or_exit (m : outcome pc) : pc := match m with Ret p => p | _ => Exited end.

(** *** [putOnce]: its two calls.  [inl b]: it returns [b]; [inr]: it goes on
    with the [Get] *)
Definition putOnce_after_put (err : outcome Err) : outcome (bool + unit) :=
  match err with
  | Ret ErrMaybe => Ret (inr tt)
  | Ret OK => Ret (inl true)
  | Ret ErrVersion => Ret (inl false)
  | Ret _ => Fatal
  | Fatal => Fatal
  | Panic => Panic
  end.

Definition putOnce_after_get (value : string) (version : Tversion) (val : string) (ver : Tversion) (err : Err)
    : bool :=
  bool_decide (err = OK ∧ val = value ∧ ver = version).

(** *** [changConfig]: the test of its loop, and the shard it handles from
    [shid] on ([n] shards left) *)
Definition to_move (curConfig newConfig : ShardConfig) (shid : Z) : outcome bool :=
  '(curGid, curServers) ← GidServers shid curConfig;
  '(newGid, newServers) ← GidServers shid newConfig;
  Ret (bool_decide (curGid ≠ newGid ∨ default [] curServers ≠ default [] newServers)).

Fixpoint next_move (n : nat) (curConfig newConfig : ShardConfig) (shid : Z) : outcome (option Z) :=
  match n with
  | O => Ret None
  | S n' =>
      b ← to_move curConfig newConfig shid;
      if b : bool then Ret (Some shid) else next_move n' curConfig newConfig (shid + 1)
  end.

Definition changConfig (curConfig newConfig : ShardConfig) (newStr : string) (curVer : Tversion) (shid : Z)
    : outcome pc :=
  next ← next_move (Z.to_nat (NShards - shid)) curConfig newConfig shid;
  match next with
  | Some s => Ret (Moving curConfig newConfig newStr curVer s CFreeze)
  | None => Ret (PutCur newStr curVer true)
  end.

(** the call in progress: the group, its servers and the request.  (The clerks
    kept in [clients2Cur] and [clients2New] differ from fresh ones only in the
    leader they try first.)  A clerk without servers panics in its first call. *)
Definition moving_call (curConfig newConfig : ShardConfig) (shid : Z) (c : call)
    : outcome (Z * ShardGrp.any) :=
  '(curGid, curServers) ← GidServers shid curConfig;
  '(newGid, newServers) ← GidServers shid newConfig;
  let to gid servers req :=
    match default [] servers with [] => Panic | _ => Ret (gid, req) end in
  match c with
  | CFreeze => to curGid curServers (ShardGrp.AFreeze {| fr_Shard := shid; fr_Num := Num newConfig |})
  | CInstall data =>
      to newGid newServers (ShardGrp.AInstall {| in_Shard := shid; in_State := data; in_Num := Num newConfig |})
  | CDelete => to curGid curServers (ShardGrp.ADelete {| de_Shard := shid; de_Num := Num newConfig |})
  end.

(** after an answer other than [ErrWrongLeader] (the clerk retries on that);
    only [FreezeShard]'s data is used, whatever its error *)
Definition moving_answer (curConfig newConfig : ShardConfig) (newStr : string) (curVer : Tversion) (shid : Z)
    (c : call) (reply : ShardGrp.any) : outcome pc :=
  let goto := Moving curConfig newConfig newStr curVer in
  match c, reply with
  | CFreeze, ShardGrp.AFreezeReply r => Ret (goto shid (CInstall (frr_State r)))
  | CInstall _, ShardGrp.AInstallReply _ => Ret (goto shid CDelete)
  | CDelete, ShardGrp.ADeleteReply _ => changConfig curConfig newConfig newStr curVer (shid + 1)
  | _, _ => Fatal
  end.

(** *** [doRecovery] *)
Definition doRecovery_cur (r : GetReply) : outcome pc :=
  if decide (get_Err r = ErrNoKey) then Fatal
  else curConfig ← codec_FromString (get_Value r); Ret (RecGetNew curConfig (get_Version r)).

(** versions are [uint64]: the differences wrap *)
Definition doRecovery_new (curConfig : ShardConfig) (curVer : Tversion) (r : GetReply) : outcome pc :=
  if decide (get_Err r = ErrNoKey) then Ret Returned
  else
    newConfig ← codec_FromString (get_Value r);
    let newVer := get_Version r in
    if decide (u64 (curVer - newVer) = 1 ∧ Num curConfig = Num newConfig) then Ret Returned
    else if decide (u64 (curVer - newVer) ≠ 1 ∧ u64 (curVer - newVer) ≠ 0) then Fatal
    else changConfig curConfig newConfig (get_Value r) curVer 0.

(** *** [ChangeConfigTo] *)
Definition ChangeConfigTo_cur (newConfig : ShardConfig) (r : GetReply) : outcome pc :=
  if decide (get_Err r = ErrNoKey) then Fatal
  else
    curConfig ← codec_FromString (get_Value r);
    if decide (Num newConfig ≤ Num curConfig) then Ret Returned
    else Ret (PutNew curConfig newConfig (get_Version r) true).

Definition ChangeConfigTo_posted (curConfig newConfig : ShardConfig) (curVer : Tversion) (ok : bool)
    : outcome pc :=
  if ok then changConfig curConfig newConfig (codec_String newConfig) curVer 0 else Ret Returned.

Definition PutNew_args (newConfig : ShardConfig) (curVer : Tversion) : PutArgs :=
  {| put_Key := NewConfigKey; put_Value := codec_String newConfig; put_Version := u64 (curVer - 1) |}.

Definition PutNew_answer (curConfig newConfig : ShardConfig) (curVer : Tversion) (err : outcome Err) : outcome pc :=
  a ← putOnce_after_put err;
  match a with
  | inl ok => ChangeConfigTo_posted curConfig newConfig curVer ok
  | inr _ => Ret (CheckNew curConfig newConfig curVer)
  end.

Definition CheckNew_answer (curConfig newConfig : ShardConfig) (curVer : Tversion) (r : GetReply) : outcome pc :=
  let a := PutNew_args newConfig curVer in
  ChangeConfigTo_posted curConfig newConfig curVer
    (putOnce_after_get (put_Value a) (put_Version a) (get_Value r) (get_Version r) (get_Err r)).

(** the last [putOnce] of both methods, whose result they ignore *)
Definition PutCur_args (newStr : string) (curVer : Tversion) : PutArgs :=
  {| put_Key := CurConfigKey; put_Value := newStr; put_Version := curVer |}.

Definition PutCur_answer (newStr : string) (curVer : Tversion) (err : outcome Err) : outcome pc :=
  a ← putOnce_after_put err;
  Ret (match a with inl _ => Returned | inr _ => CheckCur newStr curVer end).

(** *** [InitConfig] over a reliable call, and [Query] *)
Definition InitConfig (cfg : ShardConfig) (kv : KvSrv.KVServer) : outcome KvSrv.KVServer :=
  let '(kv', r) :=
    KvSrv.Put kv {| put_Key := CurConfigKey; put_Value := codec_String cfg; put_Version := 0 |} PutReply0 in
  a ← putOnce_after_put (Put_first_reply r);
  match a with inl true => Ret kv' | _ => Fatal end.

Definition Query (kv : KvSrv.KVServer) : outcome ShardConfig :=
  let r := KvSrv.Get kv {| get_Key := CurConfigKey |} GetReply0 in
  if decide (get_Err r = ErrNoKey) then Fatal else codec_FromString (get_Value r).
End ctrler.
