(* ===== verification/ShardProto.v ===== *)
(** * Moving one shard between groups: the protocol, shard by shard

    What the freeze/install/delete calls of the shard groups
    (shardkv1/shardgrp/server.go) do to a single shard, and the invariant under
    which the controllers (shardkv1/shardctrler) send them: at any time one
    group serves the shard, or one group holds it frozen. *)

From S2P Require Import Prelude KvRpc ShardCfg ShardGrp.
Local Open Scope Z_scope.

(** ** A group's view of one shard *)
Record view := { v_st : Z; v_num : Z; v_data : table }.

(** *** The operations on a view; the middle result is the data [doFreezeShard]
    returns *)
Definition view_freeze (n : Z) (w : view) : view * option table :=
  if decide (n < v_num w) then (w, None)
  else if decide (v_st w = ShardGrp.Noshard) then ({| v_st := v_st w; v_num := n; v_data := v_data w |}, None)
  else ({| v_st := ShardGrp.FrozenShard; v_num := n; v_data := v_data w |}, Some (v_data w)).

Definition view_install (n : Z) (d : option table) (w : view) : outcome view :=
  if decide (n ≤ v_num w) then Ret w
  else if decide (v_st w = ShardGrp.FrozenShard) then Fatal
  else Ret {| v_st := ShardGrp.ValidShard; v_num := n; v_data := default ∅ d ∪ v_data w |}.

Definition view_delete (n : Z) (w : view) : outcome view :=
  if decide (n < v_num w) then Ret w
  else if decide (v_st w = ShardGrp.Noshard) then Ret {| v_st := v_st w; v_num := n; v_data := v_data w |}
  else if decide (v_st w = ShardGrp.ValidShard) then Fatal
  else Ret {| v_st := ShardGrp.Noshard; v_num := n; v_data := ∅ |}.

(** two different values of [ShardState] *)
Ltac st_absurd := exfalso; unfold ShardGrp.Noshard, ShardGrp.ValidShard, ShardGrp.FrozenShard in *; congruence.

Section proto.
(** the owner of the shard and the number of the [j]-th posted configuration *)
Implicit Types (own num : nat → Z) (n j : nat) (g : Z) (V : Z → view) (T : table).

(** configuration [j] moves the shard *)
Definition moved own j : Prop := (0 < j)%nat ∧ own (j - 1)%nat ≠ own j.

#[local] Instance moved_dec own j : Decision (moved own j).
Proof. unfold moved. apply _. Defined.

(** the new owner has installed the shard under configuration [j]; the old one
    has given it up; what a freeze reply carries *)
Definition installed own num V j : Prop := num j ≤ v_num (V (own j)).

#[local] Instance installed_dec own num V j : Decision (installed own num V j).
Proof. unfold installed. apply _. Defined.

Definition given_up own num V j : Prop :=
  installed own num V j
  ∧ num j ≤ v_num (V (own (j - 1)%nat))
  ∧ (v_st (V (own (j - 1)%nat)) = ShardGrp.Noshard ∨ num j < v_num (V (own (j - 1)%nat))).

Definition carries own num n V T j (d : option table) : Prop :=
  installed own num V j
  ∨ (j = n ∧ d = Some T ∧ v_st (V (own (j - 1)%nat)) = ShardGrp.FrozenShard).

Definition free (w : view) : Prop := v_st w = ShardGrp.Noshard ∧ v_data w = ∅.
Definition serves T (w : view) : Prop := v_st w = ShardGrp.ValidShard ∧ v_data w = T.

(** how far the move of the last configuration [n] has come *)
Inductive phase own num n V T : Prop :=
| ph_settled :
    ¬ moved own n → serves T (V (own n)) → (∀ g, g ≠ own n → free (V g)) → phase own num n V T
| ph_before :
    moved own n → serves T (V (own (n - 1)%nat)) →
    (∀ g, g ≠ own (n - 1)%nat → free (V g)) → (∀ g, v_num (V g) < num n) → phase own num n V T
| ph_frozen :
    moved own n → v_st (V (own (n - 1)%nat)) = ShardGrp.FrozenShard → v_data (V (own (n - 1)%nat)) = T →
    v_num (V (own (n - 1)%nat)) = num n →
    (∀ g, g ≠ own (n - 1)%nat → free (V g) ∧ v_num (V g) < num n) → phase own num n V T
| ph_installed :
    moved own n → serves T (V (own n)) → v_num (V (own n)) = num n →
    v_num (V (own (n - 1)%nat)) = num n →
    (v_st (V (own (n - 1)%nat)) = ShardGrp.FrozenShard ∨ free (V (own (n - 1)%nat))) →
    (∀ g, g ≠ own n → g ≠ own (n - 1)%nat → free (V g)) → phase own num n V T.

(** [pub]: configuration [n] has been published as the current one *)
Record shard_inv own num n (pub : bool) V T : Prop := {
  si_phase : phase own num n V T;
  si_bound : ∀ g, v_num (V g) ≤ num n;
  si_past : ∀ j, (j ≤ n)%nat → (j < n)%nat ∨ pub = true → moved own j → given_up own num V j
}.

(** [V'] is [V] with the view of [g] replaced *)
Definition upd g (w : view) V : Z → view := λ g', if decide (g' = g) then w else V g'.

Lemma upd_eq g w V : upd g w V g = w.
Proof. unfold upd. by rewrite decide_True. Qed.
Lemma upd_ne g w V g' : g' ≠ g → upd g w V g' = V g'.
Proof. intros. unfold upd. by rewrite decide_False. Qed.
Lemma upd_same g V g' : upd g (V g) V g' = V g'.
Proof. unfold upd. by case_decide; subst. Qed.

(** what is known about the past stays true: numbers grow, and a shard given up
    comes back only under a larger number *)
Definition grows (w w' : view) : Prop :=
  v_num w ≤ v_num w' ∧ (v_st w = ShardGrp.Noshard → v_st w' = ShardGrp.Noshard ∨ v_num w < v_num w').

Lemma grows_refl w : grows w w.
Proof. split; [lia|tauto]. Qed.

Lemma installed_mono own num V V' j :
  (∀ g, grows (V g) (V' g)) → installed own num V j → installed own num V' j.
Proof. unfold installed. intros Hg Hi. destruct (Hg (own j)). lia. Qed.

Lemma given_up_mono own num V V' j :
  (∀ g, grows (V g) (V' g)) → given_up own num V j → given_up own num V' j.
Proof.
  intros Hg (Hi & Hn & Hs). split; [by eapply installed_mono|].
  destruct (Hg (own (j - 1)%nat)) as [Hle Hst]. split; [lia|].
  destruct Hs as [Hs|Hs]; [|right; lia]. destruct (Hst Hs); [by left|right; lia].
Qed.

Lemma grows_upd g w V : grows (V g) w → ∀ g', grows (V g') (upd g w V g').
Proof. intros Hg g'. unfold upd. case_decide; subst; [done|apply grows_refl]. Qed.

Lemma view_freeze_grows m w : grows w (fst (view_freeze m w)).
Proof.
  unfold view_freeze. repeat case_decide; simpl; [apply grows_refl|split; simpl..]; try lia; try tauto.
Qed.

Lemma view_freeze_data m w : snd (view_freeze m w) = None ∨ snd (view_freeze m w) = Some (v_data w).
Proof. unfold view_freeze. repeat case_decide; simpl; auto. Qed.

Lemma view_install_grows m d w w' : view_install m d w = Ret w' → grows w w'.
Proof.
  unfold view_install. repeat case_decide; intros [= <-]; [apply grows_refl|].
  split; simpl; [lia|]. intros; right; lia.
Qed.

Lemma view_delete_grows m w w' : view_delete m w = Ret w' → grows w w'.
Proof.
  unfold view_delete. repeat case_decide; intros [= <-]; [apply grows_refl|split; simpl..];
    try lia; tauto.
Qed.

(** *** Changing nothing *)
Lemma phase_ext own num n V V' T :
  (∀ g, V' g = V g) → phase own num n V T → phase own num n V' T.
Proof.
  intros He [? ? Hf|? ? Hf Hn|? ? ? ? Hf|? ? ? ? ? Hf];
    [apply ph_settled|apply ph_before|apply ph_frozen|apply ph_installed]; rewrite ?He; try done;
    intros; rewrite He; auto.
Qed.

Lemma given_up_ext own num V V' j : (∀ g, V' g = V g) → given_up own num V j → given_up own num V' j.
Proof. intros He. unfold given_up, installed. by rewrite !He. Qed.

Lemma shard_inv_ext own num n pub V V' T :
  (∀ g, V' g = V g) → shard_inv own num n pub V T → shard_inv own num n pub V' T.
Proof.
  intros He [Hp Hb Hh]. split; [by eapply phase_ext|intros; by rewrite He|].
  intros j ? ? ?. eapply given_up_ext; eauto.
Qed.

(** a step that replaces one view keeps the invariant if it keeps the phase *)
Lemma shard_inv_upd own num n pub V T T' g w :
  shard_inv own num n pub V T → grows (V g) w → v_num w ≤ num n →
  phase own num n (upd g w V) T' → shard_inv own num n pub (upd g w V) T'.
Proof.
  intros [_ Hb Hh] Hg Hw Hp. split; [done| |].
  - intros g'. unfold upd. case_decide; [done|apply Hb].
  - intros j ? ? ?. eapply given_up_mono; [by apply grows_upd|eauto].
Qed.

Lemma installed_now own num n pub V T j :
  shard_inv own num n pub V T → (j ≤ n)%nat → moved own j → (j < n)%nat ∨ pub = true → installed own num V j.
Proof. intros Hi ???. by apply (si_past _ _ _ _ _ _ Hi). Qed.

(** at the last configuration: installed exactly in the last phase *)
Lemma phase_moved own num n V T :
  moved own n → phase own num n V T →
  let a := own (n - 1)%nat in let b := own n in
  (¬ installed own num V n ∧ serves T (V a) ∧ (∀ g, g ≠ a → free (V g)) ∧ (∀ g, v_num (V g) < num n))
  ∨ (¬ installed own num V n ∧ v_st (V a) = ShardGrp.FrozenShard ∧ v_data (V a) = T ∧ v_num (V a) = num n
     ∧ (∀ g, g ≠ a → free (V g) ∧ v_num (V g) < num n))
  ∨ (installed own num V n ∧ serves T (V b) ∧ v_num (V b) = num n ∧ v_num (V a) = num n
     ∧ (v_st (V a) = ShardGrp.FrozenShard ∨ free (V a)) ∧ (∀ g, g ≠ b → g ≠ a → free (V g))).
Proof.
  intros Hm Hp. pose proof Hm as [_ Hne]. unfold installed.
  destruct Hp as [Hn|_ Hs Hf Hlt|_ Hst Hd Hn Hf|_ Hs Hnb Hna Ha Hf]; [done|left|right; left|right; right]; simpl.
  - split_and!; try done. specialize (Hlt (own n)). lia.
  - split_and!; try done. destruct (Hf (own n)); [done|lia].
  - split_and!; try done. lia.
Qed.

(** *** A freeze call of configuration [j], old or new *)
Lemma freeze_given_up own num V j :
  given_up own num V j →
  let a := own (j - 1)%nat in ∀ g, upd a (fst (view_freeze (num j) (V a))) V g = V g.
Proof.
  intros (_ & Hn & Hs) a g. unfold upd. case_decide; subst; [|done]. subst a. unfold view_freeze.
  case_decide; simpl; [done|]. destruct Hs as [Hs|]; [|lia]. rewrite decide_True by done. simpl.
  destruct (V _) as [st nm d]; simpl in *. f_equal. lia.
Qed.

(** what the next lemmas say of a step: what was known stays known *)
Definition keeps own num n V V' T T' : Prop :=
  (∀ g, grows (V g) (V' g))
  ∧ ∀ j d, moved own j → carries own num n V T j d → carries own num n V' T' j d.

Lemma keeps_ext own num n V V' T : (∀ g, V' g = V g) → keeps own num n V V' T T.
Proof.
  intros He. split; [intros g; rewrite He; apply grows_refl|].
  intros j d _. unfold carries, installed. by rewrite !He.
Qed.

Lemma keeps_upd own num n V T g w :
  grows (V g) w →
  (v_st (V (own (n - 1)%nat)) = ShardGrp.FrozenShard → moved own n → ¬ installed own num V n →
     v_st (upd g w V (own (n - 1)%nat)) = ShardGrp.FrozenShard ∨ installed own num (upd g w V) n) →
  keeps own num n V (upd g w V) T T.
Proof.
  intros Hg Hf. split; [by apply grows_upd|]. intros j d Hm.
  unfold carries. intros [Hi|(-> & -> & Hs)]; [left; eapply installed_mono; [by apply grows_upd|done]|].
  destruct (decide (installed own num V n)) as [Hi|Hi].
  - left. eapply installed_mono; [by apply grows_upd|done].
  - destruct (Hf Hs Hm Hi); [right|left]; done.
Qed.

Lemma freeze_ok own num n pub V T j :
  shard_inv own num n pub V T → (j ≤ n)%nat → moved own j →
  let a := own (j - 1)%nat in
  let '(w, d) := view_freeze (num j) (V a) in
  shard_inv own num n pub (upd a w V) T ∧ carries own num n (upd a w V) T j d
  ∧ keeps own num n V (upd a w V) T T.
Proof.
  intros Hi Hj Hm a. destruct (view_freeze (num j) (V a)) as [w d] eqn:E.
  assert (w = fst (view_freeze (num j) (V a))) as Hw by by rewrite E.
  assert (keeps own num n V (upd a w V) T T) as Hk.
  { apply keeps_upd; [rewrite Hw; apply view_freeze_grows|]. intros Hst _ _. left. unfold upd.
    case_decide as Ha; [|done]. rewrite Hw, <-Ha. unfold view_freeze. repeat case_decide; done. }
  cut (shard_inv own num n pub (upd a w V) T ∧ carries own num n (upd a w V) T j d); [tauto|]. clear Hk.
  assert (given_up own num V j → shard_inv own num n pub (upd a w V) T ∧ carries own num n (upd a w V) T j d) as Hold.
  { intros Hg. pose proof (freeze_given_up _ _ _ _ Hg) as He. cbv zeta in He; fold a in He; rewrite <-Hw in He. split.
    - by eapply shard_inv_ext.
    - left. eapply installed_mono; [|apply Hg]. intros g. rewrite He. apply grows_refl. }
  destruct (decide ((j < n)%nat ∨ pub = true)) as [Hlt|Hlast]; [apply Hold; by eapply si_past|].
  assert (j = n) as -> by (destruct (decide (j < n)%nat); [tauto|lia]).
  pose proof (view_freeze_grows (num n) (V a)) as Hgr. rewrite <-Hw in Hgr.
  pose proof (si_bound _ _ _ _ _ _ Hi) as Hb. pose proof Hm as [_ Hne]. fold a in Hne.
  assert (v_st (V a) = ShardGrp.FrozenShard → v_num (V a) = num n →
          w = {| v_st := ShardGrp.FrozenShard; v_num := num n; v_data := v_data (V a) |}
          ∧ d = Some (v_data (V a))) as Hagain.
  { intros Hst Hn. unfold view_freeze in E. rewrite decide_False in E by lia.
    rewrite decide_False in E by (by rewrite Hst). by injection E as <- <-. }
  destruct (phase_moved _ _ _ _ _ Hm (si_phase _ _ _ _ _ _ Hi)) as
    [(Hni & [Hst Hd] & Hf & Hlt)|[(Hni & Hst & Hd & Hn & Hf)|(Hin & Hs & Hnb & Hna & Ha & Hf)]];
    [fold a in Hst, Hd, Hf|fold a in Hst, Hd, Hn, Hf|fold a in Hna, Ha, Hf].
  - unfold view_freeze in E. rewrite decide_False in E by (specialize (Hlt a); lia).
    rewrite decide_False in E by (by rewrite Hst). injection E as <- <-. split.
    + apply (shard_inv_upd _ _ _ _ _ T); [done|done|simpl; lia|].
      apply ph_frozen; fold a; rewrite ?upd_eq; try done. intros g Hg. rewrite upd_ne by done. auto.
    + right. fold a. rewrite upd_eq, Hd. done.
  - destruct (Hagain Hst Hn) as [-> ->]. split.
    + apply (shard_inv_upd _ _ _ _ _ T); [done|done|simpl; lia|].
      apply ph_frozen; fold a; rewrite ?upd_eq; try done. intros g Hg. rewrite upd_ne by done. auto.
    + right. fold a. rewrite upd_eq, Hd. done.
  - destruct Ha as [Ha|Ha].
    + destruct (Hagain Ha Hna) as [-> ->]. split.
      * apply (shard_inv_upd _ _ _ _ _ T); [done|done|simpl; lia|].
        apply ph_installed; fold a; rewrite ?(upd_ne _ _ _ (own n)), ?upd_eq by done; try done.
        -- by left.
        -- intros g ??. rewrite upd_ne by done. auto.
      * left. eapply installed_mono; [by apply grows_upd|done].
    + apply Hold. split_and!; [done|fold a; lia|left; apply Ha].
Qed.

(** *** An install call of configuration [j], with data from a freeze reply *)
Lemma install_ok own num n pub V T j d :
  shard_inv own num n pub V T → moved own j → carries own num n V T j d →
  let b := own j in
  ∃ w, view_install (num j) d (V b) = Ret w
  ∧ shard_inv own num n pub (upd b w V) T ∧ installed own num (upd b w V) j
  ∧ keeps own num n V (upd b w V) T T.
Proof.
  intros Hi Hm Hc b.
  destruct (decide (installed own num V j)) as [Hin|Hni].
  { exists (V b). unfold view_install. rewrite decide_True by done.
    pose proof (upd_same b V) as He. split_and!; [done|by eapply shard_inv_ext| |by apply keeps_ext].
    unfold installed. by rewrite He. }
  destruct Hc as [?|(-> & -> & Hst)]; [done|]. pose proof Hm as [_ Hne].
  destruct (phase_moved _ _ _ _ _ Hm (si_phase _ _ _ _ _ _ Hi)) as
    [(_ & [Hst' _] & _)|[(_ & _ & Hd & Hn & Hf)|(? & _)]]; [st_absurd| |done].
  destruct (Hf b) as [[Hsb Hdb] Hnb]; [by apply not_eq_sym|].
  exists {| v_st := ShardGrp.ValidShard; v_num := num n; v_data := T |}.
  unfold view_install. rewrite decide_False by lia. rewrite decide_False by (by rewrite Hsb).
  rewrite Hdb. simpl. rewrite (right_id_L ∅ (∪)).
  assert (grows (V b) {| v_st := ShardGrp.ValidShard; v_num := num n; v_data := T |}) as Hgr.
  { split; simpl; [lia|]. intros; right; lia. }
  assert (installed own num (upd b {| v_st := ShardGrp.ValidShard; v_num := num n; v_data := T |} V) n) as Hin.
  { unfold installed. fold b. by rewrite upd_eq. }
  split_and!; [done| |done|apply keeps_upd; [done|by right]].
  apply (shard_inv_upd _ _ _ _ _ T); [done|done|simpl; lia|].
  apply ph_installed; fold b; rewrite ?upd_eq, ?(upd_ne b _ _ (own (n - 1)%nat)) by done; try done.
  - by left.
  - intros g ??. rewrite upd_ne by done. by apply Hf.
Qed.

(** *** A delete call of configuration [j], sent after the install *)
Lemma delete_ok own num n pub V T j :
  shard_inv own num n pub V T → (j ≤ n)%nat → moved own j → installed own num V j →
  let a := own (j - 1)%nat in
  ∃ w, view_delete (num j) (V a) = Ret w
  ∧ shard_inv own num n pub (upd a w V) T ∧ given_up own num (upd a w V) j
  ∧ keeps own num n V (upd a w V) T T.
Proof.
  intros Hi Hj Hm Hin a.
  assert (given_up own num V j → ∃ w, view_delete (num j) (V a) = Ret w
    ∧ shard_inv own num n pub (upd a w V) T ∧ given_up own num (upd a w V) j
    ∧ keeps own num n V (upd a w V) T T) as Hold.
  { intros Hg. exists (V a). pose proof (upd_same a V) as He.
    split_and!; [|by eapply shard_inv_ext|by eapply given_up_ext|by apply keeps_ext].
    destruct Hg as (_ & Hn & Hs). fold a in Hn, Hs. unfold view_delete. case_decide; [done|].
    destruct Hs as [Hs|]; [|lia]. rewrite decide_True by done. destruct (V a); simpl in *. do 2 f_equal. lia. }
  destruct (decide ((j < n)%nat ∨ pub = true)) as [Hlt|Hlast]; [apply Hold; by eapply si_past|].
  assert (j = n) as -> by (destruct (decide (j < n)%nat); [tauto|lia]).
  pose proof Hm as [_ Hne]. fold a in Hne.
  destruct (phase_moved _ _ _ _ _ Hm (si_phase _ _ _ _ _ _ Hi)) as
    [(? & _)|[(? & _)|(_ & Hs & Hnb & Hna & Ha & Hf)]]; [done|done|fold a in Hna, Ha, Hf].
  destruct Ha as [Ha|Ha].
  2: { apply Hold. split_and!; [done|fold a; lia|left; apply Ha]. }
  exists {| v_st := ShardGrp.Noshard; v_num := num n; v_data := ∅ |}. unfold view_delete.
  rewrite decide_False by lia. rewrite !decide_False by (by rewrite Ha).
  assert (grows (V a) {| v_st := ShardGrp.Noshard; v_num := num n; v_data := ∅ |}) as Hgr.
  { split; simpl; [lia|by left]. }
  assert (installed own num (upd a {| v_st := ShardGrp.Noshard; v_num := num n; v_data := ∅ |} V) n) as Hin'.
  { eapply installed_mono; [by apply grows_upd|done]. }
  split_and!; [done| | |apply keeps_upd; [done|by right]].
  - apply (shard_inv_upd _ _ _ _ _ T); [done|done|simpl; lia|].
    apply ph_installed; fold a; rewrite ?(upd_ne a _ _ (own n)), ?upd_eq by done; try done.
    + by right.
    + intros g ??. rewrite upd_ne by done. auto.
  - split_and!; [done|..]; fold a; rewrite upd_eq; simpl; [lia|by left].
Qed.

(** *** A client's operation: only a group that serves the shard performs it *)
Lemma serving_data own num n pub V T g :
  shard_inv own num n pub V T → v_st (V g) = ShardGrp.ValidShard → v_data (V g) = T.
Proof.
  intros [Hp _ _] Hg.
  destruct Hp as [_ [_ Hd] Hf|_ [_ Hd] Hf _|_ Hst _ _ Hf|_ [_ Hd] _ _ Ha Hf].
  - destruct (decide (g = own n)) as [->|Hne]; [done|]. destruct (Hf g Hne). st_absurd.
  - destruct (decide (g = own (n - 1)%nat)) as [->|Hne]; [done|]. destruct (Hf g Hne). st_absurd.
  - destruct (decide (g = own (n - 1)%nat)) as [->|Hne]; [st_absurd|]. destruct (Hf g Hne) as [[]]. st_absurd.
  - destruct (decide (g = own n)) as [->|Hne]; [done|].
    destruct (decide (g = own (n - 1)%nat)) as [->|Hne']; [|destruct (Hf g Hne Hne'); st_absurd].
    destruct Ha as [?|[? _]]; st_absurd.
Qed.

Lemma shard_states own num n pub V T g :
  shard_inv own num n pub V T →
  v_st (V g) = ShardGrp.Noshard ∨ v_st (V g) = ShardGrp.ValidShard ∨ v_st (V g) = ShardGrp.FrozenShard.
Proof.
  intros [Hp _ _]. unfold serves, free in *.
  destruct Hp as [_ [? _] Hf|_ [? _] Hf _|_ ? _ _ Hf|_ [? _] _ _ Ha Hf].
  - destruct (decide (g = own n)) as [->|Hne]; [auto|]. left. by apply Hf.
  - destruct (decide (g = own (n - 1)%nat)) as [->|Hne]; [auto|]. left. by apply Hf.
  - destruct (decide (g = own (n - 1)%nat)) as [->|Hne]; [auto|]. left. by apply Hf.
  - destruct (decide (g = own n)) as [->|Hne]; [auto|].
    destruct (decide (g = own (n - 1)%nat)) as [->|Hne']; [|left; by apply Hf].
    destruct Ha as [?|[? _]]; auto.
Qed.

(** at most one group serves the shard *)
Lemma one_server own num n pub V T g g' :
  shard_inv own num n pub V T →
  v_st (V g) = ShardGrp.ValidShard → v_st (V g') = ShardGrp.ValidShard → g = g'.
Proof.
  intros [Hp _ _] H1 H2.
  assert (∃ b, ∀ g, v_st (V g) = ShardGrp.ValidShard → g = b) as [b Hb]; [|by rewrite (Hb g), (Hb g')].
  destruct Hp as [_ _ Hf|_ _ Hf _|_ Hst _ _ Hf|_ _ _ _ Ha Hf].
  - exists (own n). intros x Hx. destruct (decide (x = own n)) as [|Hne]; [done|]. destruct (Hf x Hne). st_absurd.
  - exists (own (n - 1)%nat). intros x Hx. destruct (decide (x = own (n - 1)%nat)) as [|Hne]; [done|].
    destruct (Hf x Hne). st_absurd.
  - exists (own (n - 1)%nat). intros x Hx. destruct (decide (x = own (n - 1)%nat)) as [|Hne]; [done|].
    destruct (Hf x Hne) as [[]]. st_absurd.
  - exists (own n). intros x Hx. destruct (decide (x = own n)) as [|Hne]; [done|].
    destruct (decide (x = own (n - 1)%nat)) as [->|Hne']; [|destruct (Hf x Hne Hne'); st_absurd].
    destruct Ha as [?|[? _]]; st_absurd.
Qed.

Lemma client_ok own num n pub V T T' g :
  shard_inv own num n pub V T → v_st (V g) = ShardGrp.ValidShard →
  let V' := upd g {| v_st := v_st (V g); v_num := v_num (V g); v_data := T' |} V in
  shard_inv own num n pub V' T' ∧ keeps own num n V V' T T'.
Proof.
  intros Hi Hg V'. set (w := {| v_st := v_st (V g); v_num := v_num (V g); v_data := T' |}) in *.
  assert (grows (V g) w) as Hgr by (split; simpl; [lia|tauto]).
  pose proof Hi as [Hp Hb _]. split.
  - apply (shard_inv_upd _ _ _ _ _ T); [done|done|simpl; apply Hb|]. subst V'.
    destruct Hp as [Hm Hs Hf|Hm Hs Hf Hn|Hm Hst Hd Hn Hf|Hm Hs Hnb Hna Ha Hf].
    + assert (g = own n) as ->.
      { destruct (decide (g = own n)) as [|Hne]; [done|]. destruct (Hf g Hne). st_absurd. }
      apply ph_settled; rewrite ?upd_eq; [done|done|]. intros g' ?. rewrite upd_ne by done. auto.
    + assert (g = own (n - 1)%nat) as ->.
      { destruct (decide (g = own (n - 1)%nat)) as [|Hne]; [done|]. destruct (Hf g Hne). st_absurd. }
      apply ph_before; rewrite ?upd_eq; [done|done|intros g' ?; rewrite upd_ne by done; auto|].
      intros g'. unfold upd. case_decide; [simpl|]; auto.
    + destruct (decide (g = own (n - 1)%nat)) as [->|Hne]; [st_absurd|].
      destruct (Hf g Hne) as [[]]. st_absurd.
    + pose proof Hm as [_ Hne].
      assert (g = own n) as ->.
      { destruct (decide (g = own n)) as [|Hg1]; [done|].
        destruct (decide (g = own (n - 1)%nat)) as [->|Hg2]; [|destruct (Hf g Hg1 Hg2); st_absurd].
        destruct Ha as [?|[? _]]; st_absurd. }
      apply ph_installed; rewrite ?upd_eq, ?(upd_ne (own n) _ _ (own (n - 1)%nat)) by done; try done.
      intros g' ??. rewrite upd_ne by done. auto.
  - split; [by apply grows_upd|]. intros j d Hm [Hin|(-> & _ & Hst)].
    { left. eapply installed_mono; [by apply grows_upd|done]. }
    left. eapply installed_mono; [by apply grows_upd|].
    destruct (phase_moved _ _ _ _ _ Hm Hp) as [(_ & [? _] & _)|[(_ & _ & _ & _ & Hf)|(? & _)]]; [st_absurd| |done].
    destruct (decide (g = own (n - 1)%nat)) as [->|Hne]; [st_absurd|]. destruct (Hf g Hne) as [[]]. st_absurd.
Qed.

(** *** Publishing the last configuration, and posting the next *)
Lemma publish_ok own num n pub V T :
  shard_inv own num n pub V T → (moved own n → given_up own num V n) → shard_inv own num n true V T.
Proof.
  intros [Hp Hb Hh] Hg. split; [done|done|]. intros j Hj _ Hm.
  destruct (decide (j = n)) as [->|]; [by apply Hg|]. apply Hh; [done|left; lia|done].
Qed.

(** once published, the last owner serves the shard and nobody else has it *)
Lemma published_settled own num n V T :
  shard_inv own num n true V T → serves T (V (own n)) ∧ ∀ g, g ≠ own n → free (V g).
Proof.
  intros Hi. pose proof Hi as [Hp _ Hh]. destruct (decide (moved own n)) as [Hm|Hm].
  - assert (given_up own num V n) as Hg by (apply Hh; [lia|by right|done]).
    destruct (phase_moved _ _ _ _ _ Hm Hp) as [(Hn & _)|[(Hn & _)|(_ & Hs & _ & Hna & Ha & Hf)]];
      [by destruct Hg..|]. split; [done|]. intros g Hne.
    destruct (decide (g = own (n - 1)%nat)) as [->|]; [|auto].
    destruct Ha as [Ha|]; [|done]. destruct Hg as (_ & _ & [Hst|]); [st_absurd|lia].
  - destruct Hp; done.
Qed.

Lemma post_ok own num own' num' n V T :
  shard_inv own num n true V T →
  (∀ j, (j ≤ n)%nat → own' j = own j ∧ num' j = num j) → num n < num' (S n) →
  shard_inv own' num' (S n) false V T
  ∧ ∀ j d T', (j ≤ n)%nat → moved own j → carries own num n V T j d → carries own' num' (S n) V T' j d.
Proof.
  intros Hi He Hnum. pose proof Hi as [_ Hb Hh].
  assert (∀ j, (j ≤ n)%nat → moved own' j ↔ moved own j) as Hmv.
  { intros j Hj. unfold moved. destruct (He j) as [E1 _]; [lia|].
    destruct (He (j - 1)%nat) as [E2 _]; [lia|]. by rewrite E1, E2. }
  assert (∀ j, (j ≤ n)%nat → given_up own num V j → given_up own' num' V j) as Hgv.
  { intros j Hj. unfold given_up, installed. destruct (He j) as [E1 E2]; [lia|].
    destruct (He (j - 1)%nat) as [E3 _]; [lia|]. by rewrite E1, E2, E3. }
  destruct (published_settled _ _ _ _ _ Hi) as [Hs Hf]. destruct (He n) as [En _]; [done|].
  split; [split|].
  - assert (∀ g, v_num (V g) < num' (S n)) as Hlt by (intros g; specialize (Hb g); lia).
    destruct (decide (moved own' (S n))) as [Hm|Hm].
    + apply ph_before; replace (S n - 1)%nat with n by lia; rewrite ?En; done.
    + assert (own' (S n) = own n) as E.
      { unfold moved in Hm. replace (S n - 1)%nat with n in Hm by lia. rewrite En in Hm.
        destruct (decide (own n = own' (S n))); [done|]. exfalso. apply Hm. split; [lia|done]. }
      apply ph_settled; rewrite ?E; done.
  - intros g. specialize (Hb g). lia.
  - intros j Hj [Hlt|?] Hm; [|done]. apply Hgv; [lia|]. apply Hh; [lia|by right|apply Hmv; [lia|done]].
  - intros j d T' Hj Hm _. left. apply (Hgv j Hj). apply Hh; [done|by right|done].
Qed.
End proto.

(** ** The group servers implement the operations on views *)

Definition view_of (sh : Z) (kv : ShardGrp.KVServer) : view :=
  {| v_st := ShardGrp.state_of kv sh; v_num := ShardGrp.num_of kv sh; v_data := ShardGrp.part sh (ShardGrp.tbl kv) |}.

(** packed data as a freeze reply carries it, and tables of one shard's keys *)
Definition pack (d : option table) : option bytes := (λ t, [GTable t]) <$> d.
Definition of_shard (sh : Z) (t : table) : Prop := ∀ k, is_Some (t !! k) → Key2Shard k = sh.

Section views.
Implicit Types (kv : ShardGrp.KVServer) (sh : Z) (t : table).

Lemma part_lookup sh t k : ShardGrp.part sh t !! k = if decide (Key2Shard k = sh) then t !! k else None.
Proof.
  unfold ShardGrp.part. rewrite map_lookup_filter. destruct (t !! k); simpl; [|by case_decide].
  by case_guard.
Qed.

Lemma part_of_shard sh t : of_shard sh (ShardGrp.part sh t).
Proof. intros k [vv Hk]. rewrite part_lookup in Hk. by case_decide. Qed.

Lemma part_id sh t : of_shard sh t → ShardGrp.part sh t = t.
Proof.
  intros Hof. apply map_eq. intros k. rewrite part_lookup. case_decide; [done|].
  destruct (t !! k) eqn:E; [|done]. exfalso. apply H, Hof. eauto.
Qed.

Lemma part_other sh sh' t : of_shard sh t → sh' ≠ sh → ShardGrp.part sh' t = ∅.
Proof.
  intros Hof Hne. apply map_eq. intros k. rewrite part_lookup, lookup_empty. case_decide; [|done].
  destruct (t !! k) eqn:E; [|done]. exfalso. apply Hne. rewrite <-H. apply Hof. eauto.
Qed.

Lemma part_union sh d t : ShardGrp.part sh (d ∪ t) = ShardGrp.part sh d ∪ ShardGrp.part sh t.
Proof.
  apply map_eq. intros k. rewrite lookup_union, !part_lookup. case_decide; [by rewrite lookup_union|done].
Qed.

Lemma part_insert sh k vv t :
  ShardGrp.part sh (<[k := vv]> t) =
  if decide (Key2Shard k = sh) then <[k := vv]> (ShardGrp.part sh t) else ShardGrp.part sh t.
Proof.
  apply map_eq. intros k'. rewrite part_lookup.
  destruct (decide (k' = k)) as [->|Hne].
  - rewrite lookup_insert_eq. case_decide; [by rewrite lookup_insert_eq|].
    rewrite part_lookup, decide_False by done. done.
  - rewrite lookup_insert_ne by done. rewrite <-part_lookup.
    destruct (decide (Key2Shard k = sh)); [by rewrite lookup_insert_ne|done].
Qed.

Lemma part_put sh t a :
  ShardGrp.part sh (fst (spec_put t a)) =
  if decide (Key2Shard (put_Key a) = sh) then fst (spec_put (ShardGrp.part sh t) a) else ShardGrp.part sh t.
Proof.
  unfold spec_put, version_at. rewrite part_lookup.
  repeat (case_decide; subst; simpl; rewrite ?part_insert); try done.
Qed.

Lemma part_lookup_own t k : ShardGrp.part (Key2Shard k) t !! k = t !! k.
Proof. by rewrite part_lookup, decide_True. Qed.

Lemma part_put_answer t a :
  snd (spec_put (ShardGrp.part (Key2Shard (put_Key a)) t) a) = snd (spec_put t a).
Proof. unfold spec_put, version_at. rewrite part_lookup_own. by case_decide. Qed.

Lemma part_get t a : spec_get (ShardGrp.part (Key2Shard (get_Key a)) t) a = spec_get t a.
Proof. unfold spec_get, value_at, version_at. by rewrite part_lookup_own. Qed.

(** reading a record after the setters *)
Lemma view_of_num sh n kv sh' :
  view_of sh' (ShardGrp.set_num sh n kv) =
  if decide (sh' = sh) then {| v_st := v_st (view_of sh kv); v_num := n; v_data := v_data (view_of sh kv) |}
  else view_of sh' kv.
Proof.
  unfold view_of, ShardGrp.num_of, ShardGrp.state_of; simpl.
  case_decide; subst; [by rewrite lookup_insert_eq|by rewrite lookup_insert_ne].
Qed.

Lemma view_of_shard sh st kv sh' :
  view_of sh' (ShardGrp.set_shard sh st kv) =
  if decide (sh' = sh) then {| v_st := st; v_num := v_num (view_of sh kv); v_data := v_data (view_of sh kv) |}
  else view_of sh' kv.
Proof.
  unfold view_of, ShardGrp.num_of, ShardGrp.state_of; simpl.
  case_decide; subst; [by rewrite lookup_insert_eq|by rewrite lookup_insert_ne].
Qed.

Lemma view_of_tbl t kv sh :
  view_of sh (ShardGrp.set_tbl t kv) =
  {| v_st := v_st (view_of sh kv); v_num := v_num (view_of sh kv); v_data := ShardGrp.part sh t |}.
Proof. done. Qed.

Lemma doFreezeShard_view kv args sh' :
  let w := view_of (fr_Shard args) kv in
  let '(kv', r) := ShardGrp.doFreezeShard kv args in
  view_of sh' kv' = (if decide (sh' = fr_Shard args) then fst (view_freeze (fr_Num args) w) else view_of sh' kv)
  ∧ frr_State r = pack (snd (view_freeze (fr_Num args) w)).
Proof.
  destruct args as [sh n]; simpl. unfold ShardGrp.doFreezeShard, view_freeze; simpl.
  destruct (decide (n < ShardGrp.num_of kv sh)); simpl.
  { split; [|done]. by case_decide; subst. }
  change (ShardGrp.state_of (ShardGrp.set_num sh n kv) sh) with (ShardGrp.state_of kv sh).
  destruct (decide (ShardGrp.state_of kv sh = ShardGrp.Noshard)) as [E|E]; simpl.
  { by rewrite view_of_num. }
  destruct (decide (ShardGrp.state_of kv sh ≠ ShardGrp.FrozenShard)) as [E'|E'].
  - split; [|done]. rewrite view_of_shard, !view_of_num. destruct (decide (sh' = sh)); [|done]. by rewrite decide_True.
  - apply dec_stable in E'. split; [|done]. rewrite view_of_num. simpl. by rewrite E'.
Qed.

Lemma doInstallShard_view kv args d :
  in_State args = pack d → of_shard (in_Shard args) (default ∅ d) →
  match view_install (in_Num args) d (view_of (in_Shard args) kv) with
  | Ret w => ∃ kv' r, ShardGrp.doInstallShard kv args = Ret (kv', r) ∧ inr_Err r = OK
      ∧ ∀ sh', view_of sh' kv' = if decide (sh' = in_Shard args) then w else view_of sh' kv
  | _ => ShardGrp.doInstallShard kv args = Fatal
  end.
Proof.
  destruct args as [sh data n]; simpl. intros -> Hd. unfold ShardGrp.doInstallShard, view_install; simpl.
  destruct (decide (n ≤ ShardGrp.num_of kv sh)).
  { eexists _, _. split_and!; [done|done|]. intros sh'. by case_decide; subst. }
  change (ShardGrp.state_of (ShardGrp.set_num sh n kv) sh) with (ShardGrp.state_of kv sh).
  destruct (decide (ShardGrp.state_of kv sh = ShardGrp.FrozenShard)) as [E|E]; [done|].
  destruct d as [d|]; simpl in *; (eexists _, _; split_and!; [done|done|]); intros sh';
    rewrite view_of_shard, ?view_of_tbl, !view_of_num.
  - rewrite !(decide_True (P := sh = sh)) by done. simpl. rewrite !part_union. destruct (decide (sh' = sh)) as [->|Hne].
    + by rewrite part_id.
    + rewrite (part_other sh) by done. rewrite (left_id_L ∅ (∪)). done.
  - rewrite !(decide_True (P := sh = sh)) by done. rewrite (left_id_L ∅ (∪)).
    by destruct (decide (sh' = sh)).
Qed.

Lemma doDeleteShard_view kv args :
  match view_delete (de_Num args) (view_of (de_Shard args) kv) with
  | Ret w => ∃ kv' r, ShardGrp.doDeleteShard kv args = Ret (kv', r) ∧ der_Err r = OK
      ∧ ∀ sh', view_of sh' kv' = if decide (sh' = de_Shard args) then w else view_of sh' kv
  | _ => ShardGrp.doDeleteShard kv args = Fatal
  end.
Proof.
  destruct args as [sh n]; simpl. unfold ShardGrp.doDeleteShard, view_delete; simpl.
  destruct (decide (n < ShardGrp.num_of kv sh)).
  { eexists _, _. split_and!; [done|done|]. intros sh'. by case_decide; subst. }
  change (ShardGrp.state_of (ShardGrp.set_num sh n kv) sh) with (ShardGrp.state_of kv sh).
  destruct (decide (ShardGrp.state_of kv sh = ShardGrp.Noshard)) as [E|E].
  { eexists _, _. split_and!; [done|done|]. intros sh'. by rewrite view_of_num. }
  destruct (decide (ShardGrp.state_of kv sh = ShardGrp.ValidShard)); [done|].
  eexists _, _. split_and!; [done|done|]. intros sh'.
  unfold ShardGrp.deleteShard. rewrite view_of_shard, !view_of_tbl, !view_of_num.
  assert (∀ sh', ShardGrp.part sh' (filter (λ e, Key2Shard e.1 ≠ sh) (ShardGrp.tbl kv))
          = if decide (sh' = sh) then ∅ else ShardGrp.part sh' (ShardGrp.tbl kv)) as Hp.
  { intros s. apply map_eq. intros k. rewrite part_lookup, map_lookup_filter.
    destruct (decide (s = sh)) as [->|Hne]; rewrite ?lookup_empty, ?part_lookup;
      destruct (ShardGrp.tbl kv !! k); simpl; try case_guard; simpl; repeat case_decide; try done.
    exfalso. simpl in *. naive_solver. }
  simpl. rewrite !Hp, !(decide_True (P := sh = sh)) by done. destruct (decide (sh' = sh)); done.
Qed.

(** a client's operation on the view of the key's shard *)
Lemma serving_view kv k :
  v_st (view_of (Key2Shard k) kv) = ShardGrp.ValidShard →
  ShardGrp.containShardAndNoFrozen kv (Key2Shard k) = true.
Proof.
  unfold view_of, ShardGrp.state_of, ShardGrp.containShardAndNoFrozen; simpl.
  destruct (ShardGrp.shards kv !! Key2Shard k); simpl; [|done]. by intros ->.
Qed.

Lemma doGet_view kv a :
  v_st (view_of (Key2Shard (get_Key a)) kv) = ShardGrp.ValidShard →
  let r := ShardGrp.doGet kv a in
  (get_Value r, get_Version r, get_Err r) = spec_get (v_data (view_of (Key2Shard (get_Key a)) kv)) a.
Proof.
  intros Hv. unfold ShardGrp.doGet. rewrite serving_view by done. simpl. rewrite part_get.
  unfold spec_get, value_at, version_at. destruct (ShardGrp.tbl kv !! get_Key a); done.
Qed.

Lemma doPut_view kv a :
  let sh := Key2Shard (put_Key a) in
  v_st (view_of sh kv) = ShardGrp.ValidShard →
  let '(kv', r) := ShardGrp.doPut kv a in
  put_Err r = snd (spec_put (v_data (view_of sh kv)) a)
  ∧ ∀ sh', view_of sh' kv' =
      if decide (sh' = sh)
      then {| v_st := v_st (view_of sh kv); v_num := v_num (view_of sh kv);
              v_data := fst (spec_put (v_data (view_of sh kv)) a) |}
      else view_of sh' kv.
Proof.
  intros sh Hv.
  assert (∃ kv' r, ShardGrp.doPut kv a = (kv', r) ∧ put_Err r = snd (spec_put (ShardGrp.tbl kv) a)
    ∧ kv' = ShardGrp.set_tbl (fst (spec_put (ShardGrp.tbl kv) a)) kv) as (kv' & r & -> & Hr & ->).
  { unfold ShardGrp.doPut. rewrite serving_view by done. unfold spec_put, version_at.
    destruct a as [k v n]; simpl. destruct kv as [t s m]; simpl.
    destruct (t !! k) as [[v0 n0]|] eqn:Ek; simpl; repeat case_decide; subst; simpl;
      eexists _, _; (split; [done|]); try done. }
  simpl. split; [by unfold sh; rewrite part_put_answer|]. intros sh'. rewrite view_of_tbl, part_put.
  change (Key2Shard (put_Key a)) with sh.
  destruct (decide (sh' = sh)) as [->|Hs]; [by rewrite decide_True|by rewrite decide_False].
Qed.

(** a group that does not serve the key's shard refuses *)
Lemma not_serving_view kv k :
  v_st (view_of (Key2Shard k) kv) = ShardGrp.Noshard ∨ v_st (view_of (Key2Shard k) kv) = ShardGrp.FrozenShard →
  ShardGrp.containShardAndNoFrozen kv (Key2Shard k) = false.
Proof.
  unfold view_of, ShardGrp.state_of, ShardGrp.containShardAndNoFrozen; simpl.
  destruct (ShardGrp.shards kv !! Key2Shard k) as [st|]; simpl; [|done]. by intros [->| ->].
Qed.
End views.
