(* ===== verification/ShardSystem.v ===== *)
(** * The sharded service: controllers, shard groups and clients together

    Any number of controller threads (ShardCtrler) run against one kvsrv1
    service and the shard groups (ShardGrp).  A call to a group is a message
    that, once sent, may be executed any number of times and arbitrarily late,
    also after its sender gave up or died: that is what a retrying clerk, a
    network that delays messages and a replicated log make of it.  Clients may
    at any time have any group execute any [Get] or [Put]. *)

From S2P Require Import Prelude KvRpc KvSrv KvClerk RaftNode ShardCfg ShardJson ShardGrp ShardCtrler ShardProto.
Local Open Scope Z_scope.

Section system.
Context `{ConfigCodec}.

(** the servers that form each group; a configuration assigns every shard to a
    group and lists that group's servers *)
Context (servers_of : Z → list string).

Definition valid_config (c : ShardConfig) : Prop :=
  plain_config c ∧ ∀ g, g ∈ Shards c → Groups c !! g = Some (servers_of g) ∧ servers_of g ≠ [].

(** [net]: calls sent to groups, with the group; [answers]: replies of the
    groups that nothing has lost yet; [spec]: the table that the performed
    client operations make, in the order in which they were performed *)
Record sys := {
  store : KvSrv.KVServer;
  grp : Z → ShardGrp.KVServer;
  ctls : list pc;
  net : list (Z * ShardGrp.any);
  answers : list (Z * ShardGrp.any * ShardGrp.any);
  spec : table
}.

Definition set_ctl (i : nat) (p : pc) (s : sys) : sys :=
  {| store := store s; grp := grp s; ctls := <[i := p]> (ctls s); net := net s; answers := answers s; spec := spec s |}.
Definition set_store (kv : KvSrv.KVServer) (s : sys) : sys :=
  {| store := kv; grp := grp s; ctls := ctls s; net := net s; answers := answers s; spec := spec s |}.
Definition add_ctl (p : pc) (s : sys) : sys :=
  {| store := store s; grp := grp s; ctls := ctls s ++ [p]; net := net s; answers := answers s; spec := spec s |}.
Definition add_net (m : Z * ShardGrp.any) (s : sys) : sys :=
  {| store := store s; grp := grp s; ctls := ctls s; net := m :: net s; answers := answers s; spec := spec s |}.

Definition store_get (s : sys) (key : string) : GetReply :=
  KvSrv.Get (store s) {| get_Key := key |} GetReply0.

(** one attempt of a clerk's [Put] on the store *)
Definition store_put (i : nat) (args : PutArgs) (f : fate) (first : bool) (retry : pc)
    (after : outcome Err → outcome pc) (s : sys) : sys :=
  let '(kv, r) := KvSrv.Put (store s) args PutReply0 in
  match f with
  | ReqLost => set_ctl i retry s
  | RepLost => set_ctl i retry (set_store kv s)
  | Delivered =>
      set_ctl i (or_exit (after (if first then Put_first_reply r else Put_resend_reply r))) (set_store kv s)
  end.

(** sending the call a thread stands at *)
Definition send_call (i : nat) (curConfig newConfig : ShardConfig) (shid : Z) (c : call) (s : sys) : sys :=
  match moving_call curConfig newConfig shid c with
  | Ret m => add_net m s
  | _ => set_ctl i Exited s
  end.

(** a group executes a request *)
Definition is_client (req : ShardGrp.any) : bool :=
  match req with ShardGrp.AGetArgs _ | ShardGrp.APutArgs _ => true | _ => false end.

Definition client_effect (req rep : ShardGrp.any) (t : table) : table :=
  match req, rep with
  | ShardGrp.APutArgs a, ShardGrp.APutReply r =>
      if decide (put_Err r = ErrWrongGroup) then t else fst (spec_put t a)
  | _, _ => t
  end.

Definition executed (g : Z) (req rep : ShardGrp.any) (kv : ShardGrp.KVServer) (s : sys) : sys :=
  {| store := store s; grp := λ g', if decide (g' = g) then kv else grp s g'; ctls := ctls s; net := net s;
     answers := (g, req, rep) :: answers s; spec := client_effect req rep (spec s) |}.

(** how a thread starts: [InitController], or [ChangeConfigTo] a valid
    configuration *)
Definition start_pc (p : pc) : Prop :=
  match p with
  | RecGetCur => True
  | ChgGetCur newConfig => valid_config newConfig
  | _ => False
  end.

Inductive step (s : sys) : sys → Prop :=
| step_start p : start_pc p → step s (add_ctl p s)
| step_rec_cur i :
    ctls s !! i = Some RecGetCur →
    step s (set_ctl i (or_exit (doRecovery_cur (store_get s CurConfigKey))) s)
| step_rec_new i curConfig curVer :
    ctls s !! i = Some (RecGetNew curConfig curVer) →
    step s (set_ctl i (or_exit (doRecovery_new curConfig curVer (store_get s NewConfigKey))) s)
| step_chg_cur i newConfig :
    ctls s !! i = Some (ChgGetCur newConfig) →
    step s (set_ctl i (or_exit (ChangeConfigTo_cur newConfig (store_get s CurConfigKey))) s)
| step_put_new i curConfig newConfig curVer first f :
    ctls s !! i = Some (PutNew curConfig newConfig curVer first) →
    step s (store_put i (PutNew_args newConfig curVer) f first (PutNew curConfig newConfig curVer false)
              (PutNew_answer curConfig newConfig curVer) s)
| step_check_new i curConfig newConfig curVer :
    ctls s !! i = Some (CheckNew curConfig newConfig curVer) →
    step s (set_ctl i (or_exit (CheckNew_answer curConfig newConfig curVer (store_get s NewConfigKey))) s)
| step_send i curConfig newConfig newStr curVer shid c :
    ctls s !! i = Some (Moving curConfig newConfig newStr curVer shid c) →
    step s (send_call i curConfig newConfig shid c s)
| step_answer i curConfig newConfig newStr curVer shid c g req rep :
    ctls s !! i = Some (Moving curConfig newConfig newStr curVer shid c) →
    moving_call curConfig newConfig shid c = Ret (g, req) → (g, req, rep) ∈ answers s →
    step s (set_ctl i (or_exit (moving_answer curConfig newConfig newStr curVer shid c rep)) s)
| step_put_cur i newStr curVer first f :
    ctls s !! i = Some (PutCur newStr curVer first) →
    step s (store_put i (PutCur_args newStr curVer) f first (PutCur newStr curVer false)
              (PutCur_answer newStr curVer) s)
| step_check_cur i newStr curVer :
    ctls s !! i = Some (CheckCur newStr curVer) → step s (set_ctl i Returned s)
| step_execute g req kv rep :
    is_client req = true ∨ (g, req) ∈ net s →
    ShardGrp.DoOp req (grp s g) = Ret (kv, rep) →
    step s (executed g req rep kv s).

(** every group has just started, and the tester has called [InitConfig] with a
    first configuration that gives all shards to group [Gid1] *)
Definition init (c0 : ShardConfig) (s : sys) : Prop :=
  valid_config c0 ∧ 0 ≤ Num c0 ∧ (∀ g, g ∈ Shards c0 → g = Gid1)
  ∧ InitConfig c0 KvSrv.MakeKVServer = Ret (store s)
  ∧ (∀ g, ShardGrp.StartServerShardGrp g MakePersister = Ret (grp s g))
  ∧ ctls s = [] ∧ net s = [] ∧ answers s = [] ∧ spec s = ∅.
End system.
