(* ===== verification/ShardSafety.v ===== *)
(** * The sharded service is one versioned store

    The invariant of ShardSystem: the two configuration keys describe a history
    of configurations, every shard is in a phase of its protocol (ShardProto)
    for the last of them, and what threads, messages and replies carry agrees
    with that history. *)

From Stdlib Require Import Ascii.
From S2P Require Import Prelude KvRpc KvSrv KvClerk RaftNode Rsm GoText ShardCfg ShardJson ShardGrp ShardCtrler ShardProto ShardSystem.
Local Open Scope Z_scope.

Section safety.
Context `{ConfigCodec} (servers_of : Z → list string).
Implicit Types (s : sys) (cs : list ShardConfig) (sh g : Z) (i j : nat) (p : pc).

(** ** The history of configurations *)

Definition gid_at (c : ShardConfig) sh : Z := default 0 (zlookup (Shards c) sh).
Definition own cs sh j : Z := match cs !! j with Some c => gid_at c sh | None => 0 end.
Definition num cs j : Z := match cs !! j with Some c => Num c | None => 0 end.
Definition last_ix cs : nat := (length cs - 1)%nat.
(** how many configurations have been published *)
Definition pubd cs (pub : bool) : nat := if pub then length cs else last_ix cs.

Definition in_range sh : Prop := 0 ≤ sh < NShards.

Definition configs_ok cs : Prop :=
  cs ≠ []
  ∧ (∀ c, c ∈ cs → valid_config servers_of c)
  ∧ (∀ j c c', cs !! j = Some c → cs !! S j = Some c' → Num c < Num c').

Lemma num_lt cs i j : configs_ok cs → (i < j)%nat → (j < length cs)%nat → num cs i < num cs j.
Proof.
  intros (_ & _ & Hs) Hij. induction Hij as [|j Hij IH]; intros Hj.
  - unfold num. destruct (lookup_lt_is_Some_2 cs i) as [c Hc]; [lia|].
    destruct (lookup_lt_is_Some_2 cs (S i)) as [c' Hc']; [lia|]. rewrite Hc, Hc'. by eapply Hs.
  - etrans; [apply IH; lia|]. unfold num.
    destruct (lookup_lt_is_Some_2 cs j) as [c Hc]; [lia|].
    destruct (lookup_lt_is_Some_2 cs (S j)) as [c' Hc']; [lia|]. rewrite Hc, Hc'. by eapply Hs.
Qed.

Lemma num_inj cs i j :
  configs_ok cs → (i < length cs)%nat → (j < length cs)%nat → num cs i = num cs j → i = j.
Proof.
  intros Hok Hi Hj He. destruct (Nat.lt_trichotomy i j) as [Hlt|[?|Hlt]]; [|done|].
  - pose proof (num_lt cs i j Hok Hlt Hj). lia.
  - pose proof (num_lt cs j i Hok Hlt Hi). lia.
Qed.

Lemma own_prefix cs c sh j : (j < length cs)%nat → own (cs ++ [c]) sh j = own cs sh j.
Proof. intros. unfold own. by rewrite lookup_app_l. Qed.
Lemma num_prefix cs c j : (j < length cs)%nat → num (cs ++ [c]) j = num cs j.
Proof. intros. unfold num. by rewrite lookup_app_l. Qed.

(** ** What valid configurations make of the controller's tests *)

Lemma gid_at_valid c sh :
  valid_config servers_of c → in_range sh →
  GidServers sh c = Ret (gid_at c sh, Some (servers_of (gid_at c sh))) ∧ servers_of (gid_at c sh) ≠ [].
Proof.
  intros ((Hlen & _) & Hg) Hr. unfold GidServers, go_index, gid_at.
  destruct (zlookup_is_Some (Shards c) sh) as [g Hz]; [unfold in_range in Hr; lia|].
  rewrite Hz. simpl. apply zlookup_Some in Hz as (_ & Hz). apply list_elem_of_lookup_2 in Hz.
  destruct (Hg _ Hz) as [-> ?]. done.
Qed.

Lemma to_move_valid cur new sh :
  valid_config servers_of cur → valid_config servers_of new → in_range sh →
  to_move cur new sh = Ret (bool_decide (gid_at cur sh ≠ gid_at new sh)).
Proof.
  intros Hc Hn Hr. unfold to_move.
  destruct (gid_at_valid cur sh Hc Hr) as [-> _], (gid_at_valid new sh Hn Hr) as [-> _]. simpl.
  f_equal. apply bool_decide_ext. split; [|by left]. intros [|Hs]; [done|]. intros E. by rewrite E in Hs.
Qed.

Lemma next_move_valid cur new n sh :
  valid_config servers_of cur → valid_config servers_of new →
  0 ≤ sh → sh + Z.of_nat n = NShards →
  ∃ r, next_move n cur new sh = Ret r
  ∧ match r with
    | Some m => sh ≤ m < NShards ∧ gid_at cur m ≠ gid_at new m ∧ ∀ x, sh ≤ x < m → gid_at cur x = gid_at new x
    | None => ∀ x, sh ≤ x < NShards → gid_at cur x = gid_at new x
    end.
Proof.
  intros Hc Hn. revert sh. induction n as [|n IH]; intros sh H0 Hsum; simpl.
  { exists None. split; [done|]. intros; lia. }
  rewrite to_move_valid by (try done; unfold in_range; lia). simpl.
  case_bool_decide as Hd.
  - exists (Some sh). split; [done|]. split_and!; [lia..|done|]. intros; lia.
  - destruct (IH (sh + 1)) as (r & -> & Hr); [lia..|]. exists r. split; [done|].
    destruct r as [m|].
    + destruct Hr as (? & ? & Hs). split_and!; [lia..|done|]. intros x ?.
      destruct (decide (x = sh)) as [->|]; [done|]. apply Hs. lia.
    + intros x ?. destruct (decide (x = sh)) as [->|]; [done|]. apply Hr. lia.
Qed.

(** ** The invariant *)

Definition views s sh : Z → view := λ g, view_of sh (grp s g).
Definition shard_table s sh : table := ShardGrp.part sh (spec s).

(** facts about configuration [j] and shard [sh] that stay true *)
Definition moved_at cs sh j : Prop := (j < length cs)%nat ∧ moved (own cs sh) j.
Definition inst cs s sh j : Prop := installed (own cs sh) (num cs) (views s sh) j.
Definition given cs s sh j : Prop := given_up (own cs sh) (num cs) (views s sh) j.
Definition carry cs s sh j (d : option table) : Prop :=
  carries (own cs sh) (num cs) (last_ix cs) (views s sh) (shard_table s sh) j d
  ∧ of_shard sh (default ∅ d).

Definition req_ok cs s (m : Z * ShardGrp.any) : Prop :=
  match snd m with
  | ShardGrp.AFreeze a =>
      ∃ j, moved_at cs (fr_Shard a) j ∧ in_range (fr_Shard a) ∧ fst m = own cs (fr_Shard a) (j - 1)
           ∧ fr_Num a = num cs j
  | ShardGrp.AInstall a =>
      ∃ j d, moved_at cs (in_Shard a) j ∧ in_range (in_Shard a) ∧ fst m = own cs (in_Shard a) j
             ∧ in_Num a = num cs j ∧ in_State a = pack d ∧ carry cs s (in_Shard a) j d
  | ShardGrp.ADelete a =>
      ∃ j, moved_at cs (de_Shard a) j ∧ in_range (de_Shard a) ∧ fst m = own cs (de_Shard a) (j - 1)
           ∧ de_Num a = num cs j ∧ inst cs s (de_Shard a) j
  | _ => False
  end.

Definition ans_ok cs s (m : Z * ShardGrp.any * ShardGrp.any) : Prop :=
  match snd (fst m), snd m with
  | ShardGrp.AFreeze a, ShardGrp.AFreezeReply r =>
      ∃ j d, moved_at cs (fr_Shard a) j ∧ in_range (fr_Shard a) ∧ fr_Num a = num cs j
             ∧ frr_State r = pack d ∧ carry cs s (fr_Shard a) j d
  | ShardGrp.AInstall a, ShardGrp.AInstallReply _ =>
      ∃ j, moved_at cs (in_Shard a) j ∧ in_range (in_Shard a) ∧ in_Num a = num cs j ∧ inst cs s (in_Shard a) j
  | ShardGrp.ADelete a, ShardGrp.ADeleteReply _ =>
      ∃ j, moved_at cs (de_Shard a) j ∧ in_range (de_Shard a) ∧ de_Num a = num cs j ∧ given cs s (de_Shard a) j
  | ShardGrp.AFreeze _, _ | ShardGrp.AInstall _, _ | ShardGrp.ADelete _, _ => False
  | _, _ => True
  end.

(** [curVer] is the version of configuration [i] of the history, published *)
Definition at_version cs pub (curVer : Tversion) (cur : ShardConfig) i : Prop :=
  curVer = Z.of_nat (S i) ∧ cs !! i = Some cur ∧ (S i ≤ pubd cs pub)%nat.

Definition done_below cs s sh j : Prop :=
  ∀ sh', 0 ≤ sh' < sh → moved_at cs sh' j → given cs s sh' j.

Definition pc_ok cs pub s p : Prop :=
  match p with
  | RecGetNew cur v => ∃ i, at_version cs pub v cur i
  | ChgGetCur new => valid_config servers_of new
  | PutNew cur new v _ => (∃ i, at_version cs pub v cur i) ∧ valid_config servers_of new ∧ Num cur < Num new
  | CheckNew cur new v =>
      (∃ i, at_version cs pub v cur i ∧ (S i < length cs)%nat)
  | Moving cur new str v sh c =>
      ∃ i, at_version cs pub v cur i ∧ cs !! S i = Some new ∧ str = codec_String new ∧ in_range sh
           ∧ moved_at cs sh (S i) ∧ done_below cs s sh (S i)
           ∧ match c with
             | CFreeze => True
             | CInstall data => ∃ d, data = pack d ∧ carry cs s sh (S i) d
             | CDelete => inst cs s sh (S i)
             end
  | PutCur str v _ =>
      ∃ i cur new, at_version cs pub v cur i ∧ cs !! S i = Some new ∧ str = codec_String new
                   ∧ done_below cs s NShards (S i)
  | _ => True
  end.

Record inv cs (pub : bool) s : Prop := {
  inv_configs : configs_ok cs;
  inv_pub : pub = false → (2 ≤ length cs)%nat;
  inv_cur : ∃ c, cs !! (pubd cs pub - 1)%nat = Some c
    ∧ KvSrv.tbl (store s) !! CurConfigKey
      = Some {| Value := codec_String c; Version := Z.of_nat (pubd cs pub) |};
  inv_new : KvSrv.tbl (store s) !! NewConfigKey
    = if decide (length cs = 1%nat) then None
      else (λ c, {| Value := codec_String c; Version := Z.of_nat (last_ix cs) |}) <$> last cs;
  inv_shards : ∀ sh, in_range sh →
    shard_inv (own cs sh) (num cs) (last_ix cs) pub (views s sh) (shard_table s sh);
  inv_net : ∀ m, m ∈ net s → req_ok cs s m;
  inv_answers : ∀ m, m ∈ answers s → ans_ok cs s m;
  inv_pcs : ∀ i p, ctls s !! i = Some p → pc_ok cs pub s p
}.

(** ** What is known stays known *)

Definition evolves cs pub s cs' pub' s' : Prop :=
  (∃ l, cs' = cs ++ l) ∧ (pubd cs pub ≤ pubd cs' pub')%nat
  ∧ ∀ sh j, in_range sh → moved_at cs sh j →
      (inst cs s sh j → inst cs' s' sh j) ∧ (given cs s sh j → given cs' s' sh j)
      ∧ ∀ d, carry cs s sh j d → carry cs' s' sh j d.

Section evolution.
Context {cs cs' : list ShardConfig} {pub pub' : bool} {s s' : sys}.
Hypothesis Hev : evolves cs pub s cs' pub' s'.

Lemma ev_lookup j c : cs !! j = Some c → cs' !! j = Some c.
Proof. destruct Hev as ((l & ->) & _). apply lookup_app_l_Some. Qed.

Lemma ev_own sh j : (j < length cs)%nat → own cs' sh j = own cs sh j.
Proof. destruct Hev as ((l & ->) & _). intros. unfold own. by rewrite lookup_app_l. Qed.

Lemma ev_num j : (j < length cs)%nat → num cs' j = num cs j.
Proof. destruct Hev as ((l & ->) & _). intros. unfold num. by rewrite lookup_app_l. Qed.

Lemma ev_length : (length cs ≤ length cs')%nat.
Proof. destruct Hev as ((l & ->) & _). rewrite length_app. lia. Qed.

Lemma ev_moved sh j : moved_at cs sh j → moved_at cs' sh j.
Proof.
  intros [Hj [H0 Hm]]. pose proof ev_length. split; [lia|]. split; [done|].
  rewrite !ev_own by lia. done.
Qed.

Lemma ev_inst sh j : in_range sh → moved_at cs sh j → inst cs s sh j → inst cs' s' sh j.
Proof. destruct Hev as (_ & _ & Hk). intros Hr Hm. apply (Hk sh j Hr Hm). Qed.
Lemma ev_given sh j : in_range sh → moved_at cs sh j → given cs s sh j → given cs' s' sh j.
Proof. destruct Hev as (_ & _ & Hk). intros Hr Hm. apply (Hk sh j Hr Hm). Qed.
Lemma ev_carry sh j d : in_range sh → moved_at cs sh j → carry cs s sh j d → carry cs' s' sh j d.
Proof. destruct Hev as (_ & _ & Hk). intros Hr Hm. apply (Hk sh j Hr Hm). Qed.

Lemma ev_req m : req_ok cs s m → req_ok cs' s' m.
Proof.
  destruct m as [g []]; simpl; try done.
  - intros (j & d & Hm & Hr & Hg & Hn & Hd & Hc). pose proof Hm as [Hj _]. exists j, d.
    rewrite ev_own, ev_num by lia. split_and!; eauto using ev_moved, ev_inst, ev_given, ev_carry.
  - intros (j & Hm & Hr & Hg & Hn). pose proof Hm as [Hj _]. exists j.
    rewrite ev_own, ev_num by lia. split_and!; eauto using ev_moved.
  - intros (j & Hm & Hr & Hg & Hn & Hi). pose proof Hm as [Hj _]. exists j.
    rewrite ev_own, ev_num by lia. split_and!; eauto using ev_moved, ev_inst, ev_given, ev_carry.
Qed.

Lemma ev_ans m : ans_ok cs s m → ans_ok cs' s' m.
Proof.
  destruct m as [[g req] rep]. unfold ans_ok; simpl.
  destruct req, rep; try done.
  - intros (j & Hm & Hr & Hn & Hi). pose proof Hm as [Hj _]. exists j.
    rewrite ev_num by lia. split_and!; eauto using ev_moved, ev_inst, ev_given, ev_carry.
  - intros (j & d & Hm & Hr & Hn & Hd & Hc). pose proof Hm as [Hj _]. exists j, d.
    rewrite ev_num by lia. split_and!; eauto using ev_moved, ev_inst, ev_given, ev_carry.
  - intros (j & Hm & Hr & Hn & Hi). pose proof Hm as [Hj _]. exists j.
    rewrite ev_num by lia. split_and!; eauto using ev_moved, ev_inst, ev_given, ev_carry.
Qed.

Lemma ev_at v cur i : at_version cs pub v cur i → at_version cs' pub' v cur i.
Proof.
  destruct Hev as (_ & Hp & _). intros (-> & Hl & Hi). split_and!; [done|by apply ev_lookup|lia].
Qed.

Lemma ev_done sh j : sh ≤ NShards → (j < length cs)%nat → done_below cs s sh j → done_below cs' s' sh j.
Proof.
  intros Hsh Hj Hd x Hx [Hj' [H0 Hm]].
  assert (moved_at cs x j) as Hm' by (split; [done|]; split; [done|]; by rewrite !ev_own in Hm by lia).
  apply ev_given; [split; lia|done|]. by apply Hd.
Qed.

Lemma ev_pc p : pc_ok cs pub s p → pc_ok cs' pub' s' p.
Proof.
  destruct p; simpl; try done.
  - intros (i & Ha). eauto using ev_at.
  - intros ((i & Ha) & ? & ?). eauto using ev_at.
  - intros (i & Ha & Hl). exists i. split; [by apply ev_at|]. pose proof ev_length. lia.
  - intros (i & Ha & Hl & -> & Hr & Hm & Hd & Hc). exists i. pose proof Hm as [Hj _].
    split_and!; eauto using ev_at, ev_lookup, ev_moved.
    + apply ev_done; [unfold in_range in Hr; lia|done|done].
    + destruct c; [done| |].
      * destruct Hc as (d & -> & Hc). exists d. split; [done|]. by apply ev_carry.
      * by apply ev_inst.
  - intros (i & cur & new & Ha & Hl & -> & Hd). exists i, cur, new.
    split_and!; eauto using ev_at, ev_lookup. apply ev_done; [done| |done]. by apply lookup_lt_Some in Hl.
Qed.
End evolution.

Lemma evolves_same cs pub s s' :
  (∀ sh g, views s' sh g = views s sh g) → spec s' = spec s → evolves cs pub s cs pub s'.
Proof.
  intros Hv Hs. split; [exists []; by rewrite app_nil_r|]. split; [done|]. intros sh j _ _.
  unfold inst, given, carry, given_up, carries, installed, shard_table. rewrite !Hv, Hs. tauto.
Qed.

(** ** The controller's loop *)

Lemma own_at cs sh j c : cs !! j = Some c → own cs sh j = gid_at c sh.
Proof. intros Hc. unfold own. by rewrite Hc. Qed.
Lemma num_at cs j c : cs !! j = Some c → num cs j = Num c.
Proof. intros Hc. unfold num. by rewrite Hc. Qed.

Lemma moved_at_iff cs sh i cur new :
  cs !! i = Some cur → cs !! S i = Some new → moved_at cs sh (S i) ↔ gid_at cur sh ≠ gid_at new sh.
Proof.
  intros Hc Hn. unfold moved_at, moved. replace (S i - 1)%nat with i by lia.
  rewrite (own_at _ _ _ _ Hc), (own_at _ _ _ _ Hn). apply lookup_lt_Some in Hn. split; [tauto|].
  intros ?. split_and!; [done|lia|done].
Qed.

Lemma configs_valid cs j c : configs_ok cs → cs !! j = Some c → valid_config servers_of c.
Proof. intros (_ & Hv & _) Hc. apply Hv. by eapply list_elem_of_lookup_2. Qed.

Lemma done_below_ext cs s sh sh' j :
  sh ≤ sh' → done_below cs s sh j →
  (∀ x, sh ≤ x < sh' → moved_at cs x j → given cs s x j) → done_below cs s sh' j.
Proof.
  intros Hle Hd Hx x Hr Hm. destruct (decide (x < sh)); [apply Hd; [lia|done]|apply Hx; [lia|done]].
Qed.

Lemma changConfig_ok cs pub s cur new v i sh :
  configs_ok cs → at_version cs pub v cur i → cs !! S i = Some new → 0 ≤ sh ≤ NShards →
  done_below cs s sh (S i) →
  ∃ p, changConfig cur new (codec_String new) v sh = Ret p ∧ pc_ok cs pub s p.
Proof.
  intros Hok Ha Hn Hsh Hd. pose proof Ha as (_ & Hc & _).
  unfold changConfig.
  destruct (next_move_valid cur new (Z.to_nat (NShards - sh)) sh) as (r & -> & Hr);
    [by eapply configs_valid|by eapply configs_valid|lia|lia|]. simpl.
  destruct r as [m|]; eexists; (split; [done|]); simpl.
  - destruct Hr as (Hm & Hne & Hsame). exists i. split_and!; try done.
    + unfold in_range; lia.
    + by apply (moved_at_iff _ _ _ _ _ Hc Hn).
    + apply (done_below_ext _ _ sh); [lia|done|]. intros x Hx Hmv.
      apply (moved_at_iff _ _ _ _ _ Hc Hn) in Hmv. exfalso. apply Hmv. by apply Hsame.
  - exists i, cur, new. split_and!; try done.
    apply (done_below_ext _ _ sh); [lia|done|]. intros x Hx Hmv.
    apply (moved_at_iff _ _ _ _ _ Hc Hn) in Hmv. exfalso. apply Hmv. by apply Hr.
Qed.

Lemma moving_call_ok cs pub s cur new str v sh c :
  configs_ok cs → pc_ok cs pub s (Moving cur new str v sh c) →
  ∃ g req, moving_call cur new sh c = Ret (g, req) ∧ req_ok cs s (g, req).
Proof.
  intros Hok (i & (-> & Hc & _) & Hn & -> & Hr & Hm & _ & Hcall).
  destruct (gid_at_valid cur sh) as [Ec Hsc]; [by eapply configs_valid|done|].
  destruct (gid_at_valid new sh) as [En Hsn]; [by eapply configs_valid|done|].
  unfold moving_call. rewrite Ec, En. simpl.
  destruct (servers_of (gid_at cur sh)) as [|? ?] eqn:E1; [done|].
  destruct (servers_of (gid_at new sh)) as [|? ?] eqn:E2; [done|].
  destruct c; (eexists _, _; split; [done|]); simpl.
  - exists (S i). replace (S i - 1)%nat with i by lia. rewrite (own_at _ _ _ _ Hc), (num_at _ _ _ Hn). done.
  - destruct Hcall as (d & -> & Hd). exists (S i), d. rewrite (own_at _ _ _ _ Hn), (num_at _ _ _ Hn). done.
  - exists (S i). replace (S i - 1)%nat with i by lia. rewrite (own_at _ _ _ _ Hc), (num_at _ _ _ Hn). done.
Qed.

(** the call's request names the shard and the number of the configuration *)
Lemma moving_call_req cur new sh c g req :
  moving_call cur new sh c = Ret (g, req) →
  match c, req with
  | CFreeze, ShardGrp.AFreeze a => fr_Shard a = sh ∧ fr_Num a = Num new
  | CInstall d, ShardGrp.AInstall a => in_Shard a = sh ∧ in_Num a = Num new
  | CDelete, ShardGrp.ADelete a => de_Shard a = sh ∧ de_Num a = Num new
  | _, _ => False
  end.
Proof.
  unfold moving_call. destruct (GidServers sh cur) as [[g1 s1]| |]; simpl; [|done..].
  destruct (GidServers sh new) as [[g2 s2]| |]; simpl; [|done..].
  destruct c; [destruct (default [] s1)|destruct (default [] s2)|destruct (default [] s1)]; intros [= <- <-]; done.
Qed.

Lemma moving_answer_ok cs pub s cur new str v sh c g req rep :
  configs_ok cs → pc_ok cs pub s (Moving cur new str v sh c) →
  moving_call cur new sh c = Ret (g, req) → ans_ok cs s (g, req, rep) →
  ∃ p, moving_answer cur new str v sh c rep = Ret p ∧ pc_ok cs pub s p.
Proof.
  intros Hok (i & Ha & Hn & -> & Hr & Hm & Hd & Hcall) Hreq Hans. apply moving_call_req in Hreq.
  assert (∀ j, moved_at cs sh j → Num new = num cs j → j = S i) as Hj.
  { intros j [Hj _] E. apply (num_inj cs); [done|done|by apply lookup_lt_Some in Hn|].
    by rewrite (num_at _ _ _ Hn). }
  destruct c, req; try done; destruct Hreq as [<- HN]; destruct rep; try done; simpl.
  - destruct Hans as (j & d & Hmj & _ & Hnj & Hst & Hcar). simpl in *. rewrite HN in Hnj.
    rewrite (Hj j Hmj Hnj) in *. eexists. split; [done|]. simpl. exists i. split_and!; try done. by exists d.
  - destruct Hans as (j & Hmj & _ & Hnj & Hin). simpl in *. rewrite HN in Hnj.
    rewrite (Hj j Hmj Hnj) in *. eexists. split; [done|]. simpl. by exists i.
  - destruct Hans as (j & Hmj & _ & Hnj & Hg). simpl in *. rewrite HN in Hnj.
    rewrite (Hj j Hmj Hnj) in *. destruct Hr. apply (changConfig_ok _ _ _ _ _ _ i); try done.
    + unfold in_range in *; lia.
    + apply (done_below_ext _ _ (de_Shard a)); [lia|done|]. intros x Hx _. by replace x with (de_Shard a) by lia.
Qed.

(** ** A group executes a request *)

Lemma exec_evolves cs pub s s' g sh0 w :
  (∀ sh, in_range sh → shard_inv (own cs sh) (num cs) (last_ix cs) pub (views s sh) (shard_table s sh)) →
  (∀ sh g', views s' sh g' = if decide (sh = sh0) then upd g w (views s sh0) g' else views s sh g') →
  (∀ sh, sh ≠ sh0 → shard_table s' sh = shard_table s sh) →
  shard_inv (own cs sh0) (num cs) (last_ix cs) pub (upd g w (views s sh0)) (shard_table s' sh0) →
  keeps (own cs sh0) (num cs) (last_ix cs) (views s sh0) (upd g w (views s sh0))
    (shard_table s sh0) (shard_table s' sh0) →
  (∀ sh, in_range sh → shard_inv (own cs sh) (num cs) (last_ix cs) pub (views s' sh) (shard_table s' sh))
  ∧ evolves cs pub s cs pub s'.
Proof.
  intros Hall Hv Ht Hi [Hg Hk].
  assert (∀ g', views s' sh0 g' = upd g w (views s sh0) g') as Hv0 by (intros; by rewrite Hv, decide_True).
  assert (∀ sh, sh ≠ sh0 → ∀ g', views s' sh g' = views s sh g') as Hv1.
  { intros sh Hne g'. by rewrite Hv, decide_False. }
  split.
  - intros sh Hr. destruct (decide (sh = sh0)) as [->|Hne].
    + by eapply shard_inv_ext.
    + rewrite Ht by done. eapply shard_inv_ext; [by apply Hv1|by apply Hall].
  - split; [exists []; by rewrite app_nil_r|]. split; [done|]. intros sh j Hr [_ Hm].
    destruct (decide (sh = sh0)) as [->|Hne].
    + assert (∀ g', grows (views s sh0 g') (views s' sh0 g')) as Hg' by (intros g'; rewrite Hv0; apply Hg).
      split_and!; [by apply installed_mono|by apply given_up_mono|].
      intros d [Hc Ho]. split; [|done]. specialize (Hk j d Hm Hc).
      unfold carries, installed in *. by rewrite !Hv0.
    + specialize (Hv1 sh Hne). unfold inst, given, carry, given_up, carries, installed. rewrite !Hv1, Ht by done.
      tauto.
Qed.

Lemma views_executed g req rep kv s sh g' :
  views (executed g req rep kv s) sh g' = upd g (view_of sh kv) (views s sh) g'.
Proof. unfold views, executed, upd. simpl. by case_decide. Qed.

(** replacing one group's state, when one shard's view of it changes *)
Lemma views_one g req rep kv s sh0 w :
  (∀ sh, view_of sh kv = if decide (sh = sh0) then w else view_of sh (grp s g)) →
  ∀ sh g', views (executed g req rep kv s) sh g'
           = if decide (sh = sh0) then upd g w (views s sh0) g' else views s sh g'.
Proof.
  intros Hv sh g'. rewrite views_executed, Hv. unfold upd, views.
  destruct (decide (sh = sh0)) as [->|]; [done|]. by destruct (decide (g' = g)) as [->|].
Qed.

Lemma moved_at_last cs sh j : configs_ok cs → moved_at cs sh j → (j ≤ last_ix cs)%nat.
Proof. intros (Hne & _) [Hj _]. unfold last_ix. lia. Qed.

Lemma inv_executed cs pub s g req rep kv sh0 w :
  inv cs pub s →
  (∀ sh, view_of sh kv = if decide (sh = sh0) then w else view_of sh (grp s g)) →
  (∀ sh, sh ≠ sh0 → ShardGrp.part sh (client_effect req rep (spec s)) = shard_table s sh) →
  let T' := ShardGrp.part sh0 (client_effect req rep (spec s)) in
  let V' := upd g w (views s sh0) in
  shard_inv (own cs sh0) (num cs) (last_ix cs) pub V' T' →
  keeps (own cs sh0) (num cs) (last_ix cs) (views s sh0) V' (shard_table s sh0) T' →
  ans_ok cs (executed g req rep kv s) (g, req, rep) →
  inv cs pub (executed g req rep kv s).
Proof.
  intros Hinv Hv Ht T' V' Hi Hk Hans.
  destruct (exec_evolves cs pub s (executed g req rep kv s) g sh0 w) as [Hall Hev];
    [apply Hinv|by apply views_one|done|done|done|].
  destruct Hinv as [Hcfg Hpub Hcur Hnew _ Hnet Han Hpcs]. split; try done.
  - intros m Hm. by eapply ev_req, Hnet.
  - intros m [->|Hm]%elem_of_cons; [done|]. by eapply ev_ans, Han.
  - intros i p Hp. eapply ev_pc; [done|]. by eapply Hpcs.
Qed.

Lemma execute_freeze_ok cs pub s g a :
  inv cs pub s → req_ok cs s (g, ShardGrp.AFreeze a) →
  ∃ kv rep, ShardGrp.DoOp (ShardGrp.AFreeze a) (grp s g) = Ret (kv, rep)
            ∧ inv cs pub (executed g (ShardGrp.AFreeze a) rep kv s).
Proof.
  intros Hinv (j & Hm & Hr & Hg & Hn). simpl in Hg, Hn. pose proof (inv_configs _ _ _ Hinv) as Hcfg.
  assert (∀ sh', let '(kv', r) := ShardGrp.doFreezeShard (grp s g) a in
    view_of sh' kv' = (if decide (sh' = fr_Shard a)
      then fst (view_freeze (fr_Num a) (view_of (fr_Shard a) (grp s g))) else view_of sh' (grp s g))
    ∧ frr_State r = pack (snd (view_freeze (fr_Num a) (view_of (fr_Shard a) (grp s g))))) as Hv
    by (intros; apply doFreezeShard_view).
  simpl. destruct (ShardGrp.doFreezeShard (grp s g) a) as [kv r]. eexists _, _. split; [done|].
  pose proof (freeze_ok (own cs (fr_Shard a)) (num cs) (last_ix cs) pub (views s (fr_Shard a))
    (shard_table s (fr_Shard a)) j) as Hf. cbv zeta in Hf.
  rewrite <-Hg, <-Hn in Hf. fold (views s (fr_Shard a) g) in Hv.
  destruct (view_freeze (fr_Num a) (views s (fr_Shard a) g)) as [w d] eqn:E. simpl in Hv.
  destruct Hf as (Hi & Hc & Hk); [by apply Hinv|by apply moved_at_last with (fr_Shard a)|apply Hm|].
  eapply (inv_executed _ _ _ _ _ _ _ (fr_Shard a) w); try done.
  - intros sh. apply Hv.
  - simpl. exists j, d. split_and!; [done|done|done|apply (Hv 0)|]. split.
    + assert (∀ g', views (executed g (ShardGrp.AFreeze a) (ShardGrp.AFreezeReply r) kv s) (fr_Shard a) g'
          = upd g w (views s (fr_Shard a)) g') as He.
      { intros g'. rewrite (views_one _ _ _ _ _ (fr_Shard a) w) by (intros; apply Hv). by rewrite decide_True. }
      unfold carries, installed in *. by rewrite !He.
    + destruct (view_freeze_data (fr_Num a) (views s (fr_Shard a) g)) as [Ed|Ed]; rewrite E in Ed; simpl in Ed;
        subst d; simpl; [|apply part_of_shard]. intros k [? Hk0]. by rewrite lookup_empty in Hk0.
Qed.

Lemma execute_install_ok cs pub s g a :
  inv cs pub s → req_ok cs s (g, ShardGrp.AInstall a) →
  ∃ kv rep, ShardGrp.DoOp (ShardGrp.AInstall a) (grp s g) = Ret (kv, rep)
            ∧ inv cs pub (executed g (ShardGrp.AInstall a) rep kv s).
Proof.
  intros Hinv (j & d & Hm & Hr & Hg & Hn & Hd & Hc & Ho). simpl in Hg, Hn, Hd.
  pose proof (doInstallShard_view (grp s g) a d Hd Ho) as Hv. fold (views s (in_Shard a) g) in Hv.
  destruct (install_ok (own cs (in_Shard a)) (num cs) (last_ix cs) pub (views s (in_Shard a))
    (shard_table s (in_Shard a)) j d) as (w & Ew & Hi & Hin & Hk); [by apply Hinv|apply Hm|done|].
  cbv zeta in *. rewrite <-Hg in Ew, Hi, Hin, Hk. rewrite Hn, Ew in Hv. destruct Hv as (kv & r & E & _ & Hv).
  simpl. rewrite E. simpl. eexists _, _. split; [done|].
  apply (inv_executed _ _ _ _ _ _ _ (in_Shard a) w); try done.
  exists j. split_and!; [done|done|done|]. unfold inst, installed in *.
  rewrite (views_one _ _ _ _ _ (in_Shard a) w) by done. by rewrite decide_True.
Qed.

Lemma execute_delete_ok cs pub s g a :
  inv cs pub s → req_ok cs s (g, ShardGrp.ADelete a) →
  ∃ kv rep, ShardGrp.DoOp (ShardGrp.ADelete a) (grp s g) = Ret (kv, rep)
            ∧ inv cs pub (executed g (ShardGrp.ADelete a) rep kv s).
Proof.
  intros Hinv (j & Hm & Hr & Hg & Hn & Hin). simpl in Hg, Hn. pose proof (inv_configs _ _ _ Hinv) as Hcfg.
  pose proof (doDeleteShard_view (grp s g) a) as Hv. fold (views s (de_Shard a) g) in Hv.
  destruct (delete_ok (own cs (de_Shard a)) (num cs) (last_ix cs) pub (views s (de_Shard a))
    (shard_table s (de_Shard a)) j) as (w & Ew & Hi & Hgu & Hk);
    [by apply Hinv|by apply moved_at_last with (de_Shard a)|apply Hm|done|].
  cbv zeta in *. rewrite <-Hg in Ew, Hi, Hgu, Hk. rewrite Hn, Ew in Hv. destruct Hv as (kv & r & E & _ & Hv).
  simpl. rewrite E. simpl. eexists _, _. split; [done|].
  apply (inv_executed _ _ _ _ _ _ _ (de_Shard a) w); try done.
  exists j. split_and!; [done|done|done|]. eapply given_up_ext; [|exact Hgu]. intros g'.
  rewrite (views_one _ _ _ _ _ (de_Shard a) w) by done. by rewrite decide_True.
Qed.

Lemma Key2Shard_in_range k : in_range (Key2Shard k).
Proof. apply Key2Shard_range. Qed.

(** a client's operation is refused without effect, or done as on one table *)
Lemma client_get_ok cs pub s g a :
  inv cs pub s →
  let r := ShardGrp.doGet (grp s g) a in
  get_Err r = ErrWrongGroup ∨ (get_Value r, get_Version r, get_Err r) = spec_get (spec s) a.
Proof.
  intros Hinv r. pose proof (inv_shards _ _ _ Hinv _ (Key2Shard_in_range (get_Key a))) as Hi.
  destruct (shard_states _ _ _ _ _ _ g Hi) as [Hst|[Hst|Hst]].
  - left. subst r. unfold ShardGrp.doGet. rewrite not_serving_view by (by left). done.
  - right. pose proof (doGet_view (grp s g) a Hst) as Hg. cbv zeta in Hg. fold r in Hg. rewrite Hg.
    pose proof (serving_data _ _ _ _ _ _ g Hi Hst) as Hd. unfold views in Hd. rewrite Hd. apply part_get.
  - left. subst r. unfold ShardGrp.doGet. rewrite not_serving_view by (by right). done.
Qed.

Lemma client_put_ok cs pub s g a :
  inv cs pub s →
  let '(kv, r) := ShardGrp.doPut (grp s g) a in
  (put_Err r = ErrWrongGroup ∧ kv = grp s g)
  ∨ (put_Err r = snd (spec_put (spec s) a) ∧ put_Err r ≠ ErrWrongGroup
     ∧ ∀ sh, view_of sh kv = if decide (sh = Key2Shard (put_Key a)) then
           {| v_st := ShardGrp.ValidShard; v_num := v_num (views s sh g);
              v_data := fst (spec_put (shard_table s sh) a) |}
         else views s sh g).
Proof.
  intros Hinv. set (sh := Key2Shard (put_Key a)).
  pose proof (inv_shards _ _ _ Hinv _ (Key2Shard_in_range (put_Key a))) as Hi. fold sh in Hi.
  assert (∀ st, v_st (views s sh g) = st → st = ShardGrp.Noshard ∨ st = ShardGrp.FrozenShard →
    ∃ r, ShardGrp.doPut (grp s g) a = (grp s g, r) ∧ put_Err r = ErrWrongGroup) as Hno.
  { intros st Hst Hor. unfold ShardGrp.doPut. rewrite not_serving_view; [eauto|]. fold sh.
    unfold views in Hst. by rewrite Hst. }
  destruct (shard_states _ _ _ _ _ _ g Hi) as [Hst|[Hst|Hst]].
  - destruct (Hno _ Hst ltac:(by left)) as (r & -> & Hr). by left.
  - pose proof (doPut_view (grp s g) a Hst) as Hp. cbv zeta in Hp.
    destruct (ShardGrp.doPut (grp s g) a) as [kv r]. destruct Hp as [Hr Hv]. right.
    pose proof (serving_data _ _ _ _ _ _ g Hi Hst) as Hd. fold sh in Hr, Hv.
    change (view_of sh (grp s g)) with (views s sh g) in *. rewrite Hd in Hr, Hv.
    unfold shard_table, sh in Hr. rewrite part_put_answer in Hr. split_and!; [done| |].
    + rewrite Hr. unfold spec_put. repeat case_decide; done.
    + intros sh'. rewrite Hv. rewrite Hst. unfold views. by destruct (decide (sh' = sh)) as [->|].
  - destruct (Hno _ Hst ltac:(by right)) as (r & -> & Hr). by left.
Qed.

Lemma executed_same_ok cs pub s g req rep kv :
  inv cs pub s → (∀ sh, view_of sh kv = views s sh g) → client_effect req rep (spec s) = spec s →
  ans_ok cs s (g, req, rep) → inv cs pub (executed g req rep kv s).
Proof.
  intros Hinv Hv Hs Hans.
  assert (∀ sh g', views (executed g req rep kv s) sh g' = views s sh g') as Hve.
  { intros sh g'. rewrite views_executed, Hv. apply upd_same. }
  pose proof (evolves_same cs pub s (executed g req rep kv s) Hve Hs) as Hev.
  destruct Hinv as [Hcfg Hpub Hcur Hnew Hsh Hnet Han Hpcs]. split; try done.
  - intros sh Hr. unfold shard_table. simpl. rewrite Hs. eapply shard_inv_ext; [by apply Hve|by apply Hsh].
  - intros m Hm. by eapply ev_req, Hnet.
  - intros m [->|Hm]%elem_of_cons; eapply ev_ans; [done|done|done|by apply Han].
  - intros i p Hp. eapply ev_pc; [done|]. by eapply Hpcs.
Qed.

Lemma execute_get_ok cs pub s g a :
  inv cs pub s →
  inv cs pub (executed g (ShardGrp.AGetArgs a) (ShardGrp.AGetReply (ShardGrp.doGet (grp s g) a)) (grp s g) s).
Proof. intros Hinv. by apply executed_same_ok. Qed.

Lemma execute_put_ok cs pub s g a kv r :
  inv cs pub s → ShardGrp.doPut (grp s g) a = (kv, r) →
  inv cs pub (executed g (ShardGrp.APutArgs a) (ShardGrp.APutReply r) kv s).
Proof.
  intros Hinv E. pose proof (client_put_ok cs pub s g a Hinv) as Hp. rewrite E in Hp.
  destruct Hp as [[Hr ->]|(Hr & Hne & Hv)].
  - apply executed_same_ok; try done. simpl. by rewrite decide_True.
  - set (sh := Key2Shard (put_Key a)) in *.
    pose proof (inv_shards _ _ _ Hinv _ (Key2Shard_in_range (put_Key a))) as Hi. fold sh in Hi.
    assert (v_st (views s sh g) = ShardGrp.ValidShard) as Hst.
    { destruct (shard_states _ _ _ _ _ _ g Hi) as [Hst|[Hst|Hst]]; [|done|];
        exfalso; apply Hne; unfold ShardGrp.doPut in E; rewrite not_serving_view in E; auto;
        by injection E as <- <-. }
    set (T' := ShardGrp.part sh (client_effect (ShardGrp.APutArgs a) (ShardGrp.APutReply r) (spec s))).
    assert (T' = fst (spec_put (shard_table s sh) a)) as ET.
    { subst T'. simpl. rewrite decide_False by done. rewrite part_put. by rewrite decide_True. }
    destruct (client_ok _ _ _ _ _ _ T' g Hi Hst) as [Hi' Hk].
    apply (inv_executed _ _ _ _ _ _ _ sh
      {| v_st := v_st (views s sh g); v_num := v_num (views s sh g); v_data := T' |}); try done.
    + intros sh'. rewrite Hv, ET. rewrite Hst. by destruct (decide (sh' = sh)) as [->|].
    + intros sh' Hne'. simpl. rewrite decide_False by done. rewrite part_put. by rewrite decide_False.
Qed.

(** any request the groups can see is executed without a [log.Fatalf] *)
Lemma execute_ok cs pub s g req :
  inv cs pub s → is_client req = true ∨ (g, req) ∈ net s →
  ∃ kv rep, ShardGrp.DoOp req (grp s g) = Ret (kv, rep) ∧ inv cs pub (executed g req rep kv s).
Proof.
  intros Hinv Hreq.
  assert (is_client req = true ∨ req_ok cs s (g, req)) as [Hc|Hok].
  { destruct Hreq; [by left|right; by apply Hinv]. }
  - destruct req; try done; simpl.
    + eexists _, _. split; [done|]. by apply execute_get_ok.
    + destruct (ShardGrp.doPut (grp s g) a) as [kv r] eqn:E. eexists _, _. split; [done|]. by apply execute_put_ok.
  - destruct req; try done.
    + by apply execute_install_ok.
    + by apply execute_freeze_ok.
    + by apply execute_delete_ok.
Qed.

(** ** The configuration store *)

Lemma pubd_pos cs pub s : inv cs pub s → (1 ≤ pubd cs pub ≤ length cs)%nat ∧ (length cs ≤ S (pubd cs pub))%nat.
Proof.
  intros [(Hne & _) Hpub _ _ _ _ _ _]. unfold pubd, last_ix.
  destruct cs as [|c cs]; [done|]. destruct pub; simpl in *; [lia|]. specialize (Hpub eq_refl). lia.
Qed.

Lemma get_cur cs pub s :
  inv cs pub s →
  ∃ c i, store_get s CurConfigKey = {| get_Value := codec_String c; get_Version := Z.of_nat (pubd cs pub);
                                       get_Err := OK; get_LeaderHint := 0 |}
  ∧ codec_FromString (codec_String c) = Ret c ∧ pubd cs pub = S i ∧ cs !! i = Some c.
Proof.
  intros Hinv. destruct (inv_cur _ _ _ Hinv) as (c & Hc & Hs). destruct (pubd_pos _ _ _ Hinv) as [? _].
  exists c, (pubd cs pub - 1)%nat. unfold store_get, KvSrv.Get. cbn [get_Key]. rewrite Hs. split_and!; try done.
  - apply codec_law. by eapply configs_valid; [apply Hinv|].
  - lia.
Qed.

Lemma get_new cs pub s :
  inv cs pub s →
  (length cs = 1%nat ∧ get_Err (store_get s NewConfigKey) = ErrNoKey)
  ∨ ∃ c i, length cs = S (S i) ∧ cs !! S i = Some c ∧ codec_FromString (codec_String c) = Ret c
    ∧ store_get s NewConfigKey = {| get_Value := codec_String c; get_Version := Z.of_nat (S i);
                                    get_Err := OK; get_LeaderHint := 0 |}.
Proof.
  intros Hinv. pose proof (inv_new _ _ _ Hinv) as Hn. pose proof (inv_configs _ _ _ Hinv) as (Hne & _).
  unfold store_get, KvSrv.Get. cbn [get_Key]. rewrite Hn. case_decide as Hl; [by left|]. right.
  destruct cs as [|c0 cs _] using rev_ind; [done|]. rewrite last_snoc. simpl.
  rewrite length_app in *. simpl in *. exists c0, (length cs - 1)%nat.
  assert ((cs ++ [c0]) !! S (length cs - 1) = Some c0) as Hlk.
  { replace (S (length cs - 1)) with (length cs) by lia. rewrite lookup_app_r by lia.
    by rewrite Nat.sub_diag. }
  split_and!; [lia|done| |].
  - apply codec_law. by eapply configs_valid; [apply Hinv|].
  - unfold last_ix. rewrite length_app. simpl. do 2 f_equal. lia.
Qed.

(** a thread moves on *)
Lemma inv_set_ctl cs pub s i p : inv cs pub s → pc_ok cs pub s p → inv cs pub (set_ctl i p s).
Proof.
  intros Hinv Hp. pose proof (evolves_same cs pub s (set_ctl i p s) (λ _ _, eq_refl) eq_refl) as Hev.
  destruct Hinv as [Hcfg Hpub Hcur Hnew Hsh Hnet Han Hpcs]. split; try done.
  intros k q. simpl. intros [(_ & <- & _)|[_ Hq]]%list_lookup_insert_Some; eapply ev_pc; try done.
  by eapply Hpcs.
Qed.

(** replacing the store: by an equal one, by one with a further posted
    configuration, by one with the last configuration published *)
Lemma inv_store cs pub cs' pub' s kv :
  inv cs pub s → evolves cs pub s cs' pub' s → configs_ok cs' → (pub' = false → (2 ≤ length cs')%nat) →
  (∃ c, cs' !! (pubd cs' pub' - 1)%nat = Some c
    ∧ KvSrv.tbl kv !! CurConfigKey = Some {| Value := codec_String c; Version := Z.of_nat (pubd cs' pub') |}) →
  KvSrv.tbl kv !! NewConfigKey
    = (if decide (length cs' = 1%nat) then None
       else (λ c, {| Value := codec_String c; Version := Z.of_nat (last_ix cs') |}) <$> last cs') →
  (∀ sh, in_range sh →
    shard_inv (own cs' sh) (num cs') (last_ix cs') pub' (views s sh) (shard_table s sh)) →
  inv cs' pub' (set_store kv s).
Proof.
  intros Hinv Hev0 Hc Hp Hcur Hnew Hsh.
  assert (evolves cs pub s cs' pub' (set_store kv s)) as Hev by exact Hev0.
  destruct Hinv as [_ _ _ _ _ Hnet Han Hpcs]. split; try done.
  - intros m Hm. by eapply ev_req, Hnet.
  - intros m Hm. by eapply ev_ans, Han.
  - intros i p Hi. eapply ev_pc; [done|]. by eapply Hpcs.
Qed.

Lemma keys_differ : NewConfigKey ≠ CurConfigKey.
Proof. done. Qed.

(** the put of [ChangeConfigTo]: it posts [new] exactly when every posted
    configuration has been published and [cur] is the last of them *)
(** appending a configuration that is newer than the last *)
Lemma post_configs cs cur new i : configs_ok cs → length cs = S i → cs !! i = Some cur →
  valid_config servers_of new → Num cur < Num new → configs_ok (cs ++ [new]).
Proof.
  intros (Hne & Hvs & Hinc) Hlen Hc Hv Hlt. split_and!.
  - by destruct cs.
  - intros c [Hin| ->%list_elem_of_singleton]%elem_of_app; auto.
  - intros j c c' Hj Hj'. apply lookup_app_Some in Hj' as [Hj'|[Hge Hj']].
    + rewrite lookup_app_l in Hj by (apply lookup_lt_Some in Hj'; lia). by eapply Hinc.
    + apply list_lookup_singleton_Some in Hj' as [Hz <-]. rewrite lookup_app_l in Hj by lia.
      assert (j = i) as -> by lia. congruence.
Qed.

Lemma post_shards cs s cur new i sh : inv cs true s → length cs = S i → cs !! i = Some cur → Num cur < Num new →
  in_range sh →
  shard_inv (own (cs ++ [new]) sh) (num (cs ++ [new])) (S (last_ix cs)) false (views s sh) (shard_table s sh)
  ∧ ∀ j d T', (j ≤ last_ix cs)%nat → moved (own cs sh) j →
      carries (own cs sh) (num cs) (last_ix cs) (views s sh) (shard_table s sh) j d →
      carries (own (cs ++ [new]) sh) (num (cs ++ [new])) (S (last_ix cs)) (views s sh) T' j d.
Proof.
  intros Hinv Hlen Hc Hlt Hr. apply (post_ok (own cs sh) (num cs)).
  - by apply (inv_shards _ _ _ Hinv).
  - unfold last_ix. intros j Hj. rewrite own_prefix, num_prefix by lia. done.
  - unfold last_ix. replace (S (length cs - 1)) with (length cs) by lia.
    unfold num. rewrite lookup_app_r, Nat.sub_diag by lia. simpl.
    replace (length cs - 1)%nat with i by lia. by rewrite Hc.
Qed.

Lemma next_version_at cs pub s : inv cs pub s → version_at (KvSrv.tbl (store s)) NewConfigKey = Z.of_nat (last_ix cs).
Proof.
  intros Hinv. unfold version_at. rewrite (inv_new _ _ _ Hinv). unfold last_ix. case_decide as Hl; [by rewrite Hl|].
  pose proof (inv_configs _ _ _ Hinv) as (Hne & _).
  destruct cs as [|c0 cs _] using rev_ind; [done|]. by rewrite last_snoc.
Qed.

Lemma post_put cs pub s cur new v i :
  inv cs pub s → Z.of_nat (length cs) + 1 < u64_mod →
  at_version cs pub v cur i → valid_config servers_of new → Num cur < Num new →
  let '(kv, r) := KvSrv.Put (store s) (PutNew_args new v) PutReply0 in
  (put_Err r = OK ∧ S i = length cs ∧ inv (cs ++ [new]) false (set_store kv s)
   ∧ evolves cs pub s (cs ++ [new]) false s)
  ∨ (put_Err r = ErrVersion ∧ kv = store s ∧ (S i < length cs)%nat).
Proof.
  intros Hinv Hb (-> & Hc & Hi) Hv Hlt. destruct (pubd_pos _ _ _ Hinv) as [[_ Hpl] Hlp].
  pose proof (KvSrv.Put_spec (store s) (PutNew_args new (Z.of_nat (S i))) PutReply0) as Hs.
  destruct (KvSrv.Put (store s) (PutNew_args new (Z.of_nat (S i))) PutReply0) as [kv r] eqn:EP. simpl in Hs.
  assert (u64 (Z.of_nat (S i) - 1) = Z.of_nat i) as Hu.
  { rewrite u64_small by lia. lia. }
  pose proof (inv_new _ _ _ Hinv) as Hn.
  pose proof (next_version_at _ _ _ Hinv) as Hver.
  unfold spec_put in Hs. unfold PutNew_args in Hs. cbn [put_Key put_Value put_Version] in Hs.
  rewrite Hver, Hu in Hs. destruct (decide (Z.of_nat (last_ix cs) = Z.of_nat i)) as [He|He].
  - left. injection Hs as Ht Hr. unfold last_ix in He.
    assert (length cs = S i) as Hlen by lia. assert (pub = true) as ->.
    { destruct pub; [done|]. unfold pubd, last_ix in Hi. lia. }
    pose proof (post_configs cs cur new i (inv_configs _ _ _ Hinv) Hlen Hc Hv Hlt) as Hcfg'.
    pose proof (λ sh, post_shards cs s cur new i sh Hinv Hlen Hc Hlt) as Hpost.
    assert (S (last_ix cs) = last_ix (cs ++ [new])) as Hix.
    { unfold last_ix. rewrite length_app. simpl. lia. }
    assert (evolves cs true s (cs ++ [new]) false s) as Hev.
    { split; [by eexists|]. split; [simpl; unfold last_ix; rewrite length_app; simpl; lia|].
      intros sh j Hr' [Hj Hm]. unfold inst, given, installed, given_up, installed.
      rewrite !own_prefix, num_prefix by lia. split_and!; [done|done|].
      intros d [Hcar Ho]. split; [|done]. rewrite <-Hix.
      destruct (Hpost sh Hr') as [_ Hk]. apply Hk; [unfold last_ix; lia|done|done]. }
    split_and!; [by rewrite Hr|done| |done].
    apply (inv_store cs true); try done.
    + intros _. rewrite length_app. simpl. lia.
    + destruct (inv_cur _ _ _ Hinv) as (c & Hcl & Hcur). exists c. rewrite Ht.
      rewrite lookup_insert_ne by done. unfold pubd in *. rewrite <-Hix. unfold last_ix.
      replace (S (length cs - 1)) with (length cs) by lia. split; [|done]. by apply lookup_app_l_Some.
    + rewrite Ht, lookup_insert_eq, last_snoc. rewrite decide_False by (rewrite length_app; simpl; lia).
      cbn [fmap option_fmap option_map]. do 2 f_equal. rewrite next_version_small by lia.
      unfold last_ix. rewrite length_app. simpl. lia.
    + intros sh Hr'. rewrite <-Hix. by apply Hpost.
  - right. assert (S i < length cs)%nat as Hlt' by (unfold last_ix in *; lia).
    unfold KvSrv.Put, PutNew_args in EP. cbn [put_Key put_Value put_Version] in EP.
    unfold version_at in Hver. destruct (KvSrv.tbl (store s) !! NewConfigKey) as [vv|] eqn:El.
    + rewrite Hu in EP. rewrite decide_False in EP by (by rewrite Hver). by injection EP as <- <-.
    + rewrite decide_False in Hn by lia.
      destruct cs as [|c0 cs _] using rev_ind; [simpl in Hlt'; lia|]. by rewrite last_snoc in Hn.
Qed.

(** the last put of both methods: it publishes the posted configuration, or
    somebody else has *)
Lemma publish_put cs pub s v i cur new :
  inv cs pub s → Z.of_nat (length cs) + 1 < u64_mod →
  at_version cs pub v cur i → cs !! S i = Some new → done_below cs s NShards (S i) →
  let '(kv, r) := KvSrv.Put (store s) (PutCur_args (codec_String new) v) PutReply0 in
  (put_Err r = OK ∧ inv cs true (set_store kv s) ∧ evolves cs pub s cs true s)
  ∨ (put_Err r = ErrVersion ∧ kv = store s ∧ pubd cs pub ≠ S i).
Proof.
  intros Hinv Hb (-> & Hc & Hi) Hn Hd. destruct (pubd_pos _ _ _ Hinv) as [[_ Hpl] Hlp].
  pose proof (lookup_lt_Some _ _ _ Hn) as Hlt.
  pose proof (KvSrv.Put_spec (store s) (PutCur_args (codec_String new) (Z.of_nat (S i))) PutReply0) as Hs.
  destruct (KvSrv.Put (store s) (PutCur_args (codec_String new) (Z.of_nat (S i))) PutReply0) as [kv r] eqn:EP.
  simpl in Hs. destruct (inv_cur _ _ _ Hinv) as (c & Hcl & Hcur).
  unfold spec_put, PutCur_args in Hs. cbn [put_Key put_Value put_Version] in Hs.
  unfold version_at in Hs. rewrite Hcur in Hs. cbn [Version] in Hs.
  destruct (decide (Z.of_nat (pubd cs pub) = Z.of_nat (S i))) as [He|He].
  - left. injection Hs as Ht Hr. assert (pubd cs pub = S i) as He' by lia.
    assert (length cs = S (S i)) as Hlen by lia. assert (pub = false) as ->.
    { destruct pub; [|done]. unfold pubd in He'. lia. }
    assert (S i = last_ix cs) as Hix by (unfold last_ix; lia).
    assert (evolves cs false s cs true s) as Hev.
    { split; [exists []; by rewrite app_nil_r|]. split; [simpl; unfold last_ix; lia|]. tauto. }
    split_and!; [by rewrite Hr| |done].
    apply (inv_store cs false); try done; [apply Hinv| | |].
    + exists new. rewrite Ht, lookup_insert_eq. simpl pubd.
      replace (length cs - 1)%nat with (S i) by lia. split; [done|]. do 2 f_equal.
      rewrite next_version_small by lia. lia.
    + rewrite Ht, lookup_insert_ne by done. apply Hinv.
    + intros sh Hr'. eapply publish_ok; [by apply Hinv|]. intros Hm. rewrite <-Hix. apply Hd; [done|].
      rewrite <-Hix in Hm. done.
  - right. unfold KvSrv.Put, PutCur_args in EP. cbn [put_Key put_Value put_Version] in EP.
    rewrite Hcur in EP. cbn [Version] in EP. rewrite decide_False in EP by done. injection EP as <- <-.
    split_and!; [done|done|lia].
Qed.

(** ** Every step *)

Lemma rec_cur_ok cs pub s :
  inv cs pub s → pc_ok cs pub s (or_exit (doRecovery_cur (store_get s CurConfigKey))).
Proof.
  intros Hinv. destruct (get_cur _ _ _ Hinv) as (c & i & -> & Hf & Hp & Hc). unfold doRecovery_cur. simpl.
  rewrite Hf. simpl. exists i. rewrite Hp. split_and!; [done|done|]. by rewrite Hp.
Qed.

Lemma rec_new_ok cs pub s cur v :
  inv cs pub s → Z.of_nat (length cs) + 1 < u64_mod → pc_ok cs pub s (RecGetNew cur v) →
  pc_ok cs pub s (or_exit (doRecovery_new cur v (store_get s NewConfigKey))).
Proof.
  intros Hinv Hb (i & -> & Hc & Hi). destruct (pubd_pos _ _ _ Hinv) as [[_ Hpl] _].
  destruct (get_new _ _ _ Hinv) as [[_ He]|(new & j & Hl & Hn & Hf & ->)]; unfold doRecovery_new.
  { by rewrite He. }
  simpl. rewrite Hf. simpl. case_decide as Hd; [done|]. case_decide as Hd'; [done|].
  assert (S j = S i) as Hij.
  { assert (j ≤ i)%nat as Hji.
    { destruct (decide (j ≤ i)%nat) as [|Hgt]; [done|]. exfalso. apply Hd'.
      assert (u64 (Z.of_nat (S i) - Z.of_nat (S j)) = Z.of_nat (S i) - Z.of_nat (S j) + u64_mod) as ->.
      { unfold u64. rewrite <-(Z_mod_plus_full _ 1), Z.mul_1_l. apply Z.mod_small. lia. }
      unfold u64_mod in *. lia. }
    destruct (decide (S j = S i)) as [|Hne]; [done|]. exfalso.
    assert (u64 (Z.of_nat (S i) - Z.of_nat (S j)) = Z.of_nat (S i) - Z.of_nat (S j)) as Hu.
    { apply u64_small. lia. }
    rewrite Hu in Hd, Hd'. apply Hd. assert (i = S j) as -> by (unfold u64_mod in *; lia).
    split; [lia|]. congruence. }
  rewrite Hij in Hn.
  destruct (changConfig_ok cs pub s cur new (Z.of_nat (S i)) i 0) as (p & -> & Hp); try done.
  - apply Hinv.
  - intros x ? _. lia.
Qed.

Lemma chg_cur_ok cs pub s new :
  inv cs pub s → valid_config servers_of new →
  pc_ok cs pub s (or_exit (ChangeConfigTo_cur new (store_get s CurConfigKey))).
Proof.
  intros Hinv Hv. destruct (get_cur _ _ _ Hinv) as (c & i & -> & Hf & Hp & Hc). unfold ChangeConfigTo_cur. simpl.
  rewrite Hf. simpl. case_decide; [done|]. simpl. split_and!; [|done|lia].
  exists i. rewrite Hp. split_and!; [done|done|]. by rewrite Hp.
Qed.

(** after the put of [ChangeConfigTo] *)
Lemma posted_ok cs pub s cur new v i :
  configs_ok cs → at_version cs pub v cur i → cs !! S i = Some new →
  pc_ok cs pub s (or_exit (ChangeConfigTo_posted cur new v true)).
Proof.
  intros Hcfg Ha Hn. unfold ChangeConfigTo_posted.
  destruct (changConfig_ok cs pub s cur new v i 0) as (p & -> & Hp); try done. intros x ? _. lia.
Qed.

(** the check after [ErrMaybe] never succeeds: the put's version is past *)
Lemma check_new_ok cs pub s cur new v :
  inv cs pub s → Z.of_nat (length cs) + 1 < u64_mod → pc_ok cs pub s (CheckNew cur new v) →
  CheckNew_answer cur new v (store_get s NewConfigKey) = Ret Returned.
Proof.
  intros Hinv Hb (i & (-> & _ & _) & Hl). unfold CheckNew_answer, putOnce_after_get, PutNew_args. simpl put_Version.
  rewrite bool_decide_false; [done|]. intros (_ & _ & He).
  destruct (get_new _ _ _ Hinv) as [[Hl1 _]|(c & j & Hl2 & _ & _ & Hg)]; [lia|].
  rewrite Hg in He. simpl get_Version in He. rewrite u64_small in He by lia. lia.
Qed.

(** the invariant goes on, with at most one more configuration *)
Definition inv_later (cs : list ShardConfig) (s' : sys) : Prop :=
  ∃ cs' pub', inv cs' pub' s' ∧ (length cs' ≤ S (length cs))%nat.

(** an attempt to post the next configuration *)
Lemma put_new_inv cs pub s i cur new v first f :
  inv cs pub s → Z.of_nat (length cs) + 1 < u64_mod → ctls s !! i = Some (PutNew cur new v first) →
  inv_later cs (store_put i (PutNew_args new v) f first (PutNew cur new v false) (PutNew_answer cur new v) s).
Proof.
  intros Hinv Hb Hi.
  assert (∀ p, pc_ok cs pub s p → inv_later cs (set_ctl i p s)) as Hset.
  { intros p Hp. exists cs, pub. split; [by apply inv_set_ctl|lia]. }
  pose proof (inv_pcs _ _ _ Hinv _ _ Hi) as ((j & Ha) & Hv & Hlt). unfold store_put.
  pose proof (post_put _ _ _ cur new v j Hinv Hb Ha Hv Hlt) as Hput.
  destruct (KvSrv.Put (store s) (PutNew_args new v) PutReply0) as [kv r].
  destruct Hput as [(Hr & Hlen & Hinv' & Hev)|(Hr & -> & Hlen)].
  - assert (at_version (cs ++ [new]) false v cur j) as Ha' by (by eapply ev_at).
    destruct f.
    + apply Hset. simpl. eauto.
    + exists (cs ++ [new]), false. split; [|rewrite length_app; simpl; lia]. apply inv_set_ctl; [done|].
      simpl. eauto.
    + exists (cs ++ [new]), false. split; [|rewrite length_app; simpl; lia]. apply inv_set_ctl; [done|].
      assert ((if first then Put_first_reply r else Put_resend_reply r) = Ret OK) as ->.
      { unfold Put_first_reply, Put_resend_reply. rewrite Hr. by destruct first. }
      apply (posted_ok _ _ _ _ _ _ j); [apply Hinv'|done|].
      rewrite Hlen, lookup_app_r, Nat.sub_diag by lia. done.
  - destruct s as [st gr ct ne an sp]. destruct f; apply Hset; simpl; eauto.
    destruct first; unfold Put_first_reply, Put_resend_reply; rewrite Hr; simpl; eauto.
Qed.

(** an attempt to publish it *)
Lemma put_cur_inv cs pub s i str v first f :
  inv cs pub s → Z.of_nat (length cs) + 1 < u64_mod → ctls s !! i = Some (PutCur str v first) →
  inv_later cs (store_put i (PutCur_args str v) f first (PutCur str v false) (PutCur_answer str v) s).
Proof.
  intros Hinv Hb Hi.
  assert (∀ p, pc_ok cs pub s p → inv_later cs (set_ctl i p s)) as Hset.
  { intros p Hp. exists cs, pub. split; [by apply inv_set_ctl|lia]. }
  pose proof (inv_pcs _ _ _ Hinv _ _ Hi) as (j & cur & new & Ha & Hn & -> & Hd). unfold store_put.
  pose proof (publish_put _ _ _ v j cur new Hinv Hb Ha Hn Hd) as Hput.
  destruct (KvSrv.Put (store s) (PutCur_args (codec_String new) v) PutReply0) as [kv r].
  destruct Hput as [(Hr & Hinv' & Hev)|(Hr & -> & _)].
  - assert (at_version cs true v cur j) as Ha' by (by eapply ev_at).
    destruct f.
    + apply Hset. simpl. eauto 10.
    + exists cs, true. split; [|lia]. apply inv_set_ctl; [done|]. simpl. exists j, cur, new. eauto.
    + exists cs, true. split; [|lia]. apply inv_set_ctl; [done|].
      destruct first; unfold Put_first_reply, Put_resend_reply; rewrite Hr; done.
  - destruct s as [st gr ct ne an sp]. destruct f; apply Hset; simpl; eauto 10.
    destruct first; unfold Put_first_reply, Put_resend_reply; rewrite Hr; simpl; eauto.
Qed.

Lemma step_inv cs pub s s' :
  inv cs pub s → Z.of_nat (length cs) + 1 < u64_mod → step servers_of s s' →
  ∃ cs' pub', inv cs' pub' s' ∧ (length cs' ≤ S (length cs))%nat.
Proof.
  intros Hinv Hb Hst. pose proof (inv_configs _ _ _ Hinv) as Hcfg.
  assert (∀ i p, pc_ok cs pub s p → ∃ cs' pub', inv cs' pub' (set_ctl i p s) ∧ (length cs' ≤ S (length cs))%nat) as Hset.
  { intros i p Hp. exists cs, pub. split; [by apply inv_set_ctl|lia]. }
  destruct Hst as [p Hp|i Hi|i cur v Hi|i new Hi|i cur new v first f Hi|i cur new v Hi
    |i cur new str v sh c Hi|i cur new str v sh c g req rep Hi Hcall Hans|i str v first f Hi|i str v Hi
    |g req kv rep Hreq Hop].
  - exists cs, pub. split; [|lia].
    pose proof (evolves_same cs pub s (add_ctl p s) (λ _ _, eq_refl) eq_refl) as Hev.
    destruct Hinv as [_ Hpub Hcur Hnew Hsh Hnet Han Hpcs]. split; try done. simpl. intros i q Hq.
    eapply ev_pc; [done|]. apply lookup_app_Some in Hq as [Hq|[_ Hq]]; [by eapply Hpcs|].
    apply list_lookup_singleton_Some in Hq as [_ <-]. by destruct p.
  - by apply Hset, rec_cur_ok.
  - apply Hset, rec_new_ok; [done|done|]. by eapply (inv_pcs _ _ _ Hinv).
  - apply Hset, chg_cur_ok; [done|]. by apply (inv_pcs _ _ _ Hinv) in Hi.
  - by eapply put_new_inv.
  - apply Hset. rewrite (check_new_ok cs pub) by (try done; by eapply (inv_pcs _ _ _ Hinv)). done.
  - pose proof (inv_pcs _ _ _ Hinv _ _ Hi) as Hp. unfold send_call.
    destruct (moving_call_ok _ _ _ _ _ _ _ _ _ Hcfg Hp) as (g & req & -> & Hok).
    exists cs, pub. split; [|lia].
    pose proof (evolves_same cs pub s (add_net (g, req) s) (λ _ _, eq_refl) eq_refl) as Hev.
    destruct Hinv as [_ Hpub Hcur Hnew Hsh Hnet Han Hpcs]. split; try done.
    simpl. intros m [->|Hm]%elem_of_cons; eapply ev_req; eauto.
  - pose proof (inv_pcs _ _ _ Hinv _ _ Hi) as Hp. pose proof (inv_answers _ _ _ Hinv _ Hans) as Ha.
    destruct (moving_answer_ok _ _ _ _ _ _ _ _ _ _ _ _ Hcfg Hp Hcall Ha) as (p & -> & Hp'). by apply Hset.
  - by eapply put_cur_inv.
  - by apply Hset.
  - destruct (execute_ok _ _ _ g req Hinv Hreq) as (kv' & rep' & E & Hinv'). rewrite Hop in E.
    injection E as <- <-. exists cs, pub. split; [done|lia].
Qed.

(** ** The start *)

Lemma start_views g kv sh :
  ShardGrp.StartServerShardGrp g MakePersister = Ret kv → in_range sh →
  view_of sh kv = {| v_st := if decide (g = Gid1) then ShardGrp.ValidShard else ShardGrp.Noshard;
                     v_num := 0; v_data := ∅ |}.
Proof.
  unfold ShardGrp.StartServerShardGrp. cbn [MakeRSM ReadSnapshot MakePersister ps_snapshot mbind outcome_bind sm].
  intros E [H0 H1]. unfold NShards in H1.
  assert (sh = 0 ∨ sh = 1 ∨ sh = 2 ∨ sh = 3 ∨ sh = 4 ∨ sh = 5 ∨ sh = 6 ∨ sh = 7 ∨ sh = 8 ∨ sh = 9 ∨ sh = 10
          ∨ sh = 11) as Hsh by lia.
  destruct (decide (g = Gid1)); injection E as <-;
    repeat (destruct Hsh as [->|Hsh]; [vm_compute; reflexivity|]); subst; vm_compute; reflexivity.
Qed.

Lemma init_inv c0 s : init servers_of c0 s → inv [c0] true s.
Proof.
  intros (Hv & H0 & Hgid & Hst & Hgrp & Hct & Hnet & Hans & Hspec).
  assert (KvSrv.tbl (store s) = {[ CurConfigKey := {| Value := codec_String c0; Version := 1 |} ]}) as Htbl.
  { unfold InitConfig, KvSrv.Put in Hst. simpl in Hst. rewrite lookup_empty in Hst. simpl in Hst.
    by injection Hst as <-. }
  split.
  - split_and!; [done|intros c ->%list_elem_of_singleton; done|]. intros j c c' _ Hj. by destruct j.
  - done.
  - exists c0. rewrite Htbl, lookup_singleton_eq. done.
  - rewrite Htbl. by rewrite lookup_singleton_ne.
  - intros sh Hr. assert (own [c0] sh 0 = Gid1) as Hown.
    { unfold own, gid_at. simpl. destruct Hv as [[Hlen _] _].
      destruct (zlookup_is_Some (Shards c0) sh) as [g Hg]; [unfold in_range in Hr; lia|]. rewrite Hg. simpl.
      apply Hgid. apply zlookup_Some in Hg as [_ Hg]. by eapply list_elem_of_lookup_2. }
    assert (∀ g, views s sh g = {| v_st := if decide (g = Gid1) then ShardGrp.ValidShard else ShardGrp.Noshard;
                                   v_num := 0; v_data := ∅ |}) as Hviews.
    { intros g. unfold views. by apply start_views. }
    assert (shard_table s sh = ∅) as HT.
    { unfold shard_table. rewrite Hspec. apply map_eq. intros k. rewrite part_lookup, lookup_empty.
      by case_decide. }
    change (last_ix [c0]) with 0%nat. split.
    + apply ph_settled.
      * intros [? _]. lia.
      * rewrite Hown, Hviews, HT. done.
      * intros g Hg. rewrite Hown in Hg. rewrite Hviews, decide_False by done. done.
    + intros g. rewrite Hviews. unfold num. simpl. done.
    + intros j Hj _ [? _]. lia.
  - rewrite Hnet. intros m Hm. by apply not_elem_of_nil in Hm.
  - rewrite Hans. intros m Hm. by apply not_elem_of_nil in Hm.
  - rewrite Hct. intros i p Hp. done.
Qed.

Lemma run_inv c0 s0 k s :
  init servers_of c0 s0 → nsteps (step servers_of) k s0 s → Z.of_nat k + 1 < u64_mod →
  ∃ cs pub, inv cs pub s ∧ (length cs ≤ S k)%nat.
Proof.
  intros Hi Hr Hb. apply init_inv in Hi.
  assert (∀ cs pub, inv cs pub s0 → Z.of_nat (length cs) + Z.of_nat k < u64_mod →
    ∃ cs' pub', inv cs' pub' s ∧ (length cs' ≤ length cs + k)%nat) as Hgen.
  { clear Hi Hb. induction Hr as [s|k s1 s2 s3 Hst _ IH]; intros cs pub Hi Hb.
    - exists cs, pub. split; [done|lia].
    - destruct (step_inv cs pub s1 s2) as (cs2 & pub2 & Hi2 & Hl2); [done|lia|done|].
      destruct (IH cs2 pub2 Hi2) as (cs3 & pub3 & Hi3 & Hl3); [lia|]. exists cs3, pub3. split; [done|lia]. }
  destruct (Hgen [c0] true Hi) as (cs & pub & Hinv & Hl); [simpl; lia|]. exists cs, pub. simpl in Hl.
  split; [done|lia].
Qed.

(** ** A recovery that is left alone completes the pending change *)

(** calls left before the last put, counted three per shard *)
Definition calls_left (sh : Z) (c : call) : Z :=
  3 * (NShards - sh) - match c with CFreeze => 0 | CInstall _ => 1 | CDelete => 2 end.

Lemma changConfig_left cs pub s cur new v i sh p :
  configs_ok cs → at_version cs pub v cur i → cs !! S i = Some new → 0 ≤ sh ≤ NShards →
  changConfig cur new (codec_String new) v sh = Ret p →
  p = PutCur (codec_String new) v true
  ∨ ∃ sh', p = Moving cur new (codec_String new) v sh' CFreeze ∧ sh ≤ sh'.
Proof.
  intros Hok (_ & Hc & _) Hn Hsh. unfold changConfig.
  destruct (next_move_valid cur new (Z.to_nat (NShards - sh)) sh) as (r & -> & Hr);
    [by eapply configs_valid|by eapply configs_valid|lia|lia|]. simpl.
  destruct r as [m|]; intros [= <-]; [right|by left]. exists m. split; [done|lia].
Qed.

(** one call of the loop: sent, executed, answered *)
Lemma call_done cs pub s k cur new v sh c :
  inv cs pub s → ctls s !! k = Some (Moving cur new (codec_String new) v sh c) →
  ∃ s' p, nsteps (step servers_of) 3 s s' ∧ inv cs pub s' ∧ store s' = store s
  ∧ ctls s' !! k = Some p
  ∧ (p = PutCur (codec_String new) v true
     ∨ ∃ sh' c', p = Moving cur new (codec_String new) v sh' c' ∧ calls_left sh' c' < calls_left sh c).
Proof.
  intros Hinv Hk. pose proof (inv_pcs _ _ _ Hinv _ _ Hk) as Hp. pose proof (inv_configs _ _ _ Hinv) as Hcfg.
  destruct (moving_call_ok _ _ _ _ _ _ _ _ _ Hcfg Hp) as (g & req & Ecall & Hreq).
  set (s1 := add_net (g, req) s).
  assert (step servers_of s s1) as St1.
  { pose proof (step_send servers_of s k cur new _ v sh c Hk) as St. unfold send_call in St.
    by rewrite Ecall in St. }
  assert (inv cs pub s1) as Hinv1.
  { pose proof (evolves_same cs pub s s1 (λ _ _, eq_refl) eq_refl) as Hev. clear St1.
    destruct Hinv as [_ Hpub Hcur Hnew Hsh Hnet Han Hpcs]. split; try done.
    simpl. intros m [->|Hm]%elem_of_cons; eapply ev_req; eauto. }
  destruct (execute_ok cs pub s1 g req Hinv1) as (kv & rep & Eop & Hinv2); [right; by left|].
  set (s2 := executed g req rep kv s1) in *.
  assert (step servers_of s1 s2) as St2 by (apply step_execute; [right; by left|done]).
  assert ((g, req, rep) ∈ answers s2) as Hans by (by left).
  assert (ctls s2 !! k = Some (Moving cur new (codec_String new) v sh c)) as Hk2 by done.
  pose proof (step_answer servers_of s2 k _ _ _ _ _ _ _ _ _ Hk2 Ecall Hans) as St3.
  pose proof (inv_answers _ _ _ Hinv2 _ Hans) as Ha. pose proof (inv_pcs _ _ _ Hinv2 _ _ Hk2) as Hp2.
  destruct (moving_answer_ok _ _ _ _ _ _ _ _ _ _ _ _ Hcfg Hp2 Ecall Ha) as (p & Ep & Hp'). rewrite Ep in St3.
  eexists _, p. split; [eapply nsteps_l; [exact St1|]; eapply nsteps_l; [exact St2|];
    eapply nsteps_l; [exact St3|apply nsteps_O]|].
  split_and!; [by apply inv_set_ctl|done|by apply list_lookup_insert_eq, lookup_lt_Some with (1 := Hk2)|].
  destruct Hp as (i & Hat & Hn & _ & Hr & _). unfold calls_left. unfold moving_answer in Ep.
  destruct c, rep; try done; try (injection Ep as <-; right; eexists _, _; split; [done|]; cbn; lia).
  apply (changConfig_left cs pub s _ _ _ i) in Ep; [|done|done|done|unfold in_range in Hr; lia].
  destruct Ep as [->|(sh' & -> & Hle)]; [by left|]. right. eexists _, _. split; [done|]. cbn. lia.
Qed.

Lemma loop_done cs pub s k cur new v sh c (n : nat) :
  inv cs pub s → ctls s !! k = Some (Moving cur new (codec_String new) v sh c) →
  calls_left sh c ≤ Z.of_nat n →
  ∃ s' m, nsteps (step servers_of) m s s' ∧ (m ≤ 3 * S n)%nat ∧ inv cs pub s' ∧ store s' = store s
  ∧ ctls s' !! k = Some (PutCur (codec_String new) v true).
Proof.
  revert s sh c. induction n as [n IH] using lt_wf_ind. intros s sh c Hinv Hk Hn.
  destruct (call_done _ _ _ _ _ _ _ _ _ Hinv Hk) as (s1 & p & Hst & Hinv1 & Hs1 & Hk1 & Hp).
  destruct Hp as [->|(sh' & c' & -> & Hlt)].
  - exists s1, 3%nat. split_and!; [done|lia|done|done|done].
  - assert (0 ≤ calls_left sh' c') as H0.
    { destruct (inv_pcs _ _ _ Hinv1 _ _ Hk1) as (? & _ & _ & _ & Hr & _). unfold in_range in Hr.
      unfold calls_left. destruct c'; lia. }
    destruct (IH (Z.to_nat (calls_left sh' c'))) with (s := s1) (sh := sh') (c := c')
      as (s2 & m & Hst2 & Hm & Hinv2 & Hs2 & Hk2); [lia|done|done|lia|].
    exists s2, (3 + m)%nat. split_and!; [by eapply nsteps_trans|lia|done|congruence|done].
Qed.

(** nothing is in progress: the recovery test of [doRecovery] finds the last
    posted configuration published *)
Definition settled (s : sys) (c : ShardConfig) : Prop :=
  Query (store s) = Ret c
  ∧ (get_Err (store_get s NewConfigKey) = ErrNoKey
     ∨ ∃ c', codec_FromString (get_Value (store_get s NewConfigKey)) = Ret c' ∧ Num c' = Num c).

Lemma settled_iff cs pub s c :
  inv cs pub s → settled s c ↔ pub = true ∧ last cs = Some c.
Proof.
  intros Hinv. destruct (get_cur _ _ _ Hinv) as (cq & i & Hg & Hf & Hp & Hc).
  destruct (pubd_pos _ _ _ Hinv) as [Hpp Hlp]. pose proof (inv_configs _ _ _ Hinv) as Hcfg.
  unfold settled, Query. fold (store_get s CurConfigKey). rewrite Hg. cbn [get_Err get_Value].
  rewrite decide_False by done. rewrite Hf, last_lookup.
  assert (pub = true → length cs = S i) as Hpt by (intros ->; done).
  assert (pub = false → length cs = S (S i)) as Hpf.
  { intros ->. unfold pubd, last_ix in Hp. lia. }
  split.
  - intros ([= <-] & Hnew). assert (pub = true) as ->.
    { destruct pub; [done|]. exfalso. destruct Hnew as [He|(c' & Hf' & Hn')].
      - destruct (get_new _ _ _ Hinv) as [[Hl _]|(c' & j & _ & _ & _ & Hg')]; [specialize (Hpf eq_refl); lia|].
        by rewrite Hg' in He.
      - destruct (get_new _ _ _ Hinv) as [[Hl _]|(c2 & j & Hl & Hc2 & Hf2 & Hg')]; [specialize (Hpf eq_refl); lia|].
        rewrite Hg' in Hf'. cbn [get_Value] in Hf'. rewrite Hf2 in Hf'. injection Hf' as ->.
        specialize (Hpf eq_refl). assert (j = i) as -> by lia.
        destruct Hcfg as (_ & _ & Hinc). specialize (Hinc i cq c' Hc Hc2). lia. }
    split; [done|]. rewrite (Hpt eq_refl). done.
  - intros (-> & Hl). rewrite (Hpt eq_refl) in Hl. simpl in Hl. rewrite Hc in Hl. injection Hl as <-.
    split; [done|].
    destruct (get_new _ _ _ Hinv) as [[_ He]|(c2 & j & Hl2 & Hc2 & Hf2 & Hg')]; [by left|right].
    rewrite Hg'. exists c2. split; [done|]. specialize (Hpt eq_refl). rewrite Hl2 in Hpt.
    assert (S j = i) as <- by lia. rewrite Hc in Hc2. by injection Hc2 as ->.
Qed.

Lemma settled_serves cs pub s c sh :
  inv cs pub s → settled s c → in_range sh →
  v_st (views s sh (gid_at c sh)) = ShardGrp.ValidShard.
Proof.
  intros Hinv Hs Hr. apply (settled_iff _ _ _ _ Hinv) in Hs as (-> & Hl).
  pose proof (published_settled _ _ _ _ _ (inv_shards _ _ _ Hinv sh Hr)) as [[Hst _] _].
  rewrite last_lookup in Hl. destruct (inv_configs _ _ _ Hinv) as (Hne & _).
  assert (Init.Nat.pred (length cs) = last_ix cs) as E by (unfold last_ix; lia). rewrite E in Hl.
  by rewrite (own_at _ _ _ _ Hl) in Hst.
Qed.

(** the last put, delivered *)
Lemma publish_done cs pub s k cur new v i :
  inv cs pub s → Z.of_nat (length cs) + 1 < u64_mod →
  ctls s !! k = Some (PutCur (codec_String new) v true) →
  at_version cs pub v cur i → last cs = Some new → (length cs = S (S i)) → done_below cs s NShards (S i) →
  ∃ s', step servers_of s s' ∧ inv cs true s' ∧ ctls s' !! k = Some Returned.
Proof.
  intros Hinv Hb Hk Ha Hl Hlen Hd.
  assert (cs !! S i = Some new) as Hn by (by rewrite last_lookup, Hlen in Hl).
  pose proof (publish_put cs pub s v i cur new Hinv Hb Ha Hn Hd) as Hput.
  pose proof (step_put_cur servers_of s k _ _ _ Delivered Hk) as St. unfold store_put in St.
  pose proof (lookup_lt_Some _ _ _ Hk) as Hlt.
  destruct (KvSrv.Put (store s) (PutCur_args (codec_String new) v) PutReply0) as [kv r].
  eexists. split; [exact St|].
  destruct Hput as [(Hr & Hinv' & _)|(Hr & -> & Hne)]; unfold Put_first_reply; rewrite Hr; simpl.
  - split; [by apply inv_set_ctl|]. by apply list_lookup_insert_eq.
  - destruct pub; [|simpl in Hne; unfold last_ix in Hne; lia]. destruct s as [st gr ct ne an sp].
    split; [|by apply list_lookup_insert_eq]. by apply (inv_set_ctl _ _ _ k Returned) in Hinv.
Qed.

Lemma recovery_run cs pub s k :
  inv cs pub s → Z.of_nat (length cs) + 1 < u64_mod → ctls s !! k = Some RecGetCur →
  ∃ s' m, (m ≤ 114)%nat ∧ nsteps (step servers_of) m s s' ∧ inv cs true s' ∧ ctls s' !! k = Some Returned.
Proof.
  intros Hinv Hb Hk. pose proof (inv_configs _ _ _ Hinv) as Hcfg. pose proof (lookup_lt_Some _ _ _ Hk) as Hlt.
  destruct (get_cur _ _ _ Hinv) as (cur & i & Hg & Hf & Hp & Hc).
  pose proof (step_rec_cur servers_of s k Hk) as St1. rewrite Hg in St1. unfold doRecovery_cur in St1.
  simpl in St1. rewrite Hf in St1. simpl in St1. rewrite Hp in St1.
  set (v := Z.of_nat (S i)) in *. change (Z.pos (Pos.of_succ_nat i)) with v in St1.
  assert (at_version cs pub v cur i) as Ha by (split_and!; [done|done|lia]).
  set (s1 := set_ctl k (RecGetNew cur v) s) in *.
  assert (inv cs pub s1) as Hinv1 by (apply inv_set_ctl; [done|simpl; eauto]).
  assert (ctls s1 !! k = Some (RecGetNew cur v)) as Hk1 by (by apply list_lookup_insert_eq).
  pose proof (step_rec_new servers_of s1 k _ _ Hk1) as St2.
  change (store_get s1 NewConfigKey) with (store_get s NewConfigKey) in St2.
  assert (∀ p, pc_ok cs pub s p → p = or_exit (doRecovery_new cur v (store_get s NewConfigKey)) →
    nsteps (step servers_of) 2 s (set_ctl k p s1) ∧ inv cs pub (set_ctl k p s1)
    ∧ ctls (set_ctl k p s1) !! k = Some p) as Hgo.
  { intros p Hpc ->. split_and!; [eapply nsteps_l; [exact St1|]; eapply nsteps_l; [exact St2|apply nsteps_O]| |].
    - by apply inv_set_ctl.
    - apply list_lookup_insert_eq. simpl. by rewrite length_insert. }
  destruct (get_new _ _ _ Hinv) as [[Hl He]|(new & j & Hl & Hn & Hfn & Hgn)].
  { assert (pub = true) as -> by (destruct pub; [done|]; pose proof (inv_pub _ _ _ Hinv eq_refl); lia).
    destruct (Hgo Returned) as (Hst & Hi' & Hk'); [done|by unfold doRecovery_new; rewrite decide_True|].
    exists (set_ctl k Returned s1), 2%nat. split_and!; [lia|done..]. }
  destruct (pubd_pos _ _ _ Hinv) as [Hpp Hlp]. destruct pub.
  - assert (S j = i) as <- by (unfold pubd in Hp; lia). rewrite Hc in Hn. injection Hn as <-.
    destruct (Hgo Returned) as (Hst & Hi' & Hk'); [done| |].
    { unfold doRecovery_new. rewrite Hgn. simpl get_Err. rewrite decide_False by done. simpl get_Value.
      rewrite Hf. cbn [mbind outcome_bind get_Version]. rewrite decide_True; [done|]. split; [|done].
      unfold v. rewrite u64_small by (unfold u64_mod; lia). lia. }
    exists (set_ctl k Returned s1), 2%nat. split_and!; [lia|done..].
  - assert (j = i) as -> by (unfold pubd, last_ix in Hp; lia).
    assert (done_below cs s 0 (S i)) as Hd0 by (intros x ? _; lia).
    destruct (changConfig_ok cs false s cur new v i 0) as (p & Ep & Hpc); try done.
    destruct (Hgo p Hpc) as (Hst & Hi' & Hk').
    { unfold doRecovery_new. rewrite Hgn. simpl get_Err. rewrite decide_False by done. simpl get_Value.
      rewrite Hfn. cbn [mbind outcome_bind get_Version]. unfold v. rewrite Z.sub_diag.
      change (u64 0) with 0. rewrite decide_False by lia. rewrite decide_False by lia. fold v. by rewrite Ep. }
    assert (last cs = Some new) as Hlast by (by rewrite last_lookup, Hl).
    assert (∃ s3 m, nsteps (step servers_of) m s s3 ∧ (m ≤ 113)%nat ∧ inv cs false s3
              ∧ ctls s3 !! k = Some (PutCur (codec_String new) v true)) as (s3 & m & Hst3 & Hm & Hinv3 & Hk3).
    { destruct (changConfig_left _ _ s _ _ _ i 0 p Hcfg Ha Hn ltac:(done) Ep) as [->|(sh' & -> & Hle)].
      - eexists _, 2%nat. split_and!; [exact Hst|lia|done|done].
      - destruct (loop_done cs false _ k cur new v sh' CFreeze 36 Hi' Hk') as (s3 & m & Hst3 & Hm & Hinv3 & _ & Hk3);
          [unfold calls_left, NShards; lia|].
        exists s3, (2 + m)%nat. split_and!; [by eapply nsteps_trans|lia|done|done]. }
    destruct (inv_pcs _ _ _ Hinv3 _ _ Hk3) as (i3 & cur3 & new3 & Ha3 & Hn3 & _ & Hd3).
    assert (i3 = i) as -> by (destruct Ha3 as [Hv3 _]; unfold v in Hv3; lia).
    destruct (publish_done cs false s3 k cur3 new v i) as (s4 & St4 & Hinv4 & Hk4); try done.
    exists s4, (S m). split_and!; [lia| |done|done]. by eapply nsteps_r.
Qed.
End safety.

(** C3. The sharded service is one versioned store.  Whatever the controllers
    do (change configurations, race, stop half-way, recover), however late or
    often their calls reach the groups, every [Get] and [Put] executed by any
    group in a run of fewer than [2^64 - 2] steps either answers
    [ErrWrongGroup] and changes nothing, or answers as one table holding all
    performed puts would. *)
Theorem sharded_store_linearizable `{ConfigCodec} servers_of c0 s0 k s :
  init servers_of c0 s0 → nsteps (step servers_of) k s0 s → Z.of_nat k + 2 < u64_mod →
  (∀ g a, let r := ShardGrp.doGet (grp s g) a in
     get_Err r = ErrWrongGroup ∨ (get_Value r, get_Version r, get_Err r) = spec_get (spec s) a)
  ∧ (∀ g a, let '(kv, r) := ShardGrp.doPut (grp s g) a in
     (put_Err r = ErrWrongGroup ∧ kv = grp s g)
     ∨ (put_Err r = snd (spec_put (spec s) a) ∧ put_Err r ≠ ErrWrongGroup)).
Proof.
  intros Hi Hr Hb. destruct (run_inv servers_of c0 s0 k s Hi Hr) as (cs & pub & Hinv & _); [lia|]. split.
  - intros g a. by eapply client_get_ok.
  - intros g a. pose proof (client_put_ok servers_of cs pub s g a Hinv) as Hp.
    destruct (ShardGrp.doPut (grp s g) a) as [kv r]. destruct Hp as [?|(? & ? & _)]; auto.
Qed.

(** C11. In such a run no shard is served by two groups; no group ever reaches
    one of its [log.Fatalf] calls, whatever request it executes; and whenever no
    configuration change is pending, the group that [Query]'s answer assigns a
    shard to serves it. *)
Theorem shards_served_once `{ConfigCodec} servers_of c0 s0 k s :
  init servers_of c0 s0 → nsteps (step servers_of) k s0 s → Z.of_nat k + 2 < u64_mod →
  (∀ key g g', ShardGrp.containShardAndNoFrozen (grp s g) (Key2Shard key) = true →
     ShardGrp.containShardAndNoFrozen (grp s g') (Key2Shard key) = true → g = g')
  ∧ (∀ g req, is_client req = true ∨ (g, req) ∈ net s → is_ret (ShardGrp.DoOp req (grp s g)) = true)
  ∧ (∀ c key, settled s c →
     ShardGrp.containShardAndNoFrozen (grp s (gid_at c (Key2Shard key))) (Key2Shard key) = true).
Proof.
  intros Hi Hr Hb. destruct (run_inv servers_of c0 s0 k s Hi Hr) as (cs & pub & Hinv & _); [lia|].
  split_and!.
  - intros key g g' H1 H2. pose proof (inv_shards _ _ _ _ Hinv _ (Key2Shard_in_range key)) as Hs.
    assert (∀ g, ShardGrp.containShardAndNoFrozen (grp s g) (Key2Shard key) = true →
              v_st (views s (Key2Shard key) g) = ShardGrp.ValidShard) as Hv.
    { intros x Hx. destruct (shard_states _ _ _ _ _ _ x Hs) as [Hst|[Hst|Hst]]; [|done|];
        (rewrite not_serving_view in Hx; [done|auto]). }
    eapply one_server; eauto.
  - intros g req Hreq. destruct (execute_ok servers_of cs pub s g req Hinv Hreq) as (kv & rep & -> & _). done.
  - intros c key Hs. apply serving_view.
    apply (settled_serves servers_of cs pub s c _ Hinv Hs (Key2Shard_in_range key)).
Qed.

(** C21. Recovery completes.  From any state of such a run, a controller that
    starts [InitController] and is left alone (its calls delivered) returns
    within 114 steps; no change is pending then, and the configuration that had
    been posted last, if any, is the current one. *)
Theorem recovery_completes `{ConfigCodec} servers_of c0 s0 k s i :
  init servers_of c0 s0 → nsteps (step servers_of) k s0 s → Z.of_nat k + 2 < u64_mod →
  ctls s !! i = Some RecGetCur →
  ∃ m s' c, (m ≤ 114)%nat ∧ nsteps (step servers_of) m s s' ∧ ctls s' !! i = Some Returned
  ∧ settled s' c
  ∧ (get_Err (store_get s NewConfigKey) = OK →
     codec_FromString (get_Value (store_get s NewConfigKey)) = Ret c).
Proof.
  intros Hi Hr Hb Hk. destruct (run_inv servers_of c0 s0 k s Hi Hr) as (cs & pub & Hinv & Hl); [lia|].
  destruct (recovery_run servers_of cs pub s i Hinv) as (s' & m & Hm & Hst & Hinv' & Hk'); [lia|done|].
  destruct (inv_configs _ _ _ _ Hinv) as (Hne & _).
  destruct (last cs) as [c|] eqn:Elast; [|by apply last_None in Elast].
  exists m, s', c. split_and!; [done|done|done|by eapply settled_iff|].
  intros Hok. destruct (get_new _ _ _ _ Hinv) as [[_ He]|(new & j & Hlen & Hn & Hf & Hg)]; [congruence|].
  rewrite Hg. simpl. rewrite last_lookup, Hlen in Elast. simpl in Elast. rewrite Elast in Hn. by injection Hn as <-.
Qed.

(* ------------------------------------------------------------------ *)
(** ** Witnesses: a change from one group to two, interrupted after it was posted *)

Definition demo_servers (g : Z) : list string := if decide (g = 1) then ["a"] else ["b"].
Definition demo_c0 : ShardConfig := {| Num := 1; Shards := replicate 12 1; Groups := {[ 1 := ["a"] ]} |}.
Definition demo_c1 : ShardConfig :=
  {| Num := 2; Shards := replicate 6 1 ++ replicate 6 2; Groups := <[2 := ["b"]]> {[ 1 := ["a"] ]} |}.

Definition demo_s0 : sys :=
  {| store := match InitConfig demo_c0 KvSrv.MakeKVServer with Ret kv => kv | _ => KvSrv.MakeKVServer end;
     grp g := match ShardGrp.StartServerShardGrp g MakePersister with
              | Ret kv => kv | _ => {| ShardGrp.tbl := ∅; ShardGrp.shards := ∅; ShardGrp.shardsNums := ∅ |} end;
     ctls := []; net := []; answers := []; spec := ∅ |}.

Lemma demo_valid c : c = demo_c0 ∨ c = demo_c1 → valid_config demo_servers c.
Proof.
  intros [-> | ->]; (split; [apply (bool_decide_unpack _); vm_compute; exact I|]).
  - intros g [-> _]%elem_of_replicate. done.
  - intros g [[-> _]%elem_of_replicate|[-> _]%elem_of_replicate]%elem_of_app; done.
Qed.

Lemma demo_init : init demo_servers demo_c0 demo_s0.
Proof.
  split_and!; try done.
  - apply demo_valid. by left.
  - by intros g [-> _]%elem_of_replicate.
Qed.

(** a client's put at group 1, a controller that posts the change and stops, and
    another controller that starts *)
Definition demo_put : PutArgs := {| put_Key := "k"; put_Value := "v"; put_Version := 0 |}.
Definition demo_s1 : sys :=
  executed 1 (ShardGrp.APutArgs demo_put) (ShardGrp.APutReply {| put_Err := OK; put_LeaderHint := 0 |})
    (fst (ShardGrp.doPut (grp demo_s0 1) demo_put)) demo_s0.
Definition demo_s3 : sys :=
  let s2 := add_ctl (ChgGetCur demo_c1) demo_s1 in
  set_ctl 0 (or_exit (ChangeConfigTo_cur demo_c1 (store_get s2 CurConfigKey))) s2.
Definition demo_s5 : sys :=
  add_ctl RecGetCur
    (store_put 0 (PutNew_args demo_c1 1) Delivered true (PutNew demo_c0 demo_c1 1 false)
       (PutNew_answer demo_c0 demo_c1 1) demo_s3).

Lemma demo_run : nsteps (step demo_servers) 5 demo_s0 demo_s5.
Proof.
  eapply nsteps_l; [apply (step_execute _ demo_s0 1 (ShardGrp.APutArgs demo_put)); [by left|vm_compute; reflexivity]|].
  eapply nsteps_l; [apply (step_start _ demo_s1 (ChgGetCur demo_c1)); apply demo_valid; by right|].
  eapply nsteps_l; [apply (step_chg_cur _ _ 0 demo_c1); reflexivity|].
  eapply nsteps_l; [apply (step_put_new _ demo_s3 0 demo_c0 demo_c1 1 true Delivered); vm_compute; reflexivity|].
  eapply nsteps_l; [by apply (step_start _ _ RecGetCur)|]. apply nsteps_O.
Qed.

Lemma sharded_store_linearizable_witness :
  let r := ShardGrp.doGet (grp demo_s5 1) {| get_Key := "k" |} in
  get_Value r = "v"
  ∧ (get_Err r = ErrWrongGroup
     ∨ (get_Value r, get_Version r, get_Err r) = spec_get (spec demo_s5) {| get_Key := "k" |}).
Proof.
  split; [vm_compute; reflexivity|].
  exact (proj1 (sharded_store_linearizable demo_servers demo_c0 demo_s0 5 demo_s5 demo_init demo_run eq_refl)
           1 {| get_Key := "k" |}).
Defined.

Lemma shards_served_once_witness :
  ShardGrp.containShardAndNoFrozen (grp demo_s5 1) (Key2Shard "k") = true ∧
  ∀ g, ShardGrp.containShardAndNoFrozen (grp demo_s5 g) (Key2Shard "k") = true → g = 1.
Proof.
  split; [vm_compute; reflexivity|]. intros g Hg.
  apply (proj1 (shards_served_once demo_servers demo_c0 demo_s0 5 demo_s5 demo_init demo_run eq_refl) "k" g 1 Hg).
  vm_compute. reflexivity.
Defined.

Lemma recovery_completes_witness :
  ctls demo_s5 !! 1%nat = Some RecGetCur ∧
  ∃ m s' c, (m ≤ 114)%nat ∧ nsteps (step demo_servers) m demo_s5 s' ∧ ctls s' !! 1%nat = Some Returned
  ∧ settled s' c
  ∧ (get_Err (store_get demo_s5 NewConfigKey) = OK →
     codec_FromString (get_Value (store_get demo_s5 NewConfigKey)) = Ret c).
Proof.
  split; [vm_compute; reflexivity|].
  apply (recovery_completes demo_servers demo_c0 demo_s0 5 demo_s5 1 demo_init demo_run eq_refl).
  vm_compute. reflexivity.
Defined.
