(* ===== verification/ShardClerk.v ===== *)
(** * The clerks of the sharded service (shardkv1/shardgrp/client.go and
      shardkv1/client.go)

    The group clerk looks for the leader of one group; the service's clerk
    looks for the group that serves a key.  As in KvRaftClerk, scripts fix what
    the servers do.  A request that a group executes while it does not serve the
    shard is refused ([ErrWrongGroup], nothing changes); executed elsewhere it
    acts on the one table of the service (ShardSafety). *)

From S2P Require Import Prelude KvRpc KvSrv KvClerk KvRaftClerk ShardCfg ShardGrp.
Local Open Scope Z_scope.

Inductive sfate :=
| SLost | SLogged
| SNotLeader (hint : Z) | SDeposed (hint : Z)
| SRefused          (** executed by a group that does not serve the shard *)
| SAnswered.

(** a logged copy of our request may also be executed where it is refused *)
Inductive sbystander := SOther (op : kv_op) | SOwn | SOwnRefused.

Record sevent := { se_before : list sbystander; se_fate : string → sfate; se_rand : Z }.

(** ** The group clerk: the servers' names, and the index it tries first *)
Record GrpClerk := { servers : list string; leader : Z }.
Definition MakeGrpClerk (servers : list string) : GrpClerk := {| servers := servers; leader := 0 |}.
Definition set_leader (l : Z) (ck : GrpClerk) : GrpClerk := {| servers := servers ck; leader := l |}.

(** [rand.Intn(len(ck.servers))]; it panics on 0 *)
Definition pick_server (ck : GrpClerk) (r : Z) : outcome GrpClerk :=
  match servers ck with [] => Panic | _ => Ret (set_leader (r `mod` zlen (servers ck)) ck) end.

(** what the clerk does about [ErrWrongLeader] *)
Definition follow_hint (ck : GrpClerk) (hint r : Z) : outcome GrpClerk :=
  if decide (hint < 0) then pick_server ck r else Ret (set_leader hint ck).

Definition MaxRPCTimes : nat := 25.

Section clerk.
Context {St : Type} `{KVStore St}.
Implicit Types (w : world St) (ck : GrpClerk).

Definition sstep (args : PutArgs) (w : world St) (b : sbystander) : world St :=
  match b with
  | SOther op => step_bystander args w (Other op)
  | SOwn => step_bystander args w Own
  | SOwnRefused =>
      match outstanding w with
      | O => w
      | S n => {| store := store w; outstanding := n; answers := answers w ++ [ErrWrongGroup] |}
      end
  end.

(** [ck.Call(ck.servers[ck.leader], "KVServer.Put", &args, &reply)] *)
Definition GrpCall_Put (args : PutArgs) (ev : sevent) (srv : string) (reply : PutReply) (w : world St)
    : world St * option PutReply :=
  let w1 := foldl (sstep args) w (se_before ev) in
  let wrong hint := Some (PutReply_decode reply {| put_Err := ErrWrongLeader; put_LeaderHint := hint |}) in
  match se_fate ev srv with
  | SLost => (w1, None)
  | SLogged => (log_one w1, None)
  | SNotLeader hint => (w1, wrong hint)
  | SDeposed hint => (log_one w1, wrong hint)
  | SRefused =>
      ({| store := store w1; outstanding := outstanding w1; answers := answers w1 ++ [ErrWrongGroup] |},
       Some (PutReply_decode reply {| put_Err := ErrWrongGroup; put_LeaderHint := 0 |}))
  | SAnswered =>
      let '(s', r) := kv_Put (store w1) args in
      ({| store := s'; outstanding := outstanding w1; answers := answers w1 ++ [put_Err r] |},
       Some (PutReply_decode reply r))
  end.

(** The loop of the group clerk's [Put]; one [reply] for all attempts *)
Fixpoint GrpPut (args : PutArgs) (script : list sevent) (ck : GrpClerk) (reply : PutReply) (rpcTimes : Z)
    (w : world St) : world St * GrpClerk * option (outcome Err) :=
  match script with
  | [] => (w, ck, None)
  | ev :: script' =>
      match zlookup (servers ck) (leader ck) with
      | None => (w, ck, Some Panic)
      | Some srv =>
          let '(w1, rep) := GrpCall_Put args ev srv reply w in
          match rep with
          | Some reply' =>
              match put_Err reply' with
              | ErrWrongLeader =>
                  match follow_hint ck (put_LeaderHint reply') (se_rand ev) with
                  | Ret ck' => GrpPut args script' ck' reply' rpcTimes w1
                  | _ => (w1, ck, Some Panic)
                  end
              | OK => (w1, ck, Some (Ret OK))
              | ErrVersion => (w1, ck, Some (Ret (if decide (rpcTimes = 0) then ErrVersion else ErrMaybe)))
              | ErrNoKey => (w1, ck, Some (Ret ErrNoKey))
              | ErrWrongGroup => (w1, ck, Some (Ret ErrWrongGroup))
              | _ => (w1, ck, Some Fatal)
              end
          | None =>
              match pick_server ck (se_rand ev) with
              | Ret ck' => GrpPut args script' ck' reply (rpcTimes + 1) w1
              | _ => (w1, ck, Some Panic)
              end
          end
      end
  end.

(** *** [Get]: at most [MaxRPCTimes] attempts, each with a fresh reply *)
Definition GrpCall_Get (key : string) (ev : sevent) (srv : string) (s : St) : St * option GetReply :=
  let s1 := foldl (λ s b, match b with SOther op => fst (exec s op) | _ => s end) s (se_before ev) in
  let answer e hint := Some {| get_Value := ""; get_Version := 0; get_Err := e; get_LeaderHint := hint |} in
  match se_fate ev srv with
  | SLost | SLogged => (s1, None)
  | SNotLeader hint | SDeposed hint => (s1, answer ErrWrongLeader hint)
  | SRefused => (s1, answer ErrWrongGroup 0)
  | SAnswered => (s1, Some (kv_Get s1 {| get_Key := key |}))
  end.

(** [n]: attempts left.  A script shorter than that leaves the loop running
    ([None]). *)
Fixpoint GrpGet_loop (n : nat) (key : string) (script : list sevent) (ck : GrpClerk) (s : St)
    : St * GrpClerk * option (outcome (string * Tversion * Err)) :=
  match n with
  | O => (s, ck, Some (Ret ("", 0, ErrWrongGroup)))
  | S n' =>
      match script with
      | [] => (s, ck, None)
      | ev :: script' =>
          match zlookup (servers ck) (leader ck) with
          | None => (s, ck, Some Panic)
          | Some srv =>
              let '(s1, rep) := GrpCall_Get key ev srv s in
              match rep with
              | Some reply =>
                  match get_Err reply with
                  | ErrWrongLeader =>
                      match follow_hint ck (get_LeaderHint reply) (se_rand ev) with
                      | Ret ck' => GrpGet_loop n' key script' ck' s1
                      | _ => (s1, ck, Some Panic)
                      end
                  | OK => (s1, ck, Some (Ret (get_Value reply, get_Version reply, OK)))
                  | ErrNoKey => (s1, ck, Some (Ret ("", 0, ErrNoKey)))
                  | ErrWrongGroup => (s1, ck, Some (Ret ("", 0, ErrWrongGroup)))
                  | _ => GrpGet_loop n' key script' ck s1
                  end
              | None =>
                  match pick_server ck (se_rand ev) with
                  | Ret ck' => GrpGet_loop n' key script' ck' s1
                  | _ => (s1, ck, Some Panic)
                  end
              end
          end
      end
  end.

Definition GrpGet (key : string) (script : list sevent) (ck : GrpClerk) (s : St) :=
  GrpGet_loop MaxRPCTimes key script ck s.
End clerk.

(** *** [FreezeShard], [InstallShard], [DeleteShard]: the same loop, around
    replies of different types.  [replies]: what each call brings. *)
Section shard_calls.
Context {R : Type} (err : R → Err) (hint : R → Z).

Fixpoint ShardCall (script : list ((string → option R) * Z)) (ck : GrpClerk)
    : GrpClerk * option (outcome (R * Err)) :=
  match script with
  | [] => (ck, None)
  | (call, r) :: script' =>
      match zlookup (servers ck) (leader ck) with
      | None => (ck, Some Panic)
      | Some srv =>
          let again m := match m with Ret ck' => ShardCall script' ck' | _ => (ck, Some Panic) end in
          match call srv with
          | Some reply =>
              match err reply with
              | ErrWrongLeader => again (follow_hint ck (hint reply) r)
              | OK => (ck, Some (Ret (reply, OK)))
              | ErrWrongGroup => (ck, Some (Ret (reply, ErrWrongGroup)))
              | _ => (ck, Some Fatal)
              end
          | None => again (pick_server ck r)
          end
      end
  end.
End shard_calls.

Definition GrpFreezeShard := ShardCall frr_Err frr_LeaderHint.
Definition GrpInstallShard := ShardCall inr_Err inr_LeaderHint.
Definition GrpDeleteShard := ShardCall der_Err der_LeaderHint.

(** ** The service's clerk *)
Record Clerk := { rcks : gmap Z GrpClerk; config : option ShardConfig }.
Definition MakeClerk : Clerk := {| rcks := ∅; config := None |}.

Definition GetClerk (gid : Z) (ck : Clerk) : option GrpClerk := rcks ck !! gid.

(** [query]: what [ck.sck.Query()] would return now *)
Definition getClientByShard (query : ShardConfig) (shid : Z) (isUpdate : bool) (ck : Clerk)
    : outcome (Clerk * Z * GrpClerk) :=
  let cfg := match config ck with
             | Some c => if isUpdate then query else c
             | None => query
             end in
  '(gid, srvs) ← GidServers shid cfg;
  match srvs with
  | None => Fatal
  | Some srvs =>
      match GetClerk gid ck, isUpdate with
      | Some client, false => Ret ({| rcks := rcks ck; config := Some cfg |}, gid, client)
      | _, _ => let client := MakeGrpClerk srvs in
                Ret ({| rcks := <[gid := client]> (rcks ck); config := Some cfg |}, gid, client)
      end
  end.

(** the group clerk is shared by reference: its new leader stays in the map *)
Definition keep_leader (gid : Z) (client : GrpClerk) (ck : Clerk) : Clerk :=
  {| rcks := <[gid := client]> (rcks ck); config := config ck |}.

Section service.
Context {St : Type} `{KVStore St}.

(** one entry of the script per turn of the loop: the answer to [Query], and
    the group clerk's script *)
Fixpoint Put_loop (args : PutArgs) (script : list (ShardConfig * list sevent)) (isUpdate : bool) (ck : Clerk)
    (w : world St) : world St * Clerk * option (outcome Err) :=
  match script with
  | [] => (w, ck, None)
  | (query, evs) :: script' =>
      match getClientByShard query (Key2Shard (put_Key args)) isUpdate ck with
      | Ret (ck1, gid, client) =>
          let '(w1, client', res) := GrpPut args evs client PutReply0 0 w in
          let ck2 := keep_leader gid client' ck1 in
          match res with
          | None => (w1, ck2, None)
          | Some (Ret OK) => (w1, ck2, Some (Ret OK))
          | Some (Ret ErrNoKey) => (w1, ck2, Some (Ret ErrNoKey))
          | Some (Ret ErrVersion) => (w1, ck2, Some (Ret (if isUpdate then ErrMaybe else ErrVersion)))
          | Some (Ret ErrMaybe) => (w1, ck2, Some (Ret ErrMaybe))
          | Some (Ret ErrWrongGroup) => Put_loop args script' true ck2 w1
          | Some Panic => (w1, ck2, Some Panic)
          | Some _ => (w1, ck2, Some Fatal)
          end
      | Fatal => (w, ck, Some Fatal)
      | Panic => (w, ck, Some Panic)
      end
  end.

Definition Put (key value : string) (version : Tversion) (script : list (ShardConfig * list sevent)) (ck : Clerk)
    (s : St) : world St * Clerk * option (outcome Err) :=
  Put_loop {| put_Key := key; put_Value := value; put_Version := version |} script false ck
    {| store := s; outstanding := 0; answers := [] |}.

Fixpoint Get_loop (key : string) (script : list (ShardConfig * list sevent)) (isUpdate : bool) (ck : Clerk) (s : St)
    : St * Clerk * option (outcome (string * Tversion * Err)) :=
  match script with
  | [] => (s, ck, None)
  | (query, evs) :: script' =>
      match getClientByShard query (Key2Shard key) isUpdate ck with
      | Ret (ck1, gid, client) =>
          let '(s1, client', res) := GrpGet key evs client s in
          let ck2 := keep_leader gid client' ck1 in
          match res with
          | None => (s1, ck2, None)
          | Some (Ret (val, ver, OK)) => (s1, ck2, Some (Ret (val, ver, OK)))
          | Some (Ret (_, _, ErrNoKey)) => (s1, ck2, Some (Ret ("", 0, ErrNoKey)))
          | Some (Ret (_, _, ErrWrongGroup)) => Get_loop key script' true ck2 s1
          | Some Panic => (s1, ck2, Some Panic)
          | Some _ => (s1, ck2, Some Fatal)
          end
      | Fatal => (s, ck, Some Fatal)
      | Panic => (s, ck, Some Panic)
      end
  end.

Definition Get (key : string) (script : list (ShardConfig * list sevent)) (ck : Clerk) (s : St) :=
  Get_loop key script false ck s.
End service.

(** ** What the answers say *)


Definition query_ok (n shid : Z) (c : ShardConfig) : Prop :=
  ∃ g srvs, GidServers shid c = Ret (g, Some srvs) ∧ zlen srvs = n.
Definition grp_ok (n : Z) (ck : GrpClerk) : Prop := zlen (servers ck) = n ∧ 0 ≤ leader ck < n.
Definition clerk_ok (n shid : Z) (ck : Clerk) : Prop :=
  (∀ g client, rcks ck !! g = Some client → grp_ok n client) ∧ (∀ c, config ck = Some c → query_ok n shid c).






Lemma grp_ok_server n ck : grp_ok n ck → ∃ srv, zlookup (servers ck) (leader ck) = Some srv.
Proof. intros [Hl Hr]. apply zlookup_is_Some. lia. Qed.

Section sound.
Context {St : Type} `{KVStore St}.
Implicit Types (w : world St).









End sound.


(** what a group clerk's [Get] says of the table at its last call *)
Definition get_ok {St : Type} `{KVStore St} (key : string) (s : St)
    (res : option (outcome (string * Tversion * Err))) : Prop :=
  match res with
  | Some (Ret (val, ver, OK)) => spec_get (kv_table s) {| get_Key := key |} = (val, ver, OK)
  | Some (Ret (_, _, ErrNoKey)) => kv_table s !! key = None
  | _ => True
  end.

Lemma GrpGet_loop_sound {St : Type} `{KVStore St} m key script ck (s s' : St) ck' res :
  GrpGet_loop m key script ck s = (s', ck', res) → get_ok key s' res.
Proof.
  revert script ck s. induction m as [|m IH]; intros script ck s E; simpl in E; [by injection E as <- <- <-|].
  destruct script as [|ev script]; [by injection E as <- <- <-|].
  destruct (zlookup (servers ck) (leader ck)) as [srv|]; [|by injection E as <- <- <-].
  unfold GrpCall_Get in E. set (s1 := foldl _ s (se_before ev)) in E.
  assert (∀ mk, match mk with
    | Ret ck1 => GrpGet_loop m key script ck1 s1 | _ => (s1, ck, Some Panic) end = (s', ck', res) →
    get_ok key s' res) as Hgo.
  { intros mk Ef. destruct mk; [by eapply IH|by injection Ef as <- <- <-..]. }
  destruct (se_fate ev srv); simpl in E; try (by eapply Hgo); [by injection E as <- <- <-|].
  pose proof (kv_Get_spec s1 {| get_Key := key |}) as Hs.
  destruct (get_Err (kv_Get s1 {| get_Key := key |})) eqn:Er; try (by eapply IH); try (by eapply Hgo);
    injection E as <- <- <-; try done.
  unfold spec_get in Hs. simpl in Hs. injection Hs as _ _ Hs. simpl. by case_decide.
Qed.

Lemma GrpGet_sound {St : Type} `{KVStore St} key script ck (s s' : St) ck' res :
  GrpGet key script ck s = (s', ck', res) → get_ok key s' res.
Proof. unfold GrpGet. apply GrpGet_loop_sound. Qed.

Lemma GrpGet_returns {St : Type} `{KVStore St} m key script ck (s : St) :
  (m ≤ length script)%nat → is_Some (snd (GrpGet_loop m key script ck s)).
Proof.
  revert script ck s. induction m as [|m IH]; intros script ck s Hl; simpl; [by eexists|].
  destruct script as [|ev script]; simpl in Hl; [lia|].
  destruct (zlookup (servers ck) (leader ck)) as [srv|]; [|by eexists].
  destruct (GrpCall_Get key ev srv s) as [s1 [rep|]].
  - destruct (get_Err rep); try (by eexists); try (apply IH; lia).
    destruct (follow_hint ck (get_LeaderHint rep) (se_rand ev)); [apply IH; lia|by eexists..].
  - destruct (pick_server ck (se_rand ev)); [apply IH; lia|by eexists..].
Qed.

(** The clerk's [Get] returns the value and version that the table holds
    when its last call is executed, and [ErrNoKey] only when the key is absent
    then; and each turn of its loop ends after at most [MaxRPCTimes] calls to one
    group, whatever that group does. *)
Theorem sharded_get_current {St : Type} `{KVStore St} :
  (∀ key script ck (s s' : St) ck' res,
     Get key script ck s = (s', ck', res) →
     match res with
     | Some (Ret (val, ver, OK)) => spec_get (kv_table s') {| get_Key := key |} = (val, ver, OK)
     | Some (Ret (_, _, ErrNoKey)) => kv_table s' !! key = None
     | Some (Ret _) => False
     | _ => True
     end)
  ∧ (∀ key script ck (s : St), (MaxRPCTimes ≤ length script)%nat → is_Some (snd (GrpGet key script ck s))).
Proof.
  split; [|intros; by apply GrpGet_returns].
  intros key script ck s s' ck' res. unfold Get. generalize false as isUpdate.
  revert ck s. induction script as [|[query evs] script IH]; intros ck s isUpdate E; simpl in E.
  { by injection E as <- <- <-. }
  destruct (getClientByShard query (Key2Shard key) isUpdate ck) as [[[ck1 gid] client]| |];
    [|by injection E as <- <- <-..].
  destruct (GrpGet key evs client s) as [[s1 client'] r] eqn:EG. apply GrpGet_sound in EG.
  destruct r as [[[[val ver] []]| |]|]; try (by injection E as <- <- <-); by eapply IH.
Qed.

(** *** A clerk with a stale configuration.  What it gets depends on the server
    it contacts: of the servers [srvs] of the group that serves the shard the one
    at index [l] answers and the others name it; any other server refuses. *)
Definition serving (srvs : list string) (l : Z) (srv : string) : sfate :=
  if decide (zlookup srvs l = Some srv) then SAnswered
  else if decide (srv ∈ srvs) then SNotLeader l else SRefused.
Definition at_group (srvs : list string) (l : Z) : sevent :=
  {| se_before := []; se_fate := serving srvs l; se_rand := 0 |}.

(** the configuration sends the clerk to other servers than [srvs] *)
Definition points_away (n shid : Z) (srvs : list string) (c : ShardConfig) : Prop :=
  ∃ g srvs', GidServers shid c = Ret (g, Some srvs') ∧ zlen srvs' = n ∧ srvs' ## srvs.

(** one call per turn while [Query] returns [stale], two calls in the next turn *)
Definition stale_script (srvs : list string) (l : Z) (stale : list ShardConfig) (q : ShardConfig)
    : list (ShardConfig * list sevent) :=
  map (λ c, (c, [at_group srvs l])) stale ++ [(q, [at_group srvs l; at_group srvs l])].

Section recovery.
Context {St : Type} `{KVStore St} (args : PutArgs) (n l : Z) (srvs : list string).
Hypotheses (Hn : zlen srvs = n) (Hl : 0 ≤ l < n) (Hnd : NoDup srvs).
Implicit Types (w : world St).

Lemma serving_away srv : srv ∉ srvs → serving srvs l srv = SRefused.
Proof using.
  intros Hx. unfold serving. rewrite !decide_False; [done|done|].
  intros [_ ?%list_elem_of_lookup_2]%zlookup_Some. done.
Qed.

Lemma refused_turn client w :
  grp_ok n client → servers client ## srvs →
  GrpPut args [at_group srvs l] client PutReply0 0 w
  = ({| store := store w; outstanding := outstanding w; answers := answers w ++ [ErrWrongGroup] |},
     client, Some (Ret ErrWrongGroup)).
Proof using.
  intros Hg Hd. destruct (grp_ok_server n client Hg) as [srv Hs]. simpl. rewrite Hs.
  assert (srv ∉ srvs) as Hx.
  { intros ?. apply zlookup_Some in Hs as [_ ?%list_elem_of_lookup_2]. by eapply Hd. }
  unfold GrpCall_Put, at_group. simpl. by rewrite (serving_away _ Hx).
Qed.

(** the new group clerk starts at the first name and finds the leader *)
Lemma served_turn w :
  ∃ w', GrpPut args [at_group srvs l; at_group srvs l] (MakeGrpClerk srvs) PutReply0 0 w
        = (w', {| servers := srvs; leader := l |}, Some (Ret (snd (spec_put (kv_table (store w)) args))))
  ∧ kv_table (store w') = fst (spec_put (kv_table (store w)) args).
Proof using Hn Hl Hnd.
  assert (∀ w sc rep, ∃ w',
    GrpPut args (at_group srvs l :: sc) {| servers := srvs; leader := l |} rep 0 w
    = (w', {| servers := srvs; leader := l |}, Some (Ret (snd (spec_put (kv_table (store w)) args))))
    ∧ kv_table (store w') = fst (spec_put (kv_table (store w)) args)) as Hled.
  { clear w. intros w sc rep. simpl. destruct (zlookup_is_Some srvs l) as [srv Hs]; [lia|]. rewrite Hs.
    unfold GrpCall_Put, at_group. simpl. unfold serving. rewrite decide_True by done.
    pose proof (kv_Put_spec (store w) args) as Hp. destruct (kv_Put (store w) args) as [s' r]. simpl in Hp.
    unfold spec_put in *. repeat case_decide; injection Hp as Ht Hr; unfold PutReply_decode; simpl;
      rewrite Hr; simpl; eexists; (split; [done|]); done. }
  destruct (decide (l = 0)) as [->|Hl0]; [apply Hled|].
  destruct (zlookup_is_Some srvs 0) as [srv Hs]; [lia|].
  cbn [GrpPut]. simpl zlookup. rewrite Hs. unfold GrpCall_Put at 1, at_group at 1. simpl.
  assert (serving srvs l srv = SNotLeader l) as ->.
  { unfold serving. apply zlookup_Some in Hs as [_ Hs]. rewrite decide_False, decide_True; [done| |].
    - by eapply list_elem_of_lookup_2.
    - intros [_ Hs']%zlookup_Some. pose proof (NoDup_lookup _ _ _ _ Hnd Hs Hs'). lia. }
  unfold PutReply_decode. simpl. rewrite (decide_False (P := l = 0)) by done. unfold follow_hint. simpl.
  rewrite decide_False by lia. apply (Hled w []).
Qed.

(** one turn of the clerk that [Query] has told [c]: the choice is [c]'s *)
Lemma getClient_update c g srvs' (ck : Clerk) :
  GidServers (Key2Shard (put_Key args)) c = Ret (g, Some srvs') →
  getClientByShard c (Key2Shard (put_Key args)) true ck
  = Ret ({| rcks := <[g := MakeGrpClerk srvs']> (rcks ck); config := Some c |}, g, MakeGrpClerk srvs').
Proof using. intros Hc. unfold getClientByShard. destruct (config ck); rewrite Hc; simpl; by destruct (GetClerk g ck). Qed.

Lemma stale_turns g q stale (ck : Clerk) w :
  GidServers (Key2Shard (put_Key args)) q = Ret (g, Some srvs) →
  Forall (points_away n (Key2Shard (put_Key args)) srvs) stale →
  ∃ w' ck', Put_loop args (stale_script srvs l stale q) true ck w
    = (w', ck', Some (Ret (let e := snd (spec_put (kv_table (store w)) args) in
                           if decide (e = ErrVersion) then ErrMaybe else e)))
  ∧ kv_table (store w') = fst (spec_put (kv_table (store w)) args)
  ∧ config ck' = Some q ∧ GetClerk g ck' = Some {| servers := srvs; leader := l |}.
Proof using Hn Hl Hnd.
  intros Hq. revert ck w. induction stale as [|c stale IH]; intros ck w Hst.
  - unfold stale_script. cbn [map app Put_loop]. rewrite (getClient_update q g srvs) by done.
    destruct (served_turn w) as (w' & -> & Ht).
    eexists w', (keep_leader g {| servers := srvs; leader := l |}
      {| rcks := <[g := MakeGrpClerk srvs]> (rcks ck); config := Some q |}).
    split; [|split; [exact Ht|split; [done|unfold GetClerk; apply lookup_insert_eq]]].
    unfold spec_put. case_decide; simpl; [done|]. by case_decide.
  - apply Forall_cons in Hst as [(g1 & srvs1 & Hc & Hlen & Hdis) Hst].
    unfold stale_script. cbn [map app Put_loop]. rewrite (getClient_update c g1 srvs1) by done.
    rewrite (refused_turn (MakeGrpClerk srvs1)); [|split; simpl; lia|done]. simpl.
    apply (IH _ {| store := store w; outstanding := outstanding w; answers := answers w ++ [ErrWrongGroup] |} Hst).
Qed.
End recovery.

(** C37. A clerk whose configuration is stale recovers.  Its cached configuration
    names other servers than those of the group that serves the shard, its cached
    group clerks are arbitrary (also of the serving group's number, with other
    servers), and [Query] may go on returning stale configurations for any number
    of turns.  What it is answered depends on the server it contacts: outside the
    serving group a refusal, inside it the leader's name or, from the leader, the
    result.  In the first turn in which [Query] returns the right configuration
    [Put] returns: it has written the value exactly if the version matched, else
    changed nothing and reported [ErrNoKey] for an absent key and [ErrMaybe] for
    a present one; its cache holds the right configuration and its clerk of that
    group the servers and the leader. *)
Theorem stale_clerk_recovers {St : Type} `{KVStore St} n l g srvs key value version q0 stale q (ck : Clerk) (s : St) :
  zlen srvs = n → 0 ≤ l < n → NoDup srvs →
  clerk_ok n (Key2Shard key) ck →
  points_away n (Key2Shard key) srvs (default q0 (config ck)) →
  (∀ g1 srvs1 client, GidServers (Key2Shard key) (default q0 (config ck)) = Ret (g1, Some srvs1) →
     GetClerk g1 ck = Some client → servers client ## srvs) →
  Forall (points_away n (Key2Shard key) srvs) stale →
  GidServers (Key2Shard key) q = Ret (g, Some srvs) →
  ∃ w ck' e,
    Put key value version ((q0, [at_group srvs l]) :: stale_script srvs l stale q) ck s = (w, ck', Some (Ret e))
  ∧ config ck' = Some q
  ∧ GetClerk g ck' = Some {| servers := srvs; leader := l |}
  ∧ (version_at (kv_table s) key = version →
       e = OK ∧ kv_table (store w) = fst (spec_put (kv_table s) {| put_Key := key; put_Value := value; put_Version := version |})
       ∧ value_at (kv_table (store w)) key = value)
  ∧ (version_at (kv_table s) key ≠ version →
       e = (if decide (kv_table s !! key = None) then ErrNoKey else ErrMaybe) ∧ kv_table (store w) = kv_table s).
Proof.
  intros Hn Hl Hnd [Hr Hc] (g1 & srvs1 & Hc1 & Hl1 & Hd1) Hcl Hst Hq. unfold Put. cbn [Put_loop put_Key].
  set (a := {| put_Key := key; put_Value := value; put_Version := version |}).
  assert (∃ ck1 client, getClientByShard q0 (Key2Shard key) false ck = Ret (ck1, g1, client)
            ∧ grp_ok n client ∧ servers client ## srvs) as (ck1 & client & -> & Hg & Hd).
  { unfold getClientByShard. change (match config ck with Some c => c | None => q0 end) with (default q0 (config ck)).
    rewrite Hc1. simpl. destruct (GetClerk g1 ck) as [client|] eqn:E; eexists _, _; (split; [done|]).
    - split; [by eapply Hr|by eapply Hcl].
    - split; [split; simpl; lia|done]. }
  rewrite (refused_turn a n l srvs client) by done. simpl.
  destruct (stale_turns a n l srvs Hn Hl Hnd g q stale (keep_leader g1 client ck1)
    {| store := s; outstanding := 0; answers := [ErrWrongGroup] |} Hq Hst) as (w' & ck' & E & Ht & Hcfg & Hcl').
  rewrite E. simpl in Ht. eexists w', ck', _. split; [done|]. split; [done|]. split; [done|]. rewrite Ht.
  unfold spec_put. cbn [put_Key put_Version put_Value]. split; intros Hv.
  - rewrite !(decide_True (P := version_at _ _ = _)) by done. split; [done|]. split; [done|].
    simpl. unfold value_at. by rewrite lookup_insert_eq.
  - rewrite !(decide_False (P := version_at _ _ = _)) by done. split; [|done]. simpl. by destruct (decide (kv_table s !! key = None)).
Qed.

(** *** Runs: a stale clerk, and one whose first call is logged but unanswered *)
Definition cfgA : ShardConfig :=
  {| Num := 1; Shards := replicate 12 1; Groups := {[1 := ["a0"; "a1"; "a2"]]} |}.
Definition cfgB : ShardConfig :=
  {| Num := 2; Shards := replicate 12 2; Groups := <[2 := ["b0"; "b1"; "b2"]]> {[1 := ["a0"; "a1"; "a2"]]} |}.

Lemma cfgA_ok : query_ok 3 (Key2Shard "k") cfgA.
Proof. exists 1, ["a0"; "a1"; "a2"]. split; vm_compute; reflexivity. Qed.

Definition sev (bs : list sbystander) (f : sfate) : sevent := {| se_before := bs; se_fate := λ _, f; se_rand := 0 |}.





(** the clerk knows group 1 by an old server and group 2 by names it no longer has;
    [Query] first returns the old configuration; of group 2 the third server leads *)
Definition stale_clerk : Clerk :=
  {| rcks := <[1 := {| servers := ["a0"; "a1"; "x"]; leader := 1 |}]> {[2 := MakeGrpClerk ["x"; "y"; "z"]]};
     config := Some cfgA |}.

Lemma cfgA_away : points_away 3 (Key2Shard "k") ["b0"; "b1"; "b2"] cfgA.
Proof. exists 1, ["a0"; "a1"; "a2"]. split; [vm_compute; reflexivity|]. split; [done|set_solver]. Qed.

Lemma stale_clerk_ok : clerk_ok 3 (Key2Shard "k") stale_clerk.
Proof.
  split; [|intros c [= <-]; apply cfgA_ok]. intros g cl Hg. simpl in Hg.
  apply lookup_insert_Some in Hg as [[<- <-]|[_ [<- <-]%lookup_singleton_Some]]; done.
Qed.

Lemma stale_clerk_recovers_witness :
  let srvs := ["b0"; "b1"; "b2"] in
  ∃ w ck' e, Put "k" "v" 0 ((cfgA, [at_group srvs 2]) :: stale_script srvs 2 [cfgA] cfgB) stale_clerk KvSrv.MakeKVServer
             = (w, ck', Some (Ret e)) ∧ config ck' = Some cfgB
             ∧ GetClerk 2 ck' = Some {| servers := srvs; leader := 2 |} ∧ e = OK.
Proof.
  intros srvs.
  destruct (stale_clerk_recovers 3 2 2 srvs "k" "v" 0 cfgA [cfgA] cfgB stale_clerk KvSrv.MakeKVServer)
    as (w & ck' & e & E & Hc & Hg & Hok & _).
  - reflexivity.
  - done.
  - apply (bool_decide_unpack _). vm_compute. reflexivity.
  - apply stale_clerk_ok.
  - apply cfgA_away.
  - intros g1 srvs1 client Hg1. assert (g1 = 1) as -> by (vm_compute in Hg1; by injection Hg1).
    intros Hcl. vm_compute in Hcl. injection Hcl as <-. simpl. set_solver.
  - apply Forall_singleton, cfgA_away.
  - vm_compute. reflexivity.
  - exists w, ck', e. split; [exact E|]. split; [exact Hc|]. split; [exact Hg|]. apply Hok. vm_compute. reflexivity.
Defined.

(** the value is written while the clerk's first call is redirected *)
Definition get_script : list (ShardConfig * list sevent) :=
  [(cfgA, [sev [] (SNotLeader 1);
           sev [SOther (OpPut {| put_Key := "k"; put_Value := "v"; put_Version := 0 |})] SAnswered])].
Definition get_run : KvSrv.KVServer * Clerk * option (outcome (string * Tversion * Err)) :=
  Get "k" get_script MakeClerk KvSrv.MakeKVServer.

Lemma sharded_get_current_witness :
  snd get_run = Some (Ret ("v", 1, OK))
  ∧ spec_get (kv_table (fst (fst get_run))) {| get_Key := "k" |} = ("v", 1, OK).
Proof.
  split; [vm_compute; reflexivity|].
  exact (proj1 (@sharded_get_current KvSrv.KVServer KvSrv.KVServer_store) "k" get_script MakeClerk KvSrv.MakeKVServer (fst (fst get_run)) (snd (fst get_run))
           (Some (Ret ("v", 1, OK))) ltac:(vm_compute; reflexivity)).
Defined.
