(* ===== verification/MrFiles.v ===== *)
(** * The files of a MapReduce job as text

    mr/worker.go writes the intermediate files as JSON, one pair per line, and
    reads every file that matches with a JSON decoder, until the decoder
    reports an error; the output files are lines of text.  Here are the pairs,
    the texts, what is read back from them, and when an output file, which the
    pattern also matches, reads as no pair at all. *)

From S2P Require Import Prelude GoText Json.
Local Open Scope Z_scope.

Definition newline : ascii := char 10.

(** a pair, and a line of an output file: key and value *)
Record KeyValue := { Key : string; Value : string }.
Definition line : Type := string * string.

(** ** json.Encoder and json.Decoder on a [KeyValue] *)

Definition kv_json (kv : KeyValue) : chars :=
  object [member (to_chars "Key") (quote (to_chars (Key kv)));
          member (to_chars "Value") (quote (to_chars (Value kv)))].

(** [enc.Encode(&kv)], and the loop over a bucket *)
Definition Encode (kv : KeyValue) : chars := kv_json kv ++ [newline].
Definition encode_file (l : list KeyValue) : chars := concat (Encode <$> l).

Definition dec_member (kv : KeyValue) (m : chars * json) : option KeyValue :=
  let '(k, v) := m in
  if same_name k "Key" then
    x ← dec_string (to_chars (Key kv)) v; Some {| Key := of_chars x; Value := Value kv |}
  else if same_name k "Value" then
    x ← dec_string (to_chars (Value kv)) v; Some {| Key := Key kv; Value := of_chars x |}
  else Some kv.

Definition zero_kv : KeyValue := {| Key := ""; Value := "" |}.

(** assigning a JSON value to [var kv KeyValue]; [null] leaves it as it is *)
Definition dec_kv (v : json) : option KeyValue :=
  match v with
  | JNull => Some zero_kv
  | JObj ms => foldl (λ okv m, kv ← okv; dec_member kv m) (Some zero_kv) ms
  | _ => None
  end.

(** [dec.Decode(&kv)] on what is left of the file.  The decoder takes one value
    and looks at what follows only in the next call. *)
Definition Decode (s : chars) : option (KeyValue * chars) :=
  '(v, r) ← parse (parse_fuel s) 0 AtValue s;
  kv ← dec_kv v;
  Some (kv, r).

(** the loop that reads a file; each turn takes a character at least *)
Fixpoint decode_loop (fuel : nat) (s : chars) : list KeyValue :=
  match fuel with
  | O => []
  | S fuel' =>
      match Decode s with
      | Some (kv, r) => kv :: decode_loop fuel' r
      | None => []
      end
  end.
Definition decode_file (s : chars) : list KeyValue := decode_loop (length s) s.

(** [fmt.Fprintf(tmpFile, "%v %v\n", key, output)] *)
Definition line_text (l : line) : chars :=
  to_chars (fst l) ++ " "%char :: to_chars (snd l) ++ [newline].
Definition out_text (ls : list line) : chars := concat (line_text <$> ls).

(** what a reduce task reads from an output file *)
Definition decode_lines (ls : list line) : list KeyValue := decode_file (out_text ls).

(** what it reads from a file of pairs *)
Definition reread (l : list KeyValue) : list KeyValue := decode_file (encode_file l).

(** ** The fuel of the reading loop is enough *)

Lemma Decode_parses s : Decode s = '(v, r) ← parses 0 AtValue s; kv ← dec_kv v; Some (kv, r).
Proof. unfold Decode. rewrite (parse_fuel_enough (need AtValue s)); [done|done|]. unfold parse_fuel; simpl. lia. Qed.

Lemma Decode_shrinks s kv r : Decode s = Some (kv, r) → (length r < length s)%nat.
Proof.
  unfold Decode. intros E.
  destruct (parse (parse_fuel s) 0 AtValue s) as [[v r']|] eqn:Ep; [|done].
  apply parse_shrinks in Ep. simpl in E. destruct (dec_kv v); by simplify_eq/=.
Qed.

Lemma decode_loop_enough f s : (length s ≤ f)%nat → decode_loop f s = decode_file s.
Proof.
  unfold decode_file. remember (length s) as m eqn:E. revert f s E.
  induction m as [m IH] using lt_wf_ind. intros f s -> Hf.
  destruct (Decode s) as [[kv r]|] eqn:Ed.
  - pose proof (Decode_shrinks _ _ _ Ed). destruct f as [|f]; [lia|].
    destruct (length s) as [|m] eqn:Em; [lia|]. cbn [decode_loop]. rewrite Ed. f_equal.
    rewrite (IH (length r) ltac:(lia) f r eq_refl) by lia.
    symmetry. by apply (IH (length r) ltac:(lia) m r eq_refl ltac:(lia)).
  - by destruct f, (length s); cbn [decode_loop]; rewrite ?Ed.
Qed.

Lemma decode_file_eq s :
  decode_file s = match Decode s with Some (kv, r) => kv :: decode_file r | None => [] end.
Proof.
  rewrite <-(decode_loop_enough (S (length s))) by lia. cbn [decode_loop].
  destruct (Decode s) as [[kv r]|] eqn:E; [|done]. apply Decode_shrinks in E.
  by rewrite decode_loop_enough by lia.
Qed.

(** ** Intermediate files are read back *)

Definition utf8_kv (kv : KeyValue) : Prop :=
  valid_utf8 (to_chars (Key kv)) = true ∧ valid_utf8 (to_chars (Value kv)) = true.

(** the white space between two values is skipped *)
Lemma Decode_newline s : Decode (newline :: s) = Decode s.
Proof.
  rewrite !Decode_parses, !(parses_eq 0 AtValue). cbn [parse_body]. unfold parse_value.
  assert (skip_ws (newline :: s) = skip_ws s) as ->; [|done].
  unfold skip_ws. cbn [span]. change (is_space newline) with true. by destruct (span is_space s).
Qed.

Lemma decode_file_newline s : decode_file (newline :: s) = decode_file s.
Proof. by rewrite !decode_file_eq, Decode_newline. Qed.

Lemma Decode_kv_json kv r : utf8_kv kv → Decode (kv_json kv ++ r) = Some (kv, r).
Proof.
  intros [Hk Hv]. rewrite Decode_parses.
  change (kv_json kv) with (object (zip_with member [to_chars "Key"; to_chars "Value"]
    [quote (to_chars (Key kv)); quote (to_chars (Value kv))])).
  rewrite (object_read 0 _ _ [JStr (to_chars (Key kv)); JStr (to_chars (Value kv))]); [|done| |done|reflexivity|done].
  - cbn [mbind option_bind zip zip_with dec_kv foldl].
    unfold dec_member. change (same_name (to_chars "Key") "Key") with true.
    change (same_name (to_chars "Value") "Key") with false.
    change (same_name (to_chars "Value") "Value") with true. cbn [mbind option_bind dec_string Key Value].
    rewrite !of_to_chars. by destruct kv.
  - constructor; [by apply reads_string|]. constructor; [by apply reads_string|constructor].
Qed.

Lemma reread_utf8 l : Forall utf8_kv l → reread l = l.
Proof.
  unfold reread. induction 1 as [|kv l Hkv Hl IH]; [done|]. unfold encode_file, Encode in *. rewrite fmap_cons.
  cbn [concat]. rewrite <-app_assoc, decode_file_eq, Decode_kv_json by done. cbn [app].
  by rewrite decode_file_newline, IH.
Qed.

(** An intermediate file is read back as the pairs that were written to it,
    in their order, when keys and values are well-formed UTF-8. *)
Theorem intermediate_round_trip l : Forall utf8_kv l → decode_file (encode_file l) = l.
Proof. apply reread_utf8. Qed.

(** ** Output files read as no pair *)

(** no JSON value but [null], [true] and [false] starts with such a character *)
Definition word_start (c : ascii) : bool :=
  negb (is_space c) && negb (is_digit c) && bool_decide (c ∉ ["{"; "["; dquote; "-"]%char).

(** keys that the decoder stops at *)
Definition inert (k : string) : Prop :=
  (∃ c r, to_chars k = c :: r ∧ word_start c = true) ∧ strip (to_chars "null") (to_chars k) = None.

Lemma strip_app_space p w t :
  " "%char ∉ p → strip p (w ++ " "%char :: t) ≠ None → strip p w ≠ None.
Proof.
  revert p. induction w as [|c w IH]; intros [|d p] Hp; try done.
  - cbn [app strip]. case_decide as E; [|done]. intros _. subst. set_solver.
  - cbn [app strip]. case_decide; [|done]. apply IH. set_solver.
Qed.

Lemma valid_number_word c l : word_start c = true → valid_number (fst (span num_char (c :: l))) = false.
Proof.
  unfold word_start. intros [[_ Hd%negb_true_iff]%andb_true_iff Hc%bool_decide_eq_true]%andb_true_iff.
  cbn [span]. destruct (num_char c) eqn:Hn; [|done]. destruct (span num_char l) as [a b]. cbn [fst].
  unfold valid_number. rewrite (strip1_ne "-") by (intros <-; set_solver). cbn [default option_map].
  unfold default. rewrite (strip1_ne "0") by (intros <-; done).
  cbn [span]. by rewrite Hd.
Qed.

Lemma Decode_word c l :
  word_start c = true → strip (to_chars "null") (c :: l) = None → Decode (c :: l) = None.
Proof.
  intros Hc Hnull. rewrite Decode_parses, parses_eq. cbn [parse_body]. unfold parse_value.
  pose proof (valid_number_word c l Hc) as Hnum. unfold word_start in Hc.
  apply andb_true_iff in Hc as [[Hs%negb_true_iff _]%andb_true_iff Hc%bool_decide_eq_true].
  rewrite skip_ws_cons by done. rewrite !strip1_ne by (intros <-; set_solver).
  unfold parse_scalar, words. cbn [omap list_omap fst snd]. rewrite Hnull. cbn [fmap option_fmap option_map].
  destruct (strip (to_chars "true") (c :: l)); [done|]. cbn [fmap option_fmap option_map].
  destruct (strip (to_chars "false") (c :: l)); [done|]. cbn [fmap option_fmap option_map].
  destruct (span num_char (c :: l)) as [lit r]. cbn [fst] in Hnum. by rewrite Hnum.
Qed.

Lemma decode_lines_inert ls : (∀ l, head ls = Some l → inert (fst l)) → decode_lines ls = [].
Proof.
  unfold decode_lines. destruct ls as [|[k v] ls]; intros Hk; [done|].
  destruct (Hk _ eq_refl) as [(c & r & E & Hc) Hnull]. cbn [fst] in *.
  rewrite decode_file_eq. unfold out_text, line_text. rewrite fmap_cons. cbn [concat fst snd].
  rewrite <-app_assoc. cbn [app].
  assert (∀ t, strip (to_chars "null") (to_chars k ++ " "%char :: t) = None) as Hn.
  { intros t. apply eq_None_not_Some. intros [x Hx].
    refine (strip_app_space (to_chars "null") (to_chars k) t _ _ Hnull); [|congruence].
    apply (bool_decide_unpack _). vm_compute. exact I. }
  rewrite E in Hn |- *. cbn [app] in *. rewrite Decode_word; [done|done|apply Hn].
Qed.

Definition example_pairs : list KeyValue :=
  [{| Key := "naïve"; Value := "1" |}; {| Key := "a<b"; Value := "line\n" |}].

Lemma intermediate_round_trip_witness : decode_file (encode_file example_pairs) = example_pairs.
Proof.
  apply intermediate_round_trip.
  constructor; [split; vm_compute; reflexivity|]. constructor; [split; vm_compute; reflexivity|constructor].
Defined.

(** Otherwise it is not: a byte that is not UTF-8 comes back as the replacement
    character. *)
Lemma reread_ill_formed :
  reread [{| Key := of_chars ["a"%char; char 255]; Value := "1" |}] = [{| Key := of_chars ["a"%char; char 239; char 191; char 189]; Value := "1" |}].
Proof. vm_compute. reflexivity. Qed.
