(* ===== verification/MapReduce.v ===== *)
(** * MapReduce (mr/coordinator.go, mr/worker.go, mr/rpc.go) and the sequential
      program it is compared with (main/mrsequential.go)

    A coordinator hands out tasks and takes back those that are not reported in
    time; workers exchange files in a shared directory.  Workers are threads of
    steps: one per RPC, per file read and per file renamed into place; they may
    stop or be slow at any point, and two may work on the same task. *)

From stdpp Require Import pretty.
From S2P Require Import Prelude GoText Json MrFiles.
Local Open Scope Z_scope.

(** ** mr/rpc.go *)
Inductive TaskType := MapTask | ReduceTask | WaitTask | DoneTask | NoReply.
Record GetTaskReply := { TaskTypeOf : TaskType; TaskID : nat; FileName : string; NReduce : nat; KeyHash : nat }.

Definition ihash (key : string) : Z := Z.land (fnv32a 2166136261 key) 0x7fffffff.

(** ** mr/coordinator.go *)
Inductive taskState := taskStateUnassigned | taskStateExecuting | taskStateDone.
Inductive phase := phaseMap | phaseReduce | phaseFinished.

#[export] Instance taskState_eq_dec : EqDecision taskState.
Proof. solve_decision. Defined.
#[export] Instance phase_eq_dec : EqDecision phase.
Proof. solve_decision. Defined.

Record Coordinator := { files : list string; nReduce : nat; taskStates : list taskState; state : phase }.

Definition set_task (i : nat) (t : taskState) (c : Coordinator) : Coordinator :=
  {| files := files c; nReduce := nReduce c; taskStates := <[i := t]> (taskStates c); state := state c |}.
Definition set_phase (p : phase) (c : Coordinator) : Coordinator :=
  {| files := files c; nReduce := nReduce c; taskStates := taskStates c; state := p |}.

Definition MakeCoordinator (fs : list string) (nReduce : nat) : Coordinator :=
  {| files := fs; nReduce := nReduce; taskStates := replicate (length fs + nReduce) taskStateUnassigned;
     state := phaseMap |}.

Definition Done (c : Coordinator) : bool := bool_decide (state c = phaseFinished).

(** the loops over the tasks [i .. i+n-1]: the first unassigned task, or none
    and whether all are done *)
Fixpoint scan_tasks (n i : nat) (sts : list taskState) (allDone : bool) : outcome (option nat * bool) :=
  match n with
  | O => Ret (None, allDone)
  | S n' =>
      match sts !! i with
      | None => Panic
      | Some st =>
          let allDone' := if decide (st ≠ taskStateDone) then false else allDone in
          if decide (st = taskStateUnassigned) then Ret (Some i, allDone') else scan_tasks n' (S i) sts allDone'
      end
  end.

Definition reply_of (t : TaskType) (id : nat) (f : string) (n h : nat) : GetTaskReply :=
  {| TaskTypeOf := t; TaskID := id; FileName := f; NReduce := n; KeyHash := h |}.

(** the part of [GetTask] from the test for the last phase on *)
Definition GetTask_end (c : Coordinator) : Coordinator * GetTaskReply * option nat :=
  (c, reply_of (if decide (state c = phaseFinished) then DoneTask else WaitTask) 0 "" 0 0, None).

Definition GetTask_reduce (c : Coordinator) : outcome (Coordinator * GetTaskReply * option nat) :=
  if decide (state c = phaseReduce) then
    '(found, allDone) ← scan_tasks (nReduce c) (length (files c)) (taskStates c) true;
    match found with
    | Some i => Ret (set_task i taskStateExecuting c, reply_of ReduceTask i "" 0 (i - length (files c)), Some i)
    | None => Ret (GetTask_end (if allDone : bool then set_phase phaseFinished c else c))
    end
  else Ret (GetTask_end c).

(** [GetTask]: the reply, and the task whose timer is started *)
Definition GetTask (c : Coordinator) : outcome (Coordinator * GetTaskReply * option nat) :=
  if decide (state c = phaseMap) then
    '(found, allDone) ← scan_tasks (length (files c)) 0 (taskStates c) true;
    match found with
    | Some i =>
        match files c !! i with
        | Some f => Ret (set_task i taskStateExecuting c, reply_of MapTask i f (nReduce c) 0, Some i)
        | None => Panic
        end
    | None => GetTask_reduce (if allDone : bool then set_phase phaseReduce c else c)
    end
  else GetTask_reduce c.

(** [timer] after its ten seconds *)
Definition timer (i : nat) (c : Coordinator) : outcome Coordinator :=
  match taskStates c !! i with
  | None => Panic
  | Some st => Ret (if decide (st = taskStateExecuting) then set_task i taskStateUnassigned c else c)
  end.

Definition CompleteTask (id : Z) (c : Coordinator) : outcome Coordinator :=
  st ← go_index (taskStates c) id;
  Ret (if decide (st = taskStateExecuting) then set_task (Z.to_nat id) taskStateDone c else c).

(** ** Files: [mr-X-Y], to which pairs were written as JSON, and [mr-out-Y], to
    which lines were; what is in them is text *)
Inductive fname := Inter (x y : nat) | Out (y : nat).
Inductive content := Pairs (l : list KeyValue) | Lines (l : list line).
Definition content_text (c : content) : chars :=
  match c with Pairs l => encode_file l | Lines ls => out_text ls end.

#[export] Instance fname_eq_dec : EqDecision fname.
Proof. solve_decision. Defined.
#[export] Instance fname_countable : Countable fname.
Proof.
  apply (inj_countable' (λ f, match f with Inter x y => inl (x, y) | Out y => inr y end)
           (λ z, match z with inl (x, y) => Inter x y | inr y => Out y end)).
  by intros [].
Defined.

(** [filepath.Glob("mr-*-h")]: the star also matches [out] *)
Definition matches (h : nat) (f : fname) : bool :=
  match f with Inter _ y => bool_decide (y = h) | Out y => bool_decide (y = h) end.

Section mapreduce.
(** the application, the input files, and what the program leaves to the
    library: the order in which equal keys are sorted *)
Context (mapf : string → string → list KeyValue) (reducef : string → list string → string).
Context (input : string → option string).
Context (sort_kv : list KeyValue → list KeyValue).

(** ** mr/worker.go *)

(** the buckets of one map task *)
Definition bucket_of (n : nat) (kv : KeyValue) : nat := Z.to_nat (ihash (Key kv) `mod` Z.of_nat n).

Fixpoint fill_buckets (n : nat) (kva : list KeyValue) (buckets : list (list KeyValue)) : list (list KeyValue) :=
  match kva with
  | [] => buckets
  | kv :: kva' => fill_buckets n kva' (alter (λ b, b ++ [kv]) (bucket_of n kv) buckets)
  end.

Definition make_buckets (n : nat) (kva : list KeyValue) : list (list KeyValue) :=
  fill_buckets n kva (replicate n []).

(** the loop over [j]: the pairs at the front with key [k], and the rest *)
Fixpoint take_run (k : string) (l : list KeyValue) : list KeyValue * list KeyValue :=
  match l with
  | kv :: l' => if decide (Key kv = k) then let '(a, b) := take_run k l' in (kv :: a, b) else ([], l)
  | [] => ([], [])
  end.

(** the loop over [i]: one call of [reducef] per run of equal keys *)
Fixpoint group_loop (fuel : nat) (l : list KeyValue) : list line :=
  match fuel, l with
  | S fuel', kv :: l' =>
      let '(same, rest) := take_run (Key kv) l' in
      (Key kv, reducef (Key kv) (Value kv :: (Value <$> same))) :: group_loop fuel' rest
  | _, _ => []
  end.
Definition group (l : list KeyValue) : list line := group_loop (length l) l.

(** where a worker stands *)
Inductive wpc :=
| WIdle                                                      (** before [CallGetTask] *)
| WMapWrite (id y : nat) (buckets : list (list KeyValue))    (** before file [y] *)
| WComplete (id : nat)                                       (** before [CallCompleteTask] *)
| WGlob (id h : nat)
| WRead (id h : nat) (filenames : list fname) (allKv : list KeyValue)
| WExited.

(** a map task up to its first file: read, map, fill the buckets *)
Definition start_map (r : GetTaskReply) : outcome wpc :=
  match input (FileName r) with
  | None => Fatal
  | Some text =>
      let kva := mapf (FileName r) text in
      if decide (NReduce r = 0%nat ∧ kva ≠ []) then Panic (* division by zero *)
      else Ret (WMapWrite (TaskID r) 0 (make_buckets (NReduce r) kva))
  end.

Definition dispatch (r : GetTaskReply) : outcome wpc :=
  match TaskTypeOf r with
  | MapTask => start_map r
  | ReduceTask => Ret (WGlob (TaskID r) (KeyHash r))
  | WaitTask => Ret WIdle
  | DoneTask | NoReply => Ret WExited
  end.

Definition or_exited (m : outcome wpc) : wpc := match m with Ret p => p | _ => WExited end.

Abbreviation disk := (gmap fname content).

(** one turn of the loop that writes the buckets, each as the JSON text of its
    pairs; nil buckets are skipped *)
Definition write_bucket (id y : nat) (buckets : list (list KeyValue)) (fs : disk) : disk * wpc :=
  match buckets !! y with
  | None => (fs, WComplete id)
  | Some [] => (fs, WMapWrite id (S y) buckets)
  | Some b => (<[Inter id y := Pairs b]> fs, WMapWrite id (S y) buckets)
  end.

(** one turn of the loop that reads the files: the pairs that the JSON decoder
    finds in the text before its first error; a file that is gone by then ends
    the process *)
Definition read_file (id h : nat) (f : fname) (names : list fname) (allKv : list KeyValue) (fs : disk) : wpc :=
  match fs !! f with
  | None => WExited
  | Some c => WRead id h names (allKv ++ decode_file (content_text c))
  end.

Definition write_output (id h : nat) (allKv : list KeyValue) (fs : disk) : disk * wpc :=
  (<[Out h := Lines (group (sort_kv allKv))]> fs, WComplete id).

(** ** main/mrsequential.go; [None]: an input file cannot be read *)
Context (sort_seq : list KeyValue → list KeyValue).

Fixpoint intermediate (filenames : list string) : option (list KeyValue) :=
  match filenames with
  | [] => Some []
  | f :: fs => text ← input f; rest ← intermediate fs; Some (mapf f text ++ rest)
  end.

Definition mrsequential (filenames : list string) : option (list line) :=
  l ← intermediate filenames; Some (group (sort_seq l)).

(** ** The system *)
Record sys := { coord : Coordinator; dir : disk; timers : list nat; workers : list wpc }.

Definition set_worker (w : nat) (p : wpc) (s : sys) : sys :=
  {| coord := coord s; dir := dir s; timers := timers s; workers := <[w := p]> (workers s) |}.
Definition set_dir (fs : disk) (s : sys) : sys :=
  {| coord := coord s; dir := fs; timers := timers s; workers := workers s |}.
Definition set_coord (c : Coordinator) (s : sys) : sys :=
  {| coord := c; dir := dir s; timers := timers s; workers := workers s |}.
Definition add_timer (t : option nat) (s : sys) : sys :=
  {| coord := coord s; dir := dir s; timers := timers s ++ option_list t; workers := workers s |}.

Inductive step (s : sys) : sys → Prop :=
| step_get_task w c r t :
    workers s !! w = Some WIdle → GetTask (coord s) = Ret (c, r, t) →
    step s (set_worker w (or_exited (dispatch r)) (add_timer t (set_coord c s)))
| step_get_task_lost w :           (* the call fails, before or after the handler ran *)
    workers s !! w = Some WIdle → step s (set_worker w WExited s)
| step_get_task_reply_lost w c r t :
    workers s !! w = Some WIdle → GetTask (coord s) = Ret (c, r, t) →
    step s (set_worker w WExited (add_timer t (set_coord c s)))
| step_map_write w id y buckets :
    workers s !! w = Some (WMapWrite id y buckets) →
    step s (set_worker w (snd (write_bucket id y buckets (dir s)))
              (set_dir (fst (write_bucket id y buckets (dir s))) s))
| step_glob w id h names :
    workers s !! w = Some (WGlob id h) →
    NoDup names → (∀ f, f ∈ names ↔ is_Some (dir s !! f) ∧ matches h f = true) →
    step s (set_worker w (WRead id h names []) s)
| step_read w id h f names allKv :
    workers s !! w = Some (WRead id h (f :: names) allKv) →
    step s (set_worker w (read_file id h f names allKv (dir s)) s)
| step_write w id h allKv :
    workers s !! w = Some (WRead id h [] allKv) →
    step s (set_worker w (snd (write_output id h allKv (dir s)))
              (set_dir (fst (write_output id h allKv (dir s))) s))
| step_complete w id c :
    workers s !! w = Some (WComplete id) → CompleteTask (Z.of_nat id) (coord s) = Ret c →
    step s (set_worker w WIdle (set_coord c s))
| step_complete_lost w id :
    workers s !! w = Some (WComplete id) → step s (set_worker w WIdle s)
| step_timer t i c :
    timers s !! t = Some i → timer i (coord s) = Ret c →
    step s {| coord := c; dir := dir s; timers := delete t (timers s); workers := workers s |}
| step_worker_starts : step s {| coord := coord s; dir := dir s; timers := timers s; workers := workers s ++ [WIdle] |}.

Definition init (filenames : list string) (n : nat) : sys :=
  {| coord := MakeCoordinator filenames n; dir := ∅; timers := []; workers := [] |}.
End mapreduce.

(* ------------------------------------------------------------------ *)
(** ** Grouping a sorted list *)

Definition key_le (a b : KeyValue) : Prop := (Key a ≤ Key b)%string.
Definition vals (k : string) (l : list KeyValue) : list string := Value <$> filter (λ kv, Key kv = k) l.
Definition has_key (k : string) (l : list KeyValue) : Prop := ∃ kv, kv ∈ l ∧ Key kv = k.

#[export] Instance key_le_trans : Transitive key_le.
Proof. intros a b c. unfold key_le. apply String.le_po. Qed.

Section grouping.
Context (reducef : string → list string → string).
Implicit Types (l : list KeyValue) (k : string).

Lemma take_run_spec k l a b :
  take_run k l = (a, b) →
  l = a ++ b ∧ Forall (λ kv, Key kv = k) a ∧ match b with [] => True | kv :: _ => Key kv ≠ k end.
Proof.
  revert a b. induction l as [|kv l IH]; intros a b E; simpl in E; [by injection E as <- <-|].
  case_decide as Hk; [|injection E as <- <-; by split_and!].
  destruct (take_run k l) as [a' b'] eqn:E'. injection E as <- <-.
  destruct (IH _ _ eq_refl) as (-> & Ha & Hb). split_and!; [done|by constructor|done].
Qed.

(** in a sorted list, the key of the run does not come back *)
Lemma run_ends kv same rest :
  StronglySorted key_le (kv :: same ++ rest) →
  match rest with [] => True | kv' :: _ => Key kv' ≠ Key kv end →
  Forall (λ kv', Key kv' ≠ Key kv) rest.
Proof.
  intros Hs Hhead. destruct rest as [|r rest]; [done|].
  apply StronglySorted_inv in Hs as [Hs Hall]. rewrite Forall_app in Hall. destruct Hall as [_ Hall].
  apply Forall_cons in Hall as [Hr _].
  assert (StronglySorted key_le (r :: rest)) as Hs'.
  { clear -Hs. induction same as [|x same IH]; [done|]. apply IH. by apply StronglySorted_inv in Hs as [? _]. }
  apply StronglySorted_inv in Hs' as [_ Hge]. constructor; [done|].
  rewrite Forall_forall in Hge |- *. intros x Hx He. apply Hhead.
  specialize (Hge x Hx). unfold key_le in *. rewrite He in Hge. by apply (anti_symm String.le).
Qed.

Lemma vals_none k l : Forall (λ kv, Key kv ≠ k) l → vals k l = [].
Proof. intros Hl. unfold vals. rewrite filter_none; [done|]. by rewrite <-Forall_forall. Qed.

Lemma vals_all k l : Forall (λ kv, Key kv = k) l → vals k l = Value <$> l.
Proof.
  intros Hl. unfold vals. f_equal. induction Hl as [|x l Hx _ IH]; [done|]. by rewrite filter_cons_True, IH.
Qed.

Lemma vals_app k l1 l2 : vals k (l1 ++ l2) = vals k l1 ++ vals k l2.
Proof. unfold vals. by rewrite filter_app, fmap_app. Qed.

Lemma vals_perm k l1 l2 : l1 ≡ₚ l2 → vals k l1 ≡ₚ vals k l2.
Proof. intros Hp. unfold vals. by rewrite Hp. Qed.

(** one line per key, the key's values in their order *)
Lemma group_loop_spec fuel l :
  (length l ≤ fuel)%nat → StronglySorted key_le l →
  let ks := fst <$> group_loop reducef fuel l in
  group_loop reducef fuel l = (λ k, (k, reducef k (vals k l))) <$> ks
  ∧ NoDup ks ∧ ∀ k, k ∈ ks ↔ has_key k l.
Proof.
  revert l. induction fuel as [|fuel IH]; intros l Hl Hs.
  { destruct l; simpl in Hl; [|lia]. simpl. split_and!; [done|constructor|]. unfold has_key. set_solver. }
  destruct l as [|kv l]; [simpl; split_and!; [done|constructor|]; unfold has_key; set_solver|].
  simpl. destruct (take_run (Key kv) l) as [same rest] eqn:Et.
  apply take_run_spec in Et as (-> & Hsame & Hhead). simpl.
  pose proof (run_ends _ _ _ Hs Hhead) as Hrest.
  assert (StronglySorted key_le rest) as Hsr.
  { apply StronglySorted_inv in Hs as [Hs _]. clear -Hs. induction same; [done|].
    apply IHsame. by apply StronglySorted_inv in Hs as [? _]. }
  destruct (IH rest) as (IH1 & IH2 & IH3); [simpl in Hl; rewrite length_app in Hl; lia|done|].
  assert (Forall (λ kv', Key kv' = Key kv) (kv :: same)) as Hrun by (by constructor).
  split_and!.
  - f_equal.
    + f_equal. f_equal. change (kv :: same ++ rest) with ((kv :: same) ++ rest).
      rewrite vals_app, (vals_none _ rest), app_nil_r by done. by rewrite vals_all.
    + rewrite IH1 at 1. apply list_fmap_ext. intros i k Hk. apply list_elem_of_lookup_2, IH3 in Hk.
      destruct Hk as (kv' & Hin & <-). f_equal. f_equal.
      change (kv :: same ++ rest) with ((kv :: same) ++ rest). rewrite vals_app, (vals_none _ (kv :: same)); [done|].
      rewrite Forall_forall in Hrest. eapply Forall_impl; [exact Hrun|]. intros x Hx Hx'.
      apply (Hrest _ Hin). congruence.
  - constructor; [|done]. rewrite IH3. intros (kv' & Hin & He). rewrite Forall_forall in Hrest.
    by apply (Hrest _ Hin).
  - intros k. rewrite elem_of_cons, IH3. unfold has_key. setoid_rewrite elem_of_cons. setoid_rewrite elem_of_app.
    rewrite Forall_forall in Hsame. split.
    + intros [->|(kv' & ? & ?)]; eauto 10.
    + intros (kv' & [->|[Hin|Hin]] & <-); [by left| |right; eauto]. left. by apply Hsame.
Qed.

(** sorting any arrangement of the same pairs gives the same lines, when the
    application does not depend on the order of the values *)
Hypothesis reducef_perm : ∀ k vs vs', vs ≡ₚ vs' → reducef k vs = reducef k vs'.

Lemma group_canonical l l0 :
  StronglySorted key_le l → l ≡ₚ l0 →
  ∃ ks, group reducef l = (λ k, (k, reducef k (vals k l0))) <$> ks ∧ NoDup ks ∧ ∀ k, k ∈ ks ↔ has_key k l0.
Proof.
  intros Hs Hp. destruct (group_loop_spec (length l) l) as (H1 & H2 & H3); [done|done|].
  eexists. split_and!; [|exact H2|].
  - unfold group. rewrite H1 at 1. apply list_fmap_ext. intros i k _. f_equal. apply reducef_perm.
    by apply vals_perm.
  - intros k. rewrite H3. unfold has_key. by setoid_rewrite Hp.
Qed.
End grouping.

(* ------------------------------------------------------------------ *)
(** ** Buckets *)

Section buckets.
Context (n : nat) (Hn : (0 < n)%nat).

Lemma bucket_of_lt kv : (bucket_of n kv < n)%nat.
Proof.
  unfold bucket_of. assert (0 ≤ ihash (Key kv) `mod` Z.of_nat n < Z.of_nat n); [apply Z.mod_pos_bound; lia|lia].
Qed.

Lemma fill_buckets_spec kva bs y :
  length bs = n → (y < n)%nat →
  fill_buckets n kva bs !! y = (λ b, b ++ filter (λ kv, bucket_of n kv = y) kva) <$> bs !! y.
Proof.
  revert bs. induction kva as [|kv kva IH]; intros bs Hl Hy; simpl.
  { destruct (bs !! y); simpl; [by rewrite app_nil_r|done]. }
  rewrite IH by (by rewrite ?length_alter). rewrite filter_cons.
  destruct (decide (bucket_of n kv = y)) as [<-|Hne].
  - rewrite list_lookup_alter_eq. destruct (bs !! _); simpl; [|done]. by rewrite <-app_assoc.
  - by rewrite list_lookup_alter_ne.
Qed.

Lemma fill_buckets_length kva bs : length (fill_buckets n kva bs) = length bs.
Proof. revert bs. induction kva as [|kv kva IH]; intros bs; simpl; [done|]. by rewrite IH, length_alter. Qed.

Lemma make_buckets_spec kva y :
  make_buckets n kva !! y = if decide (y < n)%nat then Some (filter (λ kv, bucket_of n kv = y) kva) else None.
Proof.
  unfold make_buckets. case_decide as Hy.
  - rewrite fill_buckets_spec by (by rewrite ?length_replicate). by rewrite lookup_replicate_2.
  - apply lookup_ge_None. rewrite fill_buckets_length, length_replicate. lia.
Qed.
End buckets.

(* ------------------------------------------------------------------ *)
(** ** The invariant *)

Section correctness.
Context (mapf : string → string → list KeyValue) (reducef : string → list string → string).
Context (input : string → option string).
Context (sort_kv sort_seq : list KeyValue → list KeyValue).
Context (fl : list string) (n : nat) (Hn : (0 < n)%nat).

Definition kva (x : nat) : list KeyValue :=
  match fl !! x with
  | Some f => match input f with Some text => mapf f text | None => [] end
  | None => []
  end.
Definition bucket (x y : nat) : list KeyValue := filter (λ kv, bucket_of n kv = y) (kva x).
(** what is read from the files of reduce task [y] *)
Definition share (y : nat) : list KeyValue := concat ((λ x, reread (bucket x y)) <$> seq 0 (length fl)).

(** what a reducer of bucket [h] may write *)
Definition is_output (h : nat) (ls : list line) : Prop :=
  ∃ all, all ≡ₚ share h ∧ ls = group reducef (sort_kv all).

(** the inputs can be read; sorting sorts; the decoder makes nothing of an
    output file (its lines do not start with a JSON object or [null]) *)
Hypothesis inputs_there : ∀ f, f ∈ fl → is_Some (input f).
Hypothesis sort_kv_sorts : ∀ l, sort_kv l ≡ₚ l ∧ StronglySorted key_le (sort_kv l).
Hypothesis outputs_ignored : ∀ h ls, (h < n)%nat → is_output h ls → decode_lines ls = [].

Implicit Types (d : gmap fname content) (x y h id : nat).

Definition map_done d x : Prop :=
  ∀ y, (y < n)%nat → bucket x y ≠ [] → d !! Inter x y = Some (Pairs (bucket x y)).
Definition all_mapped d : Prop := ∀ x, (x < length fl)%nat → map_done d x.
Definition reduce_done d h : Prop := is_Some (d !! Out h).

Definition dir_ok d : Prop := ∀ f c, d !! f = Some c →
  match f, c with
  | Inter x y, Pairs l => (x < length fl)%nat ∧ (y < n)%nat ∧ l = bucket x y
  | Out h, Lines ls => (h < n)%nat ∧ is_output h ls
  | _, _ => False
  end.

(** the files that matter stay *)
Definition dir_grows d d' : Prop :=
  (∀ x y c, d !! Inter x y = Some c → d' !! Inter x y = Some c) ∧ (∀ f, is_Some (d !! f) → is_Some (d' !! f)).

Definition coord_ok d (c : Coordinator) : Prop :=
  files c = fl ∧ nReduce c = n ∧ length (taskStates c) = (length fl + n)%nat
  ∧ (∀ x, (x < length fl)%nat → taskStates c !! x = Some taskStateDone → map_done d x)
  ∧ (∀ h, (h < n)%nat → taskStates c !! (length fl + h)%nat = Some taskStateDone → reduce_done d h)
  ∧ (state c ≠ phaseMap → ∀ x, (x < length fl)%nat → taskStates c !! x = Some taskStateDone)
  ∧ (state c = phaseFinished → ∀ h, (h < n)%nat → taskStates c !! (length fl + h)%nat = Some taskStateDone).

(** what a reducer still gets from a file *)
Definition contrib (h : nat) (f : fname) : list KeyValue :=
  match f with Inter x _ => reread (bucket x h) | Out _ => [] end.

Definition wpc_ok d (p : wpc) : Prop :=
  match p with
  | WMapWrite id y buckets =>
      (id < length fl)%nat ∧ buckets = make_buckets n (kva id)
      ∧ ∀ y', (y' < y)%nat → (y' < n)%nat → bucket id y' ≠ [] → d !! Inter id y' = Some (Pairs (bucket id y'))
  | WComplete id =>
      (id < length fl)%nat ∧ map_done d id ∨ ∃ h, id = (length fl + h)%nat ∧ (h < n)%nat ∧ reduce_done d h
  | WGlob id h => id = (length fl + h)%nat ∧ (h < n)%nat ∧ all_mapped d
  | WRead id h names all =>
      id = (length fl + h)%nat ∧ (h < n)%nat
      ∧ (∀ f, f ∈ names → is_Some (d !! f) ∧ matches h f = true)
      ∧ all ++ concat (contrib h <$> names) ≡ₚ share h
  | _ => True
  end.

Record inv (s : sys) : Prop := {
  inv_dir : dir_ok (dir s);
  inv_coord : coord_ok (dir s) (coord s);
  inv_timers : ∀ i, i ∈ timers s → (i < length fl + n)%nat;
  inv_workers : ∀ w p, workers s !! w = Some p → wpc_ok (dir s) p
}.

(** ** Growing directories *)

Lemma map_done_mono d d' x : dir_grows d d' → map_done d x → map_done d' x.
Proof. intros [Hg _] Hm y Hy Hb. apply Hg. by apply Hm. Qed.

Lemma coord_ok_mono d d' c : dir_grows d d' → coord_ok d c → coord_ok d' c.
Proof.
  intros Hg (Hf & Hr & Hl & Hm & Ho & Hp & Hfin). split_and!; try done.
  - intros x Hx Hd. eapply map_done_mono; eauto.
  - intros h Hh Hd. by apply Hg, Ho.
Qed.

Lemma wpc_ok_mono d d' p : dir_grows d d' → wpc_ok d p → wpc_ok d' p.
Proof.
  intros Hg. destruct p; simpl; try done.
  - intros (Hid & Hb & Hw). split_and!; [done|done|]. intros y' ???. apply Hg. eauto.
  - intros [[Hid Hm]|(h & Hid & Hh & Ho)]; [left|right; exists h].
    + split; [done|]. by eapply map_done_mono.
    + split_and!; [done|done|]. by apply Hg.
  - intros (Hid & Hh & Hm). split_and!; [done|done|]. intros x Hx. eapply map_done_mono; eauto.
  - intros (Hid & Hh & Hn' & Hp). split_and!; [done|done| |done]. intros f Hf.
    destruct (Hn' f Hf). split; [by apply Hg|done].
Qed.

Lemma dir_grows_refl d : dir_grows d d.
Proof. done. Qed.

Lemma dir_grows_inter d x y :
  dir_ok d → dir_grows d (<[Inter x y := Pairs (bucket x y)]> d).
Proof.
  intros Hok. split.
  - intros x' y' c Hc. destruct (decide (Inter x' y' = Inter x y)) as [E|Hne]; [|by rewrite lookup_insert_ne].
    injection E as -> ->. rewrite lookup_insert_eq. pose proof (Hok _ _ Hc) as Hk. destruct c; [|done].
    by destruct Hk as (_ & _ & ->).
  - intros f Hf. destruct (decide (f = Inter x y)) as [->|Hne]; [rewrite lookup_insert_eq; eauto|].
    by rewrite lookup_insert_ne.
Qed.

Lemma dir_grows_out d h ls : dir_grows d (<[Out h := Lines ls]> d).
Proof.
  split; [intros x y c Hc; by rewrite lookup_insert_ne|].
  intros f Hf. destruct (decide (f = Out h)) as [->|Hne]; [rewrite lookup_insert_eq; eauto|].
  by rewrite lookup_insert_ne.
Qed.

(** ** The coordinator's handlers *)

Lemma scan_tasks_spec m i sts b0 :
  (i + m ≤ length sts)%nat →
  ∃ found b, scan_tasks m i sts b0 = Ret (found, b)
  ∧ match found with
    | Some j => (i ≤ j < i + m)%nat ∧ sts !! j = Some taskStateUnassigned
    | None => b = true → ∀ j, (i ≤ j < i + m)%nat → sts !! j = Some taskStateDone
    end.
Proof.
  revert i b0. induction m as [|m IH]; intros i b0 Hl; simpl.
  { exists None, b0. split; [done|]. intros _ j ?. lia. }
  destruct (lookup_lt_is_Some_2 sts i) as [st Hst]; [lia|]. rewrite Hst.
  destruct (decide (st = taskStateUnassigned)) as [->|Hu].
  { eexists _, _. split; [done|]. simpl. split; [lia|done]. }
  destruct (IH (S i) (if decide (st ≠ taskStateDone) then false else b0)) as (found & b & E & Hf); [lia|].
  rewrite E. exists found, b. split; [done|]. destruct found as [j|].
  - destruct Hf. split; [lia|done].
  - intros -> j Hj. destruct (decide (j = i)) as [->|]; [|apply Hf; [done|lia]].
    destruct (decide (st = taskStateDone)) as [->|Hd]; [done|exfalso].
    assert (∀ m' i', snd (match scan_tasks m' i' sts false with Ret p => p | _ => (None, false) end) = false) as Hfalse.
    { clear. induction m' as [|m' IH]; intros i'; simpl; [done|]. destruct (sts !! i') as [st|]; [|done].
      assert ((if decide (st ≠ taskStateDone) then false else false) = false) as -> by (by case_decide).
      case_decide; [done|apply IH]. }
    specialize (Hfalse m (S i)). rewrite decide_True in E by done. by rewrite E in Hfalse.
Qed.

Lemma set_executing_ok d c i :
  coord_ok d c → taskStates c !! i = Some taskStateUnassigned → coord_ok d (set_task i taskStateExecuting c).
Proof.
  intros (Hf & Hr & Hl & Hm & Ho & Hp & Hfin) Hi.
  assert (∀ j, <[i:=taskStateExecuting]> (taskStates c) !! j = Some taskStateDone ↔
               taskStates c !! j = Some taskStateDone) as Hj.
  { intros j. rewrite list_lookup_insert_Some. split; [|intros; right; split; [congruence|done]].
    intros [(_ & ? & _)|[_ ?]]; done. }
  unfold coord_ok. simpl. rewrite length_insert. setoid_rewrite Hj. done.
Qed.

Lemma set_phase_reduce_ok d c :
  coord_ok d c → (∀ x, (x < length fl)%nat → taskStates c !! x = Some taskStateDone) →
  coord_ok d (set_phase phaseReduce c).
Proof. intros (Hf & Hr & Hl & Hm & Ho & Hp & Hfin) Hd. by split_and!. Qed.

Lemma set_phase_finished_ok d c :
  coord_ok d c → state c ≠ phaseMap →
  (∀ h, (h < n)%nat → taskStates c !! (length fl + h)%nat = Some taskStateDone) →
  coord_ok d (set_phase phaseFinished c).
Proof. intros (Hf & Hr & Hl & Hm & Ho & Hp & Hfin) Hs Hd. split_and!; try done. intros _. by apply Hp. Qed.

(** what a reply may ask for *)
Definition reply_ok d (r : GetTaskReply) : Prop :=
  match TaskTypeOf r with
  | MapTask => (TaskID r < length fl)%nat ∧ fl !! TaskID r = Some (FileName r) ∧ NReduce r = n
  | ReduceTask => TaskID r = (length fl + KeyHash r)%nat ∧ (KeyHash r < n)%nat ∧ all_mapped d
  | _ => True
  end.

Definition task_result_ok d (m : outcome (Coordinator * GetTaskReply * option nat)) : Prop :=
  ∃ c r t, m = Ret (c, r, t) ∧ coord_ok d c ∧ reply_ok d r ∧ ∀ i, t = Some i → (i < length fl + n)%nat.

Lemma GetTask_end_ok d c : coord_ok d c → task_result_ok d (Ret (GetTask_end c)).
Proof.
  intros Hc. eexists _, _, _. split; [done|]. split; [done|]. split; [|done]. unfold reply_ok. simpl. by case_decide.
Qed.

Lemma all_mapped_reduce d c : coord_ok d c → state c ≠ phaseMap → all_mapped d.
Proof. intros (Hf & Hr & Hl & Hm & Ho & Hp & Hfin) Hs x Hx. apply Hm; [done|by apply Hp]. Qed.

Lemma GetTask_reduce_ok d c : coord_ok d c → task_result_ok d (GetTask_reduce c).
Proof.
  intros Hc. unfold GetTask_reduce. case_decide as Hs; [|by apply GetTask_end_ok].
  pose proof Hc as (Hf & Hr & Hl & _). rewrite Hf, Hr.
  destruct (scan_tasks_spec n (length fl) (taskStates c) true) as (found & b & -> & Hfound); [lia|]. simpl.
  destruct found as [i|].
  - destruct Hfound as [Hi Hu]. eexists _, _, _. split; [done|]. split_and!.
    + by apply set_executing_ok.
    + unfold reply_ok; simpl. split_and!; [lia|lia|]. eapply all_mapped_reduce; [done|by rewrite Hs].
    + intros ? [= <-]. lia.
  - destruct b; [|by apply GetTask_end_ok]. apply GetTask_end_ok. apply set_phase_finished_ok; [done|by rewrite Hs|].
    intros h Hh. apply Hfound; [done|lia].
Qed.

Lemma GetTask_ok d c : coord_ok d c → task_result_ok d (GetTask c).
Proof.
  intros Hc. unfold GetTask. case_decide as Hs; [|by apply GetTask_reduce_ok].
  pose proof Hc as (Hf & Hr & Hl & _). rewrite Hf, Hr.
  destruct (scan_tasks_spec (length fl) 0 (taskStates c) true) as (found & b & -> & Hfound); [lia|]. simpl.
  destruct found as [i|].
  - destruct Hfound as [Hi Hu]. destruct (lookup_lt_is_Some_2 fl i) as [f Hfi]; [lia|]. rewrite Hfi.
    eexists _, _, _. split; [done|]. split_and!; [by apply set_executing_ok|unfold reply_ok; simpl; split_and!; [lia|done|done]|].
    intros ? [= <-]. lia.
  - destruct b; [|by apply GetTask_reduce_ok]. apply GetTask_reduce_ok, set_phase_reduce_ok; [done|].
    intros x Hx. apply Hfound; [done|lia].
Qed.

Lemma timer_ok d c i : coord_ok d c → (i < length fl + n)%nat → ∃ c', timer i c = Ret c' ∧ coord_ok d c'.
Proof.
  intros Hc Hi. pose proof Hc as (Hf & Hr & Hl & Hm & Ho & Hp & Hfin). unfold timer.
  destruct (lookup_lt_is_Some_2 (taskStates c) i) as [st Hst]; [lia|]. rewrite Hst.
  eexists. split; [done|]. case_decide as He; [|done]. subst st.
  assert (∀ j, <[i:=taskStateUnassigned]> (taskStates c) !! j = Some taskStateDone ↔
               taskStates c !! j = Some taskStateDone) as Hj.
  { intros j. rewrite list_lookup_insert_Some. split; [|intros; right; split; [congruence|done]].
    intros [(_ & ? & _)|[_ ?]]; done. }
  unfold coord_ok. simpl. rewrite length_insert. setoid_rewrite Hj. done.
Qed.

Lemma CompleteTask_ok d c id :
  coord_ok d c → wpc_ok d (WComplete id) → ∃ c', CompleteTask (Z.of_nat id) c = Ret c' ∧ coord_ok d c'.
Proof.
  intros Hc Hw. pose proof Hc as (Hf & Hr & Hl & Hm & Ho & Hp & Hfin). unfold CompleteTask, go_index.
  rewrite zlookup_nat.
  assert (id < length (taskStates c))%nat as Hid by (destruct Hw as [[? _]|(h & ? & ? & _)]; lia).
  destruct (lookup_lt_is_Some_2 _ _ Hid) as [st Hst]. rewrite Hst. simpl. rewrite Nat2Z.id.
  eexists. split; [done|]. case_decide as He; [|done]. subst st. unfold coord_ok; simpl. rewrite length_insert.
  assert (∀ j, taskStates c !! j = Some taskStateDone → <[id:=taskStateDone]> (taskStates c) !! j = Some taskStateDone) as Hj.
  { intros j Hd. apply list_lookup_insert_Some. right. split; [congruence|done]. }
  split_and!; try done; eauto.
  - intros x Hx [(-> & _ & _)|[_ Hd]]%list_lookup_insert_Some; [|eauto].
    destruct Hw as [[_ ?]|(h & ? & _)]; [done|lia].
  - intros h Hh [(Hi & _ & _)|[_ Hd]]%list_lookup_insert_Some; [|eauto].
    destruct Hw as [[? _]|(h' & ? & ? & ?)]; [lia|]. assert (h = h') as -> by lia. done.
Qed.

(** ** The workers *)

Lemma dispatch_ok d r : reply_ok d r → wpc_ok d (or_exited (dispatch mapf input r)).
Proof.
  unfold reply_ok, dispatch. destruct (TaskTypeOf r); try done.
  - intros (Hid & Hf & HN). unfold start_map.
    destruct (inputs_there (FileName r)) as [text Ht]; [by eapply list_elem_of_lookup_2|]. rewrite Ht.
    rewrite decide_False by lia. simpl. split_and!; [done| |lia].
    rewrite HN. unfold kva. by rewrite Hf, Ht.
Qed.

Lemma write_bucket_ok d id y buckets :
  dir_ok d → wpc_ok d (WMapWrite id y buckets) →
  let '(d', p) := write_bucket id y buckets d in dir_ok d' ∧ dir_grows d d' ∧ wpc_ok d' p.
Proof.
  intros Hd (Hid & -> & Hw). unfold write_bucket. rewrite make_buckets_spec by done.
  fold (bucket id y). destruct (decide (y < n)%nat) as [Hy|Hy].
  2: { split; [done|]. split; [apply dir_grows_refl|]. left. split; [done|]. intros y' Hy'. apply Hw; lia. }
  destruct (bucket id y) as [|kv b] eqn:Eb.
  { split; [done|]. split; [apply dir_grows_refl|]. split_and!; [done|done|]. intros y' Hlt Hy' Hne.
    destruct (decide (y' = y)) as [->|]; [congruence|]. apply Hw; [lia|done|done]. }
  rewrite <-Eb. split; [|split; [by apply dir_grows_inter|split_and!; [done|done|]]].
  - intros f c [[<- <-]|[_ Hc]]%lookup_insert_Some; [done|by apply Hd].
  - intros y' Hlt Hy' Hne. destruct (decide (y' = y)) as [->|]; [by rewrite lookup_insert_eq|].
    rewrite lookup_insert_ne by congruence. apply Hw; [lia|done|done].
Qed.

(** the files a reducer finds carry its whole share *)
Lemma glob_share d h names :
  dir_ok d → all_mapped d → (h < n)%nat → NoDup names →
  (∀ f, f ∈ names ↔ is_Some (d !! f) ∧ matches h f = true) →
  concat (contrib h <$> names) ≡ₚ share h.
Proof.
  intros Hd Hall Hh Hnd Hnames.
  set (xs := omap (λ f, match f with Inter x _ => Some x | Out _ => None end) names).
  assert (concat (contrib h <$> names) = concat ((λ x, reread (bucket x h)) <$> xs)) as ->.
  { subst xs. clear. induction names as [|[x y|y] names IH]; simpl; [done|by f_equal|done]. }
  assert (∀ x, x ∈ xs ↔ Inter x h ∈ names) as Hxs.
  { intros x. subst xs. rewrite list_elem_of_omap. split; [|intros Hx; by exists (Inter x h)].
    intros ([x' y|y] & Hin & [= ->]). apply Hnames in Hin as Hm. destruct Hm as [_ Hm]. simpl in Hm.
    apply bool_decide_eq_true in Hm. by subst. }
  assert (NoDup xs) as Hndx.
  { subst xs. clear Hxs. assert (∀ f, f ∈ names → matches h f = true) as Hm by (intros f Hf; by apply Hnames).
    clear -Hnd Hm. induction Hnd as [|f names Hf Hnd IH]; simpl; [constructor|].
    assert (NoDup (omap (λ f, match f with Inter x _ => Some x | Out _ => None end) names)) as IH'
      by (apply IH; intros; apply Hm; by right).
    destruct f as [x y|y]; [|done]. constructor; [|done]. rewrite list_elem_of_omap.
    intros ([x' y'|y'] & Hin & [= ->]). pose proof (Hm (Inter x y) ltac:(by left)) as H1.
    pose proof (Hm (Inter x y') ltac:(by right)) as H2. simpl in H1, H2.
    apply bool_decide_eq_true in H1, H2. subst. done. }
  unfold share.
  assert (seq 0 (length fl) ≡ₚ xs ++ filter (λ x, x ∉ xs) (seq 0 (length fl))) as Hsplit.
  { apply NoDup_Permutation.
    - apply NoDup_seq.
    - apply NoDup_app. split_and!; [done| |apply NoDup_filter, NoDup_seq].
      intros x Hx [? _]%list_elem_of_filter. done.
    - intros x. rewrite elem_of_app, list_elem_of_filter. destruct (decide (x ∈ xs)) as [Hx|Hx]; [|tauto].
      split; [by left|]. intros _. apply elem_of_seq. apply Hxs, Hnames in Hx as ((c & Hc) & _).
      pose proof (Hd _ _ Hc) as Hk. destruct c; [|done]. destruct Hk. lia. }
  rewrite Hsplit, fmap_app, concat_app. symmetry. rewrite <-(app_nil_r (concat ((λ x, reread (bucket x h)) <$> xs))) at 2.
  apply Permutation_app_head. 
  assert (∀ x, x ∈ filter (λ x, x ∉ xs) (seq 0 (length fl)) → bucket x h = []) as Hz.
  { intros x [Hx Hs]%list_elem_of_filter. apply elem_of_seq in Hs.
    destruct (decide (bucket x h = [])) as [|Hne]; [done|]. exfalso. apply Hx, Hxs, Hnames.
    split; [|simpl; by apply bool_decide_eq_true]. rewrite (Hall x ltac:(lia) h Hh Hne). eauto. }
  clear Hsplit. induction (filter (λ x, x ∉ xs) (seq 0 (length fl))) as [|x l IH]; simpl; [done|].
  rewrite Hz by (by left). apply IH. intros; apply Hz. by right.
Qed.

Lemma read_file_ok d id h f names all :
  dir_ok d → wpc_ok d (WRead id h (f :: names) all) → wpc_ok d (read_file id h f names all d).
Proof.
  intros Hd (Hid & Hh & Hn' & Hp). destruct (Hn' f) as [[c Hc] Hm]; [by left|]. unfold read_file. rewrite Hc.
  pose proof (Hd _ _ Hc) as Hk. simpl in Hp.
  assert (decode_file (content_text c) = contrib h f → wpc_ok d (WRead id h names (all ++ decode_file (content_text c)))) as Hgo.
  { intros ->. split_and!; [done|done| |].
    - intros f' Hf'. apply Hn'. by right.
    - by rewrite <-app_assoc. }
  destruct f as [x y|y], c as [l|ls]; try done.
  - apply Hgo. destruct Hk as (_ & _ & ->). simpl in Hm |- *. apply bool_decide_eq_true in Hm. by subst.
  - apply Hgo. simpl. destruct Hk as [Hy Ho]. by apply (outputs_ignored y).
Qed.

Lemma write_output_ok d id h all :
  dir_ok d → wpc_ok d (WRead id h [] all) →
  let '(d', p) := write_output reducef sort_kv id h all d in dir_ok d' ∧ dir_grows d d' ∧ wpc_ok d' p.
Proof.
  intros Hd (Hid & Hh & _ & Hp). simpl in Hp. rewrite app_nil_r in Hp. unfold write_output.
  split; [|split; [apply dir_grows_out|]].
  - intros f c [[<- <-]|[_ Hc]]%lookup_insert_Some; [|by apply Hd]. split; [done|]. by exists all.
  - right. exists h. split_and!; [done|done|]. unfold reduce_done. rewrite lookup_insert_eq. eauto.
Qed.

(** ** Every step *)

Lemma inv_set_worker s w p : inv s → wpc_ok (dir s) p → inv (set_worker w p s).
Proof.
  intros [Hd Hc Ht Hw] Hp. split; try done. simpl. intros w' q [(_ & <- & _)|[_ Hq]]%list_lookup_insert_Some; eauto.
Qed.

Lemma inv_set_dir s d : inv s → dir_ok d → dir_grows (dir s) d → inv (set_dir d s).
Proof.
  intros [Hd Hc Ht Hw] Hd' Hg. split; try done; simpl.
  - by eapply coord_ok_mono.
  - intros w p Hp. eapply wpc_ok_mono; eauto.
Qed.

Lemma inv_set_coord s c : inv s → coord_ok (dir s) c → inv (set_coord c s).
Proof. intros [Hd Hc Ht Hw] Hc'. by split. Qed.

Lemma inv_add_timer s t : inv s → (∀ i, t = Some i → (i < length fl + n)%nat) → inv (add_timer t s).
Proof.
  intros [Hd Hc Ht Hw] Hi. split; try done. simpl. intros i [?|Hin]%elem_of_app; [auto|].
  destruct t; simpl in Hin; [|by apply not_elem_of_nil in Hin]. apply list_elem_of_singleton in Hin as ->. auto.
Qed.

Lemma mr_step_inv s s' : inv s → step mapf reducef input sort_kv s s' → inv s'.
Proof.
  intros Hinv Hst. pose proof Hinv as [Hd Hc Ht Hw].
  assert (∀ c r t, GetTask (coord s) = Ret (c, r, t) →
    inv (add_timer t (set_coord c s)) ∧ reply_ok (dir s) r) as Hget.
  { intros c r t E. destruct (GetTask_ok _ _ Hc) as (c' & r' & t' & E' & Hc' & Hr & Ht').
    rewrite E in E'. injection E' as <- <- <-. split; [|done]. apply inv_add_timer; [|done]. by apply inv_set_coord. }
  destruct Hst as [w c r t Hp E|w Hp|w c r t Hp E|w id y buckets Hp|w id h names Hp Hnd Hnames|w id h f names all Hp
    |w id h all Hp|w id c Hp E|w id Hp|t i c Hi E|].
  - destruct (Hget c r t E) as [Hi Hr]. apply inv_set_worker; [done|]. by apply dispatch_ok.
  - by apply inv_set_worker.
  - destruct (Hget c r t E) as [Hi Hr]. by apply inv_set_worker.
  - pose proof (write_bucket_ok (dir s) id y buckets Hd (Hw _ _ Hp)) as Hb.
    destruct (write_bucket id y buckets (dir s)) as [d' p]. destruct Hb as (Hd' & Hg & Hp').
    apply inv_set_worker; [by apply inv_set_dir|done].
  - pose proof (Hw _ _ Hp) as (Hid & Hh & Hall). apply inv_set_worker; [done|]. split_and!; [done|done| |].
    + intros f Hf. by apply Hnames.
    + simpl. by eapply glob_share.
  - apply inv_set_worker; [done|]. apply read_file_ok; [done|]. by eapply Hw.
  - pose proof (write_output_ok (dir s) id h all Hd (Hw _ _ Hp)) as Hb.
    destruct (write_output reducef sort_kv id h all (dir s)) as [d' p]. destruct Hb as (Hd' & Hg & Hp').
    apply inv_set_worker; [by apply inv_set_dir|done].
  - destruct (CompleteTask_ok _ _ _ Hc (Hw _ _ Hp)) as (c' & E' & Hc'). rewrite E in E'. injection E' as <-.
    apply inv_set_worker; [by apply inv_set_coord|done].
  - by apply inv_set_worker.
  - destruct (timer_ok _ _ _ Hc (Ht i ltac:(by eapply list_elem_of_lookup_2))) as (c' & E' & Hc').
    rewrite E in E'. injection E' as <-. split; try done. simpl. intros j Hj. apply Ht.
    by eapply list_elem_of_delete_inv.
  - split; try done. simpl. intros w p [Hp|[_ Hp]]%lookup_app_Some; [by eapply Hw|].
    by apply list_lookup_singleton_Some in Hp as [_ <-].
Qed.

Lemma mr_init_inv : inv (init fl n).
Proof.
  assert (∀ i, replicate (length fl + n) taskStateUnassigned !! i ≠ Some taskStateDone) as Hnd.
  { intros i Hi. by apply lookup_replicate in Hi as [? _]. }
  split; [done| | |done].
  - unfold coord_ok. simpl. rewrite length_replicate. split_and!; try done.
    + intros x _ Hx. by apply Hnd in Hx.
    + intros h _ Hx. by apply Hnd in Hx.
  - intros i Hi. by apply not_elem_of_nil in Hi.
Qed.

Lemma mr_run_inv s : rtc (step mapf reducef input sort_kv) (init fl n) s → inv s.
Proof.
  intros Hr. apply (invariant_reachable (λ s, s = init fl n) (step mapf reducef input sort_kv) inv).
  - intros s0 ->. apply mr_init_inv.
  - intros. by eapply mr_step_inv.
  - by exists (init fl n).
Qed.

(** ** The output files against the sequential program *)

Definition all_pairs : list KeyValue := concat (kva <$> seq 0 (length fl)).
Definition key_bucket (k : string) : nat := Z.to_nat (ihash k `mod` Z.of_nat n).

Lemma all_pairs_files :
  all_pairs = concat ((λ f, match input f with Some text => mapf f text | None => [] end) <$> fl).
Proof.
  clear -fl. unfold all_pairs. f_equal. apply list_eq. intros i. rewrite !list_lookup_fmap. unfold kva.
  destruct (decide (i < length fl)%nat) as [Hi|Hi].
  - rewrite lookup_seq_lt by done. simpl. destruct (lookup_lt_is_Some_2 fl i Hi) as [f ->]. done.
  - rewrite lookup_seq_ge by lia. rewrite (lookup_ge_None_2 fl) by lia. done.
Qed.

Lemma intermediate_all : intermediate mapf input fl = Some all_pairs.
Proof.
  rewrite all_pairs_files. clear -inputs_there. induction fl as [|f fs IH]; simpl; [done|].
  destruct (inputs_there f) as [text ->]; [by left|]. simpl. rewrite IH; [done|]. intros; apply inputs_there. by right.
Qed.

Hypothesis pairs_utf8 : Forall utf8_kv all_pairs.

Lemma share_filter h : share h = filter (λ kv, bucket_of n kv = h) all_pairs.
Proof.
  assert (share h = concat ((λ x, bucket x h) <$> seq 0 (length fl))) as ->.
  { unfold share. f_equal. apply list_fmap_ext. intros i x Hx%list_elem_of_lookup_2. apply reread_utf8.
    unfold bucket. apply Forall_forall. intros kv [_ Hkv]%list_elem_of_filter.
    rewrite Forall_forall in pairs_utf8. apply pairs_utf8. unfold all_pairs. apply list_elem_of_In, in_concat.
    exists (kva x). split; [apply list_elem_of_In, list_elem_of_fmap; by exists x|by apply list_elem_of_In]. }
  unfold all_pairs, bucket. induction (seq 0 (length fl)) as [|x l IH]; simpl; [done|].
  rewrite filter_app. by f_equal.
Qed.

Lemma has_key_share k h : has_key k (share h) ↔ has_key k all_pairs ∧ key_bucket k = h.
Proof.
  rewrite share_filter. unfold has_key, key_bucket. split.
  - intros (kv & [Hb Hin]%list_elem_of_filter & <-). split; [eauto|done].
  - intros ((kv & Hin & <-) & Hb). exists kv. rewrite list_elem_of_filter. done.
Qed.

Lemma vals_share k h : key_bucket k = h → vals k (share h) = vals k all_pairs.
Proof.
  intros Hb. rewrite share_filter. unfold vals. f_equal. rewrite list_filter_filter. apply filter_ext_in.
  intros kv _. split; [tauto|]. intros Hk. split; [done|]. unfold bucket_of. by rewrite Hk.
Qed.

Hypothesis sort_seq_sorts : ∀ l, sort_seq l ≡ₚ l ∧ StronglySorted key_le (sort_seq l).
Hypothesis reducef_perm : ∀ k vs vs', vs ≡ₚ vs' → reducef k vs = reducef k vs'.

Definition result_line (k : string) : line := (k, reducef k (vals k all_pairs)).

Lemma output_lines h ls :
  is_output h ls →
  ls = result_line <$> (fst <$> ls) ∧ NoDup (fst <$> ls)
  ∧ ∀ k, k ∈ fst <$> ls ↔ has_key k all_pairs ∧ key_bucket k = h.
Proof.
  intros (all & Hp & ->). destruct (sort_kv_sorts all) as [Hsp Hss].
  destruct (group_canonical reducef reducef_perm (sort_kv all) (share h) Hss) as (ks & E & Hnd & Hks);
    [by rewrite Hsp|].
  assert (fst <$> group reducef (sort_kv all) = ks) as Efst.
  { rewrite E, <-list_fmap_compose. apply list_fmap_id. }
  rewrite Efst. setoid_rewrite Hks. split_and!; [|done|intros k; apply has_key_share].
  rewrite E. apply list_fmap_ext. intros i k Hk. apply list_elem_of_lookup_2, Hks, has_key_share in Hk as [_ Hb].
  unfold result_line. by rewrite (vals_share k h).
Qed.

Lemma outputs_permute (outs : nat → list line) ls :
  (∀ h, (h < n)%nat → is_output h (outs h)) → mrsequential mapf reducef input sort_seq fl = Some ls →
  concat (outs <$> seq 0 n) ≡ₚ ls.
Proof.
  intros Houts Hseq. unfold mrsequential in Hseq. rewrite intermediate_all in Hseq. simpl in Hseq. injection Hseq as <-.
  destruct (sort_seq_sorts all_pairs) as [Hsp Hss].
  destruct (group_canonical reducef reducef_perm (sort_seq all_pairs) all_pairs Hss Hsp) as (ks & -> & Hnd & Hks).
  set (K := λ h, fst <$> outs h).
  assert (concat (outs <$> seq 0 n) = result_line <$> concat (K <$> seq 0 n)) as ->.
  { assert (∀ h, h ∈ seq 0 n → outs h = result_line <$> K h) as He.
    { intros h Hh%elem_of_seq. apply (output_lines h), Houts. lia. }
    clear -He. induction (seq 0 n) as [|h hs IH]; simpl; [done|]. rewrite fmap_app.
    rewrite <-He by (by left). f_equal. apply IH. intros; apply He. by right. }
  apply (fmap_Permutation result_line).
  assert (∀ h, h ∈ seq 0 n → NoDup (K h) ∧ ∀ k, k ∈ K h ↔ has_key k all_pairs ∧ key_bucket k = h) as HK.
  { intros h Hh%elem_of_seq. apply (output_lines h), Houts. lia. }
  assert (∀ hs, (∀ h, h ∈ hs → h ∈ seq 0 n) → ∀ k, k ∈ concat (K <$> hs) ↔ has_key k all_pairs ∧ key_bucket k ∈ hs) as Hin.
  { induction hs as [|h hs IH]; intros Hsub k; simpl; [split; [by intros ?%not_elem_of_nil|by intros [_ ?%not_elem_of_nil]]|].
    rewrite elem_of_app, elem_of_cons, IH by (intros; apply Hsub; by right).
    destruct (HK h) as [_ ->]; [apply Hsub; by left|]. tauto. }
  apply NoDup_Permutation; [|done|].
  - assert (∀ hs, NoDup hs → (∀ h, h ∈ hs → h ∈ seq 0 n) → NoDup (concat (K <$> hs))) as Hgen; [|apply Hgen; [apply NoDup_seq|done]].
    induction hs as [|h hs IH]; intros Hndh Hsub; simpl; [constructor|].
    apply NoDup_cons in Hndh as [Hh Hndh].
    apply NoDup_app. split_and!; [apply HK, Hsub; by left| |apply IH; [done|intros; apply Hsub; by right]].
    intros k Hk Hk'. apply HK in Hk as [_ Hb]; [|apply Hsub; by left].
    apply Hin in Hk' as [_ Hb']; [|intros; apply Hsub; by right]. by rewrite Hb in Hb'.
  - intros k. rewrite Hin by done. rewrite Hks. split; [tauto|]. intros Hk. split; [done|]. apply elem_of_seq.
    unfold key_bucket. assert (0 ≤ ihash k `mod` Z.of_nat n < Z.of_nat n); [apply Z.mod_pos_bound; lia|lia].
Qed.
(** ** The job can always be completed *)

Abbreviation mstep := (step mapf reducef input sort_kv).

(** a task being executed has a timer running *)
Definition timed (s : sys) : Prop := ∀ i, taskStates (coord s) !! i = Some taskStateExecuting → i ∈ timers s.
Definition none_executing (c : Coordinator) : Prop := ∀ i, taskStates c !! i ≠ Some taskStateExecuting.

Lemma scan_tasks_idle m i sts b0 b :
  (∀ j, sts !! j ≠ Some taskStateExecuting) → scan_tasks m i sts b0 = Ret (None, b) → b = b0.
Proof.
  intros Hne. revert i b0. induction m as [|m IH]; intros i b0 E; simpl in E; [by injection E as ->|].
  destruct (sts !! i) as [st|] eqn:Est; [|done]. destruct (decide (st = taskStateUnassigned)); [done|].
  apply IH in E. destruct (decide (st = taskStateDone)) as [->|]; [by rewrite decide_False in E by tauto|].
  exfalso. apply (Hne i). rewrite Est. by destruct st.
Qed.

(** the handler assigns an unassigned task or, if there is nothing to assign,
    leaves the task states alone *)
Definition assigns (c c' : Coordinator) (r : GetTaskReply) (t : option nat) : Prop :=
  match t with
  | Some i => taskStates c !! i = Some taskStateUnassigned ∧ taskStates c' = <[i := taskStateExecuting]> (taskStates c)
              ∧ TaskID r = i ∧ (TaskTypeOf r = MapTask ∨ TaskTypeOf r = ReduceTask)
  | None => taskStates c' = taskStates c ∧ (none_executing c → state c' = phaseFinished)
  end.

Lemma GetTask_reduce_assigns d c c' r t :
  coord_ok d c → state c ≠ phaseMap → GetTask_reduce c = Ret (c', r, t) → assigns c c' r t.
Proof.
  intros (Hf & Hr & Hl & _) Hs. unfold GetTask_reduce. case_decide as Hp.
  - rewrite Hf, Hr. destruct (scan_tasks_spec n (length fl) (taskStates c) true) as (found & b & E & Hfound); [lia|].
    rewrite E. simpl. destruct found as [i|]; intros [= <- <- <-]; simpl.
    + destruct Hfound. split_and!; [done|done|done|by right].
    + split; [by destruct b|]. intros Hne. by apply scan_tasks_idle in E as ->.
  - intros [= <- <- <-]. split; [done|]. intros _. by destruct (state c).
Qed.

Lemma GetTask_assigns d c c' r t : coord_ok d c → GetTask c = Ret (c', r, t) → assigns c c' r t.
Proof.
  intros Hc. unfold GetTask. case_decide as Hs; [|by apply (GetTask_reduce_assigns d)].
  pose proof Hc as (Hf & Hr & Hl & _). rewrite Hf, Hr.
  destruct (scan_tasks_spec (length fl) 0 (taskStates c) true) as (found & b & E & Hfound); [lia|].
  rewrite E. simpl. destruct found as [i|].
  - destruct Hfound as [Hi Hu]. destruct (fl !! i); [|done]. intros [= <- <- <-]. simpl.
    split_and!; [done|done|done|by left].
  - destruct b.
    + intros E'. apply (GetTask_reduce_assigns d) in E'; [done| |done].
      apply set_phase_reduce_ok; [done|]. intros x Hx. apply Hfound; [done|lia].
    + unfold GetTask_reduce. rewrite decide_False by (by rewrite Hs). intros [= <- <- <-]. split; [done|].
      intros Hne. by apply scan_tasks_idle in E.
Qed.

Lemma timed_frame s s' :
  taskStates (coord s') = taskStates (coord s) → timers s' = timers s → timed s → timed s'.
Proof. unfold timed. by intros -> ->. Qed.

Lemma step_timed s s' : inv s → timed s → mstep s s' → timed s'.
Proof.
  intros Hinv Ht Hst. pose proof (inv_coord _ Hinv) as Hc.
  assert (∀ c r t w p, GetTask (coord s) = Ret (c, r, t) → timed (set_worker w p (add_timer t (set_coord c s)))) as Hget.
  { intros c r t w p E i Hi. apply (GetTask_assigns (dir s)) in E; [|done]. simpl in *. apply elem_of_app.
    destruct t as [j|]; simpl in *.
    - destruct E as (_ & Es & _). rewrite Es in Hi. apply list_lookup_insert_Some in Hi as [(-> & _)|[_ Hi]].
      + right. by left.
      + left. by apply Ht.
    - destruct E as [Es _]. rewrite Es in Hi. left. by apply Ht. }
  destruct Hst as [w c r t Hp E|w Hp|w c r t Hp E|w id y buckets Hp|w id h names Hp Hnd Hnames|w id h f names all Hp
    |w id h all Hp|w id c Hp E|w id Hp|t i c Hi E|];
    try (by eapply Hget); try (by apply (timed_frame s)).
  - intros i Hi. simpl in *. apply Ht. unfold CompleteTask in E.
    apply outcome_bind_ret in E as (st & _ & E). injection E as <-. case_decide; [|done].
    simpl in Hi. apply list_lookup_insert_Some in Hi as [(_ & ? & _)|[_ Hi]]; done.
  - intros j Hj. simpl in *. unfold timer in E. destruct (taskStates (coord s) !! i) as [st|] eqn:Est; [|done].
    injection E as <-. apply delete_Permutation in Hi.
    assert (j ≠ i ∧ taskStates (coord s) !! j = Some taskStateExecuting) as [Hne Hj'].
    { case_decide as He; simpl in Hj.
      - apply list_lookup_insert_Some in Hj as [(_ & ? & _)|[? Hj]]; done.
      - split; [|done]. intros ->. congruence. }
    apply Ht in Hj'. rewrite Hi in Hj'. by apply elem_of_cons in Hj' as [?|?].
Qed.

Lemma rtc_inv_timed s s' : inv s → timed s → rtc mstep s s' → inv s' ∧ timed s'.
Proof.
  intros Hi Ht Hr. induction Hr as [s|s1 s2 s3 Hst _ IH]; [done|]. apply IH; [by eapply mr_step_inv|by eapply step_timed].
Qed.

(** all timers fire *)
Lemma timers_fire s :
  inv s → timed s → ∃ s', rtc mstep s s' ∧ timers s' = [] ∧ workers s' = workers s.
Proof.
  remember (length (timers s)) as m eqn:Em. revert s Em.
  induction m as [|m IH]; intros s Em Hinv Ht.
  { exists s. split_and!; [done| |done]. by apply nil_length_inv. }
  destruct (timers s) as [|i ts] eqn:Ets; [done|]. simpl in Em.
  destruct (timer_ok (dir s) (coord s) i (inv_coord _ Hinv)) as (c & E & _).
  { apply (inv_timers _ Hinv). rewrite Ets. by left. }
  assert (timers s !! 0%nat = Some i) as H0 by by rewrite Ets.
  pose proof (step_timer mapf reducef input sort_kv s 0 i c H0 E) as Hst.
  rewrite Ets in Hst. simpl in Hst.
  match type of Hst with mstep _ ?s1 => destruct (IH s1) as (s' & Hr & Hts & Hws) end.
  - simpl. lia.
  - by eapply mr_step_inv.
  - by eapply step_timed.
  - exists s'. split_and!; [by eapply rtc_l|done|done].
Qed.

(** a worker left alone finishes the map task it has started *)
Lemma map_runs s w id y buckets :
  inv s → workers s !! w = Some (WMapWrite id y buckets) →
  ∃ s', rtc mstep s s' ∧ coord s' = coord s ∧ inv s' ∧ workers s' !! w = Some (WComplete id).
Proof.
  remember (n - y)%nat as m eqn:Em. revert s y Em. induction m as [m IH] using lt_wf_ind; intros s y -> Hinv Hw.
  pose proof (step_map_write mapf reducef input sort_kv s w id y buckets Hw) as Hst.
  pose proof (inv_workers _ Hinv _ _ Hw) as (_ & Hb & _).
  pose proof (mr_step_inv _ _ Hinv Hst) as Hinv'. pose proof (lookup_lt_Some _ _ _ Hw) as Hlt.
  match type of Hst with mstep _ ?s1 => set (s1' := s1) in * end.
  assert (coord s1' = coord s) as Hco by done.
  assert (workers s1' !! w = Some (snd (write_bucket id y buckets (dir s)))) as Hw' by (by apply list_lookup_insert_eq).
  unfold write_bucket in Hw'. rewrite Hb, make_buckets_spec in Hw' by done.
  destruct (decide (y < n)%nat) as [Hy|Hy].
  - rewrite <-Hb in Hw'.
    assert (workers s1' !! w = Some (WMapWrite id (S y) buckets)) as Hw2.
    { rewrite Hw'. by destruct (filter _ _). }
    destruct (IH (n - S y)%nat) with (s := s1') (y := S y) as (s2 & Hr & Hc2 & Hi2 & Hw3); [lia|done|done|done|].
    exists s2. split_and!; [by eapply rtc_l|congruence|done|done].
  - exists s1'. split_and!; [by apply rtc_once|done|done|done].
Qed.

(** likewise for a reduce task *)
Lemma reads_run s w id h names all :
  inv s → workers s !! w = Some (WRead id h names all) →
  ∃ s', rtc mstep s s' ∧ coord s' = coord s ∧ inv s' ∧ workers s' !! w = Some (WComplete id).
Proof.
  revert s all. induction names as [|f names IH]; intros s all Hinv Hw; pose proof (lookup_lt_Some _ _ _ Hw) as Hlt.
  - pose proof (step_write mapf reducef input sort_kv s w id h all Hw) as Hst.
    pose proof (mr_step_inv _ _ Hinv Hst) as Hinv'. eexists. split_and!; [by apply rtc_once|done|done|].
    by apply list_lookup_insert_eq.
  - pose proof (step_read mapf reducef input sort_kv s w id h f names all Hw) as Hst.
    pose proof (mr_step_inv _ _ Hinv Hst) as Hinv'.
    destruct (inv_workers _ Hinv _ _ Hw) as (_ & _ & Hn' & _). destruct (Hn' f) as [[c Hc] _]; [by left|].
    match type of Hst with mstep _ ?s1 => set (s1' := s1) in * end.
    assert (∃ all', workers s1' !! w = Some (WRead id h names all')) as [all' Hw'].
    { assert (workers s1' !! w = Some (read_file id h f names all (dir s))) as -> by (by apply list_lookup_insert_eq).
      unfold read_file. rewrite Hc. eauto. }
    destruct (IH s1' all' Hinv' Hw') as (s2 & Hr & Hc2 & Hi2 & Hw2).
    exists s2. split_and!; [by eapply rtc_l|done|done|done].
Qed.

Lemma reduce_runs s w id h :
  inv s → workers s !! w = Some (WGlob id h) →
  ∃ s', rtc mstep s s' ∧ coord s' = coord s ∧ inv s' ∧ workers s' !! w = Some (WComplete id).
Proof.
  intros Hinv Hw. pose proof (lookup_lt_Some _ _ _ Hw) as Hlt.
  set (names := filter (λ f, matches h f = true) (elements (dom (dir s)))).
  pose proof (step_glob mapf reducef input sort_kv s w id h names Hw) as Hst.
  assert (mstep s (set_worker w (WRead id h names []) s)) as Hst'.
  { apply Hst; [apply NoDup_filter, NoDup_elements|]. intros f. subst names.
    rewrite list_elem_of_filter, elem_of_elements, elem_of_dom. tauto. }
  destruct (reads_run (set_worker w (WRead id h names []) s) w id h names []) as (s2 & Hr & Hc2 & Hi2 & Hw2).
  - by eapply mr_step_inv.
  - by apply list_lookup_insert_eq.
  - exists s2. split_and!; [by eapply rtc_l|done|done|done].
Qed.

Definition todo (c : Coordinator) : nat := length (filter (λ st, st = taskStateUnassigned) (taskStates c)).

Lemma todo_done sts i :
  sts !! i = Some taskStateUnassigned →
  S (length (filter (λ st, st = taskStateUnassigned) (<[i := taskStateDone]> sts)))
  = length (filter (λ st, st = taskStateUnassigned) sts).
Proof.
  intros Hi. rewrite <-(take_drop_middle sts i _ Hi) at 2. pose proof (lookup_lt_Some _ _ _ Hi).
  rewrite insert_take_drop by done. rewrite !filter_app, !filter_cons, !length_app.
  rewrite decide_False by done. rewrite decide_True by done. simpl. lia.
Qed.

Lemma worker_finishes s w :
  inv s → none_executing (coord s) → workers s !! w = Some WIdle →
  ∃ s', rtc mstep s s' ∧ Done (coord s') = true.
Proof.
  remember (todo (coord s)) as m eqn:Em. revert s Em. induction m as [m IH] using lt_wf_ind; intros s -> Hinv Hne Hw.
  destruct (GetTask_ok _ _ (inv_coord _ Hinv)) as (c & r & t & E & Hc & Hr & Ht).
  pose proof (GetTask_assigns _ _ _ _ _ (inv_coord _ Hinv) E) as Ha.
  pose proof (step_get_task mapf reducef input sort_kv s w c r t Hw E) as Hst.
  pose proof (mr_step_inv _ _ Hinv Hst) as Hinv1. pose proof (lookup_lt_Some _ _ _ Hw) as Hlt.
  match type of Hst with mstep _ ?s1 => set (s1' := s1) in * end.
  destruct t as [i|]; simpl in Ha.
  2: { destruct Ha as [_ Hfin]. exists s1'. split; [by apply rtc_once|]. apply bool_decide_eq_true. by apply Hfin. }
  destruct Ha as (Hu & Es & Hid & Hty).
  assert (workers s1' !! w = Some (or_exited (dispatch mapf input r))) as Hw1 by (by apply list_lookup_insert_eq).
  assert (∃ s2, rtc mstep s1' s2 ∧ coord s2 = c ∧ inv s2 ∧ workers s2 !! w = Some (WComplete i))
    as (s2 & Hr2 & Hc2 & Hinv2 & Hw2).
  { unfold dispatch in Hw1. unfold reply_ok in Hr. rewrite <-Hid. destruct Hty as [Hty|Hty]; rewrite Hty in Hw1, Hr.
    - destruct Hr as (Hlt' & Hf & HN). unfold start_map in Hw1.
      destruct (inputs_there (FileName r)) as [text Htx]; [by eapply list_elem_of_lookup_2|]. rewrite Htx in Hw1.
      rewrite decide_False in Hw1 by lia. by destruct (map_runs s1' w _ _ _ Hinv1 Hw1) as (s2 & ? & ? & ? & ?); exists s2.
    - by destruct (reduce_runs s1' w _ _ Hinv1 Hw1) as (s2 & ? & ? & ? & ?); exists s2. }
  destruct (CompleteTask_ok _ _ _ (inv_coord _ Hinv2) (inv_workers _ Hinv2 _ _ Hw2)) as (c3 & E3 & Hc3).
  pose proof (step_complete mapf reducef input sort_kv s2 w i c3 Hw2 E3) as Hst3.
  assert (taskStates c3 = <[i := taskStateDone]> (taskStates (coord s))) as Es3.
  { rewrite Hc2 in E3. unfold CompleteTask, go_index in E3. rewrite zlookup_nat, Es in E3.
    rewrite list_lookup_insert_eq in E3 by (by eapply lookup_lt_Some). simpl in E3. rewrite Nat2Z.id in E3.
    injection E3 as <-. simpl. by rewrite Es, list_insert_insert_eq. }
  destruct (IH (todo c3)) with (s := set_worker w WIdle (set_coord c3 s2)) as (s4 & Hr4 & Hd4).
  - unfold todo. rewrite Es3. pose proof (todo_done _ _ Hu). lia.
  - done.
  - by eapply mr_step_inv.
  - intros j Hj. simpl in Hj. rewrite Es3 in Hj. apply list_lookup_insert_Some in Hj as [(_ & ? & _)|[_ Hj]]; [done|].
    by apply (Hne j).
  - apply list_lookup_insert_eq. simpl. by apply lookup_lt_Some in Hw2.
  - exists s4. split; [|done]. eapply rtc_l; [exact Hst|]. etrans; [exact Hr2|].
    eapply rtc_l; [exact Hst3|exact Hr4].
Qed.

Lemma init_timed : timed (init fl n).
Proof. intros i Hi. simpl in Hi. by apply lookup_replicate in Hi as [? _]. Qed.

Lemma run_completes s : rtc mstep (init fl n) s → ∃ s', rtc mstep s s' ∧ Done (coord s') = true.
Proof.
  intros Hr. destruct (rtc_inv_timed _ _ mr_init_inv init_timed Hr) as [Hinv Ht].
  destruct (timers_fire s Hinv Ht) as (s1 & Hr1 & Hts & _).
  destruct (rtc_inv_timed _ _ Hinv Ht Hr1) as [Hinv1 Ht1].
  pose proof (step_worker_starts mapf reducef input sort_kv s1) as Hst.
  destruct (worker_finishes {| coord := coord s1; dir := dir s1; timers := timers s1; workers := workers s1 ++ [WIdle] |}
    (length (workers s1))) as (s2 & Hr2 & Hd).
  - by eapply mr_step_inv.
  - intros i Hi. simpl in Hi. apply Ht1 in Hi. rewrite Hts in Hi. by apply not_elem_of_nil in Hi.
  - simpl. rewrite lookup_app_r, Nat.sub_diag by lia. done.
  - exists s2. split; [|done]. etrans; [exact Hr1|]. eapply rtc_l; [exact Hst|exact Hr2].
Qed.
End correctness.

(** the lines of all output files *)
Definition results (n : nat) (s : sys) : list line :=
  concat ((λ h, match dir s !! Out h with Some (Lines ls) => ls | _ => [] end) <$> seq 0 n).

(** when the job is done, every output file is there and is what a worker
    writes *)
Lemma job_outputs mapf reducef input sort_kv fl n s
    (Hn : (0 < n)%nat)
    (Hin : ∀ f, f ∈ fl → is_Some (input f))
    (Hdec : ∀ h ls, (h < n)%nat → is_output mapf reducef input sort_kv fl n h ls → decode_lines ls = []) :
  rtc (step mapf reducef input sort_kv) (init fl n) s → Done (coord s) = true →
  ∀ h, (h < n)%nat → ∃ ls, dir s !! Out h = Some (Lines ls)
            ∧ is_output mapf reducef input sort_kv fl n h ls.
Proof.
  intros Hr Hdone h Hh. apply bool_decide_eq_true in Hdone.
  destruct (mr_run_inv mapf reducef input sort_kv fl n Hn Hin Hdec s Hr) as [Hd Hc _ _].
  destruct Hc as (_ & _ & _ & _ & Ho & _ & Hfin).
  destruct (Ho h Hh (Hfin Hdone h Hh)) as [c Hc]. pose proof (Hd _ _ Hc) as Hk.
  destruct c as [l|ls]; [done|]. exists ls. split; [done|apply Hk].
Qed.

(** and together they hold one line per key *)
Lemma job_lines mapf reducef input sort_kv fl n s
    (Hn : (0 < n)%nat)
    (Hin : ∀ f, f ∈ fl → is_Some (input f))
    (Hutf8 : Forall utf8_kv (all_pairs mapf input fl))
    (Hsort : ∀ l, sort_kv l ≡ₚ l ∧ StronglySorted key_le (sort_kv l))
    (Hdec : ∀ h ls, (h < n)%nat → is_output mapf reducef input sort_kv fl n h ls → decode_lines ls = [])
    (Hred : ∀ k vs vs', vs ≡ₚ vs' → reducef k vs = reducef k vs') :
  rtc (step mapf reducef input sort_kv) (init fl n) s → Done (coord s) = true →
  ∃ ks, NoDup ks ∧ (∀ k, k ∈ ks ↔ has_key k (all_pairs mapf input fl))
    ∧ results n s ≡ₚ result_line mapf reducef input fl <$> ks.
Proof.
  intros Hr Hdone. pose proof (job_outputs _ _ _ _ _ _ _ Hn Hin Hdec Hr Hdone) as Houts.
  destruct (Hsort (all_pairs mapf input fl)) as [Hsp Hss].
  destruct (group_canonical reducef Hred (sort_kv (all_pairs mapf input fl)) (all_pairs mapf input fl) Hss Hsp)
    as (ks & E & Hnd & Hks).
  assert (group reducef (sort_kv (all_pairs mapf input fl)) = result_line mapf reducef input fl <$> ks) as E'
    by exact E.
  exists ks. split_and!; [done|done|]. rewrite <-E'.
  unfold results. eapply (outputs_permute mapf reducef input sort_kv sort_kv); try done.
  - intros h Hh. destruct (Houts h Hh) as (ls & -> & Hout). done.
  - unfold mrsequential. by rewrite (intermediate_all mapf input fl Hin).
Qed.

(** An output whose keys stop the JSON decoder reads as no pair, so a repeated
    reduce task finds nothing in the output it finds. *)
Lemma output_reads_nothing mapf reducef input sort_kv fl n h ls
    (Hn : (0 < n)%nat)
    (Hin : ∀ f, f ∈ fl → is_Some (input f))
    (Hutf8 : Forall utf8_kv (all_pairs mapf input fl))
    (Hsort : ∀ l, sort_kv l ≡ₚ l ∧ StronglySorted key_le (sort_kv l))
    (Hred : ∀ k vs vs', vs ≡ₚ vs' → reducef k vs = reducef k vs')
    (Hkeys : ∀ k, has_key k (all_pairs mapf input fl) → inert k) :
  is_output mapf reducef input sort_kv fl n h ls → decode_lines ls = [].
Proof.
  intros Hout. apply decode_lines_inert. intros [k v] Hl. apply Hkeys.
  destruct (output_lines mapf reducef input sort_kv fl n Hsort Hutf8 Hred h ls Hout) as (_ & _ & Hks).
  apply (Hks k). destruct ls as [|l ls]; [done|]. injection Hl as ->. by left.
Qed.

(** C8. MapReduce computes what the sequential program computes, for at least
    one reduce task, readable inputs, a deterministic map function whose pairs are
    well-formed UTF-8 (the intermediate files are JSON, which replaces other
    bytes), a reduce function that does not depend on the order of the values,
    and output lines in which the JSON decoder finds no pair (a repeated reduce
    task also reads the output file; lines that start with null are an example of
    what it must not start with, [null_word_gains_a_line]).  Then, whenever [Done]
    reports the end of the job, however workers crashed, were slow or repeated
    each other's tasks, every output file exists, and together they hold the
    lines of mrsequential's output, each exactly once. *)
Theorem mapreduce_is_sequential mapf reducef input sort_kv sort_seq fl n s
    (Hn : (0 < n)%nat)
    (Hin : ∀ f, f ∈ fl → is_Some (input f))
    (Hutf8 : Forall utf8_kv (all_pairs mapf input fl))
    (Hsort : ∀ l, sort_kv l ≡ₚ l ∧ StronglySorted key_le (sort_kv l))
    (Hsort' : ∀ l, sort_seq l ≡ₚ l ∧ StronglySorted key_le (sort_seq l))
    (Hdec : ∀ h ls, (h < n)%nat → is_output mapf reducef input sort_kv fl n h ls → decode_lines ls = [])
    (Hred : ∀ k vs vs', vs ≡ₚ vs' → reducef k vs = reducef k vs') :
  rtc (step mapf reducef input sort_kv) (init fl n) s → Done (coord s) = true →
  (∀ h, (h < n)%nat → ∃ ls, dir s !! Out h = Some (Lines ls))
  ∧ ∃ ls, mrsequential mapf reducef input sort_seq fl = Some ls ∧ results n s ≡ₚ ls.
Proof.
  intros Hr Hdone. pose proof (job_outputs _ _ _ _ _ _ _ Hn Hin Hdec Hr Hdone) as Houts.
  split; [intros h Hh; destruct (Houts h Hh) as (ls & ? & _); eauto|].
  eexists. split; [unfold mrsequential; by rewrite (intermediate_all mapf input fl Hin)|].
  unfold results. eapply (outputs_permute mapf reducef input sort_kv sort_seq); try done.
  - intros h Hh. destruct (Houts h Hh) as (ls & -> & Hout). done.
  - unfold mrsequential. by rewrite (intermediate_all mapf input fl Hin).
Qed.

(** C22. Crashes and slow workers cannot get the job stuck: from any reachable
    state there is a run (the outstanding timers fire, and one fresh worker is
    left alone) at whose end [Done] reports success. *)
Theorem job_can_complete mapf reducef input sort_kv fl n s
    (Hn : (0 < n)%nat)
    (Hin : ∀ f, f ∈ fl → is_Some (input f))
    (Hdec : ∀ h ls, (h < n)%nat → is_output mapf reducef input sort_kv fl n h ls → decode_lines ls = []) :
  rtc (step mapf reducef input sort_kv) (init fl n) s →
  ∃ s', rtc (step mapf reducef input sort_kv) s s' ∧ Done (coord s') = true.
Proof. apply run_completes; done. Qed.

(** *** A run: one file, one bucket; the first worker dies after its map task was
    handed out, a second one does the work *)
Section demo.
Definition demo_map (f text : string) : list KeyValue :=
  [{| Key := text; Value := "1" |}; {| Key := "a"; Value := "1" |}; {| Key := text; Value := "1" |}].
Definition demo_reduce (k : string) (vs : list string) : string := pretty (length vs).
Definition demo_input (f : string) : option string := Some "b".

#[local] Instance key_le_dec : RelDecision key_le.
Proof. intros a b. unfold key_le. apply _. Defined.
#[local] Instance key_le_total : Total key_le.
Proof. intros a b. unfold key_le. apply String.le_total. Qed.

Definition demo_sort (l : list KeyValue) : list KeyValue := merge_sort key_le l.

Lemma demo_sort_sorts l : demo_sort l ≡ₚ l ∧ StronglySorted key_le (demo_sort l).
Proof. split; [apply merge_sort_Permutation|]. by apply StronglySorted_merge_sort; apply _. Qed.

Lemma demo_reduce_perm k vs vs' : vs ≡ₚ vs' → demo_reduce k vs = demo_reduce k vs'.
Proof. intros Hp. unfold demo_reduce. by rewrite Hp. Qed.

Definition demo_step := step demo_map demo_reduce demo_input demo_sort.

Definition demo_all : list KeyValue :=
  [{| Key := "b"; Value := "1" |}; {| Key := "a"; Value := "1" |}; {| Key := "b"; Value := "1" |}].
Definition demo_end : sys :=
  {| coord := {| files := ["in"]; nReduce := 1; taskStates := [taskStateDone; taskStateDone]; state := phaseFinished |};
     dir := <[Out 0 := Lines [("a", "1"); ("b", "2")]]> {[ Inter 0 0 := Pairs demo_all ]};
     timers := [0%nat; 1%nat]; workers := [WMapWrite 0 0 (make_buckets 1 demo_all); WExited] |}.

Lemma mr_demo_run : rtc demo_step (init ["in"] 1) demo_end.
Proof.
  eapply rtc_l; [apply step_worker_starts|].
  eapply rtc_l; [by apply (step_get_task _ _ _ _ _ 0)|]. simpl.
  eapply rtc_l; [apply (step_timer _ _ _ _ _ 0 0); [reflexivity|vm_compute; reflexivity]|]. simpl.
  eapply rtc_l; [apply step_worker_starts|]. simpl.
  eapply rtc_l; [by apply (step_get_task _ _ _ _ _ 1)|]. simpl.
  eapply rtc_l; [by eapply (step_map_write _ _ _ _ _ 1)|].
  eapply rtc_l; [by eapply (step_map_write _ _ _ _ _ 1)|].
  eapply rtc_l; [by eapply (step_complete _ _ _ _ _ 1)|].
  eapply rtc_l; [by apply (step_get_task _ _ _ _ _ 1)|].
  eapply rtc_l.
  { apply (step_glob _ _ _ _ _ 1 1 0 [Inter 0 0]); [reflexivity|apply NoDup_singleton|].
    intros f. rewrite list_elem_of_singleton. split; [intros ->; split; [by eexists|done]|].
    intros [[c Hc] _]. vm_compute in Hc. destruct f as [x y|y]; [|done].
    destruct (decide (Inter x y = Inter 0 0)) as [|Hne]; [done|].
    assert (({[ Inter 0 0 := Pairs demo_all ]} : gmap fname content) !! Inter x y = Some c) as Hc' by exact Hc.
    rewrite lookup_singleton_ne in Hc' by done. done. }
  eapply rtc_l; [by eapply (step_read _ _ _ _ _ 1)|].
  eapply rtc_l; [by eapply (step_write _ _ _ _ _ 1)|].
  eapply rtc_l; [by eapply (step_complete _ _ _ _ _ 1)|].
  eapply rtc_l; [by apply (step_get_task _ _ _ _ _ 1)|].
  vm_compute. apply rtc_refl.
Qed.

Lemma demo_utf8 : Forall utf8_kv (all_pairs demo_map demo_input ["in"]).
Proof. repeat constructor. Qed.

(** the keys are a and b *)
Lemma demo_quiet n h ls : (0 < n)%nat →
  is_output demo_map demo_reduce demo_input demo_sort ["in"] n h ls → decode_lines ls = [].
Proof.
  intros Hn. apply output_reads_nothing; [done|by eexists|apply demo_utf8|apply demo_sort_sorts|apply demo_reduce_perm|].
  intros k (kv & Hkv & <-).
  assert (kv ∈ demo_all) as Hin by exact Hkv. unfold demo_all in Hin.
  repeat (apply elem_of_cons in Hin as [->|Hin]; [split; [by eexists _, _|done]|]). by apply not_elem_of_nil in Hin.
Qed.

Lemma mapreduce_is_sequential_witness :
  ∃ ls, mrsequential demo_map demo_reduce demo_input demo_sort ["in"] = Some ls ∧ results 1 demo_end ≡ₚ ls.
Proof.
  refine (proj2 (mapreduce_is_sequential demo_map demo_reduce demo_input demo_sort demo_sort ["in"] 1 demo_end
    _ _ _ demo_sort_sorts demo_sort_sorts _ demo_reduce_perm mr_demo_run _)).
  - lia.
  - intros f _. by eexists.
  - apply demo_utf8.
  - intros h ls _. apply demo_quiet. lia.
  - reflexivity.
Defined.

Lemma job_can_complete_witness : ∃ s', rtc demo_step (init ["in"] 2) s' ∧ Done (coord s') = true.
Proof.
  refine (job_can_complete demo_map demo_reduce demo_input demo_sort ["in"] 2 (init ["in"] 2) _ _ _ _).
  - lia.
  - intros f _. by eexists.
  - intros h ls _. apply demo_quiet. lia.
  - apply rtc_refl.
Defined.
End demo.
