(* ===== verification/MrApps.v ===== *)
(** * MapReduce applications

    mrapps/wc.go, mrapps/indexer.go, and the application of the crash test
    (mrapps/crash.go and mrapps/nocrash.go, which differ in what kills them).
    MapReduce is parametric in the map and reduce functions; these instances
    give what the output files of a whole job hold. *)

From S2P Require Import Prelude GoText Json MrFiles MapReduce.
Local Open Scope Z_scope.

(** ** unicode.IsLetter

    Up to U+00FF it is Go's table of Latin-1 properties; above, it is the
    Unicode table of letters, of which the applications need that the
    replacement character is not one. *)
Class UnicodeTable := {
  Letter : Z → bool;
  Letter_RuneError : Letter RuneError = false
}.

Definition latin1_letter (r : Z) : bool :=
  bool_decide (65 ≤ r ≤ 90 ∨ 97 ≤ r ≤ 122 ∨ r = 170 ∨ r = 181 ∨ r = 186
               ∨ 192 ≤ r ≤ 214 ∨ 216 ≤ r ≤ 246 ∨ 248 ≤ r ≤ 255).

Definition IsLetter `{UnicodeTable} (r : Z) : bool :=
  if decide (r ≤ 255) then latin1_letter r else Letter r.

(** [strings.FieldsFunc(contents, ff)] of both applications *)
Definition words `{UnicodeTable} (contents : string) : list string :=
  of_chars <$> FieldsFunc (to_chars contents) (λ r, negb (IsLetter r)).

(** [sort.Strings]: byte by byte *)
Definition sort_strings (l : list string) : list string := merge_sort String.le l.

Module Wc.
Definition Map `{UnicodeTable} (filename contents : string) : list KeyValue :=
  (λ w, {| Key := w; Value := "1" |}) <$> words contents.
Definition Reduce (key : string) (values : list string) : string := of_chars (Itoa (zlen values)).
End Wc.

Module Indexer.
Section indexer.
(** the order in which [for w := range m] meets the words *)
Context `{UnicodeTable} (order : gset string → list string).

Definition Map (document value : string) : list KeyValue :=
  (λ w, {| Key := w; Value := document |}) <$> order (list_to_set (words value)).
Definition Reduce (key : string) (values : list string) : string :=
  (of_chars (Itoa (zlen values)) ++ " " ++ String.concat "," (sort_strings values))%string.
End indexer.
End Indexer.

(** [maybeCrash] ends the worker or does nothing; a worker that ends is a
    worker that takes no more steps *)
Module Crash.
Definition len (s : string) : string := of_chars (Itoa (Z.of_nat (String.length s))).
Definition Map (filename contents : string) : list KeyValue :=
  [{| Key := "a"; Value := filename |};
   {| Key := "b"; Value := len filename |};
   {| Key := "c"; Value := len contents |};
   {| Key := "d"; Value := "xyzzy" |}].
Definition Reduce (key : string) (values : list string) : string :=
  String.concat " " (sort_strings values).
End Crash.

(** ** Words *)

Section words.
Context `{UnicodeTable}.

Lemma letter_starts_word c : (is_ascii c = true → IsLetter (byte c) = true) → word_start c = true.
Proof.
  destruct c as [[] [] [] [] [] [] [] []]; intros Hc; try reflexivity;
    (specialize (Hc eq_refl); vm_compute in Hc; discriminate Hc).
Qed.

Lemma IsLetter_rune r : IsLetter r = true → r ≠ RuneError.
Proof. intros Hr ->. unfold IsLetter in Hr. rewrite decide_False in Hr by (unfold RuneError; lia). by rewrite Letter_RuneError in Hr. Qed.

(** a word starts with a letter and is well-formed text *)
Lemma words_spec contents w :
  w ∈ words contents → (∃ c r, to_chars w = c :: r ∧ word_start c = true) ∧ valid_utf8 (to_chars w) = true.
Proof.
  unfold words. intros (x & -> & Hx)%list_elem_of_fmap. rewrite to_of_chars.
  apply FieldsFunc_words in Hx as (l & Hne & -> & Hl).
  assert (Forall rune_ok l) as Hok.
  { eapply Forall_impl; [exact Hl|]. intros rb [Hlet%negb_false_iff Hin]. simpl in Hlet.
    by eapply range_ok, IsLetter_rune. }
  split.
  - destruct l as [|[r b] l]; [done|]. inversion Hl as [|? ? [Hlet%negb_false_iff _] _]; subst.
    inversion Hok as [|? ? [Hb Hd] _]; subst. simpl in *. destruct b as [|c b]; [done|].
    eexists c, _. split; [done|]. apply letter_starts_word. intros Hc. specialize (Hd []).
    rewrite app_nil_r, DecodeRune_ascii in Hd by done. by simplify_eq.
  - unfold valid_utf8. rewrite range_pieces by done. apply forallb_forall. intros rb Hin%list_elem_of_In.
    rewrite Forall_forall in Hok. destruct (Hok rb Hin) as [_ Hd]. specialize (Hd []). rewrite app_nil_r in Hd.
    rewrite Forall_forall in Hl. destruct (Hl rb Hin) as [Hlet%negb_false_iff _].
    destruct (snd rb) as [|c [|]] eqn:E; try done. destruct (is_ascii c) eqn:Hc; [done|].
    apply bool_decide_eq_false in Hc. exfalso. apply IsLetter_rune in Hlet. unfold DecodeRune in Hd.
    rewrite decide_False in Hd by done. repeat (case_match; simplify_eq/=).
Qed.

End words.

Lemma sort_strings_perm l l' : l ≡ₚ l' → sort_strings l = sort_strings l'.
Proof.
  intros Hl. unfold sort_strings. apply (StronglySorted_unique String.le).
  - apply StronglySorted_merge_sort; apply _.
  - apply StronglySorted_merge_sort; apply _.
  - by rewrite !merge_sort_Permutation.
Qed.

Lemma elem_of_concat_fmap {A B} (g : A → list B) l y : y ∈ concat (g <$> l) ↔ ∃ x, x ∈ l ∧ y ∈ g x.
Proof.
  rewrite list_elem_of_In, in_concat. split.
  - intros (u & Hu%list_elem_of_In%list_elem_of_fmap & Hy%list_elem_of_In). naive_solver.
  - intros (x & Hx & Hy). exists (g x). rewrite <-!list_elem_of_In. split; [by apply list_elem_of_fmap_2|done].
Qed.

Definition text_of (input : string → option string) (f : string) : string := default "" (input f).

Lemma job_pairs mapf input fl :
  (∀ f, f ∈ fl → is_Some (input f)) →
  all_pairs mapf input fl = concat ((λ f, mapf f (text_of input f)) <$> fl).
Proof.
  intros Hin. rewrite all_pairs_files. f_equal. apply list_fmap_ext. intros i f Hf%list_elem_of_lookup_2.
  unfold text_of. by destruct (Hin f Hf) as [text ->].
Qed.

(** the values of a word in the pairs of one document *)
Lemma vals_words w f l :
  NoDup l → vals w ((λ w, {| Key := w; Value := f |}) <$> l) = if decide (w ∈ l) then [f] else [].
Proof.
  induction 1 as [|x l Hx Hl IH]; [done|]. rewrite fmap_cons. unfold vals in *. rewrite filter_cons. simpl.
  destruct (decide (x = w)) as [->|Hne].
  - rewrite (decide_True (P := w ∈ w :: l)) by (by left). rewrite fmap_cons, IH, decide_False by done. done.
  - rewrite IH. destruct (decide (w ∈ l)), (decide (w ∈ x :: l)); try done; set_solver.
Qed.

(** ** Word count *)

Section apps.
Context `{UnicodeTable} (input : string → option string) (fl : list string).
Hypothesis inputs_there : ∀ f, f ∈ fl → is_Some (input f).

(** every word of the input, with repetitions *)
Definition all_words : list string := concat ((λ f, words (text_of input f)) <$> fl).
Definition occurrences (w : string) : nat := length (filter (λ x, x = w) all_words).

Lemma wc_pairs : all_pairs Wc.Map input fl = (λ w, {| Key := w; Value := "1" |}) <$> all_words.
Proof.
  rewrite job_pairs by done. unfold all_words, Wc.Map.
  clear. induction fl as [|f fs IH]; [done|]. rewrite !fmap_cons. cbn [concat]. by rewrite fmap_app, IH.
Qed.

Lemma wc_has_key w : has_key w (all_pairs Wc.Map input fl) ↔ w ∈ all_words.
Proof.
  rewrite wc_pairs. unfold has_key. split.
  - intros (kv & (x & -> & Hx)%list_elem_of_fmap & <-). done.
  - intros Hw. eexists. split; [by apply list_elem_of_fmap_2|done].
Qed.

Lemma wc_vals w : length (vals w (all_pairs Wc.Map input fl)) = occurrences w.
Proof.
  rewrite wc_pairs. unfold vals, occurrences. rewrite length_fmap.
  induction all_words as [|x ws IH]; [done|]. rewrite fmap_cons, !filter_cons. simpl.
  by case_decide; simpl; rewrite IH.
Qed.

Lemma wc_utf8 : Forall utf8_kv (all_pairs Wc.Map input fl).
Proof.
  rewrite wc_pairs. apply Forall_fmap, Forall_forall. intros w (f & _ & [_ Hw]%words_spec)%elem_of_concat_fmap.
  by split.
Qed.

Lemma words_inert w :
  w ∈ all_words → strip (to_chars "null") (to_chars w) = None → inert w.
Proof.
  unfold all_words. intros (f & _ & [Hw _]%words_spec)%elem_of_concat_fmap Hnull. by split.
Qed.

(** ** The index *)

Definition docs (w : string) : list string := filter (λ f, w ∈ words (text_of input f)) fl.

Section index.
Context (order : gset string → list string).
Hypothesis order_elements : ∀ m, order m ≡ₚ elements m.

Lemma index_order w f : NoDup (order (list_to_set (words (text_of input f))))
  ∧ (w ∈ order (list_to_set (words (text_of input f))) ↔ w ∈ words (text_of input f)).
Proof.
  rewrite order_elements, elem_of_elements, elem_of_list_to_set. split; [apply NoDup_elements|done].
Qed.

Lemma index_utf8 : (∀ f, f ∈ fl → valid_utf8 (to_chars f) = true) →
  Forall utf8_kv (all_pairs (Indexer.Map order) input fl).
Proof.
  intros Hf. rewrite job_pairs by done. apply Forall_forall. intros kv (f & Hin & Hkv)%elem_of_concat_fmap.
  unfold Indexer.Map in Hkv. apply list_elem_of_fmap in Hkv as (w & -> & Hw).
  apply index_order, words_spec in Hw as [_ Hw]. split; [done|by apply Hf].
Qed.

Lemma index_vals w : vals w (all_pairs (Indexer.Map order) input fl) = docs w.
Proof.
  rewrite job_pairs by done. unfold docs, Indexer.Map. clear inputs_there.
  induction fl as [|f fs IH]; [done|]. rewrite fmap_cons, filter_cons. cbn [concat].
  rewrite vals_app, IH. destruct (index_order w f) as [Hnd Hw]. rewrite vals_words by done.
  destruct (decide (w ∈ order _)), (decide (w ∈ words _)); try done; tauto.
Qed.

Lemma index_has_key w : has_key w (all_pairs (Indexer.Map order) input fl) ↔ w ∈ all_words.
Proof.
  rewrite job_pairs by done. unfold has_key, all_words, Indexer.Map. setoid_rewrite elem_of_concat_fmap. split.
  - intros (kv & (f & Hf & (x & -> & Hx)%list_elem_of_fmap) & <-). exists f. by apply (index_order x f) in Hx.
  - intros (f & Hf & Hw). apply (index_order w f) in Hw. exists {| Key := w; Value := f |}.
    split; [|done]. exists f. split; [done|]. apply list_elem_of_fmap. by exists w.
Qed.
End index.
End apps.

(** ** What whole jobs compute *)

(** a job whose keys stop the decoder: its lines, whatever the workers did *)
Lemma app_lines mapf reducef input sort_kv fl n s
    (Hn : (0 < n)%nat)
    (Hin : ∀ f, f ∈ fl → is_Some (input f))
    (Hsort : ∀ l, sort_kv l ≡ₚ l ∧ StronglySorted key_le (sort_kv l))
    (Hred : ∀ k vs vs', vs ≡ₚ vs' → reducef k vs = reducef k vs')
    (Hutf8 : Forall utf8_kv (all_pairs mapf input fl))
    (Hkeys : ∀ k, has_key k (all_pairs mapf input fl) → inert k) :
  rtc (step mapf reducef input sort_kv) (init fl n) s → Done (coord s) = true →
  ∃ ks, NoDup ks ∧ (∀ k, k ∈ ks ↔ has_key k (all_pairs mapf input fl))
    ∧ results n s ≡ₚ (λ k, (k, reducef k (vals k (all_pairs mapf input fl)))) <$> ks.
Proof.
  intros Hr Hdone. apply (job_lines mapf reducef input sort_kv fl n s Hn Hin Hutf8 Hsort); [|done..].
  intros h ls _ Hout. by apply (output_reads_nothing mapf reducef input sort_kv fl n h ls).
Qed.

(** C24. Word count: when the job is done, however workers crashed or repeated
    tasks, the output files hold one line per word of the input (a maximal run
    of letters), with the number of its occurrences in all files, provided that
    no word starts with the letters null (which a repeated reduce task would
    take for a JSON value). *)
Theorem word_count_correct `{UnicodeTable} input sort_kv fl n s
    (Hn : (0 < n)%nat)
    (Hin : ∀ f, f ∈ fl → is_Some (input f))
    (Hsort : ∀ l, sort_kv l ≡ₚ l ∧ StronglySorted key_le (sort_kv l))
    (Hnull : ∀ w, w ∈ all_words input fl → strip (to_chars "null") (to_chars w) = None) :
  rtc (step Wc.Map Wc.Reduce input sort_kv) (init fl n) s → Done (coord s) = true →
  ∃ ws, NoDup ws ∧ (∀ w, w ∈ ws ↔ w ∈ all_words input fl)
    ∧ results n s ≡ₚ (λ w, (w, of_chars (Itoa (Z.of_nat (occurrences input fl w))))) <$> ws.
Proof.
  intros Hr Hdone. destruct (app_lines Wc.Map Wc.Reduce input sort_kv fl n s) as (ks & Hnd & Hks & Hres); try done.
  - intros k vs vs' Hp. unfold Wc.Reduce, zlen. by rewrite Hp.
  - by apply wc_utf8.
  - intros k Hk%wc_has_key; [|done]. eauto using words_inert.
  - exists ks. split_and!; [done|intros w; by rewrite Hks, wc_has_key|]. rewrite Hres.
    apply (reflexive_eq (R:=Permutation)), list_fmap_ext. intros i w _. unfold Wc.Reduce, zlen. by rewrite wc_vals.
Qed.

(** The inverted index: one line per word, with the number of documents that
    contain it and their names in order, in whatever order Go iterates over the
    set of words (with the proviso of word count, and names that are UTF-8). *)
Theorem index_correct `{UnicodeTable} order input sort_kv fl n s
    (Hn : (0 < n)%nat)
    (Hin : ∀ f, f ∈ fl → is_Some (input f))
    (Hsort : ∀ l, sort_kv l ≡ₚ l ∧ StronglySorted key_le (sort_kv l))
    (Horder : ∀ m, order m ≡ₚ elements m)
    (Hnames : ∀ f, f ∈ fl → valid_utf8 (to_chars f) = true)
    (Hnull : ∀ w, w ∈ all_words input fl → strip (to_chars "null") (to_chars w) = None) :
  rtc (step (Indexer.Map order) Indexer.Reduce input sort_kv) (init fl n) s → Done (coord s) = true →
  ∃ ws, NoDup ws ∧ (∀ w, w ∈ ws ↔ w ∈ all_words input fl)
    ∧ results n s ≡ₚ
      (λ w, (w, (of_chars (Itoa (zlen (docs input fl w))) ++ " "
                 ++ String.concat "," (sort_strings (docs input fl w)))%string)) <$> ws.
Proof.
  intros Hr Hdone.
  destruct (app_lines (Indexer.Map order) Indexer.Reduce input sort_kv fl n s) as (ks & Hnd & Hks & Hres); try done.
  - intros k vs vs' Hp. unfold Indexer.Reduce, zlen. by rewrite (sort_strings_perm _ _ Hp), Hp.
  - by apply index_utf8.
  - intros k Hk%index_has_key; [|done|done]. eauto using words_inert.
  - exists ks. split_and!; [done|intros w; by rewrite Hks, index_has_key|]. rewrite Hres.
    apply (reflexive_eq (R:=Permutation)), list_fmap_ext. intros i w _. unfold Indexer.Reduce. by rewrite index_vals.
Qed.

(** *** The crash test *)

(** What the crash test expects: whatever the crashes, the lines of a sequential
    run, each with the sorted values of all files. *)
Definition crash_line (input : string → option string) (fl : list string) (k : string) : line :=
  let value f := match k with
                 | "a" => f
                 | "b" => Crash.len f
                 | "c" => Crash.len (text_of input f)
                 | _ => "xyzzy"
                 end%string in
  (k, String.concat " " (sort_strings (value <$> fl))).

Definition crash_keys : list string := ["a"; "b"; "c"; "d"].

Lemma crash_vals input fl k :
  (∀ f, f ∈ fl → is_Some (input f)) → k ∈ crash_keys →
  (k, Crash.Reduce k (vals k (all_pairs Crash.Map input fl))) = crash_line input fl k.
Proof.
  intros Hin Hk. rewrite job_pairs by done. unfold crash_line, Crash.Reduce. do 3 f_equal. clear Hin.
  induction fl as [|f fs IH]; [done|]. rewrite !fmap_cons. cbn [concat]. rewrite vals_app, IH. clear IH.
  repeat (apply elem_of_cons in Hk as [->|Hk]; [reflexivity|]). by apply not_elem_of_nil in Hk.
Qed.

Lemma crash_utf8 input fl :
  (∀ f, f ∈ fl → is_Some (input f)) → (∀ f, f ∈ fl → valid_utf8 (to_chars f) = true) →
  Forall utf8_kv (all_pairs Crash.Map input fl).
Proof.
  intros Hin Hf. rewrite job_pairs by done. apply Forall_forall. intros kv (f & Hx & Hkv)%elem_of_concat_fmap.
  assert (∀ s, valid_utf8 (to_chars (Crash.len s)) = true) as Hlen.
  { intros s. unfold Crash.len. rewrite to_of_chars. apply valid_utf8_ascii, Itoa_ascii. }
  unfold Crash.Map in Hkv. repeat (apply elem_of_cons in Hkv as [->|Hkv]; [split; [done|cbn [Value]; first [done|by apply Hlen|by apply Hf]]|]).
  by apply not_elem_of_nil in Hkv.
Qed.

Lemma crash_has_key input fl k :
  (∀ f, f ∈ fl → is_Some (input f)) → fl ≠ [] → has_key k (all_pairs Crash.Map input fl) ↔ k ∈ crash_keys.
Proof.
  intros Hin Hne. rewrite job_pairs by done. unfold has_key. setoid_rewrite elem_of_concat_fmap. split.
  - intros (kv & (f & _ & Hkv) & <-). unfold Crash.Map in Hkv.
    repeat (apply elem_of_cons in Hkv as [->|Hkv]; [unfold crash_keys; simpl; set_solver|]).
    by apply not_elem_of_nil in Hkv.
  - intros Hk. destruct fl as [|f fs]; [done|]. unfold crash_keys in Hk.
    assert (∀ kv, kv ∈ Crash.Map f (text_of input f) →
      ∃ kv', (∃ x, x ∈ f :: fs ∧ kv' ∈ Crash.Map x (text_of input x)) ∧ Key kv' = Key kv) as Hm.
    { intros kv Hkv. exists kv. split; [|done]. exists f. split; [by left|done]. }
    repeat (apply elem_of_cons in Hk as [->|Hk];
            [match goal with |- context [Key _ = ?k] =>
               match eval cbv [Crash.Map] in (Crash.Map f (text_of input f)) with
               | context [{| Key := k; Value := ?v |}] => apply (Hm {| Key := k; Value := v |}); unfold Crash.Map; set_solver
               end end|]).
    by apply not_elem_of_nil in Hk.
Qed.

(** The crash test's job holds exactly the four lines of a sequential run,
    whatever the crashes; its keys need no proviso (the names of its files are
    UTF-8). *)
Theorem crash_test_result input sort_kv fl n s
    (Hn : (0 < n)%nat) (Hne : fl ≠ [])
    (Hin : ∀ f, f ∈ fl → is_Some (input f))
    (Hnames : ∀ f, f ∈ fl → valid_utf8 (to_chars f) = true)
    (Hsort : ∀ l, sort_kv l ≡ₚ l ∧ StronglySorted key_le (sort_kv l)) :
  rtc (step Crash.Map Crash.Reduce input sort_kv) (init fl n) s → Done (coord s) = true →
  results n s ≡ₚ crash_line input fl <$> crash_keys.
Proof.
  intros Hr Hdone. destruct (app_lines Crash.Map Crash.Reduce input sort_kv fl n s) as (ks & Hnd & Hks & Hres); try done.
  - intros k vs vs' Hp. unfold Crash.Reduce. by rewrite (sort_strings_perm _ _ Hp).
  - by apply crash_utf8.
  - intros k Hk%crash_has_key; [|done|done]. unfold crash_keys in Hk.
    repeat (apply elem_of_cons in Hk as [->|Hk]; [split; [by eexists _, _|done]|]). by apply not_elem_of_nil in Hk.
  - rewrite Hres. assert (ks ≡ₚ crash_keys) as Hp.
    { apply NoDup_Permutation; [done|apply (bool_decide_unpack _); by vm_compute|].
      intros k. by rewrite Hks, crash_has_key. }
    rewrite <-Hp. apply (reflexive_eq (R:=Permutation)), list_fmap_ext. intros i k Hk%list_elem_of_lookup_2.
    apply crash_vals; [done|]. by rewrite <-Hp.
Qed.

(* ------------------------------------------------------------------ *)
(** ** Runs

    A schedule of steps as a function, to run whole jobs. *)

Inductive job_action :=
| JStart                 (** a worker starts *)
| JGetTask (w : nat)
| JWork (w : nat)        (** a file is written, or the files are listed or read *)
| JComplete (w : nat)
| JTimer (t : nat).

Section schedule.
Context (mapf : string → string → list KeyValue) (reducef : string → list string → string).
Context (input : string → option string) (sort_kv : list KeyValue → list KeyValue).

Definition list_files (h : nat) (d : gmap fname content) : list fname :=
  filter (λ f, matches h f = true) (fst <$> map_to_list d).

Definition work (w : nat) (s : sys) : option sys :=
  match workers s !! w with
  | Some (WMapWrite id y buckets) =>
      Some (set_worker w (snd (write_bucket id y buckets (dir s)))
              (set_dir (fst (write_bucket id y buckets (dir s))) s))
  | Some (WGlob id h) => Some (set_worker w (WRead id h (list_files h (dir s)) []) s)
  | Some (WRead id h (f :: names) allKv) =>
      Some (set_worker w (read_file id h f names allKv (dir s)) s)
  | Some (WRead id h [] allKv) =>
      Some (set_worker w (snd (write_output reducef sort_kv id h allKv (dir s)))
              (set_dir (fst (write_output reducef sort_kv id h allKv (dir s))) s))
  | _ => None
  end.

Definition job_step (a : job_action) (s : sys) : option sys :=
  match a with
  | JStart => Some {| coord := coord s; dir := dir s; timers := timers s; workers := workers s ++ [WIdle] |}
  | JGetTask w =>
      match workers s !! w, GetTask (coord s) with
      | Some WIdle, Ret (c, r, t) =>
          Some (set_worker w (or_exited (dispatch mapf input r)) (add_timer t (set_coord c s)))
      | _, _ => None
      end
  | JWork w => work w s
  | JComplete w =>
      match workers s !! w with
      | Some (WComplete id) => c ← of_ret (CompleteTask (Z.of_nat id) (coord s)); Some (set_worker w WIdle (set_coord c s))
      | _ => None
      end
  | JTimer t =>
      i ← timers s !! t;
      c ← of_ret (timer i (coord s));
      Some {| coord := c; dir := dir s; timers := delete t (timers s); workers := workers s |}
  end.

Fixpoint job_run (l : list job_action) (s : sys) : option sys :=
  match l with
  | [] => Some s
  | a :: l' => s' ← job_step a s; job_run l' s'
  end.

Lemma work_step w s s' : work w s = Some s' → step mapf reducef input sort_kv s s'.
Proof.
  unfold work. destruct (workers s !! w) as [[| | |id h|id h [|f names] allKv|]|] eqn:E; intros [= <-].
  - by apply step_map_write.
  - apply step_glob; [done| |].
    + apply NoDup_filter, NoDup_fst_map_to_list.
    + intros f. unfold list_files. rewrite list_elem_of_filter, list_elem_of_fmap. split.
      * intros (Hm & [g c] & -> & Hg%elem_of_map_to_list). eauto.
      * intros [[c Hc] Hm]. split; [done|]. exists (f, c). by rewrite elem_of_map_to_list.
  - by apply step_write.
  - by apply step_read.
Qed.

Lemma job_step_step a s s' : job_step a s = Some s' → step mapf reducef input sort_kv s s'.
Proof.
  destruct a as [|w|w|w|t]; simpl.
  - intros [= <-]. constructor.
  - destruct (workers s !! w) as [[]|] eqn:E; try done.
    destruct (GetTask (coord s)) as [[[c r] t]| |] eqn:Eg; try done. intros [= <-]. by apply step_get_task.
  - apply work_step.
  - destruct (workers s !! w) as [[]|] eqn:E; try done.
    destruct (of_ret _) as [c|] eqn:Ec; [|done]. apply of_ret_Some in Ec. intros [= <-]. by eapply step_complete.
  - destruct (timers s !! t) as [i|] eqn:E; [|done]. simpl.
    destruct (of_ret _) as [c|] eqn:Ec; [|done]. apply of_ret_Some in Ec. intros [= <-]. by eapply step_timer.
Qed.

Lemma job_run_rtc l s s' : job_run l s = Some s' → rtc (step mapf reducef input sort_kv) s s'.
Proof.
  revert s. induction l as [|a l IH]; intros s E; simpl in E; [simplify_eq; constructor|].
  destruct (job_step a s) as [s1|] eqn:E1; [|done]. eapply rtc_l; [by eapply job_step_step|by apply IH].
Qed.
End schedule.

Module MrDemo.
(** letters: Latin-1, Greek and Cyrillic *)
#[export] Instance demo_table : UnicodeTable := {
  Letter r := bool_decide (913 ≤ r ≤ 1153);
  Letter_RuneError := eq_refl
}.

Definition file (text f : string) : option string := Some text.

(** one file and one bucket; the reduce task takes too long and is done twice,
    the second time when its output is there *)
Definition twice : list job_action :=
  [JStart; JGetTask 0; JWork 0; JWork 0; JComplete 0;
   JGetTask 0; JWork 0; JWork 0; JWork 0; JTimer 1;
   JStart; JGetTask 1; JWork 1; JWork 1; JWork 1; JWork 1; JComplete 1; JGetTask 1].

Definition wc_run (text : string) : sys :=
  default (init [] 0) (job_run Wc.Map Wc.Reduce (file text) demo_sort twice (init ["in"] 1)).
Definition index_run (text : string) : sys :=
  default (init [] 0) (job_run (Indexer.Map elements) Indexer.Reduce (file text) demo_sort twice (init ["in"] 1)).
Definition crash_run (text : string) : sys :=
  default (init [] 0) (job_run Crash.Map Crash.Reduce (file text) demo_sort twice (init ["in"] 1)).

Definition text : string := "to be, or not to be; naïve κόσμε".

Lemma wc_run_ok : job_run Wc.Map Wc.Reduce (file text) demo_sort twice (init ["in"] 1) = Some (wc_run text).
Proof. vm_compute. reflexivity. Qed.
Lemma index_run_ok :
  job_run (Indexer.Map elements) Indexer.Reduce (file text) demo_sort twice (init ["in"] 1) = Some (index_run text).
Proof. vm_compute. reflexivity. Qed.
Lemma crash_run_ok :
  job_run Crash.Map Crash.Reduce (file text) demo_sort twice (init ["in"] 1) = Some (crash_run text).
Proof. vm_compute. reflexivity. Qed.
Lemma null_run_ok :
  job_run Wc.Map Wc.Reduce (file "null") demo_sort twice (init ["in"] 1) = Some (wc_run "null").
Proof. vm_compute. reflexivity. Qed.

Lemma readable t f : f ∈ ["in"] → is_Some (file t f).
Proof. by eexists. Qed.
Lemma names_utf8 f : f ∈ ["in"] → valid_utf8 (to_chars f) = true.
Proof. by intros ->%list_elem_of_singleton. Qed.
Lemma no_null : ∀ w, w ∈ all_words (file text) ["in"] → strip (to_chars "null") (to_chars w) = None.
Proof. apply Forall_forall. apply (bool_decide_unpack _). vm_compute. exact I. Qed.
End MrDemo.
#[local] Existing Instance MrDemo.demo_table.

Lemma word_count_correct_witness :
  ∃ ws, NoDup ws ∧ (∀ w, w ∈ ws ↔ w ∈ all_words (MrDemo.file MrDemo.text) ["in"])
    ∧ results 1 (MrDemo.wc_run MrDemo.text)
      ≡ₚ (λ w, (w, of_chars (Itoa (Z.of_nat (occurrences (MrDemo.file MrDemo.text) ["in"] w))))) <$> ws.
Proof.
  refine (word_count_correct (MrDemo.file MrDemo.text) demo_sort ["in"] 1 (MrDemo.wc_run MrDemo.text)
    _ (MrDemo.readable _) demo_sort_sorts MrDemo.no_null (job_run_rtc _ _ _ _ _ _ _ MrDemo.wc_run_ok) _).
  - lia.
  - vm_compute. reflexivity.
Defined.

Lemma index_correct_witness :
  ∃ ws, NoDup ws ∧ (∀ w, w ∈ ws ↔ w ∈ all_words (MrDemo.file MrDemo.text) ["in"])
    ∧ results 1 (MrDemo.index_run MrDemo.text)
      ≡ₚ (λ w, (w, (of_chars (Itoa (zlen (docs (MrDemo.file MrDemo.text) ["in"] w))) ++ " "
                    ++ String.concat "," (sort_strings (docs (MrDemo.file MrDemo.text) ["in"] w)))%string)) <$> ws.
Proof.
  refine (index_correct elements (MrDemo.file MrDemo.text) demo_sort ["in"] 1 (MrDemo.index_run MrDemo.text)
    _ (MrDemo.readable _) demo_sort_sorts _ MrDemo.names_utf8 MrDemo.no_null (job_run_rtc _ _ _ _ _ _ _ MrDemo.index_run_ok) _).
  - lia.
  - reflexivity.
  - vm_compute. reflexivity.
Defined.

Lemma crash_test_result_witness :
  results 1 (MrDemo.crash_run MrDemo.text)
    ≡ₚ crash_line (MrDemo.file MrDemo.text) ["in"] <$> crash_keys.
Proof.
  refine (crash_test_result (MrDemo.file MrDemo.text) demo_sort ["in"] 1 (MrDemo.crash_run MrDemo.text)
    _ _ (MrDemo.readable _) MrDemo.names_utf8 demo_sort_sorts (job_run_rtc _ _ _ _ _ _ _ MrDemo.crash_run_ok) _).
  - lia.
  - done.
  - vm_compute. reflexivity.
Defined.

(** The proviso of word count is needed: for the text null, a job whose
    reduce task is done twice ends with a line too many, because the second
    time the pattern of the intermediate files also matches the output file,
    whose first line starts with a JSON value. *)
Theorem null_word_gains_a_line :
  ∃ s, rtc (step Wc.Map Wc.Reduce (MrDemo.file "null") demo_sort) (init ["in"] 1) s
    ∧ Done (coord s) = true
    ∧ results 1 s = [("", "1"); ("null", "1")]
    ∧ mrsequential Wc.Map Wc.Reduce (MrDemo.file "null") demo_sort ["in"] = Some [("null", "1")].
Proof.
  exists (MrDemo.wc_run "null"). split; [apply (job_run_rtc _ _ _ _ _ _ _ MrDemo.null_run_ok)|].
  vm_compute. done.
Qed.
